(* ===== verification/_CoqProject ===== *)
-Q . S2P
Prelude.v
Replay.v
IkePayload.v
IkeMsg.v
Crypto.v
Esp.v
IkeSA.v
Suite.v
Natt.v
Protected.v
Session.v
Rekey.v
Driver.v
Stable.v
Invariant.v
Demo.v
DriverProps.v
Window.v
Liveness.v
RekeyAgree.v
IkeRekeyAgree.v
Lineage.v
Eap.v
Auth.v
SaInit.v
IkeAuth.v
Config.v
DataPlane.v
Client.v
Handshake.v
HandshakeAuth.v
HandshakeDemo.v
HandshakeProps.v
Cutover.v
ClientProps.v
ClientLife.v
Socks5.v
Relay.v
Cli.v
Transport.v
Workers.v
