(* ===== verification/Prelude.v ===== *)
(** * go-ipsec: a userspace IKEv2 + ESP client, verified

    go-ipsec dials an IKEv2 responder, authenticates it and itself, negotiates a Child SA
    and carries IP packets over ESP in UDP to a userspace network stack; it rekeys, probes
    its peer, reconnects, and cmd/ipsec2socks offers the tunnel as a SOCKS5 proxy.  This
    library is a shallow embedding of that code: pure functions are functions, fallible
    code returns [Res] ([Ok], [Err], and [Panic] for a runtime panic), methods are
    programs in the state monad [ST] over a record of the object's fields, and goroutines
    that interleave are step relations.  Octets are integers in 0..255 ([bytes_ok]), machine
    integers are [Z] with their wrap-around written out ([u8], [u32], [u64], [i64]), and
    every index and slice of the source is a checked operation.

    ** Files and sources

    Prelude        outcomes, the state monad, slices, big-endian codecs, tactics and hints
    Replay         internal/esp/replay.go: the anti-replay bitmap and its specification
    IkePayload     internal/ikemsg: constants, the sixteen payload types, body codecs
    IkeMsg         internal/ikemsg/{payload,message}.go: payload chain and message header
    Crypto         the interface [Primitives] with its laws, and a toy instance
    Esp            internal/esp/esp.go: an ESP SA; Module Counter: concurrent Encrypt calls
    IkeSA          internal/ikesa: Diffie-Hellman, key schedule, SK envelope, Child keys
    Suite          internal/session/suite.go: proposals and selection
    Natt           internal/natt, internal/session/natt.go: NAT-T framing and detection
    Protected      internal/session/protected.go: SK-protected messages
    Session        internal/session: Session, Config, pending exchanges, the [World]
    Rekey          internal/session/rekey.go: CREATE_CHILD_SA in both roles
    Driver         internal/session/informational.go: the control loop
    Stable, Invariant, Demo                the session invariant and a concrete session
    DriverProps, Window, Liveness          theorems about the control loop
    RekeyAgree, IkeRekeyAgree, Lineage     theorems about rekeying
    Eap            internal/eap: packets, the MSCHAPv2 peer, the MSK
    Auth           internal/auth: AUTH values, certificate and name checks
    SaInit         internal/session/session.go: IKE_SA_INIT and the exchange primitive
    IkeAuth        internal/session/ikeauth.go: IKE_AUTH with PSK and with EAP
    Config         config.go, identity.go, toSessionConfig of ipsec.go
    DataPlane      dataplane.go, internal/tunnel/tunnel.go: registry, timers, receiver
    Client         ipsec.go, reconnect.go: Dial, reconnect, Close, accessors
    Handshake, HandshakeAuth, HandshakeDemo, HandshakeProps    theorems about a handshake
    Cutover        the client's goroutines as a step relation, and its invariant
    ClientProps, ClientLife                theorems about a dialled client
    Socks5         cmd/ipsec2socks/socks5.go: one connection up to its relay
    Relay          splice and serveListener of socks5.go
    Cli            cmd/ipsec2socks/main.go, resolver.go
    Transport      internal/transport/udp.go; Module Cancel: interrupting a Recv
    Workers        Modules Manager (internal/workers), EspConn (the reader of
                   internal/tunnel) and Netstack (netstack and Close of ipsec.go)

    Names are the source's; a clash is resolved by a prefix ([Packet_Parse],
    [tunnel_Close], [udp_Close]) or by the file.  The fields of a Go struct carry a short
    prefix of the record.

    ** State

    [Session] holds the fields of session.Session with a store of IKE SAs, because the
    current SA, the superseded one and the context a datagram was decoded under alias one
    another; [Client] likewise holds a store of ESP SAs, shared by the tunnel, the
    inbound registry and the grace timers, and the clock those timers are set by.  Ghost fields record what leaves the model: the
    datagrams sent, the Child SAs installed, the packets delivered, the hooks called.

    ** What is outside, and how it enters

    [Primitives]/[PrimitiveLaws] (Crypto) are AES, the AEADs, HMAC and X25519;
    [World]/[WorldLaws] (Session) the clock, crypto/rand, the socket and the data
    plane, indexed by the number of the call; [Network]/[NetworkLaws] (SaInit) what
    arrives in each wait of the handshake; [Radius] (Eap) the RFC 2759 and 3079
    functions of layeh.com/radius; [X509] (Auth) crypto/x509 and encoding/asn1.  The laws
    state documented behaviour only; no law says that a forgery is impossible, so the
    authentication theorems say which check succeeded under which key.  Demo and
    HandshakeDemo instantiate all of them, and the witnesses run there.  The resolver and
    dialer of the proxy and netip.ParseAddr are parameters of the definitions.

    ** What the theorems show

    Wire formats: parsing any octets returns, with an error or a well-formed message, and
    inverts marshalling (IkeMsg); a protected message reaches the peer unchanged and is
    accepted only if its ICV verifies (Protected, IkeSA).  ESP: a stream of packets round
    trips, only authentic packets move the window or yield data, the bitmap refines the
    set of RFC 4303, and concurrent senders never share a nonce (Esp, Replay).
    Negotiation and keys: both ends agree on suite, keys and SPIs, at the handshake and at
    either rekey (Suite, IkeSA, RekeyAgree, IkeRekeyAgree).  Handshake: it returns for
    every network within a bounded number of datagrams, an established session has
    authenticated its peer over exactly the recorded exchange (HandshakeProps).  Control
    loop: no event sequence makes it panic, a forged datagram changes nothing, only an
    authentic Delete ends the session, requests run at most once, a request of ours is
    numbered only while none is outstanding, and an unanswered one is given up
    (DriverProps, Window, Liveness).  Client: Dial returns an error or a tunnel on the
    negotiated Child SA; under every interleaving of driver, timers, receiver, writers,
    supervisor and clock the tunnel runs on the keys the session ordered last, each in its
    direction, the registry holds exactly what is in use or in grace, no packet for an SA
    the tunnel used in the last 30 seconds is lost, reconnect resumes in place, and Close
    stops the client and wipes its secrets (ClientProps, ClientLife).  Surroundings: validation accepts
    exactly the meaningful configurations and they take effect (Config); the transport
    is bound to one host (Transport); a stopped generation has no worker left, a blocked
    Read ends, the netstack is not leaked (Workers); the proxy dials exactly what a
    logged-in client asks for, relays faithfully, and is never open to the network
    (Socks5, Relay, Cli).

    ** Fuel and bounds

    Loops over a shrinking input use [while_nonempty] with the input's length as fuel;
    each step consumes an octet, and running out is [Hang], which the theorems exclude.
    prf+ has 255 iterations, the limit the code itself enforces.  recvMatching has one
    more than the datagrams that arrive.  The EAP rounds and the retransmissions recurse
    on their own limits.  The driver, the receiver and the redial loop recurse on the list
    of events, datagrams and turns they are given, so their theorems hold for every
    finite run; the step relations quantify over all runs.

    ** Not modelled

    Log lines and the text of errors (an error is its constructor); contexts other than
    as the inputs that say a call was cancelled; erasure of stacks and registers
    (internal/secretmem.Do runs its argument); the in-memory transport, a test double;
    go-tun2net and gVisor, of which only the calls at the tunnel's boundary appear; flag
    parsing, signal handling and the reading of the CA file in main.go; opening the
    listening socket; net.IP and netip.Addr text syntax beyond SplitHostPort; the timing
    of constant-time comparisons.  The float64 products that jitter a delay
    (jitteredDeadline, jitterDuration) are the parameter [w_scale] of [World], since Go may
    fuse their operations or not.  Fairness of the Go scheduler is not assumed: liveness is
    stated as a bound on a goroutine's own steps, or as a run that is always possible. *)

From stdpp Require Export base list numbers.
From Stdlib Require Export ZArith Lia.

#[export] Set Default Goal Selector "!".
#[global] Open Scope Z_scope.

(** ** Outcomes of Go code

    [Ok] is a normal return, [Err] a returned error value, [Panic] a runtime
    panic (an index or a slice bound out of range, a nil dereference) and
    [Hang] a loop that has not finished within the fuel its model was given.
    The last two never are results of the code: the theorems exclude them. *)
Inductive Res (E A : Type) : Type :=
| Ok (a : A)
| Err (e : E)
| Panic
| Hang.
Arguments Ok {E A} a.
Arguments Err {E A} e.
Arguments Panic {E A}.
Arguments Hang {E A}.

#[export] Instance Res_ret E : MRet (Res E) := λ A a, Ok a.
#[export] Instance Res_bind E : MBind (Res E) := λ A B f r,
  match r with
  | Ok a => f a
  | Err e => Err e
  | Panic => Panic
  | Hang => Hang
  end.
#[export] Instance Res_fmap E : FMap (Res E) := λ A B f r,
  match r with
  | Ok a => Ok (f a)
  | Err e => Err e
  | Panic => Panic
  | Hang => Hang
  end.

(** The Go function returned: a value or an error, no panic, no divergence. *)
Definition safe {E A} (r : Res E A) : Prop :=
  match r with
  | Ok _ | Err _ => True
  | Panic | Hang => False
  end.

(** [r] is safe, and when it is a value the value satisfies [P]. *)
Definition yields {E A} (P : A → Prop) (r : Res E A) : Prop :=
  match r with
  | Ok a => P a
  | Err _ => True
  | Panic | Hang => False
  end.

Definition is_ok {E A} (r : Res E A) : bool :=
  match r with
  | Ok _ => true
  | _ => false
  end.

(** fmt.Errorf with %w: decorate the error of a failing computation. *)
Definition wrap_err {E F A} (g : E → F) (r : Res E A) : Res F A :=
  match r with
  | Ok a => Ok a
  | Err e => Err (g e)
  | Panic => Panic
  | Hang => Hang
  end.

(** ** Methods that mutate their receiver

    [ST S E A]: run on a state, give the state back together with the outcome.
    What was written before an error or a panic stays written. *)
Definition ST (S E A : Type) : Type := S → S * Res E A.

#[export] Instance ST_ret S E : MRet (ST S E) := λ A a s, (s, Ok a).
#[export] Instance ST_bind S E : MBind (ST S E) := λ A B f m s,
  match m s with
  | (s', Ok a) => f a s'
  | (s', Err e) => (s', Err e)
  | (s', Panic) => (s', Panic)
  | (s', Hang) => (s', Hang)
  end.

Definition lift {S E A} (r : Res E A) : ST S E A := λ s, (s, r).
Definition throw {S E A} (e : E) : ST S E A := λ s, (s, Err e).
Definition getS {S E} : ST S E S := λ s, (s, Ok s).
Definition putS {S E} (s : S) : ST S E unit := λ _, (s, Ok tt).
Definition modifyS {S E} (f : S → S) : ST S E unit := λ s, (f s, Ok tt).

(** Use of a pointer or interface value that may be nil. *)
Definition deref {E A} (p : option A) : Res E A :=
  match p with
  | Some a => Ok a
  | None => Panic
  end.

(** Running a method one call at a time. *)
Section ST.
Context {S E : Type}.

Lemma st_get {A} (f : S → ST S E A) s : (getS ≫= f) s = f s s.
Proof. reflexivity. Qed.
Lemma st_put {A} s' (f : unit → ST S E A) s : (putS s' ≫= f) s = f tt s'.
Proof. reflexivity. Qed.
Lemma st_modify {A} g (f : unit → ST S E A) s : (modifyS g ≫= f) s = f tt (g s).
Proof. reflexivity. Qed.
Lemma st_mret {A B} (a : A) (f : A → ST S E B) s : (mret a ≫= f) s = f a s.
Proof. reflexivity. Qed.
Lemma st_throw {A B} e (f : A → ST S E B) s : (throw e ≫= f) s = (s, Err e).
Proof. reflexivity. Qed.
Lemma st_lift {A B} (r : Res E A) (f : A → ST S E B) s :
  (lift r ≫= f) s =
  match r with
  | Ok a => f a s
  | Err e => (s, Err e)
  | Panic => (s, Panic)
  | Hang => (s, Hang)
  end.
Proof. reflexivity. Qed.
Lemma st_assoc {A B C} (m : ST S E A) (f : A → ST S E B) (g : B → ST S E C) s :
  ((m ≫= f) ≫= g) s = (m ≫= (λ a, f a ≫= g)) s.
Proof. unfold mbind, ST_bind. by destruct (m s) as [s' []]. Qed.
Lemma st_if {A} (b : bool) (m1 m2 : ST S E A) s :
  (if b then m1 else m2) s = if b then m1 s else m2 s.
Proof. by destruct b. Qed.
Lemma st_if_bind {A B} (b : bool) (m1 m2 : ST S E A) (f : A → ST S E B) s :
  ((if b then m1 else m2) ≫= f) s = if b then (m1 ≫= f) s else (m2 ≫= f) s.
Proof. by destruct b. Qed.
Lemma st_lift_end {A} (r : Res E A) (s : S) : lift r s = (s, r).
Proof. reflexivity. Qed.
Lemma st_throw_end {A} e (s : S) : throw (A:=A) e s = (s, Err (E:=E) e).
Proof. reflexivity. Qed.
Lemma st_mret_end {A} (a : A) (s : S) : (mret a : ST S E A) s = (s, Ok a).
Proof. reflexivity. Qed.
End ST.

(** ** Reading a run *)

Lemma st_mbind_run {S E A B} (m : ST S E A) (k : A → ST S E B) s :
  (m ≫= k) s = match m s with
               | (s', Ok a) => k a s'
               | (s', Err e) => (s', Err e)
               | (s', Panic) => (s', Panic)
               | (s', Hang) => (s', Hang)
               end.
Proof. done. Qed.


Lemma run_bind {S E A B} (m : ST S E A) (f : A → ST S E B) s s' b :
  (m ≫= f) s = (s', Ok b) → ∃ a s1, m s = (s1, Ok a) ∧ f a s1 = (s', Ok b).
Proof. unfold mbind, ST_bind. destruct (m s) as [s1 [a|e| |]]; eauto; done. Qed.

Lemma lift_ok {S E A} (r : Res E A) (s s' : S) a : lift r s = (s', Ok a) → s' = s ∧ r = Ok a.
Proof. by intros [= <- ->]. Qed.

(** One step of a successful run: its result, its new state, the rest. *)
Ltac run_step H a s1 H1 := apply run_bind in H as (a & s1 & H1 & H).

Ltac st_step :=
  repeat first
    [ rewrite st_get | rewrite st_put | rewrite st_modify | rewrite st_mret | rewrite st_throw
    | rewrite st_lift | rewrite st_assoc | rewrite st_if_bind | rewrite st_if
    | rewrite st_lift_end | rewrite st_throw_end | rewrite st_mret_end
    | progress cbn [deref Res_bind Res_ret] ].

(** ** Bytes, lengths, machine integers *)

Abbreviation bytes := (list Z).

(** Go's len. *)
Definition len {A} (l : list A) : Z := Z.of_nat (length l).

Definition byte_ok (b : Z) : Prop := 0 ≤ b < 256.
Definition bytes_ok (l : bytes) : Prop := Forall byte_ok l.

#[export] Instance byte_ok_dec b : Decision (byte_ok b).
Proof. unfold byte_ok. apply _. Defined.

(** The unsigned integers of width 8, 16, 32 and 64: conversion wraps. *)
Definition u8 (z : Z) : Z := z mod 2 ^ 8.
Definition u16 (z : Z) : Z := z mod 2 ^ 16.
Definition u32 (z : Z) : Z := z mod 2 ^ 32.
Definition u64 (z : Z) : Z := z mod 2 ^ 64.
(** int64, two's complement *)
Definition i64 (x : Z) : Z := (x + 2 ^ 63) mod 2 ^ 64 - 2 ^ 63.

Definition is_u8 (z : Z) : Prop := 0 ≤ z < 2 ^ 8.
Definition is_u16 (z : Z) : Prop := 0 ≤ z < 2 ^ 16.
Definition is_u32 (z : Z) : Prop := 0 ≤ z < 2 ^ 32.
Definition is_u64 (z : Z) : Prop := 0 ≤ z < 2 ^ 64.

(** b[i] and b[i:j]; out of range is a runtime panic. *)
Definition index {E A} (b : list A) (i : Z) : Res E A :=
  if (0 <=? i) && (i <? len b) then
    match b !! Z.to_nat i with
    | Some x => Ok x
    | None => Panic
    end
  else Panic.

Definition slice {E A} (b : list A) (i j : Z) : Res E (list A) :=
  if (0 <=? i) && (i <=? j) && (j <=? len b)
  then Ok (take (Z.to_nat (j - i)) (drop (Z.to_nat i) b))
  else Panic.

(** b[i] = v *)
Definition store {E A} (b : list A) (i : Z) (v : A) : Res E (list A) :=
  if (0 <=? i) && (i <? len b) then Ok (<[Z.to_nat i:=v]> b) else Panic.

(** b[i:] *)
Definition slice_from {E A} (b : list A) (i : Z) : Res E (list A) :=
  slice b i (len b).

Abbreviation zeros n := (replicate n 0).

(** ** encoding/binary.BigEndian *)

(** The value of a big-endian byte string, and the n low-order bytes of a
    value, most significant first. *)
Fixpoint be_get (l : bytes) : Z :=
  match l with
  | [] => 0
  | b :: l' => Z.lor (Z.shiftl b (8 * len l')) (be_get l')
  end.

Fixpoint be_put (n : nat) (v : Z) : bytes :=
  match n with
  | O => []
  | S n' => u8 (Z.shiftr v (8 * Z.of_nat n')) :: be_put n' v
  end.

(** Uint16/32/64 read a prefix of the slice and panic when it is too short. *)
Definition be_read {E} (n : nat) (b : bytes) : Res E Z :=
  if len b <? Z.of_nat n then Panic else Ok (be_get (take n b)).

Abbreviation Uint16 := (be_read 2).
Abbreviation Uint32 := (be_read 4).
Abbreviation Uint64 := (be_read 8).
Abbreviation put16 := (be_put 2).
Abbreviation put32 := (be_put 4).
Abbreviation put64 := (be_put 8).

(** copy(dst, src): the overlapping prefix is overwritten. *)
Definition copy (dst src : bytes) : bytes :=
  take (length dst) src ++ drop (length src) dst.

(** ** The loop  for len(body) > 0 { ... }

    [step] is one iteration: it consumes a prefix of the remaining bytes and
    updates the accumulated state. *)
Fixpoint while_nonempty {E S} (fuel : nat) (step : S → bytes → Res E (S * bytes))
    (st : S) (body : bytes) : Res E S :=
  match body with
  | [] => Ok st
  | _ :: _ =>
      match fuel with
      | O => Hang
      | Datatypes.S fuel' =>
          '(st', body') ← step st body; while_nonempty fuel' step st' body'
      end
  end.

Definition for_bytes {E S} (step : S → bytes → Res E (S * bytes)) (st : S)
    (body : bytes) : Res E S :=
  while_nonempty (length body) step st body.

(** Every iteration that succeeds leaves strictly fewer bytes. *)
Definition consuming {E S} (step : S → bytes → Res E (S * bytes)) : Prop :=
  ∀ st body st' body',
    bytes_ok body → body ≠ [] → step st body = Ok (st', body') →
    bytes_ok body' ∧ (length body' < length body)%nat.

(** ** Automation *)

Create HintDb go.
Create Rewrite HintDb len.

Ltac case_if :=
  match goal with
  | |- context [if ?b then _ else _] => destruct b eqn:?
  | H : context [if ?b then _ else _] |- _ => destruct b eqn:?
  end.

(** Reduce the binds of computations that have returned. *)
Ltac go_step := cbn [mbind Res_bind mret Res_ret fmap Res_fmap].

(** Turn boolean comparisons in the context into propositions. *)
Ltac bool_prop :=
  repeat match goal with
  | H : _ && _ = true |- _ => apply andb_true_iff in H as [? ?]
  | H : _ || _ = false |- _ => apply orb_false_iff in H as [? ?]
  | H : negb _ = true |- _ => apply negb_true_iff in H
  | H : negb _ = false |- _ => apply negb_false_iff in H
  | H : (_ =? _) = true |- _ => apply Z.eqb_eq in H
  | H : (_ =? _) = false |- _ => apply Z.eqb_neq in H
  | H : (_ <? _) = true |- _ => apply Z.ltb_lt in H
  | H : (_ <? _) = false |- _ => apply Z.ltb_ge in H
  | H : (_ <=? _) = true |- _ => apply Z.leb_le in H
  | H : (_ <=? _) = false |- _ => apply Z.leb_gt in H
  | H : (_ >? _) = true |- _ => apply Z.gtb_lt in H
  end.

(** ** Lengths and slices *)

Lemma len_nil {A} : len (@nil A) = 0.
Proof. reflexivity. Qed.

Lemma len_cons {A} (x : A) l : len (x :: l) = 1 + len l.
Proof. unfold len. cbn [length]. lia. Qed.

Lemma len_app {A} (l1 l2 : list A) : len (l1 ++ l2) = len l1 + len l2.
Proof. unfold len. rewrite length_app. lia. Qed.

Lemma len_nonneg {A} (l : list A) : 0 ≤ len l.
Proof. unfold len. lia. Qed.

Lemma len_replicate {A} n (x : A) : len (replicate n x) = Z.of_nat n.
Proof. unfold len. by rewrite length_replicate. Qed.

Lemma len_take {A} n (l : list A) : len (take n l) = Z.min (Z.of_nat n) (len l).
Proof. unfold len. rewrite length_take. lia. Qed.

Lemma len_drop {A} n (l : list A) : len (drop n l) = Z.max 0 (len l - Z.of_nat n).
Proof. unfold len. rewrite length_drop. lia. Qed.

Lemma len_map {A B} (f : A → B) (l : list A) : len (f <$> l) = len l.
Proof. unfold len. by rewrite length_fmap. Qed.

Lemma len_be_put n v : len (be_put n v) = Z.of_nat n.
Proof. induction n as [|n IH]; [done|]. cbn [be_put]. rewrite len_cons, IH. lia. Qed.

#[export] Hint Rewrite @len_nil @len_cons @len_app @len_replicate @len_take @len_drop
  @len_map len_be_put : len.

(** Normalise every [len], then decide the linear arithmetic that is left. *)
Ltac len_pos :=
  repeat match goal with
  | |- context [len ?l] =>
      lazymatch goal with H : 0 ≤ len l |- _ => fail | _ => pose proof (len_nonneg l) end
  | H0 : context [len ?l] |- _ =>
      lazymatch goal with H : 0 ≤ len l |- _ => fail | _ => pose proof (len_nonneg l) end
  end.
Ltac of_nat_lits :=
  change (Z.of_nat 2) with 2 in *; change (Z.of_nat 4) with 4 in *; change (Z.of_nat 8) with 8 in *.
Ltac len_lia := autorewrite with len in *; of_nat_lits; len_pos; lia.

Lemma slice_ok {E A} (b : list A) i j :
  0 ≤ i → i ≤ j → j ≤ len b →
  slice (E:=E) b i j = Ok (take (Z.to_nat (j - i)) (drop (Z.to_nat i) b)).
Proof.
  intros ???. unfold slice.
  rewrite (proj2 (Z.leb_le 0 i)), (proj2 (Z.leb_le i j)), (proj2 (Z.leb_le j (len b))) by lia.
  done.
Qed.

Lemma slice_ok_inv {E A} (b : list A) i j s :
  slice (E:=E) b i j = Ok s →
  (0 ≤ i ∧ i ≤ j ∧ j ≤ len b) ∧ s = take (Z.to_nat (j - i)) (drop (Z.to_nat i) b).
Proof. unfold slice. case_if; [|done]. bool_prop. intros [= <-]. repeat split; lia. Qed.

Lemma slice_len {E A} (b : list A) i j s : slice (E:=E) b i j = Ok s → len s = j - i.
Proof. intros [? ->]%slice_ok_inv. len_lia. Qed.

Lemma slice_from_ok {E A} (b : list A) i :
  0 ≤ i → i ≤ len b → slice_from (E:=E) b i = Ok (drop (Z.to_nat i) b).
Proof.
  intros ??. unfold slice_from. rewrite slice_ok by lia. f_equal.
  apply take_ge. unfold len in *. rewrite length_drop. lia.
Qed.

(** Cutting a concatenation at its seams. *)
Lemma slice_app_mid {E A} (l1 l2 l3 : list A) i j :
  i = len l1 → j = len l1 + len l2 → slice (E:=E) (l1 ++ l2 ++ l3) i j = Ok l2.
Proof.
  intros -> ->. rewrite slice_ok by len_lia. f_equal. unfold len.
  rewrite drop_app_length' by lia. rewrite take_app_length' by lia. done.
Qed.

Lemma slice_app_l {E A} (l1 l2 : list A) j :
  j = len l1 → slice (E:=E) (l1 ++ l2) 0 j = Ok l1.
Proof. intros ->. apply (slice_app_mid [] l1 l2); len_lia. Qed.

Lemma slice_app_end {E A} (l1 l2 : list A) i j :
  i = len l1 → j = len l1 + len l2 → slice (E:=E) (l1 ++ l2) i j = Ok l2.
Proof. intros -> ->. rewrite <- (app_nil_r l2) at 1. by apply slice_app_mid. Qed.

Lemma slice_from_app {E A} (l1 l2 : list A) i :
  i = len l1 → slice_from (E:=E) (l1 ++ l2) i = Ok l2.
Proof. intros ->. unfold slice_from. apply slice_app_end; len_lia. Qed.

Lemma slice_full {E A} (l : list A) j : j = len l → slice (E:=E) l 0 j = Ok l.
Proof. intros ->. rewrite <- (app_nil_r l) at 1. by apply slice_app_l. Qed.

Lemma index_ok {E A} (b : list A) i :
  0 ≤ i → i < len b → ∃ x, index (E:=E) b i = Ok x ∧ b !! Z.to_nat i = Some x.
Proof.
  intros ??. unfold index. rewrite (proj2 (Z.leb_le 0 i)), (proj2 (Z.ltb_lt i (len b))) by lia.
  destruct (lookup_lt_is_Some_2 b (Z.to_nat i)) as [x Hx]; [unfold len in *; lia|].
  exists x. cbn. by rewrite Hx.
Qed.

Lemma index_lookup {E A} (b : list A) i x :
  0 ≤ i → b !! Z.to_nat i = Some x → index (E:=E) b i = Ok x.
Proof.
  intros ? Hx. pose proof (lookup_lt_Some _ _ _ Hx).
  destruct (index_ok (E:=E) b i) as (y & -> & Hy); [lia|unfold len; lia|]. congruence.
Qed.

Lemma store_ok {E A} (b : list A) i v :
  0 ≤ i → i < len b → store (E:=E) b i v = Ok (<[Z.to_nat i:=v]> b).
Proof.
  intros. unfold store.
  by rewrite (proj2 (Z.leb_le 0 i)), (proj2 (Z.ltb_lt i (len b))) by lia.
Qed.

Lemma len_insert {A} i (v : A) l : len (<[i:=v]> l) = len l.
Proof. unfold len. by rewrite length_insert. Qed.

#[export] Hint Rewrite @len_insert : len.

(** ** Byte strings stay byte strings *)

Lemma bytes_ok_app l1 l2 : bytes_ok (l1 ++ l2) ↔ bytes_ok l1 ∧ bytes_ok l2.
Proof. apply Forall_app. Qed.

Lemma bytes_ok_cons x l : bytes_ok (x :: l) ↔ byte_ok x ∧ bytes_ok l.
Proof. apply Forall_cons_iff. Qed.

Lemma bytes_ok_nil : bytes_ok [].
Proof. constructor. Qed.

Lemma bytes_ok_take n l : bytes_ok l → bytes_ok (take n l).
Proof. apply Forall_take. Qed.

Lemma bytes_ok_drop n l : bytes_ok l → bytes_ok (drop n l).
Proof. apply Forall_drop. Qed.

Lemma bytes_ok_zeros n : bytes_ok (zeros n).
Proof. apply Forall_replicate. unfold byte_ok. lia. Qed.

Lemma bytes_ok_concat ls : Forall bytes_ok ls → bytes_ok (concat ls).
Proof. induction 1; cbn; [constructor|]. by apply bytes_ok_app. Qed.

Lemma byte_ok_u8 z : byte_ok (u8 z).
Proof. unfold byte_ok, u8. apply (Z.mod_pos_bound z (2 ^ 8)). lia. Qed.

Lemma bytes_ok_be_put n v : bytes_ok (be_put n v).
Proof. induction n; cbn [be_put]; constructor; auto using byte_ok_u8. Qed.

Lemma bytes_ok_lookup b i x : bytes_ok b → b !! i = Some x → byte_ok x.
Proof. intros H1 H2. eapply Forall_lookup_1; eauto. Qed.

Lemma bytes_ok_slice {E} b i j s : bytes_ok b → slice (E:=E) b i j = Ok s → bytes_ok s.
Proof. intros ? [_ ->]%slice_ok_inv. by apply bytes_ok_take, bytes_ok_drop. Qed.

#[export] Hint Resolve bytes_ok_nil bytes_ok_take bytes_ok_drop bytes_ok_zeros
  byte_ok_u8 bytes_ok_be_put bytes_ok_concat : go.

Lemma index_byte_ok {E} b i x : bytes_ok b → index (E:=E) b i = Ok x → byte_ok x.
Proof.
  intros Hb. unfold index. case_if; [|done]. destruct (b !! _) eqn:Hx; [|done].
  intros [= <-]. eauto using bytes_ok_lookup.
Qed.

(** ** Bits and big-endian integers *)

Lemma testbit_above n k i : 0 ≤ n < 2 ^ k → 0 ≤ k → k ≤ i → Z.testbit n i = false.
Proof. intros. rewrite <- (Z.mod_small n (2 ^ k)) by done. apply Z.mod_pow2_bits_high. lia. Qed.

(** Disjoint bit fields add up. *)
Lemma lor_shiftl_add a b k :
  0 ≤ k → 0 ≤ b < 2 ^ k → Z.lor (Z.shiftl a k) b = a * 2 ^ k + b.
Proof.
  intros Hk Hb.
  assert (Hd : Z.land (Z.shiftl a k) b = 0).
  { apply Z.bits_inj'. intros n Hn. rewrite Z.land_spec, Z.bits_0, Z.shiftl_spec by lia.
    destruct (Z.lt_ge_cases n k).
    - by rewrite (Z.testbit_neg_r a) by lia.
    - by rewrite (testbit_above b k), andb_false_r by lia. }
  rewrite <- Z.shiftl_mul_pow2, Z.add_nocarry_lxor, Z.lxor_lor by done. done.
Qed.

Lemma be_get_bound l : bytes_ok l → 0 ≤ be_get l < 2 ^ (8 * len l).
Proof.
  induction 1 as [|b l Hb Hl IH]; [change (0 ≤ 0 < 1); lia|].
  cbn [be_get]. pose proof (len_nonneg l). rewrite lor_shiftl_add, len_cons by lia.
  unfold byte_ok in Hb. rewrite Z.mul_add_distr_l, Z.pow_add_r by lia.
  change (2 ^ (8 * 1)) with 256. nia.
Qed.

Lemma be_get_cons b l :
  bytes_ok l → be_get (b :: l) = b * 2 ^ (8 * len l) + be_get l.
Proof.
  intros Hl. cbn [be_get]. pose proof (len_nonneg l). pose proof (be_get_bound l Hl).
  by rewrite lor_shiftl_add by lia.
Qed.

Lemma be_get_app l1 l2 :
  bytes_ok l1 → bytes_ok l2 → be_get (l1 ++ l2) = be_get l1 * 2 ^ (8 * len l2) + be_get l2.
Proof.
  induction 1 as [|b l Hb Hl IH]; intros H2; [cbn; lia|]. cbn [app].
  pose proof (len_nonneg l). pose proof (len_nonneg l2).
  rewrite !be_get_cons, IH, len_app by (try apply bytes_ok_app; done).
  rewrite Z.mul_add_distr_l, Z.pow_add_r by lia. ring.
Qed.

(** Reading back a written integer truncates it to the width written. *)
Lemma be_get_put n v : be_get (be_put n v) = v mod 2 ^ (8 * Z.of_nat n).
Proof.
  induction n as [|n IH]; [by rewrite Z.mod_1_r|]. cbn [be_put].
  rewrite be_get_cons, IH, len_be_put by auto with go.
  unfold u8. rewrite Z.shiftr_div_pow2 by lia.
  replace (8 * Z.of_nat (S n)) with (8 * Z.of_nat n + 8) by lia.
  rewrite Z.pow_add_r, Z.rem_mul_r by lia. lia.
Qed.

Lemma be_put_get l : bytes_ok l → be_put (length l) (be_get l) = l.
Proof.
  assert (Haux : ∀ l hi, bytes_ok l → be_put (length l) (hi * 2 ^ (8 * len l) + be_get l) = l).
  { clear l. induction l as [|b l IH]; intros hi Hl; [done|].
    apply bytes_ok_cons in Hl as [Hb Hl]. pose proof (len_nonneg l).
    pose proof (be_get_bound l Hl). rewrite be_get_cons, len_cons by done.
    cbn [length be_put]. fold (len l). rewrite Z.shiftr_div_pow2 by lia.
    replace (8 * (1 + len l)) with (8 + 8 * len l) by lia.
    rewrite Z.pow_add_r by lia. unfold byte_ok in Hb.
    replace (hi * (2 ^ 8 * 2 ^ (8 * len l)) + (b * 2 ^ (8 * len l) + be_get l))
      with ((hi * 2 ^ 8 + b) * 2 ^ (8 * len l) + be_get l) by ring.
    f_equal; [|by apply IH].
    rewrite Z.div_add_l, (Z.div_small (be_get l)), Z.add_0_r by lia.
    unfold u8. rewrite Z.add_comm, Z.mod_add, Z.mod_small by lia. done. }
  intros Hl. specialize (Haux l 0 Hl). by rewrite Z.mul_0_l in Haux.
Qed.

Lemma be_get_inj l1 l2 :
  bytes_ok l1 → bytes_ok l2 → length l1 = length l2 → be_get l1 = be_get l2 → l1 = l2.
Proof. intros H1 H2 Hl Hv. rewrite <- (be_put_get l1), <- (be_put_get l2) by done. congruence. Qed.

Lemma be_put_mod n v : be_put n (v mod 2 ^ (8 * Z.of_nat n)) = be_put n v.
Proof.
  apply be_get_inj; auto with go.
  - pose proof (len_be_put n v). pose proof (len_be_put n (v mod 2 ^ (8 * Z.of_nat n))).
    unfold len in *. lia.
  - by rewrite !be_get_put, Z.mod_mod by lia.
Qed.

Lemma be_read_ok {E} n b : Z.of_nat n ≤ len b → be_read (E:=E) n b = Ok (be_get (take n b)).
Proof. intros. unfold be_read. case_if; [bool_prop; lia|done]. Qed.

Lemma be_read_put {E} n v rest :
  be_read (E:=E) n (be_put n v ++ rest) = Ok (v mod 2 ^ (8 * Z.of_nat n)).
Proof.
  rewrite be_read_ok by len_lia. rewrite take_app_length'.
  - by rewrite be_get_put.
  - pose proof (len_be_put n v). unfold len in *. lia.
Qed.

Lemma be_read_bound {E} n b v :
  bytes_ok b → be_read (E:=E) n b = Ok v → 0 ≤ v < 2 ^ (8 * Z.of_nat n).
Proof.
  intros Hb. unfold be_read. case_if; [done|]. bool_prop. intros [= <-].
  pose proof (be_get_bound (take n b) (bytes_ok_take _ _ Hb)) as H.
  rewrite len_take, Z.min_l in H by lia. done.
Qed.

(** ** Results *)

Lemma yields_safe {E A} (P : A → Prop) (r : Res E A) : yields P r → safe r.
Proof. by destruct r. Qed.

Lemma yields_mono {E A} (P Q : A → Prop) (r : Res E A) :
  (∀ a, P a → Q a) → yields P r → yields Q r.
Proof. intros HPQ. destruct r; cbn; auto. Qed.

Lemma safe_then {E A B} (r : Res E A) (f : A → Res E B) : safe r → (∀ a, safe (f a)) → safe (r ≫= f).
Proof. destruct r; cbn; auto. Qed.

Lemma yields_bind {E A B} (P : A → Prop) (Q : B → Prop) (r : Res E A) (f : A → Res E B) :
  yields P r → (∀ a, P a → yields Q (f a)) → yields Q (r ≫= f).
Proof. destruct r; cbn; auto; tauto. Qed.

Lemma yields_fmap {E A B} (f : A → B) (P : B → Prop) (r : Res E A) :
  yields (λ a, P (f a)) r → yields P (f <$> r).
Proof. by destruct r. Qed.

Lemma yields_eq {E A} (P : A → Prop) (r : Res E A) a : yields P r → r = Ok a → P a.
Proof. by intros ? ->. Qed.

(** Unlike the injection tactic, leaves the two values unreduced. *)
Lemma Ok_inj {E A} (a b : A) : Ok (E:=E) a = Ok b → a = b.
Proof. by intros [= ->]. Qed.

Lemma bind_ok {E A B} (r : Res E A) (f : A → Res E B) b :
  (r ≫= f) = Ok b → ∃ a, r = Ok a ∧ f a = Ok b.
Proof. destruct r; cbn; [eauto|done..]. Qed.

Lemma Res_bind_assoc {E A B C} (r : Res E A) (f : A → Res E B) (g : B → Res E C) :
  (r ≫= f) ≫= g = r ≫= (λ a, f a ≫= g).
Proof. by destruct r. Qed.

Lemma wrap_err_yields {E F A} (g : E → F) (P : A → Prop) (r : Res E A) :
  yields P r → yields P (wrap_err g r).
Proof. by destruct r. Qed.

Lemma wrap_err_ok {E F A} (g : E → F) (r : Res E A) a : wrap_err g r = Ok a ↔ r = Ok a.
Proof. destruct r; cbn; naive_solver. Qed.

(** ** Loops over the remaining bytes *)

Section for_bytes.
Context {E S : Type} (step : S → bytes → Res E (S * bytes)) (Hc : consuming step).

Lemma while_nonempty_fuel f1 f2 st body :
  bytes_ok body → (length body ≤ f1)%nat → (length body ≤ f2)%nat →
  while_nonempty f1 step st body = while_nonempty f2 step st body.
Proof using Hc.
  revert f2 st body. induction f1 as [|f1 IH]; intros f2 st body Hb H1 H2.
  - destruct body; [by destruct f2|cbn in H1; lia].
  - destruct body as [|b body]; [by destruct f2|]. destruct f2 as [|f2]; [cbn in H2; lia|].
    cbn [while_nonempty]. destruct (step st (b :: body)) as [[st' body']| | |] eqn:Hs; [|done..].
    apply Hc in Hs as [? Hs]; [|done..]. cbn in *. apply IH; [done|lia..].
Qed.

(** The loop is its own unrolling: the fuel is never the limit. *)
Lemma for_bytes_unfold st body :
  bytes_ok body →
  for_bytes step st body =
  match body with
  | [] => Ok st
  | _ :: _ => '(st', body') ← step st body; for_bytes step st' body'
  end.
Proof using Hc.
  intros Hb. destruct body as [|b body]; [done|]. unfold for_bytes at 1.
  cbn [length while_nonempty].
  destruct (step st (b :: body)) as [[st' body']| | |] eqn:Hs; [|done..].
  apply Hc in Hs as [? Hs]; [|done..]. cbn in *. apply while_nonempty_fuel; [done|lia..].
Qed.

(** An invariant of the accumulated state, with the loop's safety. *)
Lemma for_bytes_yields (I : S → Prop) :
  (∀ st body, body ≠ [] → bytes_ok body → I st → yields (λ '(st', _), I st') (step st body)) →
  ∀ st body, bytes_ok body → I st → yields I (for_bytes step st body).
Proof using Hc.
  intros Hstep st body. remember (length body) as n eqn:Hn. revert st body Hn.
  induction n as [n IH] using lt_wf_ind. intros st body -> Hb Hi.
  rewrite for_bytes_unfold by done. destruct body as [|b body]; [done|].
  pose proof (Hstep st (b :: body) ltac:(done) Hb Hi) as Hy.
  destruct (step st (b :: body)) as [[st' body']| | |] eqn:Hs; cbn in *; [|done..].
  apply Hc in Hs as [? Hs]; [|done..]. cbn in Hs. eapply IH; [|reflexivity|done..]. lia.
Qed.
End for_bytes.

(** [e] is an encoding of [x]: a loop iteration reads [x] off any string that
    starts with [e]. *)
Definition encodes {E A} (step : list A → bytes → Res E (list A * bytes)) (x : A) (e : bytes) : Prop :=
  (bytes_ok e ∧ e ≠ []) ∧ ∀ acc rest, step acc (e ++ rest) = Ok (acc ++ [x], rest).

(** Decoding a concatenation of encoded items gives the items back. *)
Lemma for_bytes_roundtrip {E A} (step : list A → bytes → Res E (list A * bytes)) enc xs :
  consuming step → Forall2 (encodes step) xs enc →
  bytes_ok (concat enc) ∧ ∀ acc, for_bytes step acc (concat enc) = Ok (acc ++ xs).
Proof.
  intros Hc Hxs. assert (Hb : bytes_ok (concat enc)).
  { apply bytes_ok_concat. induction Hxs as [|x e xs enc [[? ?] _] _ IH]; by constructor. }
  split; [done|]. induction Hxs as [|x e xs enc [[_ Hne] Hs] _ IH]; intros acc.
  - by rewrite app_nil_r.
  - rewrite for_bytes_unfold by done. cbn [concat] in *.
    destruct e as [|b e]; [done|]. cbn [app].
    change (b :: e ++ concat enc) with ((b :: e) ++ concat enc).
    rewrite Hs. cbn. apply bytes_ok_app in Hb as [_ Hb].
    rewrite IH by done. by rewrite <- app_assoc.
Qed.

(** ** Stepping through a parser

    One rule per partial operation, for a goal [yields Q (op ≫= k)]: the bounds
    are the side conditions, and what is known of the result is passed on. *)

Lemma yields_index {E B} (Q : B → Prop) b i (k : Z → Res E B) :
  bytes_ok b → 0 ≤ i → i < len b →
  (∀ x, byte_ok x → yields Q (k x)) → yields Q (index b i ≫= k).
Proof.
  intros Hb ?? Hk. destruct (index_ok (E:=E) b i) as (x & -> & Hx); [lia..|].
  apply Hk. eauto using bytes_ok_lookup.
Qed.

Lemma yields_slice {E B} (Q : B → Prop) b i j (k : bytes → Res E B) :
  bytes_ok b → 0 ≤ i → i ≤ j → j ≤ len b →
  (∀ s, bytes_ok s → len s = j - i → yields Q (k s)) → yields Q (slice b i j ≫= k).
Proof.
  intros Hb ??? Hk. rewrite slice_ok by lia. apply Hk; [auto with go|len_lia].
Qed.

Lemma yields_slice_from {E B} (Q : B → Prop) b i (k : bytes → Res E B) :
  bytes_ok b → 0 ≤ i → i ≤ len b →
  (∀ s, bytes_ok s → len s = len b - i → yields Q (k s)) → yields Q (slice_from b i ≫= k).
Proof. intros. apply yields_slice; auto using Z.le_refl. Qed.

Lemma yields_be_read {E B} (Q : B → Prop) n b (k : Z → Res E B) :
  bytes_ok b → Z.of_nat n ≤ len b →
  (∀ v, 0 ≤ v < 2 ^ (8 * Z.of_nat n) → yields Q (k v)) → yields Q (be_read n b ≫= k).
Proof.
  intros Hb ? Hk. destruct (be_read (E:=E) n b) as [v| | |] eqn:Hv.
  - apply Hk. eauto using be_read_bound.
  - done.
  - by rewrite be_read_ok in Hv.
  - by rewrite be_read_ok in Hv.
Qed.

Lemma yields_Uint16 {E B} (Q : B → Prop) b (k : Z → Res E B) :
  bytes_ok b → 2 ≤ len b → (∀ v, is_u16 v → yields Q (k v)) → yields Q (Uint16 b ≫= k).
Proof. apply (yields_be_read Q 2). Qed.

Lemma yields_Uint32 {E B} (Q : B → Prop) b (k : Z → Res E B) :
  bytes_ok b → 4 ≤ len b → (∀ v, is_u32 v → yields Q (k v)) → yields Q (Uint32 b ≫= k).
Proof. apply (yields_be_read Q 4). Qed.

Lemma yields_Uint64 {E B} (Q : B → Prop) b (k : Z → Res E B) :
  bytes_ok b → 8 ≤ len b → (∀ v, is_u64 v → yields Q (k v)) → yields Q (Uint64 b ≫= k).
Proof. apply (yields_be_read Q 8). Qed.

(** Walk a straight-line parser: case on its guards, discharge its bounds. *)
Ltac go_keep H := pose proof H as [? ?].
Ltac go_safe :=
  repeat first
    [ progress cbn [yields]
    | progress go_step
    | match goal with
      | |- yields _ (if ?b then _ else _) => destruct b eqn:?; bool_prop
      | |- yields _ ((if ?b then _ else _) ≫= _) => destruct b eqn:?; bool_prop
      | |- yields _ ((_ ≫= _) ≫= _) => rewrite Res_bind_assoc
      end
    | let H := fresh "H" in
      first
        [ eapply yields_index; [solve [auto with go]|lia|len_pos; lia|intros ? H; go_keep H]
        | eapply yields_slice_from; [solve [auto with go]|lia|len_pos; lia|intros ? ? ?]
        | eapply yields_slice; [solve [auto with go]|lia|lia|len_pos; lia|intros ? ? ?]
        | eapply yields_Uint16; [solve [auto with go]|len_pos; lia|intros ? H; go_keep H]
        | eapply yields_Uint32; [solve [auto with go]|len_pos; lia|intros ? H; go_keep H]
        | eapply yields_Uint64; [solve [auto with go]|len_pos; lia|intros ? H; go_keep H] ] ].

(** Invert a computation known to have returned. *)
Ltac go_inv :=
  repeat match goal with
  | H : Err _ = Ok _ |- _ => discriminate H
  | H : Panic = Ok _ |- _ => discriminate H
  | H : Hang = Ok _ |- _ => discriminate H
  | H : Ok _ = Ok _ |- _ => apply Ok_inj in H
  | H : (if ?b then _ else _) = Ok _ |- _ => destruct b eqn:?; bool_prop
  | H : (let '(_, _) := ?p in _) = Ok _ |- _ => destruct p eqn:?
  | H : (_ ≫= _) = Ok _ |- _ => apply bind_ok in H as (? & ? & H)
  | H : (_, _) = (_, _) |- _ => apply pair_equal_spec in H as [? ?]
  end.

(** What a consuming parser step leaves is shorter. *)
Lemma slice_from_shorter {E} (b rest : bytes) n :
  bytes_ok b → b ≠ [] → 0 < n → slice_from (E:=E) b n = Ok rest →
  bytes_ok rest ∧ (length rest < length b)%nat.
Proof.
  intros Hok Hb ? Hs. split; [by eapply bytes_ok_slice|].
  apply slice_len in Hs. unfold len in Hs. destruct b; [done|]. cbn [length] in *. lia.
Qed.

(** Bounds on the integers that an inverted parser has read. *)
Ltac go_bounds :=
  repeat match goal with
  | Hb : bytes_ok ?b, H : slice ?b _ _ = Ok ?s |- _ =>
      lazymatch goal with
      | _ : bytes_ok s |- _ => fail
      | _ => pose proof (bytes_ok_slice _ _ _ _ Hb H)
      end
  | Hb : bytes_ok ?b, H : be_read 2 ?b = Ok ?v |- _ =>
      lazymatch goal with
      | _ : is_u16 v |- _ => fail
      | _ => assert (is_u16 v) by exact (be_read_bound _ _ _ Hb H)
      end
  end.

(** Prove [consuming step]: find the slice that is left over. *)
Ltac consuming_tac :=
  intros ? ? ? ? ? ?; intros; go_inv; go_bounds; subst;
  (eapply slice_from_shorter; [done|done| |eassumption]); unfold is_u16, byte_ok in *; lia.

Lemma len_ne_nil {A} (l : list A) : 0 < len l → l ≠ [].
Proof. by destruct l. Qed.

(** ** Reading a header just written *)

Definition hi8 (v : Z) : Z := u8 (Z.shiftr v (8 * Z.of_nat 1)).
Definition lo8 (v : Z) : Z := u8 (Z.shiftr v (8 * Z.of_nat 0)).

Lemma put16_eq v : put16 v = [hi8 v; lo8 v].
Proof. reflexivity. Qed.

Lemma Uint16_eq {E} v rest : Uint16 (hi8 v :: lo8 v :: rest) = Ok (E:=E) (u16 v).
Proof. apply (be_read_put 2 v rest). Qed.

Lemma u16_small v : is_u16 v → u16 v = v.
Proof. apply Z.mod_small. Qed.
Lemma u8_small v : is_u8 v → u8 v = v.
Proof. apply Z.mod_small. Qed.
Lemma u32_small v : is_u32 v → u32 v = v.
Proof. apply Z.mod_small. Qed.
Lemma i64_small x : - 2 ^ 63 ≤ x < 2 ^ 63 → i64 x = x.
Proof. intros. unfold i64. rewrite Z.mod_small; lia. Qed.
Lemma u64_small v : is_u64 v → u64 v = v.
Proof. apply Z.mod_small. Qed.

Lemma byte_ok_hi8 v : byte_ok (hi8 v).
Proof. apply byte_ok_u8. Qed.
Lemma byte_ok_lo8 v : byte_ok (lo8 v).
Proof. apply byte_ok_u8. Qed.
#[export] Hint Resolve byte_ok_hi8 byte_ok_lo8 : go.

(** Prove that an explicitly built string consists of bytes. *)
Ltac bytes_tac :=
  repeat first
    [ progress cbn [app]
    | match goal with
      | |- bytes_ok [] => apply bytes_ok_nil
      | |- bytes_ok (_ :: _) => apply bytes_ok_cons; split
      | |- bytes_ok (_ ++ _) => apply bytes_ok_app; split
      end
    | solve [auto with go]
    | match goal with
      | |- byte_ok _ => solve [ assumption | repeat case_match; unfold byte_ok, is_u8 in *; len_pos; lia ]
      end ].

(** b[i:j] inside an explicit string: drop the parts before i. *)
Lemma slice_skip {E A} (l1 l2 : list A) i j :
  len l1 ≤ i → slice (E:=E) (l1 ++ l2) i j = slice l2 (i - len l1) (j - len l1).
Proof.
  intros. pose proof (len_nonneg l1). unfold slice. rewrite len_app, drop_app_ge by (unfold len in *; lia).
  replace (j - len l1 - (i - len l1)) with (j - i) by lia.
  replace (0 <=? i) with (0 <=? i - len l1) by lia.
  replace (i - len l1 <=? j - len l1) with (i <=? j) by lia.
  replace (j - len l1 <=? len l2) with (j <=? len l1 + len l2) by lia.
  by replace (Z.to_nat i - length l1)%nat with (Z.to_nat (i - len l1)) by (unfold len; lia).
Qed.

Lemma slice_cons {E A} (x : A) l i j :
  1 ≤ i → slice (E:=E) (x :: l) i j = slice l (i - 1) (j - 1).
Proof. apply (slice_skip [x] l). Qed.

Lemma slice_hit {E A} (l1 l2 : list A) i j :
  i = 0 → j = len l1 → slice (E:=E) (l1 ++ l2) i j = Ok l1.
Proof. intros ->. apply slice_app_l. Qed.

Lemma slice_all {E A} (l : list A) i j : i = 0 → j = len l → slice (E:=E) l i j = Ok l.
Proof. intros ->. apply slice_full. Qed.

Lemma slice_from_skip {E A} (l1 l2 : list A) i :
  len l1 ≤ i → slice_from (E:=E) (l1 ++ l2) i = slice_from l2 (i - len l1).
Proof. intros. unfold slice_from. rewrite slice_skip by done. f_equal. len_lia. Qed.

Lemma slice_from_cons {E A} (x : A) l i :
  1 ≤ i → slice_from (E:=E) (x :: l) i = slice_from l (i - 1).
Proof. apply (slice_from_skip [x] l). Qed.

Lemma slice_from_all {E A} (l : list A) i : i = 0 → slice_from (E:=E) l i = Ok l.
Proof. intros ->. by apply slice_full. Qed.

Lemma index_skip {E A} (l1 l2 : list A) i :
  len l1 ≤ i → index (E:=E) (l1 ++ l2) i = index l2 (i - len l1).
Proof.
  intros. pose proof (len_nonneg l1). unfold index. rewrite len_app, lookup_app_r by (unfold len in *; lia).
  replace (0 <=? i) with (0 <=? i - len l1) by lia.
  replace (i <? len l1 + len l2) with (i - len l1 <? len l2) by lia.
  by replace (Z.to_nat i - length l1)%nat with (Z.to_nat (i - len l1)) by (unfold len; lia).
Qed.

Lemma index_cons {E A} (x : A) l i : 1 ≤ i → index (E:=E) (x :: l) i = index l (i - 1).
Proof. apply (index_skip [x] l). Qed.

Lemma index_head {E A} (x : A) l i : i = 0 → index (E:=E) (x :: l) i = Ok x.
Proof. intros ->. unfold index. by replace ((0 <=? 0) && (0 <? len (x :: l))) with true by len_lia. Qed.

Lemma be_read_exact {E} n v : 0 ≤ v < 2 ^ (8 * Z.of_nat n) → be_read n (be_put n v) = Ok (E:=E) v.
Proof.
  intros. rewrite <- (app_nil_r (be_put n v)), be_read_put. f_equal. by apply Z.mod_small.
Qed.

Ltac go_cut :=
  first
    [ rewrite slice_hit by len_lia
    | rewrite slice_all by len_lia
    | rewrite slice_cons by len_lia
    | rewrite slice_skip by len_lia
    | rewrite slice_from_all by len_lia
    | rewrite slice_from_cons by len_lia
    | rewrite slice_from_skip by len_lia ].

(** Run a parser on an explicit header: decide the guards by arithmetic, read
    the literal offsets. *)
Ltac literal i := lazymatch i with Z0 => idtac | Zpos _ => idtac end.
Ltac bool_lia :=
  rewrite ?Z.gtb_ltb, ?Z.geb_leb, ?negb_true_iff, ?negb_false_iff, ?andb_true_iff, ?andb_false_iff,
    ?orb_true_iff, ?orb_false_iff, ?negb_true_iff, ?negb_false_iff, ?Z.ltb_lt, ?Z.ltb_ge, ?Z.leb_le,
    ?Z.leb_gt, ?Z.eqb_eq, ?Z.eqb_neq;
  len_lia.
Ltac go_if :=
  match goal with
  | |- context [if ?b then _ else _] =>
      let H := fresh "Hb" in
      first [ assert (H : b = false) by bool_lia | assert (H : b = true) by bool_lia ];
      rewrite H; clear H
  end; cbn [andb orb negb].
Ltac go_lit :=
  match goal with
  | |- context [slice ?b ?i ?j] =>
      literal i; literal j;
      let n := eval vm_compute in (Z.to_nat (j - i)) in
      let m := eval vm_compute in (Z.to_nat i) in
      rewrite (slice_ok b i j) by len_lia;
      change (Z.to_nat (j - i)) with n; change (Z.to_nat i) with m; cbn [take drop];
      rewrite ?drop_0, ?take_0
  | |- context [slice_from ?b ?i] =>
      literal i;
      let m := eval vm_compute in (Z.to_nat i) in
      rewrite (slice_from_ok b i) by len_lia; change (Z.to_nat i) with m; cbn [drop];
      rewrite ?drop_0
  | |- context [index ?b ?i] =>
      literal i; erewrite (index_lookup b i) by first [lia | reflexivity]
  | |- context [Uint16 (hi8 _ :: lo8 _ :: _)] => rewrite Uint16_eq
  | |- context [u16 ?v] => rewrite (u16_small v) by (first [assumption | unfold is_u16 in *; len_lia])
  end.
(** The same for a string given as a concatenation. *)
Ltac go_chop :=
  repeat first
    [ progress go_step
    | progress cbn [app]
    | go_cut
    | rewrite index_head by len_lia
    | rewrite index_cons by len_lia
    | rewrite index_skip by len_lia
    | rewrite be_read_exact by (first [assumption | len_lia])
    | go_if ].
Ltac st_chop := repeat first [ progress st_step | progress go_chop ].
Ltac go_run := repeat first [ progress go_step | go_lit | go_cut | go_if ].

Lemma copy_exact dst src : len src = len dst → copy dst src = src.
Proof.
  unfold copy, len. intros. by rewrite take_ge, drop_ge, app_nil_r by lia.
Qed.

#[global] Arguments be_put : simpl never.
#[global] Arguments be_get : simpl never.
#[global] Arguments be_read : simpl never.
#[global] Arguments slice : simpl never.
#[global] Arguments index : simpl never.
#[global] Arguments len : simpl never.
#[global] Arguments for_bytes : simpl never.
#[global] Arguments u8 : simpl never.
#[global] Arguments u16 : simpl never.
#[global] Arguments u32 : simpl never.
#[global] Arguments u64 : simpl never.
#[global] Arguments i64 : simpl never.
#[global] Arguments hi8 : simpl never.
#[global] Arguments lo8 : simpl never.

Lemma slice_split {E A} (b s1 s2 : list A) j :
  slice (E:=E) b 0 j = Ok s1 → slice_from (E:=E) b j = Ok s2 → b = s1 ++ s2.
Proof.
  intros [? ->]%slice_ok_inv H2. rewrite slice_from_ok in H2 by lia.
  apply Ok_inj in H2. subst s2. change (Z.to_nat 0) with 0%nat. rewrite drop_0, Z.sub_0_r.
  by rewrite take_drop.
Qed.

(** ** Reasoning about methods

    [wp m s Q]: run from [s], the method ends in a state and an outcome that
    satisfy [Q].  One rule per construct; the bounds of the partial operations are
    side conditions, as for [yields]. *)
Definition wp {S E A} (m : ST S E A) (s : S) (Q : S → Res E A → Prop) : Prop :=
  Q (m s).1 (m s).2.

Section wp.
Context {S E : Type}.
Implicit Types s : S.

Lemma wp_bind {A B} (m : ST S E A) (f : A → ST S E B) s Q :
  wp m s (λ s' r, match r with
                  | Ok a => wp (f a) s' Q
                  | Err e => Q s' (Err e)
                  | Panic => Q s' Panic
                  | Hang => Q s' Hang
                  end) → wp (m ≫= f) s Q.
Proof. unfold wp, mbind, ST_bind. by destruct (m s) as [s' []]. Qed.

Lemma wp_mono {A} (m : ST S E A) s (Q Q' : S → Res E A → Prop) :
  wp m s Q → (∀ s' r, Q s' r → Q' s' r) → wp m s Q'.
Proof. unfold wp. auto. Qed.

Lemma wp_get {A} (f : S → ST S E A) s Q : wp (f s) s Q → wp (getS ≫= f) s Q.
Proof. done. Qed.
Lemma wp_put {A} s' (f : unit → ST S E A) s Q : wp (f tt) s' Q → wp (putS s' ≫= f) s Q.
Proof. done. Qed.
Lemma wp_modify {A} g (f : unit → ST S E A) s Q : wp (f tt) (g s) Q → wp (modifyS g ≫= f) s Q.
Proof. done. Qed.
Lemma wp_mret {A} (a : A) s (Q : S → Res E A → Prop) : Q s (Ok a) → wp (mret a) s Q.
Proof. done. Qed.
Lemma wp_throw {A} e s (Q : S → Res E A → Prop) : Q s (Err e) → wp (throw e) s Q.
Proof. done. Qed.
Lemma wp_lift {A} (r : Res E A) s (Q : S → Res E A → Prop) : Q s r → wp (lift r) s Q.
Proof. done. Qed.
Lemma wp_lift_ok {A B} (r : Res E A) a (f : A → ST S E B) s Q :
  r = Ok a → wp (f a) s Q → wp (lift r ≫= f) s Q.
Proof. by intros ->. Qed.

Lemma wp_index {A} b i (f : Z → ST S E A) s Q :
  bytes_ok b → 0 ≤ i → i < len b →
  (∀ x, byte_ok x → index (E:=E) b i = Ok x → wp (f x) s Q) → wp (lift (index b i) ≫= f) s Q.
Proof.
  intros Hb ?? Hk. destruct (index_ok (E:=E) b i) as (x & Hi & Hx); [lia..|].
  eapply wp_lift_ok; [done|]. apply Hk; eauto using bytes_ok_lookup.
Qed.

Lemma wp_slice {A} b i j (f : bytes → ST S E A) s Q :
  bytes_ok b → 0 ≤ i → i ≤ j → j ≤ len b →
  (∀ x, bytes_ok x → len x = j - i → slice (E:=E) b i j = Ok x → wp (f x) s Q) →
  wp (lift (slice b i j) ≫= f) s Q.
Proof.
  intros Hb ??? Hk. pose proof (slice_ok (E:=E) b i j ltac:(lia) ltac:(lia) ltac:(lia)) as Hs.
  eapply wp_lift_ok; [done|]. apply Hk; [auto with go|by apply slice_len in Hs|done].
Qed.

Lemma wp_slice_from {A} b i (f : bytes → ST S E A) s Q :
  bytes_ok b → 0 ≤ i → i ≤ len b →
  (∀ x, bytes_ok x → len x = len b - i → slice_from (E:=E) b i = Ok x → wp (f x) s Q) →
  wp (lift (slice_from b i) ≫= f) s Q.
Proof. intros. apply wp_slice; auto using Z.le_refl. Qed.

Lemma wp_Uint32 {A} b (f : Z → ST S E A) s Q :
  bytes_ok b → 4 ≤ len b → (∀ v, is_u32 v → wp (f v) s Q) → wp (lift (Uint32 b) ≫= f) s Q.
Proof.
  intros Hb ? Hk. eapply wp_lift_ok; [by apply be_read_ok|]. apply Hk.
  eapply (be_read_bound (E:=E) 4); [exact Hb|]. by apply be_read_ok.
Qed.
End wp.

Ltac wp_go :=
  repeat
    (let H := fresh "H" in
     lazymatch goal with
     | |- wp (getS ≫= _) _ _ => apply wp_get
     | |- wp (putS _ ≫= _) _ _ => apply wp_put
     | |- wp (modifyS _ ≫= _) _ _ => apply wp_modify
     | |- wp (if ?b then _ else _) _ _ => destruct b eqn:?; bool_prop
     | |- wp (throw _) _ _ => apply wp_throw
     | |- wp (mret _) _ _ => apply wp_mret
     | |- wp (lift (index _ _) ≫= _) _ _ =>
         eapply wp_index; [solve [auto with go]|lia|len_pos; lia|intros ? H ?; go_keep H]
     | |- wp (lift (slice_from _ _) ≫= _) _ _ =>
         eapply wp_slice_from; [solve [auto with go]|lia|len_pos; lia|intros ? ? ? ?]
     | |- wp (lift (slice _ _ _) ≫= _) _ _ =>
         eapply wp_slice; [solve [auto with go]|lia|lia|len_pos; lia|intros ? ? ? ?]
     | |- wp (lift (be_read 4 _) ≫= _) _ _ =>
         eapply wp_Uint32; [solve [auto with go]|len_pos; lia|intros ? H; go_keep H]
     end).

(** ** Invariants of methods

    [hoare I m Q]: run from a state in [I], the method ends in [I], does not panic
    or loop, and a value it returns satisfies [Q]. *)
Definition hoare {S E A} (I : S → Prop) (m : ST S E A) (Q : A → Prop) : Prop :=
  ∀ s, I s → I (m s).1 ∧ yields Q (m s).2.

Create HintDb hoare.

Section hoare.
Context {S E : Type} (I : S → Prop).

Lemma hoare_bind {A B} (m : ST S E A) (f : A → ST S E B) (Q : A → Prop) (R : B → Prop) :
  hoare I m Q → (∀ a, Q a → hoare I (f a) R) → hoare I (m ≫= f) R.
Proof.
  intros Hm Hf s Hs. destruct (Hm s Hs) as [Hs' Hr]. unfold mbind, ST_bind.
  destruct (m s) as [s' [a|e| |]]; cbn in *; [by apply Hf|done..].
Qed.

Lemma hoare_mono {A} (m : ST S E A) (Q R : A → Prop) :
  hoare I m Q → (∀ a, Q a → R a) → hoare I m R.
Proof. intros Hm HQ s Hs. destruct (Hm s Hs). split; [done|]. by eapply yields_mono. Qed.

Lemma hoare_true {A} (m : ST S E A) (Q : A → Prop) : hoare I m Q → hoare I m (λ _, True).
Proof. intros Hm. by eapply hoare_mono. Qed.

Lemma hoare_ret {A} (a : A) (Q : A → Prop) : Q a → hoare I (mret a : ST S E A) Q.
Proof. by intros HQ s Hs. Qed.
Lemma hoare_throw {A} (e : E) (Q : A → Prop) : hoare I (throw e : ST S E A) Q.
Proof. by intros s Hs. Qed.
Lemma hoare_get : hoare I (getS : ST S E S) I.
Proof. by intros s Hs. Qed.
Lemma hoare_put s' : I s' → hoare I (putS s' : ST S E unit) (λ _, True).
Proof. by intros Hs' s Hs. Qed.
Lemma hoare_modify f : (∀ s, I s → I (f s)) → hoare I (modifyS f : ST S E unit) (λ _, True).
Proof. intros Hf s Hs. split; [by apply Hf|done]. Qed.
Lemma hoare_lift {A} (r : Res E A) Q : yields Q r → hoare I (lift r) Q.
Proof. by intros Hr s Hs. Qed.
End hoare.

#[export] Hint Resolve hoare_get hoare_throw : hoare.

(** Any call that is safe from every invariant state keeps it: the form the
    handlers' lemmas have. *)
Ltac hoare_step :=
  lazymatch goal with
  | |- hoare _ (_ ≫= _) _ => eapply hoare_bind; [solve [eauto with hoare]|cbv beta; intros]
  | |- hoare _ (mret _) _ => apply hoare_ret; try exact I
  | |- hoare _ (throw _) _ => apply hoare_throw
  | |- hoare _ (if ?b then _ else _) _ => destruct b eqn:?
  | |- hoare _ _ (λ _, True) => eapply hoare_true; solve [eauto with hoare]
  | |- hoare _ _ _ => solve [eauto with hoare]
  end.
Ltac hoare_go := repeat hoare_step.

Lemma be_read_yields {E} n b :
  bytes_ok b → Z.of_nat n ≤ len b → yields (λ v, 0 ≤ v < 2 ^ (8 * Z.of_nat n)) (be_read (E:=E) n b).
Proof.
  intros Hb Hl. rewrite be_read_ok by done.
  eapply (be_read_bound (E:=E) n); [exact Hb|]. by apply be_read_ok.
Qed.

Lemma Uint32_yields {E} b : bytes_ok b → 4 ≤ len b → yields is_u32 (Uint32 b : Res E Z).
Proof. apply (be_read_yields 4). Qed.
Lemma Uint64_yields {E} b : bytes_ok b → 8 ≤ len b → yields is_u64 (Uint64 b : Res E Z).
Proof. apply (be_read_yields 8). Qed.
