(* ===== verification/Replay.v ===== *)
(** * The ESP anti-replay window (internal/esp/replay.go)

    [ReplayWindow] is the bitmap the code keeps: 64-bit words, bit [o] standing
    for sequence number [last - o].  [Accept] and its helpers run in [Res] so
    that an out-of-range word index is a visible panic.

    [Spec] is what the window promises: it remembers every sequence number ever
    accepted, and [Accept_refines] shows the bitmap gives exactly its answers. *)

From stdpp Require Import gmap.
From S2P Require Import Prelude.

(** ** The code *)

Record ReplayWindow := {
  size : Z;
  last : Z;
  bits : list Z;
}.

Definition MaxReplayWindow : Z := Z.shiftl 1 20.

Definition NewReplayWindow (size0 : Z) : ReplayWindow :=
  let size1 := if size0 <? 64 then 64 else size0 in
  let size2 := if size1 >? MaxReplayWindow then MaxReplayWindow else size1 in
  let words := (size2 + 63) / 64 in
  {| size := u32 (words * 64); last := 0; bits := replicate (Z.to_nat words) 0 |}.

Definition setBit {E} (w : ReplayWindow) (offset : Z) : Res E ReplayWindow :=
  x ← index (bits w) (offset / 64);
  b ← store (bits w) (offset / 64) (Z.lor x (Z.shiftl 1 (offset mod 64)));
  Ok {| size := size w; last := last w; bits := b |}.

Definition getBit {E} (w : ReplayWindow) (offset : Z) : Res E bool :=
  x ← index (bits w) (offset / 64);
  Ok (negb (Z.land x (Z.shiftl 1 (offset mod 64)) =? 0)).

(** for i := len(b)-1; i > words; i-- : [k] iterations are left. *)
Fixpoint shiftUp_loop {E} (k : nat) (words nbits i : Z) (b : list Z) : Res E (list Z) :=
  match k with
  | O => Ok b
  | S k' =>
      hi ← index b (i - words);
      lo ← index b (i - words - 1);
      b' ← store b i (Z.lor (u64 (Z.shiftl hi nbits)) (Z.shiftr lo (64 - nbits)));
      shiftUp_loop k' words nbits (i - 1) b'
  end.

(** for i := range words { b[i] = 0 } *)
Fixpoint zero_loop {E} (k : nat) (i : Z) (b : list Z) : Res E (list Z) :=
  match k with
  | O => Ok b
  | S k' => b' ← store b i 0; zero_loop k' (i + 1) b'
  end.

Definition shiftUp {E} (b : list Z) (n : Z) : Res E (list Z) :=
  if n =? 0 then Ok b
  else
    let words := n / 64 in
    let nbits := n mod 64 in
    if words >=? len b then zero_loop (length b) 0 b
    else
      b1 ← (if nbits =? 0 then
              (* copy(b[words:], b[:len(b)-words]) *)
              src ← slice b 0 (len b - words);
              keep ← slice b 0 words;
              Ok (keep ++ src)
            else
              b1 ← shiftUp_loop (Z.to_nat (len b - 1 - words)) words nbits (len b - 1) b;
              x ← index b1 0;
              store b1 words (u64 (Z.shiftl x nbits)));
      zero_loop (Z.to_nat words) 0 b1.

Definition Accept {E} (w : ReplayWindow) (seq : Z) : Res E (bool * ReplayWindow) :=
  if seq =? 0 then Ok (false, w)
  else if seq >? last w then
    b ← shiftUp (bits w) (seq - last w);
    w' ← setBit {| size := size w; last := seq; bits := b |} 0;
    Ok (true, w')
  else if seq =? last w then Ok (false, w)
  else
    let offset := u32 (last w - seq) in
    if offset >=? size w then Ok (false, w)
    else
      seen ← getBit w offset;
      if (seen : bool) then Ok (false, w)
      else w' ← setBit w offset; Ok (true, w').

(** A stream of packets through the window, with the verdict on each. *)
Fixpoint run_window {E} (w : ReplayWindow) (seqs : list Z) : Res E (list bool * ReplayWindow) :=
  match seqs with
  | [] => Ok ([], w)
  | seq :: rest =>
      '(v, w') ← Accept w seq;
      '(vs, w'') ← run_window w' rest;
      Ok (v :: vs, w'')
  end.

(** ** The specification

    Every sequence number ever accepted is remembered. *)
Module Spec.

Record state := {
  accepted : gset Z;
  highest : Z;
}.

Definition init : state := {| accepted := ∅; highest := 0 |}.

Definition fresh (window : Z) (s : state) (seq : Z) : Prop :=
  seq ≠ 0 ∧ (seq ∉ accepted s) ∧ (highest s - window < seq).

#[export] Instance fresh_dec window s seq : Decision (fresh window s seq).
Proof. unfold fresh. apply _. Defined.

Definition accept (window : Z) (s : state) (seq : Z) : bool * state :=
  if decide (fresh window s seq)
  then (true, {| accepted := {[seq]} ∪ accepted s; highest := Z.max (highest s) seq |})
  else (false, s).

Fixpoint run (window : Z) (s : state) (seqs : list Z) : list bool * state :=
  match seqs with
  | [] => ([], s)
  | seq :: rest =>
      let '(v, s') := accept window s seq in
      let '(vs, s'') := run window s' rest in
      (v :: vs, s'')
  end.
End Spec.

(** Word [k] and bit [o] of the bitmap; zero and false outside it. *)
Definition word (b : list Z) (k : Z) : Z := default 0 (b !! Z.to_nat k).
Definition bit (b : list Z) (o : Z) : bool := Z.testbit (word b (o / 64)) (o mod 64).

(** The representation invariant, and the relation to the specification. *)
Record window_ok (w : ReplayWindow) : Prop := {
  wo_size : size w = 64 * len (bits w);
  wo_pos : 64 ≤ size w ≤ MaxReplayWindow;
  wo_last : is_u32 (last w);
  wo_words : Forall is_u64 (bits w);
}.

Record represents (w : ReplayWindow) (s : Spec.state) : Prop := {
  rp_ok : window_ok w;
  rp_last : last w = Spec.highest s;
  rp_le : ∀ q, q ∈ Spec.accepted s → 0 < q ≤ Spec.highest s;
  rp_top : 0 < Spec.highest s → Spec.highest s ∈ Spec.accepted s;
  rp_bits : ∀ o, 0 ≤ o < size w →
    bit (bits w) o = true ↔ last w - o ∈ Spec.accepted s;
}.

(** ** Words and bits *)

Lemma index_word {E} b k : 0 ≤ k < len b → index (E:=E) b k = Ok (word b k).
Proof.
  intros [??]. destruct (index_ok (E:=E) b k) as (x & -> & Hx); [done..|].
  unfold word. by rewrite Hx.
Qed.

Lemma word_insert b i v k :
  0 ≤ i < len b → 0 ≤ k →
  word (<[Z.to_nat i:=v]> b) k = if k =? i then v else word b k.
Proof.
  intros [??] ?. unfold word, len in *. destruct (Z.eqb_spec k i) as [->|].
  - by rewrite list_lookup_insert_eq by lia.
  - by rewrite list_lookup_insert_ne by lia.
Qed.

Lemma word_u64 b k : Forall is_u64 b → is_u64 (word b k).
Proof.
  intros Hb. unfold word. destruct (b !! Z.to_nat k) eqn:Hk; cbn.
  - eapply Forall_lookup_1 in Hb; eauto.
  - unfold is_u64. lia.
Qed.

Lemma words_u64 b : (∀ k, 0 ≤ k < len b → is_u64 (word b k)) → Forall is_u64 b.
Proof.
  intros Hw. apply Forall_lookup_2. intros i x Hi.
  specialize (Hw (Z.of_nat i)). unfold word, len in Hw. rewrite Nat2Z.id, Hi in Hw.
  apply Hw. apply lookup_lt_Some in Hi. lia.
Qed.

Lemma is_u64_lor x y : is_u64 x → is_u64 y → is_u64 (Z.lor x y).
Proof.
  unfold is_u64. intros Hx Hy. split; [apply Z.lor_nonneg; lia|].
  rewrite <- (Z.mod_small x (2 ^ 64)), <- (Z.mod_small y (2 ^ 64)) by done.
  rewrite <- !Z.land_ones, <- Z.land_lor_distr_l, Z.land_ones by lia.
  apply Z.mod_pos_bound. lia.
Qed.

Lemma is_u64_shiftr x k : is_u64 x → 0 ≤ k → is_u64 (Z.shiftr x k).
Proof.
  unfold is_u64. intros Hx Hk. rewrite Z.shiftr_div_pow2 by done.
  split; [apply Z.div_pos; lia|]. apply Z.div_lt_upper_bound; nia.
Qed.

Lemma is_u64_u64 z : is_u64 (u64 z).
Proof. apply Z.mod_pos_bound. lia. Qed.

Lemma is_u64_bit k : 0 ≤ k < 64 → is_u64 (Z.shiftl 1 k).
Proof.
  intros. unfold is_u64. rewrite Z.shiftl_mul_pow2, Z.mul_1_l by lia.
  split; [lia|]. apply Z.pow_lt_mono_r; lia.
Qed.

#[export] Hint Resolve word_u64 is_u64_lor is_u64_shiftr is_u64_u64 is_u64_bit : go.

Lemma testbit_one k r : 0 ≤ k → 0 ≤ r → Z.testbit (Z.shiftl 1 k) r = (r =? k).
Proof.
  intros. rewrite Z.shiftl_mul_pow2, Z.mul_1_l by done.
  rewrite Z.pow2_bits_eqb by done. apply Z.eqb_sym.
Qed.

Lemma testbit_u64_shiftl x k r :
  0 ≤ r < 64 → Z.testbit (u64 (Z.shiftl x k)) r = Z.testbit x (r - k).
Proof. intros. unfold u64. by rewrite Z.mod_pow2_bits_low, Z.shiftl_spec by lia. Qed.

Lemma land_bit_eqb x k : 0 ≤ k → negb (Z.land x (Z.shiftl 1 k) =? 0) = Z.testbit x k.
Proof.
  intros Hk. destruct (Z.testbit x k) eqn:Hx.
  - apply negb_true_iff, Z.eqb_neq. intros H0.
    apply (f_equal (λ z, Z.testbit z k)) in H0.
    rewrite Z.land_spec, testbit_one, Hx, Z.eqb_refl, Z.bits_0 in H0 by done. done.
  - apply negb_false_iff, Z.eqb_eq, Z.bits_inj'. intros r Hr.
    rewrite Z.land_spec, testbit_one, Z.bits_0 by done.
    destruct (Z.eqb_spec r k) as [->|]; [by rewrite Hx|apply andb_false_r].
Qed.

(** ** The helpers, bit by bit *)

Lemma offset_word o n : 0 ≤ o < 64 * n → 0 ≤ o / 64 < n.
Proof. intros. Z.to_euclidean_division_equations. lia. Qed.

Lemma getBit_bit {E} w o :
  0 ≤ o < 64 * len (bits w) → getBit (E:=E) w o = Ok (bit (bits w) o).
Proof.
  intros Ho. unfold getBit, bit. rewrite index_word by (by apply offset_word). cbn.
  by rewrite land_bit_eqb by (apply Z.mod_pos_bound; lia).
Qed.

Lemma setBit_bit {E} w o :
  Forall is_u64 (bits w) → 0 ≤ o < 64 * len (bits w) →
  ∃ b, setBit (E:=E) w o = Ok {| size := size w; last := last w; bits := b |} ∧
       len b = len (bits w) ∧ Forall is_u64 b ∧
       ∀ o', 0 ≤ o' → bit b o' = (o' =? o) || bit (bits w) o'.
Proof.
  intros Hw Ho. pose proof (offset_word _ _ Ho) as Hk.
  pose proof (Z.mod_pos_bound o 64 ltac:(lia)) as Hm.
  unfold setBit. rewrite index_word by lia. go_step. rewrite store_ok by lia.
  eexists. split; [done|].
  split; [len_lia|]. split.
  - apply Forall_insert; auto with go.
  - intros o' Ho'. pose proof (Z.mod_pos_bound o' 64 ltac:(lia)) as Hm'.
    unfold bit at 1. rewrite word_insert by (try apply Z.div_pos; lia).
    destruct (Z.eqb_spec (o' / 64) (o / 64)) as [Hq|Hq].
    + rewrite Z.lor_spec, testbit_one, orb_comm by lia. unfold bit. rewrite Hq. f_equal.
      destruct (Z.eqb_spec o' o) as [->|Hne]; [by apply Z.eqb_refl|].
      apply Z.eqb_neq. intros Heq. apply Hne.
      rewrite (Z.div_mod o' 64), (Z.div_mod o 64), Hq, Heq by lia. done.
    + destruct (Z.eqb_spec o' o) as [->|]; done.
Qed.

Lemma shiftUp_loop_word {E} k words nbits i b :
  0 ≤ words → i = words + Z.of_nat k → i < len b →
  ∃ b', shiftUp_loop (E:=E) k words nbits i b = Ok b' ∧ len b' = len b ∧
    ∀ j, 0 ≤ j < len b →
      word b' j =
      if (words <? j) && (j <=? i)
      then Z.lor (u64 (Z.shiftl (word b (j - words)) nbits))
                 (Z.shiftr (word b (j - words - 1)) (64 - nbits))
      else word b j.
Proof.
  intros Hw. revert i b. induction k as [|k IH]; intros i b Hi Hlen.
  - exists b. split; [done|]. split; [done|]. intros j Hj.
    destruct (Z.ltb_spec words j), (Z.leb_spec j i); cbn; done || lia.
  - cbn [shiftUp_loop]. rewrite !index_word by lia. go_step. rewrite store_ok by lia. go_step.
    set (v := Z.lor _ _). destruct (IH (i - 1) (<[Z.to_nat i:=v]> b)) as (b' & -> & Hl & Hb');
      [lia|len_lia|]. rewrite len_insert in Hl.
    exists b'. split; [done|]. split; [done|]. intros j Hj.
    rewrite Hb' by len_lia.
    destruct (Z.ltb_spec words j), (Z.leb_spec j (i - 1)), (Z.leb_spec j i); cbn; try lia;
      rewrite !word_insert by lia.
    + by rewrite !(proj2 (Z.eqb_neq _ _)) by lia.
    + replace j with i by lia. by rewrite Z.eqb_refl.
    + by rewrite (proj2 (Z.eqb_neq _ _)) by lia.
    + by rewrite (proj2 (Z.eqb_neq _ _)) by lia.
Qed.

Lemma zero_loop_word {E} k i b :
  0 ≤ i → i + Z.of_nat k ≤ len b →
  ∃ b', zero_loop (E:=E) k i b = Ok b' ∧ len b' = len b ∧
    ∀ j, 0 ≤ j < len b →
      word b' j = if (i <=? j) && (j <? i + Z.of_nat k) then 0 else word b j.
Proof.
  revert i b. induction k as [|k IH]; intros i b Hi Hlen.
  - exists b. split; [done|]. split; [done|]. intros j Hj.
    destruct (Z.leb_spec i j), (Z.ltb_spec j (i + Z.of_nat 0)); cbn; done || lia.
  - cbn [zero_loop]. rewrite store_ok by lia. go_step.
    destruct (IH (i + 1) (<[Z.to_nat i:=0]> b)) as (b' & -> & Hl & Hb'); [lia|len_lia|].
    rewrite len_insert in Hl. exists b'. split; [done|]. split; [done|]. intros j Hj.
    rewrite Hb', word_insert by len_lia.
    destruct (Z.leb_spec (i + 1) j), (Z.ltb_spec j (i + 1 + Z.of_nat k)),
      (Z.leb_spec i j), (Z.ltb_spec j (i + Z.of_nat (S k))), (Z.eqb_spec j i); cbn; done || lia.
Qed.

Lemma word_app_l b1 b2 k : 0 ≤ k < len b1 → word (b1 ++ b2) k = word b1 k.
Proof. intros. unfold word, len in *. by rewrite lookup_app_l by lia. Qed.

Lemma word_app_r b1 b2 k : len b1 ≤ k → word (b1 ++ b2) k = word b2 (k - len b1).
Proof.
  intros. unfold word, len in *. rewrite lookup_app_r by lia. repeat f_equal. lia.
Qed.

Lemma word_take n b k : 0 ≤ k < Z.of_nat n → word (take n b) k = word b k.
Proof. intros. unfold word. by rewrite lookup_take_lt by lia. Qed.

(** Word [j] of the shifted bitmap, for a shift of [64 * words + nbits]. *)
Definition shifted (words nbits : Z) (b : list Z) (j : Z) : Z :=
  if j <? words then 0
  else Z.lor (u64 (Z.shiftl (word b (j - words)) nbits))
             (if j =? words then 0 else Z.shiftr (word b (j - words - 1)) (64 - nbits)).

Lemma u64_shiftl_0 x : is_u64 x → u64 (Z.shiftl x 0) = x.
Proof. intros. unfold u64. by rewrite Z.shiftl_0_r, Z.mod_small. Qed.

Lemma shiftr_64 x : is_u64 x → Z.shiftr x 64 = 0.
Proof. intros. rewrite Z.shiftr_div_pow2 by lia. by apply Z.div_small. Qed.

Lemma shiftUp_word {E} b n :
  Forall is_u64 b → 0 < n →
  ∃ b', shiftUp (E:=E) b n = Ok b' ∧ len b' = len b ∧
    ∀ j, 0 ≤ j < len b → word b' j = shifted (n / 64) (n mod 64) b j.
Proof.
  intros Hu Hn. unfold shiftUp. rewrite (proj2 (Z.eqb_neq n 0)) by lia.
  pose proof (Z.mod_pos_bound n 64 ltac:(lia)) as Hbits.
  pose proof (Z.div_pos n 64 ltac:(lia) ltac:(lia)) as Hwords.
  set (words := n / 64) in *. set (nbits := n mod 64) in *.
  rewrite Z.geb_leb. destruct (Z.leb_spec (len b) words) as [Hge|Hlt].
  { destruct (zero_loop_word (E:=E) (length b) 0 b) as (b' & -> & Hl & Hb'); [lia|done|].
    exists b'. split; [done|]. split; [done|]. intros j Hj. rewrite Hb' by done.
    unfold shifted. rewrite (proj2 (Z.ltb_lt j words)) by lia.
    destruct (Z.leb_spec 0 j), (Z.ltb_spec j (0 + Z.of_nat (length b)));
      cbn; unfold len in *; done || lia. }
  match goal with |- context [mbind _ ?c] => enough (∃ b1, c = Ok b1 ∧ len b1 = len b ∧
    ∀ j, words ≤ j < len b → word b1 j = shifted words nbits b j) as (b1 & -> & Hl1 & Hb1) end.
  { go_step. destruct (zero_loop_word (E:=E) (Z.to_nat words) 0 b1) as (b' & -> & Hl & Hb');
      [lia..|]. exists b'. split; [done|]. split; [lia|]. intros j Hj. rewrite Hb' by lia.
    destruct (Z.leb_spec 0 j), (Z.ltb_spec j (0 + Z.of_nat (Z.to_nat words))); cbn; try lia.
    - unfold shifted. by rewrite (proj2 (Z.ltb_lt j words)) by lia.
    - apply Hb1. lia. }
  destruct (Z.eqb_spec nbits 0) as [H0|H0].
  - rewrite !slice_ok by lia. go_step. eexists. split; [done|].
    rewrite !Z.sub_0_r. change (Z.to_nat 0) with 0%nat. rewrite !drop_0.
    split; [len_lia|]. intros j Hj.
    rewrite word_app_r by len_lia. rewrite len_take, Z2Nat.id, Z.min_l by lia.
    rewrite word_take by lia. unfold shifted. rewrite (proj2 (Z.ltb_ge j words)), H0 by lia.
    rewrite u64_shiftl_0, shiftr_64, Tauto.if_same, Z.lor_0_r by auto with go. done.
  - destruct (shiftUp_loop_word (E:=E) (Z.to_nat (len b - 1 - words)) words nbits (len b - 1) b)
      as (b1 & -> & Hl1 & Hb1); [lia..|].
    go_step. rewrite index_word by lia. go_step. rewrite store_ok by lia.
    eexists. split; [done|]. split; [len_lia|]. intros j Hj. rewrite word_insert by lia.
    unfold shifted. rewrite (proj2 (Z.ltb_ge j words)) by lia.
    destruct (Z.eqb_spec j words) as [->|]; rewrite ?Hb1 by lia.
    + rewrite Z.sub_diag, Z.lor_0_r, (proj2 (Z.ltb_ge words 0)) by lia. done.
    + by rewrite (proj2 (Z.ltb_lt words j)), (proj2 (Z.leb_le j (len b - 1))) by lia.
Qed.

Lemma bit_at b k r : 0 ≤ r < 64 → bit b (64 * k + r) = Z.testbit (word b k) r.
Proof.
  intros. unfold bit.
  by rewrite (Z.mul_comm 64), Z.div_add_l, (Z.div_small r), Z.add_0_r, Z.add_comm,
    Z.mod_add, Z.mod_small by lia.
Qed.

Lemma shifted_bit words nbits b j r :
  Forall is_u64 b → 0 ≤ words → 0 ≤ nbits < 64 → 0 ≤ j → 0 ≤ r < 64 →
  Z.testbit (shifted words nbits b j) r =
  (64 * words + nbits <=? 64 * j + r) && bit b (64 * j + r - (64 * words + nbits)).
Proof.
  intros Hb Hw Hn Hj Hr. unfold shifted. destruct (Z.ltb_spec j words).
  { rewrite Z.bits_0. by rewrite (proj2 (Z.leb_gt _ _)) by lia. }
  rewrite Z.lor_spec, testbit_u64_shiftl by done.
  destruct (Z.le_gt_cases nbits r) as [Hle|Hgt].
  - rewrite (proj2 (Z.leb_le _ _)) by lia. cbn.
    replace (64 * j + r - (64 * words + nbits)) with (64 * (j - words) + (r - nbits)) by lia.
    rewrite bit_at by lia. destruct (Z.eqb_spec j words); [by rewrite Z.bits_0, orb_false_r|].
    pose proof (word_u64 b (j - words - 1) Hb) as Hu. unfold is_u64 in Hu.
    by rewrite Z.shiftr_spec, (testbit_above _ 64 (r + _)), orb_false_r by lia.
  - rewrite (Z.testbit_neg_r _ (r - nbits)) by lia. cbn.
    destruct (Z.eqb_spec j words).
    + rewrite Z.bits_0. by rewrite (proj2 (Z.leb_gt _ _)) by lia.
    + rewrite (proj2 (Z.leb_le _ _)), Z.shiftr_spec by lia. cbn.
      replace (64 * j + r - (64 * words + nbits))
        with (64 * (j - words - 1) + (r + (64 - nbits))) by lia.
      by rewrite bit_at by lia.
Qed.

(** [shiftUp] is a left shift of the whole bitmap. *)
Lemma shiftUp_bit {E} b n :
  Forall is_u64 b → 0 < n →
  ∃ b', shiftUp (E:=E) b n = Ok b' ∧ len b' = len b ∧ Forall is_u64 b' ∧
    ∀ o, 0 ≤ o < 64 * len b → bit b' o = (n <=? o) && bit b (o - n).
Proof.
  intros Hb Hn. destruct (shiftUp_word (E:=E) b n Hb Hn) as (b' & Hs & Hl & Hw).
  pose proof (Z.mod_pos_bound n 64 ltac:(lia)).
  pose proof (Z.div_pos n 64 ltac:(lia) ltac:(lia)).
  exists b'. split; [done|]. split; [done|]. split.
  - apply words_u64. intros k Hk. rewrite Hw by lia. unfold shifted.
    case_if; [unfold is_u64; lia|]. apply is_u64_lor; [auto with go|].
    case_if; [unfold is_u64; lia|]. apply is_u64_shiftr; [auto with go|lia].
  - intros o Ho. pose proof (Z.mod_pos_bound o 64 ltac:(lia)).
    pose proof (offset_word _ _ Ho). unfold bit at 1. rewrite Hw by lia.
    rewrite shifted_bit by (done || lia). by rewrite <- !Z.div_mod by lia.
Qed.

(** ** Refinement *)

Lemma NewReplayWindow_represents n :
  is_u32 n → represents (NewReplayWindow n) Spec.init.
Proof.
  intros Hn. unfold NewReplayWindow.
  set (s1 := if n <? 64 then 64 else n).
  set (s2 := if s1 >? MaxReplayWindow then MaxReplayWindow else s1).
  assert (Hs2 : 64 ≤ s2 ≤ MaxReplayWindow).
  { unfold s2, s1. change MaxReplayWindow with (2 ^ 20). rewrite Z.gtb_ltb.
    repeat case_if; bool_prop; lia. }
  change MaxReplayWindow with (2 ^ 20) in Hs2.
  assert (Hw : 1 ≤ (s2 + 63) / 64 ≤ 2 ^ 14).
  { Z.to_euclidean_division_equations. lia. }
  assert (Hsz : u32 ((s2 + 63) / 64 * 64) = (s2 + 63) / 64 * 64).
  { apply Z.mod_small. lia. }
  constructor; cbn -[u32 Z.div Z.mul replicate Z.to_nat].
  - constructor; cbn -[u32 Z.div Z.mul replicate Z.to_nat Z.shiftl]; rewrite ?Hsz.
    + len_lia.
    + change MaxReplayWindow with (2 ^ 20). lia.
    + unfold is_u32. lia.
    + apply Forall_replicate. unfold is_u64. lia.
  - done.
  - by intros q ?%not_elem_of_empty.
  - lia.
  - intros o Ho. rewrite Hsz in Ho.
    assert (Hz : word (replicate (Z.to_nat ((s2 + 63) / 64)) 0) (o / 64) = 0).
    { unfold word. destruct (replicate _ 0 !! _) as [x|] eqn:Hx; [|done].
      by apply lookup_replicate in Hx as [-> _]. }
    unfold bit. rewrite Hz, Z.bits_0. split; [done|by intros ?%not_elem_of_empty].
Qed.

(** The two ways a packet is accepted: above the window and inside it. *)
Lemma Accept_above {E} w s seq :
  represents w s → is_u32 seq → last w < seq →
  ∃ w', Accept (E:=E) w seq = Ok (true, w') ∧ size w' = size w ∧
    represents w' {| Spec.accepted := {[seq]} ∪ Spec.accepted s; Spec.highest := seq |}.
Proof.
  intros [[Hsz Hpos Hlast Hu] Hl Hle Htop Hbits] Hseq Hgt. unfold Accept.
  unfold is_u32 in *. rewrite (proj2 (Z.eqb_neq seq 0)) by lia.
  rewrite Z.gtb_ltb, (proj2 (Z.ltb_lt (last w) seq)) by done.
  destruct (shiftUp_bit (E:=E) (bits w) (seq - last w) Hu) as (b & -> & Hlb & Hub & Hb); [lia|].
  go_step. destruct (setBit_bit (E:=E) {| size := size w; last := seq; bits := b |} 0)
    as (b' & -> & Hlb' & Hub' & Hb'); [done|cbn; lia|]. cbn in Hlb', Hb'. go_step.
  eexists. split; [done|]. split; [done|]. constructor; cbn.
  - constructor; cbn; done || lia.
  - done.
  - intros q [->%elem_of_singleton|?%Hle]%elem_of_union; lia.
  - intros _. by apply elem_of_union_l, elem_of_singleton.
  - intros o Ho. rewrite Hb', Hb, orb_true_iff, andb_true_iff, Z.eqb_eq, Z.leb_le by lia.
    rewrite elem_of_union, elem_of_singleton. split.
    + intros [->|[Hn Hbit]]; [left; lia|]. right.
      apply Hbits in Hbit; [|lia]. by replace (seq - o) with (last w - (o - (seq - last w))) by lia.
    + intros [?|Hin]; [left; lia|]. right. pose proof (Hle _ Hin).
      split; [lia|]. apply Hbits; [lia|].
      by replace (last w - (o - (seq - last w))) with (seq - o) by lia.
Qed.

Lemma Accept_inside {E} w s seq :
  represents w s → 0 < seq < last w → last w - seq < size w →
  ∃ w', Accept (E:=E) w seq = Ok (negb (bool_decide (seq ∈ Spec.accepted s)), w') ∧
    size w' = size w ∧
    represents w' {| Spec.accepted := {[seq]} ∪ Spec.accepted s; Spec.highest := Spec.highest s |}.
Proof.
  intros [[Hsz Hpos Hlast Hu] Hl Hle Htop Hbits] Hseq Hoff. unfold Accept, is_u32 in *.
  rewrite (proj2 (Z.eqb_neq seq 0)), Z.gtb_ltb, (proj2 (Z.ltb_ge (last w) seq)),
    (proj2 (Z.eqb_neq seq (last w))) by lia.
  unfold u32. rewrite (Z.mod_small (last w - seq)) by lia.
  rewrite Z.geb_leb, (proj2 (Z.leb_gt (size w) _)) by lia.
  rewrite getBit_bit by lia. go_step.
  pose proof (Hbits (last w - seq) ltac:(lia)) as Hb0.
  replace (last w - (last w - seq)) with seq in Hb0 by lia.
  destruct (bit (bits w) (last w - seq)) eqn:Hbit.
  - rewrite bool_decide_eq_true_2 by (by apply Hb0). eexists. split; [done|]. split; [done|].
    assert ({[seq]} ∪ Spec.accepted s = Spec.accepted s) as ->.
    { apply subseteq_union_1_L, singleton_subseteq_l. by apply Hb0. }
    destruct s; constructor; done.
  - rewrite bool_decide_eq_false_2 by (intros ?%Hb0; done).
    destruct (setBit_bit (E:=E) w (last w - seq)) as (b' & -> & Hlb' & Hub' & Hb'); [done|lia|].
    go_step. eexists. split; [done|]. split; [done|]. constructor; cbn.
    + constructor; cbn; done || lia.
    + done.
    + intros q [->%elem_of_singleton|?%Hle]%elem_of_union; lia.
    + intros ?. apply elem_of_union. right. by apply Htop.
    + intros o Ho. rewrite Hb', orb_true_iff, Z.eqb_eq, (Hbits o) by lia.
      rewrite elem_of_union, elem_of_singleton. split; (intros [?|?]; [left; lia|by right]).
Qed.

Lemma Accept_refines {E} w s seq :
  represents w s → is_u32 seq →
  ∃ w', Accept (E:=E) w seq = Ok ((Spec.accept (size w) s seq).1, w') ∧
    size w' = size w ∧ represents w' (Spec.accept (size w) s seq).2.
Proof.
  intros Hrep Hseq. pose proof Hrep as [[Hsz Hpos Hlast Hu] Hl Hle Htop Hbits].
  unfold is_u32 in *. unfold Spec.accept.
  destruct (Z.lt_trichotomy seq (last w)) as [Hlt|[Heq|Hgt]].
  - destruct (decide (seq = 0)) as [->|Hne].
    { rewrite decide_False by (intros []; done). eauto. }
    destruct (Z.lt_ge_cases (last w - seq) (size w)) as [Hin|Hout].
    + destruct (Accept_inside (E:=E) w s seq Hrep ltac:(lia) Hin) as (w' & -> & ? & Hr).
      exists w'. destruct (decide (seq ∈ Spec.accepted s)) as [Hacc|Hacc].
      * rewrite bool_decide_eq_true_2, decide_False by (done || intros (?&?&?); done).
        split; [done|]. split; [done|].
        assert ({[seq]} ∪ Spec.accepted s = Spec.accepted s) as Hs.
        { by apply subseteq_union_1_L, singleton_subseteq_l. }
        rewrite Hs in Hr. by destruct s.
      * rewrite bool_decide_eq_false_2, decide_True by (try split; try split; done || lia).
        split; [done|]. split; [done|]. cbn. by rewrite Z.max_l by lia.
    + exists w. rewrite decide_False by (intros (?&?&?); lia). unfold Accept, u32.
      rewrite (proj2 (Z.eqb_neq seq 0)), Z.gtb_ltb, (proj2 (Z.ltb_ge (last w) seq)),
        (proj2 (Z.eqb_neq seq (last w))), (Z.mod_small (last w - seq)), Z.geb_leb,
        (proj2 (Z.leb_le (size w) _)) by lia. done.
  - exists w. rewrite decide_False.
    + unfold Accept. rewrite Z.gtb_ltb, Heq, Z.ltb_irrefl, Z.eqb_refl. by case_if.
    + intros (Hnz & Hacc & _). apply Hacc. rewrite Heq, Hl. apply Htop. lia.
  - destruct (Accept_above (E:=E) w s seq Hrep Hseq Hgt) as (w' & -> & ? & Hr).
    exists w'. rewrite decide_True; [|split; [lia|split; [|lia]]].
    + split; [done|]. split; [done|]. cbn. by rewrite Z.max_r by lia.
    + intros ?%Hle. lia.
Qed.

Lemma run_window_represents {E} w s seqs :
  represents w s → Forall is_u32 seqs →
  ∃ w', run_window (E:=E) w seqs = Ok ((Spec.run (size w) s seqs).1, w') ∧
    size w' = size w ∧ represents w' (Spec.run (size w) s seqs).2.
Proof.
  intros Hrep Hs. revert w s Hrep. induction Hs as [|q seqs Hq Hs IH]; intros w s Hrep.
  - eauto.
  - cbn [run_window Spec.run]. destruct (Accept_refines (E:=E) w s q Hrep Hq) as (w1 & -> & Hz & Hr).
    destruct (Spec.accept (size w) s q) as [v s1]. cbn in Hr |- *.
    destruct (IH w1 s1 Hr) as (w2 & -> & Hz2 & Hr2). rewrite Hz in *.
    destruct (Spec.run (size w) s1 seqs) as [vs s2]. cbn in *. eauto with lia.
Qed.

(** The sequence numbers a run let through. *)
Fixpoint let_through (seqs : list Z) (verdicts : list bool) : list Z :=
  match seqs, verdicts with
  | q :: seqs', v :: verdicts' =>
      if (v : bool) then q :: let_through seqs' verdicts' else let_through seqs' verdicts'
  | _, _ => []
  end.

Lemma Spec_run_no_duplicates window s seqs :
  NoDup (let_through seqs (Spec.run window s seqs).1) ∧
  ∀ q, q ∈ let_through seqs (Spec.run window s seqs).1 → q ∉ Spec.accepted s.
Proof.
  revert s. induction seqs as [|q seqs IH]; intros s.
  { split; [constructor|]. by intros q ?%elem_of_nil. }
  cbn [Spec.run]. unfold Spec.accept. case_decide as Hf.
  - set (s' := Spec.Build_state _ _). specialize (IH s').
    destruct (Spec.run window s' seqs) as [vs s'']. cbn in IH |- *. destruct IH as [Hnd Hin].
    split.
    + constructor; [|done]. intros ?%Hin. cbn in *. set_solver.
    + intros q' [->|Hq']%elem_of_cons; [by destruct Hf as (?&?&?)|].
      apply Hin in Hq'. cbn in Hq'. set_solver.
  - specialize (IH s). destruct (Spec.run window s seqs) as [vs s'']. cbn in IH |- *.
    done.
Qed.

(** ** Properties of the window *)

(** C5. The bitmap window is indistinguishable from one that remembers every
    sequence number it ever accepted: on any stream of 32-bit sequence numbers,
    from any configured size, no packet makes it panic and each verdict is the
    specification's (accept iff non-zero, never accepted before, and less than
    the window size behind the highest accepted). *)
Theorem replay_window_refines {E} n seqs :
  is_u32 n → Forall is_u32 seqs →
  ∃ w', run_window (E:=E) (NewReplayWindow n) seqs =
          Ok ((Spec.run (size (NewReplayWindow n)) Spec.init seqs).1, w') ∧
        represents w' (Spec.run (size (NewReplayWindow n)) Spec.init seqs).2.
Proof.
  intros Hn Hs.
  destruct (run_window_represents (E:=E) _ _ seqs (NewReplayWindow_represents n Hn) Hs)
    as (w' & Hrun & _ & Hr). eauto.
Qed.

Lemma replay_window_refines_witness :
  run_window (E:=unit) (NewReplayWindow 64) [1; 0; 5; 3; 5; 3; 1; 100; 36; 37; 99; 36; 4294967295]
  ≫= (λ p, Ok p.1) =
  Ok [true; false; true; true; false; false; false; true; false; true; true; false; true].
Proof.
  destruct (replay_window_refines (E:=unit) 64
    [1; 0; 5; 3; 5; 3; 1; 100; 36; 37; 99; 36; 4294967295]) as (w' & -> & _).
  - unfold is_u32. lia.
  - unfold is_u32. repeat constructor; lia.
  - vm_compute. reflexivity.
Defined.

(** No sequence number is let through twice, whatever the order, gaps and
    repetitions in which packets arrive. *)
Theorem replay_window_no_replay {E} n seqs verdicts w :
  is_u32 n → Forall is_u32 seqs →
  run_window (E:=E) (NewReplayWindow n) seqs = Ok (verdicts, w) →
  NoDup (let_through seqs verdicts).
Proof.
  intros Hn Hs Hrun.
  destruct (run_window_represents (E:=E) _ _ seqs (NewReplayWindow_represents n Hn) Hs)
    as (w' & Hrun' & _). rewrite Hrun in Hrun'. injection Hrun' as -> _.
  apply Spec_run_no_duplicates.
Qed.

Lemma replay_window_no_replay_witness :
  NoDup (let_through [2; 2; 1; 70; 2; 7; 70; 7] [true; false; true; true; false; true; false; false]).
Proof.
  eapply (replay_window_no_replay (E:=unit) 100).
  - unfold is_u32. lia.
  - unfold is_u32. repeat constructor; lia.
  - vm_compute. reflexivity.
Defined.

(** Shifting the bitmap word by word, in place, is a left shift of the whole
    bitmap: bit [o] moves to [o + n], the vacated bits are clear, bits shifted
    past the end are dropped, and no word index is out of range. *)
Theorem shiftUp_shifts {E} b n :
  Forall is_u64 b → 0 ≤ n →
  ∃ b', shiftUp (E:=E) b n = Ok b' ∧ length b' = length b ∧ Forall is_u64 b' ∧
    ∀ o, 0 ≤ o < 64 * len b → bit b' o = (n <=? o) && bit b (o - n).
Proof.
  intros Hb Hn. destruct (decide (n = 0)) as [->|].
  - exists b. do 3 (split; [done|]). intros o Ho.
    by rewrite (proj2 (Z.leb_le 0 o)), Z.sub_0_r by lia.
  - destruct (shiftUp_bit (E:=E) b n Hb) as (b' & ? & Hl & ? & ?); [lia|].
    exists b'. unfold len in Hl. repeat split; try done; lia.
Qed.

Lemma shiftUp_shifts_witness :
  ∃ b', shiftUp (E:=unit) [2 ^ 63 + 1; 5; 2 ^ 63] 65 = Ok b' ∧ b' = [0; 2; 11] ∧
    bit b' 65 = bit [2 ^ 63 + 1; 5; 2 ^ 63] 0.
Proof.
  destruct (shiftUp_shifts (E:=unit) [2 ^ 63 + 1; 5; 2 ^ 63] 65) as (b' & Hs & _ & _ & Hb).
  - repeat constructor; unfold is_u64; lia.
  - lia.
  - exists b'. split; [done|]. split; [|by rewrite Hb by (vm_compute; intuition congruence)].
    vm_compute in Hs. by injection Hs as <-.
Defined.

(** The configured size is honoured: the window is a positive multiple of 64,
    at least the requested size (up to the 2^20 cap) and less than 64 above it,
    and the bitmap has exactly one bit per window position, so that the first
    packet cannot index an empty bitmap. *)
Theorem NewReplayWindow_size n :
  is_u32 n →
  let w := NewReplayWindow n in
  size w = 64 * len (bits w) ∧ 64 ≤ size w ≤ MaxReplayWindow ∧
  (n ≤ MaxReplayWindow → n ≤ size w) ∧ (64 ≤ n → size w < n + 64).
Proof.
  intros Hn w. destruct (NewReplayWindow_represents n Hn) as [[Hs Hp _ _] _ _ _ _].
  fold w in Hs, Hp. split; [done|]. split; [done|]. unfold w, NewReplayWindow in *. clear w.
  cbn -[u32 Z.div Z.mul Z.shiftl MaxReplayWindow] in *. unfold u32 in *.
  change MaxReplayWindow with (2 ^ 20) in *. rewrite !Z.gtb_ltb in *.
  unfold is_u32 in *. repeat case_if; bool_prop; try lia; split; intros;
    Z.to_euclidean_division_equations; lia.
Qed.

Lemma NewReplayWindow_size_witness :
  size (NewReplayWindow 1000) = 1024 ∧ 1000 ≤ size (NewReplayWindow 1000).
Proof.
  split; [reflexivity|]. apply (NewReplayWindow_size 1000).
  - unfold is_u32. lia.
  - vm_compute. congruence.
Defined.
