(* ===== verification/IkePayload.v ===== *)
(** * IKEv2 payloads and their body codecs (internal/ikemsg)

    The data types of const.go and payloads_*.go, and for every payload type its
    [marshalBody] and [unmarshalBody].  Every slice and index of the parsers is
    a checked operation, so that a missing bounds check would be a [Panic].
    The lemmas give, for each body codec, safety on arbitrary input with the
    well-formedness of what it returns, and the round trip. *)

From S2P Require Import Prelude.

(** ** IANA values (const.go) *)

Definition PayloadNone := 0.
Definition PayloadSA := 33.
Definition PayloadKE := 34.
Definition PayloadIDi := 35.
Definition PayloadIDr := 36.
Definition PayloadCert := 37.
Definition PayloadCertReq := 38.
Definition PayloadAuth := 39.
Definition PayloadNonce := 40.
Definition PayloadNotify := 41.
Definition PayloadDelete := 42.
Definition PayloadVendorID := 43.
Definition PayloadTSi := 44.
Definition PayloadTSr := 45.
Definition PayloadSK := 46.
Definition PayloadCP := 47.
Definition PayloadEAP := 48.

Definition ExchangeIKESAInit := 34.
Definition ExchangeIKEAuth := 35.
Definition ExchangeCreateChildSA := 36.
Definition ExchangeInformational := 37.

Definition ProtocolNone := 0.
Definition ProtocolIKE := 1.
Definition ProtocolAH := 2.
Definition ProtocolESP := 3.

Definition TransformEncr := 1.
Definition TransformPRF := 2.
Definition TransformInteg := 3.
Definition TransformDH := 4.
Definition TransformESN := 5.

Definition ENCR_AES_CBC := 12.
Definition ENCR_AES_GCM_16 := 20.
Definition ENCR_CHACHA20_POLY1305 := 28.
Definition PRF_HMAC_SHA2_256 := 5.
Definition AUTH_NONE := 0.
Definition AUTH_HMAC_SHA2_256_128 := 12.
Definition DH_MODP2048 := 14.
Definition DH_X25519 := 31.
Definition ESN_NONE := 0.

Definition AttrKeyLength := 14.

Definition NotifyStatus := 16384.
Definition NotifyInvalidSyntax := 7.
Definition NotifyNoProposalChosen := 14.
Definition NotifyInvalidKEPayload := 17.
Definition NotifyAuthenticationFailed := 24.
Definition NotifyTemporaryFailure := 43.
Definition NotifyChildSANotFound := 44.
Definition NotifyInitialContact := 16384.
Definition NotifyNATDetectionSourceIP := 16388.
Definition NotifyNATDetectionDestinationIP := 16389.
Definition NotifyCookie := 16390.
Definition NotifyRekeySA := 16393.

(** NotifyType.IsError *)
Definition NotifyType_IsError (t : Z) : bool := negb (t =? 0) && (t <? NotifyStatus).

Definition IDTypeIPv4 := 1.
Definition IDTypeFQDN := 2.
Definition IDTypeRFC822 := 3.
Definition IDTypeIPv6 := 5.
Definition IDTypeDERASN1DN := 9.
Definition IDTypeKeyID := 11.

Definition ConfigRequest := 1.
Definition ConfigReply := 2.
Definition ConfigSet := 3.
Definition ConfigAck := 4.

Definition ConfigAttrInternalIP4Address := 1.
Definition ConfigAttrInternalIP4Netmask := 2.
Definition ConfigAttrInternalIP4DNS := 3.
Definition ConfigAttrInternalIP6Address := 8.
Definition ConfigAttrInternalIP6DNS := 10.

Definition TSIPv4AddrRange := 7.
Definition TSIPv6AddrRange := 8.

Definition CertX509Signature := 4.

Definition FlagInitiator := 8.
Definition FlagVersion := 16.
Definition FlagResponse := 32.

Definition IsInitiator (f : Z) : bool := negb (Z.land f FlagInitiator =? 0).
Definition IsResponse (f : Z) : bool := negb (Z.land f FlagResponse =? 0).

(** ** Payload data *)

Record Transform := {
  tr_Type : Z;
  tr_ID : Z;
  tr_KeyLength : Z;
  tr_HasKeyLength : bool;
}.

Record Proposal := {
  pr_Number : Z;
  pr_Protocol : Z;
  pr_SPI : bytes;
  pr_Transforms : list Transform;
}.

Record TrafficSelector := {
  ts_TSType : Z;
  ts_Protocol : Z;
  ts_StartPort : Z;
  ts_EndPort : Z;
  ts_StartAddr : bytes;
  ts_EndAddr : bytes;
}.

Record ConfigAttr := {
  ca_Type : Z;
  ca_Value : bytes;
}.

Inductive Payload :=
| SAPayload (Proposals : list Proposal)
| KEPayload (Group : Z) (Data : bytes)
| IDiPayload (IDType : Z) (Data : bytes)
| IDrPayload (IDType : Z) (Data : bytes)
| CertPayload (Encoding : Z) (Data : bytes)
| CertRequestPayload (Encoding : Z) (Data : bytes)
| AuthPayload (Method : Z) (Data : bytes)
| NoncePayload (Data : bytes)
| NotifyPayload (Protocol Type_ : Z) (SPI Data : bytes)
| DeletePayload (Protocol : Z) (SPIs : list bytes)
| VendorIDPayload (Data : bytes)
| TSiPayload (Selectors : list TrafficSelector)
| TSrPayload (Selectors : list TrafficSelector)
| EncryptedPayload (InnerFirst : Z) (Data : bytes)
| ConfigPayload (CfgType : Z) (Attributes : list ConfigAttr)
| EAPPayload (Data : bytes).

#[export] Instance Transform_eq_dec : EqDecision Transform.
Proof. solve_decision. Defined.
#[export] Instance Proposal_eq_dec : EqDecision Proposal.
Proof. solve_decision. Defined.
#[export] Instance TrafficSelector_eq_dec : EqDecision TrafficSelector.
Proof. solve_decision. Defined.
#[export] Instance ConfigAttr_eq_dec : EqDecision ConfigAttr.
Proof. solve_decision. Defined.
#[export] Instance Payload_eq_dec : EqDecision Payload.
Proof. solve_decision. Defined.

(** Every error value the codec returns, with the numbers its message carries. *)
Inductive msg_error :=
| ErrTransformKeyLength (t : Transform)
| ErrProposalSPISize (n : Z)
| ErrProposalTransforms (n : Z)
| ErrProposalHeader
| ErrProposalLength (n : Z)
| ErrProposalOverrun (n rem : Z)
| ErrProposalSPIOverrun (spi plen : Z)
| ErrTransformHeader
| ErrTransformLength (n : Z)
| ErrTransformOverrun (n rem : Z)
| ErrAttributeTruncated (tlen : Z)
| ErrAttributeOverrun (alen : Z)
| ErrNoSelectors
| ErrSelectorType (t : Z)
| ErrSelectorAddrs (t alen : Z)
| ErrTSShort
| ErrTSZero
| ErrSelectorHeader
| ErrSelectorLength (t n want : Z)
| ErrSelectorOverrun (n rem : Z)
| ErrTSTrailing (n count : Z)
| ErrNotifyShort
| ErrNotifySPI (n len : Z)
| ErrDeleteWidths
| ErrDeleteShort
| ErrDeleteZeroWidth (count : Z)
| ErrDeleteOverrun (size count len : Z)
| ErrKEShort
| ErrNonceLen (n : Z)
| ErrIDShort
| ErrAuthShort
| ErrCertEmpty
| ErrCertReqEmpty
| ErrConfigShort
| ErrConfigAttrHeader
| ErrConfigAttrOverrun (n rem : Z)
| ErrPayloadTooLarge (t n : Z)
| ErrDatagramShort
| ErrHeaderLength (n : Z)
| ErrLengthMismatch (have want : Z)
| ErrGenericTruncated
| ErrPayloadLength (n : Z)
| ErrPayloadOverrun (n rem : Z)
| ErrUnknownCritical (t : Z)
| ErrPayloadBody (t : Z) (e : msg_error).

Abbreviation M := (Res msg_error).

(** ** Security Association (payloads_sa.go) *)

(** Proposal.ByType *)
Definition ByType (p : Proposal) (t : Z) : list Transform :=
  filter (λ tr, tr_Type tr = t) (pr_Transforms p).

Definition marshalTransform (t : Transform) (more : bool) : M bytes :=
  if negb (tr_KeyLength t =? 0) && negb (tr_HasKeyLength t)
  then Err (ErrTransformKeyLength t)
  else
    let attr := if tr_HasKeyLength t
                then put16 (Z.lor 0x8000 AttrKeyLength) ++ put16 (tr_KeyLength t)
                else [] in
    Ok ([if more then 3 else 0; 0] ++ put16 (u16 (8 + len attr)) ++
        [tr_Type t; 0] ++ put16 (tr_ID t) ++ attr).

(** for i := range p.Transforms { ... marshalTransform(.., i+1 < len(..)) } *)
Fixpoint marshalTransforms (ts : list Transform) : M bytes :=
  match ts with
  | [] => Ok []
  | t :: rest =>
      td ← marshalTransform t (negb (bool_decide (rest = [])));
      tail ← marshalTransforms rest;
      Ok (td ++ tail)
  end.

Definition marshalProposal (p : Proposal) (more : bool) : M bytes :=
  if len (pr_SPI p) >? 255 then Err (ErrProposalSPISize (len (pr_SPI p)))
  else if len (pr_Transforms p) >? 255
  then Err (ErrProposalTransforms (len (pr_Transforms p)))
  else
    ts ← marshalTransforms (pr_Transforms p);
    Ok ([if more then 2 else 0; 0] ++ put16 (u16 (8 + len (pr_SPI p) + len ts)) ++
        [pr_Number p; pr_Protocol p; u8 (len (pr_SPI p)); u8 (len (pr_Transforms p))] ++
        pr_SPI p ++ ts).

Fixpoint SAPayload_marshalBody (ps : list Proposal) : M bytes :=
  match ps with
  | [] => Ok []
  | p :: rest =>
      pd ← marshalProposal p (negb (bool_decide (rest = [])));
      tail ← SAPayload_marshalBody rest;
      Ok (pd ++ tail)
  end.

(** One transform attribute: TV Key Length is recorded, the rest is skipped. *)
Definition attr_step (tlen : Z) (t : Transform) (attrs : bytes) : M (Transform * bytes) :=
  if len attrs <? 4 then Err (ErrAttributeTruncated tlen)
  else
    h ← slice attrs 0 2;
    af ← Uint16 h;
    if negb (Z.land af 0x8000 =? 0) then
      t' ← (if Z.land af 0x7fff =? AttrKeyLength then
              v ← slice attrs 2 4;
              kl ← Uint16 v;
              Ok {| tr_Type := tr_Type t; tr_ID := tr_ID t;
                    tr_KeyLength := kl; tr_HasKeyLength := true |}
            else Ok t);
      rest ← slice_from attrs 4;
      Ok (t', rest)
    else
      v ← slice attrs 2 4;
      alen ← Uint16 v;
      if 4 + alen >? len attrs then Err (ErrAttributeOverrun alen)
      else rest ← slice_from attrs (4 + alen); Ok (t, rest).

Definition transform_step (acc : list Transform) (body : bytes) : M (list Transform * bytes) :=
  if len body <? 8 then Err ErrTransformHeader
  else
    h ← slice body 2 4;
    tlen ← Uint16 h;
    if tlen <? 8 then Err (ErrTransformLength tlen)
    else if tlen >? len body then Err (ErrTransformOverrun tlen (len body))
    else
      ty ← index body 4;
      ib ← slice body 6 8;
      id ← Uint16 ib;
      attrs ← slice body 8 tlen;
      t ← for_bytes (attr_step tlen)
            {| tr_Type := ty; tr_ID := id; tr_KeyLength := 0; tr_HasKeyLength := false |} attrs;
      rest ← slice_from body tlen;
      Ok (acc ++ [t], rest).

Definition parseTransforms (body : bytes) : M (list Transform) :=
  for_bytes transform_step [] body.

Definition proposal_step (acc : list Proposal) (body : bytes) : M (list Proposal * bytes) :=
  if len body <? 8 then Err ErrProposalHeader
  else
    h ← slice body 2 4;
    plen ← Uint16 h;
    if plen <? 8 then Err (ErrProposalLength plen)
    else if plen >? len body then Err (ErrProposalOverrun plen (len body))
    else
      spiSize ← index body 6;
      if 8 + spiSize >? plen then Err (ErrProposalSPIOverrun spiSize plen)
      else
        number ← index body 4;
        protocol ← index body 5;
        spi ← (if spiSize >? 0 then slice body 8 (8 + spiSize) else Ok []);
        tb ← slice body (8 + spiSize) plen;
        transforms ← parseTransforms tb;
        rest ← slice_from body plen;
        Ok (acc ++ [{| pr_Number := number; pr_Protocol := protocol; pr_SPI := spi;
                       pr_Transforms := transforms |}], rest).

Definition SAPayload_unmarshalBody (body : bytes) : M (list Proposal) :=
  for_bytes proposal_step [] body.

(** ** Traffic Selectors (payloads_ts.go) *)

Definition addrLen (tsType : Z) : Z :=
  if tsType =? TSIPv4AddrRange then 4
  else if tsType =? TSIPv6AddrRange then 16
  else 0.

Definition marshalSelector (ts : TrafficSelector) : M bytes :=
  let alen := addrLen (ts_TSType ts) in
  if alen =? 0 then Err (ErrSelectorType (ts_TSType ts))
  else if negb (len (ts_StartAddr ts) =? alen) || negb (len (ts_EndAddr ts) =? alen)
  then Err (ErrSelectorAddrs (ts_TSType ts) alen)
  else
    Ok ([ts_TSType ts; ts_Protocol ts] ++
        put16 (u16 (8 + len (ts_StartAddr ts) + len (ts_EndAddr ts))) ++
        put16 (ts_StartPort ts) ++ put16 (ts_EndPort ts) ++ ts_StartAddr ts ++ ts_EndAddr ts).

Fixpoint marshalSelectors (sels : list TrafficSelector) : M bytes :=
  match sels with
  | [] => Ok []
  | ts :: rest => sel ← marshalSelector ts; tail ← marshalSelectors rest; Ok (sel ++ tail)
  end.

Definition marshalTSBody (selectors : list TrafficSelector) : M bytes :=
  if len selectors =? 0 then Err ErrNoSelectors
  else sels ← marshalSelectors selectors; Ok ([u8 (len selectors); 0; 0; 0] ++ sels).

(** for range count { ... }: returns the selectors and the bytes left over. *)
Fixpoint parseSelectors (count : nat) (rest : bytes) (out : list TrafficSelector)
    : M (list TrafficSelector * bytes) :=
  match count with
  | O => Ok (out, rest)
  | S count' =>
      if len rest <? 8 then Err ErrSelectorHeader
      else
        ty ← index rest 0;
        let alen := addrLen ty in
        if alen =? 0 then Err (ErrSelectorType ty)
        else
          lb ← slice rest 2 4;
          selLen ← Uint16 lb;
          if negb (selLen =? 8 + 2 * alen)
          then Err (ErrSelectorLength ty selLen (8 + 2 * alen))
          else if selLen >? len rest then Err (ErrSelectorOverrun selLen (len rest))
          else
            proto ← index rest 1;
            spb ← slice rest 4 6;
            sp ← Uint16 spb;
            epb ← slice rest 6 8;
            ep ← Uint16 epb;
            sa ← slice rest 8 (8 + alen);
            ea ← slice rest (8 + alen) (8 + 2 * alen);
            rest' ← slice_from rest selLen;
            parseSelectors count' rest'
              (out ++ [{| ts_TSType := ty; ts_Protocol := proto; ts_StartPort := sp;
                          ts_EndPort := ep; ts_StartAddr := sa; ts_EndAddr := ea |}])
  end.

Definition parseTSBody (body : bytes) : M (list TrafficSelector) :=
  if len body <? 4 then Err ErrTSShort
  else
    count ← index body 0;
    if count =? 0 then Err ErrTSZero
    else
      rest ← slice_from body 4;
      '(out, rest') ← parseSelectors (Z.to_nat count) rest [];
      if negb (len rest' =? 0) then Err (ErrTSTrailing (len rest') count)
      else Ok out.

(** ** Notify and Delete (payloads_notify.go) *)

Definition NotifyPayload_marshalBody (protocol ty : Z) (spi data : bytes) : M bytes :=
  Ok ([protocol; u8 (len spi)] ++ put16 ty ++ spi ++ data).

Definition NotifyPayload_unmarshalBody (body : bytes) : M Payload :=
  if len body <? 4 then Err ErrNotifyShort
  else
    spiSize ← index body 1;
    if 4 + spiSize >? len body then Err (ErrNotifySPI spiSize (len body))
    else
      protocol ← index body 0;
      tb ← slice body 2 4;
      ty ← Uint16 tb;
      spi ← slice body 4 (4 + spiSize);
      data ← slice_from body (4 + spiSize);
      Ok (NotifyPayload protocol ty spi data).

Definition SPISize (spis : list bytes) : Z :=
  match spis with
  | [] => 0
  | spi :: _ => u8 (len spi)
  end.

Definition DeletePayload_marshalBody (protocol : Z) (spis : list bytes) : M bytes :=
  let size := SPISize spis in
  if forallb (λ spi, u8 (len spi) =? size) spis
  then Ok ([protocol; size] ++ put16 (u16 (len spis)) ++ concat spis)
  else Err ErrDeleteWidths.

(** for range count { append(body[off:off+size]); off += size } *)
Fixpoint deleteSPIs (count : nat) (body : bytes) (off size : Z) (out : list bytes) : M (list bytes) :=
  match count with
  | O => Ok out
  | S count' =>
      spi ← slice body off (off + size);
      deleteSPIs count' body (off + size) size (out ++ [spi])
  end.

Definition DeletePayload_unmarshalBody (body : bytes) : M Payload :=
  if len body <? 4 then Err ErrDeleteShort
  else
    protocol ← index body 0;
    size ← index body 1;
    cb ← slice body 2 4;
    count ← Uint16 cb;
    if (size =? 0) && (count >? 0) then Err (ErrDeleteZeroWidth count)
    else if 4 + size * count >? len body then Err (ErrDeleteOverrun size count (len body))
    else
      spis ← deleteSPIs (Z.to_nat count) body 4 size [];
      Ok (DeletePayload protocol spis).

(** ** The simple payloads (payloads_simple.go) *)

Definition minNonceLen := 16.
Definition maxNonceLen := 256.

Definition KEPayload_marshalBody (group : Z) (data : bytes) : M bytes :=
  Ok (put16 group ++ [0; 0] ++ data).

Definition KEPayload_unmarshalBody (body : bytes) : M Payload :=
  if len body <? 4 then Err ErrKEShort
  else
    gb ← slice body 0 2;
    group ← Uint16 gb;
    data ← slice_from body 4;
    Ok (KEPayload group data).

Definition NoncePayload_unmarshalBody (body : bytes) : M Payload :=
  if (len body <? minNonceLen) || (len body >? maxNonceLen) then Err (ErrNonceLen (len body))
  else Ok (NoncePayload body).

Definition MarshalIDBody (idType : Z) (data : bytes) : bytes := [idType; 0; 0; 0] ++ data.

Definition parseIDBody (body : bytes) : M (Z * bytes) :=
  if len body <? 4 then Err ErrIDShort
  else
    ty ← index body 0;
    data ← slice_from body 4;
    Ok (ty, data).

Definition AuthPayload_marshalBody (method : Z) (data : bytes) : M bytes :=
  Ok ([method; 0; 0; 0] ++ data).

Definition AuthPayload_unmarshalBody (body : bytes) : M Payload :=
  if len body <? 4 then Err ErrAuthShort
  else
    method ← index body 0;
    data ← slice_from body 4;
    Ok (AuthPayload method data).

Definition CertPayload_marshalBody (encoding : Z) (data : bytes) : M bytes :=
  Ok (encoding :: data).

Definition CertPayload_unmarshalBody (body : bytes) : M Payload :=
  if len body <? 1 then Err ErrCertEmpty
  else
    encoding ← index body 0;
    data ← slice_from body 1;
    Ok (CertPayload encoding data).

Definition CertRequestPayload_unmarshalBody (body : bytes) : M Payload :=
  if len body <? 1 then Err ErrCertReqEmpty
  else
    encoding ← index body 0;
    data ← slice_from body 1;
    Ok (CertRequestPayload encoding data).

(** ** Configuration (payloads_config.go) *)

Definition marshalConfigAttr (a : ConfigAttr) : bytes :=
  put16 (Z.land (ca_Type a) 0x7fff) ++ put16 (u16 (len (ca_Value a))) ++ ca_Value a.

Definition ConfigPayload_marshalBody (cfgType : Z) (attrs : list ConfigAttr) : M bytes :=
  Ok ([cfgType; 0; 0; 0] ++ concat (marshalConfigAttr <$> attrs)).

Definition config_step (acc : list ConfigAttr) (rest : bytes) : M (list ConfigAttr * bytes) :=
  if len rest <? 4 then Err ErrConfigAttrHeader
  else
    tb ← slice rest 0 2;
    ty ← Uint16 tb;
    lb ← slice rest 2 4;
    length ← Uint16 lb;
    if 4 + length >? len rest then Err (ErrConfigAttrOverrun length (len rest))
    else
      v ← slice rest 4 (4 + length);
      rest' ← slice_from rest (4 + length);
      Ok (acc ++ [{| ca_Type := Z.land ty 0x7fff; ca_Value := v |}], rest').

Definition ConfigPayload_unmarshalBody (body : bytes) : M Payload :=
  if len body <? 4 then Err ErrConfigShort
  else
    cfgType ← index body 0;
    rest ← slice_from body 4;
    attrs ← for_bytes config_step [] rest;
    Ok (ConfigPayload cfgType attrs).

(** ** The payloads whose methods only wrap a shared routine or copy the body *)

Definition IDiPayload_marshalBody (t : Z) (d : bytes) : M bytes := Ok (MarshalIDBody t d).
Definition IDrPayload_marshalBody (t : Z) (d : bytes) : M bytes := Ok (MarshalIDBody t d).
Definition IDiPayload_unmarshalBody (body : bytes) : M Payload :=
  '(t, data) ← parseIDBody body; Ok (IDiPayload t data).
Definition IDrPayload_unmarshalBody (body : bytes) : M Payload :=
  '(t, data) ← parseIDBody body; Ok (IDrPayload t data).
Definition TSiPayload_marshalBody (s : list TrafficSelector) : M bytes := marshalTSBody s.
Definition TSrPayload_marshalBody (s : list TrafficSelector) : M bytes := marshalTSBody s.
Definition TSiPayload_unmarshalBody (body : bytes) : M Payload :=
  sel ← parseTSBody body; Ok (TSiPayload sel).
Definition TSrPayload_unmarshalBody (body : bytes) : M Payload :=
  sel ← parseTSBody body; Ok (TSrPayload sel).
Definition CertRequestPayload_marshalBody (encoding : Z) (data : bytes) : M bytes :=
  Ok (encoding :: data).
Definition NoncePayload_marshalBody (d : bytes) : M bytes := Ok d.
Definition VendorIDPayload_marshalBody (d : bytes) : M bytes := Ok d.
Definition VendorIDPayload_unmarshalBody (body : bytes) : M Payload := Ok (VendorIDPayload body).
Definition EncryptedPayload_marshalBody (d : bytes) : M bytes := Ok d.
Definition EncryptedPayload_unmarshalBody (f : Z) (body : bytes) : M Payload :=
  Ok (EncryptedPayload f body).
Definition EAPPayload_marshalBody (d : bytes) : M bytes := Ok d.
Definition EAPPayload_unmarshalBody (body : bytes) : M Payload := Ok (EAPPayload body).

(** ** Dispatch: the Payload interface *)

Definition PayloadType (p : Payload) : Z :=
  match p with
  | SAPayload _ => PayloadSA
  | KEPayload _ _ => PayloadKE
  | IDiPayload _ _ => PayloadIDi
  | IDrPayload _ _ => PayloadIDr
  | CertPayload _ _ => PayloadCert
  | CertRequestPayload _ _ => PayloadCertReq
  | AuthPayload _ _ => PayloadAuth
  | NoncePayload _ => PayloadNonce
  | NotifyPayload _ _ _ _ => PayloadNotify
  | DeletePayload _ _ => PayloadDelete
  | VendorIDPayload _ => PayloadVendorID
  | TSiPayload _ => PayloadTSi
  | TSrPayload _ => PayloadTSr
  | EncryptedPayload _ _ => PayloadSK
  | ConfigPayload _ _ => PayloadCP
  | EAPPayload _ => PayloadEAP
  end.

Definition marshalBody (p : Payload) : M bytes :=
  match p with
  | SAPayload ps => SAPayload_marshalBody ps
  | KEPayload g d => KEPayload_marshalBody g d
  | IDiPayload t d => IDiPayload_marshalBody t d
  | IDrPayload t d => IDrPayload_marshalBody t d
  | CertPayload e d => CertPayload_marshalBody e d
  | CertRequestPayload e d => CertRequestPayload_marshalBody e d
  | AuthPayload m d => AuthPayload_marshalBody m d
  | NoncePayload d => NoncePayload_marshalBody d
  | VendorIDPayload d => VendorIDPayload_marshalBody d
  | EncryptedPayload _ d => EncryptedPayload_marshalBody d
  | EAPPayload d => EAPPayload_marshalBody d
  | NotifyPayload p t s d => NotifyPayload_marshalBody p t s d
  | DeletePayload p s => DeletePayload_marshalBody p s
  | TSiPayload s => TSiPayload_marshalBody s
  | TSrPayload s => TSrPayload_marshalBody s
  | ConfigPayload c a => ConfigPayload_marshalBody c a
  end.

(** p.unmarshalBody(body) on the zero value [newPayload] made, except that an SK
    payload already carries its InnerFirst. *)
Definition unmarshalBody (p : Payload) (body : bytes) : M Payload :=
  match p with
  | SAPayload _ => SAPayload <$> SAPayload_unmarshalBody body
  | KEPayload _ _ => KEPayload_unmarshalBody body
  | IDiPayload _ _ => IDiPayload_unmarshalBody body
  | IDrPayload _ _ => IDrPayload_unmarshalBody body
  | CertPayload _ _ => CertPayload_unmarshalBody body
  | CertRequestPayload _ _ => CertRequestPayload_unmarshalBody body
  | AuthPayload _ _ => AuthPayload_unmarshalBody body
  | NoncePayload _ => NoncePayload_unmarshalBody body
  | NotifyPayload _ _ _ _ => NotifyPayload_unmarshalBody body
  | DeletePayload _ _ => DeletePayload_unmarshalBody body
  | VendorIDPayload _ => VendorIDPayload_unmarshalBody body
  | TSiPayload _ => TSiPayload_unmarshalBody body
  | TSrPayload _ => TSrPayload_unmarshalBody body
  | EncryptedPayload f _ => EncryptedPayload_unmarshalBody f body
  | ConfigPayload _ _ => ConfigPayload_unmarshalBody body
  | EAPPayload _ => EAPPayload_unmarshalBody body
  end.

(** newPayload: nil ([None]) for a type the codec does not model. *)
Definition newPayload (t : Z) : option Payload :=
  if t =? PayloadSA then Some (SAPayload [])
  else if t =? PayloadKE then Some (KEPayload 0 [])
  else if t =? PayloadIDi then Some (IDiPayload 0 [])
  else if t =? PayloadIDr then Some (IDrPayload 0 [])
  else if t =? PayloadCert then Some (CertPayload 0 [])
  else if t =? PayloadCertReq then Some (CertRequestPayload 0 [])
  else if t =? PayloadAuth then Some (AuthPayload 0 [])
  else if t =? PayloadNonce then Some (NoncePayload [])
  else if t =? PayloadNotify then Some (NotifyPayload 0 0 [] [])
  else if t =? PayloadDelete then Some (DeletePayload 0 [])
  else if t =? PayloadVendorID then Some (VendorIDPayload [])
  else if t =? PayloadTSi then Some (TSiPayload [])
  else if t =? PayloadTSr then Some (TSrPayload [])
  else if t =? PayloadSK then Some (EncryptedPayload 0 [])
  else if t =? PayloadCP then Some (ConfigPayload 0 [])
  else if t =? PayloadEAP then Some (EAPPayload [])
  else None.

(** ** Well-formed payloads: every field fits the octets that carry it *)

Record transform_ok (t : Transform) : Prop := {
  tok_Type : is_u8 (tr_Type t);
  tok_ID : is_u16 (tr_ID t);
  tok_KeyLength : is_u16 (tr_KeyLength t);
  tok_HasKeyLength : tr_HasKeyLength t = false → tr_KeyLength t = 0;
}.

Record proposal_ok (p : Proposal) : Prop := {
  pok_Number : is_u8 (pr_Number p);
  pok_Protocol : is_u8 (pr_Protocol p);
  pok_SPI : bytes_ok (pr_SPI p);
  pok_SPILen : len (pr_SPI p) ≤ 255;
  pok_Transforms : Forall transform_ok (pr_Transforms p);
}.

Record selector_ok (ts : TrafficSelector) : Prop := {
  sok_TSType : ts_TSType ts = TSIPv4AddrRange ∨ ts_TSType ts = TSIPv6AddrRange;
  sok_Protocol : is_u8 (ts_Protocol ts);
  sok_StartPort : is_u16 (ts_StartPort ts);
  sok_EndPort : is_u16 (ts_EndPort ts);
  sok_StartAddr : bytes_ok (ts_StartAddr ts);
  sok_EndAddr : bytes_ok (ts_EndAddr ts);
  sok_StartLen : len (ts_StartAddr ts) = addrLen (ts_TSType ts);
  sok_EndLen : len (ts_EndAddr ts) = addrLen (ts_TSType ts);
}.

Record config_attr_ok (a : ConfigAttr) : Prop := {
  cok_Type : 0 ≤ ca_Type a < 2 ^ 15;
  cok_Value : bytes_ok (ca_Value a);
  cok_Len : is_u16 (len (ca_Value a));
}.

Definition selectors_ok (sels : list TrafficSelector) : Prop :=
  1 ≤ len sels ≤ 255 ∧ Forall selector_ok sels.

(** All SPIs of a Delete have one width: 1..255 octets. *)
Definition delete_ok (spis : list bytes) : Prop :=
  is_u16 (len spis) ∧
  Forall (λ spi, bytes_ok spi ∧ len spi = SPISize spis ∧ 1 ≤ SPISize spis) spis.

Definition payload_ok (p : Payload) : Prop :=
  match p with
  | SAPayload ps => Forall proposal_ok ps
  | KEPayload g d => is_u16 g ∧ bytes_ok d
  | IDiPayload t d | IDrPayload t d | AuthPayload t d
  | CertPayload t d | CertRequestPayload t d => is_u8 t ∧ bytes_ok d
  | NoncePayload d => 16 ≤ len d ≤ 256 ∧ bytes_ok d
  | VendorIDPayload d | EAPPayload d => bytes_ok d
  | NotifyPayload p t s d => is_u8 p ∧ is_u16 t ∧ bytes_ok s ∧ len s ≤ 255 ∧ bytes_ok d
  | DeletePayload p s => is_u8 p ∧ delete_ok s
  | TSiPayload s | TSrPayload s => selectors_ok s
  | EncryptedPayload f d => is_u8 f ∧ bytes_ok d
  | ConfigPayload c a => is_u8 c ∧ Forall config_attr_ok a
  end.

(** ** The parsers never panic, and return well-formed payloads *)

Lemma attr_step_consuming tlen : consuming (attr_step tlen).
Proof. unfold attr_step. consuming_tac. Qed.

Lemma transform_step_consuming : consuming transform_step.
Proof. unfold transform_step. consuming_tac. Qed.

Lemma proposal_step_consuming : consuming proposal_step.
Proof. unfold proposal_step. consuming_tac. Qed.

Lemma config_step_consuming : consuming config_step.
Proof. unfold config_step. consuming_tac. Qed.

#[export] Hint Resolve attr_step_consuming transform_step_consuming
  proposal_step_consuming config_step_consuming : go.

Lemma attr_step_ok tlen t attrs :
  bytes_ok attrs → transform_ok t → yields (λ '(t', _), transform_ok t') (attr_step tlen t attrs).
Proof.
  intros Ha [? ? ? ?]. unfold attr_step. go_safe; by constructor.
Qed.

Lemma transform_step_ok acc body :
  bytes_ok body → Forall transform_ok acc →
  yields (λ '(acc', _), Forall transform_ok acc') (transform_step acc body).
Proof.
  intros Hb Hacc. unfold transform_step. go_safe; try done.
  eapply yields_bind.
  - eapply (for_bytes_yields _ (attr_step_consuming _) transform_ok); [|done|].
    + intros. by apply attr_step_ok.
    + constructor; cbn; [done|done|unfold is_u16; lia|done].
  - intros t Ht. go_safe. apply Forall_app; auto.
Qed.

Lemma parseTransforms_ok body :
  bytes_ok body → yields (Forall transform_ok) (parseTransforms body).
Proof.
  intros. unfold parseTransforms. apply for_bytes_yields; auto using transform_step_ok with go.
Qed.

Lemma proposal_step_ok acc body :
  bytes_ok body → Forall proposal_ok acc →
  yields (λ '(acc', _), Forall proposal_ok acc') (proposal_step acc body).
Proof.
  intros Hb Hacc. unfold proposal_step. go_safe; try done.
  all: eapply yields_bind; [by apply parseTransforms_ok|intros ts Hts; go_safe].
  all: apply Forall_app; split; [done|]; apply Forall_singleton; constructor; cbn; try done.
  - lia.
  - auto with go.
Qed.

Lemma SAPayload_unmarshalBody_ok body :
  bytes_ok body → yields (Forall proposal_ok) (SAPayload_unmarshalBody body).
Proof.
  intros. unfold SAPayload_unmarshalBody.
  apply for_bytes_yields; auto using proposal_step_ok with go.
Qed.

Lemma addrLen_cases t : addrLen t = 0 ∨
  (addrLen t = 4 ∧ t = TSIPv4AddrRange) ∨ (addrLen t = 16 ∧ t = TSIPv6AddrRange).
Proof. unfold addrLen. repeat case_if; bool_prop; auto. Qed.

Lemma parseSelectors_ok count rest out :
  bytes_ok rest → Forall selector_ok out →
  yields (λ '(out', _), Forall selector_ok out' ∧ len out' = len out + Z.of_nat count)
    (parseSelectors count rest out).
Proof.
  revert rest out. induction count as [|count IH]; intros rest out Hr Ho; cbn [parseSelectors].
  - split; [done|lia].
  - go_safe; try done.
    all: pose proof (addrLen_cases x) as Hcase.
    go_safe; try done.
    eapply yields_mono; [|apply IH; [done|]].
    + intros [out' rest'] [? Hl]. split; [done|]. rewrite Hl. len_lia.
    + apply Forall_app; split; [done|]. apply Forall_singleton. constructor; cbn; try done; try lia.
Qed.

Lemma parseTSBody_ok body : bytes_ok body → yields selectors_ok (parseTSBody body).
Proof.
  intros Hb. unfold parseTSBody. go_safe; try done.
  eapply yields_bind; [apply (parseSelectors_ok (Z.to_nat x) s []); [done|constructor]|].
  intros [out rest'] [Ho Hl]. go_safe; [done|]. split; [|done].
  rewrite Hl. change (len (@nil TrafficSelector)) with 0. lia.
Qed.

Lemma NotifyPayload_unmarshalBody_ok body :
  bytes_ok body → yields payload_ok (NotifyPayload_unmarshalBody body).
Proof.
  intros Hb. unfold NotifyPayload_unmarshalBody. go_safe; try done.
  cbn. repeat split; try done; lia.
Qed.

Lemma deleteSPIs_ok count body off size out :
  bytes_ok body → 0 ≤ off → 0 ≤ size → off + size * Z.of_nat count ≤ len body →
  Forall (λ spi, bytes_ok spi ∧ len spi = size) out →
  yields (λ out', Forall (λ spi, bytes_ok spi ∧ len spi = size) out' ∧
                  len out' = len out + Z.of_nat count)
    (deleteSPIs count body off size out).
Proof.
  revert off out. induction count as [|count IH]; intros off out Hb Hoff Hsz Hlen Hout;
    cbn [deleteSPIs].
  - split; [done|lia].
  - assert (off + size ≤ len body) by nia. go_safe.
    eapply yields_mono; [|apply IH; [done|lia|lia|lia|]].
    + intros out' [? Hl]. split; [done|]. rewrite Hl. len_lia.
    + apply Forall_app; split; [done|]. apply Forall_singleton. split; [done|lia].
Qed.

Lemma SPISize_uniform size spis :
  is_u8 size → Forall (λ spi, bytes_ok spi ∧ len spi = size) spis → spis ≠ [] →
  SPISize spis = size.
Proof.
  intros ? H ?. destruct H as [|spi spis [? ?] _]; [done|]. cbn. subst. by apply u8_small.
Qed.

Lemma DeletePayload_unmarshalBody_ok body :
  bytes_ok body → yields payload_ok (DeletePayload_unmarshalBody body).
Proof.
  intros Hb. unfold DeletePayload_unmarshalBody. go_safe; try done.
  eapply yields_bind; [apply deleteSPIs_ok with (size := x0); [done|lia|lia|nia|constructor]|].
  intros spis [Hs Hl]. change (len (@nil bytes)) with 0 in Hl. cbn.
  split; [done|]. split; [unfold is_u16 in *; lia|].
  destruct (decide (spis = [])) as [->|Hne]; [constructor|].
  rewrite (SPISize_uniform x0) by done. eapply Forall_impl; [|exact Hs].
  intros spi [? ?]. split_and!; [done|done|].
  assert (0 < len spis) by (destruct spis; [done|len_lia]).
  apply andb_false_iff in Heqb0 as [?|?]; bool_prop; lia.
Qed.

Lemma config_step_ok acc rest :
  bytes_ok rest → Forall config_attr_ok acc →
  yields (λ '(acc', _), Forall config_attr_ok acc') (config_step acc rest).
Proof.
  intros Hb Hacc. unfold config_step. go_safe; try done.
  apply Forall_app; split; [done|]. apply Forall_singleton. constructor; cbn; [|done|].
  - change 0x7fff with (Z.ones 15). rewrite Z.land_ones by lia. apply Z.mod_pos_bound. lia.
  - unfold is_u16 in *. lia.
Qed.

Lemma ConfigPayload_unmarshalBody_ok body :
  bytes_ok body → yields payload_ok (ConfigPayload_unmarshalBody body).
Proof.
  intros Hb. unfold ConfigPayload_unmarshalBody. go_safe; try done.
  eapply yields_bind.
  - apply (for_bytes_yields _ config_step_consuming (Forall config_attr_ok)); [|done|constructor].
    auto using config_step_ok.
  - intros. split; done.
Qed.

(** The InnerFirst an SK payload carries comes from an octet. *)
Definition inner_first_ok (p : Payload) : Prop :=
  match p with
  | EncryptedPayload f _ => is_u8 f
  | _ => True
  end.

Lemma unmarshalBody_ok p body :
  bytes_ok body → inner_first_ok p → yields payload_ok (unmarshalBody p body).
Proof.
  intros Hb Hf. destruct p; cbn [unmarshalBody].
  - by apply yields_fmap, SAPayload_unmarshalBody_ok.
  - unfold KEPayload_unmarshalBody. go_safe; done.
  - unfold IDiPayload_unmarshalBody, parseIDBody. go_safe; done.
  - unfold IDrPayload_unmarshalBody, parseIDBody. go_safe; done.
  - unfold CertPayload_unmarshalBody. go_safe; done.
  - unfold CertRequestPayload_unmarshalBody. go_safe; done.
  - unfold AuthPayload_unmarshalBody. go_safe; done.
  - unfold NoncePayload_unmarshalBody, minNonceLen, maxNonceLen. go_safe; [done|].
    split; [lia|done].
  - by apply NotifyPayload_unmarshalBody_ok.
  - by apply DeletePayload_unmarshalBody_ok.
  - done.
  - eapply yields_bind; [by apply parseTSBody_ok|done].
  - eapply yields_bind; [by apply parseTSBody_ok|done].
  - done.
  - by apply ConfigPayload_unmarshalBody_ok.
  - done.
Qed.

(** ** Round trips *)

Lemma attr_step_keylen tlen t kl rest :
  is_u16 kl →
  attr_step tlen t (hi8 (Z.lor 0x8000 AttrKeyLength) :: lo8 (Z.lor 0x8000 AttrKeyLength) ::
                    hi8 kl :: lo8 kl :: rest) =
  Ok ({| tr_Type := tr_Type t; tr_ID := tr_ID t; tr_KeyLength := kl;
         tr_HasKeyLength := true |}, rest).
Proof.
  intros. unfold attr_step. go_run.
  change (u16 (Z.lor 32768 AttrKeyLength)) with 0x800e. cbn [Z.land Z.eqb negb]. by go_run.
Qed.

Lemma transform_roundtrip t more e :
  transform_ok t → marshalTransform t more = Ok e →
  encodes transform_step t e.
Proof.
  intros [Hty Hid Hkl Hhas]. destruct t as [ty id kl has]. unfold marshalTransform. cbn in *.
  intros H. go_inv. subst e. rewrite !put16_eq. destruct has; cbn [app].
  - change (u16 (8 + len _)) with 12. split; [split; [bytes_tac|done]|].
    intros acc rest. cbn [app]. unfold transform_step. go_run.
    rewrite (for_bytes_unfold (attr_step 12)) by (auto with go; bytes_tac).
    by rewrite attr_step_keylen.
  - change (u16 (8 + len _)) with 8. split; [split; [bytes_tac|done]|].
    intros acc rest. cbn [app]. unfold transform_step. go_run. by rewrite Hhas.
Qed.

Lemma marshalTransforms_roundtrip ts b :
  Forall transform_ok ts → marshalTransforms ts = Ok b →
  bytes_ok b ∧ parseTransforms b = Ok ts.
Proof.
  intros Hts Hm.
  assert (∃ enc, b = concat enc ∧ Forall2 (encodes transform_step) ts enc) as (enc & -> & Henc).
  { revert b Hm. induction Hts as [|t ts Ht _ IH]; intros b Hm; cbn [marshalTransforms] in Hm; go_inv.
    - by exists [].
    - destruct (IH _ ltac:(eassumption)) as (enc & -> & Henc). subst b.
      eexists (_ :: enc). split; [done|]. constructor; [by eapply transform_roundtrip|done]. }
  apply for_bytes_roundtrip in Henc as [Hb Hr]; [|auto with go]. split; [done|apply Hr].
Qed.

Lemma proposal_roundtrip p more e :
  proposal_ok p → marshalProposal p more = Ok e → len e < 2 ^ 16 →
  encodes proposal_step p e.
Proof.
  intros [Hnum Hproto Hspi Hspil Hts]. destruct p as [num proto spi ts]. unfold marshalProposal.
  cbn in *. intros H Hlen. go_inv. subst e. rename x into tb, H0 into Htb.
  apply marshalTransforms_roundtrip in Htb as [Htok Hparse]; [|done].
  rewrite u16_small in * by (unfold is_u16; len_lia).
  rewrite u8_small by (unfold is_u8; len_lia).
  rewrite put16_eq. cbn [app]. split; [split; [bytes_tac|done]|].
  intros acc rest. cbn [app]. rewrite <- app_assoc. unfold proposal_step. go_run.
  destruct (len spi >? 0) eqn:Hz.
  - go_run. rewrite Hparse. by go_run.
  - assert (spi = []) as -> by (destruct spi; [done|len_lia]). go_run. rewrite Hparse. by go_run.
Qed.


Lemma SAPayload_roundtrip ps b :
  Forall proposal_ok ps → SAPayload_marshalBody ps = Ok b → len b < 2 ^ 16 →
  bytes_ok b ∧ SAPayload_unmarshalBody b = Ok ps.
Proof.
  intros Hps Hm Hlen.
  assert (∃ enc, b = concat enc ∧ Forall2 (encodes proposal_step) ps enc) as (enc & -> & Henc).
  { revert b Hm Hlen. induction Hps as [|p ps Hp _ IH]; intros b Hm Hlen;
      cbn [SAPayload_marshalBody] in Hm; go_inv.
    - by exists [].
    - subst b. destruct (IH _ ltac:(eassumption)) as (enc & -> & Henc); [len_lia|].
      eexists (_ :: enc). split; [done|].
      constructor; [eapply proposal_roundtrip; [done..|len_lia]|done]. }
  apply for_bytes_roundtrip in Henc as [Hb Hr]; [|auto with go]. split; [done|apply Hr].
Qed.

Lemma selector_roundtrip ts e :
  selector_ok ts → marshalSelector ts = Ok e →
  bytes_ok e ∧ ∀ count rest out,
    parseSelectors (S count) (e ++ rest) out = parseSelectors count rest (out ++ [ts]).
Proof.
  intros [Hty Hpr Hsp Hep Hsa Hea Hsl Hel] H. destruct ts as [ty pr sp ep sa ea].
  unfold marshalSelector in H. cbn in *. go_inv. subst e.
  assert (Hal : addrLen ty = 4 ∨ addrLen ty = 16) by (destruct Hty as [->| ->]; auto).
  assert (is_u8 ty) by (destruct Hty as [->| ->]; by vm_compute).
  rewrite u16_small by (unfold is_u16; lia). rewrite !put16_eq. cbn [app].
  split; [bytes_tac|]. intros count rest out. cbn [app parseSelectors]. rewrite <- app_assoc.
  rewrite Hsl, Hel. go_run. by go_run.
Qed.

Lemma marshalSelectors_roundtrip sels b :
  Forall selector_ok sels → marshalSelectors sels = Ok b →
  bytes_ok b ∧ ∀ rest out,
    parseSelectors (length sels) (b ++ rest) out = Ok (out ++ sels, rest).
Proof.
  intros Hs. revert b. induction Hs as [|ts sels Hts _ IH]; intros b Hm;
    cbn [marshalSelectors] in Hm; go_inv.
  - subst b. split; [auto with go|]. intros. cbn. by rewrite app_nil_r.
  - subst b. apply selector_roundtrip in H as [He Hr]; [|done].
    destruct (IH _ ltac:(eassumption)) as [Hb IHr]. split; [bytes_tac|].
    intros rest out. cbn [length]. rewrite <- app_assoc, Hr, IHr, <- app_assoc. done.
Qed.

Lemma TSBody_roundtrip sels b :
  selectors_ok sels → marshalTSBody sels = Ok b → bytes_ok b ∧ parseTSBody b = Ok sels.
Proof.
  intros [Hlen Hs] Hm. unfold marshalTSBody in Hm. go_inv. subst b.
  apply marshalSelectors_roundtrip in H as [Hb Hr]; [|done].
  rewrite u8_small by (unfold is_u8; lia). split; [bytes_tac|].
  unfold parseTSBody. cbn [app]. go_run.
  replace (Z.to_nat (len sels)) with (length sels) by (unfold len; lia).
  specialize (Hr [] []). rewrite app_nil_r in Hr. rewrite Hr. done.
Qed.

Lemma NotifyPayload_roundtrip p t s d b :
  payload_ok (NotifyPayload p t s d) → NotifyPayload_marshalBody p t s d = Ok b →
  bytes_ok b ∧ NotifyPayload_unmarshalBody b = Ok (NotifyPayload p t s d).
Proof.
  intros (Hp & Ht & Hs & Hl & Hd) Hm. unfold NotifyPayload_marshalBody in Hm. go_inv. subst b.
  rewrite u8_small by (unfold is_u8; len_lia). rewrite put16_eq. cbn [app].
  split; [bytes_tac|]. unfold NotifyPayload_unmarshalBody. by go_run.
Qed.

Lemma deleteSPIs_roundtrip hdr spis size out :
  Forall (λ spi, bytes_ok spi ∧ len spi = size ∧ 1 ≤ size) spis →
  deleteSPIs (length spis) (hdr ++ concat spis) (len hdr) size out = Ok (out ++ spis).
Proof.
  intros H. revert hdr out. induction H as [|spi spis [? [? ?]] _ IH]; intros hdr out; cbn.
  - by rewrite app_nil_r.
  - go_run. specialize (IH (hdr ++ spi) (out ++ [spi])).
    rewrite <- app_assoc, len_app in IH. subst size. rewrite IH. by rewrite <- app_assoc.
Qed.

Lemma len_concat_uniform size (ls : list bytes) :
  Forall (λ l, len l = size) ls → len (concat ls) = size * len ls.
Proof.
  induction 1 as [|l ls Hl _ IH]; cbn [concat]; [unfold len; cbn; lia|].
  rewrite len_app, len_cons, IH, Hl. lia.
Qed.

Lemma DeletePayload_roundtrip p s b :
  payload_ok (DeletePayload p s) → DeletePayload_marshalBody p s = Ok b →
  bytes_ok b ∧ DeletePayload_unmarshalBody b = Ok (DeletePayload p s).
Proof.
  intros (Hp & Hcount & Hs) Hm. unfold DeletePayload_marshalBody in Hm. go_inv. subst b.
  assert (Hsz : is_u8 (SPISize s)).
  { destruct s; cbn; [by vm_compute|]. apply byte_ok_u8. }
  assert (Hcat : len (concat s) = SPISize s * len s).
  { apply len_concat_uniform. eapply Forall_impl; [|exact Hs]. by intros spi (? & ? & ?). }
  assert (Hz : (SPISize s =? 0) && (len s >? 0) = false).
  { destruct s as [|spi s]; [by rewrite andb_false_r|].
    apply Forall_cons_iff in Hs as [(_ & _ & ?) _]. apply andb_false_iff. left. lia. }
  rewrite u16_small by done. rewrite put16_eq. cbn [app]. split.
  - bytes_tac. apply bytes_ok_concat. eapply Forall_impl; [|exact Hs]. by intros spi (? & ? & ?).
  - unfold DeletePayload_unmarshalBody. go_run.
    replace (Z.to_nat (len s)) with (length s) by (unfold len; lia).
    pose proof (deleteSPIs_roundtrip [p; SPISize s; hi8 (len s); lo8 (len s)] s (SPISize s) [] Hs) as Hr.
    cbn [app] in Hr. change (len [p; SPISize s; hi8 (len s); lo8 (len s)]) with 4 in Hr. by rewrite Hr.
Qed.

Lemma config_attr_roundtrip a :
  config_attr_ok a → encodes config_step a (marshalConfigAttr a).
Proof.
  intros [Ht Hv Hl]. destruct a as [t v]. unfold marshalConfigAttr. cbn in *.
  rewrite u16_small by done. rewrite !put16_eq. cbn [app].
  assert (Hm : ∀ x, 0 ≤ x < 2 ^ 15 → Z.land x 0x7fff = x).
  { intros x Hx. change 0x7fff with (Z.ones 15). rewrite Z.land_ones by lia. by apply Z.mod_small. }
  rewrite (Hm t) by done. split; [split; [bytes_tac|done]|].
  intros acc rest. cbn [app]. unfold config_step. go_run. by rewrite Hm.
Qed.

Lemma ConfigPayload_roundtrip c a b :
  payload_ok (ConfigPayload c a) → ConfigPayload_marshalBody c a = Ok b →
  bytes_ok b ∧ ConfigPayload_unmarshalBody b = Ok (ConfigPayload c a).
Proof.
  intros [Hc Ha] Hm. unfold ConfigPayload_marshalBody in Hm. go_inv. subst b.
  destruct (for_bytes_roundtrip config_step (marshalConfigAttr <$> a) a) as [Hb Hr].
  - auto with go.
  - apply Forall2_fmap_r, Forall_Forall2_diag. eapply Forall_impl; [|exact Ha].
    apply config_attr_roundtrip.
  - split; [bytes_tac|]. unfold ConfigPayload_unmarshalBody. cbn [app]. go_run. by rewrite Hr.
Qed.

(** Every payload body survives the trip, as long as it fits a payload. *)
Lemma marshalBody_roundtrip p q b :
  payload_ok p → marshalBody p = Ok b → len b < 2 ^ 16 →
  newPayload (PayloadType p) = Some q →
  bytes_ok b ∧
  unmarshalBody (match p with EncryptedPayload f _ => EncryptedPayload f [] | _ => q end) b = Ok p.
Proof.
  intros Hp Hm Hlen Hq.
  unfold marshalBody, IDiPayload_marshalBody, IDrPayload_marshalBody, NoncePayload_marshalBody,
    VendorIDPayload_marshalBody, EncryptedPayload_marshalBody, EAPPayload_marshalBody in Hm.
  destruct p; cbn in Hq; apply (inj Some) in Hq; subst q; cbn [unmarshalBody];
    try destruct Hp as [Ht Hd].
  - apply SAPayload_roundtrip in Hm as [? ->]; done.
  - unfold KEPayload_marshalBody in Hm. go_inv. subst b. rewrite put16_eq. cbn [app].
    split; [bytes_tac|]. unfold KEPayload_unmarshalBody. by go_run.
  - go_inv. subst b. unfold IDiPayload_unmarshalBody, MarshalIDBody, parseIDBody. cbn [app].
    split; [bytes_tac|]. by go_run.
  - go_inv. subst b. unfold IDrPayload_unmarshalBody, MarshalIDBody, parseIDBody. cbn [app].
    split; [bytes_tac|]. by go_run.
  - unfold CertPayload_marshalBody in Hm. go_inv. subst b. split; [bytes_tac|].
    unfold CertPayload_unmarshalBody. by go_run.
  - unfold CertRequestPayload_marshalBody in Hm. go_inv. subst b. split; [bytes_tac|].
    unfold CertRequestPayload_unmarshalBody. by go_run.
  - unfold AuthPayload_marshalBody in Hm. go_inv. subst b. cbn [app]. split; [bytes_tac|].
    unfold AuthPayload_unmarshalBody. by go_run.
  - go_inv. subst b. split; [done|]. unfold NoncePayload_unmarshalBody, minNonceLen, maxNonceLen.
    by go_run.
  - by apply NotifyPayload_roundtrip.
  - by apply DeletePayload_roundtrip.
  - go_inv. by subst b.
  - unfold TSiPayload_unmarshalBody. apply TSBody_roundtrip in Hm as [? ->]; done.
  - unfold TSrPayload_unmarshalBody. apply TSBody_roundtrip in Hm as [? ->]; done.
  - go_inv. by subst b.
  - by apply ConfigPayload_roundtrip.
  - go_inv. by subst b.
Qed.

(** The SPIs a Delete payload is parsed into are carried by its body: their
    number and total size are bounded by the octets received, so a short body
    cannot make the parser allocate an unbounded list. *)
Theorem Delete_bounded body protocol spis :
  bytes_ok body → DeletePayload_unmarshalBody body = Ok (DeletePayload protocol spis) →
  4 + len (concat spis) ≤ len body ∧ 4 + len spis ≤ len body.
Proof.
  intros Hb H. pose proof (DeletePayload_unmarshalBody_ok body Hb) as Hok. rewrite H in Hok.
  destruct Hok as (_ & _ & Hs). unfold DeletePayload_unmarshalBody in H. go_inv.
  go_bounds. injection H as -> ->. pose proof (index_byte_ok _ _ _ Hb H1) as [? ?].
  unfold is_u16 in *. eapply yields_eq in H4; [|apply deleteSPIs_ok; [done|lia|lia|nia|constructor]].
  destruct H4 as [Hw Hl]. change (len (@nil bytes)) with 0 in Hl.
  rewrite (len_concat_uniform x0) by (eapply Forall_impl; [|exact Hw]; by intros ? [? ?]).
  apply andb_false_iff in Heqb0 as [?|?]; bool_prop; nia.
Qed.

Lemma Delete_bounded_witness :
  DeletePayload_unmarshalBody [3; 4; 0; 1; 9; 9; 9; 9] = Ok (DeletePayload 3 [[9; 9; 9; 9]]) ∧
  4 + len (concat [[9; 9; 9; 9]]) ≤ 8.
Proof.
  split; [reflexivity|].
  apply (Delete_bounded [3; 4; 0; 1; 9; 9; 9; 9] 3); [by repeat constructor|reflexivity].
Defined.

(** ** Marshalling never panics, whatever the payload *)

Lemma marshalTransforms_safe ts : yields (λ _, True) (marshalTransforms ts).
Proof.
  induction ts as [|t ts IH]; [done|]. cbn [marshalTransforms]. unfold marshalTransform.
  go_safe; try done. eapply yields_bind; [exact IH|done].
Qed.

Lemma SAPayload_marshalBody_safe ps : yields (λ _, True) (SAPayload_marshalBody ps).
Proof.
  induction ps as [|p ps IH]; [done|]. cbn [SAPayload_marshalBody]. unfold marshalProposal.
  apply (yields_bind (λ _, True)).
  - go_safe; try done. eapply yields_bind; [apply marshalTransforms_safe|done].
  - intros. eapply yields_bind; [exact IH|done].
Qed.

Lemma marshalTSBody_safe sels : yields (λ _, True) (marshalTSBody sels).
Proof.
  unfold marshalTSBody. destruct (_ =? _); [done|].
  apply (yields_bind (λ _, True)); [|done].
  induction sels as [|ts sels IH]; [done|]. cbn [marshalSelectors]. unfold marshalSelector.
  apply (yields_bind (λ _, True)); [by go_safe|]. intros. eapply yields_bind; [exact IH|done].
Qed.

Lemma marshalBody_safe p : yields (λ _, True) (marshalBody p).
Proof.
  destruct p; cbn [marshalBody]; try done; try apply SAPayload_marshalBody_safe;
    try apply marshalTSBody_safe.
  - unfold DeletePayload_marshalBody. by go_safe.
Qed.
