(* ===== verification/IkeMsg.v ===== *)
(** * IKEv2 messages (internal/ikemsg/payload.go, message.go)

    The generic payload chain and the message header.  [Parse] and [Marshal] are
    the two entry points every other component uses; the theorems say that
    parsing any byte string returns (an error or a well-formed message), that
    marshalling and parsing are inverse, and how unknown payloads are treated. *)

From S2P Require Import Prelude IkePayload.

Definition headerLen := 28.
Definition version := 0x20.
Definition genericHeaderLen := 4.
Definition criticalBit := 0x80.

Abbreviation Payloads := (list Payload).

Record Message := {
  m_InitiatorSPI : Z;
  m_ResponderSPI : Z;
  m_Exchange : Z;
  m_Flags : Z;
  m_MessageID : Z;
  m_Payloads : Payloads;
}.

(** The Next Payload octet of a generic header: the following payload's type,
    and on the last payload PayloadNone or the SK's first inner type. *)
Definition nextType (p : Payload) (rest : Payloads) : Z :=
  match rest with
  | q :: _ => PayloadType q
  | [] => match p with
          | EncryptedPayload InnerFirst _ => InnerFirst
          | _ => PayloadNone
          end
  end.

Fixpoint marshalChain (ps : Payloads) : M bytes :=
  match ps with
  | [] => Ok []
  | p :: rest =>
      payloadBody ← marshalBody p;
      if len payloadBody >? 0xFFFF - genericHeaderLen
      then Err (ErrPayloadTooLarge (PayloadType p) (len payloadBody))
      else
        tail ← marshalChain rest;
        Ok ([nextType p rest; 0] ++ put16 (u16 (genericHeaderLen + len payloadBody)) ++
            payloadBody ++ tail)
  end.

Definition Payloads_Marshal (ps : Payloads) : M (Z * bytes) :=
  match ps with
  | [] => Ok (PayloadNone, [])
  | p :: _ => buf ← marshalChain ps; Ok (PayloadType p, buf)
  end.

Definition Message_Marshal (m : Message) : M bytes :=
  '(first, body) ← Payloads_Marshal (m_Payloads m);
  Ok (put64 (m_InitiatorSPI m) ++ put64 (m_ResponderSPI m) ++
      [first; version; m_Exchange m; m_Flags m] ++ put32 (m_MessageID m) ++
      put32 (u32 (headerLen + len body)) ++ body).

(** The SK payload's Next Payload field names the first inner payload. *)
Definition set_InnerFirst (p : Payload) (following : Z) : Payload :=
  match p with
  | EncryptedPayload _ d => EncryptedPayload following d
  | _ => p
  end.

(** One iteration of parseChain; the state is [next] and [out]. *)
Definition chain_step (st : Z * Payloads) (body : bytes) : M ((Z * Payloads) * bytes) :=
  let '(next, out) := st in
  if len body <? genericHeaderLen then Err ErrGenericTruncated
  else
    following ← index body 0;
    cb ← index body 1;
    let critical := negb (Z.land cb criticalBit =? 0) in
    lb ← slice body 2 4;
    plen ← Uint16 lb;
    if plen <? genericHeaderLen then Err (ErrPayloadLength plen)
    else if plen >? len body then Err (ErrPayloadOverrun plen (len body))
    else
      match newPayload next with
      | None =>
          if critical then Err (ErrUnknownCritical next)
          else rest ← slice_from body plen; Ok ((following, out), rest)
      | Some p =>
          pb ← slice body genericHeaderLen plen;
          p' ← wrap_err (ErrPayloadBody next) (unmarshalBody (set_InnerFirst p following) pb);
          rest ← slice_from body plen;
          Ok ((following, out ++ [p']), rest)
      end.

Definition parseChain (first : Z) (body : bytes) : M Payloads :=
  '(_, out) ← for_bytes chain_step (first, []) body;
  Ok out.

Definition ParsePayloads (first : Z) (body : bytes) : M Payloads := parseChain first body.

Definition Parse (raw : bytes) : M Message :=
  if len raw <? headerLen then Err ErrDatagramShort
  else
    lb ← slice raw 24 28;
    length ← Uint32 lb;
    if length <? headerLen then Err (ErrHeaderLength length)
    else if negb (len raw =? length) then Err (ErrLengthMismatch (len raw) length)
    else
      ib ← slice raw 0 8;
      spii ← Uint64 ib;
      rb ← slice raw 8 16;
      spir ← Uint64 rb;
      exchange ← index raw 18;
      flags ← index raw 19;
      mb ← slice raw 20 24;
      msgid ← Uint32 mb;
      first ← index raw 16;
      body ← slice_from raw headerLen;
      payloads ← parseChain first body;
      Ok {| m_InitiatorSPI := spii; m_ResponderSPI := spir; m_Exchange := exchange;
            m_Flags := flags; m_MessageID := msgid; m_Payloads := payloads |}.

(** ** Well-formed messages *)

Definition is_SK (p : Payload) : bool :=
  match p with
  | EncryptedPayload _ _ => true
  | _ => false
  end.

(** An SK payload is the last of its chain: its Next Payload field is taken. *)
Fixpoint sk_last (ps : Payloads) : Prop :=
  match ps with
  | [] => True
  | p :: rest => (is_SK p = true → rest = []) ∧ sk_last rest
  end.

Record message_ok (m : Message) : Prop := {
  mok_InitiatorSPI : is_u64 (m_InitiatorSPI m);
  mok_ResponderSPI : is_u64 (m_ResponderSPI m);
  mok_Exchange : is_u8 (m_Exchange m);
  mok_Flags : is_u8 (m_Flags m);
  mok_MessageID : is_u32 (m_MessageID m);
  mok_Payloads : Forall payload_ok (m_Payloads m);
}.

(** ** Parsing *)

Lemma chain_step_consuming : consuming chain_step.
Proof.
  intros [next out] body st' body' Hb Hne H. unfold chain_step in H. unfold genericHeaderLen in *.
  go_inv. destruct (newPayload next); go_inv; go_bounds; subst;
    (eapply slice_from_shorter; [done|done| |eassumption]); lia.
Qed.
#[export] Hint Resolve chain_step_consuming : go.

Lemma chain_step_ok st body :
  bytes_ok body → Forall payload_ok st.2 →
  yields (λ '(st', _), Forall payload_ok st'.2) (chain_step st body).
Proof.
  intros Hb Ho. destruct st as [next out]. unfold chain_step, genericHeaderLen. go_safe; try done.
  destruct (newPayload next) as [p|]; go_safe; try done.
  eapply yields_bind; [apply wrap_err_yields, unmarshalBody_ok; [done|by destruct p]|].
  intros p' Hp'. go_safe. apply Forall_app; split; [done|]. by apply Forall_singleton.
Qed.

Lemma parseChain_ok first body :
  bytes_ok body → yields (Forall payload_ok) (parseChain first body).
Proof.
  intros Hb. unfold parseChain. eapply yields_bind.
  - apply (for_bytes_yields _ chain_step_consuming (λ st, Forall payload_ok st.2)); [|done|done].
    auto using chain_step_ok.
  - by intros [next out].
Qed.

Lemma Parse_ok raw : bytes_ok raw → yields message_ok (Parse raw).
Proof.
  intros Hb. unfold Parse, headerLen. go_safe; try done.
  eapply yields_bind; [by apply parseChain_ok|]. intros ps Hps. by constructor.
Qed.

(** C25. Parsing an arbitrary byte string (a hostile, pre-authentication datagram
    included) never panics and always returns: an error, or a message every field
    of which is in range and whose payloads are all well formed. *)
Theorem Parse_total_wf raw : bytes_ok raw → yields message_ok (Parse raw).
Proof. apply Parse_ok. Qed.

Lemma Parse_total_wf_witness :
  bytes_ok (replicate 40 0xff) ∧ yields message_ok (Parse (replicate 40 0xff)).
Proof.
  assert (bytes_ok (replicate 40 0xff)) by (apply Forall_replicate; by vm_compute).
  split; [done|]. by apply Parse_total_wf.
Defined.

(** ** Marshalling and parsing back *)

Definition zero_of (p : Payload) : option Payload := newPayload (PayloadType p).

Lemma newPayload_PayloadType p : ∃ q, zero_of p = Some q.
Proof. destruct p; by eexists. Qed.

Lemma set_InnerFirst_zero p q rest :
  zero_of p = Some q → (is_SK p = true → rest = []) →
  set_InnerFirst q (nextType p rest) =
  match p with EncryptedPayload f _ => EncryptedPayload f [] | _ => q end.
Proof.
  intros Hq Hsk. destruct p; apply (inj Some) in Hq; subst q; try done.
  by rewrite (Hsk eq_refl).
Qed.

Lemma nextType_u8 p rest : payload_ok p → is_u8 (nextType p rest).
Proof.
  intros Hp. unfold nextType. destruct rest as [|q rest]; [|by destruct q].
  destruct p; try done. by destruct Hp.
Qed.

(** A payload with its generic header, in front of any other bytes. *)
Lemma chain_step_marshalled p rest pb out tail :
  payload_ok p → marshalBody p = Ok pb → len pb ≤ 0xFFFF - genericHeaderLen →
  (is_SK p = true → rest = []) →
  bytes_ok pb ∧
  chain_step (PayloadType p, out)
    ([nextType p rest; 0] ++ put16 (u16 (genericHeaderLen + len pb)) ++ pb ++ tail) =
  Ok ((nextType p rest, out ++ [p]), tail).
Proof.
  unfold genericHeaderLen. intros Hp Hm Hlen Hsk.
  destruct (newPayload_PayloadType p) as [q Hq].
  destruct (marshalBody_roundtrip p q pb) as [Hb Hr]; [done|done|lia|done|]. split; [done|].
  rewrite u16_small by (unfold is_u16; len_lia). rewrite put16_eq. cbn [app].
  unfold chain_step, genericHeaderLen, criticalBit. go_run.
  unfold zero_of in Hq. rewrite Hq, (set_InnerFirst_zero p q rest) by done.
  go_run. rewrite Hr. cbn [wrap_err]. by go_run.
Qed.

Lemma marshalChain_roundtrip ps first b :
  Forall payload_ok ps → sk_last ps → marshalChain ps = Ok b →
  match ps with [] => True | p :: _ => first = PayloadType p end →
  bytes_ok b ∧ ∀ out, ∃ next, for_bytes chain_step (first, out) b = Ok (next, out ++ ps).
Proof.
  intros Hps. revert first b. induction Hps as [|p ps Hp _ IH]; intros first b Hsk Hm Hf;
    cbn [marshalChain] in Hm; go_inv.
  - subst b. split; [auto with go|]. intros out. exists first. by rewrite app_nil_r.
  - destruct Hsk as [Hsk Hrest]. rename x into pb, x0 into tail.
    destruct (IH (nextType p ps) tail) as [Htail IHr]; [done|done|by destruct ps|].
    pose proof (λ out, chain_step_marshalled p ps pb out tail ltac:(done) ltac:(done)
                         ltac:(lia) Hsk) as Hstep.
    destruct (Hstep []) as [Hpb _].
    assert (Hn : is_u8 (nextType p ps)) by by apply nextType_u8. subst b first.
    split; [bytes_tac|]. intros out. destruct (IHr (out ++ [p])) as [next Hn'].
    exists next. rewrite for_bytes_unfold by (auto with go; bytes_tac).
    destruct (Hstep out) as [_ Hs]. cbn [app] in Hs |- *. rewrite Hs. go_step.
    rewrite Hn', <- app_assoc. done.
Qed.

Lemma Payloads_Marshal_roundtrip ps first b :
  Forall payload_ok ps → sk_last ps → Payloads_Marshal ps = Ok (first, b) →
  bytes_ok b ∧ is_u8 first ∧ parseChain first b = Ok ps.
Proof.
  intros Hps Hsk Hm. unfold parseChain. destruct ps as [|p ps].
  - cbn in Hm. go_inv. subst. split; [auto with go|]. split; [by vm_compute|done].
  - unfold Payloads_Marshal in Hm. go_inv. subst.
    destruct (marshalChain_roundtrip (p :: ps) (PayloadType p) b) as [Hb Hr]; [done..|].
    destruct (Hr []) as [next Hn]. rewrite Hn. split; [done|]. split; [by destruct p|done].
Qed.

Lemma Message_Marshal_roundtrip m raw :
  message_ok m → sk_last (m_Payloads m) → Message_Marshal m = Ok raw → len raw < 2 ^ 32 →
  Parse raw = Ok m.
Proof.
  intros [Hspii Hspir Hex Hfl Hid Hps] Hsk Hm Hlen. unfold Message_Marshal in Hm. go_inv.
  rename z into first, l into body. subst.
  destruct (Payloads_Marshal_roundtrip _ _ _ Hps Hsk ltac:(eassumption)) as (Hb & Hfirst & Hparse).
  rewrite u32_small in * by (unfold is_u32, headerLen in *; len_lia).
  unfold Parse, headerLen in *. go_chop. rewrite Hparse. by destruct m.
Qed.

(** C8. Marshalling a well-formed message and parsing the bytes gives the same
    message back, for every payload type, with an SK payload (if any) last. *)
Theorem Marshal_Parse m raw :
  message_ok m → sk_last (m_Payloads m) → Message_Marshal m = Ok raw → len raw < 2 ^ 32 →
  Parse raw = Ok m.
Proof. apply Message_Marshal_roundtrip. Qed.

Definition sample_message : Message := {|
  m_InitiatorSPI := 0x1122334455667788; m_ResponderSPI := 0; m_Exchange := ExchangeIKEAuth;
  m_Flags := FlagInitiator; m_MessageID := 7;
  m_Payloads :=
    [SAPayload [{| pr_Number := 1; pr_Protocol := ProtocolESP; pr_SPI := [1; 2; 3; 4];
                   pr_Transforms := [{| tr_Type := TransformEncr; tr_ID := ENCR_AES_GCM_16;
                                        tr_KeyLength := 256; tr_HasKeyLength := true |};
                                     {| tr_Type := TransformESN; tr_ID := ESN_NONE;
                                        tr_KeyLength := 0; tr_HasKeyLength := false |}] |}];
     DeletePayload ProtocolESP [[1; 2; 3; 4]; [5; 6; 7; 8]];
     TSiPayload [{| ts_TSType := TSIPv4AddrRange; ts_Protocol := 0; ts_StartPort := 0;
                    ts_EndPort := 65535; ts_StartAddr := [0; 0; 0; 0];
                    ts_EndAddr := [255; 255; 255; 255] |}];
     ConfigPayload ConfigRequest [{| ca_Type := ConfigAttrInternalIP4Address; ca_Value := [] |}];
     EncryptedPayload PayloadIDi [9; 9; 9]] |}.

Lemma Marshal_Parse_witness :
  ∃ raw, Message_Marshal sample_message = Ok raw ∧ Parse raw = Ok sample_message.
Proof.
  eexists. split; [vm_compute; reflexivity|]. apply Marshal_Parse.
  - repeat first [ progress constructor | progress cbn | done
                 | progress unfold is_u8, is_u16, is_u32, is_u64, byte_ok | (right; done) | (left; done) ].
  - repeat split; done.
  - vm_compute; reflexivity.
  - done.
Defined.

(** ** Unknown payloads, lengths *)

Lemma critical_testbit cb :
  byte_ok cb → negb (Z.land cb criticalBit =? 0) = Z.testbit cb 7.
Proof.
  intros Hcb. unfold criticalBit. destruct (Z.testbit cb 7) eqn:Hbit.
  - apply negb_true_iff, Z.eqb_neq. intros H0.
    assert (Z.testbit (Z.land cb 0x80) 7 = true) as H1 by (rewrite Z.land_spec, Hbit; done).
    by rewrite H0 in H1.
  - apply negb_false_iff, Z.eqb_eq, Z.bits_inj'. intros n Hn.
    rewrite Z.land_spec, Z.bits_0. change 0x80 with (2 ^ 7).
    rewrite Z.pow2_bits_eqb by lia. destruct (Z.eqb_spec 7 n) as [<-|]; [by rewrite Hbit|].
    by rewrite andb_false_r.
Qed.

Lemma chain_step_unknown next out following cb pb tail :
  newPayload next = None → len pb ≤ 0xFFFB →
  chain_step (next, out) (following :: cb :: hi8 (4 + len pb) :: lo8 (4 + len pb) :: pb ++ tail) =
  if negb (Z.land cb criticalBit =? 0) then Err (ErrUnknownCritical next)
  else Ok ((following, out), tail).
Proof.
  intros Hn Hlen. unfold chain_step, genericHeaderLen. go_run. rewrite Hn.
  destruct (negb (Z.land cb criticalBit =? 0)); by go_run.
Qed.

(** A payload of a type the codec does not know, anywhere in a chain, fails
    the parse when its Critical bit is set, and otherwise is skipped: the rest of
    the chain parses as if the payload were not there. *)
Theorem parseChain_unknown next out following cb pb tail :
  newPayload next = None → byte_ok following → byte_ok cb → bytes_ok pb → bytes_ok tail →
  len pb ≤ 0xFFFB →
  for_bytes chain_step (next, out) ([following; cb] ++ put16 (4 + len pb) ++ pb ++ tail) =
  if Z.testbit cb 7 then Err (ErrUnknownCritical next)
  else for_bytes chain_step (following, out) tail.
Proof.
  intros Hn Hf Hcb Hpb Htail Hlen. rewrite put16_eq. cbn [app].
  rewrite for_bytes_unfold by (auto with go; bytes_tac).
  rewrite chain_step_unknown, critical_testbit by done. by destruct (Z.testbit cb 7).
Qed.

Lemma parseChain_unknown_witness :
  for_bytes chain_step (200, []) ([PayloadNonce; 0] ++ put16 (4 + len [1; 2]) ++ [1; 2] ++
    ([0; 0] ++ put16 20 ++ replicate 16 7)) =
  Ok (0, [NoncePayload (replicate 16 7)]).
Proof.
  rewrite parseChain_unknown; [reflexivity|reflexivity|done|done|..].
  - by repeat constructor.
  - vm_compute. by repeat constructor.
  - done.
Defined.

(** The header's Length field is binding: once a datagram parses, no other
    datagram with the same header parses, whether truncated or extended. *)
Theorem Parse_exact_length raw raw' m :
  Parse raw = Ok m → headerLen ≤ len raw' → take 28 raw' = take 28 raw →
  len raw' ≠ len raw → Parse raw' = Err (ErrLengthMismatch (len raw') (len raw)).
Proof.
  unfold headerLen. intros Hp Hl Htake Hne. unfold Parse, headerLen in *. go_inv.
  apply slice_ok_inv in H as [? Hlb].
  assert (slice (E:=msg_error) raw' 24 28 = Ok x) as ->.
  { rewrite slice_ok by lia. f_equal. subst x.
    change (Z.to_nat (28 - 24)) with 4%nat. change (Z.to_nat 24) with 24%nat.
    change 28%nat with (24 + 4)%nat in Htake. by rewrite !take_drop_commute, Htake. }
  go_if. go_step. rewrite H0. go_step. go_if. go_if. by subst.
Qed.

Lemma Parse_exact_length_witness :
  Parse (replicate 27 0 ++ [28] ++ [1]) = Err (ErrLengthMismatch 29 28).
Proof.
  apply (Parse_exact_length (replicate 27 0 ++ [28])
    (replicate 27 0 ++ [28] ++ [1]) (Build_Message 0 0 0 0 0 [])); by vm_compute.
Defined.

(** ** Marshalling never panics *)

Lemma Payloads_Marshal_safe ps : yields (λ _, True) (Payloads_Marshal ps).
Proof.
  assert (Hc : ∀ ps, yields (λ _, True) (marshalChain ps)).
  { induction ps0 as [|p ps0 IH]; [done|]. cbn [marshalChain].
    eapply yields_bind; [apply marshalBody_safe|]. intros body _. go_safe; try done.
    eapply yields_bind; [exact IH|done]. }
  destruct ps; [done|]. cbn [Payloads_Marshal]. eapply yields_bind; [apply Hc|done].
Qed.

Lemma Message_Marshal_safe m : yields (λ _, True) (Message_Marshal m).
Proof.
  unfold Message_Marshal. eapply yields_bind; [apply Payloads_Marshal_safe|]. by intros [].
Qed.
