(* ===== verification/Crypto.v ===== *)
(** * The cryptographic primitives, as an interface

    The client takes its primitives from crypto/aes, crypto/cipher, crypto/hmac,
    crypto/sha256 and golang.org/x/crypto/chacha20poly1305.  [Primitives] names the
    functions the code calls and [PrimitiveLaws] the documented behaviour it relies
    on: output lengths, that decryption inverts encryption, and that an AEAD opens
    exactly what was sealed.  Everything above (ESP, the IKE SA, the session) is
    proved against the interface.  [Toy] is a concrete instance, on which the
    witnesses of those theorems run. *)

From S2P Require Import Prelude.

(** The two combined-mode ciphers. *)
Inductive aead_alg := AES_GCM | CHACHA20_POLY1305.

#[export] Instance aead_alg_eq_dec : EqDecision aead_alg.
Proof. solve_decision. Defined.

(** A cipher.AEAD value: the algorithm with its 32-byte key. *)
Record AEAD := { aead_kind : aead_alg; aead_key : bytes }.

Class Primitives := {
  (** hmac.New(sha256.New, key); Write(data); Sum(nil) *)
  hmac_sha256 : bytes → bytes → bytes;
  (** cipher.NewCBCEncrypter(aes.NewCipher(key), iv).CryptBlocks *)
  cbc_encrypt : bytes → bytes → bytes → bytes;
  cbc_decrypt : bytes → bytes → bytes → bytes;
  (** AEAD.Seal(nil, nonce, plaintext, aad) and AEAD.Open *)
  aead_seal : AEAD → bytes → bytes → bytes → bytes;
  aead_open : AEAD → bytes → bytes → bytes → option bytes;
  (** ecdh.X25519(): the public value of a private key, and PrivateKey.ECDH, which
      fails on a low-order point *)
  x25519_public : bytes → bytes;
  x25519_ecdh : bytes → bytes → option bytes;
}.

Definition aes_block : Z := 16.

Class PrimitiveLaws (P : Primitives) : Prop := {
  hmac_len key data : len (hmac_sha256 key data) = 32;
  hmac_bytes key data : bytes_ok (hmac_sha256 key data);

  cbc_encrypt_len key iv pt :
    len pt mod aes_block = 0 → len (cbc_encrypt key iv pt) = len pt;
  cbc_decrypt_len key iv ct :
    len ct mod aes_block = 0 → len (cbc_decrypt key iv ct) = len ct;
  cbc_encrypt_bytes key iv pt :
    bytes_ok iv → bytes_ok pt → bytes_ok (cbc_encrypt key iv pt);
  cbc_decrypt_bytes key iv ct :
    bytes_ok iv → bytes_ok ct → bytes_ok (cbc_decrypt key iv ct);
  cbc_inverse key iv pt :
    len key = 32 → bytes_ok key → len iv = aes_block → bytes_ok iv →
    len pt mod aes_block = 0 → bytes_ok pt →
    cbc_decrypt key iv (cbc_encrypt key iv pt) = pt;

  seal_len a nonce pt aad : len (aead_seal a nonce pt aad) = len pt + 16;
  seal_bytes a nonce pt aad : bytes_ok pt → bytes_ok (aead_seal a nonce pt aad);
  open_seal a nonce pt aad :
    bytes_ok pt → aead_open a nonce (aead_seal a nonce pt aad) aad = Some pt;
  (** only a sealed message opens, and it opens to what was sealed *)
  open_only_sealed a nonce ct aad pt :
    bytes_ok ct → aead_open a nonce ct aad = Some pt →
    bytes_ok pt ∧ ct = aead_seal a nonce pt aad;

  x25519_public_ok k : len (x25519_public k) = 32 ∧ bytes_ok (x25519_public k);
  x25519_ecdh_ok k p x : x25519_ecdh k p = Some x → len x = 32 ∧ bytes_ok x;
  x25519_agree a b :
    x25519_ecdh a (x25519_public b) = x25519_ecdh b (x25519_public a);
}.

(** aes.NewCipher accepts 16, 24 and 32 octet keys; the block cipher is its key. *)
Definition aes_NewCipher {E} (err : E) (key : bytes) : Res E bytes :=
  if (len key =? 16) || (len key =? 24) || (len key =? 32) then Ok key else Err err.

Lemma aes_NewCipher_32 {E} (e : E) key : len key = 32 → aes_NewCipher e key = Ok key.
Proof. intros Hk. unfold aes_NewCipher. rewrite Hk. done. Qed.

Section laws.
Context `{PrimitiveLaws}.

Lemma open_len a nonce ct aad pt :
  bytes_ok ct → aead_open a nonce ct aad = Some pt → len pt = len ct - 16.
Proof. intros ? [? ->]%open_only_sealed; [|done]. rewrite seal_len. lia. Qed.
End laws.

(** ** A concrete instance

    Not a cipher: XOR with the key's first octet, and checksums for tags.  It
    satisfies the laws, so the hypotheses of the theorems above it can hold. *)
Module Toy.

Definition xor_with (k : Z) (l : bytes) : bytes := (λ b, u8 (Z.lxor (u8 b) k)) <$> l.
Definition pad_key (key : bytes) : Z := u8 (default 0 (head key)).
Definition sum (l : bytes) : Z := foldr Z.add 0 l.

Definition hmac (key data : bytes) : bytes :=
  replicate 31 0 ++ [u8 (sum key + 3 * sum data)].
Definition cbc (key iv data : bytes) : bytes := xor_with (pad_key key) data.
Definition tag (a : AEAD) (nonce pt aad : bytes) : bytes :=
  replicate 15 0 ++ [u8 (sum (aead_key a) + sum nonce + sum pt + sum aad)].
Definition seal (a : AEAD) (nonce pt aad : bytes) : bytes :=
  xor_with (pad_key (aead_key a)) pt ++ tag a nonce pt aad.
Definition open (a : AEAD) (nonce ct aad : bytes) : option bytes :=
  let n := (length ct - 16)%nat in
  let pt := xor_with (pad_key (aead_key a)) (take n ct) in
  if bool_decide (drop n ct = tag a nonce pt aad) then Some pt else None.

Definition public (k : bytes) : bytes := replicate 31 0 ++ [u8 (sum k)].
Definition ecdh (k p : bytes) : option bytes := Some (replicate 31 0 ++ [u8 (u8 (sum k) + sum p)]).

End Toy.

Definition toy_primitives : Primitives := {|
  hmac_sha256 := Toy.hmac;
  cbc_encrypt := Toy.cbc;
  cbc_decrypt := Toy.cbc;
  aead_seal := Toy.seal;
  aead_open := Toy.open;
  x25519_public := Toy.public;
  x25519_ecdh := Toy.ecdh;
|}.

Lemma toy_xor_twice k l : bytes_ok l → Toy.xor_with (u8 k) (Toy.xor_with (u8 k) l) = l.
Proof.
  unfold Toy.xor_with. rewrite <- list_fmap_compose.
  induction 1 as [|b l Hb _ IH]; [done|]. cbn [fmap list_fmap]. rewrite IH. f_equal. cbn.
  pose proof (byte_ok_u8 k) as Hk. rewrite (u8_small b) by done.
  assert (Hx : is_u8 (Z.lxor b (u8 k))).
  { unfold byte_ok in *. split; [apply Z.lxor_nonneg; lia|].
    destruct (Z.eq_dec (Z.lxor b (u8 k)) 0) as [->|Hne]; [lia|].
    pose proof (proj2 (Z.lxor_nonneg b (u8 k)) ltac:(lia)).
    apply Z.log2_lt_pow2; [lia|]. eapply Z.le_lt_trans; [apply Z.log2_lxor; lia|].
    apply Z.max_lub_lt.
    - destruct (Z.eq_dec b 0) as [->|]; [done|]. apply Z.log2_lt_pow2; lia.
    - destruct (Z.eq_dec (u8 k) 0) as [->|]; [done|]. apply Z.log2_lt_pow2; lia. }
  rewrite !(u8_small (Z.lxor b (u8 k))) by done.
  rewrite Z.lxor_assoc, Z.lxor_nilpotent, Z.lxor_0_r. by apply u8_small.
Qed.

Lemma toy_xor_bytes k l : bytes_ok (Toy.xor_with k l).
Proof. apply Forall_fmap. induction l; constructor; cbn; auto using byte_ok_u8. Qed.

Lemma toy_ecdh_agree a b : Toy.ecdh a (Toy.public b) = Toy.ecdh b (Toy.public a).
Proof.
  unfold Toy.ecdh. assert (Hs : ∀ k, Toy.sum (Toy.public k) = u8 (Toy.sum k)) by (intros; cbn; lia).
  by rewrite !Hs, Z.add_comm.
Qed.

Lemma toy_laws : PrimitiveLaws toy_primitives.
Proof.
  constructor; cbn; intros.
  - unfold Toy.hmac. len_lia.
  - unfold Toy.hmac. bytes_tac.
  - apply len_map.
  - apply len_map.
  - apply toy_xor_bytes.
  - apply toy_xor_bytes.
  - by apply toy_xor_twice.
  - unfold Toy.seal, Toy.tag, Toy.xor_with. len_lia.
  - unfold Toy.seal, Toy.tag. bytes_tac. apply toy_xor_bytes.
  - unfold Toy.open, Toy.seal.
    assert (Hn : ∀ x t : bytes, length t = 16%nat → (length (x ++ t) - 16)%nat = length x).
    { intros x t Ht. rewrite length_app. lia. }
    rewrite Hn by done. rewrite take_app_length, drop_app_length.
    unfold Toy.pad_key. rewrite toy_xor_twice by done. by rewrite bool_decide_true.
  - unfold Toy.open in *. case_bool_decide as Htag; [|done]. simplify_eq.
    split; [apply toy_xor_bytes|]. unfold Toy.seal. rewrite <- Htag.
    unfold Toy.pad_key. rewrite toy_xor_twice by auto with go. by rewrite take_drop.
  - split; [unfold Toy.public; len_lia|unfold Toy.public; bytes_tac].
  - unfold Toy.ecdh in *. simplify_eq. split; [len_lia|bytes_tac].
  - apply toy_ecdh_agree.
Qed.
