(* ===== verification/Esp.v ===== *)
(** * ESP tunnel-mode transform (internal/esp/esp.go)

    One Child SA: the key material of both directions, the outbound sequence
    counter and the inbound anti-replay window.  [Encrypt] and [Decrypt] are
    methods in the [ST SA esp_error] state monad; the sequence counter's
    compare-and-swap loop is modelled a second time as a step relation between
    concurrent callers (Module [Counter]). *)

From stdpp Require Import relations.
From S2P Require Import Prelude Replay Crypto.

(** ** Constants and types *)

Definition SuiteAESCBC256SHA256 := 0.
Definition SuiteAESGCM256 := 1.
Definition SuiteChaCha20Poly1305 := 2.

Definition espHeaderLen := 8.
Definition cbcIVLen := 16.
Definition espICVLen := 16.
Definition espBlock := aes_block.
Definition aeadIVLen := 8.
Definition aeadSaltLen := 4.
Definition cbcEncrKeyLen := 32.
Definition cbcIntegKeyLen := 32.
Definition aeadEncrKeyLen := 32 + aeadSaltLen.
Definition nextHeaderIPv4 := 4.
Definition nextHeaderIPv6 := 41.

Inductive direction := Outbound | Inbound.

Inductive esp_error :=
| ErrKeyMaterial (suite : Z) (name : direction) (encr integ : Z)
| ErrCipher
| ErrUnknownSuite (suite : Z)
| ErrRand
| ErrSeqExhausted
| ErrPacketShort
| ErrUnknownSPI (spi : Z)
| ErrICV
| ErrReplay
| ErrUnaligned
| ErrAEADAuth
| ErrTrailerShort
| ErrPadRange
| ErrPadding
| ErrNextHeader (nh : Z).

(** A nil cipher is [None]; a cipher.Block is its key. *)
Record SA := {
  suite : Z;
  outSPI : Z;
  inSPI : Z;
  outBlock : option bytes;
  inBlock : option bytes;
  outInteg : bytes;
  inInteg : bytes;
  outAEAD : option AEAD;
  inAEAD : option AEAD;
  outSalt : bytes;
  inSalt : bytes;
  seq : Z;
  replay : ReplayWindow;
}.

Definition with_seq (sa : SA) (v : Z) : SA :=
  {| suite := suite sa; outSPI := outSPI sa; inSPI := inSPI sa; outBlock := outBlock sa;
     inBlock := inBlock sa; outInteg := outInteg sa; inInteg := inInteg sa;
     outAEAD := outAEAD sa; inAEAD := inAEAD sa; outSalt := outSalt sa; inSalt := inSalt sa;
     seq := v; replay := replay sa |}.

Definition with_replay (sa : SA) (w : ReplayWindow) : SA :=
  {| suite := suite sa; outSPI := outSPI sa; inSPI := inSPI sa; outBlock := outBlock sa;
     inBlock := inBlock sa; outInteg := outInteg sa; inInteg := inInteg sa;
     outAEAD := outAEAD sa; inAEAD := inAEAD sa; outSalt := outSalt sa; inSalt := inSalt sa;
     seq := seq sa; replay := w |}.

(** ** Construction *)

Definition newAEAD (s : Z) (key : bytes) : Res esp_error AEAD :=
  if s =? SuiteAESGCM256 then
    b ← aes_NewCipher ErrCipher key; Ok {| aead_kind := AES_GCM; aead_key := b |}
  else if s =? SuiteChaCha20Poly1305 then
    if len key =? 32 then Ok {| aead_kind := CHACHA20_POLY1305; aead_key := key |} else Err ErrCipher
  else Err (ErrUnknownSuite s).

Definition check_cbc_keys (name : direction) (encr integ : bytes) : Res esp_error unit :=
  if negb (len encr =? cbcEncrKeyLen) || negb (len integ =? cbcIntegKeyLen)
  then Err (ErrKeyMaterial SuiteAESCBC256SHA256 name (len encr) (len integ)) else Ok tt.

Definition check_aead_keys (s : Z) (name : direction) (encr integ : bytes) : Res esp_error unit :=
  if negb (len encr =? aeadEncrKeyLen) || negb (len integ =? 0)
  then Err (ErrKeyMaterial s name (len encr) (len integ)) else Ok tt.

Definition newSA (s outspi inspi : Z) (outEncr outInt inEncr inInt : bytes) (replayWindow : Z)
    : Res esp_error SA :=
  let sa := {| suite := s; outSPI := outspi; inSPI := inspi; outBlock := None; inBlock := None;
               outInteg := []; inInteg := []; outAEAD := None; inAEAD := None;
               outSalt := []; inSalt := []; seq := 0; replay := NewReplayWindow replayWindow |} in
  if s =? SuiteAESCBC256SHA256 then
    _ ← check_cbc_keys Outbound outEncr outInt;
    _ ← check_cbc_keys Inbound inEncr inInt;
    ob ← aes_NewCipher ErrCipher outEncr;
    ib ← aes_NewCipher ErrCipher inEncr;
    Ok {| suite := s; outSPI := outspi; inSPI := inspi; outBlock := Some ob; inBlock := Some ib;
          outInteg := outInt; inInteg := inInt; outAEAD := None; inAEAD := None;
          outSalt := []; inSalt := []; seq := seq sa; replay := replay sa |}
  else if (s =? SuiteAESGCM256) || (s =? SuiteChaCha20Poly1305) then
    _ ← check_aead_keys s Outbound outEncr outInt;
    _ ← check_aead_keys s Inbound inEncr inInt;
    ok ← slice outEncr 0 (aeadEncrKeyLen - aeadSaltLen);
    oa ← newAEAD s ok;
    ik ← slice inEncr 0 (aeadEncrKeyLen - aeadSaltLen);
    ia ← newAEAD s ik;
    osalt ← slice_from outEncr (aeadEncrKeyLen - aeadSaltLen);
    isalt ← slice_from inEncr (aeadEncrKeyLen - aeadSaltLen);
    Ok {| suite := s; outSPI := outspi; inSPI := inspi; outBlock := None; inBlock := None;
          outInteg := []; inInteg := []; outAEAD := Some oa; inAEAD := Some ia;
          outSalt := osalt; inSalt := isalt; seq := seq sa; replay := replay sa |}
  else Err (ErrUnknownSuite s).

(** ** The RFC 4303 trailer *)

Definition nextHeaderFor (inner : bytes) : Z :=
  match inner with
  | b :: _ => if Z.shiftr b 4 =? 6 then nextHeaderIPv6 else nextHeaderIPv4
  | [] => nextHeaderIPv4
  end.

(** for i := range padLen { plain[off+i] = byte(i + 1) } *)
Fixpoint fill_pad (k : nat) (i off : Z) (plain : bytes) : Res esp_error bytes :=
  match k with
  | O => Ok plain
  | S k' => p ← store plain (off + i) (u8 (i + 1)); fill_pad k' (i + 1) off p
  end.

Definition fillTrailer (plain inner : bytes) (padLen : Z) : Res esp_error bytes :=
  p ← fill_pad (Z.to_nat padLen) 0 (len inner) (copy plain inner);
  p ← store p (len p - 2) (u8 padLen);
  store p (len p - 1) (nextHeaderFor inner).

(** for i, b := range pad { if int(b) != i+1 { ... } } *)
Fixpoint pad_ok (i : Z) (pad : bytes) : bool :=
  match pad with
  | [] => true
  | b :: pad' => (b =? i + 1) && pad_ok (i + 1) pad'
  end.

Definition parseTrailer (plain : bytes) : Res esp_error bytes :=
  if len plain <? 2 then Err ErrTrailerShort
  else
    padLen ← index plain (len plain - 2);
    if padLen + 2 >? len plain then Err ErrPadRange
    else
      pad ← slice plain (len plain - 2 - padLen) (len plain - 2);
      if negb (pad_ok 0 pad) then Err ErrPadding
      else
        nh ← index plain (len plain - 1);
        if negb (nh =? nextHeaderIPv4) && negb (nh =? nextHeaderIPv6) then Err (ErrNextHeader nh)
        else slice plain 0 (len plain - padLen - 2).

(** ** Encrypt and Decrypt *)

Section transform.
Context {P : Primitives}.

(** [iv] is what the random reader delivers, [None] when it fails. *)
Definition encryptCBC (sa : SA) (inner : bytes) (sn : Z) (iv : option bytes) : Res esp_error bytes :=
  let padLen := (espBlock - (len inner + 2) mod espBlock) mod espBlock in
  let plainLen := len inner + padLen + 2 in
  let hdr := put32 (outSPI sa) ++ put32 sn in
  iv ← match iv with Some iv => Ok iv | None => Err ErrRand end;
  plain ← fillTrailer (zeros (Z.to_nat plainLen)) inner padLen;
  blk ← deref (outBlock sa);
  let msg := hdr ++ iv ++ cbc_encrypt blk iv plain in
  icv ← slice (hmac_sha256 (outInteg sa) msg) 0 espICVLen;
  Ok (msg ++ icv).

Definition encryptAEAD (sa : SA) (inner : bytes) (sn : Z) : Res esp_error bytes :=
  let padLen := (4 - (len inner + 2) mod 4) mod 4 in
  let plainLen := len inner + padLen + 2 in
  let hdr := put32 (outSPI sa) ++ put32 sn in
  let iv := put64 sn in
  let nonce := copy (zeros 4) (outSalt sa) ++ iv in
  plain ← fillTrailer (zeros (Z.to_nat plainLen)) inner padLen;
  a ← deref (outAEAD sa);
  Ok (hdr ++ iv ++ aead_seal a nonce plain hdr).

(** The counter step of Encrypt, as one caller sees it. *)
Definition nextSeq : ST SA esp_error Z :=
  sa ← getS;
  let cur := seq sa in
  if cur =? 2 ^ 32 - 1 then throw ErrSeqExhausted
  else _ ← putS (with_seq sa (u32 (cur + 1))); mret (u32 (cur + 1)).

Definition Encrypt (inner : bytes) (iv : option bytes) : ST SA esp_error bytes :=
  sn ← nextSeq;
  sa ← getS;
  if suite sa =? SuiteAESCBC256SHA256 then lift (encryptCBC sa inner sn iv)
  else lift (encryptAEAD sa inner sn).

(** sa.replay.Accept(seq) *)
Definition replayAccept (sn : Z) : ST SA esp_error bool :=
  sa ← getS;
  '(ok, w) ← lift (Accept (replay sa) sn);
  _ ← putS (with_replay sa w);
  mret ok.

Definition decryptCBC (pkt : bytes) : ST SA esp_error bytes :=
  sa ← getS;
  if len pkt <? espHeaderLen + cbcIVLen + espBlock + espICVLen then throw ErrPacketShort
  else
    sb ← lift (slice pkt 0 4);
    spi ← lift (Uint32 sb);
    if negb (spi =? inSPI sa) then throw (ErrUnknownSPI spi)
    else
      qb ← lift (slice pkt 4 8);
      sn ← lift (Uint32 qb);
      let icvStart := len pkt - espICVLen in
      msg ← lift (slice pkt 0 icvStart);
      mac ← lift (slice (hmac_sha256 (inInteg sa) msg) 0 espICVLen);
      icv ← lift (slice_from pkt icvStart);
      if negb (bool_decide (mac = icv)) then throw ErrICV
      else
        ok ← replayAccept sn;
        if negb ok then throw ErrReplay
        else
          iv ← lift (slice pkt espHeaderLen (espHeaderLen + cbcIVLen));
          ct ← lift (slice pkt (espHeaderLen + cbcIVLen) icvStart);
          if (len ct =? 0) || negb (len ct mod espBlock =? 0) then throw ErrUnaligned
          else
            blk ← lift (deref (inBlock sa));
            lift (parseTrailer (cbc_decrypt blk iv ct)).

Definition decryptAEAD (pkt : bytes) : ST SA esp_error bytes :=
  sa ← getS;
  if len pkt <? espHeaderLen + aeadIVLen + 2 + espICVLen then throw ErrPacketShort
  else
    sb ← lift (slice pkt 0 4);
    spi ← lift (Uint32 sb);
    if negb (spi =? inSPI sa) then throw (ErrUnknownSPI spi)
    else
      qb ← lift (slice pkt 4 8);
      sn ← lift (Uint32 qb);
      iv ← lift (slice pkt espHeaderLen (espHeaderLen + aeadIVLen));
      ct ← lift (slice_from pkt (espHeaderLen + aeadIVLen));
      aad ← lift (slice pkt 0 espHeaderLen);
      a ← lift (deref (inAEAD sa));
      match aead_open a (copy (zeros 4) (inSalt sa) ++ iv) ct aad with
      | None => throw ErrAEADAuth
      | Some plain =>
          ok ← replayAccept sn;
          if negb ok then throw ErrReplay else lift (parseTrailer plain)
      end.

Definition Decrypt (pkt : bytes) : ST SA esp_error bytes :=
  sa ← getS;
  if suite sa =? SuiteAESCBC256SHA256 then decryptCBC pkt else decryptAEAD pkt.

End transform.

(** ** The trailer *)

(** The pad octets i+1, i+2, ..., i+n. *)
Fixpoint pad_bytes (i : Z) (n : nat) : bytes :=
  match n with
  | O => []
  | S n' => u8 (i + 1) :: pad_bytes (i + 1) n'
  end.

Lemma len_pad_bytes i n : len (pad_bytes i n) = Z.of_nat n.
Proof. revert i. induction n as [|n IH]; intros i; [done|]. cbn [pad_bytes]. rewrite len_cons, IH. lia. Qed.
#[local] Hint Rewrite len_pad_bytes : len.

Lemma pad_bytes_ok i n : bytes_ok (pad_bytes i n).
Proof. revert i. induction n; intros i; cbn [pad_bytes]; bytes_tac. Qed.
#[local] Hint Resolve pad_bytes_ok : go.

Lemma store_app_mid {E A} (l1 : list A) x l2 i v :
  i = len l1 → store (E:=E) (l1 ++ x :: l2) i v = Ok (l1 ++ v :: l2).
Proof.
  intros ->. rewrite store_ok by len_lia. f_equal. unfold len. rewrite Nat2Z.id.
  rewrite insert_app_r_alt by lia. by rewrite Nat.sub_diag.
Qed.

Lemma fill_pad_eq k i pre tail :
  fill_pad k i (len pre - i) (pre ++ zeros k ++ tail) = Ok (pre ++ pad_bytes i k ++ tail).
Proof.
  revert i pre. induction k as [|k IH]; intros i pre; [done|]. cbn [fill_pad replicate pad_bytes app].
  rewrite (store_app_mid pre) by lia. go_step.
  specialize (IH (i + 1) (pre ++ [u8 (i + 1)])). rewrite <- !app_assoc in IH. cbn [app] in IH.
  replace (len (pre ++ [u8 (i + 1)]) - (i + 1)) with (len pre - i) in IH by len_lia. apply IH.
Qed.

Lemma fillTrailer_eq inner padLen :
  0 ≤ padLen < 256 →
  fillTrailer (zeros (Z.to_nat (len inner + padLen + 2))) inner padLen =
  Ok (inner ++ pad_bytes 0 (Z.to_nat padLen) ++ [padLen; nextHeaderFor inner]).
Proof.
  intros Hp. unfold fillTrailer.
  assert (copy (zeros (Z.to_nat (len inner + padLen + 2))) inner =
          inner ++ zeros (Z.to_nat padLen) ++ [0; 0]) as ->.
  { unfold copy, len. rewrite length_replicate, take_ge by lia. f_equal.
    rewrite drop_replicate. change [0; 0] with (replicate 2 0). rewrite <- replicate_add.
    f_equal. lia. }
  pose proof (fill_pad_eq (Z.to_nat padLen) 0 inner [0; 0]) as Hf.
  rewrite Z.sub_0_r in Hf. rewrite Hf. go_step.
  rewrite !app_assoc. rewrite (store_app_mid (inner ++ pad_bytes 0 (Z.to_nat padLen))) by len_lia.
  go_step. rewrite u8_small by done.
  rewrite (app_assoc _ [padLen] [0] : _ ++ [padLen; 0] = _).
  rewrite (store_app_mid (_ ++ [padLen])) by len_lia. by rewrite <- !app_assoc.
Qed.

Lemma pad_ok_pad_bytes i n : 0 ≤ i → i + Z.of_nat n < 256 → pad_ok i (pad_bytes i n) = true.
Proof.
  revert i. induction n as [|n IH]; intros i Hi Hn; [done|]. cbn [pad_bytes pad_ok].
  rewrite u8_small, Z.eqb_refl by (unfold is_u8; lia). apply IH; lia.
Qed.

Lemma nextHeaderFor_cases inner :
  nextHeaderFor inner = nextHeaderIPv4 ∨ nextHeaderFor inner = nextHeaderIPv6.
Proof. destruct inner; cbn; [auto|]. case_if; auto. Qed.

Lemma parseTrailer_eq inner padLen :
  0 ≤ padLen < 256 →
  parseTrailer (inner ++ pad_bytes 0 (Z.to_nat padLen) ++ [padLen; nextHeaderFor inner]) = Ok inner.
Proof.
  intros Hp. unfold parseTrailer. go_chop. rewrite pad_ok_pad_bytes by lia. go_chop.
  destruct (nextHeaderFor_cases inner) as [-> | ->]; cbn; by go_chop.
Qed.

Lemma parseTrailer_safe plain : bytes_ok plain → yields bytes_ok (parseTrailer plain).
Proof.
  intros Hb. unfold parseTrailer. go_safe; try done.
  rewrite slice_ok by (len_pos; lia). cbn. auto with go.
Qed.

(** ** Well-formed and matching SAs *)

Record sa_ok (sa : SA) : Prop := {
  so_suite :
    (suite sa = SuiteAESCBC256SHA256 ∧
     ∃ ko ki, outBlock sa = Some ko ∧ inBlock sa = Some ki ∧
       (len ko = 32 ∧ bytes_ok ko) ∧ (len ki = 32 ∧ bytes_ok ki)) ∨
    ((suite sa = SuiteAESGCM256 ∨ suite sa = SuiteChaCha20Poly1305) ∧
     ∃ ao ai, outAEAD sa = Some ao ∧ inAEAD sa = Some ai ∧
       len (outSalt sa) = 4 ∧ len (inSalt sa) = 4);
  so_outSPI : is_u32 (outSPI sa);
  so_inSPI : is_u32 (inSPI sa);
  so_seq : is_u32 (seq sa);
  so_replay : ∃ s, represents (replay sa) s;
}.

(** What [sa] sends, [sb] can receive: the two ends of one direction. *)
Record paired (sa sb : SA) : Prop := {
  pa_suite : suite sa = suite sb;
  pa_spi : outSPI sa = inSPI sb;
  pa_block : outBlock sa = inBlock sb;
  pa_integ : outInteg sa = inInteg sb;
  pa_aead : outAEAD sa = inAEAD sb;
  pa_salt : outSalt sa = inSalt sb;
}.

Section proofs.
Context `{HL : PrimitiveLaws}.

Lemma block_pad n b : 0 < b → (n + (b - (n + 2) mod b) mod b + 2) mod b = 0.
Proof.
  intros Hb. pose proof (Z.mod_pos_bound (n + 2) b Hb).
  replace (n + (b - (n + 2) mod b) mod b + 2) with ((n + 2) + (b - (n + 2) mod b) mod b) by lia.
  rewrite Zplus_mod, Zmod_mod, <- Zplus_mod.
  replace (n + 2 + (b - (n + 2) mod b)) with (((n + 2) / b + 1) * b)
    by (pose proof (Z.div_mod (n + 2) b ltac:(lia)); lia).
  apply Z.mod_mul. lia.
Qed.

Lemma decryptCBC_packet sb spi sn iv ct icv k w' :
  spi = inSPI sb → is_u32 spi → is_u32 sn → len iv = 16 → 16 ≤ len ct → len ct mod 16 = 0 →
  icv = take 16 (hmac_sha256 (inInteg sb) (put32 spi ++ put32 sn ++ iv ++ ct)) →
  inBlock sb = Some k → Accept (E:=esp_error) (replay sb) sn = Ok (true, w') →
  decryptCBC (put32 spi ++ put32 sn ++ iv ++ ct ++ icv) sb =
  (with_replay sb w', parseTrailer (cbc_decrypt k iv ct)).
Proof using HL.
  intros Hspi Hsp Hsn Hiv Hct Hmod Hicv Hk Hacc.
  set (msg := put32 spi ++ put32 sn ++ iv ++ ct) in *.
  pose proof (hmac_len (inInteg sb) msg) as Hml.
  assert (Hil : len icv = 16) by (rewrite Hicv; len_lia).
  assert (Hmsg : put32 spi ++ put32 sn ++ iv ++ ct ++ icv = msg ++ icv)
    by (unfold msg; by rewrite <- !app_assoc).
  assert (Hlen : len (put32 spi ++ put32 sn ++ iv ++ ct ++ icv) = 40 + len ct) by len_lia.
  assert (Hlm : len msg = 24 + len ct) by (unfold msg; len_lia).
  unfold decryptCBC, espHeaderLen, cbcIVLen, espBlock, aes_block, espICVLen. rewrite Hlen. st_step.
  go_if. rewrite slice_hit by len_lia. st_step. rewrite be_read_exact by done. st_step. rewrite Hspi, Z.eqb_refl.
  cbn [negb]. rewrite <- Hspi, slice_skip, slice_hit by len_lia. st_step.
  rewrite be_read_exact by done. st_step. rewrite Hmsg.
  rewrite (slice_hit msg icv), (slice_from_skip msg icv), (slice_from_all icv) by lia. st_step.
  rewrite slice_ok by lia. st_step. change (Z.to_nat (16 - 0)) with 16%nat.
  change (Z.to_nat 0) with 0%nat. rewrite drop_0, <- Hicv, bool_decide_true by done. cbn [negb].
  unfold replayAccept. st_step. rewrite Hacc. st_step. cbn [negb]. unfold msg. rewrite <- !app_assoc.
  rewrite (slice_skip (put32 spi)), (slice_skip (put32 sn)), (slice_hit iv) by len_lia. st_step.
  rewrite (slice_skip (put32 spi)), (slice_skip (put32 sn)), (slice_skip iv), (slice_hit ct) by len_lia.
  st_step. go_if. by rewrite Hk.
Qed.

Lemma decryptCBC_encryptCBC sa sb inner sn iv k w' :
  paired sa sb → is_u32 (outSPI sa) → outBlock sa = Some k → len k = 32 → bytes_ok k →
  bytes_ok inner → len iv = 16 → bytes_ok iv → is_u32 sn →
  Accept (E:=esp_error) (replay sb) sn = Ok (true, w') →
  ∃ pkt, encryptCBC sa inner sn (Some iv) = Ok pkt ∧ bytes_ok pkt ∧
         decryptCBC pkt sb = (with_replay sb w', Ok inner).
Proof using HL.
  intros [Hsuite Hspi Hblk Hint _ _] Hsp Hk Hkl Hkb Hin Hivl Hiv Hsn Hacc.
  unfold encryptCBC. set (padLen := (espBlock - (len inner + 2) mod espBlock) mod espBlock).
  assert (Hp : 0 ≤ padLen < 16) by (apply Z.mod_pos_bound; done).
  go_step. rewrite fillTrailer_eq by lia. go_step. rewrite Hk. cbn [deref]. go_step.
  set (plain := inner ++ _). 
  assert (Hpl : len plain = len inner + padLen + 2) by (unfold plain; len_lia).
  assert (Hmod : len plain mod aes_block = 0) by (rewrite Hpl; by apply block_pad).
  assert (Hpb : bytes_ok plain).
  { unfold plain. bytes_tac.
    destruct (nextHeaderFor_cases inner) as [-> | ->]; by vm_compute. }
  pose proof (cbc_encrypt_len k iv plain Hmod) as Hcl.
  pose proof (cbc_encrypt_bytes k iv plain Hiv Hpb) as Hcb.
  set (ct := cbc_encrypt k iv plain) in *.
  set (msg := (put32 (outSPI sa) ++ put32 sn) ++ iv ++ ct).
  pose proof (hmac_len (outInteg sa) msg) as Hml. pose proof (hmac_bytes (outInteg sa) msg) as Hmb.
  rewrite slice_ok by (unfold espICVLen; lia). go_step.
  eexists; split; [reflexivity|]. set (icv := take _ _).
  assert (Hil : len icv = 16) by (unfold icv, espICVLen; len_lia).
  split; [unfold msg, icv; bytes_tac|].
  unfold msg. rewrite <- !app_assoc. rewrite (decryptCBC_packet sb _ sn iv ct icv k w');
    try done; try congruence; try lia.
  - unfold ct. rewrite cbc_inverse by done. unfold plain. by rewrite parseTrailer_eq by lia.
  - pose proof (Z.div_mod (len plain) 16 ltac:(lia)). unfold aes_block in Hmod. len_pos. lia.
  - by rewrite Hcl.
  - unfold icv, espICVLen, msg. rewrite Hint. by rewrite <- !app_assoc.
Qed.

Lemma decryptAEAD_packet sb spi sn iv ct a plain w' :
  spi = inSPI sb → is_u32 spi → is_u32 sn → len iv = 8 → 18 ≤ len ct →
  inAEAD sb = Some a → len (inSalt sb) = 4 →
  aead_open a (inSalt sb ++ iv) ct (put32 spi ++ put32 sn) = Some plain →
  Accept (E:=esp_error) (replay sb) sn = Ok (true, w') →
  decryptAEAD (put32 spi ++ put32 sn ++ iv ++ ct) sb = (with_replay sb w', parseTrailer plain).
Proof using HL.
  intros Hspi Hsp Hsn Hiv Hct Ha Hsalt Hopen Hacc.
  unfold decryptAEAD, espHeaderLen, aeadIVLen, espICVLen. st_step. go_if.
  rewrite slice_hit by len_lia. st_step. rewrite be_read_exact by done. st_step.
  rewrite Hspi, Z.eqb_refl. cbn [negb]. rewrite <- Hspi. rewrite slice_skip, slice_hit by len_lia.
  st_step. rewrite be_read_exact by done. st_step.
  rewrite (slice_skip (put32 spi)), (slice_skip (put32 sn)), (slice_hit iv) by len_lia. st_step.
  rewrite (slice_from_skip (put32 spi)), (slice_from_skip (put32 sn)), (slice_from_skip iv),
    (slice_from_all ct) by len_lia. st_step.
  rewrite app_assoc, slice_hit by len_lia. st_step. rewrite Ha. st_step.
  assert (copy (zeros 4) (inSalt sb) = inSalt sb) as -> by by apply copy_exact.
  rewrite Hopen. unfold replayAccept. st_step. rewrite Hacc. st_step. by cbn [negb].
Qed.

Lemma decryptAEAD_encryptAEAD sa sb inner sn a w' :
  paired sa sb → is_u32 (outSPI sa) → outAEAD sa = Some a → len (outSalt sa) = 4 →
  bytes_ok inner → is_u32 sn → Accept (E:=esp_error) (replay sb) sn = Ok (true, w') →
  ∃ pkt, encryptAEAD sa inner sn = Ok pkt ∧ bytes_ok pkt ∧
         decryptAEAD pkt sb = (with_replay sb w', Ok inner).
Proof using HL.
  intros [_ Hspi _ _ Haead Hsalt] Hsp Ha Hsl Hin Hsn Hacc.
  unfold encryptAEAD. set (padLen := (4 - (len inner + 2) mod 4) mod 4).
  assert (Hp : 0 ≤ padLen < 4) by (apply Z.mod_pos_bound; done).
  rewrite fillTrailer_eq by lia. go_step. rewrite Ha. cbn [deref]. go_step.
  set (plain := inner ++ _).
  assert (Hpl : len plain = len inner + padLen + 2) by (unfold plain; len_lia).
  assert (Hpb : bytes_ok plain).
  { unfold plain. bytes_tac. destruct (nextHeaderFor_cases inner) as [-> | ->]; by vm_compute. }
  assert (copy (zeros 4) (outSalt sa) = outSalt sa) as -> by by apply copy_exact.
  set (hdr := put32 (outSPI sa) ++ put32 sn).
  pose proof (seal_len a (outSalt sa ++ put64 sn) plain hdr) as Hcl.
  pose proof (seal_bytes a (outSalt sa ++ put64 sn) plain hdr Hpb) as Hcb.
  pose proof (open_seal a (outSalt sa ++ put64 sn) plain hdr Hpb) as Hopen.
  set (ct := aead_seal _ _ _ _) in *. eexists; split; [reflexivity|]. split; [unfold hdr; bytes_tac|].
  unfold hdr. rewrite <- app_assoc. rewrite (decryptAEAD_packet sb _ sn (put64 sn) ct a plain w');
    try done; try congruence.
  - unfold plain. by rewrite parseTrailer_eq by lia.
  - len_lia.
  - by rewrite <- Hsalt.
Qed.
End proofs.

(** ** One packet, a stream of packets *)

Section roundtrip.
Context `{HL : PrimitiveLaws}.

Lemma Encrypt_seq inner iv sa :
  is_u32 (seq sa) → seq sa ≠ 2 ^ 32 - 1 →
  Encrypt inner iv sa =
  (with_seq sa (seq sa + 1),
   if suite sa =? SuiteAESCBC256SHA256
   then encryptCBC (with_seq sa (seq sa + 1)) inner (seq sa + 1) iv
   else encryptAEAD (with_seq sa (seq sa + 1)) inner (seq sa + 1)).
Proof.
  intros Hs Hne. unfold Encrypt, nextSeq. st_step. go_if. st_step.
  rewrite u32_small by (unfold is_u32 in *; lia). cbn [suite with_seq].
  by destruct (suite sa =? SuiteAESCBC256SHA256).
Qed.

Lemma Encrypt_Decrypt_packet sa sb inner iv w' :
  sa_ok sa → paired sa sb → bytes_ok inner → len iv = 16 → bytes_ok iv →
  seq sa ≠ 2 ^ 32 - 1 → Accept (E:=esp_error) (replay sb) (seq sa + 1) = Ok (true, w') →
  ∃ pkt, Encrypt inner (Some iv) sa = (with_seq sa (seq sa + 1), Ok pkt) ∧ bytes_ok pkt ∧
         Decrypt pkt sb = (with_replay sb w', Ok inner).
Proof using HL.
  intros [Hsuite Hout _ Hseq _] Hpair Hin Hivl Hiv Hne Hacc.
  rewrite Encrypt_seq by done. unfold Decrypt.
  assert (Hsn : is_u32 (seq sa + 1)) by (unfold is_u32 in *; lia).
  assert (Hpair' : paired (with_seq sa (seq sa + 1)) sb) by (by destruct Hpair).
  destruct Hsuite as [[Hs (ko & ki & Hko & _ & [? ?] & _)]|[Hs (ao & ai & Hao & _ & ? & _)]].
  - destruct (decryptCBC_encryptCBC (with_seq sa (seq sa + 1)) sb inner (seq sa + 1) iv ko w')
      as (pkt & He & Hb & Hd); try done.
    exists pkt. rewrite Hs, He. split; [done|]. split; [done|].
    st_step. destruct Hpair as [<- _ _ _ _ _]. by rewrite Hs.
  - destruct (decryptAEAD_encryptAEAD (with_seq sa (seq sa + 1)) sb inner (seq sa + 1) ao w')
      as (pkt & He & Hb & Hd); try done.
    exists pkt. st_step. destruct Hpair as [<- _ _ _ _ _].
    replace (suite sa =? SuiteAESCBC256SHA256) with false by (by destruct Hs as [-> | ->]).
    by rewrite He.
Qed.

(** Send a list of datagrams (each with the IV the reader delivered for it), and
    hand every packet to the receiver in order. *)
Fixpoint transfer (sa sb : SA) (msgs : list (bytes * bytes)) : SA * SA * list (Res esp_error bytes) :=
  match msgs with
  | [] => (sa, sb, [])
  | (inner, iv) :: rest =>
      match Encrypt inner (Some iv) sa with
      | (sa', Ok pkt) =>
          let '(sb', r) := Decrypt pkt sb in
          let '(sa'', sb'', rs) := transfer sa' sb' rest in
          (sa'', sb'', r :: rs)
      | (sa', _) => (sa', sb, [])
      end
  end.

(** C6. The data path round trip, for all three suites: between two SAs built
    from the same key material, every datagram sent is received unchanged, in
    order, up to the last of the 2^32 - 1 sequence numbers; padding, trailer, IV,
    integrity check and replay window never reject a packet of the peer. *)
Theorem Encrypt_Decrypt_stream sa sb s msgs :
  sa_ok sa → paired sa sb → represents (replay sb) s → last (replay sb) ≤ seq sa →
  Forall (λ m, bytes_ok m.1 ∧ len m.2 = 16 ∧ bytes_ok m.2) msgs →
  seq sa + len msgs < 2 ^ 32 →
  (transfer sa sb msgs).2 = (λ m, Ok m.1) <$> msgs ∧
  seq (transfer sa sb msgs).1.1 = seq sa + len msgs.
Proof using HL.
  intros Hok Hpair Hrep Hlast Hm Hroom. revert sa sb s Hok Hpair Hrep Hlast Hroom.
  induction Hm as [|[inner iv] msgs (Hin & Hivl & Hiv) _ IH]; intros sa sb s Hok Hpair Hrep Hlast Hroom.
  - cbn. rewrite len_nil. split; [done|lia].
  - cbn in Hin, Hivl, Hiv. rewrite len_cons in Hroom. pose proof (len_nonneg msgs).
    pose proof (so_seq sa Hok) as Hseq. unfold is_u32 in Hseq.
    destruct (Accept_above (E:=esp_error) (replay sb) s (seq sa + 1) Hrep) as (w' & Hacc & _ & Hrep');
      [unfold is_u32; lia|lia|].
    destruct (Encrypt_Decrypt_packet sa sb inner iv w') as (pkt & He & _ & Hd); try done; [lia|].
    cbn [transfer]. rewrite He, Hd.
    set (s' := Spec.Build_state _ _) in Hrep'.
    destruct (IH (with_seq sa (seq sa + 1)) (with_replay sb w') s') as [IH1 IH2].
    + destruct Hok. constructor; try done. unfold is_u32. cbn. lia.
    + by destruct Hpair.
    + exact Hrep'.
    + cbn. rewrite (rp_last _ _ Hrep'). cbn. lia.
    + cbn. lia.
    + destruct (transfer _ _ msgs) as [[sa' sb'] rs]. cbn in *. rewrite IH1, IH2, len_cons.
      split; [done|lia].
Qed.
End roundtrip.

(** ** Receiving arbitrary packets *)

Section receive.
Context `{HL : PrimitiveLaws}.

(** The packet carries a valid integrity value under the inbound key: for an
    AEAD suite, it is the sealing of some plaintext. *)
Definition authentic (sa : SA) (pkt : bytes) : Prop :=
  if suite sa =? SuiteAESCBC256SHA256 then
    ∃ msg, pkt = msg ++ take 16 (hmac_sha256 (inInteg sa) msg)
  else
    ∃ a hdr iv plain, inAEAD sa = Some a ∧ len hdr = 8 ∧ len iv = 8 ∧
      pkt = hdr ++ iv ++ aead_seal a (inSalt sa ++ iv) plain hdr.

Definition receive_post (pkt : bytes) (sa sa' : SA) (r : Res esp_error bytes) : Prop :=
  yields bytes_ok r ∧ sa_ok sa' ∧ sa' = with_replay sa (replay sa') ∧
  (replay sa' ≠ replay sa ∨ (∃ inner, r = Ok inner) → authentic sa pkt).

Lemma receive_post_err pkt sa e : sa_ok sa → receive_post pkt sa sa (Err e).
Proof.
  intros Hok. split; [done|]. split; [done|]. split; [by destruct sa|]. intros [?|[inner ?]]; [done|congruence].
Qed.

Lemma receive_post_auth pkt sa w r :
  authentic sa pkt → sa_ok (with_replay sa w) → yields bytes_ok r →
  receive_post pkt sa (with_replay sa w) r.
Proof. intros. unfold receive_post. by split_and!. Qed.

Lemma wp_replayAccept {A} sn (f : bool → ST SA esp_error A) sa Q :
  sa_ok sa → is_u32 sn →
  (∀ ok w, sa_ok (with_replay sa w) → wp (f ok) (with_replay sa w) Q) →
  wp (replayAccept sn ≫= f) sa Q.
Proof.
  intros Hok Hsn Hk. destruct Hok as [Hsuite ? ? ? [s Hrep]].
  destruct (Accept_refines (E:=esp_error) _ _ _ Hrep Hsn) as (w' & Hacc & _ & Hrep').
  apply wp_bind. unfold replayAccept. apply wp_get, wp_bind. rewrite Hacc.
  apply wp_lift. apply wp_put, wp_mret. apply Hk. constructor; try done. by eexists.
Qed.

Lemma decryptCBC_post sa pkt :
  sa_ok sa → suite sa = SuiteAESCBC256SHA256 → bytes_ok pkt →
  wp (decryptCBC pkt) sa (receive_post pkt sa).
Proof using HL.
  intros Hok Hs Hb. pose proof Hok as [Hsuite _ _ _ _].
  destruct Hsuite as [[_ (ko & ki & Hko & Hki & [? ?] & [? ?])]|[[Hs'|Hs'] _]]; [|by rewrite Hs in Hs'..].
  unfold decryptCBC, espHeaderLen, cbcIVLen, espBlock, aes_block, espICVLen.
  wp_go; try by apply receive_post_err.
  pose proof (hmac_len (inInteg sa) x1) as Hml. pose proof (hmac_bytes (inInteg sa) x1).
  wp_go; try by apply receive_post_err. rename x1 into msg, x2 into mac, x3 into icv.
  apply bool_decide_eq_true in Heqb1.
  assert (Hauth : authentic sa pkt).
  { unfold authentic. rewrite Hs. cbn [Z.eqb]. exists msg.
    assert (pkt = msg ++ icv) as -> by (by eapply slice_split). f_equal. subst icv.
    match goal with Hm : slice (hmac_sha256 _ _) _ _ = Ok mac |- _ =>
      rewrite slice_ok in Hm by lia; apply Ok_inj in Hm; by rewrite <- Hm end. }
  apply wp_replayAccept; [done|done|]. intros ok w Hok'.
  wp_go; try by apply receive_post_auth.
  rewrite Hki. eapply wp_lift_ok; [reflexivity|]. apply wp_lift.
  apply receive_post_auth; [done..|]. apply parseTrailer_safe. by apply cbc_decrypt_bytes.
Qed.

Lemma decryptAEAD_post sa pkt :
  sa_ok sa → suite sa ≠ SuiteAESCBC256SHA256 → bytes_ok pkt →
  wp (decryptAEAD pkt) sa (receive_post pkt sa).
Proof using HL.
  intros Hok Hs Hb. pose proof Hok as [Hsuite _ _ _ _].
  destruct Hsuite as [[? _]|[_ (ao & ai & Hao & Hai & Hso & Hsi)]]; [done|].
  unfold decryptAEAD, espHeaderLen, aeadIVLen, espICVLen.
  wp_go; try by apply receive_post_err. rewrite Hai. eapply wp_lift_ok; [reflexivity|].
  rewrite copy_exact by done. rename x1 into iv, x2 into ct, x3 into hdr.
  destruct (aead_open ai (inSalt sa ++ iv) ct hdr) as [plain|] eqn:Hopen; [|by apply receive_post_err].
  apply open_only_sealed in Hopen as [Hpb Hct]; [|done].
  assert (Hauth : authentic sa pkt).
  { unfold authentic. rewrite (proj2 (Z.eqb_neq _ _) Hs). exists ai, hdr, iv, plain.
    split_and!; [done|lia|lia|]. rewrite <- Hct.
    assert (pkt = hdr ++ drop 8 pkt) as Hp.
    { eapply slice_split; [eassumption|]. by rewrite slice_from_ok by lia. }
    rewrite Hp at 1. f_equal.
    match goal with Hi : slice pkt 8 (8 + 8) = Ok iv, Hc : slice_from pkt (8 + 8) = Ok ct |- _ =>
      rewrite slice_ok in Hi by lia; rewrite slice_from_ok in Hc by lia;
      apply Ok_inj in Hi; apply Ok_inj in Hc; rewrite <- Hi, <- Hc end.
    change (Z.to_nat (8 + 8)) with (8 + 8)%nat. change (Z.to_nat (8 + 8 - 8)) with 8%nat.
    change (Z.to_nat 8) with 8%nat. rewrite <- drop_drop. by rewrite take_drop. }
  apply wp_replayAccept; [done|done|]. intros ok w Hok'.
  wp_go; try by apply receive_post_auth.
  apply wp_lift. apply receive_post_auth; [done..|]. by apply parseTrailer_safe.
Qed.

Lemma Decrypt_post sa pkt :
  sa_ok sa → bytes_ok pkt → wp (Decrypt pkt) sa (receive_post pkt sa).
Proof using HL.
  intros Hok Hb. unfold Decrypt. apply wp_get.
  destruct (suite sa =? SuiteAESCBC256SHA256) eqn:Hs; bool_prop;
    [by apply decryptCBC_post|by apply decryptAEAD_post].
Qed.

(** C7. Whatever arrives on the wire, Decrypt returns (it never panics) and keeps
    the SA well formed; the only field it can change is the replay window; and
    when it moves the window or delivers a datagram, the packet carried a valid
    integrity value under this SA's inbound key, so that forged packets can
    neither deliver data nor push the window forward. *)
Theorem Decrypt_authenticates sa sa' pkt r :
  sa_ok sa → bytes_ok pkt → Decrypt pkt sa = (sa', r) →
  yields bytes_ok r ∧ sa_ok sa' ∧ sa' = with_replay sa (replay sa') ∧
  (replay sa' ≠ replay sa ∨ (∃ inner, r = Ok inner) → authentic sa pkt).
Proof using HL.
  intros Hok Hb Hd. pose proof (Decrypt_post sa pkt Hok Hb) as Hw. unfold wp in Hw. by rewrite Hd in Hw.
Qed.

(** Sending moves the counter and nothing else, and always returns. *)
Lemma Encrypt_post sa inner iv :
  sa_ok sa → safe (Encrypt inner iv sa).2 ∧
  ∃ v, (Encrypt inner iv sa).1 = with_seq sa v ∧ sa_ok (with_seq sa v).
Proof using HL.
  intros Hok. pose proof Hok as [Hsuite Ho Hi Hseq Hr].
  destruct (decide (seq sa = 2 ^ 32 - 1)) as [He|Hne].
  { unfold Encrypt, nextSeq. st_step. rewrite He. cbn. split; [done|]. exists (seq sa).
    by destruct sa. }
  rewrite Encrypt_seq by done. cbn [fst snd]. split; [|exists (seq sa + 1); split; [done|]].
  2: { constructor; try done. unfold is_u32 in *. cbn. lia. }
  destruct Hsuite as [[Hs (ko & ki & Hko & _)]|[Hs (ao & ai & Hao & _)]].
  - rewrite Hs. cbn [Z.eqb SuiteAESCBC256SHA256]. unfold encryptCBC. destruct iv as [iv|]; [|done].
    go_step. rewrite fillTrailer_eq by (pose proof (Z.mod_pos_bound (espBlock - (len inner + 2) mod espBlock)
      espBlock ltac:(done)); unfold espBlock, aes_block in *; lia).
    go_step. cbn [outBlock with_seq]. rewrite Hko. go_step. cbn [deref]. go_step.
    pose proof (hmac_len (outInteg (with_seq sa (seq sa + 1)))) as Hl.
    rewrite slice_ok; [done|unfold espICVLen; lia..|rewrite Hl; unfold espICVLen; lia].
  - replace (suite sa =? SuiteAESCBC256SHA256) with false by (by destruct Hs as [-> | ->]).
    unfold encryptAEAD. rewrite fillTrailer_eq
      by (pose proof (Z.mod_pos_bound (4 - (len inner + 2) mod 4) 4 ltac:(done)); lia).
    go_step. cbn [outAEAD with_seq]. by rewrite Hao.
Qed.

(** What is sent starts with the peer's SPI. *)
Lemma Encrypt_spi sa sa' inner iv pkt :
  Encrypt inner iv sa = (sa', Ok pkt) → ∃ rest, pkt = put32 (outSPI sa) ++ rest.
Proof using Type.
  unfold Encrypt, nextSeq. st_step. destruct (_ =? 2 ^ 32 - 1); [done|]. st_step. cbn [suite with_seq].
  destruct (suite sa =? SuiteAESCBC256SHA256); unfold lift, encryptCBC, encryptAEAD; intros [= _ H]; go_inv; subst pkt;
    eexists; reflexivity.
Qed.
End receive.

(** ** Construction *)

Definition keys_fit (s : Z) (oe oi ie ii : bytes) : bool :=
  if s =? SuiteAESCBC256SHA256
  then (len oe =? 32) && (len oi =? 32) && (len ie =? 32) && (len ii =? 32)
  else ((s =? SuiteAESGCM256) || (s =? SuiteChaCha20Poly1305)) &&
       (len oe =? 36) && (len oi =? 0) && (len ie =? 36) && (len ii =? 0).

Lemma newAEAD_32 s key :
  s = SuiteAESGCM256 ∨ s = SuiteChaCha20Poly1305 → len key = 32 → ∃ a, newAEAD s key = Ok a.
Proof.
  intros [-> | ->] Hk; unfold newAEAD; cbn; rewrite ?Hk.
  - rewrite aes_NewCipher_32 by done. eauto.
  - eauto.
Qed.

(**  newSA checks its key material: it builds a (well-formed) SA exactly when
    every key has the length its suite prescribes (32 + 32 octets per direction for
    AES-CBC, 36 + 0 for the AEAD suites), and otherwise returns an error; the new
    SA has sent nothing, so its first packet is number 1. *)
Theorem newSA_checks s o i oe oi ie ii w :
  is_u32 o → is_u32 i → is_u32 w →
  bytes_ok oe → bytes_ok oi → bytes_ok ie → bytes_ok ii →
  match newSA s o i oe oi ie ii w with
  | Ok sa => keys_fit s oe oi ie ii = true ∧ sa_ok sa ∧ seq sa = 0 ∧
             outSPI sa = o ∧ inSPI sa = i ∧ represents (replay sa) Spec.init
  | Err _ => keys_fit s oe oi ie ii = false
  | _ => False
  end.
Proof.
  intros Ho Hi Hw Hoe Hoi Hie Hii. pose proof (NewReplayWindow_represents w Hw) as Hrep.
  unfold newSA, keys_fit, check_cbc_keys, check_aead_keys, cbcEncrKeyLen, cbcIntegKeyLen,
    aeadEncrKeyLen, aeadSaltLen. change (32 + 4 - 4) with 32. change (32 + 4) with 36.
  destruct (s =? SuiteAESCBC256SHA256) eqn:Hs.
  { destruct (len oe =? 32) eqn:H1, (len oi =? 32) eqn:H2; cbn; try done.
    destruct (len ie =? 32) eqn:H3, (len ii =? 32) eqn:H4; cbn; try done.
    bool_prop. rewrite !aes_NewCipher_32 by done. cbn. split_and!; try done.
    constructor; try done; [left; split; [done|]; cbn; by exists oe, ie|by eexists]. }
  destruct ((s =? SuiteAESGCM256) || (s =? SuiteChaCha20Poly1305)) eqn:Hs'; [|done].
  destruct (len oe =? 36) eqn:H1, (len oi =? 0) eqn:H2; cbn; try done.
  destruct (len ie =? 36) eqn:H3, (len ii =? 0) eqn:H4; cbn; try done. bool_prop.
  assert (Hs2 : s = SuiteAESGCM256 ∨ s = SuiteChaCha20Poly1305).
  { apply orb_true_iff in Hs' as [?|?]; bool_prop; auto. }
  rewrite (slice_ok oe), (slice_ok ie) by lia. cbn [mbind Res_bind].
  destruct (newAEAD_32 s (take (Z.to_nat (32 - 0)) (drop (Z.to_nat 0) oe)) Hs2) as [ao ->]; [len_lia|].
  cbn. destruct (newAEAD_32 s (take (Z.to_nat (32 - 0)) (drop (Z.to_nat 0) ie)) Hs2) as [ai ->]; [len_lia|].
  cbn. rewrite (slice_from_ok oe), (slice_from_ok ie) by lia. cbn. split_and!; try done.
  constructor; try done; [|by eexists].
  right. split; [done|]. exists ao, ai. cbn. split_and!; [done|done|len_lia|len_lia].
Qed.

(** Two ends that exchange SPIs and directional keys fit together: what
    either SA sends, the other can open. *)
Theorem newSA_paired s o i oe oi ie ii w w' sa sb :
  newSA s o i oe oi ie ii w = Ok sa → newSA s i o ie ii oe oi w' = Ok sb →
  paired sa sb ∧ paired sb sa.
Proof.
  unfold newSA. intros Ha Hb. destruct (s =? SuiteAESCBC256SHA256).
  - go_inv. subst. unfold aes_NewCipher in *. go_inv; subst; by repeat split.
  - destruct ((s =? SuiteAESGCM256) || (s =? SuiteChaCha20Poly1305)); [|done].
    go_inv. subst. simplify_eq. repeat split; cbn; congruence.
Qed.

(** ** The sequence counter under concurrency

    Any number of goroutines call Encrypt on one SA.  A caller loads the counter,
    and then either gives up (exhausted), or swaps in the successor of what it
    loaded, or finds that another caller was faster and starts over.  [issued]
    records every sequence number a caller has gone on to use. *)
Module Counter.

Inductive pc :=
| Idle
| Loaded (cur : Z)
| Sending (seq : Z)
| Exhausted.

Record state := {
  counter : Z;
  callers : list pc;
  issued : list Z;
}.

Definition init (n : nat) : state := {| counter := 0; callers := replicate n Idle; issued := [] |}.

Definition set_pc (s : state) (i : nat) (p : pc) : list pc := <[i:=p]> (callers s).

Inductive step (s : state) : state → Prop :=
| Load i :
    callers s !! i = Some Idle →
    step s {| counter := counter s; callers := set_pc s i (Loaded (counter s)); issued := issued s |}
| GiveUp i cur :
    callers s !! i = Some (Loaded cur) → cur = 2 ^ 32 - 1 →
    step s {| counter := counter s; callers := set_pc s i Exhausted; issued := issued s |}
| SwapOk i cur :
    callers s !! i = Some (Loaded cur) → cur ≠ 2 ^ 32 - 1 → counter s = cur →
    step s {| counter := u32 (cur + 1); callers := set_pc s i (Sending (u32 (cur + 1)));
              issued := u32 (cur + 1) :: issued s |}
| SwapLost i cur :
    callers s !! i = Some (Loaded cur) → cur ≠ 2 ^ 32 - 1 → counter s ≠ cur →
    step s {| counter := counter s; callers := set_pc s i Idle; issued := issued s |}
| NextCall i q :
    callers s !! i = Some (Sending q) ∨ callers s !! i = Some Exhausted →
    step s {| counter := counter s; callers := set_pc s i Idle; issued := issued s |}.

(** The numbers issued so far are exactly 1, ..., counter. *)
Record inv (s : state) : Prop := {
  inv_counter : is_u32 (counter s);
  inv_nodup : NoDup (issued s);
  inv_issued : ∀ q, q ∈ issued s ↔ 1 ≤ q ≤ counter s;
}.

Lemma inv_init n : inv (init n).
Proof.
  constructor; cbn.
  - unfold is_u32. lia.
  - constructor.
  - intros q. rewrite elem_of_nil. lia.
Qed.

Lemma inv_step s s' : inv s → step s s' → inv s'.
Proof.
  intros [Hc Hn Hi] Hstep. destruct Hstep; try by constructor.
  unfold is_u32 in Hc. subst cur. rewrite u32_small by (unfold is_u32; lia).
  constructor; cbn [counter issued].
  - unfold is_u32. lia.
  - constructor; [|done]. rewrite Hi. lia.
  - intros q. rewrite elem_of_cons, Hi. lia.
Qed.

Lemma inv_reachable s s' : rtc step s s' → inv s → inv s'.
Proof. induction 1; eauto using inv_step. Qed.

(** The AEAD nonce of the packet with sequence number [q]. *)
Definition nonce (salt : bytes) (q : Z) : bytes := copy (zeros 4) salt ++ put64 q.

Lemma nonce_inj salt q1 q2 : is_u32 q1 → is_u32 q2 → nonce salt q1 = nonce salt q2 → q1 = q2.
Proof.
  unfold nonce, is_u32. intros H1 H2 Heq%app_inv_head. apply (f_equal be_get) in Heq.
  rewrite !be_get_put in Heq. rewrite !Z.mod_small in Heq by lia. done.
Qed.

(** C24. However the calls of any number of goroutines interleave, no two packets
    of an SA ever get the same sequence number, 0 is never used and the counter
    never wraps; hence no AEAD nonce (salt and sequence number) is ever used
    twice under one key. *)
Theorem concurrent_nonces_unique n s salt :
  rtc step (init n) s →
  NoDup (nonce salt <$> issued s) ∧ (∀ q, q ∈ issued s ↔ 1 ≤ q ≤ counter s) ∧
  is_u32 (counter s).
Proof.
  intros Hr. destruct (inv_reachable _ _ Hr (inv_init n)) as [Hc Hn Hi].
  split; [|done]. unfold is_u32 in Hc.
  assert (Hu : Forall is_u32 (issued s)).
  { apply Forall_forall. intros q Hq%list_elem_of_In. apply Hi in Hq. unfold is_u32. lia. }
  clear Hi Hc Hr. induction Hn as [|q l Hq Hn IH]; cbn [fmap list_fmap]; [constructor|].
  apply Forall_cons_iff in Hu as [Hq' Hu]. constructor; [|by apply IH].
  intros (q' & Heq & Hin)%list_elem_of_fmap. apply nonce_inj in Heq; [by subst|done|].
  eapply (proj1 (Forall_forall _ _)); [exact Hu|]. by apply list_elem_of_In.
Qed.

Lemma concurrent_nonces_unique_witness :
  ∃ s, issued s = [2; 1] ∧ callers s = [Sending 2; Sending 1] ∧
       NoDup (nonce [9; 9; 9; 9] <$> issued s).
Proof.
  set (s1 := {| counter := 0; callers := [Loaded 0; Idle]; issued := [] |}).
  set (s2 := {| counter := 0; callers := [Loaded 0; Loaded 0]; issued := [] |}).
  set (s3 := {| counter := 1; callers := [Loaded 0; Sending 1]; issued := [1] |}).
  set (s4 := {| counter := 1; callers := [Idle; Sending 1]; issued := [1] |}).
  set (s5 := {| counter := 1; callers := [Loaded 1; Sending 1]; issued := [1] |}).
  set (s6 := {| counter := 2; callers := [Sending 2; Sending 1]; issued := [2; 1] |}).
  exists s6. split; [done|]. split; [done|]. apply (concurrent_nonces_unique 2 s6).
  eapply (rtc_l _ _ s1); [by apply (Load (init 2) 0)|].
  eapply (rtc_l _ _ s2); [by apply (Load s1 1)|].
  eapply (rtc_l _ _ s3); [by apply (SwapOk s2 1 0)|].
  eapply (rtc_l _ _ s4); [by apply (SwapLost s3 0 0)|].
  eapply (rtc_l _ _ s5); [by apply (Load s4 0)|].
  eapply (rtc_l _ _ s6); [by apply (SwapOk s5 0 1)|]. apply rtc_refl.
Defined.

End Counter.

(** ** Witnesses *)

Definition sample_keys (k : Z) (n : nat) : bytes := replicate n k.

Lemma sample_keys_ok k n : byte_ok k → bytes_ok (sample_keys k n).
Proof. intros. by apply Forall_replicate. Qed.

Definition sample_newSA (s o i k1 k2 : Z) : Res esp_error SA :=
  if s =? SuiteAESCBC256SHA256
  then newSA s o i (sample_keys k1 32) (sample_keys k1 32) (sample_keys k2 32) (sample_keys k2 32) 64
  else newSA s o i (sample_keys k1 36) [] (sample_keys k2 36) [] 64.

Lemma newSA_checks_witness :
  match sample_newSA SuiteAESGCM256 17 34 1 2 with
  | Ok sa => sa_ok sa ∧ seq sa = 0
  | _ => False
  end.
Proof.
  pose proof (newSA_checks SuiteAESGCM256 17 34 (sample_keys 1 36) [] (sample_keys 2 36) [] 64
    ltac:(done) ltac:(done) ltac:(done) ltac:(by apply sample_keys_ok) ltac:(constructor)
    ltac:(by apply sample_keys_ok) ltac:(constructor)) as H.
  unfold sample_newSA. cbn [Z.eqb SuiteAESGCM256 SuiteAESCBC256SHA256].
  destruct (newSA _ _ _ _ _ _ _ _); [|done..]. tauto.
Defined.

Lemma newSA_paired_witness :
  match sample_newSA SuiteAESCBC256SHA256 17 34 1 2, sample_newSA SuiteAESCBC256SHA256 34 17 2 1 with
  | Ok sa, Ok sb => paired sa sb ∧ paired sb sa
  | _, _ => False
  end.
Proof.
  destruct (sample_newSA SuiteAESCBC256SHA256 17 34 1 2) as [sa| | |] eqn:Ha; [|by vm_compute in Ha..].
  destruct (sample_newSA SuiteAESCBC256SHA256 34 17 2 1) as [sb| | |] eqn:Hb; [|by vm_compute in Hb..].
  exact (newSA_paired SuiteAESCBC256SHA256 17 34 (sample_keys 1 32) (sample_keys 1 32)
    (sample_keys 2 32) (sample_keys 2 32) 64 64 sa sb Ha Hb).
Defined.

(** A well-formed pair of AES-GCM SAs, with the facts the witnesses need. *)
Definition sample_SA (o i k1 k2 : Z) : SA :=
  {| suite := SuiteAESGCM256; outSPI := o; inSPI := i; outBlock := None; inBlock := None;
     outInteg := []; inInteg := [];
     outAEAD := Some {| aead_kind := AES_GCM; aead_key := sample_keys k1 32 |};
     inAEAD := Some {| aead_kind := AES_GCM; aead_key := sample_keys k2 32 |};
     outSalt := sample_keys k1 4; inSalt := sample_keys k2 4; seq := 0;
     replay := NewReplayWindow 64 |}.

Lemma sample_SA_ok o i k1 k2 : is_u32 o → is_u32 i → sa_ok (sample_SA o i k1 k2).
Proof.
  intros. constructor; try done.
  - right. split; [by left|]. by do 2 eexists.
  - exists Spec.init. by apply NewReplayWindow_represents.
Qed.

Lemma Encrypt_Decrypt_stream_witness :
  let msgs := [([0x45; 1; 2; 3], sample_keys 7 16); ([0x60; 9], sample_keys 8 16)] in
  (transfer (P:=toy_primitives) (sample_SA 17 34 1 2) (sample_SA 34 17 2 1) msgs).2 =
  [Ok [0x45; 1; 2; 3]; Ok [0x60; 9]].
Proof.
  intros msgs. apply (Encrypt_Decrypt_stream (HL:=toy_laws) (sample_SA 17 34 1 2)
    (sample_SA 34 17 2 1) Spec.init msgs).
  - by apply sample_SA_ok.
  - done.
  - by apply NewReplayWindow_represents.
  - done.
  - repeat constructor; done.
  - done.
Defined.

Lemma Decrypt_authenticates_witness :
  let pkt := put32 34 ++ put32 1 ++ put64 1 ++ zeros 20 in
  let res := Decrypt (P:=toy_primitives) pkt (sample_SA 17 34 1 2) in
  res.2 = Err ErrAEADAuth ∧ sa_ok res.1.
Proof.
  intros pkt res. split; [reflexivity|].
  apply (Decrypt_authenticates (HL:=toy_laws) (sample_SA 17 34 1 2) res.1 pkt res.2).
  - by apply sample_SA_ok.
  - unfold pkt. bytes_tac.
  - apply surjective_pairing.
Defined.
