(* ===== verification/IkeSA.v ===== *)
(** * The IKE SA (internal/ikesa: crypto.go, keys.go, child.go, dh.go)

    Diffie-Hellman, the key schedule (SKEYSEED and prf+), the SK envelope that
    protects every IKE message after IKE_SA_INIT, and the key material of Child
    SAs.  secretmem.Do is transparent: it runs its argument once. *)

From Stdlib Require Import Zpow_facts.
From S2P Require Import Prelude Crypto.

(** ** Constants, errors, state *)

Definition prfKeyLen := 32.
Definition integKeyLen := 32.
Definition integICVLen := 16.
Definition encrKeyLen := 32.
Definition aesBlock := aes_block.
Definition aeadIVLen := 8.
Definition aeadSaltLen := 4.
Definition aeadTagLen := 16.
Definition aeadEncrKeyLen := 32 + aeadSaltLen.
Definition ikeHdrLen := 28.
Definition genericHdrLen := 4.
Definition minNonceLen := 16.

Inductive ike_error :=
| ErrNotAEAD (suite : Z)
| ErrIkeCipher
| ErrIkeRand
| ErrPlainUnaligned
| ErrCTShort
| ErrCTUnaligned
| ErrNonceShort
| ErrEmptyDH
| ErrEmptySKd
| ErrSKFinalizeShort
| ErrSKShort
| ErrSKAuth
| ErrSKICV
| ErrSKPad
| ErrMsgShort
| ErrDHGroup (group : Z)
| ErrDHRand
| ErrDHLen
| ErrDHRange
| ErrX25519.

Inductive Role := Initiator | Responder.

#[export] Instance Role_eq_dec : EqDecision Role.
Proof. solve_decision. Defined.

Definition SuiteAESCBC256SHA256 := 0.
Definition SuiteAESGCM256 := 1.
Definition SuiteChaCha20Poly1305 := 2.

Definition aead (s : Z) : bool := (s =? SuiteAESGCM256) || (s =? SuiteChaCha20Poly1305).

(** (encr, integ) *)
Definition keyLens (s : Z) : Z * Z :=
  if aead s then (aeadEncrKeyLen, 0) else (encrKeyLen, integKeyLen).

Record IKESA := {
  ike_Role : Role;
  ike_Suite : Z;
  ike_InitiatorSPI : Z;
  ike_ResponderSPI : Z;
  SKd : bytes;
  SKai : bytes;
  SKar : bytes;
  SKei : bytes;
  SKer : bytes;
  SKpi : bytes;
  SKpr : bytes;
  ike_outAEAD : option AEAD;
  ike_inAEAD : option AEAD;
  ike_outSalt : bytes;
  ike_inSalt : bytes;
  skSeq : Z;
}.

Definition with_skSeq (s : IKESA) (v : Z) : IKESA :=
  {| ike_Role := ike_Role s; ike_Suite := ike_Suite s; ike_InitiatorSPI := ike_InitiatorSPI s;
     ike_ResponderSPI := ike_ResponderSPI s; SKd := SKd s; SKai := SKai s; SKar := SKar s;
     SKei := SKei s; SKer := SKer s; SKpi := SKpi s; SKpr := SKpr s;
     ike_outAEAD := ike_outAEAD s; ike_inAEAD := ike_inAEAD s; ike_outSalt := ike_outSalt s;
     ike_inSalt := ike_inSalt s; skSeq := v |}.

Definition outboundIntegKey (s : IKESA) : bytes :=
  match ike_Role s with Initiator => SKai s | Responder => SKar s end.
Definition inboundIntegKey (s : IKESA) : bytes :=
  match ike_Role s with Initiator => SKar s | Responder => SKai s end.
Definition outboundEncrKey (s : IKESA) : bytes :=
  match ike_Role s with Initiator => SKei s | Responder => SKer s end.
Definition inboundEncrKey (s : IKESA) : bytes :=
  match ike_Role s with Initiator => SKer s | Responder => SKei s end.

Definition newAEAD (s : Z) (key : bytes) : Res ike_error AEAD :=
  if s =? SuiteAESGCM256 then
    b ← aes_NewCipher ErrIkeCipher key; Ok {| aead_kind := AES_GCM; aead_key := b |}
  else if s =? SuiteChaCha20Poly1305 then
    if len key =? 32 then Ok {| aead_kind := CHACHA20_POLY1305; aead_key := key |}
    else Err ErrIkeCipher
  else Err (ErrNotAEAD s).

Definition appendUint64 (b : bytes) (v : Z) : bytes := b ++ put64 v.

(** The closure [take] of the key schedules: the next n octets of the stream. *)
Definition take_key (ks : bytes) (off n : Z) : Res ike_error (bytes * Z) :=
  b ← slice ks off (off + n); Ok (b, off + n).

Section ikesa.
Context {P : Primitives}.

(** ** PRF and prf+ (crypto.go) *)

Definition prf (key data : bytes) : bytes := hmac_sha256 key data.

(** for i := 1; len(out) < keyLen; i++: at i = 256 the guard panics, so 256
    iterations of fuel are always enough. *)
Fixpoint prfPlus_loop (fuel : nat) (key seed : bytes) (keyLen i : Z) (prev out : bytes)
    : Res ike_error bytes :=
  if len out <? keyLen then
    match fuel with
    | O => Hang
    | S fuel' =>
        if i >? 255 then Panic
        else
          let prev := hmac_sha256 key (prev ++ seed ++ [u8 i]) in
          prfPlus_loop fuel' key seed keyLen (i + 1) prev (out ++ prev)
    end
  else slice out 0 keyLen.

Definition prfPlus (key seed : bytes) (keyLen : Z) : Res ike_error bytes :=
  prfPlus_loop 256 key seed keyLen 1 [] [].

Definition integ (key data : bytes) : Res ike_error bytes :=
  slice (hmac_sha256 key data) 0 integICVLen.

(** [iv] is what the random reader delivers. *)
Definition aesCBCEncrypt (key plaintext : bytes) (iv : option bytes) : Res ike_error bytes :=
  if negb (len plaintext mod aesBlock =? 0) then Err ErrPlainUnaligned
  else
    block ← aes_NewCipher ErrIkeCipher key;
    iv ← match iv with Some iv => Ok iv | None => Err ErrIkeRand end;
    Ok (iv ++ cbc_encrypt block iv plaintext).

Definition aesCBCDecrypt (key ivAndCT : bytes) : Res ike_error bytes :=
  if len ivAndCT <? aesBlock then Err ErrCTShort
  else
    iv ← slice ivAndCT 0 aesBlock;
    ct ← slice_from ivAndCT aesBlock;
    if (len ct =? 0) || negb (len ct mod aesBlock =? 0) then Err ErrCTUnaligned
    else
      block ← aes_NewCipher ErrIkeCipher key;
      Ok (cbc_decrypt block iv ct).

(** ** The key schedule (keys.go) *)

Definition deriveFromSKEYSEED (suite : Z) (role : Role) (spii spir : Z)
    (nonceI nonceR skeyseed : bytes) : Res ike_error IKESA :=
  let seed := appendUint64 (appendUint64 (nonceI ++ nonceR) spii) spir in
  let '(encrLen, integLen) := keyLens suite in
  let total := prfKeyLen + 2 * integLen + 2 * encrLen + 2 * prfKeyLen in
  ks ← prfPlus skeyseed seed total;
  '(d, off) ← take_key ks 0 prfKeyLen;
  '(ai, off) ← take_key ks off integLen;
  '(ar, off) ← take_key ks off integLen;
  '(ei, off) ← take_key ks off encrLen;
  '(er, off) ← take_key ks off encrLen;
  '(pi, off) ← take_key ks off prfKeyLen;
  '(pr, off) ← take_key ks off prfKeyLen;
  let s := {| ike_Role := role; ike_Suite := suite; ike_InitiatorSPI := spii;
              ike_ResponderSPI := spir; SKd := d; SKai := ai; SKar := ar; SKei := ei;
              SKer := er; SKpi := pi; SKpr := pr; ike_outAEAD := None; ike_inAEAD := None;
              ike_outSalt := []; ike_inSalt := []; skSeq := 0 |} in
  if negb (aead suite) then Ok s
  else
    let out := outboundEncrKey s in
    let in_ := inboundEncrKey s in
    ok ← slice out 0 (encrLen - aeadSaltLen);
    oa ← newAEAD suite ok;
    ik ← slice in_ 0 (encrLen - aeadSaltLen);
    ia ← newAEAD suite ik;
    osalt ← slice_from out (encrLen - aeadSaltLen);
    isalt ← slice_from in_ (encrLen - aeadSaltLen);
    Ok {| ike_Role := role; ike_Suite := suite; ike_InitiatorSPI := spii;
          ike_ResponderSPI := spir; SKd := d; SKai := ai; SKar := ar; SKei := ei;
          SKer := er; SKpi := pi; SKpr := pr; ike_outAEAD := Some oa; ike_inAEAD := Some ia;
          ike_outSalt := osalt; ike_inSalt := isalt; skSeq := 0 |}.

Definition Derive (suite : Z) (role : Role) (spii spir : Z) (nonceI nonceR dhShared : bytes)
    : Res ike_error IKESA :=
  if (len nonceI <? minNonceLen) || (len nonceR <? minNonceLen) then Err ErrNonceShort
  else if len dhShared =? 0 then Err ErrEmptyDH
  else
    let skeyseed := prf (nonceI ++ nonceR) dhShared in
    deriveFromSKEYSEED suite role spii spir nonceI nonceR skeyseed.

Definition DeriveRekeyIKE (suite : Z) (oldSKd : bytes) (role : Role) (spii spir : Z)
    (nonceI nonceR dhShared : bytes) : Res ike_error IKESA :=
  if len oldSKd =? 0 then Err ErrEmptySKd
  else if (len nonceI <? minNonceLen) || (len nonceR <? minNonceLen) then Err ErrNonceShort
  else if len dhShared =? 0 then Err ErrEmptyDH
  else
    let skeyseed := prf oldSKd (dhShared ++ nonceI ++ nonceR) in
    deriveFromSKEYSEED suite role spii spir nonceI nonceR skeyseed.

(** ** The SK envelope (keys.go) *)

(** for i := 1; i <= padLen; i++ { padded = append(padded, byte(i)) } *)
Fixpoint sk_pad (i : Z) (n : nat) : bytes :=
  match n with
  | O => []
  | S n' => u8 i :: sk_pad (i + 1) n'
  end.

Definition EncryptToSK (plaintext : bytes) (iv : option bytes) : ST IKESA ike_error bytes :=
  s ← getS;
  if aead (ike_Suite s) then
    let seq := u64 (skSeq s + 1) in
    _ ← putS (with_skSeq s seq);
    mret (put64 seq ++ plaintext ++ [0] ++ zeros (Z.to_nat aeadTagLen))
  else
    let padLen := (aesBlock - (len plaintext + 1) mod aesBlock) mod aesBlock in
    let padded := plaintext ++ sk_pad 1 (Z.to_nat padLen) ++ [u8 padLen] in
    ivCT ← lift (aesCBCEncrypt (outboundEncrKey s) padded iv);
    mret (ivCT ++ zeros (Z.to_nat integICVLen)).

(** The message with its trailing ICV octets overwritten. *)
Definition checksum (s : IKESA) (msg : bytes) : Res ike_error bytes :=
  if len msg <? integICVLen then Err ErrMsgShort
  else
    body ← slice msg 0 (len msg - integICVLen);
    mac ← integ (outboundIntegKey s) body;
    Ok (body ++ mac).

Definition verifyChecksum (s : IKESA) (msg : bytes) : Res ike_error bool :=
  if len msg <? integICVLen then Ok false
  else
    want ← slice_from msg (len msg - integICVLen);
    body ← slice msg 0 (len msg - integICVLen);
    got ← integ (inboundIntegKey s) body;
    Ok (bool_decide (want = got)).

(** FinalizeSK works in place; the model returns the finished message. *)
Definition FinalizeSK (s : IKESA) (raw : bytes) (skDataLen : Z) : Res ike_error bytes :=
  if negb (aead (ike_Suite s)) then checksum s raw
  else
    let skStart := len raw - skDataLen in
    if (skStart <? ikeHdrLen + genericHdrLen) || (skDataLen <? aeadIVLen + 1 + aeadTagLen)
    then Err ErrSKFinalizeShort
    else
      iv ← slice raw skStart (skStart + aeadIVLen);
      pt ← slice raw (skStart + aeadIVLen) (len raw - aeadTagLen);
      aad ← slice raw 0 skStart;
      a ← deref (ike_outAEAD s);
      keep ← slice raw 0 (skStart + aeadIVLen);
      Ok (keep ++ aead_seal a (ike_outSalt s ++ iv) pt aad).

(** padded[:len(padded)-padLen-1], shared by both branches. *)
Definition strip_pad (padded : bytes) : Res ike_error bytes :=
  padLen ← index padded (len padded - 1);
  if padLen + 1 >? len padded then Err ErrSKPad
  else slice padded 0 (len padded - padLen - 1).

Definition decryptSK (s : IKESA) (skData : bytes) : Res ike_error bytes :=
  if len skData <? integICVLen + aesBlock then Err ErrSKShort
  else
    ivCT ← slice skData 0 (len skData - integICVLen);
    padded ← aesCBCDecrypt (inboundEncrKey s) ivCT;
    strip_pad padded.

(** (icvOK, plaintext or error) *)
Definition OpenSK (s : IKESA) (raw skData : bytes) : bool * Res ike_error bytes :=
  if aead (ike_Suite s) then
    let skStart := len raw - len skData in
    if (skStart <? ikeHdrLen + genericHdrLen) || (len skData <? aeadIVLen + 1 + aeadTagLen)
    then (false, Err ErrSKShort)
    else
      match (iv ← slice skData 0 aeadIVLen;
             ct ← slice_from skData aeadIVLen;
             aad ← slice raw 0 skStart;
             a ← deref (ike_inAEAD s);
             Ok (aead_open a (ike_inSalt s ++ iv) ct aad)) with
      | Ok None => (false, Err ErrSKAuth)
      | Ok (Some padded) => (true, strip_pad padded)
      | Err e => (false, Err e)
      | Panic => (false, Panic)
      | Hang => (false, Hang)
      end
  else
    match verifyChecksum s raw with
    | Ok true => (true, decryptSK s skData)
    | Ok false => (false, Err ErrSKICV)
    | Err e => (false, Err e)
    | Panic => (false, Panic)
    | Hang => (false, Hang)
    end.

(** ** Child SA keys (child.go) *)

Record ChildKeys := {
  EncrIR : bytes;
  IntegIR : bytes;
  EncrRI : bytes;
  IntegRI : bytes;
}.

Definition deriveChildKeys (s : IKESA) (dhShared nonceI nonceR : bytes) (encrLen integLen : Z)
    : Res ike_error ChildKeys :=
  let seed := dhShared ++ nonceI ++ nonceR in
  ks ← prfPlus (SKd s) seed (2 * (encrLen + integLen));
  '(eir, off) ← take_key ks 0 encrLen;
  '(iir, off) ← take_key ks off integLen;
  '(eri, off) ← take_key ks off encrLen;
  '(iri, off) ← take_key ks off integLen;
  Ok {| EncrIR := eir; IntegIR := iir; EncrRI := eri; IntegRI := iri |}.

Definition DeriveChildKeys (s : IKESA) (nonceI nonceR : bytes) (encrLen integLen : Z) :=
  deriveChildKeys s [] nonceI nonceR encrLen integLen.

Definition DeriveChildKeysPFS (s : IKESA) (dhShared nonceI nonceR : bytes) (encrLen integLen : Z) :=
  deriveChildKeys s dhShared nonceI nonceR encrLen integLen.

(** ** Diffie-Hellman (dh.go) *)

Definition DHGroup14 := 14.
Definition DHGroup31 := 31.
Definition x25519Len := 32.
Definition modp2048Len := 256.
Definition modp2048P : Z := 0xFFFFFFFFFFFFFFFFC90FDAA22168C234C4C6628B80DC1CD129024E088A67CC74020BBEA63B139B22514A08798E3404DDEF9519B3CD3A431B302B0A6DF25F14374FE1356D6D51C245E485B576625E7EC6F44C42E9A637ED6B0BFF5CB6F406B7EDEE386BFB5A899FA5AE9F24117C4B1FE649286651ECE45B3DC2007CB8A163BF0598DA48361C55D39A69163FA8FD24CF5F83655D23DCA3AD961C62F356208552BB9ED529077096966D670C354E4ABC9804F1746C08CA18217C32905E462E36CE3BE39E772C180E86039B2783A2EC07A28FB5C55DF06F4C52C9DE2BCBF6955817183995497CEA956AE515D2261898FA051015728E5A8AACAA68FFFFFFFFFFFFFFFF.
Definition modp2048G : Z := 2.
Definition modp2048PMinus2 : Z := modp2048P - 2.

(** big.Int.Exp(x, y, m) for y > 0, by repeated squaring *)
Definition Exp (x y m : Z) : Z := Zpow_mod x y m.

(** big.Int.Bytes: the minimal big-endian representation *)
Definition Bytes (x : Z) : bytes :=
  if x =? 0 then [] else be_put (Z.to_nat (Z.log2 x / 8 + 1)) x.

Definition leftPad (b : bytes) (n : Z) : bytes :=
  if len b >=? n then b else zeros (Z.to_nat (n - len b)) ++ b.

Inductive dh_private := PrivModp (x : Z) | PrivX25519 (k : bytes).

Record DH := {
  dh_Group : Z;
  dh_Public : bytes;
  dh_priv : dh_private;
}.

(** What the random reader delivers: for group 14 the integer rand.Int draws
    below p - 3, for group 31 the private key. *)
Inductive dh_random := RandInt (n : Z) | RandKey (k : bytes) | RandFail.

Definition newDH (group : Z) (r : dh_random) : Res ike_error DH :=
  if group =? DHGroup14 then
    match r with
    | RandInt n =>
        let priv := n + 2 in
        let pub := Exp modp2048G priv modp2048P in
        Ok {| dh_Group := group; dh_Public := leftPad (Bytes pub) modp2048Len;
              dh_priv := PrivModp priv |}
    | _ => Err ErrDHRand
    end
  else if group =? DHGroup31 then
    match r with
    | RandKey k =>
        Ok {| dh_Group := group; dh_Public := x25519_public k; dh_priv := PrivX25519 k |}
    | _ => Err ErrDHRand
    end
  else Err (ErrDHGroup group).

Definition shared (d : DH) (peerPublic : bytes) : Res ike_error bytes :=
  if dh_Group d =? DHGroup14 then
    if negb (len peerPublic =? modp2048Len) then Err ErrDHLen
    else
      let peer := be_get peerPublic in
      if (peer <=? 1) || (peer >? modp2048PMinus2) then Err ErrDHRange
      else
        match dh_priv d with
        | PrivModp x => Ok (leftPad (Bytes (Exp peer x modp2048P)) modp2048Len)
        | PrivX25519 _ => Panic
        end
  else if dh_Group d =? DHGroup31 then
    if negb (len peerPublic =? x25519Len) then Err ErrX25519
    else
      match dh_priv d with
      | PrivX25519 k =>
          match x25519_ecdh k peerPublic with
          | Some s => Ok s
          | None => Err ErrX25519
          end
      | PrivModp _ => Panic
      end
  else Err (ErrDHGroup (dh_Group d)).

End ikesa.

(** ** prf+ against RFC 7296 section 2.13 *)

Section proofs.
Context `{HL : PrimitiveLaws}.

(** T(i) | T(i+1) | ... , n blocks of it, given the block before T(i). *)
Fixpoint prf_stream (n : nat) (key seed : bytes) (i : Z) (prev : bytes) : bytes :=
  match n with
  | O => []
  | S n' =>
      let t := prf key (prev ++ seed ++ [i]) in
      t ++ prf_stream n' key seed (i + 1) t
  end.

Lemma len_prf_stream n key seed i prev : len (prf_stream n key seed i prev) = 32 * Z.of_nat n.
Proof using HL.
  revert i prev. induction n as [|n IH]; intros i prev; [done|].
  cbn [prf_stream]. rewrite len_app, IH. unfold prf. rewrite hmac_len. lia.
Qed.

Lemma prf_stream_bytes n key seed i prev : bytes_ok (prf_stream n key seed i prev).
Proof using HL.
  revert i prev. induction n as [|n IH]; intros i prev; [constructor|].
  cbn [prf_stream]. apply bytes_ok_app. split; [apply hmac_bytes|apply IH].
Qed.

Lemma prfPlus_loop_eq n key seed keyLen i prev out :
  1 ≤ i → i + Z.of_nat n = 257 → 0 ≤ keyLen → (1 ≤ n)%nat →
  keyLen ≤ len out + 32 * (Z.of_nat n - 1) →
  prfPlus_loop n key seed keyLen i prev out =
  Ok (take (Z.to_nat keyLen) (out ++ prf_stream (n - 1) key seed i prev)).
Proof using HL.
  revert i prev out. induction n as [|n IH]; intros i prev out Hi Hn Hk H1 Hl; [lia|].
  cbn [prfPlus_loop]. destruct (len out <? keyLen) eqn:Hlt; bool_prop.
  - go_if. destruct n as [|n]; [lia|]. rewrite u8_small by (unfold is_u8; lia).
    rewrite IH; [|lia..|].
    + replace (S (S n) - 1)%nat with (S (S n - 1))%nat by lia. cbn [prf_stream]. unfold prf.
      by rewrite <- app_assoc.
    + rewrite len_app, hmac_len. lia.
  - rewrite slice_ok by lia. rewrite Z.sub_0_r. change (Z.to_nat 0) with 0%nat.
    rewrite drop_0, take_app_le by (unfold len in *; lia). done.
Qed.

Lemma prfPlus_eq key seed keyLen :
  0 ≤ keyLen ≤ 255 * 32 →
  prfPlus key seed keyLen = Ok (take (Z.to_nat keyLen) (prf_stream 255 key seed 1 [])).
Proof using HL. intros. apply (prfPlus_loop_eq 256); rewrite ?len_nil; lia. Qed.

Lemma prfPlus_loop_panics n key seed keyLen i prev out :
  1 ≤ i → i + Z.of_nat n = 257 → (1 ≤ n)%nat →
  len out + 32 * (Z.of_nat n - 1) < keyLen →
  prfPlus_loop n key seed keyLen i prev out = Panic.
Proof using HL.
  revert i prev out. induction n as [|n IH]; intros i prev out Hi Hn H1 Hl; [lia|].
  cbn [prfPlus_loop]. go_if. destruct n as [|n].
  - by go_if.
  - go_if. apply IH; [lia..|]. rewrite len_app, hmac_len. lia.
Qed.

(**  prf+ returns the first keyLen octets of the RFC 7296 stream
    T1 | T2 | ..., with T1 = prf(K, S | 0x01) and Tn = prf(K, T(n-1) | S | n), for
    every length up to the 255 blocks a one-octet counter can number; past that
    the guard stops it, so the counter octet is never reused. *)
Theorem prfPlus_spec key seed keyLen :
  0 ≤ keyLen →
  prfPlus key seed keyLen =
  if keyLen <=? 255 * 32 then Ok (take (Z.to_nat keyLen) (prf_stream 255 key seed 1 []))
  else Panic.
Proof using HL.
  intros. destruct (keyLen <=? 255 * 32) eqn:Hk; bool_prop.
  - by apply prfPlus_eq.
  - apply (prfPlus_loop_panics 256); rewrite ?len_nil; lia.
Qed.

(** ** The key schedule *)

Record ike_ok (s : IKESA) : Prop := {
  io_SKd : len (SKd s) = 32 ∧ bytes_ok (SKd s);
  io_SKp : len (SKpi s) = 32 ∧ len (SKpr s) = 32;
  io_SKa : len (SKai s) = (keyLens (ike_Suite s)).2 ∧ len (SKar s) = (keyLens (ike_Suite s)).2;
  io_SKe : len (SKei s) = (keyLens (ike_Suite s)).1 ∧ len (SKer s) = (keyLens (ike_Suite s)).1;
  io_SKe_bytes : bytes_ok (SKei s) ∧ bytes_ok (SKer s);
  io_aead : aead (ike_Suite s) = true →
    ∃ ao ai, ike_outAEAD s = Some ao ∧ ike_inAEAD s = Some ai ∧
      len (ike_outSalt s) = 4 ∧ len (ike_inSalt s) = 4;
}.

(** What [s] protects, [s'] can open. *)
Record ike_paired (s s' : IKESA) : Prop := {
  ip_suite : ike_Suite s = ike_Suite s';
  ip_integ : outboundIntegKey s = inboundIntegKey s';
  ip_encr : outboundEncrKey s = inboundEncrKey s';
  ip_aead : ike_outAEAD s = ike_inAEAD s';
  ip_salt : ike_outSalt s = ike_inSalt s';
}.

Definition sub (b : bytes) (off n : Z) : bytes := take (Z.to_nat n) (drop (Z.to_nat off) b).

Lemma len_sub b off n : 0 ≤ off → 0 ≤ n → off + n ≤ len b → len (sub b off n) = n.
Proof. intros. unfold sub. len_lia. Qed.

Lemma sub_bytes b off n : bytes_ok b → bytes_ok (sub b off n).
Proof. unfold sub. auto with go. Qed.

Lemma take_key_ok ks off n :
  0 ≤ off → 0 ≤ n → off + n ≤ len ks → take_key ks off n = Ok (sub ks off n, off + n).
Proof.
  intros. unfold take_key. rewrite slice_ok by lia. cbn. unfold sub. by rewrite Z.add_simpl_l.
Qed.

Lemma keyLens_cases s :
  aead s = true ∧ keyLens s = (36, 0) ∨ aead s = false ∧ keyLens s = (32, 32).
Proof. unfold keyLens. destruct (aead s); auto. Qed.

Lemma newAEAD_total s key :
  aead s = true → len key = 32 →
  newAEAD s key = Ok {| aead_kind := if s =? SuiteAESGCM256 then AES_GCM else CHACHA20_POLY1305;
                        aead_key := key |}.
Proof.
  unfold aead, newAEAD. intros Hs Hk. destruct (s =? SuiteAESGCM256).
  - by rewrite aes_NewCipher_32.
  - cbn in Hs. rewrite Hs. by rewrite Hk.
Qed.

Lemma prfPlus_total key seed n :
  0 ≤ n ≤ 255 * 32 → ∃ ks, prfPlus key seed n = Ok ks ∧ len ks = n ∧ bytes_ok ks.
Proof using HL.
  intros Hn. pose proof (len_prf_stream 255 key seed 1 []) as Hl.
  pose proof (prf_stream_bytes 255 key seed 1 []) as Hb.
  rewrite prfPlus_eq by lia. eexists. split; [reflexivity|].
  split; [len_lia|auto with go].
Qed.

(** The schedule from a given SKEYSEED: both roles succeed, and mirror. *)
Lemma derive_mirror suite spii spir nonceI nonceR skeyseed :
  ∃ si sr,
    deriveFromSKEYSEED suite Initiator spii spir nonceI nonceR skeyseed = Ok si ∧
    deriveFromSKEYSEED suite Responder spii spir nonceI nonceR skeyseed = Ok sr ∧
    (ike_ok si ∧ ike_ok sr) ∧ (ike_paired si sr ∧ ike_paired sr si) ∧
    SKd si = SKd sr ∧ SKpi si = SKpi sr ∧ SKpr si = SKpr sr ∧
    (ike_Suite si = suite ∧ ike_Role si = Initiator ∧ ike_Role sr = Responder).
Proof using HL.
  unfold deriveFromSKEYSEED, prfKeyLen, aeadSaltLen.
  set (seed := appendUint64 _ spir).
  destruct (keyLens_cases suite) as [[Ha Hk]|[Ha Hk]]; rewrite Hk, Ha.
  - destruct (prfPlus_total skeyseed seed (32 + 2 * 0 + 2 * 36 + 2 * 32)) as (ks & -> & Hkl & Hkb); [lia|].
    cbn [mbind Res_bind negb].
    repeat (rewrite take_key_ok by lia; cbn [mbind Res_bind]).
    cbn [outboundEncrKey inboundEncrKey ike_Role SKei SKer].
    set (ei := sub ks (0 + 32 + 0 + 0) 36). set (er := sub ks (0 + 32 + 0 + 0 + 36) 36).
    assert (len ei = 36) by (apply len_sub; lia). assert (len er = 36) by (apply len_sub; lia).
    assert (bytes_ok ei) by (by apply sub_bytes). assert (bytes_ok er) by (by apply sub_bytes).
    change (36 - 4) with 32.
    rewrite !(slice_ok ei), !(slice_ok er), !(slice_from_ok ei), !(slice_from_ok er) by lia.
    cbn [mbind Res_bind]. rewrite !newAEAD_total by (done || len_lia). cbn [mbind Res_bind].
    do 2 eexists. do 2 (split; [reflexivity|]).
    split; [split; constructor; cbn; rewrite ?Hk; cbn; rewrite ?len_sub by lia; try done;
      auto using sub_bytes; intros _; do 2 eexists; split_and!; try done; len_lia|].
    by repeat split.
  - destruct (prfPlus_total skeyseed seed (32 + 2 * 32 + 2 * 32 + 2 * 32)) as (ks & -> & Hkl & Hkb); [lia|].
    cbn [mbind Res_bind negb].
    repeat (rewrite take_key_ok by lia; cbn [mbind Res_bind]).
    do 2 eexists. do 2 (split; [reflexivity|]).
    split; [split; constructor; cbn; rewrite ?Hk; cbn; rewrite ?len_sub by lia; try done;
      auto using sub_bytes; by rewrite Ha|].
    by repeat split.
Qed.


(** C28. Both ends of a key exchange derive the same IKE SA, from IKE_SA_INIT and
    from an IKE rekey alike: given the same nonces (at least 16 octets), SPIs and
    shared secret, the initiator's and the responder's derivations succeed, agree on
    SK_d, SK_pi and SK_pr, and have mirrored directional keys, so that each end opens
    exactly what the other protects; all keys have their suite's lengths. *)
Theorem Derive_agree suite spii spir nonceI nonceR dh oldSKd :
  16 ≤ len nonceI → 16 ≤ len nonceR → dh ≠ [] → oldSKd ≠ [] →
  (∃ si sr,
    Derive suite Initiator spii spir nonceI nonceR dh = Ok si ∧
    Derive suite Responder spii spir nonceI nonceR dh = Ok sr ∧
    (ike_ok si ∧ ike_ok sr) ∧ (ike_paired si sr ∧ ike_paired sr si) ∧
    SKd si = SKd sr ∧ SKpi si = SKpi sr ∧ SKpr si = SKpr sr) ∧
  (∃ si sr,
    DeriveRekeyIKE suite oldSKd Initiator spii spir nonceI nonceR dh = Ok si ∧
    DeriveRekeyIKE suite oldSKd Responder spii spir nonceI nonceR dh = Ok sr ∧
    (ike_ok si ∧ ike_ok sr) ∧ (ike_paired si sr ∧ ike_paired sr si) ∧
    SKd si = SKd sr ∧ SKpi si = SKpi sr ∧ SKpr si = SKpr sr).
Proof using HL.
  intros Hi Hr Hdh Hold. unfold Derive, DeriveRekeyIKE, minNonceLen.
  assert (0 < len dh) by (destruct dh; [done|len_lia]).
  assert (0 < len oldSKd) by (destruct oldSKd; [done|len_lia]).
  split; repeat go_if.
  - destruct (derive_mirror suite spii spir nonceI nonceR (prf (nonceI ++ nonceR) dh))
      as (si & sr & Hsi & Hsr & ? & ? & ? & ? & ? & _). eauto 12.
  - destruct (derive_mirror suite spii spir nonceI nonceR (prf oldSKd (dh ++ nonceI ++ nonceR)))
      as (si & sr & Hsi & Hsr & ? & ? & ? & ? & ? & _). eauto 12.
Qed.

(** ** The SK envelope *)

Lemma len_sk_pad i n : len (sk_pad i n) = Z.of_nat n.
Proof. revert i. induction n as [|n IH]; intros i; [done|]. cbn [sk_pad]. rewrite len_cons, IH. lia. Qed.
#[local] Hint Rewrite len_sk_pad : len.

Lemma sk_pad_bytes i n : bytes_ok (sk_pad i n).
Proof. revert i. induction n; intros i; cbn [sk_pad]; bytes_tac. Qed.
#[local] Hint Resolve sk_pad_bytes : go.

Lemma strip_pad_eq pt pad n :
  len pad = n → 0 ≤ n < 256 → strip_pad (pt ++ pad ++ [n]) = Ok pt.
Proof.
  intros Hp Hn. unfold strip_pad. rewrite app_assoc, index_skip, index_head by len_lia.
  go_step. go_if. rewrite <- app_assoc. apply slice_hit; len_lia.
Qed.

(** A message [prefix] with the SK body [pt] appended, protected by [s]. *)
Definition protect (s : IKESA) (prefix pt : bytes) (iv : option bytes) : Res ike_error bytes :=
  match EncryptToSK pt iv s with
  | (s1, Ok sk) => FinalizeSK s1 (prefix ++ sk) (len sk)
  | (_, Err e) => Err e
  | (_, Panic) => Panic
  | (_, Hang) => Hang
  end.

Lemma protect_open_aead s s' prefix pt iv :
  ike_ok s → ike_paired s s' → aead (ike_Suite s) = true →
  32 ≤ len prefix → bytes_ok prefix → bytes_ok pt →
  ∃ sk, protect s prefix pt iv = Ok (prefix ++ sk) ∧
        len sk = len pt + 25 ∧ bytes_ok sk ∧ OpenSK s' (prefix ++ sk) sk = (true, Ok pt).
Proof using HL.
  intros Hok [Hsuite _ _ Haead Hsalt] Ha Hpre Hpreb Hpt.
  destruct (io_aead s Hok Ha) as (ao & _ & Hao & _ & Hso & _).
  unfold protect, EncryptToSK. rewrite st_get. rewrite Ha, st_put, st_mret_end.
  set (ivb := put64 (u64 (skSeq s + 1))). change (zeros (Z.to_nat aeadTagLen)) with (zeros 16).
  assert (Hiv : len ivb = 8) by (unfold ivb; len_lia).
  unfold FinalizeSK, ikeHdrLen, genericHdrLen, aeadIVLen, aeadTagLen. cbn [ike_Suite with_skSeq].
  rewrite Ha. cbn [negb]. go_if.
  assert (Hlen : len (prefix ++ ivb ++ pt ++ [0] ++ zeros 16) - len (ivb ++ pt ++ [0] ++ zeros 16)
                 = len prefix) by len_lia.
  rewrite Hlen.
  set (raw := prefix ++ ivb ++ pt ++ [0] ++ zeros 16).
  assert (Hraw : len raw = len prefix + 8 + (len pt + 1) + 16) by (unfold raw; len_lia).
  assert (H1 : slice (E:=ike_error) raw (len prefix) (len prefix + 8) = Ok ivb)
    by (unfold raw; rewrite slice_skip, slice_hit by lia; done).
  assert (H2 : slice (E:=ike_error) raw (len prefix + 8) (len raw - 16) = Ok (pt ++ [0])).
  { rewrite Hraw. unfold raw. rewrite (app_assoc pt), !slice_skip, slice_hit by len_lia. done. }
  assert (H3 : slice (E:=ike_error) raw 0 (len prefix) = Ok prefix) by (unfold raw; by apply slice_hit).
  assert (H4 : slice (E:=ike_error) raw 0 (len prefix + 8) = Ok (prefix ++ ivb))
    by (unfold raw; rewrite app_assoc; apply slice_hit; len_lia).
  rewrite H1, H2, H3, H4. cbn [ike_outAEAD with_skSeq ike_outSalt]. rewrite Hao. cbn [deref]. go_step.
  set (ct := aead_seal ao (ike_outSalt s ++ ivb) (pt ++ [0]) prefix).
  exists (ivb ++ ct). rewrite <- app_assoc. split; [done|].
  assert (Hct : len ct = len pt + 17) by (unfold ct; rewrite seal_len; len_lia).
  split; [len_lia|].
  assert (bytes_ok ct) by (apply seal_bytes; bytes_tac).
  split; [unfold ivb; bytes_tac|].
  unfold OpenSK, ikeHdrLen, genericHdrLen, aeadIVLen, aeadTagLen. rewrite <- Hsuite, Ha. go_if.
  rewrite (slice_hit ivb) by lia. go_step. rewrite (slice_from_skip ivb), (slice_from_all ct) by len_lia.
  go_step. rewrite (slice_hit prefix) by len_lia. go_step. rewrite <- Haead, Hao, <- Hsalt. cbn [deref].
  go_step. unfold ct. rewrite open_seal by bytes_tac.
  change (pt ++ [0]) with (pt ++ [] ++ [0]). by rewrite strip_pad_eq.
Qed.

Lemma sk_block_pad n : (n + (16 - (n + 1) mod 16) mod 16 + 1) mod 16 = 0.
Proof. Z.to_euclidean_division_equations. lia. Qed.

Lemma outboundEncrKey_ok s :
  ike_ok s → aead (ike_Suite s) = false →
  len (outboundEncrKey s) = 32 ∧ bytes_ok (outboundEncrKey s).
Proof.
  intros [_ _ _ [H1 H2] [H3 H4] _] Ha. destruct (keyLens_cases (ike_Suite s)) as [[? _]|[_ Hk]]; [congruence|].
  rewrite Hk in *. unfold outboundEncrKey. by destruct (ike_Role s).
Qed.

Lemma protect_open_cbc s s' prefix pt iv :
  ike_ok s → ike_paired s s' → aead (ike_Suite s) = false →
  bytes_ok prefix → bytes_ok pt → len iv = 16 → bytes_ok iv →
  ∃ sk, protect s prefix pt (Some iv) = Ok (prefix ++ sk) ∧
        32 ≤ len sk ≤ len pt + 48 ∧ bytes_ok sk ∧ OpenSK s' (prefix ++ sk) sk = (true, Ok pt).
Proof using HL.
  intros Hok [Hsuite Hint Hencr _ _] Ha Hpreb Hpt Hivl Hiv.
  destruct (outboundEncrKey_ok s Hok Ha) as [Hkl Hkb].
  unfold protect, EncryptToSK. rewrite st_get, Ha.
  set (padLen := (aesBlock - (len pt + 1) mod aesBlock) mod aesBlock).
  assert (Hp : 0 ≤ padLen < 16) by (apply Z.mod_pos_bound; done).
  rewrite (u8_small padLen) by (unfold is_u8; lia).
  set (padded := pt ++ _ ++ _).
  assert (Hpl : len padded = len pt + padLen + 1) by (unfold padded; len_lia).
  assert (Hpb : bytes_ok padded) by (unfold padded; bytes_tac).
  assert (Hmod : len padded mod aes_block = 0) by (rewrite Hpl; apply sk_block_pad).
  unfold aesCBCEncrypt, aesBlock. rewrite Hmod. cbn [Z.eqb negb].
  rewrite aes_NewCipher_32 by done. go_step. rewrite st_lift, st_mret_end.
  pose proof (cbc_encrypt_len (outboundEncrKey s) iv padded Hmod) as Hcl.
  pose proof (cbc_encrypt_bytes (outboundEncrKey s) iv padded Hiv Hpb) as Hcb.
  pose proof (cbc_inverse (outboundEncrKey s) iv padded Hkl Hkb Hivl Hiv Hmod Hpb) as Hinv.
  set (ct := cbc_encrypt _ _ _) in *. change (zeros (Z.to_nat integICVLen)) with (zeros 16).
  unfold FinalizeSK. rewrite Ha. cbn [negb]. unfold checksum, integICVLen, integ. go_if.
  set (body := prefix ++ iv ++ ct).
  assert (Hbody : prefix ++ (iv ++ ct) ++ zeros 16 = body ++ zeros 16)
    by (unfold body; by rewrite <- !app_assoc).
  rewrite Hbody, (slice_hit body) by len_lia. go_step.
  pose proof (hmac_len (outboundIntegKey s) body) as Hml.
  pose proof (hmac_bytes (outboundIntegKey s) body) as Hmb.
  rewrite slice_ok by (unfold integICVLen; lia). go_step. set (mac := take _ _).
  assert (Hmac : len mac = 16) by (unfold mac, integICVLen; len_lia).
  exists (iv ++ ct ++ mac). split; [unfold body; by rewrite <- !app_assoc|].
  split; [len_lia|]. split; [unfold mac; bytes_tac|].
  unfold OpenSK. rewrite <- Hsuite, Ha. unfold verifyChecksum, integICVLen, integ. go_if.
  replace (prefix ++ iv ++ ct ++ mac) with (body ++ mac) by (unfold body; by rewrite <- !app_assoc).
  rewrite (slice_from_skip body), (slice_from_all mac), (slice_hit body) by len_lia. go_step.
  rewrite <- Hint. unfold integICVLen in *. rewrite slice_ok by lia. go_step. rewrite bool_decide_true by done.
  unfold decryptSK, integICVLen, aesBlock, aes_block in *. go_if.
  rewrite (app_assoc iv ct), (slice_hit (iv ++ ct)) by len_lia. go_step.
  unfold aesCBCDecrypt, aesBlock, aes_block. go_if. rewrite (slice_hit iv) by lia. go_step.
  rewrite (slice_from_skip iv), (slice_from_all ct) by lia. go_step.
  replace ((len ct =? 0) || negb (len ct mod 16 =? 0)) with false
    by (rewrite Hcl, Hmod; len_pos; cbn; lia).
  rewrite <- Hencr, aes_NewCipher_32 by done. go_step. rewrite Hinv. unfold padded.
  rewrite strip_pad_eq by (len_lia || lia). done.
Qed.

(** The SK envelope round trip, for all three suites: protecting any plaintext
    behind a message prefix (at least the IKE header and the SK generic header)
    succeeds, leaves the prefix as it was, and the peer opens the result to exactly
    that plaintext. *)
Theorem SK_roundtrip s s' prefix pt iv :
  ike_ok s → ike_paired s s' → 32 ≤ len prefix → bytes_ok prefix → bytes_ok pt →
  len iv = 16 → bytes_ok iv →
  ∃ sk, protect s prefix pt (Some iv) = Ok (prefix ++ sk) ∧
        OpenSK s' (prefix ++ sk) sk = (true, Ok pt).
Proof using HL.
  intros. destruct (aead (ike_Suite s)) eqn:Ha.
  - destruct (protect_open_aead s s' prefix pt (Some iv)) as (sk & ? & _ & _ & ?); eauto.
  - destruct (protect_open_cbc s s' prefix pt iv) as (sk & ? & _ & _ & ?); eauto.
Qed.

(** What EncryptToSK leaves: the keys stay, only the IV counter may move. *)
Lemma with_skSeq_ok s n : ike_ok s → ike_ok (with_skSeq s n).
Proof. intros []. by constructor. Qed.

Lemma with_skSeq_paired s s' n : ike_paired s s' → ike_paired (with_skSeq s n) s'.
Proof. intros []. by constructor. Qed.

Lemma with_skSeq_paired_r s s' n : ike_paired s s' → ike_paired s (with_skSeq s' n).
Proof. intros []. by constructor. Qed.

Lemma with_skSeq_self s : with_skSeq s (skSeq s) = s.
Proof. by destruct s. Qed.

Lemma EncryptToSK_ok s pt iv :
  ike_ok s → bytes_ok pt → len iv = 16 → bytes_ok iv →
  ∃ n sk, EncryptToSK pt (Some iv) s = (with_skSeq s n, Ok sk) ∧
    25 ≤ len sk ≤ len pt + 48 ∧ bytes_ok sk.
Proof using HL.
  intros Hok Hpt Hivl Hiv. unfold EncryptToSK. rewrite st_get. destruct (aead (ike_Suite s)) eqn:Ha.
  - rewrite st_put, st_mret_end. do 2 eexists. split; [reflexivity|].
    change (zeros (Z.to_nat aeadTagLen)) with (zeros 16). split; [len_lia|bytes_tac].
  - destruct (outboundEncrKey_ok s Hok Ha) as [Hkl Hkb].
    set (padLen := (aesBlock - (len pt + 1) mod aesBlock) mod aesBlock).
    assert (Hp : 0 ≤ padLen < 16) by (apply Z.mod_pos_bound; done).
    set (padded := pt ++ _ ++ _).
    assert (Hpl : len padded = len pt + padLen + 1) by (unfold padded; len_lia).
    assert (Hpb : bytes_ok padded) by (unfold padded; bytes_tac).
    assert (Hmod : len padded mod aes_block = 0) by (rewrite Hpl; apply sk_block_pad).
    unfold aesCBCEncrypt, aesBlock. rewrite Hmod. cbn [Z.eqb negb].
    rewrite aes_NewCipher_32 by done. go_step. rewrite st_lift, st_mret_end.
    pose proof (cbc_encrypt_len (outboundEncrKey s) iv padded Hmod) as Hcl.
    pose proof (cbc_encrypt_bytes (outboundEncrKey s) iv padded Hiv Hpb) as Hcb.
    exists (skSeq s). eexists. rewrite with_skSeq_self. split; [reflexivity|].
    change (zeros (Z.to_nat integICVLen)) with (zeros 16). split; [len_lia|bytes_tac].
Qed.

Lemma FinalizeSK_len s raw n raw' : FinalizeSK s raw n = Ok raw' → len raw' = len raw.
Proof using HL.
  unfold FinalizeSK, checksum, integ, integICVLen, ikeHdrLen, genericHdrLen, aeadIVLen, aeadTagLen.
  destruct (negb _).
  - intros H. go_inv. subst. apply slice_len in H0, H1. len_lia.
  - intros H. destruct (ike_outAEAD s); [|go_inv; discriminate]. cbn [deref] in H. go_inv. subst.
    repeat match goal with E : slice _ _ _ = Ok _ |- _ => apply slice_len in E end.
    rewrite len_app, seal_len. lia.
Qed.

Lemma EncryptToSK_safe s pt iv :
  ike_ok s → ∃ n, (EncryptToSK pt iv s).1 = with_skSeq s n ∧ yields (λ _, True) (EncryptToSK pt iv s).2.
Proof using HL.
  intros Hok. unfold EncryptToSK. rewrite st_get. destruct (aead (ike_Suite s)) eqn:Ha.
  - rewrite st_put, st_mret_end. by eexists.
  - exists (skSeq s). rewrite with_skSeq_self. unfold aesCBCEncrypt. destruct (negb _); [done|].
    unfold aes_NewCipher. case_if; [|done]. go_step. by destruct iv.
Qed.

Lemma FinalizeSK_safe s raw n : ike_ok s → yields (λ _, True) (FinalizeSK s raw n).
Proof using HL.
  intros Hok. unfold FinalizeSK, checksum, integ, integICVLen, ikeHdrLen, genericHdrLen, aeadIVLen, aeadTagLen.
  destruct (aead (ike_Suite s)) eqn:Ha; cbn [negb].
  - destruct (io_aead s Hok Ha) as (ao & _ & -> & _). destruct (_ || _) eqn:Hg; [done|]. bool_prop.
    rewrite !slice_ok by lia. done.
  - destruct (_ <? _) eqn:Hg; [done|]. bool_prop. rewrite slice_ok by lia. go_step.
    pose proof (hmac_len (outboundIntegKey s)
      (take (Z.to_nat (len raw - 16 - 0)) (drop (Z.to_nat 0) raw))) as Hm.
    rewrite slice_ok by lia. done.
Qed.

(** ** Opening arbitrary messages *)

(** [raw] ends in [skData] and carries a valid integrity value under [s]. *)
Definition sk_authentic (s : IKESA) (raw skData : bytes) : Prop :=
  if aead (ike_Suite s) then
    ∃ a iv padded, ike_inAEAD s = Some a ∧
      skData = iv ++ aead_seal a (ike_inSalt s ++ iv) padded
                       (take (Z.to_nat (len raw - len skData)) raw)
  else
    ∃ body, raw = body ++ take 16 (hmac_sha256 (inboundIntegKey s) body).

Lemma strip_pad_safe padded : bytes_ok padded → 1 ≤ len padded → yields bytes_ok (strip_pad padded).
Proof.
  intros Hb Hl. unfold strip_pad. go_safe; [done|].
  rewrite slice_ok by (len_pos; lia). cbn. auto with go.
Qed.

Lemma decryptSK_safe s skData : bytes_ok skData → yields bytes_ok (decryptSK s skData).
Proof using HL.
  intros Hb. unfold decryptSK, aesCBCDecrypt, integICVLen, aesBlock, aes_block.
  go_safe; try done. unfold aes_NewCipher. go_safe; [|done].
  apply strip_pad_safe; [by apply cbc_decrypt_bytes|]. rewrite cbc_decrypt_len by done. len_pos. lia.
Qed.

Lemma verifyChecksum_total s raw :
  ∃ b, verifyChecksum s raw = Ok b ∧
    (b = true → ∃ body, raw = body ++ take 16 (hmac_sha256 (inboundIntegKey s) body)).
Proof using HL.
  unfold verifyChecksum, integICVLen, integ, integICVLen. destruct (len raw <? 16) eqn:Hl; [by eexists|].
  bool_prop. rewrite slice_from_ok, slice_ok by lia. go_step.
  rewrite Z.sub_0_r. change (Z.to_nat 0) with 0%nat. rewrite drop_0.
  set (body := take _ raw). pose proof (hmac_len (inboundIntegKey s) body) as Hml.
  rewrite slice_ok by lia. go_step. eexists. split; [reflexivity|].
  intros Heq%bool_decide_eq_true. exists body. change (Z.to_nat (16 - 0)) with 16%nat in Heq.
  rewrite drop_0 in Heq. rewrite <- Heq. unfold body. by rewrite take_drop.
Qed.

Lemma OpenSK_post s raw skData icvOK r :
  ike_ok s → bytes_ok raw → bytes_ok skData →
  OpenSK s raw skData = (icvOK, r) →
  yields bytes_ok r ∧ (icvOK = true → sk_authentic s raw skData) ∧ (icvOK = false → is_ok r = false).
Proof using HL.
  intros Hok Hraw Hsk Ho. unfold OpenSK, sk_authentic in *.
  unfold ikeHdrLen, genericHdrLen, aeadIVLen, aeadTagLen in Ho.
  destruct (aead (ike_Suite s)) eqn:Ha.
  - destruct ((_ <? _) || _) eqn:Hg; [by injection Ho as <- <-|]. bool_prop.
    destruct (io_aead s Hok Ha) as (_ & ai & _ & Hai & _ & _). rewrite Hai in Ho.
    rewrite (slice_ok skData), (slice_from_ok skData), (slice_ok raw) in Ho by (len_pos; lia).
    cbn [mbind Res_bind deref] in Ho. rewrite Z.sub_0_r in Ho. change (Z.to_nat 0) with 0%nat in Ho.
    rewrite !drop_0 in Ho. destruct (aead_open _ _ _ _) as [padded|] eqn:Hopen; [|by injection Ho as <- <-].
    injection Ho as <- <-. assert (Hdb : bytes_ok (drop (Z.to_nat 8) skData)) by auto with go.
    pose proof (open_len _ _ _ _ _ Hdb Hopen) as Hpl.
    apply open_only_sealed in Hopen as [Hpb Hct]; [|done]. split_and!; [|intros _|done].
    + apply strip_pad_safe; [done|]. rewrite Hpl. len_lia.
    + exists ai, (take (Z.to_nat 8) skData), padded. split; [done|]. rewrite Z.sub_0_r in Hct.
      rewrite <- Hct. by rewrite take_drop.
  - destruct (verifyChecksum_total s raw) as (b & Hv & Hb). rewrite Hv in Ho.
    destruct b; injection Ho as <- <-; [|done].
    split_and!; [by apply decryptSK_safe|by intros _; apply Hb|done].
Qed.

(** OpenSK on any datagram: it never panics, and it reports icvOK only for a
    message that carries a valid integrity value under this SA's inbound keys (for
    an AEAD suite, one that was sealed with the message's own header as associated
    data); an error after that point is the sender's malformed padding. *)
Theorem OpenSK_authenticates s raw skData icvOK r :
  ike_ok s → bytes_ok raw → bytes_ok skData →
  OpenSK s raw skData = (icvOK, r) →
  yields bytes_ok r ∧ (icvOK = true → sk_authentic s raw skData) ∧ (icvOK = false → is_ok r = false).
Proof using HL. apply OpenSK_post. Qed.

(** ** Child SA keys *)

(** The KEYMAT of a Child SA, with or without a fresh Diffie-Hellman secret, is
    the RFC 7296 section 2.17 stream cut in order into the initiator's encryption and
    integrity keys and then the responder's, each of the length asked for, with no
    octet skipped or used twice. *)
Theorem ChildKeys_split s dh nonceI nonceR encrLen integLen :
  0 ≤ encrLen → 0 ≤ integLen → 2 * (encrLen + integLen) ≤ 255 * 32 →
  ∃ ck, deriveChildKeys s dh nonceI nonceR encrLen integLen = Ok ck ∧
    EncrIR ck ++ IntegIR ck ++ EncrRI ck ++ IntegRI ck =
      take (Z.to_nat (2 * (encrLen + integLen)))
           (prf_stream 255 (SKd s) (dh ++ nonceI ++ nonceR) 1 []) ∧
    len (EncrIR ck) = encrLen ∧ len (IntegIR ck) = integLen ∧
    len (EncrRI ck) = encrLen ∧ len (IntegRI ck) = integLen.
Proof using HL.
  intros He Hi Hmax. unfold deriveChildKeys. rewrite prfPlus_eq by lia. go_step.
  pose proof (len_prf_stream 255 (SKd s) (dh ++ nonceI ++ nonceR) 1 []) as Hl.
  set (ks := take _ _). assert (Hkl : len ks = 2 * (encrLen + integLen)) by (unfold ks; len_lia).
  repeat (rewrite take_key_ok by lia; go_step). eexists. split; [reflexivity|]. cbn.
  split_and!; try (apply len_sub; lia). unfold sub.
  replace (Z.to_nat (0 + encrLen)) with (Z.to_nat encrLen) by lia.
  replace (Z.to_nat (0 + encrLen + integLen)) with (Z.to_nat encrLen + Z.to_nat integLen)%nat by lia.
  replace (Z.to_nat (0 + encrLen + integLen + encrLen))
    with (Z.to_nat encrLen + (Z.to_nat integLen + Z.to_nat encrLen))%nat by lia.
  change (Z.to_nat 0) with 0%nat. rewrite drop_0, <- !drop_drop.
  rewrite <- (take_drop (Z.to_nat encrLen) ks) at 5. f_equal.
  set (k1 := drop _ ks). rewrite <- (take_drop (Z.to_nat integLen) k1) at 4. f_equal.
  set (k2 := drop _ k1). rewrite <- (take_drop (Z.to_nat encrLen) k2) at 3. f_equal.
  apply take_ge. unfold k2, k1, len in *. rewrite !length_drop. lia.
Qed.

(** ** Diffie-Hellman *)

Lemma len_Bytes_bound x : 0 ≤ x < 2 ^ 2048 → len (Bytes x) ≤ 256.
Proof.
  intros Hx. unfold Bytes. destruct (x =? 0) eqn:H0; [by rewrite len_nil|]. bool_prop.
  rewrite len_be_put. assert (Z.log2 x < 2048) by (apply Z.log2_lt_pow2; lia).
  pose proof (Z.log2_nonneg x). Z.to_euclidean_division_equations. lia.
Qed.

Lemma be_get_Bytes x : 0 ≤ x → be_get (Bytes x) = x.
Proof.
  intros Hx. unfold Bytes. destruct (x =? 0) eqn:H0; bool_prop; [by rewrite H0|].
  rewrite be_get_put. apply Z.mod_small. split; [done|].
  pose proof (Z.log2_nonneg x). apply Z.log2_lt_pow2; [lia|].
  Z.to_euclidean_division_equations. lia.
Qed.

Lemma bytes_ok_Bytes x : bytes_ok (Bytes x).
Proof. unfold Bytes. case_if; auto with go. Qed.

Lemma be_get_zeros n l : bytes_ok l → be_get (zeros n ++ l) = be_get l.
Proof.
  intros Hl. induction n as [|n IH]; [done|]. cbn [replicate app].
  rewrite be_get_cons by bytes_tac. rewrite IH. lia.
Qed.

Lemma leftPad_ok x :
  0 ≤ x < 2 ^ 2048 →
  len (leftPad (Bytes x) 256) = 256 ∧ be_get (leftPad (Bytes x) 256) = x.
Proof.
  intros Hx. pose proof (len_Bytes_bound x Hx). unfold leftPad. case_if.
  - split; [lia|]. apply be_get_Bytes. lia.
  - split; [len_lia|]. rewrite be_get_zeros by apply bytes_ok_Bytes. apply be_get_Bytes. lia.
Qed.

Lemma modp2048P_bound : 2 < modp2048P < 2 ^ 2048.
Proof. split; vm_compute; reflexivity. Qed.

Lemma Exp_eq x y : 0 ≤ y → Exp x y modp2048P = x ^ y mod modp2048P.
Proof. intros. apply Zpow_mod_correct. pose proof modp2048P_bound. lia. Qed.

Lemma Exp_range x y : 0 ≤ y → 0 ≤ Exp x y modp2048P < 2 ^ 2048.
Proof.
  intros. rewrite Exp_eq by done. pose proof modp2048P_bound.
  pose proof (Z.mod_pos_bound (x ^ y) modp2048P ltac:(lia)). lia.
Qed.

Lemma Exp_commute a b :
  0 ≤ a → 0 ≤ b →
  Exp (Exp modp2048G b modp2048P) a modp2048P = Exp (Exp modp2048G a modp2048P) b modp2048P.
Proof.
  intros. rewrite !Exp_eq by done. rewrite <- !Zpower_mod by (pose proof modp2048P_bound; lia).
  rewrite <- !Z.pow_mul_r by done. by rewrite Z.mul_comm.
Qed.

Definition dh_random_ok (r : dh_random) : Prop :=
  match r with RandInt n => 0 ≤ n < modp2048P - 3 | _ => True end.

Lemma dh_agree group r1 r2 d1 d2 s1 s2 :
  dh_random_ok r1 → dh_random_ok r2 →
  newDH group r1 = Ok d1 → newDH group r2 = Ok d2 →
  shared d1 (dh_Public d2) = Ok s1 → shared d2 (dh_Public d1) = Ok s2 →
  s1 = s2 ∧ len s1 = if group =? DHGroup14 then 256 else 32.
Proof using HL.
  intros Hr1 Hr2 H1 H2 Hs1 Hs2. unfold newDH, modp2048Len in *. destruct (group =? DHGroup14) eqn:Hg.
  - destruct r1 as [n1| |], r2 as [n2| |]; [|done..]. go_inv. subst. cbn in Hr1, Hr2.
    unfold shared, modp2048Len in *. cbn [dh_Group dh_Public dh_priv] in *. rewrite Hg in *. go_inv.
    destruct (leftPad_ok (Exp modp2048G (n2 + 2) modp2048P)) as [_ E2]; [apply Exp_range; lia|].
    destruct (leftPad_ok (Exp modp2048G (n1 + 2) modp2048P)) as [_ E1]; [apply Exp_range; lia|].
    rewrite E1, E2 in *. subst. rewrite (Exp_commute (n1 + 2)) by lia. split; [done|].
    apply leftPad_ok, Exp_range. lia.
  - destruct (group =? DHGroup31) eqn:Hg'; [|done].
    destruct r1 as [|k1|], r2 as [|k2|]; try done. go_inv. subst.
    unfold shared in *. cbn [dh_Group dh_Public dh_priv] in *. rewrite Hg, Hg' in *. go_inv.
    rewrite x25519_agree in Hs1. destruct (x25519_ecdh k2 _) as [x|] eqn:Hx; [|done].
    go_inv. subst. split; [done|]. by apply x25519_ecdh_ok in Hx as [? _].
Qed.
(** A key pair as newDH makes it. *)
Definition dh_wf (d : DH) : Prop :=
  bytes_ok (dh_Public d) ∧
  (dh_Group d = DHGroup14 ∧ len (dh_Public d) = 256 ∧ (∃ x, dh_priv d = PrivModp x) ∨
   dh_Group d = DHGroup31 ∧ len (dh_Public d) = 32 ∧ ∃ k, dh_priv d = PrivX25519 k).

Lemma newDH_wf group r : dh_random_ok r → yields (λ d, dh_Group d = group ∧ dh_wf d) (newDH group r).
Proof using HL.
  intros Hr. unfold newDH, dh_wf. destruct (group =? DHGroup14) eqn:Hg; bool_prop.
  - destruct r as [n| |]; [|done..]. cbn -[Z.add] in Hr |- *. split; [done|].
    destruct (leftPad_ok (Exp modp2048G (n + 2) modp2048P)) as [Hl _]; [apply Exp_range; lia|].
    split; [|left; eauto]. unfold leftPad. case_if; [apply bytes_ok_Bytes|].
    apply bytes_ok_app. split; [auto with go|apply bytes_ok_Bytes].
  - destruct (group =? DHGroup31) eqn:Hg'; [|done]. bool_prop.
    destruct r as [|k|]; [done| |done]. cbn. destruct (x25519_public_ok k). eauto 10.
Qed.

Lemma shared_safe d data : dh_wf d → yields (λ _, True) (shared d data).
Proof.
  intros [_ [(Hg & _ & x & Hp)|(Hg & _ & k & Hp)]]; unfold shared; rewrite Hg, Hp; cbn [Z.eqb].
  - by repeat case_if.
  - repeat case_if; try done. by destruct (x25519_ecdh _ _).
Qed.

Lemma deriveFromSKEYSEED_fields suite role spii spir ni nr seed s :
  deriveFromSKEYSEED suite role spii spir ni nr seed = Ok s →
  ike_Suite s = suite ∧ ike_Role s = role ∧ ike_InitiatorSPI s = spii ∧ ike_ResponderSPI s = spir.
Proof.
  unfold deriveFromSKEYSEED. intros H. destruct (keyLens suite) as [e i].
  go_inv; subst; done.
Qed.

Lemma deriveFromSKEYSEED_ok suite role spii spir ni nr seed :
  ∃ s, deriveFromSKEYSEED suite role spii spir ni nr seed = Ok s ∧ ike_ok s.
Proof using HL.
  destruct (derive_mirror suite spii spir ni nr seed) as (si & sr & Hi & Hr & [? ?] & _).
  destruct role; eauto.
Qed.

Lemma DeriveRekeyIKE_ok suite oldSKd role spii spir ni nr dh :
  yields (λ s, ike_ok s ∧ ike_Suite s = suite ∧ ike_Role s = role ∧
               ike_InitiatorSPI s = spii ∧ ike_ResponderSPI s = spir)
         (DeriveRekeyIKE suite oldSKd role spii spir ni nr dh).
Proof using HL.
  unfold DeriveRekeyIKE. repeat (case_if; [done|]).
  destruct (deriveFromSKEYSEED_ok suite role spii spir ni nr (prf oldSKd (dh ++ ni ++ nr)))
    as (s & Hs & Hok). rewrite Hs. split; [done|]. by eapply deriveFromSKEYSEED_fields.
Qed.

Record child_keys_ok (e i : Z) (ck : ChildKeys) : Prop := {
  ck_lens : len (EncrIR ck) = e ∧ len (IntegIR ck) = i ∧ len (EncrRI ck) = e ∧ len (IntegRI ck) = i;
  ck_bytes : bytes_ok (EncrIR ck) ∧ bytes_ok (IntegIR ck) ∧ bytes_ok (EncrRI ck) ∧ bytes_ok (IntegRI ck);
}.

Lemma deriveChildKeys_safe s dh ni nr e i :
  0 ≤ e → 0 ≤ i → 2 * (e + i) ≤ 255 * 32 →
  yields (child_keys_ok e i) (deriveChildKeys s dh ni nr e i).
Proof using HL.
  intros. unfold deriveChildKeys.
  destruct (prfPlus_total (SKd s) (dh ++ ni ++ nr) (2 * (e + i))) as (ks & -> & Hl & Hb); [lia|].
  cbn [mbind Res_bind]. repeat (rewrite take_key_ok by lia; cbn [mbind Res_bind]).
  cbn [yields]. split; cbn [EncrIR IntegIR EncrRI IntegRI].
  - by rewrite !len_sub by lia.
  - auto using sub_bytes.
Qed.

Lemma DeriveChildKeys_eq s ni nr e i : DeriveChildKeys s ni nr e i = deriveChildKeys s [] ni nr e i.
Proof. reflexivity. Qed.

Lemma DeriveChildKeys_ok s ni nr e i ck :
  0 ≤ e → 0 ≤ i → 2 * (e + i) ≤ 255 * 32 → DeriveChildKeys s ni nr e i = Ok ck → child_keys_ok e i ck.
Proof using HL.
  intros He Hi Hm Hd. pose proof (deriveChildKeys_safe s [] ni nr e i He Hi Hm) as Hy.
  rewrite <- DeriveChildKeys_eq in Hy. by rewrite Hd in Hy.
Qed.

(** Diffie-Hellman agreement for both groups: of two fresh key pairs, the two
    sides compute the same shared secret from each other's public value, in the wire
    form the key schedule uses (256 octets for MODP-2048, 32 for x25519), whenever
    neither rejects the other's value as degenerate. *)
Theorem DH_agree group r1 r2 d1 d2 s1 s2 :
  dh_random_ok r1 → dh_random_ok r2 →
  newDH group r1 = Ok d1 → newDH group r2 = Ok d2 →
  shared d1 (dh_Public d2) = Ok s1 → shared d2 (dh_Public d1) = Ok s2 →
  s1 = s2 ∧ len s1 = if group =? DHGroup14 then 256 else 32.
Proof using HL. apply dh_agree. Qed.
End proofs.

(** ** Witnesses, on the concrete primitives *)

Lemma prfPlus_spec_witness :
  prfPlus (P:=toy_primitives) [1; 2] [3] 40 =
  Ok (take 40 (prf_stream (P:=toy_primitives) 255 [1; 2] [3] 1 [])) ∧
  prfPlus (P:=toy_primitives) [1; 2] [3] 9000 = Panic.
Proof.
  split.
  - rewrite (prfPlus_spec (HL:=toy_laws)); [reflexivity|lia].
  - rewrite (prfPlus_spec (HL:=toy_laws)); [reflexivity|lia].
Defined.

Lemma Derive_agree_witness :
  ∃ si sr, Derive (P:=toy_primitives) SuiteAESGCM256 Initiator 1 2 (replicate 16 5) (replicate 20 6) [7] = Ok si ∧
    Derive (P:=toy_primitives) SuiteAESGCM256 Responder 1 2 (replicate 16 5) (replicate 20 6) [7] = Ok sr ∧
    ike_paired si sr.
Proof.
  destruct (Derive_agree (HL:=toy_laws) SuiteAESGCM256 1 2 (replicate 16 5) (replicate 20 6) [7] [8])
    as [(si & sr & H1 & H2 & _ & [H3 _] & _) _]; [done..|]. by exists si, sr.
Defined.

Lemma SK_roundtrip_witness :
  ∃ si sr sk, ike_paired si sr ∧
    protect (P:=toy_primitives) si (replicate 32 9) [1; 2; 3] (Some (replicate 16 4)) = Ok (replicate 32 9 ++ sk) ∧
    OpenSK (P:=toy_primitives) sr (replicate 32 9 ++ sk) sk = (true, Ok [1; 2; 3]).
Proof.
  destruct (derive_mirror (HL:=toy_laws) SuiteAESCBC256SHA256 1 2 (replicate 16 5) (replicate 16 6) [7])
    as (si & sr & _ & _ & [H1 _] & [H2 _] & _).
  destruct (SK_roundtrip (HL:=toy_laws) si sr (replicate 32 9) [1; 2; 3] (replicate 16 4))
    as (sk & ? & ?); [done|done|done|by apply Forall_replicate|by repeat constructor|done
                     |by apply Forall_replicate|]. by exists si, sr, sk.
Defined.

Lemma OpenSK_authenticates_witness :
  ∃ si, ike_Suite si = SuiteAESGCM256 ∧
    yields bytes_ok (OpenSK (P:=toy_primitives) si (replicate 64 1) (replicate 32 1)).2.
Proof.
  destruct (derive_mirror (HL:=toy_laws) SuiteAESGCM256 1 2 (replicate 16 5) (replicate 16 6) [7])
    as (si & sr & _ & _ & [H1 _] & _ & _ & _ & _ & Hs & _). exists si. split; [done|].
  apply (OpenSK_authenticates (HL:=toy_laws) si (replicate 64 1) (replicate 32 1)
    (OpenSK (P:=toy_primitives) si (replicate 64 1) (replicate 32 1)).1).
  - done.
  - by apply Forall_replicate.
  - by apply Forall_replicate.
  - apply surjective_pairing.
Defined.

Lemma ChildKeys_split_witness :
  ∃ s ck, deriveChildKeys (P:=toy_primitives) s [] [1] [2] 36 0 = Ok ck ∧
    len (EncrIR ck) = 36 ∧ len (IntegRI ck) = 0.
Proof.
  destruct (derive_mirror (HL:=toy_laws) SuiteAESGCM256 1 2 (replicate 16 5) (replicate 16 6) [7])
    as (s & _). exists s.
  destruct (ChildKeys_split (HL:=toy_laws) s [] [1] [2] 36 0) as (ck & H1 & _ & H2 & _ & _ & H3);
    [lia..|]. by exists ck.
Defined.

Lemma DH_agree_witness :
  ∃ d1 d2 s, newDH (P:=toy_primitives) 14 (RandInt 3) = Ok d1 ∧
    newDH (P:=toy_primitives) 14 (RandInt 2045) = Ok d2 ∧
    shared (P:=toy_primitives) d1 (dh_Public d2) = Ok s ∧ len s = 256.
Proof.
  do 3 eexists. split; [reflexivity|]. split; [reflexivity|]. split; [vm_compute; reflexivity|].
  eapply (DH_agree (HL:=toy_laws) 14 (RandInt 3) (RandInt 2045)); [by vm_compute|by vm_compute
    |reflexivity|reflexivity|vm_compute; reflexivity|vm_compute; reflexivity].
Defined.
