(* ===== verification/Suite.v ===== *)
(** * Suite negotiation (internal/session/suite.go)

    The two suite tables (ESP and IKE), the proposals built from them, and the
    matching of a peer's proposals: presence among alternatives when the peer
    offers ([suiteMatches], [selectProposal]) and an unambiguous selection when it
    answers ([isSelectionFor], [selectedSuite]). *)

From S2P Require Import Prelude IkePayload Replay Crypto Esp IkeSA.

(** The id type parameter of transformSuite fixes the layer. *)
Inductive Layer := LayerESP | LayerIKE.

#[export] Instance Layer_eq_dec : EqDecision Layer.
Proof. solve_decision. Defined.

Record transformSuite := {
  su_layer : Layer;
  su_id : Z;
  su_encrID : Z;
  su_keyBits : Z;
  su_encrKeyLen : Z;
  su_integID : Z;
  su_integKeyLen : Z;
}.

#[export] Instance transformSuite_eq_dec : EqDecision transformSuite.
Proof. solve_decision. Defined.

Definition keyLenAES256 := 256.

Definition protocol (s : transformSuite) : Z :=
  match su_layer s with LayerESP => ProtocolESP | LayerIKE => ProtocolIKE end.

Definition suite_aead (s : transformSuite) : bool := su_integID s =? 0.

Definition spiLen (s : transformSuite) : Z := if protocol s =? ProtocolIKE then 8 else 4.

Definition espSuites : list transformSuite :=
  [{| su_layer := LayerESP; su_id := Esp.SuiteAESGCM256; su_encrID := ENCR_AES_GCM_16;
      su_keyBits := keyLenAES256; su_encrKeyLen := 36; su_integID := 0; su_integKeyLen := 0 |};
   {| su_layer := LayerESP; su_id := Esp.SuiteChaCha20Poly1305; su_encrID := ENCR_CHACHA20_POLY1305;
      su_keyBits := 0; su_encrKeyLen := 36; su_integID := 0; su_integKeyLen := 0 |};
   {| su_layer := LayerESP; su_id := Esp.SuiteAESCBC256SHA256; su_encrID := ENCR_AES_CBC;
      su_keyBits := keyLenAES256; su_encrKeyLen := 32; su_integID := AUTH_HMAC_SHA2_256_128;
      su_integKeyLen := 32 |}].

Definition ikeSuites : list transformSuite :=
  [{| su_layer := LayerIKE; su_id := IkeSA.SuiteAESGCM256; su_encrID := ENCR_AES_GCM_16;
      su_keyBits := keyLenAES256; su_encrKeyLen := 36; su_integID := 0; su_integKeyLen := 0 |};
   {| su_layer := LayerIKE; su_id := IkeSA.SuiteChaCha20Poly1305; su_encrID := ENCR_CHACHA20_POLY1305;
      su_keyBits := 0; su_encrKeyLen := 36; su_integID := 0; su_integKeyLen := 0 |};
   {| su_layer := LayerIKE; su_id := IkeSA.SuiteAESCBC256SHA256; su_encrID := ENCR_AES_CBC;
      su_keyBits := keyLenAES256; su_encrKeyLen := 32; su_integID := AUTH_HMAC_SHA2_256_128;
      su_integKeyLen := 32 |}].

Fixpoint suiteByID (id : Z) (table : list transformSuite) : option transformSuite :=
  match table with
  | [] => None
  | s :: rest => if su_id s =? id then Some s else suiteByID id rest
  end.

(** for _, id := range configured { if s, ok := suiteByID(..); ok { append } } *)
Fixpoint resolveSuites (configured : list Z) (table : list transformSuite) : list transformSuite :=
  match configured with
  | [] => []
  | id :: rest =>
      match suiteByID id table with
      | Some s => s :: resolveSuites rest table
      | None => resolveSuites rest table
      end
  end.

Definition enabledSuites (configured : list Z) (table : list transformSuite) : list transformSuite :=
  if len configured =? 0 then table else resolveSuites configured table.

(** The first id without a table row, if any: the error checkSuites reports. *)
Fixpoint checkSuites (configured : list Z) (table : list transformSuite) : option Z :=
  match configured with
  | [] => None
  | id :: rest =>
      match suiteByID id table with
      | Some _ => checkSuites rest table
      | None => Some id
      end
  end.

Definition plain_transform (ty id : Z) : Transform :=
  {| tr_Type := ty; tr_ID := id; tr_KeyLength := 0; tr_HasKeyLength := false |}.

Definition buildProposalForSuite (number : Z) (s : transformSuite) (spi : bytes) (groups : list Z)
    : Proposal :=
  {| pr_Number := number;
     pr_Protocol := protocol s;
     pr_SPI := spi;
     pr_Transforms :=
       [{| tr_Type := TransformEncr; tr_ID := su_encrID s; tr_KeyLength := su_keyBits s;
           tr_HasKeyLength := negb (su_keyBits s =? 0) |}] ++
       (if protocol s =? ProtocolIKE then [plain_transform TransformPRF PRF_HMAC_SHA2_256] else []) ++
       (if negb (suite_aead s) then [plain_transform TransformInteg (su_integID s)] else []) ++
       (plain_transform TransformDH <$> groups) ++
       (if protocol s =? ProtocolESP then [plain_transform TransformESN ESN_NONE] else []) |}.

Fixpoint buildProposals_from (i : Z) (spi : bytes) (suites : list transformSuite) (groups : list Z)
    : list Proposal :=
  match suites with
  | [] => []
  | s :: rest =>
      buildProposalForSuite (u8 (i + 1)) s spi groups :: buildProposals_from (i + 1) spi rest groups
  end.

Definition buildProposals (spi : bytes) (suites : list transformSuite) (groups : list Z)
    : list Proposal := buildProposals_from 0 spi suites groups.

(** keyLen: [None] is the nil pointer, [Some 0] requires the attribute absent. *)
Definition transform_fits (id : Z) (keyLen : option Z) (t : Transform) : bool :=
  (tr_ID t =? id) &&
  match keyLen with
  | None => true
  | Some k =>
      if (k =? 0) && tr_HasKeyLength t then false
      else if negb (k =? 0) && (negb (tr_HasKeyLength t) || negb (tr_KeyLength t =? k)) then false
      else true
  end.

Fixpoint hasTransform (ts : list Transform) (id : Z) (keyLen : option Z) : bool :=
  match ts with
  | [] => false
  | t :: rest => if transform_fits id keyLen t then true else hasTransform rest id keyLen
  end.

Definition suiteMatches (s : transformSuite) (p : Proposal) : bool :=
  if negb (pr_Protocol p =? protocol s) then false
  else if negb (hasTransform (ByType p TransformEncr) (su_encrID s) (Some (su_keyBits s))) then false
  else if (protocol s =? ProtocolIKE) &&
          negb (hasTransform (ByType p TransformPRF) PRF_HMAC_SHA2_256 None) then false
  else
    let integs := ByType p TransformInteg in
    if (if suite_aead s then (len integs >? 0) && negb (hasTransform integs AUTH_NONE None)
        else negb (hasTransform integs (su_integID s) None)) then false
    else if (protocol s =? ProtocolESP) &&
            negb (hasTransform (ByType p TransformESN) ESN_NONE None) then false
    else true.

Definition isSelectionFor (s : transformSuite) (p : Proposal) : bool :=
  if negb (suiteMatches s p) || negb (len (ByType p TransformEncr) =? 1) then false
  else if len (ByType p TransformDH) >? 1 then false
  else if (protocol s =? ProtocolIKE) && negb (len (ByType p TransformPRF) =? 1) then false
  else if (protocol s =? ProtocolESP) && negb (len (ByType p TransformESN) =? 1) then false
  else
    let integs := ByType p TransformInteg in
    if suite_aead s then
      (len integs =? 0) ||
      ((len integs =? 1) && match integs with t :: _ => tr_ID t =? AUTH_NONE | [] => false end)
    else len integs =? 1.

Fixpoint selectedSuite (p : Proposal) (enabled : list transformSuite) : option transformSuite :=
  match enabled with
  | [] => None
  | s :: rest => if isSelectionFor s p then Some s else selectedSuite p rest
  end.

Definition proposalHasDHGroup (p : Proposal) (g : Z) : bool :=
  hasTransform (ByType p TransformDH) g None.

(** The inner loop of selectProposal. *)
Definition proposal_acceptable (s : transformSuite) (requireGroup : Z) (p : Proposal) : bool :=
  if negb (suiteMatches s p) || negb (len (pr_SPI p) =? spiLen s) then false
  else if negb (requireGroup =? 0) && negb (proposalHasDHGroup p requireGroup) then false
  else true.

Fixpoint first_acceptable (s : transformSuite) (requireGroup : Z) (ps : list Proposal)
    : option Proposal :=
  match ps with
  | [] => None
  | p :: rest =>
      if proposal_acceptable s requireGroup p then Some p else first_acceptable s requireGroup rest
  end.

Fixpoint selectProposal (ps : list Proposal) (enabled : list transformSuite) (requireGroup : Z)
    : option (Proposal * transformSuite) :=
  match enabled with
  | [] => None
  | s :: rest =>
      match first_acceptable s requireGroup ps with
      | Some p => Some (p, s)
      | None => selectProposal ps rest requireGroup
      end
  end.

Definition preferredDHGroups : list Z := [DH_X25519; DH_MODP2048].

Definition supportedDHGroup (g : Z) : bool := bool_decide (g ∈ preferredDHGroups).

Definition selectedDHGroup (p : Proposal) : Z :=
  match ByType p TransformDH with
  | [] => 0
  | t :: _ => tr_ID t
  end.

(** ** Proposals and what they match *)

(** The suites of one layer. *)
Definition table_of (l : Layer) : list transformSuite :=
  match l with LayerESP => espSuites | LayerIKE => ikeSuites end.

Lemma filter_dh ty (groups : list Z) :
  ty ≠ TransformDH → filter (λ tr, tr_Type tr = ty) (plain_transform TransformDH <$> groups) = [].
Proof.
  intros Hty. induction groups as [|g groups IH]; [done|]. cbn [fmap list_fmap].
  rewrite filter_cons_False; [done|]. cbn. congruence.
Qed.

Lemma filter_dh_all (groups : list Z) :
  filter (λ tr, tr_Type tr = TransformDH) (plain_transform TransformDH <$> groups) =
  plain_transform TransformDH <$> groups.
Proof.
  induction groups as [|g groups IH]; [done|]. cbn [fmap list_fmap].
  rewrite filter_cons_True by done. by rewrite IH.
Qed.

Lemma ByType_other n s spi groups ty :
  ty ≠ TransformDH →
  ByType (buildProposalForSuite n s spi groups) ty = ByType (buildProposalForSuite n s spi []) ty.
Proof.
  intros Hty. unfold ByType, buildProposalForSuite. cbn [pr_Transforms].
  rewrite !list.filter_app. by rewrite (filter_dh ty groups), (filter_dh ty []).
Qed.

Lemma ByType_DH n s spi groups :
  ByType (buildProposalForSuite n s spi groups) TransformDH = plain_transform TransformDH <$> groups.
Proof.
  unfold ByType, buildProposalForSuite. cbn [pr_Transforms]. rewrite !list.filter_app, filter_dh_all.
  destruct (protocol s =? ProtocolIKE), (suite_aead s), (protocol s =? ProtocolESP); cbn;
    by rewrite ?app_nil_r.
Qed.

Lemma suiteMatches_groups s n s' spi groups :
  suiteMatches s (buildProposalForSuite n s' spi groups) =
  suiteMatches s (buildProposalForSuite n s' spi []).
Proof.
  unfold suiteMatches.
  by rewrite (ByType_other _ _ _ groups TransformEncr), (ByType_other _ _ _ groups TransformPRF),
    (ByType_other _ _ _ groups TransformESN), (ByType_other _ _ _ groups TransformInteg) by done.
Qed.

Ltac table_cases H :=
  repeat (apply elem_of_cons in H as [H|H]; [subst|]); [..|by apply elem_of_nil in H].

(** A built proposal offers its own suite and no other of the table. *)
Lemma suiteMatches_built l s n s' spi groups :
  s ∈ table_of l → s' ∈ table_of l →
  suiteMatches s (buildProposalForSuite n s' spi groups) = bool_decide (s = s').
Proof.
  intros Hs Hs'. rewrite suiteMatches_groups.
  destruct l; unfold table_of, espSuites, ikeSuites in Hs, Hs';
    table_cases Hs; table_cases Hs'; reflexivity.
Qed.

Lemma isSelectionFor_built l s n s' spi groups :
  s ∈ table_of l → s' ∈ table_of l → len groups ≤ 1 →
  isSelectionFor s (buildProposalForSuite n s' spi groups) = bool_decide (s = s').
Proof.
  intros Hs Hs' Hg. unfold isSelectionFor. rewrite (suiteMatches_built l) by done.
  rewrite (ByType_other _ _ _ groups TransformEncr), (ByType_other _ _ _ groups TransformPRF),
    (ByType_other _ _ _ groups TransformESN), (ByType_other _ _ _ groups TransformInteg) by done.
  rewrite ByType_DH, len_map.
  replace (len groups >? 1) with false by lia.
  destruct l; unfold table_of, espSuites, ikeSuites in Hs, Hs';
    table_cases Hs; table_cases Hs'; reflexivity.
Qed.

Lemma proposalHasDHGroup_built n s spi groups g :
  proposalHasDHGroup (buildProposalForSuite n s spi groups) g = bool_decide (g ∈ groups).
Proof.
  unfold proposalHasDHGroup. rewrite ByType_DH.
  induction groups as [|g' groups IH]; [done|]. cbn [fmap list_fmap hasTransform]. rewrite IH.
  unfold transform_fits. cbn [tr_ID plain_transform]. rewrite andb_true_r.
  destruct (Z.eqb_spec g' g) as [->|Hne].
  - by rewrite bool_decide_true by apply list_elem_of_here.
  - apply bool_decide_ext. rewrite elem_of_cons. split; [by right|by intros [?|?]].
Qed.

Lemma suiteMatches_encr s p :
  suiteMatches s p = true →
  hasTransform (ByType p TransformEncr) (su_encrID s) (Some (su_keyBits s)) = true.
Proof.
  unfold suiteMatches. destruct (pr_Protocol p =? protocol s); [|done].
  by destruct (hasTransform (ByType p TransformEncr) _ _).
Qed.

(** A narrowed answer selects at most one suite of a layer: the single
    encryption transform pins it, so which suites are enabled, and in which order,
    cannot change what an answer is decoded as. *)
Theorem selection_unique l s1 s2 p :
  s1 ∈ table_of l → s2 ∈ table_of l →
  isSelectionFor s1 p = true → isSelectionFor s2 p = true → s1 = s2.
Proof.
  intros H1 H2 Hs1 Hs2. unfold isSelectionFor in *.
  destruct (suiteMatches s1 p) eqn:Hm1; [|done]. destruct (suiteMatches s2 p) eqn:Hm2; [|done].
  cbn [negb orb] in *. destruct (len (ByType p TransformEncr) =? 1) eqn:Hl; [|done]. bool_prop.
  apply suiteMatches_encr in Hm1, Hm2. destruct (ByType p TransformEncr) as [|t [|t' ts]].
  - by rewrite len_nil in Hl.
  - assert (Henc : su_encrID s1 = su_encrID s2).
    { cbn [hasTransform] in Hm1, Hm2. unfold transform_fits in Hm1, Hm2.
      destruct (tr_ID t =? su_encrID s1) eqn:E1; [|done].
      destruct (tr_ID t =? su_encrID s2) eqn:E2; [|done]. bool_prop. congruence. }
    destruct l; unfold table_of, espSuites, ikeSuites in H1, H2; table_cases H1; table_cases H2;
      first [done | by vm_compute in Henc].
  - len_lia.
Qed.

Lemma enabledSuites_sub configured table s : s ∈ enabledSuites configured table → s ∈ table.
Proof.
  unfold enabledSuites. destruct (_ =? _); [done|].
  induction configured as [|id ids IH]; cbn [resolveSuites]; [by intros ?%elem_of_nil|].
  destruct (suiteByID id table) as [x|] eqn:Hx; [|exact IH].
  intros [->|Hs]%elem_of_cons; [|by apply IH].
  clear IH. induction table as [|y table IH]; [done|]. cbn [suiteByID] in Hx.
  destruct (_ =? _); [injection Hx as ->; apply list_elem_of_here|].
  apply list_elem_of_further. by apply IH.
Qed.

Lemma selectedSuite_in p enabled s : selectedSuite p enabled = Some s → s ∈ enabled.
Proof.
  induction enabled as [|s' enabled IH]; [done|]. cbn [selectedSuite].
  destruct (isSelectionFor s' p); [intros [= ->]; apply list_elem_of_here|].
  intros. apply list_elem_of_further. auto.
Qed.

(** What a table row asks of the key schedule. *)
Lemma suite_lens l s :
  s ∈ table_of l → 0 ≤ su_encrKeyLen s ≤ 36 ∧ 0 ≤ su_integKeyLen s ≤ 32 ∧
  spiLen s = match l with LayerESP => 4 | LayerIKE => 8 end.
Proof.
  intros Hs. destruct l; unfold table_of, espSuites, ikeSuites in Hs; table_cases Hs; cbn; lia.
Qed.

Lemma first_acceptable_spec s g ps :
  match first_acceptable s g ps with
  | Some p => p ∈ ps ∧ proposal_acceptable s g p = true
  | None => ∀ p, p ∈ ps → proposal_acceptable s g p = false
  end.
Proof.
  induction ps as [|p ps IH]; cbn [first_acceptable]; [by intros p ?%elem_of_nil|].
  destruct (proposal_acceptable s g p) eqn:Hp; [split; [apply list_elem_of_here|done]|].
  destruct (first_acceptable s g ps) as [q|].
  - destruct IH. split; [by apply list_elem_of_further|done].
  - intros q [->|Hq]%elem_of_cons; [done|auto].
Qed.

Lemma selectProposal_spec ps enabled g :
  match selectProposal ps enabled g with
  | Some (p, s) =>
      p ∈ ps ∧ proposal_acceptable s g p = true ∧
      ∃ before after, enabled = before ++ s :: after ∧
        ∀ s' p', s' ∈ before → p' ∈ ps → proposal_acceptable s' g p' = false
  | None => ∀ s' p', s' ∈ enabled → p' ∈ ps → proposal_acceptable s' g p' = false
  end.
Proof.
  induction enabled as [|s enabled IH]; cbn [selectProposal].
  { by intros s' p' ?%elem_of_nil. }
  pose proof (first_acceptable_spec s g ps) as Hf. destruct (first_acceptable s g ps) as [p|].
  { destruct Hf. split_and!; [done..|]. exists [], enabled. split; [done|].
    by intros s' p' ?%elem_of_nil. }
  destruct (selectProposal ps enabled g) as [[p s']|].
  - destruct IH as (? & ? & before & after & -> & Hb). split_and!; [done..|].
    exists (s :: before), after. split; [done|].
    intros s'' p'' [->|?]%elem_of_cons ?; eauto.
  - intros s'' p'' [->|?]%elem_of_cons ?; eauto.
Qed.

(** The choice from a peer's offer follows our preference order: the suite
    selected is the first enabled one that some proposal offers (with the protocol's
    SPI size, and the required DH group if there is one), and nothing is selected
    only when no proposal is acceptable for any enabled suite. *)
Theorem selectProposal_preference ps enabled g :
  match selectProposal ps enabled g with
  | Some (p, s) =>
      p ∈ ps ∧ proposal_acceptable s g p = true ∧
      ∃ before after, enabled = before ++ s :: after ∧
        ∀ s' p', s' ∈ before → p' ∈ ps → proposal_acceptable s' g p' = false
  | None => ∀ s' p', s' ∈ enabled → p' ∈ ps → proposal_acceptable s' g p' = false
  end.
Proof. apply selectProposal_spec. Qed.

Lemma elem_of_buildProposals i spi suites groups p :
  p ∈ buildProposals_from i spi suites groups →
  ∃ n s, is_u8 n ∧ s ∈ suites ∧ p = buildProposalForSuite n s spi groups.
Proof.
  revert i. induction suites as [|s suites IH]; intros i; cbn [buildProposals_from];
    [by intros ?%elem_of_nil|].
  intros [->|Hp]%elem_of_cons.
  - exists (u8 (i + 1)), s. split_and!; [apply byte_ok_u8|apply list_elem_of_here|done].
  - destruct (IH _ Hp) as (n & s' & ? & ? & ->). exists n, s'.
    split_and!; [done|by apply list_elem_of_further|done].
Qed.

Lemma buildProposals_elem i spi suites groups s :
  s ∈ suites → ∃ n, buildProposalForSuite n s spi groups ∈ buildProposals_from i spi suites groups.
Proof.
  revert i. induction suites as [|s' suites IH]; intros i; [by intros ?%elem_of_nil|].
  intros [->|Hs]%elem_of_cons; cbn [buildProposals_from].
  - eexists. apply list_elem_of_here.
  - destruct (IH (i + 1) Hs) as [n ?]. exists n. by apply list_elem_of_further.
Qed.

Lemma acceptable_built l s n s' spi groups g :
  s ∈ table_of l → s' ∈ table_of l → len spi = spiLen s' → (g = 0 ∨ g ∈ groups) →
  proposal_acceptable s g (buildProposalForSuite n s' spi groups) = bool_decide (s = s').
Proof.
  intros Hs Hs' Hspi Hg. unfold proposal_acceptable. rewrite (suiteMatches_built l) by done.
  cbn [pr_SPI buildProposalForSuite]. rewrite proposalHasDHGroup_built.
  destruct (decide (s = s')) as [->|Hne]; [|by rewrite bool_decide_false].
  rewrite bool_decide_true, Hspi, Z.eqb_refl by done. cbn [negb orb].
  destruct Hg as [->|Hg]; [done|]. rewrite (bool_decide_true (g ∈ groups)) by done.
  by rewrite andb_false_r.
Qed.

Lemma selectedSuite_built l n s spi groups enabled :
  s ∈ table_of l → s ∈ enabled → (∀ s', s' ∈ enabled → s' ∈ table_of l) → len groups ≤ 1 →
  selectedSuite (buildProposalForSuite n s spi groups) enabled = Some s.
Proof.
  intros Hs Hin Hsub Hg. induction enabled as [|s' enabled IH]; [by apply elem_of_nil in Hin|].
  cbn [selectedSuite]. rewrite (isSelectionFor_built l) by (try done; apply Hsub, list_elem_of_here).
  destruct (decide (s' = s)) as [->|Hne]; [by rewrite bool_decide_true|].
  rewrite bool_decide_false by done. apply elem_of_cons in Hin as [->|Hin]; [done|].
  apply IH; [done|]. intros s'' ?. by apply Hsub, list_elem_of_further.
Qed.

Lemma negotiate l spi spi' offered enabled groups g common :
  (∀ s, s ∈ offered → s ∈ table_of l) → (∀ s, s ∈ enabled → s ∈ table_of l) →
  common ∈ offered → common ∈ enabled →
  (∀ s, s ∈ offered → len spi = spiLen s) → (g = 0 ∨ g ∈ groups) →
  ∃ p s before after,
    selectProposal (buildProposals spi offered groups) enabled g = Some (p, s) ∧
    s ∈ offered ∧ enabled = before ++ s :: after ∧ (∀ s', s' ∈ before → s' ∉ offered) ∧
    ∀ n, selectedSuite (buildProposalForSuite n s spi' (if g =? 0 then [] else [g])) offered = Some s.
Proof.
  intros Hoff Hen Hc1 Hc2 Hspi Hg. induction enabled as [|s enabled IH]; [by apply elem_of_nil in Hc2|].
  pose proof (Hen s (list_elem_of_here _ _)) as Hs. cbn [selectProposal].
  pose proof (first_acceptable_spec s g (buildProposals spi offered groups)) as Hf.
  destruct (first_acceptable s g (buildProposals spi offered groups)) as [p|] eqn:Hfa.
  - destruct Hf as [Hp Hacc]. apply elem_of_buildProposals in Hp as (n & s' & _ & Hs' & ->).
    rewrite (acceptable_built l) in Hacc by auto. apply bool_decide_eq_true in Hacc as <-.
    eexists _, s, [], enabled. split_and!; [done..|by intros ? ?%elem_of_nil|].
    intros m. apply (selectedSuite_built l); [done..|]. case_if; len_lia.
  - assert (Hno : s ∉ offered).
    { intros Hso. destruct (buildProposals_elem 0 spi offered groups s Hso) as [n Hn].
      specialize (Hf _ Hn). rewrite (acceptable_built l), bool_decide_true in Hf by auto. done. }
    apply elem_of_cons in Hc2 as [->|Hc2]; [done|].
    destruct IH as (p & s' & before & after & Hsel & ? & -> & Hb & ?); [|done|].
    { intros s'' ?. by apply Hen, list_elem_of_further. }
    exists p, s', (s :: before), after. split_and!; [done|done|done| |done].
    intros s'' [->|?]%elem_of_cons; auto.
Qed.

(** C29. Two ends of this client agree on a suite whenever they share one: on the
    initiator's offer, one proposal per enabled suite, the responder selects the
    first suite of its own preference that was offered; and decoding its answer (the
    selected suite with the one group of the exchange) gives the initiator back
    exactly that suite, so both derive the same KEYMAT lengths. *)
Theorem negotiation_agrees l spi spi' offered enabled groups g common :
  (∀ s, s ∈ offered → s ∈ table_of l) → (∀ s, s ∈ enabled → s ∈ table_of l) →
  common ∈ offered → common ∈ enabled →
  (∀ s, s ∈ offered → len spi = spiLen s) → (g = 0 ∨ g ∈ groups) →
  ∃ p s before after,
    selectProposal (buildProposals spi offered groups) enabled g = Some (p, s) ∧
    s ∈ offered ∧ enabled = before ++ s :: after ∧ (∀ s', s' ∈ before → s' ∉ offered) ∧
    ∀ n, selectedSuite (buildProposalForSuite n s spi' (if g =? 0 then [] else [g])) offered = Some s.
Proof. apply negotiate. Qed.

Lemma buildProposals_ok l spi suites groups :
  (∀ s, s ∈ suites → s ∈ table_of l) → bytes_ok spi → len spi ≤ 255 → Forall is_u16 groups →
  Forall proposal_ok (buildProposals spi suites groups).
Proof.
  intros Hsub Hspi Hlen Hg. apply Forall_lookup_2. intros i p Hp%list_elem_of_lookup_2.
  apply elem_of_buildProposals in Hp as (n & s & Hn & Hs%Hsub & ->).
  assert (Hdh : Forall transform_ok (plain_transform TransformDH <$> groups)).
  { apply Forall_fmap. eapply Forall_impl; [|exact Hg]. by intros g ?. }
  destruct l; unfold table_of, espSuites, ikeSuites in Hs; table_cases Hs;
    constructor; cbn -[TransformDH]; try done; rewrite ?Forall_cons_iff, ?Forall_app;
    repeat split; try done; by repeat constructor.
Qed.

(** Whatever suites and (16-bit) groups are enabled, the proposals we offer
    are well formed for the message codec, so that they survive the wire. *)
Theorem buildProposals_wf l spi suites groups :
  (∀ s, s ∈ suites → s ∈ table_of l) → bytes_ok spi → len spi ≤ 255 → Forall is_u16 groups →
  Forall proposal_ok (buildProposals spi suites groups).
Proof. apply buildProposals_ok. Qed.

Lemma suite_keymat s oe oi ie ii :
  s ∈ espSuites → len oe = su_encrKeyLen s → len ie = su_encrKeyLen s →
  len oi = su_integKeyLen s → len ii = su_integKeyLen s → keys_fit (su_id s) oe oi ie ii = true.
Proof.
  intros Hs. unfold espSuites in Hs. table_cases Hs; cbn; intros -> -> -> ->; reflexivity.
Qed.

(** The KEYMAT lengths of the suite tables are the ones the transforms demand:
    keys of a row's lengths always build an ESP SA of that suite, and the IKE rows
    agree with the key schedule of the SK envelope. *)
Theorem suite_keymat_fits s :
  (s ∈ espSuites → ∀ oe oi ie ii,
     len oe = su_encrKeyLen s → len ie = su_encrKeyLen s →
     len oi = su_integKeyLen s → len ii = su_integKeyLen s →
     keys_fit (su_id s) oe oi ie ii = true) ∧
  (s ∈ ikeSuites → keyLens (su_id s) = (su_encrKeyLen s, su_integKeyLen s)).
Proof.
  split; [intros Hs *; by apply suite_keymat|].
  intros Hs; unfold ikeSuites in Hs; by table_cases Hs.
Qed.

(** ** Witnesses *)

Definition gcm_row : transformSuite :=
  {| su_layer := LayerESP; su_id := Esp.SuiteAESGCM256; su_encrID := ENCR_AES_GCM_16;
     su_keyBits := keyLenAES256; su_encrKeyLen := 36; su_integID := 0; su_integKeyLen := 0 |}.

Lemma gcm_row_in : gcm_row ∈ espSuites.
Proof. apply list_elem_of_here. Qed.

Lemma selection_unique_witness :
  isSelectionFor gcm_row (buildProposalForSuite 1 gcm_row [1; 2; 3; 4] [31]) = true ∧
  ∀ s, s ∈ espSuites →
    isSelectionFor s (buildProposalForSuite 1 gcm_row [1; 2; 3; 4] [31]) = true → gcm_row = s.
Proof.
  split; [reflexivity|]. intros s Hs Hsel.
  eapply (selection_unique LayerESP gcm_row s); [apply gcm_row_in|done| |exact Hsel]. reflexivity.
Defined.

Lemma negotiation_agrees_witness :
  ∃ p s, selectProposal (buildProposals [1; 2; 3; 4] espSuites [31; 14]) [gcm_row] 14 = Some (p, s) ∧
    selectedSuite (buildProposalForSuite 1 s [5; 6; 7; 8] [14]) espSuites = Some s.
Proof.
  destruct (negotiation_agrees LayerESP [1; 2; 3; 4] [5; 6; 7; 8] espSuites [gcm_row] [31; 14] 14 gcm_row)
    as (p & s & _ & _ & H1 & _ & _ & _ & H2).
  - done.
  - intros s ->%list_elem_of_singleton. apply gcm_row_in.
  - apply gcm_row_in.
  - by apply list_elem_of_singleton.
  - intros s Hs. unfold espSuites in Hs. table_cases Hs; reflexivity.
  - right. apply list_elem_of_further, list_elem_of_here.
  - exists p, s. split; [done|]. apply (H2 1).
Defined.

Lemma buildProposals_wf_witness :
  Forall proposal_ok (buildProposals [1; 2; 3; 4] espSuites [31; 14]).
Proof. apply (buildProposals_wf LayerESP); [done|by repeat constructor|done|by repeat constructor]. Defined.

Lemma suite_keymat_fits_witness :
  keys_fit (su_id gcm_row) (replicate 36 1) [] (replicate 36 2) [] = true.
Proof. apply (suite_keymat_fits gcm_row); [apply gcm_row_in|reflexivity..]. Defined.
