(* ===== verification/Natt.v ===== *)
(** * NAT traversal (internal/natt, internal/session/natt.go)

    The non-ESP marker that separates IKE from ESP on UDP port 4500, the
    NAT-detection hashes, and the session's receive loop over them.  SHA-1
    (crypto/sha1) is a parameter. *)

From S2P Require Import Prelude IkePayload.

Definition Port500 := 500.
Definition Port4500 := 4500.
Definition nonESPMarker : bytes := [0; 0; 0; 0].
Definition KeepaliveByte := 0xFF.

(** netip.Addr: an IPv4 or an IPv6 address. *)
Inductive Addr := Addr4 (a : bytes) | Addr6 (a : bytes).

Definition addr_bytes (ip : Addr) : bytes := match ip with Addr4 a | Addr6 a => a end.

Inductive Kind := KindUnknown | KindIKE | KindESP | KindKeepalive.

#[export] Instance Kind_eq_dec : EqDecision Kind.
Proof. solve_decision. Defined.

Definition WrapIKE (ike : bytes) : bytes := nonESPMarker ++ ike.

Definition Classify {E} (datagram : bytes) : Res E (Kind * bytes) :=
  b0 ← (if len datagram =? 1 then b ← index datagram 0; Ok (b =? KeepaliveByte) else Ok false);
  if (b0 : bool) then Ok (KindKeepalive, [])
  else if len datagram >=? 4 then
    h ← slice datagram 0 4;
    spi ← Uint32 h;
    if spi =? 0 then rest ← slice_from datagram 4; Ok (KindIKE, rest)
    else Ok (KindESP, datagram)
  else Ok (KindUnknown, []).

Section detection.
Context (sha1 : bytes → bytes).

Definition DetectionHash (spiI spiR : Z) (ip : Addr) (port : Z) : bytes :=
  sha1 (put64 spiI ++ put64 spiR ++ addr_bytes ip ++ put16 port).

(** Two ends of the session's socket, as the session sees them. *)
Record endpoints := {
  localIP : Addr;
  localPort : Z;
  remoteIP : Addr;
  remotePort : Z;
}.

Definition appendNATDetection (e : endpoints) (spiI spiR : Z) (c : list Payload) : list Payload :=
  let src := DetectionHash spiI spiR (localIP e) (localPort e) in
  let dst := DetectionHash spiI spiR (remoteIP e) (remotePort e) in
  c ++ [NotifyPayload 0 NotifyNATDetectionSourceIP [] src;
        NotifyPayload 0 NotifyNATDetectionDestinationIP [] dst].

(** The NAT-detection notifies as (type, data); the result is s.natDetected. *)
Fixpoint processNATDetection_loop (expectPeerSrc expectOurDst : bytes)
    (notifies : list (Z * bytes)) (natDetected : bool) : bool :=
  match notifies with
  | [] => natDetected
  | (ty, data) :: rest =>
      let natDetected :=
        if ty =? NotifyNATDetectionSourceIP then
          if negb (bool_decide (data = expectPeerSrc)) then true else natDetected
        else if ty =? NotifyNATDetectionDestinationIP then
          if negb (bool_decide (data = expectOurDst)) then true else natDetected
        else natDetected in
      processNATDetection_loop expectPeerSrc expectOurDst rest natDetected
  end.

Definition processNATDetection (e : endpoints) (spiI spiR : Z) (notifies : list (Z * bytes))
    (natDetected : bool) : bool :=
  if len notifies =? 0 then natDetected
  else
    processNATDetection_loop
      (DetectionHash spiI spiR (remoteIP e) (remotePort e))
      (DetectionHash spiI spiR (localIP e) (localPort e)) notifies natDetected.

(** The NAT-detection notifies of a payload chain. *)
Fixpoint natNotifies (ps : list Payload) : list (Z * bytes) :=
  match ps with
  | [] => []
  | NotifyPayload _ ty _ data :: rest =>
      if (ty =? NotifyNATDetectionSourceIP) || (ty =? NotifyNATDetectionDestinationIP)
      then (ty, data) :: natNotifies rest else natNotifies rest
  | _ :: rest => natNotifies rest
  end.

End detection.

(** frameDatagram: the datagram an IKE message goes out as. *)
Definition frameDatagram (nattMode : bool) (ike : bytes) : bytes :=
  if nattMode then WrapIKE ike else ike.

(** recvDatagram: the next IKE message off the socket, given what the socket
    delivers; [None] when the socket returns an error before one arrives. *)
Fixpoint recvDatagram {E} (nattMode : bool) (incoming : list bytes) : Res E (option (bytes * list bytes)) :=
  match incoming with
  | [] => Ok None
  | raw :: rest =>
      if negb nattMode then Ok (Some (raw, rest))
      else
        '(kind, payload) ← Classify raw;
        match kind with
        | KindIKE => Ok (Some (payload, rest))
        | _ => recvDatagram nattMode rest
        end
  end.

(** ** Properties *)

Lemma Classify_marker {E} ike : Classify (E:=E) (WrapIKE ike) = Ok (KindIKE, ike).
Proof.
  unfold Classify, WrapIKE, nonESPMarker. cbn [app]. rewrite !len_cons. len_pos.
  replace (1 + (1 + (1 + (1 + len ike))) =? 1) with false by lia. go_step.
  replace (1 + (1 + (1 + (1 + len ike))) >=? 4) with true by lia.
  go_lit. go_step. rewrite be_read_ok by done. go_step. change (be_get _) with 0. cbn [Z.eqb].
  go_lit. done.
Qed.

Lemma Classify_spi {E} spi rest :
  is_u32 spi → spi ≠ 0 → Classify (E:=E) (put32 spi ++ rest) = Ok (KindESP, put32 spi ++ rest).
Proof.
  intros Hs Hne. unfold Classify. go_if. go_step. go_if.
  rewrite slice_hit by len_lia. go_step. rewrite be_read_exact by done. go_step. by go_if.
Qed.

Lemma Classify_yields {E} d : bytes_ok d → yields (λ kp, bytes_ok kp.2) (Classify (E:=E) d).
Proof. intros Hd. unfold Classify. go_safe; try done; constructor. Qed.

(** A recvDatagram on the NAT-T port skips everything that is not IKE. *)
Lemma recvDatagram_skips {E} junk ike rest :
  Forall (λ d, ∃ k p, Classify (E:=E) d = Ok (k, p) ∧ k ≠ KindIKE) junk →
  recvDatagram (E:=E) true (junk ++ frameDatagram true ike :: rest) = Ok (Some (ike, rest)).
Proof.
  induction 1 as [|d junk (k & p & Hd & Hk) _ IH]; cbn [app recvDatagram negb].
  - unfold frameDatagram. rewrite Classify_marker. done.
  - rewrite Hd. cbn. destruct k; [exact IH|done|exact IH|exact IH].
Qed.

(** On the shared NAT-T port nothing is misdelivered: every IKE message sent
    comes back out of the demultiplexer as that message (marker stripped), every
    packet that starts with a non-zero SPI comes out as ESP unchanged, the keepalive
    is recognised, the classification of any datagram is total, and a reader that
    waits for IKE skips whatever else arrives before it. *)
Theorem Classify_demux {E} :
  (∀ ike, Classify (E:=E) (WrapIKE ike) = Ok (KindIKE, ike)) ∧
  (∀ spi rest, is_u32 spi → spi ≠ 0 →
     Classify (E:=E) (put32 spi ++ rest) = Ok (KindESP, put32 spi ++ rest)) ∧
  Classify (E:=E) [KeepaliveByte] = Ok (KindKeepalive, []) ∧
  (∀ d, bytes_ok d → safe (Classify (E:=E) d)) ∧
  (∀ junk ike rest, Forall (λ d, ∃ k p, Classify (E:=E) d = Ok (k, p) ∧ k ≠ KindIKE) junk →
     recvDatagram (E:=E) true (junk ++ frameDatagram true ike :: rest) = Ok (Some (ike, rest))).
Proof.
  split_and!; [apply Classify_marker|apply Classify_spi|done| |apply recvDatagram_skips].
  intros d Hd. by eapply yields_safe, Classify_yields.
Qed.

(** NAT detection is exact up to the hash: on the notifies a peer builds from
    its own view of the path, a NAT is reported exactly when one of the two hashes
    differs from the one computed from our view; so it is never reported when the
    two ends see the same addresses, and a NAT already reported stays reported. *)
Theorem nat_detection_exact (sha1 : bytes → bytes) e e' spiI spiR detected :
  (processNATDetection sha1 e spiI spiR
     (natNotifies (appendNATDetection sha1 e' spiI spiR [])) detected = true ↔
   detected = true ∨
   DetectionHash sha1 spiI spiR (localIP e') (localPort e') ≠
     DetectionHash sha1 spiI spiR (remoteIP e) (remotePort e) ∨
   DetectionHash sha1 spiI spiR (remoteIP e') (remotePort e') ≠
     DetectionHash sha1 spiI spiR (localIP e) (localPort e)) ∧
  (localIP e' = remoteIP e → localPort e' = remotePort e →
   remoteIP e' = localIP e → remotePort e' = localPort e →
   processNATDetection sha1 e spiI spiR
     (natNotifies (appendNATDetection sha1 e' spiI spiR [])) detected = detected).
Proof.
  unfold processNATDetection, appendNATDetection. cbn [app natNotifies].
  cbn -[DetectionHash bool_decide]. split.
  - rewrite bool_decide_decide. destruct (decide _), detected; cbn -[DetectionHash bool_decide];
      try (rewrite bool_decide_decide; destruct (decide _)); cbn; intuition congruence.
  - intros -> -> -> ->. by rewrite !bool_decide_eq_true_2.
Qed.
