(* ===== verification/Protected.v ===== *)
(** * SK-protected IKE messages (internal/session/protected.go)

    An IKE SA together with the message codec: the inner payloads are marshalled,
    encrypted into an SK payload, framed in an IKE message and finished with the
    integrity value; the receiving side undoes each step.  The two theorems are
    the end-to-end ones: a protected message reaches the peer as the payloads that
    were sent, and nothing is ever accepted that the SA's keys do not vouch for. *)

From S2P Require Import Prelude IkePayload IkeMsg Crypto IkeSA.

(** ** Errors of the session package *)

Inductive sess_error :=
| ErrInnerEncode (e : msg_error)
| ErrSKEncode (e : msg_error)
| ErrSKDecode (e : msg_error)
| ErrInnerDecode (e : msg_error)
| ErrIke (e : ike_error)
| ErrNoSKPayload
| ErrRandom
| ErrSend
| ErrNotify (t : Z)
| ErrNoChildSA
| ErrKEGroupMismatch (got want : Z)
| ErrUnsolicitedKE
| ErrDHWithoutKE
| ErrMissingSA
| ErrNoProposal
| ErrBadSelection
| ErrMissingNonce
| ErrMissingNonceKE
| ErrNoMatchingProposal.

(** A state computation with its error wrapped. *)
Definition wrapST {S E F A} (g : E → F) (c : ST S E A) : ST S F A :=
  λ s, let '(s', r) := c s in (s', wrap_err g r).

Definition ikeRoleBit (role : Role) : Z :=
  match role with Initiator => FlagInitiator | Responder => 0 end.

(** The first SK payload of a chain. *)
Fixpoint find_SK (ps : Payloads) : option (Z * bytes) :=
  match ps with
  | [] => None
  | EncryptedPayload first data :: _ => Some (first, data)
  | _ :: rest => find_SK rest
  end.

Section protected.
Context {P : Primitives}.

(** [iv] is what the random reader delivers to the CBC suite. *)
Definition encodeSKWith (spii spir exchangeType flags msgID : Z) (inner : Payloads)
    (iv : option bytes) : ST IKESA sess_error bytes :=
  '(firstType, plaintext) ← lift (wrap_err ErrInnerEncode (Payloads_Marshal inner));
  skData ← wrapST ErrIke (EncryptToSK plaintext iv);
  let m := {| m_InitiatorSPI := spii; m_ResponderSPI := spir; m_Exchange := exchangeType;
              m_Flags := flags; m_MessageID := msgID;
              m_Payloads := [EncryptedPayload firstType skData] |} in
  raw ← lift (wrap_err ErrSKEncode (Message_Marshal m));
  ike ← getS;
  lift (wrap_err ErrIke (FinalizeSK ike raw (len skData))).

Definition encodeSKEmptyWith (spii spir exchangeType flags msgID : Z)
    (iv : option bytes) : ST IKESA sess_error bytes :=
  skData ← wrapST ErrIke (EncryptToSK [] iv);
  let m := {| m_InitiatorSPI := spii; m_ResponderSPI := spir; m_Exchange := exchangeType;
              m_Flags := flags; m_MessageID := msgID;
              m_Payloads := [EncryptedPayload PayloadNone skData] |} in
  raw ← lift (wrap_err ErrSKEncode (Message_Marshal m));
  ike ← getS;
  lift (wrap_err ErrIke (FinalizeSK ike raw (len skData))).

(** (icvOK, (message, inner payloads) or error) *)
Definition decodeSKWith (ike : IKESA) (raw : bytes) : bool * Res sess_error (Message * Payloads) :=
  match wrap_err ErrSKDecode (Parse raw) with
  | Ok m =>
      match find_SK (m_Payloads m) with
      | None => (false, Err ErrNoSKPayload)
      | Some (innerFirst, data) =>
          let '(icvOK, r) := OpenSK ike raw data in
          match r with
          | Ok plaintext =>
              (true, inner ← wrap_err ErrInnerDecode (ParsePayloads innerFirst plaintext);
                     Ok (m, inner))
          | Err e => (icvOK, Err (ErrIke e))
          | Panic => (icvOK, Panic)
          | Hang => (icvOK, Hang)
          end
      end
  | Err e => (false, Err e)
  | Panic => (false, Panic)
  | Hang => (false, Hang)
  end.

End protected.

(** ** Encoding *)

Section proofs.
Context {P : Primitives} {HL : PrimitiveLaws P}.

(** The octets before the SK body: the header and the SK generic header. *)
Definition sk_prefix (spii spir exchangeType flags msgID first n : Z) : bytes :=
  put64 spii ++ put64 spir ++ [PayloadSK; version; exchangeType; flags] ++ put32 msgID ++
  put32 (u32 (headerLen + (genericHeaderLen + n))) ++ [first; 0] ++
  put16 (u16 (genericHeaderLen + n)).

Lemma len_sk_prefix spii spir ex fl id first n : len (sk_prefix spii spir ex fl id first n) = 32.
Proof. unfold sk_prefix. len_lia. Qed.

Lemma Marshal_SK spii spir ex fl id first sk :
  len sk ≤ 0xFFFF - 4 →
  Message_Marshal {| m_InitiatorSPI := spii; m_ResponderSPI := spir; m_Exchange := ex;
                     m_Flags := fl; m_MessageID := id;
                     m_Payloads := [EncryptedPayload first sk] |} =
  Ok (sk_prefix spii spir ex fl id first (len sk) ++ sk).
Proof.
  intros Hlen. unfold Message_Marshal, Payloads_Marshal, sk_prefix.
  cbn [m_Payloads marshalChain marshalBody PayloadType nextType].
  unfold EncryptedPayload_marshalBody. go_step. unfold genericHeaderLen in *. replace (len sk >? 0xFFFF - 4) with false by lia.
  go_step. cbn [m_InitiatorSPI m_ResponderSPI m_Exchange m_Flags m_MessageID].
  rewrite app_nil_r.
  replace (len ([first; 0] ++ put16 (u16 (4 + len sk)) ++ sk)) with (4 + len sk) by len_lia.
  by rewrite <- !app_assoc.
Qed.

Record hdr_ok (spii spir ex fl id : Z) : Prop := {
  hok_spii : is_u64 spii; hok_spir : is_u64 spir; hok_ex : is_u8 ex; hok_fl : is_u8 fl;
  hok_id : is_u32 id;
}.

Lemma sk_prefix_bytes spii spir ex fl id first n :
  hdr_ok spii spir ex fl id → is_u8 first → bytes_ok (sk_prefix spii spir ex fl id first n).
Proof.
  intros [? ? ? ? ?] ?. unfold sk_prefix. bytes_tac; try done.
Qed.

(** Sealing a plaintext in an SK message and opening it with the paired SA. *)
Lemma sealed_opens s s' spii spir ex fl id first pt iv :
  ike_ok s → ike_paired s s' → hdr_ok spii spir ex fl id → is_u8 first → bytes_ok pt →
  len pt + 48 ≤ 0xFFFF - 4 → len iv = 16 → bytes_ok iv →
  ∃ n sk0 sk, EncryptToSK pt (Some iv) s = (with_skSeq s n, Ok sk0) ∧ len sk0 ≤ len pt + 48 ∧
    let prefix := sk_prefix spii spir ex fl id first (len sk0) in
    FinalizeSK (with_skSeq s n) (prefix ++ sk0) (len sk0) = Ok (prefix ++ sk) ∧
    bytes_ok (prefix ++ sk) ∧ len sk = len sk0 ∧
    OpenSK s' (prefix ++ sk) sk = (true, Ok pt).
Proof using HL.
  intros Hok Hpair Hhdr Hfirst Hpt Hlen Hivl Hiv.
  destruct (EncryptToSK_ok s pt iv Hok Hpt Hivl Hiv) as (n & sk0 & Henc & Hsk0 & Hskb).
  exists n, sk0. set (prefix := sk_prefix spii spir ex fl id first (len sk0)).
  pose proof (len_sk_prefix spii spir ex fl id first (len sk0)) as Hpl.
  pose proof (sk_prefix_bytes spii spir ex fl id first (len sk0) Hhdr Hfirst) as Hpb.
  fold prefix in Hpl, Hpb.
  assert (Hopen : ∃ sk, protect s prefix pt (Some iv) = Ok (prefix ++ sk) ∧ bytes_ok sk ∧
                    OpenSK s' (prefix ++ sk) sk = (true, Ok pt)).
  { destruct (aead (ike_Suite s)) eqn:Ha.
    - destruct (protect_open_aead s s' prefix pt (Some iv)) as (sk & ? & _ & ? & ?); eauto with lia.
    - destruct (protect_open_cbc s s' prefix pt iv) as (sk & ? & _ & ? & ?); eauto. }
  destruct Hopen as (sk & Hprot & Hsb & Hop). exists sk. unfold protect in Hprot. rewrite Henc in Hprot.
  pose proof (FinalizeSK_len _ _ _ _ Hprot) as Hfl. rewrite !len_app in Hfl.
  do 2 (split; [done || lia|]). cbv zeta. fold prefix.
  split_and!; [done|by apply bytes_ok_app|lia|done].
Qed.

(** The payload chain inside fits the 16-bit length of the SK payload. *)
Definition fits_SK (pt : bytes) : Prop := len pt + 48 ≤ 0xFFFF - 4.

Lemma Parse_SK spii spir ex fl id first sk raw :
  hdr_ok spii spir ex fl id → is_u8 first → bytes_ok sk → len sk ≤ 0xFFFF - 4 →
  raw = sk_prefix spii spir ex fl id first (len sk) ++ sk →
  Parse raw = Ok {| m_InitiatorSPI := spii; m_ResponderSPI := spir; m_Exchange := ex;
                    m_Flags := fl; m_MessageID := id;
                    m_Payloads := [EncryptedPayload first sk] |}.
Proof.
  intros [? ? ? ? ?] Hfirst Hsk Hlen ->. apply Message_Marshal_roundtrip.
  - constructor; try done. constructor; [done|constructor].
  - done.
  - by apply Marshal_SK.
  - rewrite len_app, len_sk_prefix. lia.
Qed.

(** The SK message around any plaintext: sealed by [s], opened by its peer. *)
Lemma seal_message s s' spii spir ex fl id first pt iv :
  ike_ok s → ike_paired s s' → hdr_ok spii spir ex fl id → is_u8 first → bytes_ok pt →
  fits_SK pt → len iv = 16 → bytes_ok iv →
  ∃ n sk0 raw0 raw sk, EncryptToSK pt (Some iv) s = (with_skSeq s n, Ok sk0) ∧
    Message_Marshal {| m_InitiatorSPI := spii; m_ResponderSPI := spir; m_Exchange := ex;
                       m_Flags := fl; m_MessageID := id;
                       m_Payloads := [EncryptedPayload first sk0] |} = Ok raw0 ∧
    FinalizeSK (with_skSeq s n) raw0 (len sk0) = Ok raw ∧ bytes_ok raw ∧
    Parse raw = Ok {| m_InitiatorSPI := spii; m_ResponderSPI := spir; m_Exchange := ex;
                      m_Flags := fl; m_MessageID := id;
                      m_Payloads := [EncryptedPayload first sk] |} ∧
    OpenSK s' raw sk = (true, Ok pt).
Proof using HL.
  intros Hok Hpair Hhdr Hfirst Hpt Hfit Hivl Hiv. unfold fits_SK in Hfit.
  destruct (sealed_opens s s' spii spir ex fl id first pt iv)
    as (n & sk0 & sk & Henc & Hl0 & Hfin & Hraw & Hl & Hopen); [done..|].
  exists n, sk0, (sk_prefix spii spir ex fl id first (len sk0) ++ sk0),
    (sk_prefix spii spir ex fl id first (len sk0) ++ sk), sk.
  split_and!; [done| |done|done| |done].
  - apply Marshal_SK. lia.
  - eapply Parse_SK; [done|done|by apply bytes_ok_app in Hraw as [_ ?]|lia|by rewrite Hl].
Qed.

(** C26. A protected exchange reaches the peer intact, whatever the suite: any
    well-formed payload list that fits the SK length field is encoded, and the
    other end of the IKE SA decodes the datagram to the same header fields and the
    same payloads, reporting the integrity check as passed; the sender's SA keeps
    its keys (only the IV counter moves). *)
Theorem SK_message_roundtrip s s' spii spir ex fl id inner first pt iv :
  ike_ok s → ike_paired s s' → hdr_ok spii spir ex fl id →
  Forall payload_ok inner → sk_last inner → Payloads_Marshal inner = Ok (first, pt) → fits_SK pt →
  len iv = 16 → bytes_ok iv →
  ∃ n raw sk, encodeSKWith spii spir ex fl id inner (Some iv) s = (with_skSeq s n, Ok raw) ∧
    bytes_ok raw ∧
    decodeSKWith s' raw =
      (true, Ok ({| m_InitiatorSPI := spii; m_ResponderSPI := spir; m_Exchange := ex;
                    m_Flags := fl; m_MessageID := id;
                    m_Payloads := [EncryptedPayload first sk] |}, inner)).
Proof using HL.
  intros Hok Hpair Hhdr Hin Hlast Hm Hfit Hivl Hiv.
  destruct (Payloads_Marshal_roundtrip _ _ _ Hin Hlast Hm) as (Hpt & Hfirst & Hchain).
  destruct (seal_message s s' spii spir ex fl id first pt iv)
    as (n & sk0 & raw0 & raw & sk & Henc & Hmar & Hfin & Hraw & Hparse & Hopen); [done..|].
  exists n, raw, sk. unfold encodeSKWith, decodeSKWith. rewrite Hm. cbn [wrap_err]. rewrite st_lift.
  unfold mbind at 1, ST_bind at 1. unfold wrapST. rewrite Henc. cbn [wrap_err].
  rewrite Hmar. cbn [wrap_err]. rewrite st_lift, st_get, Hfin.
  split_and!; [done|done|]. rewrite Hparse. cbn [wrap_err m_Payloads find_SK]. rewrite Hopen.
  unfold ParsePayloads. by rewrite Hchain.
Qed.

Lemma encodeSKEmptyWith_eq spii spir ex fl id iv s :
  encodeSKEmptyWith spii spir ex fl id iv s = encodeSKWith spii spir ex fl id [] iv s.
Proof. done. Qed.

(** The SA [s] with its IV counter somewhere. *)
Definition same_keys (s s' : IKESA) : Prop := ∃ n, s' = with_skSeq s n.

(** Encoding from a well-formed SA never panics and leaves its keys alone. *)
Lemma encodeSKWith_hoare spii spir ex fl id inner iv s :
  ike_ok s → hoare (same_keys s) (encodeSKWith spii spir ex fl id inner iv) (λ _, True).
Proof using HL.
  intros Hok. unfold encodeSKWith.
  eapply hoare_bind; [apply hoare_lift, wrap_err_yields, Payloads_Marshal_safe|].
  intros [first pt] _. apply hoare_bind with (Q := λ _, True).
  - intros s' [n ->]. destruct (EncryptToSK_safe (with_skSeq s n) pt iv) as (m & Hm & Hy);
      [by apply with_skSeq_ok|].
    unfold wrapST. destruct (EncryptToSK pt iv (with_skSeq s n)) as [s'' r]. cbn in Hm, Hy |- *.
    split; [by exists m; subst|by apply wrap_err_yields].
  - intros sk _. eapply hoare_bind; [apply hoare_lift, wrap_err_yields, Message_Marshal_safe|].
    intros raw _. eapply hoare_bind; [apply hoare_get|]. intros s' [n ->].
    apply hoare_lift, wrap_err_yields, FinalizeSK_safe. by apply with_skSeq_ok.
Qed.

Lemma find_SK_ok ps first data :
  Forall payload_ok ps → find_SK ps = Some (first, data) → is_u8 first ∧ bytes_ok data.
Proof.
  induction 1 as [|p ps Hp _ IH]; [done|].
  destruct p; cbn [find_SK]; try apply IH. by intros [= <- <-].
Qed.

(** A received SK message the SA's keys vouch for. *)
Definition authentic_message (ike : IKESA) (raw : bytes) (m : Message) : Prop :=
  Parse raw = Ok m ∧ ∃ first data, find_SK (m_Payloads m) = Some (first, data) ∧
                       sk_authentic ike raw data.

Lemma decodeSKWith_post ike raw icvOK r :
  ike_ok ike → bytes_ok raw → decodeSKWith ike raw = (icvOK, r) →
  yields (λ '(m, inner), message_ok m ∧ Forall payload_ok inner ∧ authentic_message ike raw m ∧
                         icvOK = true) r ∧
  (icvOK = true → ∃ m, authentic_message ike raw m).
Proof using HL.
  intros Hok Hraw. unfold decodeSKWith. pose proof (Parse_ok raw Hraw) as Hp.
  destruct (Parse raw) as [m|e| |] eqn:Hparse; cbn [wrap_err]; [|intros [= <- <-]; done|done|done].
  cbn [yields] in Hp. destruct (find_SK (m_Payloads m)) as [[first data]|] eqn:Hf;
    [|by intros [= <- <-]].
  destruct (find_SK_ok _ _ _ (mok_Payloads m Hp) Hf) as [Hfirst Hdata].
  destruct (OpenSK ike raw data) as [icv ro] eqn:Ho.
  destruct (OpenSK_post ike raw data icv ro) as (Hy & Hauth & Hno); [done..|].
  assert (Hmsg : icv = true → authentic_message ike raw m).
  { intros Hicv. split; [done|]. exists first, data. auto. }
  destruct ro as [pt|e| |]; cbn [yields] in Hy; [|intros [= <- <-]; eauto|done|done].
  intros [= <- <-]. assert (icv = true) as -> by (destruct icv; [done|by specialize (Hno eq_refl)]).
  split; [|eauto]. eapply yields_bind; [apply wrap_err_yields; by apply parseChain_ok|].
  intros inner Hinner. cbn [yields]. auto.
Qed.

(** C27. Nothing unauthenticated gets past decodeSKWith: on an arbitrary datagram it
    returns without a panic or a loop; it yields a message only when the
    integrity value verifies under this SA's inbound keys over the whole datagram,
    and then header and inner payloads are well formed; and it reports icvOK (which
    stops the caller from trying the superseded SA) only for such a datagram. *)
Theorem decodeSKWith_authenticates ike raw :
  ike_ok ike → bytes_ok raw →
  let '(icvOK, r) := decodeSKWith ike raw in
  yields (λ '(m, inner), message_ok m ∧ Forall payload_ok inner ∧ authentic_message ike raw m ∧
                         icvOK = true) r ∧
  (icvOK = true → ∃ m, authentic_message ike raw m).
Proof using HL.
  intros. destruct (decodeSKWith ike raw) as [icvOK r] eqn:Hd. by apply decodeSKWith_post.
Qed.

End proofs.

(** ** Witnesses *)

Lemma SK_message_roundtrip_witness :
  ∃ s s' n raw sk, ike_Suite s = SuiteAESGCM256 ∧
    encodeSKWith (P:=toy_primitives) 1 2 ExchangeInformational FlagInitiator 7
      [DeletePayload ProtocolIKE []] (Some (replicate 16 3)) s = (with_skSeq s n, Ok raw) ∧
    decodeSKWith (P:=toy_primitives) s' raw =
      (true, Ok ({| m_InitiatorSPI := 1; m_ResponderSPI := 2; m_Exchange := ExchangeInformational;
                    m_Flags := FlagInitiator; m_MessageID := 7;
                    m_Payloads := [EncryptedPayload PayloadDelete sk] |},
                 [DeletePayload ProtocolIKE []])).
Proof.
  destruct (derive_mirror (HL:=toy_laws) SuiteAESGCM256 1 2 (replicate 16 5) (replicate 16 6) [7])
    as (si & sr & _ & _ & [H1 _] & [H2 _] & _ & _ & _ & Hs & _).
  destruct (SK_message_roundtrip (HL:=toy_laws) si sr 1 2 ExchangeInformational FlagInitiator 7
    [DeletePayload ProtocolIKE []] PayloadDelete [0; 0; 0; 8; 1; 0; 0; 0] (replicate 16 3))
    as (n & raw & sk & He & _ & Hd).
  - done.
  - done.
  - by constructor.
  - constructor; [|constructor]. by split; [|constructor].
  - done.
  - reflexivity.
  - done.
  - done.
  - by apply Forall_replicate.
  - exists si, sr, n, raw, sk. auto.
Defined.

Lemma decodeSKWith_authenticates_witness :
  ∃ s, ike_Suite s = SuiteAESGCM256 ∧
    yields (λ '(m, inner), message_ok m ∧ Forall payload_ok inner ∧
                           authentic_message (P:=toy_primitives) s (replicate 64 1) m)
           (decodeSKWith (P:=toy_primitives) s (replicate 64 1)).2.
Proof.
  destruct (derive_mirror (HL:=toy_laws) SuiteAESGCM256 1 2 (replicate 16 5) (replicate 16 6) [7])
    as (si & sr & _ & _ & [H1 _] & _ & _ & _ & _ & Hs & _). exists si. split; [done|].
  pose proof (decodeSKWith_authenticates (HL:=toy_laws) si (replicate 64 1) H1) as H.
  destruct (decodeSKWith si (replicate 64 1)) as [icv r].
  destruct H as [H _]; [by apply Forall_replicate|]. eapply yields_mono; [|exact H].
  by intros [m inner] (? & ? & ? & _).
Defined.
