(* ===== verification/Session.v ===== *)
(** * The session state and its surroundings (internal/session)

    The state every later component of the session package works on: the Session
    and Config records (session.go), the records of a pending exchange and of an
    IKE SA with its SPIs (rekey.go), the environment the code reads (clock, random
    source, socket, data plane), the timing helpers and the payload helpers shared
    by the handshake and the driver.

    IKE SAs are shared by pointer in the source (the current SA, the superseded
    one, and the context a datagram was decoded under may be the same object), so
    the state carries a store of IKE SAs and pointers are indices into it. *)

From S2P Require Import Prelude IkePayload IkeMsg Crypto IkeSA Suite Natt Protected.

(** ** Time *)

(** time.Time: the wall clock and, unless stripped by Round(0), the monotonic one. *)
Record Time := { t_wall : Z; t_mono : option Z }.

Definition zeroTime : Time := {| t_wall := 0; t_mono := None |}.
Definition IsZero (t : Time) : bool := t_wall t =? 0.
Definition Round0 (t : Time) : Time := {| t_wall := t_wall t; t_mono := None |}.
Definition Add (t : Time) (d : Z) : Time :=
  {| t_wall := t_wall t + d; t_mono := (λ m, m + d) <$> t_mono t |}.
Definition time_diff (t u : Time) : Z :=
  match t_mono t, t_mono u with
  | Some a, Some b => a - b
  | _, _ => t_wall t - t_wall u
  end.
Definition After (t u : Time) : bool := time_diff t u >? 0.
Definition Before (t u : Time) : bool := time_diff t u <? 0.
(** Sub saturates at the bounds of time.Duration. *)
Definition Sub (t u : Time) : Z := Z.max (- 2 ^ 63) (Z.min (2 ^ 63 - 1) (time_diff t u)).

Definition Second : Z := 10 ^ 9.
Definition Minute : Z := 60 * Second.

(** ** Configuration and state *)

Record WireID := { id_Type : Z; id_Data : bytes }.

Record Config := {
  LocalID : WireID;
  RemoteID : WireID;
  EAPUser : bytes;
  EAPPass : bytes;
  PSK : bytes;
  DPDTimeout : Z;
  RekeyLifetime : Z;
  IKERekeyLifetime : Z;
  RekeyMaxPackets : Z;
  ChildSAPFS : bool;
  ESPSuites : list Z;
  IKESuites : list Z;
  RequestIPv6 : bool;
  RetransmitBase : Z;
  RetransmitMax : Z;
  RetransmitTries : Z;
}.

Record ChildSA := {
  ch_InitiatorSPI : Z;
  ch_ResponderSPI : Z;
  ch_Suite : Z;
  ch_Keys : ChildKeys;
}.

(** Addresses as their octets; [None] is the zero netip.Addr. *)
Record Assigned := {
  as_IP : option bytes;
  as_Netmask : option bytes;
  as_DNS : list bytes;
  as_IP6 : option (bytes * Z);
  as_DNS6 : list bytes;
}.

Definition noAssigned : Assigned :=
  {| as_IP := None; as_Netmask := None; as_DNS := []; as_IP6 := None; as_DNS6 := [] |}.

Record ChildSAUpdate := {
  NewInSPI : Z;
  NewOutSPI : Z;
  OldInSPI : Z;
  up_Suite : Z;
  OutEncr : bytes;
  OutInteg : bytes;
  InEncr : bytes;
  InInteg : bytes;
}.

(** [c_sa] is the index of the SA in the store. *)
Record ikeCtx := { c_sa : nat; c_spii : Z; c_spir : Z }.

Inductive exchangeKind := exDPD | exChildRekey | exIKERekey | exDelete.

#[export] Instance exchangeKind_eq_dec : EqDecision exchangeKind.
Proof. solve_decision. Defined.

Record childRekeyCtx := {
  cr_newInSPI : Z;
  cr_oldInSPI : Z;
  cr_ni : bytes;
  cr_reestablish : bool;
  cr_dh : option DH;
}.

Record ikeRekeyCtx := { ir_newSPIi : Z; ir_ni : bytes; ir_dh : DH }.

Record pendingExchange := {
  px_kind : exchangeKind;
  px_msgID : Z;
  px_raw : bytes;
  px_attempts : Z;
  px_nextRetransmit : Time;
  px_child : option childRekeyCtx;
  px_ike : option ikeRekeyCtx;
  px_fast : bool;
}.

Record peerDedup := { pd_msgID : Z; pd_set : bool; pd_resp : option bytes }.
Definition noPeer : peerDedup := {| pd_msgID := 0; pd_set := false; pd_resp := None |}.

(** [sas] is the store of IKE SAs; [calls], [sent] and [installed] record the
    reads of the environment, the datagrams the socket took, and the
    InstallChildSA calls made on the data plane. *)
Record Session := mkSession {
  cfg : Config;
  sas : list IKESA;
  calls : nat;
  sent : list bytes;
  installed : list ChildSAUpdate;
  initiatorSPI : Z;
  responderSPI : Z;
  ikeSA : option nat;
  dh : option DH;
  nonceI : bytes;
  nonceR : bytes;
  peerDHPub : bytes;
  initSAInitReq : bytes;
  initSAInitRsp : bytes;
  messageID : Z;
  childInitiatorSPI : Z;
  remoteIDr : WireID;
  child : option ChildSA;
  assigned : Assigned;
  established : bool;
  nattMode : bool;
  natDetected : bool;
  dataPlane : bool;
  pending : option pendingExchange;
  lastInbound : Time;
  lastTickWall : Time;
  fastDPDDue : bool;
  childInstalledAt : Time;
  ikeInstalledAt : Time;
  nextChildRekey : Time;
  nextIKERekey : Time;
  nextVolumeRekey : Time;
  oldIKE : option ikeCtx;
  oldIKEUntil : Time;
  childReestablish : bool;
  nextChildReestablish : Time;
  childPFS : bool;
  ikeDHGroup : Z;
  childPFSGroup : Z;
  peer : peerDedup;
  oldPeer : peerDedup;
  oldIKEDelete : option pendingExchange;
}.

(** One field of the state replaced. *)
Ltac with_field s p v :=
  let f q := first [ constr_eq p q; exact v | exact (q s) ] in
  exact (mkSession ltac:(f cfg) ltac:(f sas) ltac:(f calls) ltac:(f sent) ltac:(f installed)
      ltac:(f initiatorSPI) ltac:(f responderSPI) ltac:(f ikeSA) ltac:(f dh) ltac:(f nonceI)
      ltac:(f nonceR) ltac:(f peerDHPub) ltac:(f initSAInitReq) ltac:(f initSAInitRsp)
      ltac:(f messageID) ltac:(f childInitiatorSPI) ltac:(f remoteIDr) ltac:(f child)
      ltac:(f assigned) ltac:(f established) ltac:(f nattMode) ltac:(f natDetected)
      ltac:(f dataPlane) ltac:(f pending) ltac:(f lastInbound) ltac:(f lastTickWall)
      ltac:(f fastDPDDue) ltac:(f childInstalledAt) ltac:(f ikeInstalledAt)
      ltac:(f nextChildRekey) ltac:(f nextIKERekey) ltac:(f nextVolumeRekey) ltac:(f oldIKE)
      ltac:(f oldIKEUntil) ltac:(f childReestablish) ltac:(f nextChildReestablish)
      ltac:(f childPFS) ltac:(f ikeDHGroup) ltac:(f childPFSGroup) ltac:(f peer) ltac:(f oldPeer)
      ltac:(f oldIKEDelete)).

Definition set_sas (v : list IKESA) (s : Session) : Session := ltac:(with_field s sas v).
Definition set_calls (v : nat) (s : Session) : Session := ltac:(with_field s calls v).
Definition set_sent (v : list bytes) (s : Session) : Session := ltac:(with_field s sent v).
Definition set_installed (v : list ChildSAUpdate) (s : Session) : Session := ltac:(with_field s installed v).
Definition set_initiatorSPI (v : Z) (s : Session) : Session := ltac:(with_field s initiatorSPI v).
Definition set_responderSPI (v : Z) (s : Session) : Session := ltac:(with_field s responderSPI v).
Definition set_ikeSA (v : option nat) (s : Session) : Session := ltac:(with_field s ikeSA v).
Definition set_dh (v : option DH) (s : Session) : Session := ltac:(with_field s dh v).
Definition set_nonceI (v : bytes) (s : Session) : Session := ltac:(with_field s nonceI v).
Definition set_nonceR (v : bytes) (s : Session) : Session := ltac:(with_field s nonceR v).
Definition set_peerDHPub (v : bytes) (s : Session) : Session := ltac:(with_field s peerDHPub v).
Definition set_initSAInitReq (v : bytes) (s : Session) : Session := ltac:(with_field s initSAInitReq v).
Definition set_initSAInitRsp (v : bytes) (s : Session) : Session := ltac:(with_field s initSAInitRsp v).
Definition set_messageID (v : Z) (s : Session) : Session := ltac:(with_field s messageID v).
Definition set_childInitiatorSPI (v : Z) (s : Session) : Session := ltac:(with_field s childInitiatorSPI v).
Definition set_remoteIDr (v : WireID) (s : Session) : Session := ltac:(with_field s remoteIDr v).
Definition set_child (v : option ChildSA) (s : Session) : Session := ltac:(with_field s child v).
Definition set_assigned (v : Assigned) (s : Session) : Session := ltac:(with_field s assigned v).
Definition set_established (v : bool) (s : Session) : Session := ltac:(with_field s established v).
Definition set_nattMode (v : bool) (s : Session) : Session := ltac:(with_field s nattMode v).
Definition set_natDetected (v : bool) (s : Session) : Session := ltac:(with_field s natDetected v).
Definition set_pending (v : option pendingExchange) (s : Session) : Session := ltac:(with_field s pending v).
Definition set_lastInbound (v : Time) (s : Session) : Session := ltac:(with_field s lastInbound v).
Definition set_lastTickWall (v : Time) (s : Session) : Session := ltac:(with_field s lastTickWall v).
Definition set_fastDPDDue (v : bool) (s : Session) : Session := ltac:(with_field s fastDPDDue v).
Definition set_childInstalledAt (v : Time) (s : Session) : Session := ltac:(with_field s childInstalledAt v).
Definition set_ikeInstalledAt (v : Time) (s : Session) : Session := ltac:(with_field s ikeInstalledAt v).
Definition set_nextChildRekey (v : Time) (s : Session) : Session := ltac:(with_field s nextChildRekey v).
Definition set_nextIKERekey (v : Time) (s : Session) : Session := ltac:(with_field s nextIKERekey v).
Definition set_nextVolumeRekey (v : Time) (s : Session) : Session := ltac:(with_field s nextVolumeRekey v).
Definition set_oldIKE (v : option ikeCtx) (s : Session) : Session := ltac:(with_field s oldIKE v).
Definition set_oldIKEUntil (v : Time) (s : Session) : Session := ltac:(with_field s oldIKEUntil v).
Definition set_childReestablish (v : bool) (s : Session) : Session := ltac:(with_field s childReestablish v).
Definition set_nextChildReestablish (v : Time) (s : Session) : Session := ltac:(with_field s nextChildReestablish v).
Definition set_childPFS (v : bool) (s : Session) : Session := ltac:(with_field s childPFS v).
Definition set_ikeDHGroup (v : Z) (s : Session) : Session := ltac:(with_field s ikeDHGroup v).
Definition set_childPFSGroup (v : Z) (s : Session) : Session := ltac:(with_field s childPFSGroup v).
Definition set_peer (v : peerDedup) (s : Session) : Session := ltac:(with_field s peer v).
Definition set_oldPeer (v : peerDedup) (s : Session) : Session := ltac:(with_field s oldPeer v).
Definition set_oldIKEDelete (v : option pendingExchange) (s : Session) : Session := ltac:(with_field s oldIKEDelete v).

(** ** The environment

    What the session reads from outside: the n-th answer to each kind of call.
    [w_rand n k] is the n-th read of k octets from crypto/rand ([None]: it failed),
    [w_dh] what NewDH draws, [w_send] whether the socket takes the datagram,
    [w_scale] the float64 product of a lifetime and the jitter factor for a
    16-bit random value ([None] when the random read failed and 0.5 is used). *)
Class World := {
  w_clock : nat → Time;
  w_rand : nat → Z → option bytes;
  w_dh : nat → Z → dh_random;
  w_send : nat → bool;
  w_scale : Z → option Z → Z;
  w_LastDataInbound : nat → Time;
  w_ChildSAVolume : nat → Z;
}.

(** crypto/rand fills the whole buffer with octets or fails; NewDH draws a private
    value in the range it asks for; time.Now is never the zero time. *)
Class WorldLaws (W : World) : Prop := {
  rand_len n k b : w_rand n k = Some b → len b = Z.max 0 k ∧ bytes_ok b;
  dh_ok n g : dh_random_ok (w_dh n g);
  clock_set n : IsZero (w_clock n) = false;
}.

Abbreviation SM := (ST Session sess_error).

(** Run [c]; a Go error becomes a value the caller inspects. *)
Definition attempt {S E F A} (c : ST S E A) : ST S F (E + A) := λ s,
  match c s with
  | (s', Ok a) => (s', Ok (inr a))
  | (s', Err e) => (s', Ok (inl e))
  | (s', Panic) => (s', Panic)
  | (s', Hang) => (s', Hang)
  end.

Definition gets {A} (f : Session → A) : SM A := λ s, (s, Ok (f s)).

(** The sequence number of the next call to the environment. *)
Definition tick : SM nat :=
  s ← getS;
  _ ← putS (set_calls (S (calls s)) s);
  mret (calls s).

Section session.
Context {P : Primitives} {W : World}.

Definition now : SM Time := n ← tick; mret (w_clock n).

Definition randBytes (k : Z) : SM bytes :=
  n ← tick;
  match w_rand n k with Some b => mret b | None => throw ErrRandom end.

Definition randUint64 : SM Z := b ← randBytes 8; lift (Uint64 b).

Definition NewDH (group : Z) : SM DH := n ← tick; lift (wrap_err ErrIke (newDH group (w_dh n group))).

Definition sendDatagram (ike : bytes) : SM unit :=
  n ← tick;
  s ← getS;
  if w_send n then putS (set_sent (sent s ++ [frameDatagram (nattMode s) ike]) s) else throw ErrSend.

Definition LastDataInbound : SM Time := n ← tick; mret (w_LastDataInbound n).
Definition ChildSAVolume : SM Z := n ← tick; mret (w_ChildSAVolume n).

(** s.dataPlane.InstallChildSA(u): a nil data plane panics. *)
Definition InstallChildSA (u : ChildSAUpdate) : SM unit :=
  s ← getS;
  if dataPlane s then putS (set_installed (installed s ++ [u]) s) else lift Panic.

(** ** IKE SAs by pointer *)

Definition load (p : nat) : SM IKESA := s ← getS; lift (deref (sas s !! p)).

(** s.ikeSA, dereferenced *)
Definition current : SM nat := s ← getS; lift (deref (ikeSA s)).

Definition alloc (ike : IKESA) : SM nat :=
  s ← getS;
  _ ← putS (set_sas (sas s ++ [ike]) s);
  mret (length (sas s)).

(** A method of the SA that [p] points to. *)
Definition on_sa {A} (p : nat) (c : ST IKESA sess_error A) : SM A :=
  ike ← load p;
  let '(ike', r) := c ike in
  _ ← modifyS (λ s, set_sas (<[p:=ike']> (sas s)) s);
  lift r.

Definition encodeSKAt (c : ikeCtx) (exchangeType flags msgID : Z) (inner : Payloads) : SM bytes :=
  iv ← attempt (randBytes 16);
  on_sa (c_sa c) (encodeSKWith (c_spii c) (c_spir c) exchangeType flags msgID inner
                    match iv with inr b => Some b | inl _ => None end).

(** The context of the current SA. *)
Definition curCtx : SM ikeCtx :=
  p ← current;
  s ← getS;
  mret {| c_sa := p; c_spii := initiatorSPI s; c_spir := responderSPI s |}.

Definition encodeSK (exchangeType flags msgID : Z) (inner : Payloads) : SM bytes :=
  c ← curCtx; encodeSKAt c exchangeType flags msgID inner.

Definition roleBit (p : nat) : SM Z := ike ← load p; mret (ikeRoleBit (ike_Role ike)).

(** The message, its inner payloads and the context that decoded it. *)
Definition decodeIKE (raw : bytes) : SM (Message * Payloads * ikeCtx) :=
  cur ← curCtx;
  ike ← load (c_sa cur);
  s ← getS;
  match decodeSKWith ike raw with
  | (_, Ok (m, inner)) => mret (m, inner, cur)
  | (icvOK, Err e) =>
      match (if negb icvOK then oldIKE s else None) with
      | None => throw e
      | Some old =>
          t ← now;
          if Before t (oldIKEUntil s) then
            oike ← load (c_sa old);
            match decodeSKWith oike raw with
            | (_, Ok (m2, inner2)) => mret (m2, inner2, old)
            | (_, Err _) => throw e
            | (_, Panic) => lift Panic
            | (_, Hang) => lift Hang
            end
          else throw e
      end
  | (_, Panic) => lift Panic
  | (_, Hang) => lift Hang
  end.

(** ** Timing helpers *)

Definition retransmitBase (c : Config) : Z :=
  if RetransmitBase c >? 0 then RetransmitBase c else 2 * Second.
Definition retransmitMax (c : Config) : Z :=
  if RetransmitMax c >? 0 then RetransmitMax c else 30 * Second.
Definition retransmitTries (c : Config) : Z :=
  if RetransmitTries c >? 0 then RetransmitTries c else 5.

Definition dpdInterval (c : Config) : Z :=
  if DPDTimeout c >? 0 then DPDTimeout c else 30 * Second.

Definition ikeRekeyLifetime (c : Config) : Z :=
  if IKERekeyLifetime c >? 0 then IKERekeyLifetime c
  else if RekeyLifetime c >? 0 then i64 (4 * RekeyLifetime c)
  else 0.

Definition defaultRekeyMaxPackets : Z := Z.shiftl 1 31.
Definition rekeyMaxPackets (c : Config) : Z :=
  if RekeyMaxPackets c >? 0 then RekeyMaxPackets c else defaultRekeyMaxPackets.

(** for i := 1; i < attempt; i++: [n] iterations left *)
Fixpoint backoff_loop (n : nat) (d max : Z) : Z :=
  match n with
  | O => d
  | S n' => let d := i64 (d * 2) in if d >=? max then max else backoff_loop n' d max
  end.

Definition retransBackoff (c : Config) (att : Z) : Z :=
  backoff_loop (Z.to_nat (att - 1)) (retransmitBase c) (retransmitMax c).

Definition randFraction : SM (option Z) :=
  r ← attempt (randBytes 2);
  match r with
  | inl _ => mret None
  | inr b => b0 ← lift (index b 0); b1 ← lift (index b 1);
             mret (Some (Z.lor (Z.shiftl b0 8) b1))
  end.

Definition jitteredDeadline (base : Time) (lifetime : Z) : SM Time :=
  if lifetime <=? 0 then mret zeroTime
  else k ← randFraction; mret (Add base (w_scale lifetime k)).

(** ** Payload helpers *)

Definition notifyError (t : Z) : option sess_error :=
  if NotifyType_IsError t then Some (ErrNotify t) else None.

Fixpoint firstNotifyError (ps : Payloads) : option sess_error :=
  match ps with
  | [] => None
  | NotifyPayload _ t _ _ :: rest =>
      match notifyError t with Some e => Some e | None => firstNotifyError rest end
  | _ :: rest => firstNotifyError rest
  end.

Definition full_selector (ty : Z) (n : nat) : TrafficSelector :=
  {| ts_TSType := ty; ts_Protocol := 0; ts_StartPort := 0; ts_EndPort := 65535;
     ts_StartAddr := replicate n 0; ts_EndAddr := replicate n 255 |}.

Definition appendTrafficSelectors (c : Payloads) (includeV6 : bool) : Payloads :=
  let full := full_selector TSIPv4AddrRange 4 ::
              (if includeV6 then [full_selector TSIPv6AddrRange 16] else []) in
  c ++ [TSiPayload full; TSrPayload full].

Definition enabledESPSuites (c : Config) : list transformSuite := enabledSuites (ESPSuites c) espSuites.
Definition enabledIKESuites (c : Config) : list transformSuite := enabledSuites (IKESuites c) ikeSuites.

End session.
