(* ===== verification/Rekey.v ===== *)
(** * Rekeying (internal/session/rekey.go)

    CREATE_CHILD_SA in both roles, for Child SAs and for the IKE SA itself: the
    requests this client initiates and completes, the requests of the peer it
    answers, and the cutover to a new IKE SA. *)

From S2P Require Import Prelude IkePayload IkeMsg Crypto IkeSA Suite Natt Protected Session.

Definition nonceLen := 32.
Definition ikeRekeyGrace : Z := 30 * Second.

(** ** The payloads of a CREATE_CHILD_SA message *)

(** What the loops over the inner payloads collect; a repeated payload replaces
    the earlier one, as the assignments in the source do. *)
Record rekeyPayloads := {
  rp_sa : option (list Proposal);
  rp_nonce : bytes;
  rp_ke : option (Z * bytes);
  rp_tsi : list TrafficSelector;
  rp_tsr : list TrafficSelector;
}.

Definition noRekeyPayloads : rekeyPayloads :=
  {| rp_sa := None; rp_nonce := []; rp_ke := None; rp_tsi := []; rp_tsr := [] |}.

Definition collect (a : rekeyPayloads) (p : Payload) : rekeyPayloads :=
  match p with
  | SAPayload ps => {| rp_sa := Some ps; rp_nonce := rp_nonce a; rp_ke := rp_ke a;
                       rp_tsi := rp_tsi a; rp_tsr := rp_tsr a |}
  | NoncePayload d => {| rp_sa := rp_sa a; rp_nonce := d; rp_ke := rp_ke a;
                         rp_tsi := rp_tsi a; rp_tsr := rp_tsr a |}
  | KEPayload g d => {| rp_sa := rp_sa a; rp_nonce := rp_nonce a; rp_ke := Some (g, d);
                        rp_tsi := rp_tsi a; rp_tsr := rp_tsr a |}
  | TSiPayload s => {| rp_sa := rp_sa a; rp_nonce := rp_nonce a; rp_ke := rp_ke a;
                       rp_tsi := s; rp_tsr := rp_tsr a |}
  | TSrPayload s => {| rp_sa := rp_sa a; rp_nonce := rp_nonce a; rp_ke := rp_ke a;
                       rp_tsi := rp_tsi a; rp_tsr := s |}
  | _ => a
  end.

(** The loop that also returns on the first error notify. *)
Fixpoint collect_checked (a : rekeyPayloads) (ps : Payloads) : Res sess_error rekeyPayloads :=
  match ps with
  | [] => Ok a
  | NotifyPayload _ t _ _ :: rest =>
      match notifyError t with Some e => Err e | None => collect_checked a rest end
  | p :: rest => collect_checked (collect a p) rest
  end.

(** (proposal, suite, Nr, KE) *)
Definition childRekeyResponse (c : Config) (inner : Payloads)
    : Res sess_error (Proposal * transformSuite * bytes * option (Z * bytes)) :=
  a ← collect_checked noRekeyPayloads inner;
  match rp_sa a with
  | None => Err ErrMissingSA
  | Some [] => Err ErrNoProposal
  | Some (prop :: _) =>
      match selectedSuite prop (enabledESPSuites c) with
      | None => Err ErrBadSelection
      | Some suite =>
          if negb (len (pr_SPI prop) =? 4) then Err ErrBadSelection
          else if len (rp_nonce a) =? 0 then Err ErrMissingNonce
          else Ok (prop, suite, rp_nonce a, rp_ke a)
      end
  end.

Definition childRekeyRequestPayloads (inner : Payloads)
    : Res sess_error (list Proposal * bytes * option (Z * bytes) *
                      list TrafficSelector * list TrafficSelector) :=
  let a := fold_left collect inner noRekeyPayloads in
  match rp_sa a with
  | None => Err ErrMissingSA
  | Some saP =>
      if len (rp_nonce a) =? 0 then Err ErrMissingNonce
      else Ok (saP, rp_nonce a, rp_ke a, rp_tsi a, rp_tsr a)
  end.

Definition ikeRekeyPayloads (inner : Payloads) : Res sess_error (list Proposal * bytes * (Z * bytes)) :=
  a ← collect_checked noRekeyPayloads inner;
  match rp_sa a with
  | None => Err ErrMissingSA
  | Some saP =>
      match rp_ke a with
      | Some (g, d) =>
          if (len (rp_nonce a) =? 0) || (len d =? 0) then Err ErrMissingNonceKE
          else Ok (saP, rp_nonce a, (g, d))
      | None => Err ErrMissingNonceKE
      end
  end.

Fixpoint isIKERekey (inner : Payloads) : bool :=
  match inner with
  | [] => false
  | SAPayload (p :: _) :: rest => if pr_Protocol p =? ProtocolIKE then true else isIKERekey rest
  | _ :: rest => isIKERekey rest
  end.

Definition childRekeyGroup (s : Session) : Z :=
  if negb (childPFSGroup s =? 0) then childPFSGroup s
  else if negb (ikeDHGroup s =? 0) then ikeDHGroup s
  else DH_X25519.

(** The inner payloads of our Child SA rekey request. *)
Definition childRekeyOffer (c : Config) (reestablish : bool) (oldSPI : Z) (newSPI ni : bytes)
    (d : option DH) : Payloads :=
  let inner := if negb reestablish then [NotifyPayload ProtocolESP NotifyRekeySA (put32 oldSPI) []]
               else [] in
  let inner := inner ++ match d with
                        | Some d => [SAPayload (buildProposals newSPI (enabledESPSuites c) [dh_Group d])]
                        | None => [SAPayload (buildProposals newSPI (enabledESPSuites c) [])]
                        end in
  let inner := inner ++ [NoncePayload ni] in
  let inner := inner ++ match d with Some d => [KEPayload (dh_Group d) (dh_Public d)] | None => [] end in
  appendTrafficSelectors inner (RequestIPv6 c).

(** The inner payloads of our answer to the peer's Child SA rekey. *)
Definition childRekeyAnswer (c : Config) (number : Z) (suite : transformSuite) (newSPI nr : bytes)
    (d : option DH) (reqTSi reqTSr : list TrafficSelector) : Payloads :=
  let resp := match d with
              | Some d => [SAPayload [buildProposalForSuite number suite newSPI [dh_Group d]]]
              | None => [SAPayload [buildProposalForSuite number suite newSPI []]]
              end in
  let resp := resp ++ [NoncePayload nr] in
  let resp := resp ++ match d with Some d => [KEPayload (dh_Group d) (dh_Public d)] | None => [] end in
  if (len reqTSi >? 0) && (len reqTSr >? 0) then resp ++ [TSiPayload reqTSi; TSrPayload reqTSr]
  else appendTrafficSelectors resp (RequestIPv6 c).

(** A request that has just been sent and awaits its answer. *)
Definition newPending (kind : exchangeKind) (msgID : Z) (raw : bytes) (next : Time)
    (c : option childRekeyCtx) (i : option ikeRekeyCtx) (fast : bool) : pendingExchange :=
  {| px_kind := kind; px_msgID := msgID; px_raw := raw; px_attempts := 1;
     px_nextRetransmit := next; px_child := c; px_ike := i; px_fast := fast |}.

Section rekey.
Context {P : Primitives} {W : World}.

(** s.messageID++ *)
Definition nextMessageID : SM unit := modifyS (λ s, set_messageID (u32 (messageID s + 1)) s).

(** ** Child SA rekey *)

Definition initiateChildRekey (reestablish : bool) : SM unit :=
  s ← getS;
  match child s with
  | None => throw ErrNoChildSA
  | Some ch =>
      newSPI ← randBytes 4;
      ni ← randBytes nonceLen;
      d ← (if childPFS s then d ← NewDH (childRekeyGroup s); mret (Some d) else mret None);
      let inner := childRekeyOffer (cfg s) reestablish (ch_InitiatorSPI ch) newSPI ni d in
      let msgID := messageID s in
      p ← current;
      flags ← roleBit p;
      raw ← encodeSK ExchangeCreateChildSA flags msgID inner;
      _ ← nextMessageID;
      t ← now;
      newIn ← lift (Uint32 newSPI);
      _ ← modifyS (set_pending (Some (newPending exChildRekey msgID raw
             (Add t (retransmitBase (cfg s)))
             (Some {| cr_newInSPI := newIn; cr_oldInSPI := ch_InitiatorSPI ch; cr_ni := ni;
                      cr_reestablish := reestablish; cr_dh := d |}) None false)));
      sendDatagram raw
  end.

Definition sendChildDelete (inSPI : Z) : SM unit :=
  let inner := [DeletePayload ProtocolESP [put32 inSPI]] in
  s ← getS;
  let msgID := messageID s in
  p ← current;
  flags ← roleBit p;
  raw ← encodeSK ExchangeInformational flags msgID inner;
  _ ← nextMessageID;
  t ← now;
  _ ← modifyS (set_pending (Some (newPending exDelete msgID raw (Add t (retransmitBase (cfg s)))
                                    None None false)));
  sendDatagram raw.

(** The Child keys of a rekey we initiated, from the responder's KE (if any). *)
Definition completeChildKeys (ike : IKESA) (cc : childRekeyCtx) (prop : Proposal)
    (suite : transformSuite) (nr : bytes) (ke : option (Z * bytes)) : Res sess_error ChildKeys :=
  match cr_dh cc, ke with
  | Some d, Some (group, data) =>
      if negb (group =? dh_Group d) then Err (ErrKEGroupMismatch group (dh_Group d))
      else
        sh ← wrap_err ErrIke (shared d data);
        wrap_err ErrIke (DeriveChildKeysPFS ike sh (cr_ni cc) nr (su_encrKeyLen suite) (su_integKeyLen suite))
  | None, Some _ => Err ErrUnsolicitedKE
  | d, None =>
      if bool_decide (d ≠ None) && negb (selectedDHGroup prop =? 0) then Err ErrDHWithoutKE
      else wrap_err ErrIke (DeriveChildKeys ike (cr_ni cc) nr (su_encrKeyLen suite) (su_integKeyLen suite))
  end.

Definition completeChildRekey (inner : Payloads) (p : pendingExchange) : SM unit :=
  s ← getS;
  '(prop, suite, nr, ke) ← lift (childRekeyResponse (cfg s) inner);
  respSPI ← lift (Uint32 (pr_SPI prop));
  cc ← lift (deref (px_child p));
  cur ← current;
  ike ← load cur;
  keys ← lift (completeChildKeys ike cc prop suite nr ke);
  _ ← InstallChildSA {| NewInSPI := cr_newInSPI cc; NewOutSPI := respSPI; OldInSPI := cr_oldInSPI cc;
                        up_Suite := su_id suite; OutEncr := EncrIR keys; OutInteg := IntegIR keys;
                        InEncr := EncrRI keys; InInteg := IntegRI keys |};
  _ ← modifyS (set_child (Some {| ch_InitiatorSPI := cr_newInSPI cc; ch_ResponderSPI := respSPI;
                                  ch_Suite := su_id suite; ch_Keys := keys |}));
  t ← now;
  _ ← modifyS (set_childInstalledAt t);
  _ ← modifyS (set_childReestablish false);
  _ ← modifyS (set_nextChildReestablish zeroTime);
  if cr_reestablish cc then mret tt
  else if cr_oldInSPI cc =? cr_newInSPI cc then mret tt
  else sendChildDelete (cr_oldInSPI cc).

(** ** Answering the peer *)

Definition recordPeerResponse (viaOld : bool) (msgID : Z) (raw : bytes) : SM unit :=
  let d := {| pd_msgID := msgID; pd_set := true; pd_resp := Some raw |} in
  modifyS (if viaOld then set_oldPeer d else set_peer d).

Definition sendNotifyResponse (dec : ikeCtx) (msgID : Z) (viaOld : bool)
    (protocol notifyType : Z) (data : bytes) : SM unit :=
  let resp := [NotifyPayload protocol notifyType [] data] in
  bit ← roleBit (c_sa dec);
  r ← attempt (encodeSKAt dec ExchangeCreateChildSA (Z.lor bit FlagResponse) msgID resp);
  match r with
  | inl _ => mret tt
  | inr raw =>
      _ ← recordPeerResponse viaOld msgID raw;
      _ ← attempt (sendDatagram raw);
      mret tt
  end.

Definition sendTemporaryFailure (dec : ikeCtx) (msgID : Z) (viaOld : bool) : SM unit :=
  sendNotifyResponse dec msgID viaOld ProtocolNone NotifyTemporaryFailure [].

Definition sendInvalidKEPayload (dec : ikeCtx) (msgID : Z) (viaOld : bool) : SM unit :=
  sendNotifyResponse dec msgID viaOld ProtocolNone NotifyInvalidKEPayload (put16 DH_X25519).

(** A fallible call whose error is answered with TEMPORARY_FAILURE and returned. *)
Definition orTemporaryFailure {A} (dec : ikeCtx) (msgID : Z) (viaOld : bool) (c : SM A) : SM A :=
  r ← attempt c;
  match r with
  | inr a => mret a
  | inl e => _ ← sendTemporaryFailure dec msgID viaOld; throw e
  end.

(** The DH side of an answer: our half and the shared secret, for the peer's KE. *)
Definition answerKE (dec : ikeCtx) (msgID : Z) (viaOld : bool) (group : Z) (data : bytes)
    : SM (DH * bytes) :=
  d ← orTemporaryFailure dec msgID viaOld (NewDH group);
  match wrap_err ErrIke (shared d data) with
  | Ok sh => mret (d, sh)
  | Err e => _ ← sendNotifyResponse dec msgID viaOld ProtocolNone NotifyInvalidSyntax []; throw e
  | Panic => lift Panic
  | Hang => lift Hang
  end.

Definition answerPFS (dec : ikeCtx) (msgID : Z) (viaOld : bool) (ke : option (Z * bytes))
    : SM (option (DH * bytes)) :=
  match ke with
  | None => mret None
  | Some (group, data) => dsh ← answerKE dec msgID viaOld group data; mret (Some dsh)
  end.

Definition answerNoProposal (dec : ikeCtx) (msgID : Z) (viaOld : bool) (protocol : Z) : SM unit :=
  sendNotifyResponse dec msgID viaOld protocol NotifyNoProposalChosen [].

(** The cutover of an answered Child SA rekey, with the response already encoded. *)
Definition commitChildAnswer (msgID : Z) (viaOld : bool) (ch : ChildSA) (suite : transformSuite)
    (serverNewSPI : Z) (newSPI : bytes) (keys : ChildKeys) (d : option DH) (raw : bytes) : SM unit :=
  s ← getS;
  _ ← match d with
      | Some d => _ ← modifyS (set_childPFS true); modifyS (set_childPFSGroup (dh_Group d))
      | None => mret tt
      end;
  newIn ← lift (Uint32 newSPI);
  _ ← InstallChildSA {| NewInSPI := newIn; NewOutSPI := serverNewSPI; OldInSPI := ch_InitiatorSPI ch;
                        up_Suite := su_id suite; OutEncr := EncrRI keys; OutInteg := IntegRI keys;
                        InEncr := EncrIR keys; InInteg := IntegIR keys |};
  _ ← modifyS (set_child (Some {| ch_InitiatorSPI := newIn; ch_ResponderSPI := serverNewSPI;
                                  ch_Suite := su_id suite; ch_Keys := keys |}));
  t ← now;
  _ ← modifyS (set_childInstalledAt t);
  dl ← jitteredDeadline t (RekeyLifetime (cfg s));
  _ ← modifyS (set_nextChildRekey dl);
  _ ← recordPeerResponse viaOld msgID raw;
  sendDatagram raw.

(** The part of the answer after a proposal has been chosen. *)
Definition answerChildRekey (msgID : Z) (dec : ikeCtx) (viaOld : bool) (prop : Proposal)
    (suite : transformSuite) (ni : bytes) (ke : option (Z * bytes))
    (reqTSi reqTSr : list TrafficSelector) (ch : ChildSA) : SM unit :=
  s ← getS;
  serverNewSPI ← lift (Uint32 (pr_SPI prop));
  dsh ← answerPFS dec msgID viaOld ke;
  newSPI ← orTemporaryFailure dec msgID viaOld (randBytes 4);
  nr ← orTemporaryFailure dec msgID viaOld (randBytes nonceLen);
  let resp := childRekeyAnswer (cfg s) (pr_Number prop) suite newSPI nr (fst <$> dsh) reqTSi reqTSr in
  bit ← roleBit (c_sa dec);
  raw ← encodeSKAt dec ExchangeCreateChildSA (Z.lor bit FlagResponse) msgID resp;
  ike ← load (c_sa dec);
  keys ← lift (wrap_err ErrIke
    match dsh with
    | Some (_, sh) => DeriveChildKeysPFS ike sh ni nr (su_encrKeyLen suite) (su_integKeyLen suite)
    | None => DeriveChildKeys ike ni nr (su_encrKeyLen suite) (su_integKeyLen suite)
    end);
  commitChildAnswer msgID viaOld ch suite serverNewSPI newSPI keys (fst <$> dsh) raw.

Definition handleChildRekeyRequest (hdr : Message) (inner : Payloads) (dec : ikeCtx) (viaOld : bool)
    : SM unit :=
  let msgID := m_MessageID hdr in
  s ← getS;
  match child s with
  | None =>
      _ ← sendNotifyResponse dec msgID viaOld ProtocolESP NotifyChildSANotFound [];
      throw ErrNoChildSA
  | Some ch =>
      match childRekeyRequestPayloads inner with
      | Ok (saP, ni, ke, reqTSi, reqTSr) =>
          if match ke with Some (g, _) => negb (supportedDHGroup g) | None => false end
          then sendInvalidKEPayload dec msgID viaOld
          else
            let requireGroup := match ke with Some (g, _) => g | None => 0 end in
            match selectProposal saP (enabledESPSuites (cfg s)) requireGroup with
            | Some (prop, suite) => answerChildRekey msgID dec viaOld prop suite ni ke reqTSi reqTSr ch
            | None =>
                if negb (requireGroup =? 0) &&
                   bool_decide (selectProposal saP (enabledESPSuites (cfg s)) 0 ≠ None)
                then sendInvalidKEPayload dec msgID viaOld
                else _ ← answerNoProposal dec msgID viaOld ProtocolESP; throw ErrNoMatchingProposal
            end
      | Err e => _ ← answerNoProposal dec msgID viaOld ProtocolESP; throw e
      | Panic => lift Panic
      | Hang => lift Hang
      end
  end.

(** ** IKE SA rekey *)

(** The inner payloads of our IKE SA rekey request. *)
Definition ikeRekeyOffer (c : Config) (newSPIi : Z) (ni : bytes) (d : DH) : Payloads :=
  [SAPayload (buildProposals (put64 newSPIi) (enabledIKESuites c) [dh_Group d]);
   NoncePayload ni; KEPayload (dh_Group d) (dh_Public d)].

Definition ikeRekeyAnswer (number : Z) (suite : transformSuite) (newSPIr : Z) (nr : bytes) (d : DH)
    : Payloads :=
  [SAPayload [buildProposalForSuite number suite (put64 newSPIr) [dh_Group d]];
   NoncePayload nr; KEPayload (dh_Group d) (dh_Public d)].

Definition initiateIKERekey : SM unit :=
  s ← getS;
  newSPIi ← randUint64;
  d ← NewDH (ikeDHGroup s);
  ni ← randBytes nonceLen;
  let inner := ikeRekeyOffer (cfg s) newSPIi ni d in
  let msgID := messageID s in
  p ← current;
  flags ← roleBit p;
  raw ← encodeSK ExchangeCreateChildSA flags msgID inner;
  _ ← nextMessageID;
  t ← now;
  _ ← modifyS (set_pending (Some (newPending exIKERekey msgID raw (Add t (retransmitBase (cfg s)))
         None (Some {| ir_newSPIi := newSPIi; ir_ni := ni; ir_dh := d |}) false)));
  sendDatagram raw.

Definition sendIKEDeleteUnderCurrent : SM unit :=
  let inner := [DeletePayload ProtocolIKE []] in
  s ← getS;
  let msgID := messageID s in
  p ← current;
  flags ← roleBit p;
  raw ← encodeSK ExchangeInformational flags msgID inner;
  _ ← nextMessageID;
  t ← now;
  _ ← modifyS (set_oldIKEDelete (Some (newPending exDelete msgID raw
                                         (Add t (retransmitBase (cfg s))) None None false)));
  sendDatagram raw.

(** The current SA is always set when the driver runs. *)
Definition swapIKE (newIKE : nat) (spii spir : Z) : SM unit :=
  s ← getS;
  p ← current;
  _ ← modifyS (set_oldIKE (Some {| c_sa := p; c_spii := initiatorSPI s; c_spir := responderSPI s |}));
  t ← now;
  _ ← modifyS (set_oldIKEUntil (Add t ikeRekeyGrace));
  _ ← modifyS (set_oldPeer (peer s));
  _ ← modifyS (set_peer noPeer);
  _ ← modifyS (set_ikeSA (Some newIKE));
  _ ← modifyS (set_initiatorSPI spii);
  _ ← modifyS (set_responderSPI spir);
  _ ← modifyS (set_messageID 0);
  t' ← now;
  _ ← modifyS (set_ikeInstalledAt t');
  dl ← jitteredDeadline t' (ikeRekeyLifetime (cfg s));
  _ ← modifyS (set_nextIKERekey dl);
  modifyS (set_pending None).

Definition completeIKERekey (inner : Payloads) (p : pendingExchange) : SM unit :=
  s ← getS;
  '(saP, nr, (kerGroup, kerData)) ← lift (ikeRekeyPayloads inner);
  match saP with
  | [] => throw ErrNoProposal
  | prop :: _ =>
      match selectedSuite prop (enabledIKESuites (cfg s)) with
      | None => throw ErrBadSelection
      | Some suite =>
          if negb (len (pr_SPI prop) =? 8) then throw ErrBadSelection
          else
            newSPIr ← lift (Uint64 (pr_SPI prop));
            ic ← lift (deref (px_ike p));
            if negb (kerGroup =? dh_Group (ir_dh ic))
            then throw (ErrKEGroupMismatch kerGroup (dh_Group (ir_dh ic)))
            else
              sh ← lift (wrap_err ErrIke (shared (ir_dh ic) kerData));
              cur ← current;
              ike ← load cur;
              newIKE ← lift (wrap_err ErrIke (DeriveRekeyIKE (su_id suite) (SKd ike) Initiator
                               (ir_newSPIi ic) newSPIr (ir_ni ic) nr sh));
              np ← alloc newIKE;
              _ ← attempt sendIKEDeleteUnderCurrent;
              swapIKE np (ir_newSPIi ic) newSPIr
      end
  end.

(** The part of the answer after a proposal has been chosen. *)
Definition answerIKERekey (msgID : Z) (dec : ikeCtx) (prop : Proposal) (suite : transformSuite)
    (ni : bytes) (group : Z) (kei : bytes) : SM unit :=
  serverNewSPIi ← lift (Uint64 (pr_SPI prop));
  '(d, sh) ← answerKE dec msgID false group kei;
  newSPIr ← orTemporaryFailure dec msgID false randUint64;
  nr ← orTemporaryFailure dec msgID false (randBytes nonceLen);
  ike ← load (c_sa dec);
  newIKE ← orTemporaryFailure dec msgID false
             (lift (wrap_err ErrIke (DeriveRekeyIKE (su_id suite) (SKd ike) Responder
                      serverNewSPIi newSPIr ni nr sh)));
  np ← alloc newIKE;
  let resp := ikeRekeyAnswer (pr_Number prop) suite newSPIr nr d in
  bit ← roleBit (c_sa dec);
  raw ← orTemporaryFailure dec msgID false
          (encodeSKAt dec ExchangeCreateChildSA (Z.lor bit FlagResponse) msgID resp);
  _ ← recordPeerResponse false msgID raw;
  _ ← swapIKE np serverNewSPIi newSPIr;
  _ ← modifyS (set_ikeDHGroup (dh_Group d));
  sendDatagram raw.

Definition handleIKERekeyRequest (hdr : Message) (inner : Payloads) (dec : ikeCtx) : SM unit :=
  let msgID := m_MessageID hdr in
  s ← getS;
  match ikeRekeyPayloads inner with
  | Ok (saP, ni, (group, kei)) =>
      if negb (supportedDHGroup group) then sendInvalidKEPayload dec msgID false
      else
        match selectProposal saP (enabledIKESuites (cfg s)) group with
        | Some (prop, suite) => answerIKERekey msgID dec prop suite ni group kei
        | None =>
            if bool_decide (selectProposal saP (enabledIKESuites (cfg s)) 0 ≠ None)
            then sendInvalidKEPayload dec msgID false
            else _ ← answerNoProposal dec msgID false ProtocolNone; throw ErrNoMatchingProposal
        end
  | Err e => _ ← answerNoProposal dec msgID false ProtocolNone; throw e
  | Panic => lift Panic
  | Hang => lift Hang
  end.

End rekey.
