(* ===== verification/Driver.v ===== *)
(** * The control loop (internal/session/informational.go)

    The driver goroutine: one event at a time, an inbound IKE datagram, a
    housekeeping tick, or cancellation.  It answers the peer's requests, completes
    and retransmits the single outstanding request of its own, starts rekeys and
    liveness probes, and declares the peer dead. *)

From S2P Require Import Prelude IkePayload IkeMsg Crypto IkeSA Suite Natt Protected Session Rekey.

Definition rekeyRetryInterval : Z := Minute.
Definition suspendThreshold : Z := 5 * Second.
Definition fastDPDBase : Z := 1 * Second.
Definition fastDPDTries : Z := 2.

Fixpoint deleteRefsChild (spis : list bytes) (ch : ChildSA) : Res sess_error bool :=
  match spis with
  | [] => Ok false
  | raw :: rest =>
      if negb (len raw =? 4) then deleteRefsChild rest ch
      else
        spi ← Uint32 raw;
        if (spi =? ch_ResponderSPI ch) || (spi =? ch_InitiatorSPI ch) then Ok true
        else deleteRefsChild rest ch
  end.

Definition pendingTries (s : Session) : Z :=
  match pending s with
  | Some p => if px_fast p then fastDPDTries else retransmitTries (cfg s)
  | None => retransmitTries (cfg s)
  end.

Definition pendingBackoff (s : Session) (att : Z) : Z :=
  match pending s with
  | Some p => if px_fast p then fastDPDBase else retransBackoff (cfg s) att
  | None => retransBackoff (cfg s) att
  end.

(** The pending exchange with its schedule updated. *)
Definition px_again (p : pendingExchange) (att : Z) (next : Time) : pendingExchange :=
  {| px_kind := px_kind p; px_msgID := px_msgID p; px_raw := px_raw p; px_attempts := att;
     px_nextRetransmit := next; px_child := px_child p; px_ike := px_ike p; px_fast := px_fast p |}.

Definition px_hurry (p : pendingExchange) (next : Time) : pendingExchange :=
  {| px_kind := px_kind p; px_msgID := px_msgID p; px_raw := px_raw p; px_attempts := px_attempts p;
     px_nextRetransmit := next; px_child := px_child p; px_ike := px_ike p; px_fast := true |}.

Section driver.
Context {P : Primitives} {W : World}.

Definition encodeSKEmptyAt (c : ikeCtx) (exchangeType flags msgID : Z) : SM bytes :=
  iv ← attempt (randBytes 16);
  on_sa (c_sa c) (encodeSKEmptyWith (c_spii c) (c_spir c) exchangeType flags msgID
                    match iv with inr b => Some b | inl _ => None end).

Definition encodeSKEmpty (exchangeType flags msgID : Z) : SM bytes :=
  c ← curCtx; encodeSKEmptyAt c exchangeType flags msgID.

Definition initiateDPD (fast : bool) : SM unit :=
  s ← getS;
  let msgID := messageID s in
  p ← current;
  flags ← roleBit p;
  raw ← encodeSKEmpty ExchangeInformational flags msgID;
  _ ← nextMessageID;
  let base := if fast then fastDPDBase else retransmitBase (cfg s) in
  t ← now;
  _ ← modifyS (set_pending (Some (newPending exDPD msgID raw (Add t base) None None fast)));
  sendDatagram raw.

(** true when the request was a duplicate and has been handled *)
Definition dedupPeerRequest (msgID : Z) (viaOld : bool) : SM bool :=
  s ← getS;
  let dd := if viaOld then oldPeer s else peer s in
  if pd_set dd && (msgID <=? pd_msgID dd) then
    _ ← match pd_resp dd with
        | Some resp => if msgID =? pd_msgID dd then _ ← attempt (sendDatagram resp); mret tt
                       else mret tt
        | None => mret tt
        end;
    mret true
  else mret false.

Definition clearOldIKEDelete (msgID : Z) : SM unit :=
  s ← getS;
  match oldIKEDelete s with
  | Some p => if px_msgID p =? msgID then putS (set_oldIKEDelete None s) else mret tt
  | None => mret tt
  end.

Definition clearPending (msgID : Z) : SM unit :=
  s ← getS;
  match pending s with
  | Some p =>
      if (px_msgID p =? msgID) && (bool_decide (px_kind p = exDPD) || bool_decide (px_kind p = exDelete))
      then putS (set_pending None s) else mret tt
  | None => mret tt
  end.

Definition completeMatchingRekey (msgID : Z) (inner : Payloads) (viaOld : bool) : SM unit :=
  if viaOld then mret tt
  else
    s ← getS;
    match pending s with
    | None => mret tt
    | Some p =>
        if negb (px_msgID p =? msgID) then mret tt
        else
          match px_kind p with
          | exChildRekey =>
              _ ← putS (set_pending None s);
              r ← attempt (completeChildRekey inner p);
              match r with
              | inr _ =>
                  s' ← getS;
                  dl ← jitteredDeadline (childInstalledAt s') (RekeyLifetime (cfg s'));
                  modifyS (set_nextChildRekey dl)
              | inl _ => mret tt
              end
          | exIKERekey =>
              _ ← putS (set_pending None s);
              _ ← attempt (completeIKERekey inner p);
              mret tt
          | _ => mret tt
          end
    end.

Definition handleInboundChildDelete (spis : list bytes) : SM unit :=
  s ← getS;
  match child s with
  | None => mret tt
  | Some ch =>
      if negb (dataPlane s) || negb (SPISize spis =? 4) then mret tt
      else
        refs ← lift (deleteRefsChild spis ch);
        if negb refs then mret tt
        else
          match pending s with
          | None =>
              r ← attempt (initiateChildRekey true);
              match r with
              | inl _ => modifyS (set_childReestablish true)
              | inr _ => _ ← modifyS (set_childReestablish false);
                         modifyS (set_nextChildReestablish zeroTime)
              end
          | Some _ => modifyS (set_childReestablish true)
          end
  end.

(** The loop over the Delete payloads; the result is [teardown]. *)
Fixpoint handleDeletes (inner : Payloads) (viaOld teardown : bool) : SM bool :=
  match inner with
  | [] => mret teardown
  | DeletePayload protocol spis :: rest =>
      if protocol =? ProtocolIKE then handleDeletes rest viaOld (if negb viaOld then true else teardown)
      else if protocol =? ProtocolESP then
        _ ← handleInboundChildDelete spis; handleDeletes rest viaOld teardown
      else handleDeletes rest viaOld teardown
  | _ :: rest => handleDeletes rest viaOld teardown
  end.

Definition handleInformationalRequest (hdr : Message) (inner : Payloads) (dec : ikeCtx) (viaOld : bool)
    : SM bool :=
  teardown ← handleDeletes inner viaOld false;
  bit ← roleBit (c_sa dec);
  r ← attempt (encodeSKEmptyAt dec ExchangeInformational (Z.lor bit FlagResponse) (m_MessageID hdr));
  _ ← match r with
      | inr ack =>
          _ ← recordPeerResponse viaOld (m_MessageID hdr) ack;
          _ ← attempt (sendDatagram ack);
          mret tt
      | inl _ => mret tt
      end;
  mret teardown.

Definition rekeyInFlight (s : Session) : bool :=
  match pending s with
  | Some p => bool_decide (px_kind p = exChildRekey) || bool_decide (px_kind p = exIKERekey)
  | None => false
  end.

(** A CREATE_CHILD_SA request that is not a duplicate. *)
Definition handleCreateChildSA (hdr : Message) (inner : Payloads) (dec : ikeCtx) (viaOld : bool)
    : SM unit :=
  s ← getS;
  if rekeyInFlight s then sendTemporaryFailure dec (m_MessageID hdr) viaOld
  else
    let ikeRekey := isIKERekey inner in
    if ikeRekey && viaOld then sendTemporaryFailure dec (m_MessageID hdr) viaOld
    else
      _ ← attempt (if ikeRekey then handleIKERekeyRequest hdr inner dec
                                   else handleChildRekeyRequest hdr inner dec viaOld);
      mret tt.

(** The switch over the exchange type; true: the session is torn down. *)
Definition handleMessage (hdr : Message) (inner : Payloads) (dec : ikeCtx) (viaOld : bool) : SM bool :=
  let isResponse := IsResponse (m_Flags hdr) in
  let msgID := m_MessageID hdr in
  if m_Exchange hdr =? ExchangeInformational then
    if isResponse then
      _ ← (if viaOld then clearOldIKEDelete msgID else clearPending msgID);
      mret false
    else
      dup ← dedupPeerRequest msgID viaOld;
      if dup : bool then mret false else handleInformationalRequest hdr inner dec viaOld
  else if m_Exchange hdr =? ExchangeCreateChildSA then
    if isResponse then
      _ ← completeMatchingRekey msgID inner viaOld;
      mret false
    else
      dup ← dedupPeerRequest msgID viaOld;
      if dup : bool then mret false
      else _ ← handleCreateChildSA hdr inner dec viaOld; mret false
  else mret false.

(** true: the session is torn down (and onDead has been called) *)
Definition handleInbound (raw : bytes) : SM bool :=
  r ← attempt (decodeIKE raw);
  match r with
  | inl _ => mret false
  | inr (hdr, inner, dec) =>
      t ← now;
      _ ← modifyS (set_lastInbound t);
      s ← getS;
      let viaOld := match oldIKE s with
                    | Some o => bool_decide (c_sa dec = c_sa o)
                    | None => false
                    end in
      handleMessage hdr inner dec viaOld
  end.

(** ** Housekeeping *)

Definition detectSuspend (t : Time) : SM unit :=
  s ← getS;
  let prev := lastTickWall s in
  _ ← modifyS (set_lastTickWall (Round0 t));
  if IsZero prev || (Sub (Round0 t) prev <=? suspendThreshold) then mret tt
  else
    match pending s with
    | None => _ ← attempt (initiateDPD true); mret tt
    | Some p =>
        _ ← modifyS (set_pending (Some (px_hurry p t)));
        if bool_decide (px_kind p = exDPD) then mret tt else modifyS (set_fastDPDDue true)
    end.

Definition expireOldIKE (t : Time) : SM unit :=
  s ← getS;
  if bool_decide (oldIKE s ≠ None) && After t (oldIKEUntil s) then
    _ ← modifyS (set_oldIKE None);
    _ ← modifyS (set_oldPeer noPeer);
    modifyS (set_oldIKEDelete None)
  else mret tt.

Definition retransmitOldDelete (t : Time) : SM unit :=
  s ← getS;
  match oldIKEDelete s with
  | None => mret tt
  | Some p =>
      if bool_decide (oldIKE s = None) then modifyS (set_oldIKEDelete None)
      else if After t (px_nextRetransmit p) then
        let att := px_attempts p + 1 in
        if att >? retransmitTries (cfg s) then modifyS (set_oldIKEDelete None)
        else
          _ ← modifyS (set_oldIKEDelete (Some (px_again p att (Add t (retransBackoff (cfg s) att)))));
          _ ← attempt (sendDatagram (px_raw p));
          mret tt
      else mret tt
  end.

(** The outstanding request, when there is one; true: the peer is declared dead. *)
Definition retransmitPending (t : Time) (p : pendingExchange) : SM bool :=
  s ← getS;
  if After t (px_nextRetransmit p) then
    let att := px_attempts p + 1 in
    if att >? pendingTries s then
      let reestablish := match px_child p with Some cc => cr_reestablish cc | None => false end in
      _ ← modifyS (set_pending None);
      if bool_decide (px_kind p = exDPD) then mret true
      else if reestablish then
        _ ← modifyS (set_childReestablish true);
        _ ← modifyS (set_nextChildReestablish (Add t rekeyRetryInterval));
        mret false
      else mret false
    else
      _ ← modifyS (set_pending (Some (px_again p att (Add t (pendingBackoff s att)))));
      _ ← attempt (sendDatagram (px_raw p));
      mret false
  else mret false.

(** How long nothing has arrived, on either plane. *)
Definition idleTime (t : Time) : SM Z :=
  s ← getS;
  let idle := Sub t (lastInbound s) in
  if dataPlane s then
    last ← LastDataInbound;
    if IsZero last then mret idle
    else mret (if Sub t last <? idle then Sub t last else idle)
  else mret idle.

Definition probeIfIdle (t : Time) : SM unit :=
  s ← getS;
  idle ← idleTime t;
  if idle >? dpdInterval (cfg s) then _ ← attempt (initiateDPD false); mret tt else mret tt.

(** s.dataPlane != nil && !s.childReestablish && now.After(..) && Volume >= max *)
Definition volumeDue (t : Time) : SM bool :=
  s ← getS;
  if dataPlane s && negb (childReestablish s) && After t (nextVolumeRekey s) then
    v ← ChildSAVolume; mret (v >=? rekeyMaxPackets (cfg s))
  else mret false.

(** With the request window free: at most one new exchange is started. *)
Definition startExchange (t : Time) : SM unit :=
  s ← getS;
  if fastDPDDue s then
    _ ← modifyS (set_fastDPDDue false);
    _ ← attempt (initiateDPD true);
    mret tt
  else if childReestablish s && dataPlane s && After t (nextChildReestablish s) then
    r ← attempt (initiateChildRekey true);
    match r with
    | inl _ => modifyS (set_nextChildReestablish (Add t rekeyRetryInterval))
    | inr _ => _ ← modifyS (set_childReestablish false);
               modifyS (set_nextChildReestablish zeroTime)
    end
  else
    vol ← volumeDue t;
    if vol : bool then
      _ ← modifyS (set_nextVolumeRekey (Add t rekeyRetryInterval));
      _ ← attempt (initiateChildRekey false);
      mret tt
    else if dataPlane s && (RekeyLifetime (cfg s) >? 0) && negb (IsZero (nextIKERekey s)) &&
            After t (nextIKERekey s) then
      _ ← modifyS (set_nextIKERekey (Add t rekeyRetryInterval));
      _ ← attempt initiateIKERekey;
      mret tt
    else if dataPlane s && (RekeyLifetime (cfg s) >? 0) && negb (childReestablish s) &&
            negb (IsZero (nextChildRekey s)) && After t (nextChildRekey s) then
      _ ← modifyS (set_nextChildRekey (Add t rekeyRetryInterval));
      _ ← attempt (initiateChildRekey false);
      mret tt
    else probeIfIdle t.

(** true: the peer is declared dead (and onDead has been called) *)
Definition housekeeping : SM bool :=
  t ← now;
  _ ← detectSuspend t;
  _ ← expireOldIKE t;
  _ ← retransmitOldDelete t;
  s ← getS;
  match pending s with
  | Some p => retransmitPending t p
  | None => _ ← startExchange t; mret false
  end.

(** ** Shutdown and the loop *)

Definition sendGracefulDelete : SM unit :=
  s ← getS;
  match ikeSA s with
  | None => mret tt
  | Some p =>
      let inner := [DeletePayload ProtocolIKE []] in
      flags ← roleBit p;
      r ← attempt (encodeSK ExchangeInformational flags (messageID s) inner);
      match r with
      | inl _ => mret tt
      | inr raw => _ ← nextMessageID; _ ← attempt (sendDatagram raw); mret tt
      end
  end.

Inductive event := EvInbound (raw : bytes) | EvTick | EvCancel.

Definition Driver_start : SM unit :=
  t ← now;
  _ ← modifyS (set_lastInbound t);
  _ ← modifyS (set_lastTickWall (Round0 t));
  _ ← modifyS (λ s, if IsZero (childInstalledAt s) then set_childInstalledAt t s else s);
  _ ← modifyS (λ s, if IsZero (ikeInstalledAt s) then set_ikeInstalledAt t s else s);
  s ← getS;
  c ← jitteredDeadline (childInstalledAt s) (RekeyLifetime (cfg s));
  _ ← modifyS (set_nextChildRekey c);
  i ← jitteredDeadline (ikeInstalledAt s) (ikeRekeyLifetime (cfg s));
  modifyS (set_nextIKERekey i).

(** One turn of the select loop; true: the loop returns. *)
Definition Driver_step (e : event) : SM bool :=
  match e with
  | EvCancel => _ ← sendGracefulDelete; mret true
  | EvInbound raw => handleInbound raw
  | EvTick => housekeeping
  end.

Fixpoint Driver_loop (es : list event) : SM bool :=
  match es with
  | [] => mret false
  | e :: rest => stop ← Driver_step e; if stop : bool then mret true else Driver_loop rest
  end.

Definition Driver (es : list event) : SM bool := _ ← Driver_start; Driver_loop es.

End driver.
