(* ===== verification/Stable.v ===== *)
(** * Operations that leave part of the session alone

    Most of the session's routines touch few fields.  [stable obs m] says that [m]
    does not change what [obs] shows of the state; an observation that looks away
    from the call counter, the wire, the SA store and the replay caches is stable
    under all the plumbing: clock, random source, socket, SA store, encoding and
    the error answers. *)

From S2P Require Import Prelude IkePayload IkeMsg Crypto IkeSA Suite Natt Protected Session Rekey Driver.

Definition stable {X E A} (obs : Session → X) (m : ST Session E A) : Prop :=
  ∀ s, safe (m s).2 → obs (m s).1 = obs s.

(** [obs] looks away from the plumbing. *)
Class Observes {X} (obs : Session → X) : Prop := {
  obs_calls n s : obs (set_calls n s) = obs s;
  obs_sent l s : obs (set_sent l s) = obs s;
  obs_sas l s : obs (set_sas l s) = obs s;
  obs_peer d s : obs (set_peer d s) = obs s;
  obs_oldPeer d s : obs (set_oldPeer d s) = obs s;
}.

Create HintDb stable discriminated.

Section rules.
Context {X E : Type} (obs : Session → X).

Lemma stable_bind {A B} (m : ST Session E A) (f : A → ST Session E B) :
  stable obs m → (∀ a, stable obs (f a)) → stable obs (m ≫= f).
Proof.
  intros Hm Hf s. unfold mbind, ST_bind. specialize (Hm s).
  destruct (m s) as [s' [a|e| |]]; cbn in *; [|by auto..].
  intros Hs. by rewrite (Hf a s' Hs), (Hm I).
Qed.
Lemma stable_ret {A} (a : A) : stable obs (mret a : ST Session E A).
Proof. done. Qed.
Lemma stable_throw {A} e : stable obs (throw e : ST Session E A).
Proof. done. Qed.
Lemma stable_get : stable obs (getS : ST Session E Session).
Proof. done. Qed.
Lemma stable_lift {A} (r : Res E A) : stable obs (lift r).
Proof. done. Qed.
Lemma stable_modify f : (∀ s, obs (f s) = obs s) → stable obs (modifyS f : ST Session E unit).
Proof. intros Hf s _. apply Hf. Qed.
Lemma stable_attempt {F A} (m : ST Session E A) : stable obs m → stable obs (attempt (F:=F) m).
Proof. intros Hm s. specialize (Hm s). unfold attempt. by destruct (m s) as [s' []]. Qed.
Lemma stable_wrapST {F A} (g : E → F) (m : ST Session E A) : stable obs m → stable obs (wrapST g m).
Proof. intros Hm s. specialize (Hm s). unfold wrapST. by destruct (m s) as [s' []]. Qed.
End rules.

(** A run that succeeds shows what it showed before. *)
Lemma stable_ok {X A} (obs : Session → X) (m : SM A) s s1 a :
  stable obs m → m s = (s1, Ok a) → obs s1 = obs s.
Proof. intros Hm Hr. specialize (Hm s). rewrite Hr in Hm. by apply Hm. Qed.

#[export] Hint Resolve stable_ret stable_throw stable_get stable_lift stable_attempt stable_wrapST : stable.
#[export] Hint Extern 1 (stable _ (modifyS _)) =>
  apply stable_modify; intros;
  (reflexivity || apply obs_calls || apply obs_sent || apply obs_sas || apply obs_peer ||
   apply obs_oldPeer || by case_match) : stable.

Ltac stable :=
  repeat first
    [ solve [eauto with stable]
    | lazymatch goal with
      | |- stable _ (_ ≫= _) => apply stable_bind
      | |- stable _ (attempt _) => apply stable_attempt
      | |- stable _ (wrapST _ _) => apply stable_wrapST
      | |- stable _ _ => first [ progress cbv zeta | case_match ]
      | |- ∀ _, _ => intro
      end ].

Section plumbing.
Context {P : Primitives} {W : World} {X : Type} (obs : Session → X) {HO : Observes obs}.

Lemma stable_tick : stable obs tick.
Proof using HO. intros s _. apply obs_calls. Qed.
#[local] Hint Resolve stable_tick : stable.
Lemma stable_now : stable obs now.
Proof using HO. unfold now. stable. Qed.
Lemma stable_randBytes k : stable obs (randBytes k).
Proof using HO. unfold randBytes. stable. Qed.
#[local] Hint Resolve stable_now stable_randBytes : stable.
Lemma stable_randUint64 : stable obs randUint64.
Proof using HO. unfold randUint64. stable. Qed.
Lemma stable_NewDH g : stable obs (NewDH g).
Proof using HO. unfold NewDH. stable. Qed.
Lemma stable_sendDatagram raw : stable obs (sendDatagram raw).
Proof using HO.
  intros s. unfold sendDatagram, tick. st_step. destruct (w_send _); intros _; [|apply obs_calls].
  cbn [fst putS]. by rewrite obs_sent, obs_calls.
Qed.
Lemma stable_alloc ike : stable obs (alloc ike).
Proof using HO. intros s _. apply obs_sas. Qed.
Lemma stable_current : stable obs current.
Proof. unfold current. stable. Qed.
Lemma stable_load p : stable obs (load p).
Proof. unfold load. stable. Qed.
#[local] Hint Resolve stable_randUint64 stable_NewDH stable_sendDatagram stable_alloc stable_current
  stable_load : stable.
Lemma stable_roleBit p : stable obs (roleBit p).
Proof. unfold roleBit. stable. Qed.
Lemma stable_on_sa {A} p (c : ST IKESA sess_error A) : stable obs (on_sa p c).
Proof using HO. unfold on_sa. stable. Qed.
#[local] Hint Resolve stable_roleBit stable_on_sa : stable.
Lemma stable_encodeSKAt c e f i ps : stable obs (encodeSKAt c e f i ps).
Proof using HO. unfold encodeSKAt. stable. Qed.
#[local] Hint Resolve stable_encodeSKAt : stable.
Lemma stable_encodeSK e f i ps : stable obs (encodeSK e f i ps).
Proof using HO. unfold encodeSK, curCtx. stable. Qed.
Lemma stable_encodeSKEmptyAt c e f i : stable obs (encodeSKEmptyAt c e f i).
Proof using HO. unfold encodeSKEmptyAt. stable. Qed.
Lemma stable_jitteredDeadline b l : stable obs (jitteredDeadline b l).
Proof using HO. unfold jitteredDeadline, randFraction. stable. Qed.
Lemma stable_recordPeerResponse v i raw : stable obs (recordPeerResponse v i raw).
Proof using HO. unfold recordPeerResponse. destruct v; stable. Qed.
#[local] Hint Resolve stable_encodeSK stable_encodeSKEmptyAt stable_jitteredDeadline
  stable_recordPeerResponse : stable.
Lemma stable_sendNotifyResponse dec i v p t d : stable obs (sendNotifyResponse dec i v p t d).
Proof using HO. unfold sendNotifyResponse. stable. Qed.
#[local] Hint Resolve stable_sendNotifyResponse : stable.
Lemma stable_orTemporaryFailure {A} dec i v (c : SM A) :
  stable obs c → stable obs (orTemporaryFailure dec i v c).
Proof using HO. intros. unfold orTemporaryFailure, sendTemporaryFailure. stable. Qed.
#[local] Hint Resolve stable_orTemporaryFailure : stable.
Lemma stable_answerKE dec i v g d : stable obs (answerKE dec i v g d).
Proof using HO. unfold answerKE. stable. Qed.
Lemma stable_decodeIKE raw : stable obs (decodeIKE raw).
Proof using HO. unfold decodeIKE, curCtx. stable. Qed.
Lemma stable_dedupPeerRequest id v : stable obs (dedupPeerRequest id v).
Proof using HO. unfold dedupPeerRequest. stable. Qed.
End plumbing.
#[export] Hint Resolve stable_tick stable_now stable_randBytes stable_randUint64 stable_NewDH
  stable_sendDatagram stable_alloc stable_current stable_load stable_roleBit stable_on_sa
  stable_encodeSKAt stable_encodeSK stable_encodeSKEmptyAt stable_jitteredDeadline
  stable_recordPeerResponse stable_sendNotifyResponse stable_orTemporaryFailure stable_answerKE
  stable_decodeIKE stable_dedupPeerRequest : stable.
#[export] Hint Extern 1 (Observes _) => typeclasses eauto : stable.
