(* ===== verification/Invariant.v ===== *)
(** * The session invariant

    What holds of the session between two events of the driver: the current IKE SA
    exists, its keys are well formed and the SPIs on the wire are the ones they
    were derived for; the superseded SA is a different object; a pending exchange
    carries the context its completion needs.  Every operation of Session.v,
    Rekey.v and Driver.v keeps the invariant, never panics, never changes the keys
    of an existing SA, and only adds to what the data plane was given. *)

From S2P Require Import Prelude IkePayload IkeMsg Crypto IkeSA Esp Suite Natt Protected Session Rekey Driver.

(** [c] names an SA of the store, with the SPIs it was derived for. *)
Definition ctx_ok (l : list IKESA) (c : ikeCtx) : Prop :=
  ∃ ike, l !! c_sa c = Some ike ∧ ike_ok ike ∧
         ike_InitiatorSPI ike = c_spii c ∧ ike_ResponderSPI ike = c_spir c.

Definition child_ctx_ok (cc : childRekeyCtx) : Prop :=
  is_u32 (cr_newInSPI cc) ∧ len (cr_ni cc) = nonceLen ∧ bytes_ok (cr_ni cc) ∧
  ∀ d, cr_dh cc = Some d → dh_wf d.

Definition ike_ctx_ok (ic : ikeRekeyCtx) : Prop :=
  is_u64 (ir_newSPIi ic) ∧ len (ir_ni ic) = nonceLen ∧ bytes_ok (ir_ni ic) ∧ dh_wf (ir_dh ic).

Definition pending_ok (p : pendingExchange) : Prop :=
  match px_kind p with
  | exChildRekey => ∃ cc, px_child p = Some cc ∧ child_ctx_ok cc
  | exIKERekey => ∃ ic, px_ike p = Some ic ∧ ike_ctx_ok ic
  | exDPD | exDelete => px_child p = None ∧ px_ike p = None
  end.

Record session_ok (s : Session) : Prop := {
  so_sas : Forall ike_ok (sas s);
  so_current : ∃ p, ikeSA s = Some p ∧
    ctx_ok (sas s) {| c_sa := p; c_spii := initiatorSPI s; c_spir := responderSPI s |};
  so_old : ∀ c, oldIKE s = Some c → ctx_ok (sas s) c ∧ ikeSA s ≠ Some (c_sa c);
  so_messageID : is_u32 (messageID s);
  so_pending : ∀ p, pending s = Some p → pending_ok p;
  so_dataPlane : dataPlane s = true;
}.

(** The store only grows, and keys never change. *)
Definition sas_extend (l l' : list IKESA) : Prop :=
  ∀ i ike, l !! i = Some ike → ∃ ike', l' !! i = Some ike' ∧ same_keys ike ike'.

(** What the data plane is given can be installed: keys of the lengths the ESP
    transform of the suite demands. *)
Record update_ok (u : ChildSAUpdate) : Prop := {
  uo_in : is_u32 (NewInSPI u);
  uo_out : is_u32 (NewOutSPI u);
  uo_fit : keys_fit (up_Suite u) (OutEncr u) (OutInteg u) (InEncr u) (InInteg u) = true;
  uo_bytes : bytes_ok (OutEncr u) ∧ bytes_ok (OutInteg u) ∧ bytes_ok (InEncr u) ∧ bytes_ok (InInteg u);
}.

(** [l'] adds well-formed updates to [l]. *)
Definition installs (l l' : list ChildSAUpdate) : Prop := ∃ us, l' = l ++ us ∧ Forall update_ok us.

#[export] Instance installs_preorder : PreOrder installs.
Proof.
  split.
  - intros l. exists []. by rewrite app_nil_r.
  - intros l1 l2 l3 (us & -> & H1) (vs & -> & H2). exists (us ++ vs). rewrite app_assoc.
    by rewrite Forall_app.
Qed.

#[export] Hint Extern 1 (installs _ _) => reflexivity : core.

(** How the state may move.  With [swap] unset, the SA in use stays in use. *)
Record evolves (swap : bool) (s s' : Session) : Prop := {
  ev_cfg : cfg s' = cfg s;
  ev_sas : sas_extend (sas s) (sas s');
  ev_installed : installs (installed s) (installed s');
  ev_sent : sent s `prefix_of` sent s';
  ev_current : swap = false → ikeSA s' = ikeSA s ∧ oldIKE s' = oldIKE s ∧
    initiatorSPI s' = initiatorSPI s ∧ responderSPI s' = responderSPI s;
}.

Definition inv (swap : bool) (s0 s : Session) : Prop := session_ok s ∧ evolves swap s0 s.

Lemma same_keys_refl s : same_keys s s.
Proof. exists (skSeq s). by rewrite with_skSeq_self. Qed.
Lemma same_keys_trans s1 s2 s3 : same_keys s1 s2 → same_keys s2 s3 → same_keys s1 s3.
Proof. intros [n ->] [m ->]. by exists m. Qed.
Lemma same_keys_ok s s' : same_keys s s' → ike_ok s → ike_ok s'.
Proof. intros [n ->]. apply with_skSeq_ok. Qed.

Lemma sas_extend_refl l : sas_extend l l.
Proof. intros i ike Hi. exists ike. auto using same_keys_refl. Qed.
Lemma sas_extend_trans l1 l2 l3 : sas_extend l1 l2 → sas_extend l2 l3 → sas_extend l1 l3.
Proof.
  intros H1 H2 i ike Hi. destruct (H1 _ _ Hi) as (ike2 & Hi2 & ?).
  destruct (H2 _ _ Hi2) as (ike3 & ? & ?). eauto using same_keys_trans.
Qed.
Lemma sas_extend_app l l' : sas_extend l (l ++ l').
Proof. intros i ike Hi. exists ike. split; [by apply lookup_app_l_Some|apply same_keys_refl]. Qed.
Lemma sas_extend_insert l p ike ike' :
  l !! p = Some ike → same_keys ike ike' → sas_extend l (<[p:=ike']> l).
Proof.
  intros Hp Hk i x Hi. destruct (decide (i = p)) as [->|Hne].
  - exists ike'. split; [|congruence]. apply list_lookup_insert_eq. by eapply lookup_lt_Some.
  - exists x. rewrite list_lookup_insert_ne by done. auto using same_keys_refl.
Qed.

Lemma ctx_ok_extend l l' c : sas_extend l l' → ctx_ok l c → ctx_ok l' c.
Proof.
  intros Hl (ike & Hi & Hok & H1 & H2). destruct (Hl _ _ Hi) as (ike' & Hi' & [n ->]).
  exists (with_skSeq ike n). auto using with_skSeq_ok.
Qed.

Lemma evolves_refl k s : evolves k s s.
Proof. constructor; auto using sas_extend_refl. Qed.

Lemma evolves_trans k s1 s2 s3 : evolves k s1 s2 → evolves k s2 s3 → evolves k s1 s3.
Proof.
  intros [C1 S1 I1 T1 U1] [C2 S2 I2 T2 U2]. constructor.
  - congruence.
  - by eapply sas_extend_trans.
  - by etrans.
  - by etrans.
  - intros Hk. destruct (U1 Hk) as (?&?&?&?), (U2 Hk) as (?&?&?&?). split_and!; congruence.
Qed.

Lemma evolves_weaken k s s' : evolves k s s' → evolves true s s'.
Proof. intros []. by constructor. Qed.

Lemma inv_refl k s : session_ok s → inv k s s.
Proof. split; [done|apply evolves_refl]. Qed.

Lemma inv_weaken k s s' : inv k s s' → inv true s s'.
Proof. intros [? ?]. split; [done|]. by eapply evolves_weaken. Qed.

(** Start again from the present state. *)
Lemma hoare_rebase {A} k s0 (m : SM A) Q :
  (∀ s1, inv k s0 s1 → hoare (inv k s1) m Q) → hoare (inv k s0) m Q.
Proof.
  intros Hm s Hs. destruct (Hm s Hs s) as [[? ?] ?]; [apply inv_refl; by destruct Hs|].
  split; [|done]. split; [done|]. destruct Hs. by eapply evolves_trans.
Qed.

Lemma inv_trans k s0 s1 s2 : inv k s0 s1 → inv k s1 s2 → inv k s0 s2.
Proof. intros [_ H1] [? H2]. split; [done|]. by eapply evolves_trans. Qed.

Lemma hoare_run {A} k s0 s (m : SM A) Q :
  inv k s0 s → hoare (inv k s) m Q → inv k s0 (m s).1 ∧ yields Q (m s).2.
Proof.
  intros Hs Hm. destruct (Hm s) as [H1 H2]; [by apply inv_refl, Hs|].
  split; [by eapply inv_trans|done].
Qed.

(** Up to the cutover nothing swaps; from it on the weaker invariant holds. *)
Lemma run_until_swap {A B} s1 s (m : SM A) (f : A → SM B) Q R :
  hoare (inv false s1) m Q → inv false s1 s →
  (∀ a s', Q a → inv false s1 s' → inv true s1 (f a s').1 ∧ yields R (f a s').2) →
  inv true s1 ((m ≫= f) s).1 ∧ yields R ((m ≫= f) s).2.
Proof.
  intros Hm Hs Hf. destruct (Hm s Hs) as [Hs' Hr]. unfold mbind, ST_bind.
  destruct (m s) as [s' [a|e| |]]; cbn in *; [by apply Hf|by split; [eapply inv_weaken|]|done..].
Qed.

Lemma run_after_swap {A B} s1 s (m : SM A) (f : A → SM B) Q R :
  inv true s1 (m s).1 ∧ yields Q (m s).2 → (∀ a, Q a → hoare (inv true s1) (f a) R) →
  inv true s1 ((m ≫= f) s).1 ∧ yields R ((m ≫= f) s).2.
Proof.
  intros [Hs' Hr] Hf. unfold mbind, ST_bind.
  destruct (m s) as [s' [a|e| |]]; cbn in *; [by apply Hf|done..].
Qed.

Lemma hoare_attempt {S E F A} (I : S → Prop) (c : ST S E A) (Q : A → Prop) :
  hoare I c Q → hoare I (attempt (F:=F) c) (λ r, match r with inr a => Q a | inl _ => True end).
Proof.
  intros Hc s Hs. destruct (Hc s Hs) as [? ?]. unfold attempt.
  by destruct (c s) as [s' [a|e| |]].
Qed.
#[export] Hint Resolve hoare_attempt : hoare.

Lemma st_attempt {S E F A B} (m : ST S E A) (f : E + A → ST S F B) s :
  (attempt m ≫= f) s =
    match m s with
    | (s', Ok a) => f (inr a) s'
    | (s', Err e) => f (inl e) s'
    | (s', Panic) => (s', Panic)
    | (s', Hang) => (s', Hang)
    end.
Proof. unfold mbind, ST_bind, attempt. by destruct (m s) as [s' []]. Qed.

(** ** Writes that leave the invariant alone *)

(** A write to fields the invariant does not mention. *)
Ltac inv_frame :=
  let s := fresh "s" in let H := fresh "H" in
  intros s H; repeat case_match; (exact H || (destruct H as [[] []]; by split; constructor)).

Lemma hoare_frame k s0 (f : Session → Session) :
  (∀ s, inv k s0 s → inv k s0 (f s)) → hoare (inv k s0) (modifyS f : SM unit) (λ _, True).
Proof. apply hoare_modify. Qed.

#[export] Hint Extern 1 (hoare (inv _ _) (modifyS _) _) => apply hoare_frame; inv_frame : hoare.

Lemma inv_set_pending k s0 s p :
  inv k s0 s → (∀ q, p = Some q → pending_ok q) → inv k s0 (set_pending p s).
Proof. intros [[] []] Hp. by split; constructor. Qed.

Lemma hoare_set_pending k s0 p :
  pending_ok p → hoare (inv k s0) (modifyS (set_pending (Some p)) : SM unit) (λ _, True).
Proof. intros Hp. apply hoare_modify. intros s Hs. apply inv_set_pending; [done|]. by intros q [= <-]. Qed.

Lemma inv_set_messageID k s0 s v : inv k s0 s → is_u32 v → inv k s0 (set_messageID v s).
Proof. intros [[] []] Hv. by split; constructor. Qed.

Section ops.
Context {P : Primitives} {HL : PrimitiveLaws P} {W : World} {HW : WorldLaws W}.
Context (k : bool) (s0 : Session).

Lemma hoare_nextMessageID : hoare (inv k s0) nextMessageID (λ _, True).
Proof.
  apply hoare_modify. intros s Hs. apply inv_set_messageID; [done|].
  unfold is_u32, u32. by apply Z.mod_pos_bound.
Qed.

Lemma hoare_tick : hoare (inv k s0) tick (λ _, True).
Proof.
  intros s Hs. cbn. split; [|done]. revert s Hs. inv_frame.
Qed.

Lemma hoare_now : hoare (inv k s0) now (λ t, IsZero t = false).
Proof using HW.
  eapply hoare_bind; [apply hoare_tick|]. intros n _. apply hoare_ret, clock_set.
Qed.

Lemma hoare_randBytes n : 0 ≤ n → hoare (inv k s0) (randBytes n) (λ b, len b = n ∧ bytes_ok b).
Proof using HW.
  intros Hn. eapply hoare_bind; [apply hoare_tick|]. intros c _.
  destruct (w_rand c n) as [b|] eqn:Hb; [|apply hoare_throw].
  apply hoare_ret. apply rand_len in Hb as [-> ?]. split; [lia|done].
Qed.

Lemma hoare_randUint64 : hoare (inv k s0) randUint64 is_u64.
Proof using HW.
  eapply hoare_bind; [apply hoare_randBytes; lia|]. intros b [Hl Hb].
  apply hoare_lift, Uint64_yields; [done|lia].
Qed.

Lemma hoare_NewDH group : hoare (inv k s0) (NewDH group) (λ d, dh_Group d = group ∧ dh_wf d).
Proof using HL HW.
  eapply hoare_bind; [apply hoare_tick|]. intros c _.
  apply hoare_lift, wrap_err_yields, newDH_wf, dh_ok.
Qed.

Lemma hoare_sendDatagram raw : hoare (inv k s0) (sendDatagram raw) (λ _, True).
Proof.
  eapply hoare_bind; [apply hoare_tick|]. intros c _. eapply hoare_bind; [apply hoare_get|].
  intros s [[] []]. destruct (w_send c); [|apply hoare_throw].
  apply hoare_put. split; constructor; cbn; auto. by apply prefix_app_r.
Qed.

Lemma hoare_LastDataInbound : hoare (inv k s0) LastDataInbound (λ _, True).
Proof. eapply hoare_bind; [apply hoare_tick|]. intros c _. by apply hoare_ret. Qed.
Lemma hoare_ChildSAVolume : hoare (inv k s0) ChildSAVolume (λ _, True).
Proof. eapply hoare_bind; [apply hoare_tick|]. intros c _. by apply hoare_ret. Qed.

Lemma hoare_InstallChildSA u :
  update_ok u → hoare (inv k s0) (InstallChildSA u) (λ _, True).
Proof.
  intros Hu. eapply hoare_bind; [apply hoare_get|]. intros s [[] []]. rewrite so_dataPlane0.
  apply hoare_put. split; constructor; cbn; auto. etrans; [exact ev_installed0|].
  exists [u]. split; [done|]. by constructor.
Qed.

(** *** SAs *)

Lemma hoare_load c : ctx_ok (sas s0) c → hoare (inv k s0) (load (c_sa c)) ike_ok.
Proof.
  intros Hc s [Hok Hev].
  destruct (ctx_ok_extend _ _ _ (ev_sas _ _ _ Hev) Hc) as (ike & Hi & ? & _).
  unfold load. rewrite st_get, Hi. by split.
Qed.

Lemma hoare_roleBit c : ctx_ok (sas s0) c → hoare (inv k s0) (roleBit (c_sa c)) (λ _, True).
Proof. intros Hc. eapply hoare_bind; [by apply hoare_load|]. intros. by apply hoare_ret. Qed.

Lemma hoare_on_sa {A} c (f : ST IKESA sess_error A) Q :
  ctx_ok (sas s0) c → (∀ ike, ike_ok ike → hoare (same_keys ike) f Q) →
  hoare (inv k s0) (on_sa (c_sa c) f) Q.
Proof.
  intros Hc Hf s [Hok Hev].
  destruct (ctx_ok_extend _ _ _ (ev_sas _ _ _ Hev) Hc) as (ike & Hi & Hike & _).
  unfold on_sa, load. rewrite st_assoc, st_get, Hi. cbn [deref]. rewrite st_lift.
  destruct (Hf ike Hike ike (same_keys_refl _)) as [Hk Hy]. destruct (f ike) as [ike' r].
  rewrite st_modify. cbn in Hk, Hy |- *. split; [|done].
  pose proof (sas_extend_insert _ _ _ _ Hi Hk) as Hext.
  destruct Hok as [H1 (p & Hp & H2) H3 H4 H5 H6], Hev as [E1 E2 E3 E4 E5].
  split; constructor; cbn; auto.
  - apply Forall_insert; [done|]. by eapply same_keys_ok.
  - exists p. eauto using ctx_ok_extend.
  - intros c' Hc'. destruct (H3 c' Hc'). eauto using ctx_ok_extend.
  - by eapply sas_extend_trans.
Qed.

Lemma hoare_encodeSKAt c ex fl id inner :
  ctx_ok (sas s0) c → hoare (inv k s0) (encodeSKAt c ex fl id inner) (λ _, True).
Proof using HL HW.
  intros Hc. eapply hoare_bind; [apply hoare_attempt, hoare_randBytes; lia|]. intros iv _.
  apply hoare_on_sa; [done|]. intros. by apply encodeSKWith_hoare.
Qed.

Lemma hoare_encodeSKEmptyAt c ex fl id :
  ctx_ok (sas s0) c → hoare (inv k s0) (encodeSKEmptyAt c ex fl id) (λ _, True).
Proof using HL HW.
  intros Hc. eapply hoare_bind; [apply hoare_attempt, hoare_randBytes; lia|]. intros iv _.
  apply hoare_on_sa; [done|]. intros ike Hike s Hs. rewrite encodeSKEmptyWith_eq.
  by apply (encodeSKWith_hoare (c_spii c) (c_spir c) ex fl id [] _ ike).
Qed.

End ops.
#[export] Hint Resolve hoare_nextMessageID hoare_tick hoare_now hoare_randUint64 hoare_NewDH
  hoare_sendDatagram hoare_LastDataInbound hoare_ChildSAVolume hoare_InstallChildSA hoare_load
  hoare_roleBit hoare_encodeSKAt hoare_encodeSKEmptyAt : hoare.
#[export] Hint Extern 1 (hoare _ (randBytes _) _) => apply hoare_randBytes; (unfold nonceLen; lia) : hoare.

Lemma hoare_assoc {S E A B C} (I : S → Prop) (m : ST S E A) (f : A → ST S E B) (g : B → ST S E C) R :
  hoare I ((m ≫= f) ≫= g) R → hoare I (m ≫= λ a, f a ≫= g) R.
Proof. intros H s Hs. rewrite <- st_assoc. by apply H. Qed.

Section sas.
Context {P : Primitives} {HL : PrimitiveLaws P} {W : World} {HW : WorldLaws W}.
Context (k : bool) (s0 : Session).

(** The current SA, as a context of the state it was read from. *)
Lemma hoare_current_bind {A} (f : nat → SM A) R :
  (∀ s1 c, inv k s0 s1 → ctx_ok (sas s1) c → hoare (inv k s1) (f (c_sa c)) R) →
  hoare (inv k s0) (current ≫= f) R.
Proof.
  intros Hf. apply hoare_rebase. intros s1 Hs1.
  intros s Hs. destruct (so_current s (proj1 Hs)) as (p & Hp & Hc).
  unfold current. rewrite st_assoc, st_get, Hp. cbn [deref]. rewrite st_lift.
  destruct (Hf s _ ltac:(by split; [apply Hs|eapply evolves_trans; [apply Hs1|apply Hs]]) Hc s)
    as [[? ?] ?]; [by apply inv_refl, Hs|].
  split; [|done]. split; [done|]. eapply evolves_trans; [apply Hs|done].
Qed.

Lemma hoare_curCtx_bind {A} (f : ikeCtx → SM A) R :
  (∀ s1 c, inv k s0 s1 → ctx_ok (sas s1) c → hoare (inv k s1) (f c) R) →
  hoare (inv k s0) (curCtx ≫= f) R.
Proof.
  intros Hf. apply hoare_rebase. intros s1 Hs1.
  intros s Hs. destruct (so_current s (proj1 Hs)) as (p & Hp & Hc).
  unfold curCtx, current. rewrite !st_assoc, st_get, Hp. cbn [deref].
  rewrite st_lift, st_assoc, st_get, st_mret.
  destruct (Hf s _ ltac:(by split; [apply Hs|eapply evolves_trans; [apply Hs1|apply Hs]]) Hc s)
    as [[? ?] ?]; [by apply inv_refl, Hs|].
  split; [|done]. split; [done|]. eapply evolves_trans; [apply Hs|done].
Qed.

Lemma hoare_role : hoare (inv k s0) (p ← current; roleBit p) (λ _, True).
Proof. apply hoare_current_bind. intros s1 c _ Hc. by apply hoare_roleBit. Qed.

Lemma hoare_current_load : hoare (inv k s0) (p ← current; load p) ike_ok.
Proof. apply hoare_current_bind. intros s1 c _ Hc. by apply hoare_load. Qed.

Lemma hoare_encodeSK ex fl id inner : hoare (inv k s0) (encodeSK ex fl id inner) (λ _, True).
Proof using HL HW. apply hoare_curCtx_bind. intros s1 c _ Hc. by apply hoare_encodeSKAt. Qed.

Lemma hoare_encodeSKEmpty ex fl id : hoare (inv k s0) (encodeSKEmpty ex fl id) (λ _, True).
Proof using HL HW. apply hoare_curCtx_bind. intros s1 c _ Hc. by apply hoare_encodeSKEmptyAt. Qed.

Lemma hoare_jitteredDeadline base l : hoare (inv k s0) (jitteredDeadline base l) (λ _, True).
Proof using HW.
  unfold jitteredDeadline. destruct (l <=? 0); [by apply hoare_ret|].
  eapply hoare_bind with (Q := λ _, True); [|intros; by apply hoare_ret].
  unfold randFraction. eapply hoare_bind; [apply hoare_attempt, hoare_randBytes; lia|].
  intros [e|b] Hb; [by apply hoare_ret|]. destruct Hb as [Hl _].
  destruct (index_ok (E:=sess_error) b 0) as (x & -> & _); [lia..|].
  destruct (index_ok (E:=sess_error) b 1) as (y & -> & _); [lia..|].
  by intros s Hs.
Qed.

(** A freshly derived SA goes into the store; the rest runs from that state. *)
Lemma inv_alloc s ike : inv k s0 s → ike_ok ike → inv k s0 (set_sas (sas s ++ [ike]) s).
Proof.
  intros Hs Hike. apply (inv_trans k s0 s); [done|].
  destruct Hs as [[H1 (p & Hp & Hc) H3 H4 H5 H6] _]. pose proof (sas_extend_app (sas s) [ike]) as Hx.
  split; constructor; cbn; auto.
  - apply Forall_app. split; [done|]. by apply Forall_singleton.
  - exists p. eauto using ctx_ok_extend.
  - intros c Hc'. destruct (H3 c Hc'). eauto using ctx_ok_extend.
Qed.

Lemma hoare_alloc_bind {A} ike (f : nat → SM A) R :
  ike_ok ike →
  (∀ s1 np, inv k s0 s1 → sas s1 !! np = Some ike → ikeSA s1 ≠ Some np →
     inv k s1 (f np s1).1 ∧ yields R (f np s1).2) →
  hoare (inv k s0) (alloc ike ≫= f) R.
Proof.
  intros Hike Hf s Hs. unfold alloc. rewrite st_assoc, st_get, st_assoc, st_put, st_mret.
  pose proof (inv_alloc s ike Hs Hike) as Hs1. set (s1 := set_sas (sas s ++ [ike]) s) in *.
  destruct (so_current s (proj1 Hs)) as (p & Hp & (x & Hx & _)). cbn in Hx.
  destruct (Hf s1 (length (sas s))) as [H1 H2].
  - done.
  - cbn. by apply list_lookup_middle.
  - cbn. rewrite Hp. intros [= ->]. apply lookup_lt_Some in Hx. lia.
  - split; [|done]. by eapply inv_trans.
Qed.

End sas.
#[export] Hint Resolve hoare_role hoare_current_load hoare_encodeSK hoare_encodeSKEmpty
  hoare_jitteredDeadline : hoare.

(** ** The cutover *)

Section swap.
Context {P : Primitives} {HL : PrimitiveLaws P} {W : World} {HW : WorldLaws W}.

Lemma swapIKE_inv s1 s np ike spii spir :
  sas s1 !! np = Some ike → ike_InitiatorSPI ike = spii → ike_ResponderSPI ike = spir → ike_ok ike →
  ikeSA s1 ≠ Some np → inv false s1 s →
  inv true s1 (swapIKE np spii spir s).1 ∧ yields (λ _, True) (swapIKE np spii spir s).2.
Proof using HW.
  intros Hnp Hi Hr Hike Hne [Hok Hev]. destruct (ev_current _ _ _ Hev eq_refl) as (Hcur & _).
  destruct (so_current s Hok) as (p & Hp & Hc).
  unfold swapIKE, current, now, tick. st_step. rewrite Hp. cbn [deref]. st_step.
  match goal with |- inv _ _ (?m ?s2).1 ∧ _ => assert (Hs2 : inv true s1 s2) end.
  { destruct Hok as [H1 _ H3 H4 H5 H6], Hev as [E1 E2 E3 E4 E5].
    destruct (E2 _ _ Hnp) as (ike' & Hnp' & [n ->]).
    split; constructor; cbn; auto; try done.
    - exists np. split; [done|]. exists (with_skSeq ike n). auto using with_skSeq_ok.
    - intros c [= <-]. split; [done|]. cbn. intros [= ->]. congruence. }
  match goal with |- inv _ _ (?m ?s2).1 ∧ _ => enough (hoare (inv true s1) m (λ _, True)) as Hm end.
  - by apply Hm.
  - hoare_go.
Qed.
End swap.

(** ** Exchanges this client initiates *)

Section initiate.
Context {P : Primitives} {HL : PrimitiveLaws P} {W : World} {HW : WorldLaws W}.
Context (k : bool) (s0 : Session).

Lemma hoare_initiateDPD fast : hoare (inv k s0) (initiateDPD fast) (λ _, True).
Proof using HL HW.
  unfold initiateDPD. hoare_step. apply hoare_assoc. hoare_go.
  eapply hoare_bind; [by apply hoare_set_pending|]. intros. hoare_go.
Qed.

Lemma hoare_sendChildDelete spi : hoare (inv k s0) (sendChildDelete spi) (λ _, True).
Proof using HL HW.
  unfold sendChildDelete. hoare_step. apply hoare_assoc. hoare_go.
  eapply hoare_bind; [by apply hoare_set_pending|]. intros. hoare_go.
Qed.

Lemma hoare_sendIKEDelete : hoare (inv k s0) sendIKEDeleteUnderCurrent (λ _, True).
Proof using HL HW.
  unfold sendIKEDeleteUnderCurrent. hoare_step. apply hoare_assoc. hoare_go.
Qed.

Lemma hoare_initiateChildRekey re : hoare (inv k s0) (initiateChildRekey re) (λ _, True).
Proof using HL HW.
  unfold initiateChildRekey. hoare_step. destruct (child a) as [ch|]; [|apply hoare_throw].
  eapply hoare_bind; [apply hoare_randBytes; lia|]. intros newSPI [Hl Hb].
  eapply hoare_bind; [apply hoare_randBytes; unfold nonceLen; lia|]. intros ni [Hnl Hnb].
  eapply hoare_bind with (Q := λ d, ∀ d', d = Some d' → dh_wf d').
  { destruct (childPFS a); [|by apply hoare_ret].
    eapply hoare_bind; [apply hoare_NewDH|]. intros d [_ Hd]. apply hoare_ret. by intros ? [= <-]. }
  intros d Hd. apply hoare_assoc. hoare_step. hoare_step. hoare_step. hoare_step.
  eapply hoare_bind; [apply hoare_lift, Uint32_yields; [done|lia]|]. intros newIn Hn.
  eapply hoare_bind; [apply hoare_set_pending|intros; hoare_go]. cbn. by eexists.
Qed.

Lemma hoare_initiateIKERekey : hoare (inv k s0) initiateIKERekey (λ _, True).
Proof using HL HW.
  unfold initiateIKERekey. hoare_step. hoare_step.
  eapply hoare_bind; [apply hoare_NewDH|]. intros d [_ Hd].
  eapply hoare_bind; [apply hoare_randBytes; unfold nonceLen; lia|]. intros ni [Hnl Hnb].
  apply hoare_assoc. hoare_step. hoare_step. hoare_step. hoare_step.
  eapply hoare_bind; [apply hoare_set_pending|intros; hoare_go]. cbn. by eexists.
Qed.
End initiate.
#[export] Hint Resolve hoare_initiateDPD hoare_sendChildDelete hoare_sendIKEDelete
  hoare_initiateChildRekey hoare_initiateIKERekey : hoare.

(** ** Payloads of a CREATE_CHILD_SA message *)

Record rp_ok (a : rekeyPayloads) : Prop := {
  rpo_sa : ∀ ps, rp_sa a = Some ps → Forall proposal_ok ps;
  rpo_nonce : bytes_ok (rp_nonce a);
  rpo_ke : ∀ g d, rp_ke a = Some (g, d) → is_u16 g ∧ bytes_ok d;
  rpo_tsi : rp_tsi a = [] ∨ selectors_ok (rp_tsi a);
  rpo_tsr : rp_tsr a = [] ∨ selectors_ok (rp_tsr a);
}.

Lemma collect_ok a p : rp_ok a → payload_ok p → rp_ok (collect a p).
Proof.
  intros [] Hp. destruct p; cbn [collect payload_ok] in *; constructor; cbn; auto;
    (by intros; simplify_eq) || by destruct Hp.
Qed.

Lemma collect_checked_ok a ps : Forall payload_ok ps → rp_ok a → yields rp_ok (collect_checked a ps).
Proof.
  intros Hps. revert a. induction Hps as [|p ps Hp _ IH]; intros a Ha; [done|].
  assert (Hc := collect_ok a p Ha Hp).
  destruct p; cbn [collect_checked]; try by apply IH. by destruct (notifyError _); [|apply IH].
Qed.

Lemma fold_collect_ok a ps : Forall payload_ok ps → rp_ok a → rp_ok (fold_left collect ps a).
Proof.
  intros Hps. revert a. induction Hps; intros a Ha; [done|]. cbn. auto using collect_ok.
Qed.

Lemma noRekeyPayloads_ok : rp_ok noRekeyPayloads.
Proof. by constructor; cbn; auto with go. Qed.

Definition ke_ok (ke : option (Z * bytes)) : Prop := ∀ g d, ke = Some (g, d) → is_u16 g ∧ bytes_ok d.

Lemma childRekeyResponse_ok c inner :
  Forall payload_ok inner →
  yields (λ '(prop, suite, nr, ke),
    proposal_ok prop ∧ suite ∈ espSuites ∧ len (pr_SPI prop) = 4 ∧ bytes_ok nr ∧ ke_ok ke)
    (childRekeyResponse c inner).
Proof.
  intros Hin. unfold childRekeyResponse.
  eapply yields_bind; [by apply collect_checked_ok, noRekeyPayloads_ok|]. intros a [Hsa Hn Hke _ _].
  destruct (rp_sa a) as [[|prop ps]|]; [done| |done].
  destruct (selectedSuite prop _) as [suite|] eqn:Hs; [|done].
  destruct (negb _) eqn:Hl; [done|]. destruct (_ =? 0); [done|]. bool_prop.
  specialize (Hsa _ eq_refl). inversion_clear Hsa. cbn. split_and!; auto.
  by eapply enabledSuites_sub, selectedSuite_in.
Qed.

Lemma childRekeyRequestPayloads_ok inner :
  Forall payload_ok inner →
  yields (λ '(saP, ni, ke, tsi, tsr), Forall proposal_ok saP ∧ bytes_ok ni ∧ ke_ok ke ∧
            (tsi = [] ∨ selectors_ok tsi) ∧ (tsr = [] ∨ selectors_ok tsr))
    (childRekeyRequestPayloads inner).
Proof.
  intros Hin. unfold childRekeyRequestPayloads.
  destruct (fold_collect_ok _ _ Hin noRekeyPayloads_ok) as [Hsa Hn Hke Hi Hr].
  destruct (rp_sa _) as [ps|]; [|done]. destruct (_ =? 0); [done|]. cbn. auto.
Qed.

Lemma ikeRekeyPayloads_ok inner :
  Forall payload_ok inner →
  yields (λ '(saP, nonce, (g, d)), Forall proposal_ok saP ∧ bytes_ok nonce ∧ is_u16 g ∧ bytes_ok d)
    (ikeRekeyPayloads inner).
Proof.
  intros Hin. unfold ikeRekeyPayloads.
  eapply yields_bind; [by apply collect_checked_ok, noRekeyPayloads_ok|]. intros a [Hsa Hn Hke _ _].
  destruct (rp_sa a) as [ps|]; [|done]. destruct (rp_ke a) as [[g d]|]; [|done].
  destruct (_ || _); [done|]. cbn. destruct (Hke _ _ eq_refl). auto.
Qed.

(** ** Completing our own rekeys *)

Section complete.
Context {P : Primitives} {HL : PrimitiveLaws P} {W : World} {HW : WorldLaws W}.

(** The keys of an exchange that agreed on an ESP suite, in either role. *)
Lemma update_ok_keys suite keys i o old :
  suite ∈ espSuites → is_u32 i → is_u32 o →
  child_keys_ok (su_encrKeyLen suite) (su_integKeyLen suite) keys →
  update_ok {| NewInSPI := i; NewOutSPI := o; OldInSPI := old; up_Suite := su_id suite;
               OutEncr := EncrIR keys; OutInteg := IntegIR keys;
               InEncr := EncrRI keys; InInteg := IntegRI keys |} ∧
  update_ok {| NewInSPI := i; NewOutSPI := o; OldInSPI := old; up_Suite := su_id suite;
               OutEncr := EncrRI keys; OutInteg := IntegRI keys;
               InEncr := EncrIR keys; InInteg := IntegIR keys |}.
Proof.
  intros Hs Hi Ho [(L1 & L2 & L3 & L4) (B1 & B2 & B3 & B4)].
  split; constructor; cbn [NewInSPI NewOutSPI up_Suite OutEncr OutInteg InEncr InInteg]; try done;
    by apply suite_keymat.
Qed.

Lemma completeChildKeys_safe ike cc prop suite nr ke :
  child_ctx_ok cc → suite ∈ espSuites →
  yields (child_keys_ok (su_encrKeyLen suite) (su_integKeyLen suite))
    (completeChildKeys ike cc prop suite nr ke).
Proof using HL.
  intros (_ & _ & _ & Hdh) Hs. destruct (suite_lens LayerESP suite Hs) as (? & ? & _).
  assert (Hk : ∀ sh, yields (child_keys_ok (su_encrKeyLen suite) (su_integKeyLen suite)) (wrap_err ErrIke
             (deriveChildKeys ike sh (cr_ni cc) nr (su_encrKeyLen suite) (su_integKeyLen suite)))).
  { intros sh. apply wrap_err_yields, deriveChildKeys_safe; lia. }
  unfold completeChildKeys. destruct (cr_dh cc) as [d|], ke as [[g data]|]; try done.
  - destruct (negb _); [done|].
    eapply yields_bind; [apply wrap_err_yields, shared_safe; by apply Hdh|]. intros sh _. apply Hk.
  - destruct (_ && _); [done|]. apply Hk.
  - destruct (_ && _); [done|]. apply Hk.
Qed.

Lemma hoare_completeChildRekey k s0 inner p :
  Forall payload_ok inner → pending_ok p → px_kind p = exChildRekey →
  hoare (inv k s0) (completeChildRekey inner p) (λ _, True).
Proof using HL HW.
  intros Hin Hp Hkind. unfold pending_ok in Hp. rewrite Hkind in Hp. destruct Hp as (cc & Hcc & Hok).
  unfold completeChildRekey. hoare_step.
  eapply hoare_bind; [by apply hoare_lift, childRekeyResponse_ok|].
  intros [[[prop suite] nr] ke] (Hprop & Hs & Hl & Hnr & Hke).
  eapply hoare_bind; [apply hoare_lift, Uint32_yields; [apply Hprop|lia]|]. intros respSPI Hresp.
  rewrite Hcc. eapply hoare_bind with (Q := λ x, x = cc); [by apply hoare_lift|]. intros ? ->.
  apply hoare_assoc. hoare_step.
  eapply hoare_bind; [by apply hoare_lift, completeChildKeys_safe|]. intros keys Hkeys.
  eapply hoare_bind; [apply hoare_InstallChildSA; destruct Hok; by apply update_ok_keys|]. intros _ _.
  hoare_go.
Qed.

Lemma hoare_completeIKERekey s0 inner p :
  Forall payload_ok inner → pending_ok p → px_kind p = exIKERekey →
  hoare (inv true s0) (completeIKERekey inner p) (λ _, True).
Proof using HL HW.
  intros Hin Hp Hkind. unfold pending_ok in Hp. rewrite Hkind in Hp. destruct Hp as (ic & Hic & Hok).
  destruct Hok as (Hspi & _ & _ & Hdh). unfold completeIKERekey. hoare_step.
  eapply hoare_bind; [by apply hoare_lift, ikeRekeyPayloads_ok|].
  intros [[saP nr] [g data]] (Hsa & Hnr & Hg & Hdata).
  destruct saP as [|prop ps]; [apply hoare_throw|]. inversion_clear Hsa as [|? ? Hprop _].
  destruct (selectedSuite _ _) as [suite|]; [|apply hoare_throw].
  destruct (negb _) eqn:Hl; [apply hoare_throw|]. bool_prop.
  eapply hoare_bind; [apply hoare_lift, Uint64_yields; [apply Hprop|lia]|]. intros newSPIr _.
  rewrite Hic. eapply hoare_bind with (Q := λ x, x = ic); [by apply hoare_lift|]. intros ? ->.
  destruct (negb _); [apply hoare_throw|].
  eapply hoare_bind; [by apply hoare_lift, wrap_err_yields, shared_safe|]. intros sh _.
  apply hoare_assoc. hoare_step.
  eapply hoare_bind; [apply hoare_lift, wrap_err_yields, DeriveRekeyIKE_ok|].
  intros new (Hnew & _ & _ & Hi & Hr). apply hoare_alloc_bind; [done|].
  intros s1 np Hs1 Hnp Hne.
  eapply run_until_swap; [eauto with hoare|apply inv_refl, Hs1|]. intros. by eapply swapIKE_inv.
Qed.
End complete.

(** ** Answering the peer's rekeys *)

Lemma selectProposal_ok l ps configured g p s :
  Forall proposal_ok ps → selectProposal ps (enabledSuites configured (table_of l)) g = Some (p, s) →
  proposal_ok p ∧ s ∈ table_of l ∧ len (pr_SPI p) = match l with LayerESP => 4 | LayerIKE => 8 end.
Proof.
  intros Hps Hsel. pose proof (selectProposal_spec ps (enabledSuites configured (table_of l)) g) as H.
  rewrite Hsel in H. destruct H as (Hp & Hacc & before & after & Hen & _).
  assert (Hs : s ∈ table_of l).
  { apply (enabledSuites_sub configured). rewrite Hen. apply elem_of_app. right. apply list_elem_of_here. }
  split_and!; [|done|].
  - rewrite Forall_forall in Hps. apply Hps. by apply list_elem_of_In.
  - unfold proposal_acceptable in Hacc. destruct (suiteMatches s p); [|done]. cbn [negb orb] in Hacc.
    destruct (suite_lens l s Hs) as (_ & _ & Hsp). destruct (len (pr_SPI p) =? spiLen s) eqn:Hl; [|done].
    bool_prop. congruence.
Qed.

Section answer.
Context {P : Primitives} {HL : PrimitiveLaws P} {W : World} {HW : WorldLaws W}.

Lemma hoare_recordPeerResponse k s0 viaOld id raw :
  hoare (inv k s0) (recordPeerResponse viaOld id raw) (λ _, True).
Proof. apply hoare_modify. destruct viaOld; inv_frame. Qed.
#[local] Hint Resolve hoare_recordPeerResponse : hoare.

Lemma hoare_sendNotifyResponse k s0 dec id viaOld pr ty data :
  ctx_ok (sas s0) dec → hoare (inv k s0) (sendNotifyResponse dec id viaOld pr ty data) (λ _, True).
Proof using HL HW.
  intros Hdec. unfold sendNotifyResponse. hoare_step. hoare_step. destruct a0 as [e|raw]; hoare_go.
Qed.
#[local] Hint Resolve hoare_sendNotifyResponse : hoare.

Lemma hoare_sendTemporaryFailure k s0 dec id viaOld :
  ctx_ok (sas s0) dec → hoare (inv k s0) (sendTemporaryFailure dec id viaOld) (λ _, True).
Proof using HL HW. intros. unfold sendTemporaryFailure. hoare_go. Qed.
Lemma hoare_sendInvalidKEPayload k s0 dec id viaOld :
  ctx_ok (sas s0) dec → hoare (inv k s0) (sendInvalidKEPayload dec id viaOld) (λ _, True).
Proof using HL HW. intros. unfold sendInvalidKEPayload. hoare_go. Qed.
Lemma hoare_answerNoProposal k s0 dec id viaOld pr :
  ctx_ok (sas s0) dec → hoare (inv k s0) (answerNoProposal dec id viaOld pr) (λ _, True).
Proof using HL HW. intros. unfold answerNoProposal. hoare_go. Qed.
#[local] Hint Resolve hoare_sendTemporaryFailure hoare_sendInvalidKEPayload hoare_answerNoProposal : hoare.

Lemma hoare_orTemporaryFailure {A} k s0 dec id viaOld (c : SM A) Q :
  ctx_ok (sas s0) dec → hoare (inv k s0) c Q →
  hoare (inv k s0) (orTemporaryFailure dec id viaOld c) Q.
Proof using HL HW.
  intros Hdec Hc. unfold orTemporaryFailure. eapply hoare_bind; [by apply hoare_attempt|].
  intros [e|a] Ha; [hoare_go|]. by apply hoare_ret.
Qed.

Lemma hoare_answerKE k s0 dec id viaOld group data :
  ctx_ok (sas s0) dec →
  hoare (inv k s0) (answerKE dec id viaOld group data) (λ '(d, _), dh_Group d = group ∧ dh_wf d).
Proof using HL HW.
  intros Hdec. unfold answerKE.
  eapply hoare_bind; [apply hoare_orTemporaryFailure; [done|apply hoare_NewDH]|].
  intros d [Hg Hd]. pose proof (wrap_err_yields ErrIke _ _ (shared_safe d data Hd)) as Hs.
  destruct (wrap_err ErrIke (shared d data)); [by apply hoare_ret|hoare_go|done..].
Qed.

Lemma hoare_answerPFS k s0 dec id viaOld ke :
  ctx_ok (sas s0) dec →
  hoare (inv k s0) (answerPFS dec id viaOld ke) (λ dsh, ∀ d sh, dsh = Some (d, sh) → dh_wf d).
Proof using HL HW.
  intros Hdec. destruct ke as [[g data]|]; [|by apply hoare_ret].
  eapply hoare_bind; [by apply hoare_answerKE|]. intros [d sh] [_ Hd]. apply hoare_ret.
  by intros ? ? [= <- <-].
Qed.

Lemma hoare_answerChildRekey k s0 id dec viaOld prop suite ni ke tsi tsr ch :
  ctx_ok (sas s0) dec → proposal_ok prop → len (pr_SPI prop) = 4 → suite ∈ espSuites →
  hoare (inv k s0) (answerChildRekey id dec viaOld prop suite ni ke tsi tsr ch) (λ _, True).
Proof using HL HW.
  intros Hdec Hprop Hl Hs. destruct (suite_lens LayerESP suite Hs) as (? & ? & _).
  unfold answerChildRekey. hoare_step.
  eapply hoare_bind; [apply hoare_lift, Uint32_yields; [apply Hprop|lia]|]. intros newOut Hout.
  eapply hoare_bind; [by apply hoare_answerPFS|]. intros dsh Hdsh.
  eapply hoare_bind; [apply hoare_orTemporaryFailure; [done|apply hoare_randBytes; lia]|].
  intros newSPI [Hnl Hnb].
  eapply hoare_bind; [apply hoare_orTemporaryFailure; [done|apply hoare_randBytes; unfold nonceLen; lia]|].
  intros nr _. hoare_step. hoare_step. hoare_step.
  eapply hoare_bind.
  { apply hoare_lift, wrap_err_yields. destruct dsh as [[d sh]|]; apply deriveChildKeys_safe; lia. }
  intros keys Hkeys. unfold commitChildAnswer. hoare_step. eapply hoare_bind with (Q := λ _, True).
  { destruct (fst <$> dsh) as [d|]; hoare_go. }
  intros _ _. eapply hoare_bind; [apply hoare_lift, Uint32_yields; [done|lia]|]. intros newIn Hin.
  eapply hoare_bind; [by apply hoare_InstallChildSA, update_ok_keys|]. intros _ _. hoare_go.
Qed.

Lemma hoare_handleChildRekeyRequest k s0 hdr inner dec viaOld :
  ctx_ok (sas s0) dec → Forall payload_ok inner →
  hoare (inv k s0) (handleChildRekeyRequest hdr inner dec viaOld) (λ _, True).
Proof using HL HW.
  intros Hdec Hin. unfold handleChildRekeyRequest. hoare_step.
  destruct (child a) as [ch|]; [|hoare_go].
  pose proof (childRekeyRequestPayloads_ok inner Hin) as Hp.
  destruct (childRekeyRequestPayloads inner) as [[[[[saP ni] ke] tsi] tsr]|e| |]; [|hoare_go|done..].
  destruct Hp as (Hsa & Hni & Hke & _). hoare_step; [hoare_go|].
  destruct (selectProposal _ _ _) as [[prop suite]|] eqn:Hsel.
  - destruct (selectProposal_ok LayerESP _ _ _ _ _ Hsa Hsel) as (? & ? & ?).
    by apply hoare_answerChildRekey.
  - hoare_go.
Qed.

Lemma hoare_answerIKERekey s0 id dec prop suite ni group kei :
  ctx_ok (sas s0) dec → proposal_ok prop → len (pr_SPI prop) = 8 →
  hoare (inv true s0) (answerIKERekey id dec prop suite ni group kei) (λ _, True).
Proof using HL HW.
  intros Hdec Hprop Hl. unfold answerIKERekey.
  eapply hoare_bind; [apply hoare_lift, Uint64_yields; [apply Hprop|lia]|]. intros spii _.
  eapply hoare_bind; [by apply hoare_answerKE|]. intros [d sh] [_ Hd].
  eapply hoare_bind; [apply hoare_orTemporaryFailure; [done|apply hoare_randUint64]|]. intros spir _.
  eapply hoare_bind; [apply hoare_orTemporaryFailure; [done|apply hoare_randBytes; unfold nonceLen; lia]|].
  intros nr _. hoare_step.
  eapply hoare_bind; [apply hoare_orTemporaryFailure;
    [done|apply hoare_lift, wrap_err_yields, DeriveRekeyIKE_ok]|].
  intros new (Hnew & _ & _ & Hi & Hr). apply hoare_alloc_bind; [done|].
  intros s1 np Hs1 Hnp Hne.
  assert (Hdec1 : ctx_ok (sas s1) dec) by (eapply ctx_ok_extend; [apply Hs1|done]).
  eapply run_until_swap; [by apply hoare_roleBit|apply inv_refl, Hs1|]. intros bit s2 _ Hs2.
  eapply run_until_swap; [by apply hoare_orTemporaryFailure, hoare_encodeSKAt|done|]. intros raw s3 _ Hs3.
  eapply run_until_swap; [apply hoare_recordPeerResponse|done|]. intros _ s4 _ Hs4.
  eapply run_after_swap; [by eapply swapIKE_inv|]. intros. hoare_go.
Qed.

Lemma hoare_handleIKERekeyRequest s0 hdr inner dec :
  ctx_ok (sas s0) dec → Forall payload_ok inner →
  hoare (inv true s0) (handleIKERekeyRequest hdr inner dec) (λ _, True).
Proof using HL HW.
  intros Hdec Hin. unfold handleIKERekeyRequest. hoare_step.
  pose proof (ikeRekeyPayloads_ok inner Hin) as Hp.
  destruct (ikeRekeyPayloads inner) as [[[saP ni] [group kei]]|e| |]; [|hoare_go|done..].
  destruct Hp as (Hsa & Hni & Hg & Hke). hoare_step; [hoare_go|].
  destruct (selectProposal _ _ _) as [[prop suite]|] eqn:Hsel; [|hoare_go].
  destruct (selectProposal_ok LayerIKE _ _ _ _ _ Hsa Hsel) as (? & ? & ?).
  by apply hoare_answerIKERekey.
Qed.
End answer.
#[export] Hint Resolve hoare_recordPeerResponse hoare_sendNotifyResponse hoare_sendTemporaryFailure : hoare.

(** ** The driver *)

Section driver.
Context {P : Primitives} {HL : PrimitiveLaws P} {W : World} {HW : WorldLaws W}.

Lemma deleteRefsChild_safe spis ch :
  Forall bytes_ok spis → yields (λ _, True) (deleteRefsChild spis ch).
Proof.
  induction 1 as [|spi spis Hb _ IH]; [done|]. cbn [deleteRefsChild].
  destruct (negb _) eqn:Hl; [done|]. bool_prop.
  eapply yields_bind; [apply Uint32_yields; [done|lia]|]. intros. by destruct (_ || _).
Qed.

Lemma hoare_handleInboundChildDelete k s0 spis :
  Forall bytes_ok spis → hoare (inv k s0) (handleInboundChildDelete spis) (λ _, True).
Proof using HL HW.
  intros Hspis. unfold handleInboundChildDelete. hoare_step. destruct (child a) as [ch|]; [|hoare_go].
  hoare_step; [hoare_go|].
  eapply hoare_bind; [by apply hoare_lift, deleteRefsChild_safe|]. intros refs _.
  hoare_step; [hoare_go|]. destruct (pending a); [hoare_go|]. hoare_step. destruct a0; hoare_go.
Qed.

(** Teardown is only ever asked for by an IKE Delete under the current SA. *)
Lemma hoare_handleDeletes k s0 inner viaOld td :
  Forall payload_ok inner →
  hoare (inv k s0) (handleDeletes inner viaOld td)
    (λ b, b = true → td = true ∨ viaOld = false ∧ ∃ spis, DeletePayload ProtocolIKE spis ∈ inner).
Proof using HL HW.
  intros Hin. revert td. induction Hin as [|p ps Hp Hps IH]; intros td.
  { apply hoare_ret. auto. }
  assert (Hw : ∀ td', (td' = true → td = true ∨ viaOld = false ∧ ∃ spis, DeletePayload ProtocolIKE spis ∈ p :: ps) →
    hoare (inv k s0) (handleDeletes ps viaOld td') (λ b, b = true → td = true ∨ viaOld = false ∧
       ∃ spis, DeletePayload ProtocolIKE spis ∈ p :: ps)).
  { intros td' Htd. eapply hoare_mono; [apply IH|]. intros b Hb Ht. destruct (Hb Ht) as [?|(? & spis & ?)]; [auto|].
    right. split; [done|]. exists spis. by apply list_elem_of_further. }
  destruct p; cbn [handleDeletes]; try (apply Hw; auto).
  destruct (Protocol =? ProtocolIKE) eqn:Hpr; bool_prop.
  - apply Hw. destruct viaOld; cbn; [auto|]. intros _. right. split; [done|].
    subst. exists SPIs. apply list_elem_of_here.
  - destruct (Protocol =? ProtocolESP); [|apply Hw; auto].
    eapply hoare_bind; [apply hoare_handleInboundChildDelete|intros; apply Hw; auto].
    destruct Hp as [_ [_ Hd]]. eapply Forall_impl; [|exact Hd]. by intros ? [? _].
Qed.

Lemma hoare_handleInformationalRequest k s0 hdr inner dec viaOld :
  ctx_ok (sas s0) dec → Forall payload_ok inner →
  hoare (inv k s0) (handleInformationalRequest hdr inner dec viaOld)
    (λ b, b = true → viaOld = false ∧ ∃ spis, DeletePayload ProtocolIKE spis ∈ inner).
Proof using HL HW.
  intros Hdec Hin. unfold handleInformationalRequest.
  eapply hoare_bind; [by apply hoare_handleDeletes|]. intros td Htd. hoare_step. hoare_step.
  eapply hoare_bind with (Q := λ _, True).
  { destruct a0; hoare_go. }
  intros _ _. apply hoare_ret. intros Ht. by destruct (Htd Ht).
Qed.

Lemma hoare_handleCreateChildSA s0 hdr inner dec viaOld :
  ctx_ok (sas s0) dec → Forall payload_ok inner →
  hoare (inv true s0) (handleCreateChildSA hdr inner dec viaOld) (λ _, True).
Proof using HL HW.
  intros Hdec Hin. unfold handleCreateChildSA. hoare_step. hoare_step; [hoare_go|].
  hoare_step; [hoare_go|].
  eapply hoare_bind; [apply hoare_attempt|intros; hoare_go].
  destruct (isIKERekey inner);
    [by apply hoare_handleIKERekeyRequest|by apply hoare_handleChildRekeyRequest].
Qed.

Lemma hoare_completeMatchingRekey s0 id inner viaOld :
  Forall payload_ok inner → hoare (inv true s0) (completeMatchingRekey id inner viaOld) (λ _, True).
Proof using HL HW.
  intros Hin. unfold completeMatchingRekey. hoare_step; [hoare_go|].
  hoare_step. destruct (pending a) as [p|] eqn:Hp; [|hoare_go].
  assert (Hpok : pending_ok p) by (by eapply so_pending; [apply H|]).
  assert (Hclr : inv true s0 (set_pending None a)) by (by apply inv_set_pending).
  hoare_step; [hoare_go|]. destruct (px_kind p) eqn:Hk; [hoare_go| | |hoare_go].
  - eapply hoare_bind; [by apply hoare_put|]. intros _ _.
    eapply hoare_bind; [by apply hoare_attempt, hoare_completeChildRekey|].
    intros [e|[]] _; hoare_go.
  - eapply hoare_bind; [by apply hoare_put|]. intros _ _.
    eapply hoare_bind; [by apply hoare_attempt, hoare_completeIKERekey|]. intros. hoare_go.
Qed.

Lemma hoare_dedupPeerRequest k s0 id viaOld :
  hoare (inv k s0) (dedupPeerRequest id viaOld) (λ _, True).
Proof using HL HW.
  unfold dedupPeerRequest. hoare_step. hoare_step; [|hoare_go].
  eapply hoare_bind with (Q := λ _, True); [|intros; hoare_go].
  destruct (pd_resp _); hoare_go.
Qed.

Lemma hoare_clearPending k s0 id : hoare (inv k s0) (clearPending id) (λ _, True).
Proof.
  unfold clearPending. hoare_step. destruct (pending a); hoare_go.
  apply hoare_put. by apply inv_set_pending.
Qed.

Lemma hoare_clearOldIKEDelete k s0 id : hoare (inv k s0) (clearOldIKEDelete id) (λ _, True).
Proof.
  unfold clearOldIKEDelete. hoare_step. destruct (oldIKEDelete a); hoare_go.
  apply hoare_put. revert H. revert a. inv_frame.
Qed.

(** *** Decoding *)

(** The context [dec] of [s] vouches for the datagram. *)
Definition vouched (s : Session) (raw : bytes) (m : Message) (inner : Payloads) (dec : ikeCtx) : Prop :=
  ∃ ike, sas s !! c_sa dec = Some ike ∧ authentic_message ike raw m ∧
         decodeSKWith ike raw = (true, Ok (m, inner)).

(** Decoding reads the state and the clock only.  What it accepts is authentic
    under the current SA, or, in the grace period, under the superseded one. *)
Lemma decodeIKE_post s raw :
  session_ok s → bytes_ok raw →
  ∃ n, (decodeIKE raw s).1 = set_calls n s ∧
    yields (λ '(m, inner, dec), message_ok m ∧ Forall payload_ok inner ∧ ctx_ok (sas s) dec ∧
              vouched s raw m inner dec ∧ (ikeSA s = Some (c_sa dec) ∨ oldIKE s = Some dec))
      (decodeIKE raw s).2.
Proof using HL.
  intros Hok Hraw. destruct (so_current s Hok) as (p & Hp & Hc).
  assert (Hs : s = set_calls (calls s) s) by (by destruct s).
  destruct Hc as (ike & Hi & Hike & Hci & Hcr). cbn in Hi.
  unfold decodeIKE, curCtx, current, load. st_step. rewrite Hp. cbn [deref]. st_step.
  cbn [c_sa]. rewrite Hi. cbn [deref].
  destruct (decodeSKWith ike raw) as [icv r] eqn:Hd.
  destruct (decodeSKWith_post ike raw icv r Hike Hraw Hd) as [Hy _].
  destruct r as [[m inner]|e| |]; [|clear Hy|done..].
  { exists (calls s). split; [done|]. destruct Hy as (? & ? & ? & ->). cbn.
    split_and!; [done|done|by eexists|by eexists|by left]. }
  st_step. destruct (if negb icv then oldIKE s else None) as [o|] eqn:Ho; [|by exists (calls s)].
  assert (Ho' : oldIKE s = Some o) by (destruct icv; done).
  destruct (so_old s Hok o Ho') as [(oike & Hoi & Hoike & Hocx) _].
  unfold now, tick. st_step. exists (S (calls s)).
  destruct (Before _ _); [|done]. st_step. cbn [sas set_calls]. rewrite Hoi. cbn [deref].
  destruct (decodeSKWith oike raw) as [icv' r] eqn:Hd'.
  destruct (decodeSKWith_post oike raw icv' r Hoike Hraw Hd') as [Hy _].
  destruct r as [[m inner]|e'| |]; [|done..]. destruct Hy as (? & ? & ? & ->).
  split; [done|]. cbn. split_and!; [done|done|by eexists|by eexists|by right].
Qed.

Lemma inv_calls k s0 s n : inv k s0 s → inv k s0 (set_calls n s).
Proof. revert s. inv_frame. Qed.

Lemma hoare_handleMessage s0 m inner dec viaOld :
  ctx_ok (sas s0) dec → Forall payload_ok inner →
  hoare (inv true s0) (handleMessage m inner dec viaOld) (λ td, td = true → viaOld = false ∧
    m_Exchange m = ExchangeInformational ∧ IsResponse (m_Flags m) = false ∧
    ∃ spis, DeletePayload ProtocolIKE spis ∈ inner).
Proof using HL HW.
  intros Hdec Hin. unfold handleMessage. cbv zeta. destruct (m_Exchange m =? ExchangeInformational) eqn:Hx.
  - apply Z.eqb_eq in Hx. destruct (IsResponse (m_Flags m)) eqn:Hr.
    + eapply hoare_bind with (Q := λ _, True); [|intros; by apply hoare_ret].
      destruct viaOld; [apply hoare_clearOldIKEDelete|apply hoare_clearPending].
    + eapply hoare_bind; [apply hoare_dedupPeerRequest|]. intros [] _; [by apply hoare_ret|].
      eapply hoare_mono; [by apply hoare_handleInformationalRequest|]. intros b Hb Hbt.
      destruct (Hb Hbt). auto.
  - destruct (m_Exchange m =? ExchangeCreateChildSA); [|by apply hoare_ret]. destruct (IsResponse _).
    + eapply hoare_bind; [by apply hoare_completeMatchingRekey|]. intros. by apply hoare_ret.
    + eapply hoare_bind; [apply hoare_dedupPeerRequest|]. intros [] _; [by apply hoare_ret|].
      eapply hoare_bind; [by apply hoare_handleCreateChildSA|]. intros. by apply hoare_ret.
Qed.

(** A request that tears the session down: an authentic IKE DELETE under the SA in use. *)
Definition teardown_request (s : Session) (raw : bytes) : Prop :=
  ∃ m inner dec spis, vouched s raw m inner dec ∧ ikeSA s = Some (c_sa dec) ∧
    m_Exchange m = ExchangeInformational ∧ IsResponse (m_Flags m) = false ∧
    DeletePayload ProtocolIKE spis ∈ inner.

Lemma handleInbound_post s raw :
  session_ok s → bytes_ok raw →
  inv true s (handleInbound raw s).1 ∧
  yields (λ td, td = true → teardown_request s raw) (handleInbound raw s).2.
Proof using HL HW.
  intros Hok Hraw. destruct (decodeIKE_post s raw Hok Hraw) as (n & Hs & Hy).
  unfold handleInbound. rewrite st_attempt.
  destruct (decodeIKE raw s) as [s1 r]. cbn [fst snd] in Hs, Hy. subst s1.
  destruct r as [[[m inner] dec]|e| |]; cbn [yields] in Hy;
    [|by split; [apply inv_calls, inv_refl|]|done..].
  destruct Hy as (Hm & Hin & Hdec & Hv & Hwhich).
  unfold now, tick. st_step. cbn [calls set_calls oldIKE set_lastInbound].
  edestruct (hoare_handleMessage s m inner dec) as [H1 H2]; [done..| |split; [exact H1|]].
  { assert (H0 : inv true s s) by (by apply inv_refl). revert H0. generalize s at 2 4. inv_frame. }
  eapply yields_mono; [|exact H2]. intros td Htd Ht.
  destruct (Htd Ht) as (Hold & ? & ? & spis & ?). exists m, inner, dec, spis. split_and!; try done.
  destruct Hwhich as [|Ho]; [done|]. rewrite Ho in Hold. by apply bool_decide_eq_false in Hold.
Qed.

(** *** Housekeeping and shutdown *)

#[local] Hint Resolve hoare_initiateDPD hoare_initiateChildRekey hoare_initiateIKERekey : hoare.

Lemma pending_ok_again p att t : pending_ok p → pending_ok (px_again p att t).
Proof. by destruct p. Qed.
Lemma pending_ok_hurry p t : pending_ok p → pending_ok (px_hurry p t).
Proof. by destruct p. Qed.

Lemma hoare_detectSuspend k s0 t : hoare (inv k s0) (detectSuspend t) (λ _, True).
Proof using HL HW.
  unfold detectSuspend. eapply hoare_bind; [apply hoare_get|]. intros s Hs.
  hoare_step. hoare_step; [hoare_go|]. destruct (pending s) as [p|] eqn:Hp; [|hoare_go].
  eapply hoare_bind; [|intros; hoare_go].
  apply hoare_set_pending, pending_ok_hurry. by eapply so_pending; [apply Hs|].
Qed.

Lemma hoare_expireOldIKE s0 t : hoare (inv true s0) (expireOldIKE t) (λ _, True).
Proof. unfold expireOldIKE. hoare_go. Qed.

Lemma hoare_retransmitOldDelete k s0 t : hoare (inv k s0) (retransmitOldDelete t) (λ _, True).
Proof. unfold retransmitOldDelete. hoare_step. destruct (oldIKEDelete a); hoare_go. Qed.

Lemma hoare_clear_pending k s0 : hoare (inv k s0) (modifyS (set_pending None) : SM unit) (λ _, True).
Proof. apply hoare_modify. intros s Hs. by apply inv_set_pending. Qed.

Lemma hoare_retransmitPending k s0 t p :
  pending_ok p → hoare (inv k s0) (retransmitPending t p) (λ b, b = true → px_kind p = exDPD).
Proof using HL HW.
  intros Hp. unfold retransmitPending. eapply hoare_bind; [apply hoare_get|]. intros s _.
  destruct (After t (px_nextRetransmit p)); [|by apply hoare_ret]. cbv zeta.
  destruct (_ >? _).
  - eapply hoare_bind; [apply hoare_clear_pending|]. intros _ _.
    destruct (bool_decide (px_kind p = exDPD)) eqn:Hk;
      [apply hoare_ret; by apply bool_decide_eq_true in Hk|].
    destruct (match px_child p with Some _ => _ | None => _ end); [|by apply hoare_ret].
    by hoare_go.
  - eapply hoare_bind; [by apply hoare_set_pending, pending_ok_again|]. intros _ _. by hoare_go.
Qed.

Lemma hoare_volumeDue k s0 t : hoare (inv k s0) (volumeDue t) (λ _, True).
Proof. unfold volumeDue. hoare_go. Qed.

Lemma hoare_probeIfIdle k s0 t : hoare (inv k s0) (probeIfIdle t) (λ _, True).
Proof using HL HW.
  unfold probeIfIdle. hoare_step. eapply hoare_bind with (Q := λ _, True); [|intros; hoare_go].
  unfold idleTime. hoare_go.
Qed.
#[local] Hint Resolve hoare_volumeDue hoare_probeIfIdle : hoare.

Lemma hoare_startExchange k s0 t : hoare (inv k s0) (startExchange t) (λ _, True).
Proof using HL HW.
  unfold startExchange. hoare_go.
Qed.

Lemma hoare_housekeeping s0 : hoare (inv true s0) housekeeping (λ _, True).
Proof using HL HW.
  unfold housekeeping. eapply hoare_bind; [apply hoare_now|]. intros t _.
  eapply hoare_bind; [apply hoare_detectSuspend|]. intros _ _.
  eapply hoare_bind; [apply hoare_expireOldIKE|]. intros _ _.
  eapply hoare_bind; [apply hoare_retransmitOldDelete|]. intros _ _.
  eapply hoare_bind; [apply hoare_get|]. intros s Hs.
  destruct (pending s) as [p|] eqn:Hp.
  - eapply hoare_true, hoare_retransmitPending. by eapply so_pending; [apply Hs|].
  - eapply hoare_bind; [apply hoare_startExchange|]. intros. by apply hoare_ret.
Qed.

Lemma hoare_sendGracefulDelete k s0 : hoare (inv k s0) sendGracefulDelete (λ _, True).
Proof using HL HW.
  intros s Hs. destruct (so_current s (proj1 Hs)) as (p & Hp & Hc).
  unfold sendGracefulDelete. rewrite st_get, Hp. cbv zeta. apply hoare_run; [done|].
  eapply hoare_bind; [by apply (hoare_roleBit k s _ Hc)|]. intros fl _.
  eapply hoare_bind; [apply hoare_attempt, hoare_encodeSK|]. intros [e|raw] _; hoare_go.
Qed.

Lemma hoare_Driver_start k s0 : hoare (inv k s0) Driver_start (λ _, True).
Proof using HL HW. unfold Driver_start. hoare_go. Qed.

(** What an event may carry: bytes. *)
Definition event_ok (e : event) : Prop := match e with EvInbound raw => bytes_ok raw | _ => True end.

Lemma Driver_step_post s e :
  session_ok s → event_ok e →
  inv true s (Driver_step e s).1 ∧ yields (λ _, True) (Driver_step e s).2.
Proof using HL HW.
  intros Hs He. destruct e as [raw| |]; cbn [Driver_step].
  - destruct (handleInbound_post s raw Hs He) as [? Hy]. split; [done|].
    eapply yields_mono; [|exact Hy]. done.
  - apply hoare_housekeeping. by apply inv_refl.
  - apply (hoare_bind _ _ _ (λ _, True) (λ _, True) (hoare_sendGracefulDelete true s)); [|by apply inv_refl].
    intros. by apply hoare_ret.
Qed.

Lemma hoare_Driver_loop s0 es :
  Forall event_ok es → hoare (inv true s0) (Driver_loop es) (λ _, True).
Proof using HL HW.
  intros Hes. induction Hes as [|e es He _ IH]; cbn [Driver_loop]; [by apply hoare_ret|].
  eapply hoare_bind with (Q := λ _, True).
  - intros s Hs. destruct (Driver_step_post s e (proj1 Hs) He). split; [by eapply inv_trans|done].
  - intros [] _; [by apply hoare_ret|done].
Qed.
End driver.
