(* ===== verification/Demo.v ===== *)
(** * A concrete session

    An environment and an established session the witnesses of the session
    theorems run on: a clock that advances one second per call, a random source
    that repeats the number of the call, a socket that takes every datagram, and
    one IKE SA derived with the toy primitives of Crypto.v, seen from either end. *)

From S2P Require Import Prelude IkePayload IkeMsg Crypto IkeSA Suite Natt Protected Session.
From S2P Require Import Rekey Driver Invariant.

#[export] Instance toy_world : World := {|
  w_clock n := {| t_wall := 10 ^ 18 + Z.of_nat n * Second; t_mono := Some (Z.of_nat n * Second) |};
  w_rand n k := Some (replicate (Z.to_nat k) (u8 (Z.of_nat n)));
  w_dh n g := RandKey (replicate 32 (u8 (Z.of_nat n)));
  w_send n := true;
  w_scale l k := l;
  w_LastDataInbound n := zeroTime;
  w_ChildSAVolume n := 0;
|}.

#[export] Instance toy_world_laws : WorldLaws toy_world.
Proof.
  constructor.
  - intros n k b [= <-]. split.
    + unfold len. rewrite length_replicate. lia.
    + apply Forall_replicate, byte_ok_u8.
  - done.
  - intros n. apply Z.eqb_neq. cbn [w_clock toy_world t_wall]. change Second with 1000000000.
    change (10 ^ 18) with 1000000000000000000. lia.
Qed.

Definition demo_cfg : Config := {|
  LocalID := {| id_Type := 1; id_Data := [] |}; RemoteID := {| id_Type := 1; id_Data := [] |};
  EAPUser := []; EAPPass := []; PSK := []; DPDTimeout := 0; RekeyLifetime := 0;
  IKERekeyLifetime := 0; RekeyMaxPackets := 0; ChildSAPFS := false; ESPSuites := []; IKESuites := [];
  RequestIPv6 := false; RetransmitBase := 0; RetransmitMax := 0; RetransmitTries := 0 |}.

Definition no_sa : IKESA := {|
  ike_Suite := 0; ike_Role := Initiator; ike_InitiatorSPI := 0; ike_ResponderSPI := 0; SKd := [];
  SKai := []; SKar := []; SKei := []; SKer := []; SKpi := []; SKpr := []; ike_outAEAD := None;
  ike_inAEAD := None; ike_outSalt := []; ike_inSalt := []; skSeq := 0 |}.

(** The IKE SA with SPIs [i] and [r], as the given end holds it. *)
Definition demo_sa (role : Role) (i r : Z) : IKESA :=
  match deriveFromSKEYSEED (P:=toy_primitives) SuiteAESGCM256 role i r [5] [6] [7] with
  | Ok s => s
  | _ => no_sa
  end.

Lemma demo_sa_ok role i r :
  ike_ok (demo_sa role i r) ∧ ike_InitiatorSPI (demo_sa role i r) = i ∧
  ike_ResponderSPI (demo_sa role i r) = r.
Proof.
  unfold demo_sa.
  destruct (deriveFromSKEYSEED_ok (HL:=toy_laws) SuiteAESGCM256 role i r [5] [6] [7]) as (s & Hs & Hok).
  rewrite Hs. split; [done|]. by eapply (deriveFromSKEYSEED_fields (P:=toy_primitives)) in Hs as (_ & _ & ? & ?).
Qed.

Definition noKeys : ChildKeys := {| EncrIR := []; IntegIR := []; EncrRI := []; IntegRI := [] |}.
Definition demo_child : ChildSA :=
  {| ch_InitiatorSPI := 17; ch_ResponderSPI := 18; ch_Suite := 0; ch_Keys := noKeys |}.

(** An established session of the given role, nothing outstanding. *)
Definition demo_session (role : Role) : Session := {|
  cfg := demo_cfg; sas := [demo_sa role 1 2]; calls := 0; sent := []; installed := [];
  initiatorSPI := 1; responderSPI := 2; ikeSA := Some 0%nat; dh := None; nonceI := []; nonceR := [];
  peerDHPub := []; initSAInitReq := []; initSAInitRsp := []; messageID := 2; childInitiatorSPI := 17;
  remoteIDr := {| id_Type := 1; id_Data := [] |}; child := Some demo_child; assigned := noAssigned;
  established := true; nattMode := true; natDetected := true; dataPlane := true; pending := None;
  lastInbound := zeroTime; lastTickWall := zeroTime; fastDPDDue := false;
  childInstalledAt := zeroTime; ikeInstalledAt := zeroTime; nextChildRekey := zeroTime;
  nextIKERekey := zeroTime; nextVolumeRekey := zeroTime; oldIKE := None; oldIKEUntil := zeroTime;
  childReestablish := false; nextChildReestablish := zeroTime; childPFS := false;
  ikeDHGroup := DH_X25519; childPFSGroup := 0; peer := noPeer; oldPeer := noPeer;
  oldIKEDelete := None |}.

(** What has been answered to the peer is not part of the invariant. *)
Definition demo_answered (d : peerDedup) : Session := set_peer d (demo_session Initiator).

Lemma demo_ok role : session_ok (demo_session role).
Proof.
  destruct (demo_sa_ok role 1 2) as (Hok & Hi & Hr). constructor; try done.
  - by constructor.
  - exists 0%nat. split; [done|]. by exists (demo_sa role 1 2).
Qed.

Lemma demo_answered_ok d : session_ok (demo_answered d).
Proof. destruct (demo_ok Initiator). by constructor. Qed.

(** A request of the peer, as it arrives at [demo_session Initiator]. *)
Definition demo_request (exch id : Z) (inner : Payloads) : bytes :=
  match (encodeSK (P:=toy_primitives) exch 0 id inner (demo_session Responder)).2 with
  | Ok raw => raw
  | _ => []
  end.

Definition demo_bytes_okb (raw : bytes) : bool := forallb (λ b, (0 <=? b) && (b <? 256)) raw.
Lemma demo_bytes_ok raw : demo_bytes_okb raw = true → bytes_ok raw.
Proof.
  unfold demo_bytes_okb. intros H. apply Forall_forall. intros b Hb. rewrite forallb_forall in H.
  specialize (H b Hb). cbn in H. unfold byte_ok. lia.
Qed.

(** A key pair of the toy key exchange, and the peer's request header. *)
Definition demo_dh : DH :=
  match newDH (P:=toy_primitives) DH_X25519 (RandKey (replicate 32 7)) with
  | Ok d => d
  | _ => {| dh_Group := 0; dh_Public := []; dh_priv := PrivModp 0 |}
  end.
Definition demo_dec : ikeCtx := {| c_sa := 0; c_spii := 1; c_spir := 2 |}.
Definition demo_hdr : Message :=
  {| m_InitiatorSPI := 1; m_ResponderSPI := 2; m_Exchange := ExchangeCreateChildSA;
     m_Flags := FlagInitiator; m_MessageID := 2; m_Payloads := [] |}.

Lemma demo_dec_ok role : ctx_ok (sas (demo_session role)) demo_dec.
Proof. destruct (demo_sa_ok role 1 2) as (? & ? & ?). by exists (demo_sa role 1 2). Qed.

Lemma demo_SKd cur ikeI ikeR :
  ikeSA (demo_session Initiator) = Some cur → sas (demo_session Initiator) !! cur = Some ikeI →
  sas (demo_session Responder) !! c_sa demo_dec = Some ikeR → SKd ikeI = SKd ikeR.
Proof. intros [= <-] [= <-] [= <-]. vm_compute. reflexivity. Qed.
