(* ===== verification/DriverProps.v ===== *)
(** * What the control loop guarantees

    Theorems about internal/session/informational.go on top of the session
    invariant: the loop survives any sequence of events, forged datagrams change
    nothing, only the peer's authentic DELETE tears the session down, and requests are
    executed at most once. *)

From S2P Require Import Prelude IkePayload IkeMsg Crypto IkeSA Suite Natt Protected Session.
From S2P Require Import Rekey Driver Invariant Demo.

(** ** Errors stay inside *)

(** [m] never returns an error: what can fail in it is attempted. *)
Definition noErr {S E A} (m : ST S E A) : Prop := ∀ s e, (m s).2 ≠ Err e.

Create HintDb noerr discriminated.

Lemma noErr_bind {S E A B} (m : ST S E A) (f : A → ST S E B) :
  noErr m → (∀ a, noErr (f a)) → noErr (m ≫= f).
Proof.
  intros Hm Hf s e. unfold mbind, ST_bind. specialize (Hm s).
  destruct (m s) as [s' [a|e'| |]]; cbn; [apply Hf|by destruct (Hm e')|done..].
Qed.
Lemma noErr_ret {S E A} (a : A) : noErr (mret a : ST S E A).
Proof. done. Qed.
Lemma noErr_get {S E} : noErr (getS : ST S E S).
Proof. done. Qed.
Lemma noErr_put {S E} (s : S) : noErr (putS s : ST S E unit).
Proof. done. Qed.
Lemma noErr_modify {S E} (f : S → S) : noErr (modifyS f : ST S E unit).
Proof. done. Qed.
Lemma noErr_attempt {S E F A} (m : ST S E A) : noErr (attempt m : ST S F (E + A)).
Proof. intros s e. unfold attempt. by destruct (m s) as [s' []]. Qed.
Lemma noErr_lift {S E A} (r : Res E A) : (∀ e, r ≠ Err e) → noErr (lift r : ST S E A).
Proof. intros Hr s e. apply Hr. Qed.
Lemma deref_noErr {E A} (o : option A) (e : E) : deref o ≠ Err e.
Proof. by destruct o. Qed.
Lemma be_read_noErr {E} n b (e : E) : be_read n b ≠ Err e.
Proof. unfold be_read. by repeat case_match. Qed.
Lemma index_noErr {E A} (b : list A) i (e : E) : index b i ≠ Err e.
Proof. unfold index. by repeat case_match. Qed.
#[export] Hint Resolve noErr_ret noErr_get noErr_put noErr_modify noErr_attempt noErr_lift
  deref_noErr be_read_noErr index_noErr : noerr.

Ltac noerr :=
  repeat first
    [ solve [eauto with noerr]
    | lazymatch goal with
      | |- noErr (_ ≫= _) => apply noErr_bind
      | |- noErr _ => first [ progress cbv zeta | case_match ]
      | |- ∀ _, _ => intro
      end ].

Section noerr.
Context {P : Primitives} {W : World}.

Lemma noErr_tick : noErr tick.
Proof. by intros s e. Qed.
Lemma noErr_roleBit p : noErr (roleBit p).
Proof. unfold roleBit, load. noerr. Qed.
Lemma noErr_jitteredDeadline b l : noErr (jitteredDeadline b l).
Proof. unfold jitteredDeadline, randFraction. noerr. Qed.
#[local] Hint Resolve noErr_tick noErr_roleBit noErr_jitteredDeadline : noerr.
Lemma noErr_now : noErr now.
Proof. unfold now. noerr. Qed.
Lemma noErr_sendNotifyResponse dec id v p t d : noErr (sendNotifyResponse dec id v p t d).
Proof. unfold sendNotifyResponse, recordPeerResponse. noerr. Qed.
#[local] Hint Resolve noErr_now noErr_sendNotifyResponse : noerr.

Lemma deleteRefsChild_noErr spis ch e : deleteRefsChild spis ch ≠ Err e.
Proof.
  induction spis as [|raw rest IH]; [done|]. cbn [deleteRefsChild]. case_match; [done|].
  destruct (Uint32 raw : Res sess_error Z) as [v|e'| |] eqn:Hr; go_step; [by case_if| |done..].
  by destruct (be_read_noErr 4 raw e').
Qed.
#[local] Hint Resolve deleteRefsChild_noErr : noerr.

Lemma noErr_handleInboundChildDelete spis : noErr (handleInboundChildDelete spis).
Proof. unfold handleInboundChildDelete. noerr. Qed.
#[local] Hint Resolve noErr_handleInboundChildDelete : noerr.
Lemma noErr_handleDeletes inner v td : noErr (handleDeletes inner v td).
Proof. revert td. induction inner as [|p inner IH]; intros td; cbn [handleDeletes]; noerr. Qed.
#[local] Hint Resolve noErr_handleDeletes : noerr.

Lemma noErr_handleInbound raw : noErr (handleInbound raw).
Proof.
  unfold handleInbound, handleMessage, clearOldIKEDelete, clearPending, dedupPeerRequest,
    handleInformationalRequest, recordPeerResponse, completeMatchingRekey, handleCreateChildSA,
    sendTemporaryFailure. noerr.
Qed.

Lemma noErr_housekeeping : noErr housekeeping.
Proof.
  unfold housekeeping, detectSuspend, expireOldIKE, retransmitOldDelete, retransmitPending,
    startExchange, volumeDue, probeIfIdle, idleTime, LastDataInbound, ChildSAVolume. noerr.
Qed.

Lemma noErr_Driver es : noErr (Driver es).
Proof.
  unfold Driver. apply noErr_bind; [unfold Driver_start; noerr|intros _].
  induction es as [|e es IH]; cbn [Driver_loop]; [noerr|].
  apply noErr_bind; [|intros []; noerr].
  destruct e; cbn [Driver_step]; [apply noErr_handleInbound|apply noErr_housekeeping|].
  unfold sendGracefulDelete, nextMessageID. noerr.
Qed.
End noerr.

(** ** The loop survives, and trusts only what is authentic *)

(** [p] is an SA that may vouch for a datagram: the one in use, or the one it replaced. *)
Definition trusted (s : Session) (p : nat) : Prop :=
  ikeSA s = Some p ∨ ∃ o, oldIKE s = Some o ∧ c_sa o = p.

Section safety.
Context {P : Primitives} {HL : PrimitiveLaws P} {W : World} {HW : WorldLaws W}.

Lemma Driver_runs s es :
  session_ok s → Forall event_ok es →
  ∃ s' b, Driver es s = (s', Ok b) ∧ session_ok s' ∧ evolves true s s'.
Proof using HL HW.
  intros Hs Hes. destruct (hoare_bind _ _ _ _ _ (hoare_Driver_start true s)
    (λ _ _, hoare_Driver_loop s es Hes) s (inv_refl _ _ Hs)) as [[H1 H2] H3].
  pose proof (noErr_Driver es s) as Hn. unfold Driver in *.
  destruct ((Driver_start ≫= λ _, Driver_loop es) s) as [s' [b|e| |]]; cbn in *; [by eauto|by destruct (Hn e)|done..].
Qed.

(** C10. Whatever datagrams, ticks and cancellation arrive, in whatever order, the
    driver never panics and never diverges; between events the current SA exists
    with well-formed keys that match the SPIs on the wire, the superseded SA stays
    distinct from it, a pending exchange carries the context its completion
    dereferences, no key of an existing SA changes, and what was sent and installed
    is only ever added to. *)
Theorem Driver_safe s es :
  session_ok s → Forall event_ok es →
  ∃ s' b, Driver es s = (s', Ok b) ∧ session_ok s' ∧ evolves true s s'.
Proof using HL HW. apply Driver_runs. Qed.

(** C17. A datagram that no SA of the session vouches for is ignored: apart from the
    reads of the clock the whole state is the same, so that it neither refreshes the
    liveness timer nor causes a reply, an installation or a teardown. *)
Theorem forged_datagram_ignored s raw :
  session_ok s → bytes_ok raw →
  (∀ p ike m, trusted s p → sas s !! p = Some ike → ¬ authentic_message ike raw m) →
  ∃ n, handleInbound raw s = (set_calls n s, Ok false).
Proof using HL.
  intros Hs Hraw Hf. destruct (decodeIKE_post s raw Hs Hraw) as (n & Hn & Hy). exists n.
  unfold handleInbound. rewrite st_attempt. destruct (decodeIKE raw s) as [s1 r].
  cbn [fst snd] in *. subst s1. destruct r as [[[m inner] dec]|e| |]; [|done..].
  destruct Hy as (_ & _ & _ & (ike & Hi & Ha & _) & Hw).
  destruct (Hf (c_sa dec) ike m); [|done..]. destruct Hw; [by left|right; by exists dec].
Qed.

(** C18. An inbound datagram ends the session only if it is an INFORMATIONAL request,
    authentic under the SA in use (not the superseded one), whose decrypted payloads
    contain a Delete for the IKE SA. *)
Theorem teardown_only_on_delete s raw s' :
  session_ok s → bytes_ok raw → handleInbound raw s = (s', Ok true) → teardown_request s raw.
Proof using HL HW.
  intros Hs Hraw Hr. destruct (handleInbound_post s raw Hs Hraw) as [_ Hy].
  rewrite Hr in Hy. by apply Hy.
Qed.

(** What answering a duplicate does to the state. *)
Lemma dedup_resends s (id : Z) (viaOld : bool) :
  let dd := if viaOld then oldPeer s else peer s in
  pd_set dd = true → id ≤ pd_msgID dd →
  ∃ k out, dedupPeerRequest id viaOld s = (set_sent (sent s ++ out) (set_calls k s), Ok true) ∧
    (out = [] ∨ ∃ resp, pd_resp dd = Some resp ∧ id = pd_msgID dd ∧
                        out = [frameDatagram (nattMode s) resp]).
Proof.
  intros dd Hset Hle. unfold dedupPeerRequest. rewrite st_get. fold dd. rewrite Hset.
  rewrite (proj2 (Z.leb_le _ _) Hle). cbn [andb].
  assert (Hid : s = set_sent (sent s ++ []) (set_calls (calls s) s)).
  { rewrite app_nil_r. by destruct s. }
  destruct (pd_resp dd) as [resp|]; [|by exists (calls s), []; rewrite <- Hid; auto].
  destruct (id =? pd_msgID dd) eqn:Heq; [|by exists (calls s), []; rewrite <- Hid; auto].
  rewrite st_assoc, st_attempt. unfold sendDatagram, tick. st_step.
  apply Z.eqb_eq in Heq. destruct (w_send (calls s)); cbn.
  - exists (S (calls s)), [frameDatagram (nattMode s) resp]. eauto 6.
  - exists (S (calls s)), []. rewrite app_nil_r. auto.
Qed.

(** C22. A request of the peer whose message ID has been answered is not executed
    again, whichever SA it came under: the cached response is sent once more when
    the ID is the last one answered, an older ID is dropped, and nothing else of
    the session changes but the liveness timer. *)
Theorem request_answered_once s raw s1 m inner dec :
  session_ok s → bytes_ok raw → decodeIKE raw s = (s1, Ok (m, inner, dec)) →
  IsResponse (m_Flags m) = false →
  let viaOld := match oldIKE s with Some o => bool_decide (c_sa dec = c_sa o) | None => false end in
  let dd := if viaOld then oldPeer s else peer s in
  pd_set dd = true → m_MessageID m ≤ pd_msgID dd →
  ∃ n out, handleInbound raw s =
      (set_sent (sent s ++ out) (set_lastInbound (w_clock (calls s1)) (set_calls n s)), Ok false) ∧
    (out = [] ∨ ∃ resp, pd_resp dd = Some resp ∧ m_MessageID m = pd_msgID dd ∧
                        out = [frameDatagram (nattMode s) resp]).
Proof using HL.
  intros Hs Hraw Hd Hreq viaOld dd Hset Hle.
  destruct (decodeIKE_post s raw Hs Hraw) as (n & Hn & _). rewrite Hd in Hn. cbn in Hn. subst s1.
  unfold handleInbound. rewrite st_attempt, Hd. unfold now, tick. st_step.
  cbn [calls oldIKE set_calls set_lastInbound]. fold viaOld.
  set (s2 := set_lastInbound _ _).
  destruct (dedup_resends s2 (m_MessageID m) viaOld) as (k & out & Hr & Hout); [done..|].
  unfold handleMessage. cbv zeta. rewrite Hreq.
  destruct (m_Exchange m =? ExchangeInformational);
    [|destruct (m_Exchange m =? ExchangeCreateChildSA)].
  1-2: exists k, out; split; [|done]; unfold mbind, ST_bind; by rewrite Hr.
  exists (S n), []. split; [|by left]. rewrite app_nil_r. by destruct s.
Qed.
End safety.

(** ** Witnesses *)

Lemma Driver_safe_witness :
  session_ok (demo_session Initiator) ∧
  ∃ s' b, Driver (P:=toy_primitives) [EvTick; EvInbound [1; 2]; EvTick; EvCancel]
            (demo_session Initiator) = (s', Ok b) ∧ session_ok s' ∧ evolves true (demo_session Initiator) s'.
Proof.
  split; [apply demo_ok|]. apply (Driver_safe (HL:=toy_laws)); [apply demo_ok|].
  repeat (apply List.Forall_cons; [first [exact I|by apply demo_bytes_ok]|]). apply List.Forall_nil.
Defined.

Lemma forged_datagram_ignored_witness :
  ∃ n, handleInbound (P:=toy_primitives) (replicate 40 0) (demo_session Initiator) =
       (set_calls n (demo_session Initiator), Ok false).
Proof.
  apply (forged_datagram_ignored (HL:=toy_laws)); [apply demo_ok|by apply demo_bytes_ok|].
  intros p ike m _ _ [Hp _]. vm_compute in Hp. done.
Defined.

Lemma teardown_only_on_delete_witness :
  teardown_request (P:=toy_primitives) (demo_session Initiator)
    (demo_request ExchangeInformational 0 [DeletePayload ProtocolIKE []]).
Proof.
  eapply (teardown_only_on_delete (HL:=toy_laws)); [apply demo_ok|by apply demo_bytes_ok|].
  vm_compute. reflexivity.
Defined.

Lemma request_answered_once_witness :
  let s := demo_answered {| pd_msgID := 5; pd_set := true; pd_resp := Some [9] |} in
  ∃ n out t, handleInbound (P:=toy_primitives)
      (demo_request ExchangeInformational 5 [DeletePayload ProtocolIKE []]) s =
    (set_sent out (set_lastInbound t (set_calls n s)), Ok false) ∧
    (out = [] ∨ out = [[0; 0; 0; 0; 9]]).
Proof.
  edestruct (request_answered_once (HL:=toy_laws)
      (demo_answered {| pd_msgID := 5; pd_set := true; pd_resp := Some [9] |})
      (demo_request ExchangeInformational 5 [DeletePayload ProtocolIKE []]))
    as (n & out & Hr & Hout).
  - apply demo_answered_ok.
  - by apply demo_bytes_ok.
  - vm_compute. reflexivity.
  - done.
  - done.
  - done.
  - exists n, out. eexists. split; [exact Hr|]. destruct Hout as [->|(resp & [= <-] & _ & ->)]; auto.
Defined.
