(* ===== verification/Window.v ===== *)
(** * The request window

    IKEv2 with a window of one (RFC 7296, section 2.3): the client numbers its
    requests consecutively and has at most one of them outstanding.  A [move] is what
    may happen to the counter and to the outstanding request; every event of the
    driver is shown to be a sequence of moves, and the occasions on which a move may
    end the outstanding request or restart the counter are read off the event. *)

From stdpp Require Import relations.
From S2P Require Import Prelude IkePayload IkeMsg Crypto IkeSA Suite Natt Protected Session.
From S2P Require Import Rekey Driver Stable Invariant Demo DriverProps.

(** The outstanding request is the last one that was numbered. *)
Definition window (s : Session) : Prop :=
  ∀ p, pending s = Some p → messageID s = u32 (px_msgID p + 1).

(** What a move is about: the counter and the outstanding request, with the
    configuration that limits the retransmissions. *)
Definition num (s : Session) : Config * Z * option pendingExchange := (cfg s, messageID s, pending s).

#[export] Instance num_observes : Observes num.
Proof. by constructor. Qed.
#[export] Instance cfg_observes : Observes cfg.
Proof. by constructor. Qed.
#[export] Instance count_observes : Observes (λ s, (cfg s, messageID s)).
Proof. by constructor. Qed.

(** The same request on another schedule, sent once more at most. *)
Definition resched (p p' : pendingExchange) : Prop :=
  px_kind p' = px_kind p ∧ px_msgID p' = px_msgID p ∧ px_raw p' = px_raw p ∧
  px_child p' = px_child p ∧ px_ike p' = px_ike p ∧ px_attempts p ≤ px_attempts p' ≤ px_attempts p + 1.

Definition is_rekey (k : exchangeKind) : bool := bool_decide (k = exChildRekey) || bool_decide (k = exIKERekey).

(** One move.  [E] says which outstanding request may end, [X] whether the counter may
    restart.  A request takes the next number, and only while none is outstanding. *)
Inductive move (E : Config → pendingExchange → Prop) (X : Prop) :
    Config * Z * option pendingExchange → Config * Z * option pendingExchange → Prop :=
  | MoveIssue c i p : px_msgID p = i → px_attempts p = 1 → move E X (c, i, None) (c, u32 (i + 1), Some p)
  | MoveAgain c i p p' : resched p p' → move E X (c, i, Some p) (c, i, Some p')
  | MoveEnd c i p : E c p → move E X (c, i, Some p) (c, i, None)
  | MoveRestart c i o : X → (∀ p, o = Some p → is_rekey (px_kind p) = false) →
      move E X (c, i, o) (c, 0, None).

(** [m] neither numbers a request nor touches the outstanding one. *)
Abbreviation steady := (stable num).

Section moves.
Context (E : Config → pendingExchange → Prop) (X : Prop).

(** [m], started with an outstanding request that [I] admits, only makes moves. *)
Definition paces {A} (I : option pendingExchange → Prop) (m : SM A) : Prop :=
  ∀ s, I (pending s) → safe (m s).2 → rtc (move E X) (num s) (num (m s).1).

Lemma window_move n n' : move E X n n' → (∀ p, n.2 = Some p → n.1.2 = u32 (px_msgID p + 1)) →
  ∀ p, n'.2 = Some p → n'.1.2 = u32 (px_msgID p + 1).
Proof. intros [c i q Hi _|c i q q' (_ & Hq & _)|c i q _|c i q _ _] Hw p [= <-]; cbn in *; [by rewrite Hi|rewrite Hq; auto]. Qed.
Lemma window_moves s s' : rtc (move E X) (num s) (num s') → window s → window s'.
Proof.
  intros Hr. change ((λ n : Config * Z * option pendingExchange, ∀ p, n.2 = Some p → n.1.2 = u32 (px_msgID p + 1)) (num s) →
    (λ n : Config * Z * option pendingExchange, ∀ p, n.2 = Some p → n.1.2 = u32 (px_msgID p + 1)) (num s')).
  induction Hr as [|x y z Hm _ IH]; [done|]. intros Hw. apply IH, (window_move x y Hm Hw).
Qed.

Lemma steady_paces {A} I (m : SM A) : steady m → paces I m.
Proof. intros Hm s _ Hs. by rewrite (Hm s Hs). Qed.
Lemma paces_weaken {A} (I J : option pendingExchange → Prop) (m : SM A) :
  (∀ o, J o → I o) → paces I m → paces J m.
Proof. intros HI Hm s Hs. apply Hm. auto. Qed.

(** Whatever follows a routine that moves must pace itself from any state; what
    follows a steady one starts where the steady one started. *)
Lemma paces_bind {A B} I (m : SM A) (f : A → SM B) :
  paces I m → (∀ a, paces (λ _, True) (f a)) → paces I (m ≫= f).
Proof.
  intros Hm Hf s Hw. unfold mbind, ST_bind. specialize (Hm s Hw).
  destruct (m s) as [s' [a|e| |]]; cbn in *; [|by auto..].
  intros Hs. etrans; [by apply Hm|]. by apply Hf.
Qed.
Lemma paces_steady_bind {A B} I (m : SM A) (f : A → SM B) :
  steady m → (∀ a, paces I (f a)) → paces I (m ≫= f).
Proof.
  intros Hm Hf s Hw. unfold mbind, ST_bind. specialize (Hm s).
  destruct (m s) as [s' [a|e| |]]; cbn in *; [|by rewrite Hm|done..].
  specialize (Hm Logic.I). intros Hs. rewrite <- Hm. apply Hf; [|done].
  injection Hm as _ _ Hp. by rewrite Hp.
Qed.
Lemma paces_get {A} I (f : Session → SM A) :
  (∀ s, I (pending s) → paces (eq (pending s)) (f s)) → paces I (s ← getS; f s).
Proof. intros Hf s Hs. rewrite st_get. by apply Hf. Qed.
Lemma paces_attempt {A} I (m : SM A) : paces I m → paces I (attempt m).
Proof. intros Hm s Hw. specialize (Hm s Hw). unfold attempt. by destruct (m s) as [s' []]. Qed.
End moves.

(** Run a steady prefix whose error, if any, leaves the window as it was. *)
Lemma steady_then {A B} (m : SM A) (f : A → SM B) (R : Session → Prop) s :
  steady m → (noErr m ∨ ∀ s', num s' = num s → R s') →
  (∀ a s', num s' = num s → safe (f a s').2 → R (f a s').1) →
  safe ((m ≫= f) s).2 → R ((m ≫= f) s).1.
Proof.
  intros Hm He Hf. unfold mbind, ST_bind. specialize (Hm s).
  destruct (m s) as [s' [a|e| |]] eqn:Hr; cbn in *; [by apply Hf, Hm| |done..].
  intros _. destruct He as [He|He]; [by destruct (He s e); rewrite Hr|by apply He, Hm].
Qed.

(** No request is outstanding. *)
Abbreviation idle := (eq (@None pendingExchange)).
Abbreviation anyhow := (λ _ : option pendingExchange, True).

Section window.
Context {P : Primitives} {W : World}.

(** *** The occasions of an event *)

(** The datagram decodes, under the current SA ([viaOld] false) or the superseded one. *)
Definition decoded (raw : bytes) (s : Session) (hdr : Message) (inner : Payloads) (viaOld : bool) : Prop :=
  ∃ s' dec, decodeIKE raw s = (s', Ok (hdr, inner, dec)) ∧
    viaOld = match oldIKE s' with Some o => bool_decide (c_sa dec = c_sa o) | None => false end.

(** The exchange a request of that kind belongs to. *)
Definition exchange_of (k : exchangeKind) : Z :=
  if is_rekey k then ExchangeCreateChildSA else ExchangeInformational.

(** [hdr] is the header of the answer to [p]. *)
Definition answer_to (hdr : Message) (p : pendingExchange) : Prop :=
  IsResponse (m_Flags hdr) = true ∧ m_MessageID hdr = px_msgID p ∧ m_Exchange hdr = exchange_of (px_kind p).

(** The outstanding request ends when its answer arrives under the current SA, or
    when the tick finds all its transmissions used up; at no other time. *)
Definition ends (e : event) (s : Session) (c : Config) (p : pendingExchange) : Prop :=
  match e with
  | EvInbound raw => ∃ hdr inner, decoded raw s hdr inner false ∧ answer_to hdr p
  | EvTick => (if px_fast p then fastDPDTries else retransmitTries c) < px_attempts p + 1
  | EvCancel => False
  end.

(** The counter restarts when the IKE SA is replaced: our own rekey is answered, or
    the peer asks for one, each time under the current SA. *)
Definition restarts (e : event) (s : Session) : Prop :=
  match e with
  | EvInbound raw => ∃ hdr inner, decoded raw s hdr inner false ∧ m_Exchange hdr = ExchangeCreateChildSA ∧
      ((∃ p, pending s = Some p ∧ px_kind p = exIKERekey ∧ answer_to hdr p) ∨
       (IsResponse (m_Flags hdr) = false ∧ isIKERekey inner = true))
  | _ => False
  end.

Definition moves (e : event) (s s' : Session) : Prop :=
  rtc (move (ends e s) (restarts e s)) (num s) (num s').

(** Every event of a run moves as it may, up to the session [s']. *)
Fixpoint paced (es : list event) (s s' : Session) : Prop :=
  match es with
  | [] => s' = s
  | e :: rest => ∃ s1, Driver_step e s = (s1, Ok false) ∧ moves e s s1 ∧ paced rest s1 s'
  end.

Lemma steady_InstallChildSA u : steady (InstallChildSA u).
Proof. intros s. unfold InstallChildSA. st_step. by destruct (dataPlane s). Qed.
#[local] Hint Resolve steady_InstallChildSA : stable.
Lemma steady_handleChildRekeyRequest hdr inner dec v : steady (handleChildRekeyRequest hdr inner dec v).
Proof.
  unfold handleChildRekeyRequest, answerChildRekey, commitChildAnswer, answerPFS, answerNoProposal,
    sendInvalidKEPayload. stable.
Qed.

Section occasions.
Context {E : Config → pendingExchange → Prop} {X : Prop}.

(** *** Numbering a request *)

(** The end of every initiating routine: the counter has moved past the request. *)
Lemma move_issue s0 s p raw :
  idle (pending s0) → cfg s = cfg s0 → messageID s = u32 (messageID s0 + 1) →
  px_msgID p = messageID s0 → px_attempts p = 1 →
  safe ((_ ← modifyS (set_pending (Some p)); sendDatagram raw) s).2 →
  rtc (move E X) (num s0) (num ((_ ← modifyS (set_pending (Some p)); sendDatagram raw) s).1).
Proof.
  intros Hi Hc Hm Hp Ha. rewrite st_modify. intros Hs.
  rewrite (stable_sendDatagram num raw _ Hs). apply rtc_once. unfold num.
  cbn [cfg messageID pending set_pending]. rewrite Hc, Hm, <- Hi. by constructor.
Qed.

(** Step over a steady prefix of a routine started in [s0]. *)
Ltac chase s0 :=
  repeat (apply (steady_then _ _ (λ z, rtc (move E X) (num s0) (num z)));
    [ by stable
    | right; intros ? ->; first [ apply rtc_refl | match goal with H : num _ = num s0 |- _ => rewrite H; apply rtc_refl end ]
    | let H := fresh "Hn" in intros ? ? H;
      match type of H with num ?s' = num ?s =>
        first [ constr_eq s s0
              | match goal with H' : num s = num s0 |- _ => rewrite H' in H end ] end ]).

(** Number the request, then step over what precedes recording it. *)
Ltac issue s0 :=
  unfold nextMessageID; rewrite st_modify;
  repeat (apply (steady_then _ _ (λ z, rtc (move E X) (num s0) (num z))); [by stable|left; by noerr|intros ? ? ?]);
  apply move_issue; unfold num in *; cbn [px_msgID px_attempts newPending cfg messageID set_messageID] in *;
  repeat match goal with H : (_, _, _) = (_, _, _) |- _ => injection H as ? ? ? end; congruence.

#[local] Hint Resolve noErr_now : noerr.

Lemma paces_initiateDPD fast : paces E X idle (initiateDPD fast).
Proof.
  intros s Hw. unfold initiateDPD, encodeSKEmpty, curCtx. rewrite st_get. cbv zeta. chase s. issue s.
Qed.

Lemma paces_initiateChildRekey re : paces E X idle (initiateChildRekey re).
Proof.
  intros s Hw. unfold initiateChildRekey. rewrite st_get. destruct (child s) as [ch|]; [|done].
  cbv zeta. chase s. issue s.
Qed.

Lemma paces_sendChildDelete spi : paces E X idle (sendChildDelete spi).
Proof. intros s Hw. unfold sendChildDelete. rewrite st_get. cbv zeta. chase s. issue s. Qed.

Lemma paces_initiateIKERekey : paces E X idle initiateIKERekey.
Proof. intros s Hw. unfold initiateIKERekey. rewrite st_get. cbv zeta. chase s. issue s. Qed.

(** *** Replacing the IKE SA *)

Lemma noErr_then {A B} (m : SM A) (f : A → SM B) (R : Session → Prop) s :
  noErr m → (∀ a s', m s = (s', Ok a) → safe (f a s').2 → R (f a s').1) →
  safe ((m ≫= f) s).2 → R ((m ≫= f) s).1.
Proof.
  intros Hm Hf. unfold mbind, ST_bind. specialize (Hm s).
  destruct (m s) as [s' [a|e| |]]; cbn in *; [by apply Hf|by destruct (Hm e)|done..].
Qed.

#[local] Hint Resolve noErr_jitteredDeadline : noerr.

(** The new SA starts with an empty window, whatever the old one had. *)
Lemma num_swapIKE np i r s : safe (swapIKE np i r s).2 → num (swapIKE np i r s).1 = (cfg s, 0, None).
Proof.
  unfold swapIKE, current. rewrite st_get, st_assoc, st_get.
  apply (noErr_then _ _ (λ z, num z = (cfg s, 0, None))); [by noerr|intros ? s1 H1].
  apply (stable_ok cfg) in H1; [|by stable]. rewrite st_modify.
  apply (noErr_then _ _ (λ z, num z = (cfg s, 0, None))); [by noerr|intros ? s2 H2].
  apply (stable_ok cfg) in H2; [|by stable]. do 7 rewrite st_modify.
  apply (noErr_then _ _ (λ z, num z = (cfg s, 0, None))); [by noerr|intros ? s3 H3].
  apply (stable_ok (λ z, (cfg z, messageID z))) in H3; [|by stable]. rewrite st_modify.
  apply (noErr_then _ _ (λ z, num z = (cfg s, 0, None))); [by noerr|intros ? s4 H4].
  apply (stable_ok (λ z, (cfg z, messageID z))) in H4; [|by stable]. rewrite st_modify.
  unfold num. cbn in *. congruence.
Qed.

(** No rekey of ours is outstanding. *)
Abbreviation rekey_free := (λ o : option pendingExchange, ∀ p, o = Some p → is_rekey (px_kind p) = false).

Lemma move_swapIKE np i r s0 s :
  X → rekey_free (pending s0) → cfg s = cfg s0 → safe (swapIKE np i r s).2 →
  rtc (move E X) (num s0) (num (swapIKE np i r s).1).
Proof.
  intros Hx Hp Hc Hs. rewrite num_swapIKE by done. rewrite Hc. apply rtc_once. by constructor.
Qed.

Lemma swapIKE_then {A} np i r (f : unit → SM A) s0 s :
  X → rekey_free (pending s0) → cfg s = cfg s0 → steady (f tt) → safe ((swapIKE np i r ≫= f) s).2 →
  rtc (move E X) (num s0) (num ((swapIKE np i r ≫= f) s).1).
Proof.
  intros Hx Hp Hc Hf. pose proof (move_swapIKE np i r s0 s Hx Hp Hc) as Hw. unfold mbind, ST_bind.
  destruct (swapIKE np i r s) as [s' [[]|e| |]]; cbn in *; [|by auto|done..].
  intros Hs. rewrite (Hf s' Hs). by apply Hw.
Qed.

Lemma paces_completeIKERekey inner p : X → paces E X rekey_free (completeIKERekey inner p).
Proof.
  intros Hx s Hw. unfold completeIKERekey. rewrite st_get.
  apply (steady_then _ _ (λ z, rtc (move E X) (num s) (num z)));
    [by stable|right; by intros ? ->|]. intros [[saP nr] [g d]] s1 H1.
  repeat case_match; try by (intros _; rewrite <- H1). chase s.
  repeat case_match; try by (intros _; match goal with H : num _ = num s |- _ => rewrite <- H end). chase s.
  apply (noErr_then _ _ (λ z, rtc (move E X) (num s) (num z))); [apply noErr_attempt|intros ? ? Hr].
  apply (stable_ok cfg) in Hr; [|unfold sendIKEDeleteUnderCurrent, nextMessageID; stable].
  apply move_swapIKE; try done. unfold num in *. congruence.
Qed.

Lemma paces_handleIKERekeyRequest hdr inner dec :
  X → paces E X rekey_free (handleIKERekeyRequest hdr inner dec).
Proof.
  intros Hx s Hw. unfold handleIKERekeyRequest. cbv zeta. rewrite st_get.
  destruct (ikeRekeyPayloads inner) as [[[saP ni] [g kei]]|e| |]; [|..].
  2-4: apply (steady_paces E X anyhow); [unfold answerNoProposal; stable|done].
  destruct (negb _); [apply (steady_paces E X anyhow); [unfold sendInvalidKEPayload; stable|done]|].
  destruct (selectProposal _ _ g) as [[prop suite]|];
    [|apply (steady_paces E X anyhow); [unfold answerNoProposal, sendInvalidKEPayload; stable|done]].
  unfold answerIKERekey. cbv zeta. chase s. destruct a0 as [d sh]. chase s.
  apply swapIKE_then; try done; [unfold num in *; congruence|stable].
Qed.

(** *** Routines of the loop *)

#[local] Hint Resolve paces_initiateDPD paces_initiateChildRekey paces_sendChildDelete
  paces_initiateIKERekey : stable.

(** Steady steps in turn, then the routine that moves, then steady ones again. *)
Ltac paces :=
  repeat first
    [ solve [eauto with stable]
    | solve [apply steady_paces; stable]
    | lazymatch goal with
      | |- paces _ _ _ (_ ≫= _) => first [ apply paces_steady_bind; [by stable|] | apply paces_bind ]
      | |- paces _ _ _ (attempt _) => apply paces_attempt
      | |- paces _ _ _ _ => first [ progress cbv zeta | case_match ]
      | |- ∀ _, _ => intro
      end ].

Lemma paces_completeChildRekey inner p : paces E X idle (completeChildRekey inner p).
Proof. unfold completeChildRekey. paces. Qed.

Lemma paces_handleInboundChildDelete spis : paces E X anyhow (handleInboundChildDelete spis).
Proof.
  unfold handleInboundChildDelete. apply paces_get. intros s _.
  destruct (child s) as [ch|]; [|paces]. destruct (_ || _); [paces|].
  apply paces_steady_bind; [stable|intros refs]. destruct (negb refs); [paces|].
  destruct (pending s) as [p|]; paces.
Qed.
#[local] Hint Resolve paces_handleInboundChildDelete : stable.

Lemma paces_handleDeletes inner v td : paces E X anyhow (handleDeletes inner v td).
Proof.
  revert td. induction inner as [|p inner IH]; intros td; cbn [handleDeletes]; [paces|].
  destruct p; try apply IH. destruct (_ =? _); [apply IH|]. destruct (_ =? _); [|apply IH]. paces. 
Qed.

(** The answer to a rekey of ours ends it; the work of completing it starts idle. *)
Lemma paces_completeMatchingRekey id inner v :
  (v = false → ∀ c p, px_msgID p = id → is_rekey (px_kind p) = true → E c p) →
  paces E X (λ o, v = false → ∀ p, o = Some p → px_msgID p = id → px_kind p = exIKERekey → X)
    (completeMatchingRekey id inner v).
Proof.
  intros HE s HX. unfold completeMatchingRekey. destruct v; [done|]. rewrite st_get.
  destruct (pending s) as [p|] eqn:Hp; [|done].
  destruct (Z.eqb_spec (px_msgID p) id) as [Hid|]; [|done]. cbn [negb].
  specialize (HE eq_refl (cfg s) p Hid). specialize (HX eq_refl p eq_refl Hid).
  assert (Hend : is_rekey (px_kind p) = true → ∀ m : SM unit, paces E X idle m →
    safe ((_ ← putS (set_pending None s); m) s).2 →
    rtc (move E X) (num s) (num ((_ ← putS (set_pending None s); m) s).1)).
  { intros Hk m Hm. rewrite st_put. intros Hs. eapply rtc_l; [|by apply Hm].
    unfold num. rewrite Hp. by apply MoveEnd, HE. }
  destruct (px_kind p) eqn:Hk; [done| | |done]; apply Hend; try done.
  - apply paces_bind; [apply paces_attempt, paces_completeChildRekey|paces].
  - apply paces_bind; [|paces]. apply paces_attempt, (paces_weaken _ _ rekey_free); [by intros ? <-|].
    by apply paces_completeIKERekey, HX.
Qed.

Lemma paces_clearPending id :
  (∀ c p, px_msgID p = id → is_rekey (px_kind p) = false → E c p) → paces E X anyhow (clearPending id).
Proof.
  intros HE s _. unfold clearPending. rewrite st_get. destruct (pending s) as [p|] eqn:Hp; [|done].
  destruct (Z.eqb_spec (px_msgID p) id) as [Hid|]; [|done]. intros _.
  destruct (px_kind p) eqn:Hk; try done; apply rtc_once; unfold num at 1; rewrite Hp; apply MoveEnd, HE;
    by rewrite ?Hk.
Qed.

Lemma rekey_free_inFlight s : rekeyInFlight s = false → rekey_free (pending s).
Proof. unfold rekeyInFlight. by intros Hr p Hp; rewrite Hp in Hr. Qed.

Lemma paces_handleCreateChildSA hdr inner dec v :
  (v = false → isIKERekey inner = true → X) → paces E X anyhow (handleCreateChildSA hdr inner dec v).
Proof.
  intros HX. unfold handleCreateChildSA, sendTemporaryFailure. apply paces_get. intros s _.
  destruct (rekeyInFlight s) eqn:Hf; [paces|]. cbv zeta.
  destruct (isIKERekey inner); [destruct v; cbn [andb]; [paces|]|].
  - apply paces_bind; [|paces]. apply paces_attempt, (paces_weaken _ _ rekey_free).
    + intros ? <-. by apply rekey_free_inFlight.
    + by apply paces_handleIKERekeyRequest, HX.
  - cbn [andb]. apply steady_paces. pose proof steady_handleChildRekeyRequest. stable.
Qed.

(** A message moves the window as its header allows. *)
Lemma paces_handleMessage hdr inner dec v :
  (v = false → ∀ c p, answer_to hdr p → E c p) →
  paces E X (λ o, v = false → m_Exchange hdr = ExchangeCreateChildSA →
      ((∃ p, o = Some p ∧ px_kind p = exIKERekey ∧ answer_to hdr p) ∨
       (IsResponse (m_Flags hdr) = false ∧ isIKERekey inner = true)) → X)
    (handleMessage hdr inner dec v).
Proof.
  intros HE. unfold handleMessage. cbv zeta.
  destruct (Z.eqb_spec (m_Exchange hdr) ExchangeInformational) as [Hx|Hx].
  - destruct (IsResponse (m_Flags hdr)) eqn:Hr.
    + apply paces_bind; [|paces]. destruct v; [apply steady_paces; intros s _; unfold clearOldIKEDelete; st_step; by repeat case_match|].
      apply (paces_weaken _ _ anyhow); [done|]. apply paces_clearPending. intros c p Hp Hk.
      apply HE; [done|]. unfold answer_to, exchange_of. by rewrite Hk, Hp.
    + apply (paces_weaken _ _ anyhow); [done|]. unfold handleInformationalRequest. pose proof paces_handleDeletes. paces.
  - destruct (Z.eqb_spec (m_Exchange hdr) ExchangeCreateChildSA) as [Hc|]; [|paces].
    destruct (IsResponse (m_Flags hdr)) eqn:Hr.
    + apply paces_bind; [|paces]. eapply paces_weaken; [|apply paces_completeMatchingRekey].
      * cbn beta. intros o HX Hv p -> Hp Hk. apply HX; [done..|]. left. exists p.
        unfold answer_to, exchange_of. by rewrite Hk, Hp.
      * intros Hv c p Hp Hk. apply HE; [done|]. unfold answer_to, exchange_of. by rewrite Hk, Hp.
    + apply paces_steady_bind; [stable|]. intros []; [paces|]. apply paces_bind; [|paces].
      intros s HX. apply paces_handleCreateChildSA; [|done]. intros Hv Hi. apply HX; [done..|]. by right.
Qed.

Lemma paces_startExchange t : paces E X idle (startExchange t).
Proof.
  unfold startExchange, volumeDue, probeIfIdle, idleTime, LastDataInbound, ChildSAVolume. paces.
Qed.

End occasions.

#[local] Instance context_observes : Observes (λ s, (num s, oldIKE s)).
Proof. by constructor. Qed.

(** ** Events *)

Lemma moves_handleInbound raw s :
  safe (handleInbound raw s).2 → moves (EvInbound raw) s (handleInbound raw s).1.
Proof.
  unfold handleInbound, moves. rewrite st_mbind_run. unfold attempt.
  pose proof (stable_decodeIKE (λ s, (num s, oldIKE s)) raw s) as Hst.
  destruct (decodeIKE raw s) as [s1 [[[hdr inner] dec]|e| |]] eqn:Hd; cbn [fst snd] in *;
    [|intros _; by rewrite <- (f_equal fst (Hst I) : num s1 = num s)|done..].
  apply (noErr_then _ _ (λ z, rtc _ (num s) (num z))); [apply noErr_now|intros t s2 Ht].
  apply (stable_ok (λ s, (num s, oldIKE s))) in Ht; [|by stable].
  rewrite st_modify, st_get. cbv zeta.
  assert (Hn : num (set_lastInbound t s2) = num s) by (by rewrite <- (f_equal fst (Hst I) : num s1 = num s), <- (f_equal fst Ht : num s2 = num s1)).
  assert (Ho : oldIKE (set_lastInbound t s2) = oldIKE s1) by exact (f_equal snd Ht).
  rewrite Ho. set (v := match oldIKE s1 with Some _ => _ | None => _ end).
  assert (Hdec : decoded raw s hdr inner v) by (by exists s1, dec). clearbody v.
  rewrite <- Hn. apply paces_handleMessage.
  - intros -> c p Hp. by exists hdr, inner.
  - assert (Hp : pending (set_lastInbound t s2) = pending s) by (by injection Hn).
    rewrite Hp. intros -> Hx Hor. by exists hdr, inner.
Qed.

Lemma paces_detectSuspend {E X} t : paces E X anyhow (detectSuspend t).
Proof.
  intros s _. unfold detectSuspend. rewrite st_get. cbv zeta. rewrite st_modify.
  destruct (_ || _); [done|]. destruct (pending s) as [p|] eqn:Hp.
  - rewrite st_modify. assert (Hm : move E X (num s) (num (set_pending (Some (px_hurry p t)) (set_lastTickWall (Round0 t) s)))).
    { unfold num. cbn. rewrite Hp. apply MoveAgain. repeat split; cbn; lia. }
    destruct (bool_decide _); intros _; by apply rtc_once.
  - change (num s) with (num (set_lastTickWall (Round0 t) s)). symmetry in Hp.
    change (idle (pending (set_lastTickWall (Round0 t) s))) in Hp. revert Hp.
    generalize (set_lastTickWall (Round0 t) s). change (paces E X idle (_ ← attempt (initiateDPD true); mret tt)).
    apply paces_bind; [apply paces_attempt, paces_initiateDPD|intros a]. by apply steady_paces; stable.
Qed.

Lemma paces_retransmitPending {X} s0 t p : paces (ends EvTick s0) X (eq (Some p)) (retransmitPending t p).
Proof.
  intros s Hp. unfold retransmitPending. rewrite st_get. destruct (After _ _); [|done]. cbv zeta.
  unfold pendingTries. rewrite <- Hp. destruct (_ >? _) eqn:Ht.
  - rewrite st_modify. assert (Hm : move (ends EvTick s0) X (num s) (num (set_pending None s))).
    { unfold num. cbn. rewrite <- Hp. apply MoveEnd. cbn. lia. }
    repeat case_match; intros _; by apply rtc_once.
  - rewrite st_modify. intros Hs. eapply rtc_l; [|by apply (steady_paces _ X anyhow); [stable|..]].
    unfold num. cbn. rewrite <- Hp. apply MoveAgain. repeat split; cbn; lia.
Qed.

Lemma moves_housekeeping s : safe (housekeeping s).2 → moves EvTick s (housekeeping s).1.
Proof.
  unfold moves. cut (paces (ends EvTick s) (restarts EvTick s) anyhow housekeeping); [intros H; by apply H|].
  generalize (restarts EvTick s). intros X. unfold housekeeping.
  apply paces_steady_bind; [stable|intros t].
  apply paces_bind; [apply paces_detectSuspend|intros _].
  apply paces_steady_bind; [unfold expireOldIKE; stable|intros _].
  apply paces_steady_bind; [unfold retransmitOldDelete; stable|intros _].
  apply paces_get. intros s' _. destruct (pending s') as [p|]; [apply paces_retransmitPending|].
  apply paces_bind; [apply paces_startExchange|intros _]. by apply steady_paces; stable.
Qed.

Lemma moves_step e s s' : Driver_step e s = (s', Ok false) → moves e s s'.
Proof.
  destruct e as [raw| |]; cbn [Driver_step]; intros Hd.
  - pose proof (moves_handleInbound raw s) as Hm. rewrite Hd in Hm. by apply Hm.
  - pose proof (moves_housekeeping s) as Hm. rewrite Hd in Hm. by apply Hm.
  - unfold mbind, ST_bind in Hd. by destruct (sendGracefulDelete s) as [? []].
Qed.

Lemma paced_loop es s s' : Driver_loop es s = (s', Ok false) → paced es s s'.
Proof.
  revert s. induction es as [|e es IH]; intros s; cbn [Driver_loop paced]; [by intros [= <-]|].
  unfold mbind, ST_bind. destruct (Driver_step e s) as [s1 [[]|e'| |]] eqn:Hd; [done| |done..].
  intros Hl. exists s1. auto using moves_step.
Qed.

Lemma window_paced es s s' : paced es s s' → window s → window s'.
Proof.
  revert s. induction es as [|e es IH]; intros s; cbn [paced]; [by intros ->|].
  intros (s1 & _ & Hm & Hp) Hw. by apply (IH s1), (window_moves _ _ s s1 Hm).
Qed.

End window.

(** ** Witness *)

(** The peer deletes the Child SA while a liveness probe is outstanding: the rekey it
    calls for waits until the probe has been answered. *)
Definition from_peer (flags id : Z) (inner : Payloads) : bytes :=
  match encodeSK (P:=toy_primitives) ExchangeInformational flags id inner (demo_session Responder) with
  | (_, Ok raw) => raw
  | _ => []
  end.
Definition probing : Session := set_fastDPDDue true (demo_session Initiator).
Definition probe_events : list event :=
  [EvTick; EvInbound (from_peer 0 0 [DeletePayload ProtocolESP [put32 (ch_ResponderSPI demo_child)]]);
   EvTick; EvInbound (from_peer FlagResponse 2 []); EvTick].

