(* ===== verification/Liveness.v ===== *)
(** * Retransmission and dead-peer detection

    The timer side of the control loop (housekeeping in informational.go): what a
    tick may do while a request is outstanding, that every outstanding request is
    answered, retransmitted or given up after a bounded number of expired deadlines,
    and the bounds of the retransmission schedule. *)

From S2P Require Import Prelude IkePayload IkeMsg Crypto IkeSA Suite Natt Protected Session.
From S2P Require Import Rekey Driver Invariant Demo DriverProps.

(** [q] is [p], possibly with another schedule. *)
Definition same_request (p q : pendingExchange) : Prop :=
  px_kind q = px_kind p ∧ px_msgID q = px_msgID p ∧ px_raw q = px_raw p ∧
  px_child q = px_child p ∧ px_ike q = px_ike p.

Section liveness.
Context {P : Primitives} {W : World}.

(** The tick at [s] comes after a gap of the wall clock. *)
Definition suspended (s : Session) : bool :=
  negb (IsZero (lastTickWall s)) &&
  (Sub (Round0 (w_clock (calls s))) (lastTickWall s) >? suspendThreshold).

(** The deadline of the outstanding request has passed at the tick. *)
Definition overdue (s : Session) : bool :=
  match pending s with
  | Some p => After (w_clock (calls s)) (px_nextRetransmit p) && negb (suspended s)
  | None => false
  end.

(** What a tick may put on the wire: bytes that have been sent before. *)
Definition resent (s : Session) (d : bytes) : Prop :=
  ∃ o, (pending s = Some o ∨ oldIKEDelete s = Some o) ∧ d = frameDatagram (nattMode s) (px_raw o).

(** The part of a tick before the outstanding request is looked at leaves [s0]
    as it is, but for the superseded SA and resending its Delete. *)
Record tick_frame (s0 s : Session) : Prop := {
  tf_messageID : messageID s = messageID s0;
  tf_cfg : cfg s = cfg s0;
  tf_installed : installed s = installed s0;
  tf_child : child s = child s0;
  tf_ikeSA : ikeSA s = ikeSA s0;
  tf_nattMode : nattMode s = nattMode s0;
  tf_sent : ∃ out, sent s = sent s0 ++ out ∧ Forall (resent s0) out;
}.

Lemma tick_frame_refl s : tick_frame s s.
Proof. constructor; try done. exists []. by rewrite app_nil_r. Qed.

(** Sending bytes that were sent before, or failing to. *)
Lemma attempt_send_frame s0 s o :
  tick_frame s0 s → pending s0 = Some o ∨ oldIKEDelete s0 = Some o →
  ∃ s', (attempt (F:=sess_error) (sendDatagram (px_raw o))) s = (s', Ok (if w_send (calls s) then inr tt else inl ErrSend)) ∧
        tick_frame s0 s' ∧ pending s' = pending s ∧ oldIKE s' = oldIKE s.
Proof.
  intros [? ? ? ? ? Hn (out & Hs & Hout)] Ho. unfold attempt, sendDatagram, tick. st_step.
  cbn [calls set_calls]. destruct (w_send (calls s)); eexists; (split; [done|]); split; try done;
    constructor; try done; cbn.
  - exists (out ++ [frameDatagram (nattMode s0) (px_raw o)]). rewrite Hs, Hn, app_assoc. split; [done|].
    apply Forall_app. split; [done|]. constructor; [by exists o|constructor].
  - by exists out.
Qed.

Lemma st_ok {A B} (m : SM A) (f : A → SM B) s s1 a : m s = (s1, Ok a) → (m ≫= f) s = f a s1.
Proof. unfold mbind, ST_bind. by intros ->. Qed.

Ltac frame H := destruct H; constructor; done.

Lemma detectSuspend_pending s0 s t p :
  tick_frame s0 s → pending s = Some p →
  ∃ s1, detectSuspend t s = (s1, Ok tt) ∧ tick_frame s0 s1 ∧ oldIKEDelete s1 = oldIKEDelete s ∧
    pending s1 = Some (if negb (IsZero (lastTickWall s)) &&
                          (Sub (Round0 t) (lastTickWall s) >? suspendThreshold)
                       then px_hurry p t else p).
Proof.
  intros Hf Hp. unfold detectSuspend. rewrite st_get, st_modify, Z.gtb_ltb, Hp.
  rewrite Z.leb_antisym. destruct (IsZero (lastTickWall s)); cbn [negb andb orb].
  { eexists. split; [done|]. split; [frame Hf|done]. }
  destruct (_ <? _); cbn [negb]; [|by eexists; split; [done|]; split; [frame Hf|]].
  rewrite st_modify. destruct (bool_decide _);
    by eexists; split; [done|]; split; [frame Hf|].
Qed.

Lemma expireOldIKE_frame s0 s t :
  tick_frame s0 s →
  ∃ s1, expireOldIKE t s = (s1, Ok tt) ∧ tick_frame s0 s1 ∧ pending s1 = pending s ∧
    (oldIKEDelete s1 = None ∨ oldIKEDelete s1 = oldIKEDelete s).
Proof.
  intros Hf. unfold expireOldIKE. rewrite st_get.
  destruct (_ && _); [st_step|]; eexists; (split; [done|]); (split; [frame Hf|]); cbn; auto.
Qed.

Lemma retransmitOldDelete_frame s0 s t :
  tick_frame s0 s → oldIKEDelete s = None ∨ oldIKEDelete s = oldIKEDelete s0 →
  ∃ s1, retransmitOldDelete t s = (s1, Ok tt) ∧ tick_frame s0 s1 ∧ pending s1 = pending s.
Proof.
  intros Hf Ho. unfold retransmitOldDelete. rewrite st_get.
  destruct (oldIKEDelete s) as [o|] eqn:Hd; [|by eauto].
  assert (Ho' : oldIKEDelete s0 = Some o) by (by destruct Ho). cbv zeta.
  destruct (bool_decide _); [by eexists; split; [done|]; split; [frame Hf|]|].
  destruct (After _ _); [|by eauto].
  destruct (_ >? _); [by eexists; split; [done|]; split; [frame Hf|]|].
  rewrite st_modify. set (s2 := set_oldIKEDelete _ s).
  destruct (attempt_send_frame s0 s2 o) as (s3 & Hs & Hf3 & Hp3 & _); [frame Hf|by right|].
  exists s3. by rewrite (st_ok _ _ _ _ _ Hs).
Qed.

Lemma tick_prefix s p :
  pending s = Some p →
  let t := w_clock (calls s) in
  let q := if suspended s then px_hurry p t else p in
  ∃ s1, tick_frame s s1 ∧ pending s1 = Some q ∧ housekeeping s = retransmitPending t q s1.
Proof.
  intros Hp t q. unfold housekeeping, now, tick. st_step. fold t.
  assert (H0 : tick_frame s (set_calls (S (calls s)) s)).
  { pose proof (tick_frame_refl s) as H. frame H. }
  destruct (detectSuspend_pending s (set_calls (S (calls s)) s) t p H0 Hp) as (s1 & H1 & F1 & O1 & P1).
  rewrite (st_ok _ _ _ _ _ H1).
  destruct (expireOldIKE_frame s s1 t F1) as (s2 & H2 & F2 & P2 & O2). rewrite (st_ok _ _ _ _ _ H2).
  destruct (retransmitOldDelete_frame s s2 t F2) as (s3 & H3 & F3 & P3).
  { rewrite O1 in O2. exact O2. }
  rewrite (st_ok _ _ _ _ _ H3), st_get, P3, P2, P1. by exists s3; rewrite P3, P2, P1.
Qed.

(** What a tick does to the outstanding request [q]: nothing before its deadline;
    at it, one more transmission, or the end of the exchange. *)
Lemma retransmitPending_cases s0 s1 t p q :
  pending s0 = Some p → px_raw q = px_raw p → tick_frame s0 s1 → pending s1 = Some q →
  ∃ s' b, retransmitPending t q s1 = (s', Ok b) ∧ tick_frame s0 s' ∧
    (After t (px_nextRetransmit q) = false ∧ b = false ∧ pending s' = Some q ∨
     After t (px_nextRetransmit q) = true ∧ pendingTries s1 < px_attempts q + 1 ∧
       b = bool_decide (px_kind q = exDPD) ∧ pending s' = None ∨
     After t (px_nextRetransmit q) = true ∧ px_attempts q + 1 ≤ pendingTries s1 ∧ b = false ∧
       pending s' = Some (px_again q (px_attempts q + 1) (Add t (pendingBackoff s1 (px_attempts q + 1))))).
Proof.
  intros Hp Hraw Hf Hq. unfold retransmitPending. rewrite st_get.
  destruct (After t (px_nextRetransmit q)); [|by eauto 10]. cbv zeta.
  destruct (px_attempts q + 1 >? pendingTries s1) eqn:Ht; rewrite Z.gtb_ltb in Ht.
  - apply Z.ltb_lt in Ht. rewrite st_modify. destruct (bool_decide (px_kind q = exDPD)) eqn:Hk.
    { eexists _, true. split; [done|]. split; [frame Hf|]. right; left. done. }
    destruct (match px_child q with Some _ => _ | None => _ end); st_step;
      eexists _, false; (split; [done|]); (split; [frame Hf|]); right; left; done.
  - apply Z.ltb_ge in Ht. rewrite st_modify, Hraw. set (s2 := set_pending _ s1).
    destruct (attempt_send_frame s0 s2 p) as (s3 & Hs & Hf3 & Hp3 & _); [frame Hf|by left|].
    exists s3, false. rewrite (st_ok _ _ _ _ _ Hs). split; [done|]. split; [done|].
    right; right. by rewrite Hp3.
Qed.

(** While a request is outstanding a tick starts nothing: the message-ID counter,
    the SA in use and the data plane are untouched, every datagram put on the wire
    is byte for byte the outstanding request or the pending Delete of the superseded
    SA, and the outstanding request afterwards is the same one or none. *)
Theorem tick_only_retransmits s p :
  pending s = Some p →
  ∃ s' b, housekeeping s = (s', Ok b) ∧
    messageID s' = messageID s ∧ ikeSA s' = ikeSA s ∧ child s' = child s ∧ installed s' = installed s ∧
    (∃ out, sent s' = sent s ++ out ∧ Forall (resent s) out) ∧
    (pending s' = None ∨ ∃ q, pending s' = Some q ∧ same_request p q).
Proof.
  intros Hp. destruct (tick_prefix s p Hp) as (s1 & Hf & Hq & ->). cbv zeta in Hq.
  edestruct (retransmitPending_cases s s1 (w_clock (calls s)) p) as (s' & b & Hr & [] & Hc); [exact Hp| |exact Hf|exact Hq|].
  { by destruct (suspended s). }
  exists s', b. split_and!; [done..|].
  destruct Hc as [(_ & _ & ->)|[(_ & _ & _ & ->)|(_ & _ & _ & ->)]]; [right|by left|right];
    eexists; (split; [done|]); by destruct (suspended s).
Qed.

(** The number of the first [n] ticks at which the outstanding request is overdue. *)
Fixpoint overdue_ticks (n : nat) (s : Session) : Z :=
  match n with
  | O => 0
  | S n' => (if overdue s then 1 else 0) + overdue_ticks n' (housekeeping s).1
  end.

(** Transmissions the request has left. *)
Definition budget (c : Config) (p : pendingExchange) : Z :=
  Z.max (retransmitTries c) fastDPDTries + 1 - px_attempts p.

Lemma pendingTries_le s : pendingTries s ≤ Z.max (retransmitTries (cfg s)) fastDPDTries.
Proof. unfold pendingTries. repeat case_match; lia. Qed.

Lemma tick_progress s p :
  pending s = Some p → 0 < budget (cfg s) p →
  ∃ s' b, housekeeping s = (s', Ok b) ∧
    (b = bool_decide (px_kind p = exDPD) ∧ pending s' = None ∨
     b = false ∧ cfg s' = cfg s ∧ ∃ q, pending s' = Some q ∧ same_request p q ∧
       0 < budget (cfg s) q ∧ budget (cfg s) q = budget (cfg s) p - if overdue s then 1 else 0).
Proof.
  intros Hp Hb. destruct (tick_prefix s p Hp) as (s1 & Hf & Hq & ->). cbv zeta in Hq.
  edestruct (retransmitPending_cases s s1 (w_clock (calls s)) p) as (s' & b & Hr & Hf' & Hc); [exact Hp| |exact Hf|exact Hq|].
  { by destruct (suspended s). }
  exists s', b. split; [done|]. unfold overdue. rewrite Hp.
  pose proof (pendingTries_le s1) as Ht. rewrite (tf_cfg _ _ Hf) in Ht.
  assert (Hself : After (w_clock (calls s)) (w_clock (calls s)) = false).
  { unfold After, time_diff. destruct (t_mono _); rewrite Z.sub_diag; done. }
  destruct (suspended s); cbn [negb].
  - cbn [px_nextRetransmit px_hurry] in Hc. rewrite Hself in Hc.
    destruct Hc as [(_ & -> & ->)|[(? & _)|(? & _)]]; [|done..]. right. rewrite andb_false_r.
    split_and!; [done|apply Hf'|]. eexists. split_and!; try done. unfold budget. cbn. lia.
  - destruct Hc as [(-> & -> & ->)|[(-> & _ & -> & ->)|(-> & ? & -> & ->)]]; [right|by left|right];
      (split_and!; [done|apply Hf'|]); eexists; (split; [done|]); cbn [andb];
      unfold budget in *; cbn [px_attempts px_again]; split_and!; try done; lia.
Qed.

(** C20. No request stays outstanding for ever.  Once the deadline of the outstanding
    request has been found expired at as many ticks as it has transmissions left, with
    any other ticks in between and suspended time not counted, the exchange is over:
    for a liveness probe the peer is declared dead and the loop has returned, any
    other request has been given up and the loop goes on. *)
Theorem unanswered_request_ends n s p :
  pending s = Some p → 0 < budget (cfg s) p ≤ overdue_ticks n s →
  ∃ k s', (k ≤ n)%nat ∧
    Driver_loop (replicate k EvTick) s = (s', Ok (bool_decide (px_kind p = exDPD))) ∧ pending s' = None.
Proof.
  revert s p. induction n as [|n IH]; intros s p Hp [Hb Hn]; cbn [overdue_ticks] in Hn; [lia|].
  destruct (tick_progress s p Hp Hb) as (s' & b & Hs & [[-> Hnone]|(-> & Hc & q & Hq & Hsame & Hbq & Heq)]).
  - exists 1%nat, s'. cbn [replicate Driver_loop Driver_step]. rewrite (st_ok _ _ _ _ _ Hs).
    split; [lia|]. split; [|done]. by destruct (bool_decide _).
  - rewrite Hs in Hn. cbn [fst] in Hn. destruct (IH s' q Hq) as (k & s2 & Hk & Hl & Hp2).
    { rewrite Hc. lia. }
    exists (S k), s2. cbn [replicate Driver_loop Driver_step]. rewrite (st_ok _ _ _ _ _ Hs).
    destruct Hsame as [<- _]. split; [lia|done].
Qed.
End liveness.

(** ** The schedule *)

Lemma backoff_loop_S n d max :
  backoff_loop (S n) d max =
    if max <=? i64 (d * 2) then max else backoff_loop n (i64 (d * 2)) max.
Proof. cbn [backoff_loop]. by rewrite Z.geb_leb. Qed.

Lemma backoff_loop_min n d max :
  0 < d < 2 ^ 62 → 0 < max ≤ 2 ^ 62 →
  backoff_loop (S n) d max = Z.min (d * 2 ^ Z.of_nat (S n)) max.
Proof.
  revert d. induction n as [|n IH]; intros d Hd Hm; rewrite backoff_loop_S, i64_small by lia.
  - change (2 ^ Z.of_nat 1) with 2. cbn [backoff_loop]. destruct (max <=? d * 2) eqn:Hc; lia.
  - rewrite Nat2Z.inj_succ, Z.pow_succ_r by lia. destruct (max <=? d * 2) eqn:Hc.
    + pose proof (Z.pow_pos_nonneg 2 (Z.of_nat (S n)) ltac:(lia) ltac:(lia)). nia.
    + rewrite IH by lia. f_equal. lia.
Qed.

(** The delay before the next retransmission is the base delay for the first one
    and from then on twice the previous delay, capped at the maximum, without
    overflow for bounds below 2^62 nanoseconds (146 years). *)
Theorem retransBackoff_closed_form c att :
  retransmitBase c < 2 ^ 62 → retransmitMax c ≤ 2 ^ 62 →
  retransBackoff c att =
    if att <=? 1 then retransmitBase c else Z.min (retransmitBase c * 2 ^ (att - 1)) (retransmitMax c).
Proof.
  intros Hb Hm. unfold retransBackoff.
  assert (0 < retransmitBase c) by (unfold retransmitBase, Second; case_match; lia).
  assert (0 < retransmitMax c) by (unfold retransmitMax, Second; case_match; lia).
  destruct (att <=? 1) eqn:Ha.
  - replace (Z.to_nat (att - 1)) with O by lia. done.
  - replace (Z.to_nat (att - 1)) with (S (Z.to_nat (att - 2))) by lia.
    rewrite backoff_loop_min by done. do 3 f_equal. lia.
Qed.

(** ** Witnesses *)

(** The demo session after its first liveness probe. *)
Definition demo_probing : Session := (initiateDPD (P:=toy_primitives) false (demo_session Initiator)).1.

Lemma tick_only_retransmits_witness :
  ∃ p s' b, pending demo_probing = Some p ∧ housekeeping (P:=toy_primitives) demo_probing = (s', Ok b) ∧
    messageID s' = 3.
Proof.
  eexists. destruct (tick_only_retransmits (P:=toy_primitives) demo_probing
    match pending demo_probing with Some p => p | None => newPending exDPD 0 [] zeroTime None None false end)
    as (s' & b & Hr & Hid & _); [vm_compute; reflexivity|].
  exists s', b. split; [vm_compute; reflexivity|]. split; [exact Hr|]. by rewrite Hid.
Defined.

Lemma unanswered_request_ends_witness :
  ∃ k s', (k ≤ 100)%nat ∧
    Driver_loop (P:=toy_primitives) (replicate k EvTick) demo_probing = (s', Ok true) ∧ pending s' = None.
Proof.
  destruct (unanswered_request_ends (P:=toy_primitives) 100 demo_probing
    match pending demo_probing with Some p => p | None => newPending exDPD 0 [] zeroTime None None false end)
    as (k & s' & Hk & Hr & Hp); [vm_compute; reflexivity|vm_compute; split; [reflexivity|discriminate]|].
  exists k, s'. auto.
Defined.

Lemma retransBackoff_closed_form_witness : retransBackoff demo_cfg 3 = 8 * Second.
Proof. rewrite (retransBackoff_closed_form demo_cfg 3); vm_compute; done. Defined.
