(* ===== verification/RekeyAgree.v ===== *)
(** * Both ends of a rekey agree

    The initiating half of a rekey (initiate..., complete...) against the answering
    half (handle...Request) of internal/session/rekey.go, for Child SAs: when both
    complete, the data-plane updates mirror each other. *)

From S2P Require Import Prelude IkePayload IkeMsg Crypto IkeSA Suite Natt Protected Session.
From S2P Require Import Rekey Driver Stable Invariant Demo.

#[export] Instance installed_observes : Observes installed.
Proof. by constructor. Qed.

(** ** Reading a successful run *)

Lemma hoare_ok {A} (I : Session → Prop) (m : SM A) Q s s1 a :
  hoare I m Q → I s → m s = (s1, Ok a) → I s1 ∧ Q a.
Proof. intros Hm Hs Hr. specialize (Hm s Hs). rewrite Hr in Hm. exact Hm. Qed.

(** The step [E] did not change what [obs] shows. *)
Ltac kept obs E F :=
  match type of E with
  | ?m ?s = (?s1, Ok ?a) => assert (F : obs s1 = obs s) by (refine (stable_ok obs m s s1 a _ E); stable)
  end.

Section agree.
Context {P : Primitives} {HL : PrimitiveLaws P} {W : World} {HW : WorldLaws W}.

Lemma NewDH_ok g s s1 d : NewDH g s = (s1, Ok d) → ∃ r, dh_random_ok r ∧ newDH g r = Ok d.
Proof using HW.
  unfold NewDH. intros H. run_step H n s2 H1. apply lift_ok in H as [_ H]. apply wrap_err_ok in H.
  exists (w_dh n g). split; [apply dh_ok|done].
Qed.

Lemma orTemporaryFailure_ok {A} dec id v (c : SM A) s s1 a :
  orTemporaryFailure dec id v c s = (s1, Ok a) → c s = (s1, Ok a).
Proof.
  unfold orTemporaryFailure. rewrite st_attempt. destruct (c s) as [s2 [b|e| |]]; try done.
  intros H. run_step H u s3 H1. done.
Qed.

Lemma answerKE_ok dec id v g data s s1 d sh :
  answerKE dec id v g data s = (s1, Ok (d, sh)) →
  ∃ r, dh_random_ok r ∧ newDH g r = Ok d ∧ shared d data = Ok sh.
Proof using HW.
  unfold answerKE. intros H. run_step H d' s2 H1. apply orTemporaryFailure_ok in H1.
  destruct (wrap_err ErrIke (shared d' data)) as [sh'|e| |] eqn:Hs; [|run_step H u s3 H2; done|done..].
  injection H as <- <- <-. apply wrap_err_ok in Hs. destruct (NewDH_ok _ _ _ _ H1) as (r & ? & ?). eauto.
Qed.

Lemma encodeSKAt_ok c ex fl id inner s s1 raw :
  encodeSKAt c ex fl id inner s = (s1, Ok raw) →
  ∃ iv ike0 ike1, sas s !! c_sa c = Some ike0 ∧
    encodeSKWith (c_spii c) (c_spir c) ex fl id inner iv ike0 = (ike1, Ok raw).
Proof.
  unfold encodeSKAt. rewrite st_attempt. unfold randBytes, tick. st_step. intros H.
  exists (w_rand (calls s) 16).
  assert (Hon : ∃ iv s2, iv = w_rand (calls s) 16 ∧ sas s2 = sas s ∧
    on_sa (c_sa c) (encodeSKWith (c_spii c) (c_spir c) ex fl id inner iv) s2 = (s1, Ok raw)).
  { destruct (w_rand (calls s) 16); eexists _, _; (split; [done|]); (split; [|exact H]); done. }
  destruct Hon as (iv & s2 & <- & Hs & Ho). unfold on_sa in Ho. run_step Ho ike s3 H1.
  unfold load in H1. rewrite st_get, Hs in H1. apply lift_ok in H1 as [-> H1].
  destruct (sas s !! c_sa c) as [ike0|]; [|done]. injection H1 as ->.
  destruct (encodeSKWith _ _ _ _ _ _ _ ike) as [ike1 r] eqn:He.
  rewrite st_modify in Ho. apply lift_ok in Ho as [_ ->]. eauto.
Qed.

(** What the answering end derives from the peer's key exchange. *)
Definition answered_ke (ke : option (Z * bytes)) (dsh : option (DH * bytes)) : Prop :=
  match ke, dsh with
  | None, None => True
  | Some (g, data), Some (d, sh) => ∃ r, dh_random_ok r ∧ newDH g r = Ok d ∧ shared d data = Ok sh
  | _, _ => False
  end.

Lemma stable_answerPFS {X} (obs : Session → X) {HO : Observes obs} dec id v ke :
  stable obs (answerPFS dec id v ke).
Proof. unfold answerPFS. stable. Qed.
#[local] Hint Resolve stable_answerPFS : stable.

Lemma answerPFS_ok dec id v ke s s1 dsh :
  answerPFS dec id v ke s = (s1, Ok dsh) → answered_ke ke dsh.
Proof using HW.
  unfold answerPFS. destruct ke as [[g data]|]; [|by intros [= _ <-]].
  intros H. run_step H x s2 H1. injection H as _ <-. destruct x as [d sh]. by eapply answerKE_ok.
Qed.

(** ** Child SA rekey *)

(** [raw] is [resp], protected with the keys of the SA [dec] names in [s]. *)
Definition sealed_as (s : Session) (dec : ikeCtx) (id : Z) (resp : Payloads) (raw : bytes) : Prop :=
  ∃ ike ike0 ike1 bit iv, sas s !! c_sa dec = Some ike ∧ same_keys ike ike0 ∧
    encodeSKWith (c_spii dec) (c_spir dec) ExchangeCreateChildSA (Z.lor bit FlagResponse) id resp iv ike0 =
      (ike1, Ok raw).

Lemma inv_lookup k s0 s i ike :
  inv k s0 s → sas s0 !! i = Some ike → ∃ ike', sas s !! i = Some ike' ∧ same_keys ike ike'.
Proof. intros [_ Hev] Hi. by apply (ev_sas _ _ _ Hev). Qed.

Lemma sealed_at k s0 s dec id resp bit s1 raw :
  inv k s0 s → ctx_ok (sas s0) dec →
  encodeSKAt dec ExchangeCreateChildSA (Z.lor bit FlagResponse) id resp s = (s1, Ok raw) →
  sealed_as s0 dec id resp raw.
Proof.
  intros Hi (ike & Hl & _) He. destruct (encodeSKAt_ok _ _ _ _ _ _ _ _ He) as (iv & ike0 & ike1 & H0 & H1).
  destruct (inv_lookup _ _ _ _ _ Hi Hl) as (ike' & Hl' & Hk). exists ike, ike0, ike1, bit, iv.
  split_and!; [done|congruence|done].
Qed.

Lemma deriveChildKeys_SKd ike ike' sh ni nr e i :
  SKd ike = SKd ike' → deriveChildKeys ike sh ni nr e i = deriveChildKeys ike' sh ni nr e i.
Proof. intros Hk. unfold deriveChildKeys. by rewrite Hk. Qed.

Lemma deriveChildKeys_same ike ike' sh ni nr e i :
  same_keys ike ike' → deriveChildKeys ike' sh ni nr e i = deriveChildKeys ike sh ni nr e i.
Proof. intros [n ->]. by apply deriveChildKeys_SKd. Qed.

Definition dsh_secret (dsh : option (DH * bytes)) : bytes :=
  match dsh with Some (_, sh) => sh | None => [] end.

(** What the answering end did, when it completed. *)
Record child_answered (s s' : Session) (dec : ikeCtx) (id : Z) (viaOld : bool) (prop : Proposal)
    (suite : transformSuite) (ni : bytes) (ke : option (Z * bytes)) (tsi tsr : list TrafficSelector)
    (resp : Payloads) (uR : ChildSAUpdate) : Prop := {
  ca_state : ∃ ike dsh newSPI nr raw keys, sas s !! c_sa dec = Some ike ∧ answered_ke ke dsh ∧
    (len newSPI = 4 ∧ Uint32 newSPI = Ok (E:=sess_error) (NewInSPI uR)) ∧ len nr = nonceLen ∧
    Uint32 (pr_SPI prop) = Ok (E:=sess_error) (NewOutSPI uR) ∧ up_Suite uR = su_id suite ∧
    resp = childRekeyAnswer (cfg s) (pr_Number prop) suite newSPI nr (fst <$> dsh) tsi tsr ∧
    deriveChildKeys ike (dsh_secret dsh) ni nr (su_encrKeyLen suite) (su_integKeyLen suite) = Ok keys ∧
    (OutEncr uR = EncrRI keys ∧ OutInteg uR = IntegRI keys ∧ InEncr uR = EncrIR keys ∧
     InInteg uR = IntegIR keys) ∧
    sealed_as s dec id resp raw ∧ pd_resp (if viaOld then oldPeer s' else peer s') = Some raw;
  ca_installed : installed s' = installed s ++ [uR];
}.

Lemma sendDatagram_peers raw s s' u :
  sendDatagram raw s = (s', Ok u) → peer s' = peer s ∧ oldPeer s' = oldPeer s.
Proof. unfold sendDatagram, tick. st_step. by destruct (w_send _); intros [= <-]. Qed.

Lemma commitChildAnswer_ok id viaOld ch suite outSPI newSPI keys d raw s s' :
  commitChildAnswer id viaOld ch suite outSPI newSPI keys d raw s = (s', Ok tt) →
  ∃ newIn, Uint32 newSPI = Ok (E:=sess_error) newIn ∧
    installed s' = installed s ++
      [{| NewInSPI := newIn; NewOutSPI := outSPI; OldInSPI := ch_InitiatorSPI ch;
          up_Suite := su_id suite; OutEncr := EncrRI keys; OutInteg := IntegRI keys;
          InEncr := EncrIR keys; InInteg := IntegIR keys |}] ∧
    pd_resp (if viaOld then oldPeer s' else peer s') = Some raw.
Proof.
  unfold commitChildAnswer. rewrite st_get. intros H. run_step H u1 s1 E1.
  assert (F1 : installed s1 = installed s).
  { destruct d as [d|]; [run_step E1 u s7 E; injection E as <- _|]; by injection E1 as <- _. }
  run_step H newIn s2 E2. apply lift_ok in E2 as [-> E2].
  run_step H u2 s2 E3. unfold InstallChildSA in E3. rewrite st_get in E3.
  destruct (dataPlane s1); [|done]. injection E3 as <- _.
  run_step H u3 s3 E4. injection E4 as <- _.
  run_step H t s4 E5. kept installed E5 F4. run_step H u4 s5 E6. injection E6 as <- _.
  run_step H dl s6 E7. kept installed E7 F6. run_step H u5 s7 E8. injection E8 as <- _.
  run_step H u6 s8 E9. kept installed H F8. kept installed E9 F9.
  apply sendDatagram_peers in H as [Hp Ho]. exists newIn. split; [done|]. split.
  - rewrite F8, F9. cbn in F6, F4 |- *. by rewrite F6, F4, F1.
  - destruct viaOld; [rewrite Ho|rewrite Hp]; unfold recordPeerResponse in E9; by injection E9 as <- _.
Qed.

#[local] Opaque deriveChildKeys encodeSKWith.

Lemma answerChildRekey_ok id dec viaOld prop suite ni ke tsi tsr ch s s' :
  session_ok s → ctx_ok (sas s) dec →
  answerChildRekey id dec viaOld prop suite ni ke tsi tsr ch s = (s', Ok tt) →
  ∃ resp uR, child_answered s s' dec id viaOld prop suite ni ke tsi tsr resp uR.
Proof using HL HW.
  intros Hok Hdec H. pose proof (inv_refl false s Hok) as H0.
  unfold answerChildRekey in H. rewrite st_get in H.
  run_step H outSPI s1 E1. apply lift_ok in E1 as [-> E1].
  run_step H dsh s1 E2. destruct (hoare_ok _ _ _ _ _ _ (hoare_answerPFS false s _ _ _ _ Hdec) H0 E2) as [I1 _].
  kept installed E2 F1.
  apply answerPFS_ok in E2.
  run_step H newSPI s2 E3.
  destruct (hoare_ok _ _ _ _ _ _ (hoare_orTemporaryFailure false s _ id viaOld _ _ Hdec (hoare_randBytes false s 4 ltac:(lia))) I1 E3) as [I2 [L2 _]].
  kept installed E3 F2.
  run_step H nr s3 E4.
  destruct (hoare_ok _ _ _ _ _ _ (hoare_orTemporaryFailure false s _ id viaOld _ _ Hdec (hoare_randBytes false s nonceLen ltac:(unfold nonceLen; lia))) I2 E4) as [I3 [L3 _]].
  kept installed E4 F3.
  cbv zeta in H. run_step H bit s4 E5.
  destruct (hoare_ok _ _ _ _ _ _ (hoare_roleBit false s _ Hdec) I3 E5) as [I4 _].
  kept installed E5 F4.
  run_step H raw s5 E6.
  destruct (hoare_ok _ _ _ _ _ _ (hoare_encodeSKAt false s _ _ _ _ _ Hdec) I4 E6) as [I5 _].
  kept installed E6 F5.
  pose proof (sealed_at _ _ _ _ _ _ _ _ _ I4 Hdec E6) as Hseal.
  run_step H ike s6 E7. unfold load in E7. rewrite st_get in E7. apply lift_ok in E7 as [-> E7].
  run_step H keys s6 E8. apply lift_ok in E8 as [-> E8]. apply wrap_err_ok in E8.
  destruct (commitChildAnswer_ok _ _ _ _ _ _ _ _ _ _ _ H) as (newIn & Hin & Hinst & Hpeer).
  destruct Hdec as (ike0 & Hl & _). destruct (inv_lookup _ _ _ _ _ I5 Hl) as (ike' & Hl' & Hk).
  rewrite Hl' in E7. injection E7 as <-.
  exists (childRekeyAnswer (cfg s) (pr_Number prop) suite newSPI nr (fst <$> dsh) tsi tsr). eexists.
  constructor; [|rewrite Hinst, F5, F4, F3, F2, F1; reflexivity].
  exists ike0, dsh, newSPI, nr, raw, keys.
  cbn [NewInSPI NewOutSPI up_Suite OutEncr OutInteg InEncr InInteg].
  rewrite <- (deriveChildKeys_same _ _ _ _ _ _ _ Hk).
  assert (E8' : deriveChildKeys ike' (dsh_secret dsh) ni nr (su_encrKeyLen suite) (su_integKeyLen suite) = Ok keys)
    by (unfold DeriveChildKeysPFS, DeriveChildKeys in E8; by destruct dsh as [[d sh]|]).
  split_and!; try assumption; reflexivity.
Qed.

Lemma installed_sendChildDelete spi : stable installed (sendChildDelete spi).
Proof. unfold sendChildDelete, nextMessageID. stable. Qed.
#[local] Hint Resolve installed_sendChildDelete : stable.

(** What the initiating end did, when it completed. *)
Lemma completeChildRekey_ok inner p s s' :
  completeChildRekey inner p s = (s', Ok tt) →
  ∃ prop suite nr ke outSPI cc cur ike keys,
    childRekeyResponse (cfg s) inner = Ok (prop, suite, nr, ke) ∧
    Uint32 (pr_SPI prop) = Ok (E:=sess_error) outSPI ∧ px_child p = Some cc ∧
    (ikeSA s = Some cur ∧ sas s !! cur = Some ike) ∧
    completeChildKeys ike cc prop suite nr ke = Ok keys ∧
    installed s' = installed s ++
      [{| NewInSPI := cr_newInSPI cc; NewOutSPI := outSPI; OldInSPI := cr_oldInSPI cc;
          up_Suite := su_id suite; OutEncr := EncrIR keys; OutInteg := IntegIR keys;
          InEncr := EncrRI keys; InInteg := IntegRI keys |}].
Proof.
  unfold completeChildRekey. rewrite st_get. intros H.
  run_step H x s1 E1. apply lift_ok in E1 as [-> E1]. destruct x as [[[prop suite] nr] ke].
  run_step H outSPI s1 E2. apply lift_ok in E2 as [-> E2].
  run_step H cc s1 E3. apply lift_ok in E3 as [-> E3].
  run_step H cur s1 E4. unfold current in E4. rewrite st_get in E4. apply lift_ok in E4 as [-> E4].
  run_step H ike s1 E5. unfold load in E5. rewrite st_get in E5. apply lift_ok in E5 as [-> E5].
  run_step H keys s1 E6. apply lift_ok in E6 as [-> E6].
  run_step H u s1 E7. unfold InstallChildSA in E7. rewrite st_get in E7.
  destruct (dataPlane s); [|done]. injection E7 as <- _.
  exists prop, suite, nr, ke, outSPI, cc, cur, ike, keys.
  destruct (px_child p); [|done]. destruct (ikeSA s); [|done].
  cbn [deref] in E3, E4. injection E3 as ->. injection E4 as ->.
  destruct (sas s !! cur); [|done]. injection E5 as ->. split_and!; try done.
  kept installed H F. rewrite F. reflexivity.
Qed.

(** *** The payloads survive the trip *)

Definition ke_of (d : option DH) : option (Z * bytes) := (λ d, (dh_Group d, dh_Public d)) <$> d.
Definition groups_of (d : option DH) : list Z := match d with Some d => [dh_Group d] | None => [] end.

Lemma offer_request c re old spi ni d :
  len ni = nonceLen →
  ∃ tsi tsr, childRekeyRequestPayloads (childRekeyOffer c re old spi ni d) =
    Ok (buildProposals spi (enabledESPSuites c) (groups_of d), ni, ke_of d, tsi, tsr).
Proof.
  intros Hni. unfold childRekeyRequestPayloads, childRekeyOffer, appendTrafficSelectors.
  destruct re, d as [d|]; cbn; rewrite Hni; eauto.
Qed.

Lemma answer_collected cR number suite newSPI nr d tsi tsr :
  ∃ tsi' tsr', collect_checked noRekeyPayloads (childRekeyAnswer cR number suite newSPI nr d tsi tsr) =
    Ok {| rp_sa := Some [buildProposalForSuite number suite newSPI (groups_of d)];
          rp_nonce := nr; rp_ke := ke_of d; rp_tsi := tsi'; rp_tsr := tsr' |}.
Proof.
  unfold childRekeyAnswer, appendTrafficSelectors.
  destruct d as [d|], ((len tsi >? 0) && (len tsr >? 0)); cbn; eauto.
Qed.

Lemma answer_response c cR number suite newSPI nr d tsi tsr :
  let prop := buildProposalForSuite number suite newSPI (groups_of d) in
  selectedSuite prop (enabledESPSuites c) = Some suite → len newSPI = 4 → len nr = nonceLen →
  childRekeyResponse c (childRekeyAnswer cR number suite newSPI nr d tsi tsr) =
    Ok (prop, suite, nr, ke_of d).
Proof.
  intros prop Hsel Hspi Hnr. unfold childRekeyResponse.
  destruct (answer_collected cR number suite newSPI nr d tsi tsr) as (tsi' & tsr' & ->).
  cbn [mbind Res_bind rp_sa rp_nonce rp_ke]. fold prop. rewrite Hsel.
  cbn [prop buildProposalForSuite pr_SPI]. by rewrite Hspi, Hnr.
Qed.

(** The selection of the answering end, read back by the initiating one. *)
Lemma offer_selected l spi configured configuredR d g prop suite :
  (g = 0 ∨ g ∈ groups_of d) → len spi = match l with LayerESP => 4 | LayerIKE => 8 end →
  selectProposal (buildProposals spi (enabledSuites configured (table_of l)) (groups_of d))
    (enabledSuites configuredR (table_of l)) g = Some (prop, suite) →
  suite ∈ table_of l ∧ suite ∈ enabledSuites configured (table_of l) ∧ pr_SPI prop = spi ∧
  ∀ n spi' d', selectedSuite (buildProposalForSuite n suite spi' (groups_of d'))
                 (enabledSuites configured (table_of l)) = Some suite.
Proof.
  intros Hg Hspi Hsel.
  pose proof (selectProposal_spec (buildProposals spi (enabledSuites configured (table_of l)) (groups_of d))
    (enabledSuites configuredR (table_of l)) g) as H. rewrite Hsel in H.
  destruct H as (Hp & Hacc & before & after & Hen & _).
  apply elem_of_buildProposals in Hp as (n & s' & _ & Hs' & ->).
  assert (Hs : suite ∈ table_of l).
  { apply (enabledSuites_sub configuredR). rewrite Hen. apply elem_of_app. right. apply list_elem_of_here. }
  pose proof (enabledSuites_sub _ _ _ Hs') as Ht. destruct (suite_lens l s' Ht) as (_ & _ & Hl).
  rewrite (acceptable_built l) in Hacc by (try done; congruence).
  apply bool_decide_eq_true in Hacc as <-. split_and!; try done.
  intros n' spi' d'. apply (selectedSuite_built l); [done..| |by destruct d'].
  intros s0 Hs0. by eapply enabledSuites_sub.
Qed.

(** A key pair made by NewDH. *)
Definition own_dh (d : DH) : Prop := ∃ r, dh_random_ok r ∧ newDH (dh_Group d) r = Ok d.

Lemma completeChildKeys_agree ikeI ikeR cc prop suite nr dsh keysI keysR :
  SKd ikeI = SKd ikeR → (∀ d, cr_dh cc = Some d → own_dh d) → answered_ke (ke_of (cr_dh cc)) dsh →
  completeChildKeys ikeI cc prop suite nr (ke_of (fst <$> dsh)) = Ok keysI →
  deriveChildKeys ikeR (dsh_secret dsh) (cr_ni cc) nr (su_encrKeyLen suite) (su_integKeyLen suite) = Ok keysR →
  keysI = keysR.
Proof using HL.
  intros Hk Hown Hans HI HR. unfold completeChildKeys in HI.
  pose proof (λ sh, deriveChildKeys_SKd ikeI ikeR sh (cr_ni cc) nr (su_encrKeyLen suite)
    (su_integKeyLen suite) Hk) as Hsk.
  destruct (cr_dh cc) as [dI|], dsh as [[dR sh]|]; cbn in Hans; [|done..|].
  - destruct Hans as (rR & HrR & HdR & HsR). destruct (Hown dI eq_refl) as (rI & HrI & HdI).
    cbn [ke_of fmap option_fmap option_map fst] in HI. destruct (negb _); [done|].
    destruct (shared dI (dh_Public dR)) as [shI|e| |] eqn:HsI; [|done..].
    destruct (dh_agree _ rI rR dI dR shI sh HrI HrR HdI HdR HsI HsR) as [-> _].
    cbn [wrap_err mbind Res_bind] in HI. apply wrap_err_ok in HI. unfold DeriveChildKeysPFS in HI.
    rewrite Hsk in HI. cbn [dsh_secret] in HR. congruence.
  - cbn [ke_of fmap option_fmap option_map bool_decide andb] in HI. apply wrap_err_ok in HI.
    unfold DeriveChildKeys in HI. rewrite Hsk in HI. cbn [dsh_secret] in HR. congruence.
Qed.

(** What one end sends with, the other receives with. *)
Definition mirrors (uI uR : ChildSAUpdate) : Prop :=
  NewInSPI uI = NewOutSPI uR ∧ NewOutSPI uI = NewInSPI uR ∧ up_Suite uI = up_Suite uR ∧
  OutEncr uI = InEncr uR ∧ OutInteg uI = InInteg uR ∧ InEncr uI = OutEncr uR ∧ InInteg uI = OutInteg uR.

(** The answering end, on the request the initiating end sends. *)
Lemma handleChildRekeyRequest_ok c re old newSPI ni d hdr dec viaOld s s' :
  session_ok s → ctx_ok (sas s) dec → len newSPI = 4 → len ni = nonceLen →
  handleChildRekeyRequest hdr (childRekeyOffer c re old newSPI ni d) dec viaOld s = (s', Ok tt) →
  installed s' ≠ installed s →
  ∃ prop suite tsi tsr resp uR,
    pr_SPI prop = newSPI ∧ suite ∈ espSuites ∧
    (∀ n spi' d', selectedSuite (buildProposalForSuite n suite spi' (groups_of d'))
                    (enabledESPSuites c) = Some suite) ∧
    child_answered s s' dec (m_MessageID hdr) viaOld prop suite ni (ke_of d) tsi tsr resp uR.
Proof using HL HW.
  intros Hok Hdec Hspi Hni H Hinst. unfold handleChildRekeyRequest in H. cbv zeta in H. rewrite st_get in H.
  destruct (child s) as [ch|]; [|run_step H u s1 E; done].
  destruct (offer_request c re old newSPI ni d Hni) as (tsi & tsr & Hreq). rewrite Hreq in H.
  assert (Hno : ∀ p t dt, sendNotifyResponse dec (m_MessageID hdr) viaOld p t dt s = (s', Ok tt) → False).
  { intros p t dt Hs. apply Hinst. by kept installed Hs F. }
  destruct (match ke_of d with Some (g, _) => _ | None => _ end); [by destruct (Hno _ _ _ H)|].
  destruct (selectProposal _ _ _) as [[prop suite]|] eqn:Hsel.
  - destruct (offer_selected LayerESP newSPI (ESPSuites c) (ESPSuites (cfg s)) d
      (match ke_of d with Some (g, _) => g | None => 0 end) prop suite) as (Hs & _ & Hp & Hback);
      [by destruct d as [d|]; [right; apply list_elem_of_here|left]|done|exact Hsel|].
    destruct (answerChildRekey_ok _ _ _ _ _ _ _ _ _ _ _ _ Hok Hdec H) as (resp & uR & Ha).
    exists prop, suite, tsi, tsr, resp, uR. auto.
  - destruct (_ && _); [by destruct (Hno _ _ _ H)|]. run_step H u s1 E. done.
Qed.

(** C4. Rekeying a Child SA, with or without a fresh key exchange.  When the peer has
    answered our CREATE_CHILD_SA request by installing a new Child SA, the response it
    caches is the protected form of payloads with which completing the exchange, once
    it succeeds, installs the mirror image at our end: the same suite, each end's
    inbound SPI the other's outbound one, and each end's sending keys the other's
    receiving keys.  It holds for every configuration of enabled suites on either end. *)
Theorem child_rekey_agrees sI p cc newSPI sR hdr dec viaOld sR' :
  session_ok sR → ctx_ok (sas sR) dec →
  px_child p = Some cc → len newSPI = 4 → Uint32 newSPI = Ok (E:=sess_error) (cr_newInSPI cc) →
  len (cr_ni cc) = nonceLen → (∀ d, cr_dh cc = Some d → own_dh d) →
  (∀ cur ikeI ikeR, ikeSA sI = Some cur → sas sI !! cur = Some ikeI → sas sR !! c_sa dec = Some ikeR →
     SKd ikeI = SKd ikeR) →
  handleChildRekeyRequest hdr
    (childRekeyOffer (cfg sI) (cr_reestablish cc) (cr_oldInSPI cc) newSPI (cr_ni cc) (cr_dh cc))
    dec viaOld sR = (sR', Ok tt) →
  installed sR' ≠ installed sR →
  ∃ resp raw uR, installed sR' = installed sR ++ [uR] ∧
    pd_resp (if viaOld then oldPeer sR' else peer sR') = Some raw ∧
    sealed_as sR dec (m_MessageID hdr) resp raw ∧
    ∀ sI', completeChildRekey resp p sI = (sI', Ok tt) →
      ∃ uI, installed sI' = installed sI ++ [uI] ∧ mirrors uI uR.
Proof using HL HW.
  intros Hok Hdec Hcc Hspi HinI Hni Hown Hsk Hans Hinst.
  destruct (handleChildRekeyRequest_ok _ _ _ _ _ _ _ _ _ _ _ Hok Hdec Hspi Hni Hans Hinst)
    as (prop & suite & tsi & tsr & resp & uR & Hp & _ & Hback & [Hst HinR]).
  destruct Hst as (ikeR & dsh & newR & nr & raw & keysR & Hl & Hke & (HlR & HnR) & Hnr & Hout & Hsu & Hresp
    & HkR & (K1 & K2 & K3 & K4) & Hseal & Hpd).
  exists resp, raw, uR. split_and!; try done. intros sI' Hc.
  destruct (completeChildRekey_ok _ _ _ _ Hc)
    as (prop' & suite' & nr' & ke' & outI & cc' & cur & ikeI & keysI & Hr & Ho & Hcc' & (Hcur & HlI) & HkI & HinI').
  rewrite Hcc in Hcc'. injection Hcc' as <-.
  rewrite Hresp, answer_response in Hr by auto. injection Hr as <- <- <- <-.
  assert (keysI = keysR) as ->.
  { eapply completeChildKeys_agree; [by eapply Hsk|exact Hown|exact Hke|exact HkI|exact HkR]. }
  eexists. split; [exact HinI'|]. rewrite Hp, HinI in Hout. injection Hout as Hout.
  cbn [buildProposalForSuite pr_SPI] in Ho. rewrite HnR in Ho. injection Ho as Ho.
  unfold mirrors. cbn [NewInSPI NewOutSPI up_Suite OutEncr OutInteg InEncr InInteg]. split_and!; congruence.
Qed.
End agree.

(** ** Witness *)

(** A rekey with a fresh key exchange between the two ends of the demo SA. *)
Definition demo_cc : childRekeyCtx :=
  {| cr_newInSPI := 0x01020304; cr_oldInSPI := 17; cr_ni := replicate 32 3; cr_reestablish := false;
     cr_dh := Some demo_dh |}.
Definition demo_child_pending : pendingExchange :=
  newPending exChildRekey 2 [] zeroTime (Some demo_cc) None false.

Lemma child_rekey_agrees_witness :
  ∃ sR' resp raw uR, installed sR' = [uR] ∧
    sealed_as (P:=toy_primitives) (demo_session Responder) demo_dec 2 resp raw ∧
    ∀ sI', completeChildRekey (P:=toy_primitives) resp demo_child_pending (demo_session Initiator) = (sI', Ok tt) →
      ∃ uI, installed sI' = [uI] ∧ mirrors uI uR.
Proof.
  eexists. edestruct (child_rekey_agrees (HL:=toy_laws) (demo_session Initiator) demo_child_pending demo_cc
      [1; 2; 3; 4] (demo_session Responder) demo_hdr demo_dec false)
    as (resp & raw & uR & H1 & _ & H3 & H4).
  - apply demo_ok.
  - apply demo_dec_ok.
  - reflexivity.
  - reflexivity.
  - reflexivity.
  - reflexivity.
  - intros d [= <-]. exists (RandKey (replicate 32 7)). split; [exact I|vm_compute; reflexivity].
  - apply demo_SKd.
  - vm_compute. reflexivity.
  - vm_compute. discriminate.
  - exists resp, raw, uR. split; [exact H1|]. split; [exact H3|exact H4].
Defined.

(** The whole exchange over the wire: request, answer, completion. *)
Definition last_sent (s : Session) : bytes := drop 4 (last (sent s) []).

Example demo_child_rekey_runs :
  let sI := (initiateChildRekey (P:=toy_primitives) false (demo_session Initiator)).1 in
  let sR := (handleInbound (P:=toy_primitives) (last_sent sI) (demo_session Responder)).1 in
  let sI' := (handleInbound (P:=toy_primitives) (last_sent sR) sI).1 in
  ∃ uI uR, installed sI' = [uI] ∧ installed sR = [uR] ∧ mirrors uI uR.
Proof. eexists _, _. split; [vm_compute; reflexivity|]. split; [vm_compute; reflexivity|]. vm_compute. auto 10. Qed.
