(* ===== verification/IkeRekeyAgree.v ===== *)
(** * Both ends of an IKE SA rekey agree

    The IKE SA half of internal/session/rekey.go: after the peer has answered our
    rekey and we have completed it, the two ends hold IKE SAs that open what the
    other one protects, under the same SPIs. *)

From S2P Require Import Prelude IkePayload IkeMsg Crypto IkeSA Suite Natt Protected Session.
From S2P Require Import Rekey Driver Stable Invariant Demo RekeyAgree.

(** The session's SA is [ike], but for its sequence number, under these SPIs. *)
Definition uses (s : Session) (ike : IKESA) (spii spir : Z) : Prop :=
  ∃ np ike', ikeSA s = Some np ∧ sas s !! np = Some ike' ∧ same_keys ike ike' ∧
    initiatorSPI s = spii ∧ responderSPI s = spir.

(** [m] reads the environment and nothing else. *)
Definition calls_only {A} (m : SM A) : Prop :=
  ∀ s, safe (m s).2 → ∃ n, (m s).1 = set_calls n s.

Lemma calls_only_ok {A} (m : SM A) s s1 a : calls_only m → m s = (s1, Ok a) → ∃ n, s1 = set_calls n s.
Proof. intros Hm Hr. specialize (Hm s). rewrite Hr in Hm. by apply Hm. Qed.

#[export] Instance ikeSA_observes : Observes ikeSA.
Proof. by constructor. Qed.

Section agree.
Context {P : Primitives} {HL : PrimitiveLaws P} {W : World} {HW : WorldLaws W}.

Lemma calls_only_jitteredDeadline b l : calls_only (jitteredDeadline b l).
Proof.
  intros s. unfold jitteredDeadline, randFraction, randBytes, tick.
  assert (Hid : ∃ n, s = set_calls n s) by (exists (calls s); by destruct s).
  destruct (l <=? 0); [done|]. rewrite st_assoc, st_attempt. st_step.
  destruct (w_rand (calls s) 2) as [b'|]; [|by exists (S (calls s))].
  rewrite st_mret_end, !st_assoc, st_lift. destruct (index b' 0); try done; [|by exists (S (calls s))].
  rewrite st_assoc, st_lift. destruct (index b' 1); try done; by exists (S (calls s)).
Qed.

Lemma swapIKE_ok np i r s s' u :
  swapIKE np i r s = (s', Ok u) →
  ikeSA s' = Some np ∧ initiatorSPI s' = i ∧ responderSPI s' = r ∧ sas s' = sas s ∧ oldPeer s' = peer s.
Proof.
  unfold swapIKE, current, now, tick. st_step. destruct (ikeSA s); [|done]. cbn [deref]. st_step.
  intros H. run_step H dl s1 E. destruct (calls_only_ok _ _ _ _ (calls_only_jitteredDeadline _ _) E) as (m & ->).
  rewrite st_modify in H. injection H as <-. done.
Qed.

Lemma alloc_ok ike s s' np :
  alloc ike s = (s', Ok np) → s' = set_sas (sas s ++ [ike]) s ∧ np = length (sas s).
Proof. by intros [= <- <-]. Qed.

Lemma sendDatagram_uses raw s s' u ike i r :
  sendDatagram raw s = (s', Ok u) → uses s ike i r → uses s' ike i r.
Proof. unfold sendDatagram, tick. st_step. by destruct (w_send _); intros [= <-]. Qed.

(** The cutover of the answering end, with the response already encoded. *)
Lemma cutover_ok id raw np i r g s s' ike ike' :
  (_ ← recordPeerResponse false id raw; _ ← swapIKE np i r; _ ← modifyS (set_ikeDHGroup g);
   sendDatagram raw) s = (s', Ok tt) →
  sas s !! np = Some ike' → same_keys ike ike' →
  uses s' ike i r ∧ pd_resp (oldPeer s') = Some raw.
Proof.
  intros H Hnp Hk. unfold recordPeerResponse in H. rewrite st_modify in H.
  run_step H u s1 E. apply swapIKE_ok in E as (E1 & E2 & E3 & E4 & E5). rewrite st_modify in H.
  split.
  - eapply sendDatagram_uses; [exact H|]. exists np, ike'. cbn. rewrite E4. auto.
  - apply sendDatagram_peers in H as [_ ->]. cbn. by rewrite E5.
Qed.

#[local] Opaque DeriveRekeyIKE encodeSKWith.

Lemma answerIKERekey_ok id dec prop suite ni group kei s s' :
  session_ok s → ctx_ok (sas s) dec →
  answerIKERekey id dec prop suite ni group kei s = (s', Ok tt) →
  ∃ ike rnd d sh spii spir nr new raw,
    sas s !! c_sa dec = Some ike ∧ (dh_random_ok rnd ∧ newDH group rnd = Ok d ∧ shared d kei = Ok sh) ∧
    Uint64 (pr_SPI prop) = Ok (E:=sess_error) spii ∧ is_u64 spir ∧ len nr = nonceLen ∧
    DeriveRekeyIKE (su_id suite) (SKd ike) Responder spii spir ni nr sh = Ok new ∧
    uses s' new spii spir ∧
    sealed_as s dec id (ikeRekeyAnswer (pr_Number prop) suite spir nr d) raw ∧
    pd_resp (oldPeer s') = Some raw.
Proof using HL HW.
  intros Hok Hdec H. pose proof (inv_refl false s Hok) as H0. unfold answerIKERekey in H.
  run_step H spii s1 E1. apply lift_ok in E1 as [-> E1].
  run_step H x s1 E2. destruct x as [d sh].
  destruct (hoare_ok _ _ _ _ _ _ (hoare_answerKE false s _ _ _ _ _ Hdec) H0 E2) as [I1 _].
  apply answerKE_ok in E2 as (rnd & Hrnd).
  run_step H spir s2 E3.
  destruct (hoare_ok _ _ _ _ _ _ (hoare_orTemporaryFailure false s _ id false _ _ Hdec (hoare_randUint64 false s)) I1 E3) as [I2 L2].
  run_step H nr s3 E4.
  destruct (hoare_ok _ _ _ _ _ _ (hoare_orTemporaryFailure false s _ id false _ _ Hdec
    (hoare_randBytes false s nonceLen ltac:(unfold nonceLen; lia))) I2 E4) as [I3 [L3 _]].
  run_step H ike s4 E5. unfold load in E5. rewrite st_get in E5. apply lift_ok in E5 as [-> E5].
  run_step H new s4 E6. apply orTemporaryFailure_ok, lift_ok in E6 as [-> E6]. apply wrap_err_ok in E6.
  run_step H np s4 E7. apply alloc_ok in E7 as [-> ->].
  assert (Hnew : ike_ok new).
  { pose proof (DeriveRekeyIKE_ok (su_id suite) (SKd ike) Responder spii spir ni nr sh) as Hy.
    rewrite E6 in Hy. apply Hy. }
  pose proof (inv_alloc false s s3 new I3 Hnew) as I4. set (s4 := set_sas (sas s3 ++ [new]) s3) in *.
  assert (Hdec4 : ctx_ok (sas s4) dec) by (eapply ctx_ok_extend; [apply I4|done]).
  pose proof (inv_refl false s4 (proj1 I4)) as J4. cbv zeta in H.
  run_step H bit s5 E8. destruct (hoare_ok _ _ _ _ _ _ (hoare_roleBit false s4 _ Hdec4) J4 E8) as [I5 _].
  run_step H raw s6 E9. apply orTemporaryFailure_ok in E9.
  destruct (hoare_ok _ _ _ _ _ _ (hoare_encodeSKAt false s4 _ _ _ _ _ Hdec4) I5 E9) as [I6 _].
  pose proof (sealed_at _ _ _ _ _ _ _ _ _ (inv_trans _ _ _ _ I4 I5) Hdec E9) as Hseal.
  destruct (inv_lookup _ _ _ (length (sas s3)) new I6) as (new' & Hl' & Hk');
    [by apply list_lookup_middle|].
  destruct (cutover_ok _ _ _ _ _ _ _ _ new _ H Hl' Hk') as [Huses Hpd].
  destruct Hdec as (ike0 & Hl & _). destruct (inv_lookup _ _ _ _ _ I3 Hl) as (ike1 & Hl1 & [n ->]).
  rewrite Hl1 in E5. injection E5 as <-.
  exists ike0, rnd, d, sh, spii, spir, nr, new, raw. split_and!; try done; apply Hrnd.
Qed.

Lemma completeIKERekey_ok inner p s s' :
  session_ok s → completeIKERekey inner p s = (s', Ok tt) →
  ∃ prop rest suite nr kd spir ic sh cur ike new,
    ikeRekeyPayloads inner = Ok (prop :: rest, nr, (dh_Group (ir_dh ic), kd)) ∧
    selectedSuite prop (enabledIKESuites (cfg s)) = Some suite ∧
    Uint64 (pr_SPI prop) = Ok (E:=sess_error) spir ∧ px_ike p = Some ic ∧
    shared (ir_dh ic) kd = Ok sh ∧ (ikeSA s = Some cur ∧ sas s !! cur = Some ike) ∧
    DeriveRekeyIKE (su_id suite) (SKd ike) Initiator (ir_newSPIi ic) spir (ir_ni ic) nr sh = Ok new ∧
    uses s' new (ir_newSPIi ic) spir.
Proof using HL HW.
  intros Hok. unfold completeIKERekey. rewrite st_get. intros H.
  run_step H x s1 E1. apply lift_ok in E1 as [-> E1]. destruct x as [[saP nr] [kg kd]].
  destruct saP as [|prop rest]; [done|].
  destruct (selectedSuite _ _) as [suite|] eqn:Hsel; [|done]. destruct (negb _); [done|].
  run_step H spir s1 E2. apply lift_ok in E2 as [-> E2].
  run_step H ic s1 E3. apply lift_ok in E3 as [-> E3].
  destruct (px_ike p) as [ic'|]; [|done]. injection E3 as ->.
  destruct (negb (kg =? _)) eqn:Hg; [done|]. apply negb_false_iff, Z.eqb_eq in Hg as ->.
  run_step H sh s1 E4. apply lift_ok in E4 as [-> E4]. apply wrap_err_ok in E4.
  run_step H cur s1 E5. unfold current in E5. rewrite st_get in E5. apply lift_ok in E5 as [-> E5].
  destruct (ikeSA s) as [c|] eqn:Hcur; [|done]. injection E5 as ->.
  run_step H ike s1 E6. unfold load in E6. rewrite st_get in E6. apply lift_ok in E6 as [-> E6].
  destruct (sas s !! cur) eqn:Hl; [|done]. injection E6 as ->.
  run_step H new s1 E7. apply lift_ok in E7 as [-> E7]. apply wrap_err_ok in E7.
  run_step H np s1 E8. apply alloc_ok in E8 as [-> ->].
  assert (Hnew : ike_ok new).
  { pose proof (DeriveRekeyIKE_ok (su_id suite) (SKd ike) Initiator (ir_newSPIi ic) spir (ir_ni ic) nr sh) as Hy.
    rewrite E7 in Hy. apply Hy. }
  pose proof (inv_alloc false s s new (inv_refl false s Hok) Hnew) as I1.
  pose proof (inv_refl false _ (proj1 I1)) as J1.
  run_step H u s2 E9.
  destruct (hoare_ok _ _ _ _ _ _ (hoare_attempt _ _ _ (hoare_sendIKEDelete false _)) J1 E9) as [I2 _].
  apply swapIKE_ok in H as (H1 & H2 & H3 & H4 & _).
  destruct (inv_lookup _ _ _ (length (sas s)) new I2) as (new' & Hl' & Hk'); [by apply list_lookup_middle|].
  exists prop, rest, suite, nr, kd, spir, ic, sh, cur, ike, new. split_and!; try done.
  exists (length (sas s)), new'. by rewrite H4.
Qed.

(** *** The payloads survive the trip *)

Lemma own_dh_len d : own_dh d → 32 ≤ len (dh_Public d).
Proof using HL.
  intros (r & Hr & Hd). pose proof (newDH_wf (dh_Group d) r Hr) as Hw. rewrite Hd in Hw.
  destruct Hw as [_ [_ [(_ & -> & _)|(_ & -> & _)]]]; lia.
Qed.

Lemma newDH_own g r d : dh_random_ok r → newDH g r = Ok d → dh_Group d = g ∧ own_dh d.
Proof using HL.
  intros Hr Hd. pose proof (newDH_wf g r Hr) as Hw. rewrite Hd in Hw. destruct Hw as [<- _].
  split; [done|]. by exists r.
Qed.

Lemma ike_payloads ps ni d :
  len ni = nonceLen → own_dh d →
  ikeRekeyPayloads [SAPayload ps; NoncePayload ni; KEPayload (dh_Group d) (dh_Public d)] =
    Ok (ps, ni, (dh_Group d, dh_Public d)).
Proof using HL.
  intros Hni Hd%own_dh_len. unfold ikeRekeyPayloads. cbn. rewrite Hni.
  by rewrite (proj2 (Z.eqb_neq (len (dh_Public d)) 0)) by lia.
Qed.

(** Both ends derive paired SAs from one shared secret. *)
Lemma rekey_paired suite skd spii spir ni nr sh si sr :
  DeriveRekeyIKE suite skd Initiator spii spir ni nr sh = Ok si →
  DeriveRekeyIKE suite skd Responder spii spir ni nr sh = Ok sr →
  ike_paired si sr ∧ ike_paired sr si ∧ SKd si = SKd sr.
Proof using HL.
  #[local] Transparent DeriveRekeyIKE. unfold DeriveRekeyIKE.
  destruct (len skd =? 0); [done|]. destruct (_ || _); [done|]. destruct (len sh =? 0); [done|]. cbv zeta.
  destruct (derive_mirror suite spii spir ni nr (prf skd (sh ++ ni ++ nr)))
    as (i & r & -> & -> & _ & [? ?] & ? & _). by intros [= <-] [= <-].
Qed.

(** The answering end, on the request the initiating end sends. *)
Lemma handleIKERekeyRequest_ok c spii ni d hdr dec s s' :
  len ni = nonceLen → own_dh d →
  handleIKERekeyRequest hdr (ikeRekeyOffer c spii ni d) dec s = (s', Ok tt) → ikeSA s' ≠ ikeSA s →
  ∃ prop suite, pr_SPI prop = put64 spii ∧
    (∀ n spi' d', selectedSuite (buildProposalForSuite n suite spi' (groups_of d'))
                    (enabledIKESuites c) = Some suite) ∧
    answerIKERekey (m_MessageID hdr) dec prop suite ni (dh_Group d) (dh_Public d) s = (s', Ok tt).
Proof using HL.
  intros Hni Hown H Hswap. unfold handleIKERekeyRequest, ikeRekeyOffer in H. cbv zeta in H.
  rewrite st_get, ike_payloads in H by done.
  assert (Hno : ∀ p t dt, sendNotifyResponse dec (m_MessageID hdr) false p t dt s = (s', Ok tt) → False).
  { intros p t dt Hs. apply Hswap. by kept ikeSA Hs F. }
  destruct (negb _); [by destruct (Hno _ _ _ H)|].
  destruct (selectProposal _ _ _) as [[prop suite]|] eqn:Hsel.
  - destruct (offer_selected LayerIKE (put64 spii) (IKESuites c) (IKESuites (cfg s)) (Some d)
      (dh_Group d) prop suite) as (_ & _ & Hp & Hback);
      [right; apply list_elem_of_here|done|exact Hsel|]. exists prop, suite. auto.
  - destruct (bool_decide _); [by destruct (Hno _ _ _ H)|]. run_step H u s1 E. done.
Qed.

(** C15. Rekeying the IKE SA.  When the peer has answered our request by switching to
    a new IKE SA, the response it caches (under the SA it supersedes) is the protected
    form of payloads with which completing the exchange, once it succeeds, switches
    our end to an SA with the same pair of SPIs that opens whatever the peer's new SA
    protects and the other way round, and from whose SK_d both derive the same Child
    keys. *)
Theorem ike_rekey_agrees sI p ic sR hdr dec sR' :
  session_ok sI → session_ok sR → ctx_ok (sas sR) dec →
  px_ike p = Some ic → is_u64 (ir_newSPIi ic) → len (ir_ni ic) = nonceLen → own_dh (ir_dh ic) →
  (∀ cur ikeI ikeR, ikeSA sI = Some cur → sas sI !! cur = Some ikeI → sas sR !! c_sa dec = Some ikeR →
     SKd ikeI = SKd ikeR) →
  handleIKERekeyRequest hdr (ikeRekeyOffer (cfg sI) (ir_newSPIi ic) (ir_ni ic) (ir_dh ic)) dec sR =
    (sR', Ok tt) →
  ikeSA sR' ≠ ikeSA sR →
  ∃ resp raw newR spir, pd_resp (oldPeer sR') = Some raw ∧
    sealed_as sR dec (m_MessageID hdr) resp raw ∧ uses sR' newR (ir_newSPIi ic) spir ∧
    ∀ sI', completeIKERekey resp p sI = (sI', Ok tt) →
      ∃ newI, uses sI' newI (ir_newSPIi ic) spir ∧
        ike_paired newI newR ∧ ike_paired newR newI ∧ SKd newI = SKd newR.
Proof using HL HW.
  intros HokI HokR Hdec Hic Hspi Hni Hown Hsk Hans Hswap.
  destruct (handleIKERekeyRequest_ok _ _ _ _ _ _ _ _ Hni Hown Hans Hswap) as (prop & suite & Hp & Hback & Ha).
  destruct (answerIKERekey_ok _ _ _ _ _ _ _ _ _ HokR Hdec Ha)
    as (ikeR & rnd & d & sh & spii & spir & nr & newR & raw & Hl & (Hrnd & Hd & Hsh) & Hsp & Hu64 & Hnr & HnewR & Huse & Hseal & Hpd).
  rewrite Hp, be_read_exact in Hsp by done. injection Hsp as <-.
  destruct (newDH_own _ _ _ Hrnd Hd) as [Hgd Hownd].
  exists (ikeRekeyAnswer (pr_Number prop) suite spir nr d), raw, newR, spir. split_and!; try done.
  intros sI' Hc. destruct (completeIKERekey_ok _ _ _ _ HokI Hc)
    as (prop' & rest & suite' & nr' & kd & spir' & ic' & shI & cur & ikeI & newI & Hr & Hsel & Hsp' & Hic' & HsI & (Hcur & HlI) & HnewI & HuseI).
  rewrite Hic in Hic'. injection Hic' as <-. unfold ikeRekeyAnswer in Hr. rewrite ike_payloads in Hr by done.
  injection Hr as <- <- <- Hg <-. change [dh_Group d] with (groups_of (Some d)) in Hsel, Hsp'.
  rewrite Hback in Hsel. injection Hsel as <-.
  cbn [buildProposalForSuite pr_SPI] in Hsp'. rewrite be_read_exact in Hsp' by done. injection Hsp' as <-.
  destruct Hown as (rI & HrI & HdI).
  destruct (dh_agree _ rI rnd _ _ shI sh HrI Hrnd HdI Hd HsI Hsh) as [-> _].
  rewrite (Hsk _ _ _ Hcur HlI Hl) in HnewI. exists newI. split; [done|]. by eapply rekey_paired.
Qed.
End agree.

(** ** Witness *)

Definition demo_ike_pending : pendingExchange :=
  newPending exIKERekey 2 [] zeroTime None
    (Some {| ir_newSPIi := 77; ir_ni := replicate 32 3; ir_dh := demo_dh |}) false.

Lemma ike_rekey_agrees_witness :
  ∃ sR' resp newR spir, uses sR' newR 77 spir ∧
    ∀ sI', completeIKERekey (P:=toy_primitives) resp demo_ike_pending (demo_session Initiator) = (sI', Ok tt) →
      ∃ newI, uses sI' newI 77 spir ∧ ike_paired newI newR ∧ ike_paired newR newI.
Proof.
  eexists. edestruct (ike_rekey_agrees (HL:=toy_laws) (demo_session Initiator) demo_ike_pending
      {| ir_newSPIi := 77; ir_ni := replicate 32 3; ir_dh := demo_dh |}
      (demo_session Responder) demo_hdr demo_dec)
    as (resp & raw & newR & spir & _ & _ & H3 & H4).
  - apply demo_ok.
  - apply demo_ok.
  - apply demo_dec_ok.
  - reflexivity.
  - split; [discriminate|reflexivity].
  - reflexivity.
  - exists (RandKey (replicate 32 7)). split; [exact I|vm_compute; reflexivity].
  - apply demo_SKd.
  - vm_compute. reflexivity.
  - vm_compute. discriminate.
  - exists resp, newR, spir. split; [exact H3|]. intros sI' Hc. destruct (H4 sI' Hc) as (newI & ? & ? & ? & _).
    exists newI. auto.
Defined.

(** The whole exchange over the wire: request, answer, completion, and the old SA
    kept for the grace period at both ends. *)
Example demo_ike_rekey_runs :
  let sI := (initiateIKERekey (P:=toy_primitives) (demo_session Initiator)).1 in
  let sR := (handleInbound (P:=toy_primitives) (last_sent sI) (demo_session Responder)).1 in
  let sI' := (handleInbound (P:=toy_primitives) (last_sent sR) sI).1 in
  ikeSA sI' = Some 1%nat ∧ ikeSA sR = Some 1%nat ∧ oldIKE sI' = Some demo_dec ∧ oldIKE sR = Some demo_dec ∧
  initiatorSPI sI' = initiatorSPI sR ∧ responderSPI sI' = responderSPI sR ∧
  SKd <$> sas sI' !! 1%nat = SKd <$> sas sR !! 1%nat.
Proof. vm_compute. auto 10. Qed.
