(* ===== verification/Lineage.v ===== *)
(** * The line of Child SAs

    Every update the driver hands to the data plane names as its predecessor the
    Child SA the session had until then, and leaves the session with the Child SA it
    describes: the updates form one line from the first Child SA to the present one.
    This is what the data plane relies on to retire exactly the superseded SA; it
    rests on the refusal of a peer's rekey while one of our own is in flight. *)

From S2P Require Import Prelude IkePayload IkeMsg Crypto IkeSA Suite Natt Protected Session.
From S2P Require Import Rekey Driver Stable Invariant DriverProps.

(** [ch] is the Child SA that [u] installs: we send with the initiator's keys when we
    initiated the exchange and with the responder's when the peer did.  Which of the
    two it is, is fixed by [u]. *)
Definition child_of (u : ChildSAUpdate) (ch : ChildSA) : Prop :=
  let k := ch_Keys ch in
  ch_InitiatorSPI ch = NewInSPI u ∧ ch_ResponderSPI ch = NewOutSPI u ∧ ch_Suite ch = up_Suite u ∧
  ((OutEncr u = EncrIR k ∧ OutInteg u = IntegIR k ∧ InEncr u = EncrRI k ∧ InInteg u = IntegRI k) ∨
   (OutEncr u = EncrRI k ∧ OutInteg u = IntegRI k ∧ InEncr u = EncrIR k ∧ InInteg u = IntegIR k)).

Inductive lineage : option ChildSA → list ChildSAUpdate → option ChildSA → Prop :=
| lineage_nil o : lineage o [] o
| lineage_cons ch u ch' us o :
    OldInSPI u = ch_InitiatorSPI ch → child_of u ch' → lineage (Some ch') us o →
    lineage (Some ch) (u :: us) o.

Lemma lineage_nil_inv o o' : lineage o [] o' → o = o'.
Proof. by inversion 1. Qed.

Lemma lineage_app o us o' vs o'' : lineage o us o' → lineage o' vs o'' → lineage o (us ++ vs) o''.
Proof. induction 1; [done|]. intros. cbn. econstructor; eauto. Qed.

(** The first Child SA as an update: the client initiated the handshake. *)
Definition first_update (ch : ChildSA) : ChildSAUpdate :=
  {| NewInSPI := ch_InitiatorSPI ch; NewOutSPI := ch_ResponderSPI ch; OldInSPI := 0; up_Suite := ch_Suite ch;
     OutEncr := EncrIR (ch_Keys ch); OutInteg := IntegIR (ch_Keys ch);
     InEncr := EncrRI (ch_Keys ch); InInteg := IntegRI (ch_Keys ch) |}.

Lemma first_update_of ch : child_of (first_update ch) ch.
Proof. repeat split. by left. Qed.

(** What the session has told its data plane to run on: the last update it ordered, or
    the first Child SA while there is none. *)
Definition ordered (s : Session) : option ChildSAUpdate :=
  match list.last (installed s) with Some u => Some u | None => first_update <$> child s end.

(** With [u0] in place, the updates [q] lead to what the session has ordered. *)
Definition heir (u0 : ChildSAUpdate) (q : list ChildSAUpdate) (s : Session) : Prop :=
  ∃ ch, child_of u0 ch ∧ lineage (Some ch) q (child s) ∧ ordered s = Some (default u0 (list.last q)).

Lemma heir_first s ch : child s = Some ch → installed s = [] → heir (first_update ch) [] s.
Proof.
  intros Hc Hi. exists ch. unfold ordered. rewrite Hc, Hi. split_and!; [apply first_update_of|constructor|done].
Qed.

Lemma heir_nil u s : heir u [] s → ∃ ch, child s = Some ch ∧ child_of u ch ∧ ordered s = Some u.
Proof. intros (ch & Hof & Hl%lineage_nil_inv & Ho). by exists ch. Qed.

Lemma heir_cons u0 u q s : heir u0 (u :: q) s → OldInSPI u = NewInSPI u0 ∧ heir u q s.
Proof.
  intros (ch & (Hi & _) & Hl & Ho). inversion Hl as [|ch0 u' ch' us o Hold Hof Hl']; subst.
  split; [congruence|]. exists ch'. split_and!; [done..|]. rewrite Ho. by rewrite last_cons; destruct (list.last q).
Qed.

Lemma heir_event u s s' us :
  heir u [] s → installed s' = installed s ++ us → lineage (child s) us (child s') → heir u us s'.
Proof.
  intros (ch & Hc & Hof & Ho)%heir_nil Hi Hl. exists ch. split_and!; [done|by rewrite <- Hc|].
  unfold ordered in *. rewrite Hi. destruct us as [|u1 us].
  - rewrite app_nil_r. cbn. rewrite <- Ho. by rewrite (lineage_nil_inv _ _ Hl).
  - rewrite last_app. rewrite last_cons. by destruct (list.last us).
Qed.

(** A Child rekey in flight was started for the present Child SA. *)
Definition coherent (s : Session) : Prop :=
  ∀ p cc, pending s = Some p → px_kind p = exChildRekey → px_child p = Some cc →
  ∃ ch, child s = Some ch ∧ cr_oldInSPI cc = ch_InitiatorSPI ch.

Definition descends (s s' : Session) : Prop :=
  ∃ us, installed s' = installed s ++ us ∧ lineage (child s) us (child s').

(** What [coherent] and [descends] look at. *)
Definition kin (s : Session) : option ChildSA * list ChildSAUpdate * option pendingExchange :=
  (child s, installed s, pending s).

#[export] Instance kin_observes : Observes kin.
Proof. by constructor. Qed.

Lemma descends_trans s1 s2 s3 : descends s1 s2 → descends s2 s3 → descends s1 s3.
Proof.
  intros (us & H1 & L1) (vs & H2 & L2). exists (us ++ vs). rewrite H2, H1, app_assoc.
  split; [done|]. by eapply lineage_app.
Qed.

Lemma kin_coherent s s' : kin s' = kin s → coherent s → coherent s'.
Proof. intros [= H1 _ H3] Hc p cc. rewrite H1, H3. apply Hc. Qed.

Lemma kin_descends s s' : kin s' = kin s → descends s s'.
Proof. intros [= H1 H2 _]. exists []. rewrite H1, H2, app_nil_r. split; [done|constructor]. Qed.

(** [m] keeps the session coherent and installs only descendants. *)
Definition traces {A} (m : SM A) : Prop :=
  ∀ s, coherent s → safe (m s).2 → coherent (m s).1 ∧ descends s (m s).1.

Lemma stable_traces {A} (m : SM A) : stable kin m → traces m.
Proof. intros Hm s Hc Hs. pose proof (Hm s Hs). eauto using kin_coherent, kin_descends. Qed.

Lemma traces_bind {A B} (m : SM A) (f : A → SM B) : traces m → (∀ a, traces (f a)) → traces (m ≫= f).
Proof.
  intros Hm Hf s Hc. unfold mbind, ST_bind. specialize (Hm s Hc).
  destruct (m s) as [s' [a|e| |]]; cbn in *; [|by auto..]. intros Hs. destruct (Hm I) as [H1 H2].
  destruct (Hf a s' H1 Hs). eauto using descends_trans.
Qed.

Lemma traces_attempt {A} (m : SM A) : traces m → traces (attempt m).
Proof. intros Hm s Hc. specialize (Hm s Hc). unfold attempt. by destruct (m s) as [s' []]. Qed.

(** A request that is not a Child rekey, or none, takes the window. *)
Lemma traces_set_pending o :
  (∀ p, o = Some p → px_kind p ≠ exChildRekey) → traces (modifyS (set_pending o) : SM unit).
Proof.
  intros Ho s Hc _. split; [|exists []; rewrite app_nil_r; split; [done|constructor]].
  intros p cc Hp Hk. by destruct (Ho p Hp).
Qed.

(** Run a prefix that leaves the relatives alone; [R] holds of every state like [s0]. *)
Lemma kin_then {A B} (m : SM A) (f : A → SM B) (R : Session → Prop) s0 s :
  stable kin m → (∀ s', kin s' = kin s0 → R s') → kin s = kin s0 →
  (∀ a s', kin s' = kin s0 → safe (f a s').2 → R (f a s').1) →
  safe ((m ≫= f) s).2 → R ((m ≫= f) s).1.
Proof.
  intros Hm He Hs Hf. unfold mbind, ST_bind. specialize (Hm s). rewrite Hs in Hm.
  destruct (m s) as [s' [a|e| |]]; cbn in *; [by apply Hf, Hm|by intros _; apply He, Hm|done..].
Qed.

(** The rest of a routine that started in [s0]. *)
Lemma traces_rest {A} (m : SM A) s0 s :
  traces m → coherent s → descends s0 s → safe (m s).2 →
  coherent (m s).1 ∧ descends s0 (m s).1.
Proof. intros Hm Hc Hd Hs. destruct (Hm s Hc Hs). eauto using descends_trans. Qed.

#[local] Hint Extern 5 (traces _) => apply stable_traces; solve [stable] : stable.
#[local] Hint Extern 1 (traces (modifyS (set_pending _))) => apply traces_set_pending; by intros ? [= <-] : stable.

Ltac traces :=
  repeat first
    [ solve [eauto with stable]
    | lazymatch goal with
      | |- traces (_ ≫= _) => apply traces_bind
      | |- traces (attempt _) => apply traces_attempt
      | |- traces _ => first [ progress cbv zeta | case_match ]
      | |- ∀ _, _ => intro
      end ].

Section lineage.
Context {P : Primitives} {W : World}.

(** ** Starting exchanges *)

Lemma traces_initiateDPD fast : traces (initiateDPD fast).
Proof. unfold initiateDPD, encodeSKEmpty, curCtx, nextMessageID. traces. Qed.
Lemma traces_sendChildDelete spi : traces (sendChildDelete spi).
Proof. unfold sendChildDelete, nextMessageID. traces. Qed.
Lemma traces_initiateIKERekey : traces initiateIKERekey.
Proof. unfold initiateIKERekey, nextMessageID. traces. Qed.

(** Step over what leaves the relatives alone, in a routine started in [s]. *)
Ltac chase1 s :=
  apply (kin_then _ _ (λ s', coherent s' ∧ descends s s') s);
    [by stable|eauto using kin_coherent, kin_descends|done|
     let H := fresh "Hk" in intros ? ? H].
Ltac chase s := repeat chase1 s.

Lemma traces_initiateChildRekey re : traces (initiateChildRekey re).
Proof.
  intros s Hc. unfold initiateChildRekey, nextMessageID. rewrite st_get.
  destruct (child s) as [ch|] eqn:Hch; [|intros _; eauto using kin_descends]. cbv zeta. chase s.
  rewrite st_modify. apply traces_rest; [traces| |].
  - intros p cc [= <-] _ [= <-]. exists ch. cbn [child set_pending cr_oldInSPI].
    injection Hk7 as -> _ _. by rewrite Hch.
  - injection Hk7 as H1 H2 _. exists []. cbn [child installed set_pending]. rewrite H1, H2, app_nil_r.
    split; [done|constructor].
Qed.

(** ** Installing *)

(** No Child rekey of ours is in flight. *)
Definition unclaimed (s : Session) : Prop :=
  ∀ p, pending s = Some p → px_kind p ≠ exChildRekey.

(** The cutover of the session: install, and remember what was installed. *)
Lemma install_traces {A} u ch ch' (m : SM A) s0 s :
  kin s = kin s0 → child s0 = Some ch → unclaimed s0 → OldInSPI u = ch_InitiatorSPI ch →
  child_of u ch' → traces m →
  safe ((_ ← InstallChildSA u; _ ← modifyS (set_child (Some ch')); m) s).2 →
  coherent ((_ ← InstallChildSA u; _ ← modifyS (set_child (Some ch')); m) s).1 ∧
  descends s0 ((_ ← InstallChildSA u; _ ← modifyS (set_child (Some ch')); m) s).1.
Proof.
  intros [= K1 K2 K3] Hch Hun Hold Hof Hm. unfold InstallChildSA. st_step.
  destruct (dataPlane s); [|done]. st_step. apply traces_rest; [done| |].
  - intros p cc Hp Hk. cbn in Hp. rewrite K3 in Hp. by destruct (Hun p Hp).
  - exists [u]. cbn [installed child set_child set_installed]. rewrite K2, Hch. split; [done|].
    econstructor; [done..|constructor].
Qed.

#[local] Hint Resolve traces_initiateDPD traces_initiateChildRekey traces_sendChildDelete
  traces_initiateIKERekey : stable.

Lemma completeChildRekey_traces inner p s :
  (∀ cc, px_child p = Some cc → ∃ ch, child s = Some ch ∧ cr_oldInSPI cc = ch_InitiatorSPI ch) →
  pending s = None →
  safe (completeChildRekey inner p s).2 →
  coherent (completeChildRekey inner p s).1 ∧ descends s (completeChildRekey inner p s).1.
Proof.
  intros Hcc Hpend. unfold completeChildRekey.
  assert (Hc : coherent s) by (intros q ? Hq; congruence). rewrite st_get.
  apply (kin_then _ _ (λ s', coherent s' ∧ descends s s') s);
    [by stable|eauto using kin_coherent, kin_descends|done|].
  intros [[[prop suite] nr] ke] s1 Hk1. chase1 s.
  destruct (px_child p) as [cc|]; [|done]. destruct (Hcc cc eq_refl) as (ch & Hch & Hold). st_step. chase s.
  eapply install_traces; try done.
  - intros q Hq. congruence.
  - repeat split; try done. by left.
  - traces.
Qed.

Lemma commitChildAnswer_traces id v ch suite out newSPI keys d raw s0 s :
  kin s = kin s0 → child s0 = Some ch → coherent s0 → unclaimed s0 →
  safe (commitChildAnswer id v ch suite out newSPI keys d raw s).2 →
  coherent (commitChildAnswer id v ch suite out newSPI keys d raw s).1 ∧
  descends s0 (commitChildAnswer id v ch suite out newSPI keys d raw s).1.
Proof.
  intros Hs Hch Hc Hun. unfold commitChildAnswer. rewrite st_get.
  apply (kin_then _ _ (λ s', coherent s' ∧ descends s0 s') s0);
    [destruct d; by stable|eauto using kin_coherent, kin_descends|done|].
  intros _ s1 H1. chase s0. eapply install_traces; try done.
  - repeat split; try done. by right.
  - traces.
Qed.

#[local] Opaque commitChildAnswer.
Lemma handleChildRekeyRequest_traces hdr inner dec v s :
  coherent s → unclaimed s → safe (handleChildRekeyRequest hdr inner dec v s).2 →
  coherent (handleChildRekeyRequest hdr inner dec v s).1 ∧
  descends s (handleChildRekeyRequest hdr inner dec v s).1.
Proof.
  intros Hc Hun. unfold handleChildRekeyRequest. cbv zeta. rewrite st_get.
  destruct (child s) as [ch|] eqn:Hch;
    [|apply stable_traces; [stable|done]].
  destruct (childRekeyRequestPayloads inner) as [[[[[saP ni] ke] tsi] tsr]|e| |];
    [|apply stable_traces; [unfold answerNoProposal; stable|done]|done..].
  destruct (match ke with Some _ => _ | None => _ end);
    [apply stable_traces; [unfold sendInvalidKEPayload; stable|done]|].
  destruct (selectProposal _ _ _) as [[prop suite]|];
    [|apply stable_traces; [unfold sendInvalidKEPayload, answerNoProposal; stable|done]].
  unfold answerChildRekey. rewrite st_get. cbv zeta. unfold answerPFS. chase s.
  by apply commitChildAnswer_traces.
Qed.

(** ** Events *)

#[local] Hint Extern 1 (traces (modifyS (set_pending None))) => by apply traces_set_pending : stable.

Lemma traces_swapIKE np i r : traces (swapIKE np i r).
Proof. unfold swapIKE. traces. Qed.
#[local] Hint Resolve traces_swapIKE : stable.
Lemma traces_completeIKERekey inner p : traces (completeIKERekey inner p).
Proof. unfold completeIKERekey, sendIKEDeleteUnderCurrent, nextMessageID. traces. Qed.
Lemma traces_handleIKERekeyRequest hdr inner dec : traces (handleIKERekeyRequest hdr inner dec).
Proof.
  unfold handleIKERekeyRequest, answerIKERekey, answerNoProposal, sendInvalidKEPayload. traces.
Qed.
#[local] Hint Resolve traces_completeIKERekey traces_handleIKERekeyRequest : stable.

Lemma rekeyInFlight_unclaimed s : rekeyInFlight s = false → unclaimed s.
Proof. unfold rekeyInFlight. intros H p Hp Hk. by rewrite Hp, Hk in H. Qed.

Lemma traces_handleCreateChildSA hdr inner dec v : traces (handleCreateChildSA hdr inner dec v).
Proof.
  intros s Hc. unfold handleCreateChildSA, sendTemporaryFailure. rewrite st_get.
  destruct (rekeyInFlight s) eqn:Hf; [apply stable_traces; [stable|done]|]. cbv zeta.
  destruct (_ && _); [apply stable_traces; [stable|done]|].
  destruct (isIKERekey inner); [apply traces_bind; [traces|traces|done]|].
  rewrite st_attempt. intros Hs.
  pose proof (handleChildRekeyRequest_traces hdr inner dec v s Hc (rekeyInFlight_unclaimed s Hf)) as H.
  by destruct (handleChildRekeyRequest hdr inner dec v s) as [s' []]; apply H.
Qed.

Lemma traces_completeMatchingRekey id inner v : traces (completeMatchingRekey id inner v).
Proof.
  intros s Hc. unfold completeMatchingRekey. destruct v; [apply stable_traces; [stable|done]|].
  rewrite st_get. destruct (pending s) as [p|] eqn:Hp; [|apply stable_traces; [stable|done]].
  destruct (negb _); [apply stable_traces; [stable|done]|].
  destruct (px_kind p) eqn:Hk; try solve [apply stable_traces; [stable|done]]; rewrite st_put.
  - assert (Hd : descends s (set_pending None s)) by (exists []; rewrite app_nil_r; split; [done|constructor]).
    rewrite st_attempt. pose proof (completeChildRekey_traces inner p (set_pending None s)) as H.
    destruct (completeChildRekey inner p (set_pending None s)) as [s' [a|e| |]]; try done.
    all: destruct H as [H1 H2]; [intros cc Hcc; by apply (Hc p)|done..|].
    + apply traces_rest; [traces|exact H1|exact (descends_trans _ _ _ Hd H2)].
    + intros _. split; [exact H1|exact (descends_trans _ _ _ Hd H2)].
  - apply traces_rest; [traces|by intros ? ?|]. exists []. rewrite app_nil_r. split; [done|constructor].
Qed.

Lemma traces_clearPending id : traces (clearPending id).
Proof.
  intros s Hc. unfold clearPending. rewrite st_get.
  destruct (pending s) as [p|]; [|intros _; eauto using kin_descends].
  destruct (_ && _); [|intros _; eauto using kin_descends].
  intros _. split; [by intros ? ?|]. exists []. rewrite app_nil_r. split; [done|constructor].
Qed.

Lemma traces_clearOldIKEDelete id : traces (clearOldIKEDelete id).
Proof.
  intros s Hc _. unfold clearOldIKEDelete. rewrite st_get.
  destruct (oldIKEDelete s) as [p|]; [destruct (_ =? _)|]; cbn; eauto using kin_descends.
Qed.

Lemma traces_handleDeletes inner v td : traces (handleDeletes inner v td).
Proof.
  revert td. induction inner as [|p inner IH]; intros td; cbn [handleDeletes]; [traces|].
  destruct p; try apply IH. unfold handleInboundChildDelete. traces.
Qed.

#[local] Hint Resolve traces_handleCreateChildSA traces_completeMatchingRekey traces_clearPending
  traces_clearOldIKEDelete traces_handleDeletes : stable.

Lemma traces_handleInbound raw : traces (handleInbound raw).
Proof. unfold handleInbound, handleMessage, handleInformationalRequest. traces. Qed.

Lemma coherent_reschedule s p q :
  coherent s → pending s = Some p → px_kind q = px_kind p → px_child q = px_child p →
  coherent (set_pending (Some q) s) ∧ descends s (set_pending (Some q) s).
Proof.
  intros Hc Hp Hk Hx. split.
  - intros r cc [= <-] H1 H2. apply (Hc p); congruence.
  - exists []. rewrite app_nil_r. split; [done|constructor].
Qed.

Lemma traces_detectSuspend t : traces (detectSuspend t).
Proof.
  intros s Hc. unfold detectSuspend. rewrite st_get. cbv zeta. rewrite st_modify.
  assert (Hc' : coherent (set_lastTickWall (Round0 t) s)) by done.
  assert (Hd : descends s (set_lastTickWall (Round0 t) s)) by (by apply kin_descends).
  destruct (_ || _); [by split|]. destruct (pending s) as [p|] eqn:Hp.
  - rewrite st_modify. destruct (coherent_reschedule _ p (px_hurry p t) Hc' Hp) as [H1 H2]; [done..|].
    apply traces_rest; [traces|done|exact (descends_trans _ _ _ Hd H2)].
  - apply traces_rest; [traces|done|done].
Qed.

Lemma traces_retransmitPending t p s :
  coherent s → pending s = Some p → safe (retransmitPending t p s).2 →
  coherent (retransmitPending t p s).1 ∧ descends s (retransmitPending t p s).1.
Proof.
  intros Hc Hp. unfold retransmitPending. rewrite st_get.
  destruct (After _ _); [|intros _; eauto using kin_descends]. cbv zeta.
  destruct (_ >? _).
  - apply (traces_bind _ _); [traces| |done]. intros _. traces.
  - rewrite st_modify.
    destruct (coherent_reschedule s p (px_again p (px_attempts p + 1)
      (Add t (pendingBackoff s (px_attempts p + 1)))) Hc Hp) as [H1 H2]; [done..|].
    apply traces_rest; [traces|done|done].
Qed.

Lemma traces_housekeeping : traces housekeeping.
Proof.
  unfold housekeeping. apply traces_bind; [traces|intros t].
  apply traces_bind; [apply traces_detectSuspend|intros _].
  apply traces_bind; [unfold expireOldIKE; traces|intros _].
  apply traces_bind; [unfold retransmitOldDelete; traces|intros _].
  intros s Hc. rewrite st_get. destruct (pending s) as [p|] eqn:Hp; [by apply traces_retransmitPending|].
  revert s Hc Hp. assert (Hk : traces (_ ← startExchange t; mret false)).
  { unfold startExchange, volumeDue, probeIfIdle, idleTime, LastDataInbound, ChildSAVolume. traces. }
  intros s Hc _. by apply Hk.
Qed.

Lemma traces_Driver_step e : traces (Driver_step e).
Proof.
  destruct e; cbn [Driver_step]; [apply traces_handleInbound|apply traces_housekeeping|].
  unfold sendGracefulDelete, nextMessageID. traces.
Qed.

Lemma traces_Driver es : traces (Driver es).
Proof.
  unfold Driver. apply traces_bind; [unfold Driver_start; traces|intros _].
  induction es as [|e es IH]; cbn [Driver_loop]; [traces|].
  apply traces_bind; [apply traces_Driver_step|]. intros []; [traces|apply IH].
Qed.
End lineage.
