(* ===== verification/Eap.v ===== *)
(** * EAP-MSCHAPv2 (internal/eap)

    The EAP packet codec, the peer side of an MSCHAPv2 conversation as a state
    machine over its recorded challenge material, and the derivation of the master
    session key.  RFC 2759 and RFC 3079 (layeh.com/radius) are the interface
    [Radius]. *)

From S2P Require Import Prelude.

Inductive eap_error :=
| ErrEapShort | ErrEapLength (l have : Z) | ErrEapType (t : Z) | ErrMalformedChallenge
| ErrChallengeSize (n : Z) | ErrEapRandom | ErrNTResponse | ErrUTF16 | ErrAuthResponse
| ErrEmptySuccess | ErrServerFailure | ErrSuccessOpcode (op : Z) | ErrSuccessBeforeChallenge
| ErrAuthMismatch | ErrMSKInputs | ErrStartKey
| ErrEmptyRequest | ErrOpcode (op : Z) | ErrUnsupportedType (t : Z).

Definition CodeRequest := 1.
Definition CodeResponse := 2.
Definition CodeSuccess := 3.
Definition CodeFailure := 4.
Definition TypeIdentity := 1.
Definition TypeNotification := 2.
Definition TypeMSCHAPv2 := 26.

(** ** Packets (eap.go) *)

Record Packet := { pk_Code : Z; pk_Identifier : Z; pk_Type : Z; pk_Data : bytes }.

Definition Packet_Parse (raw : bytes) : Res eap_error Packet :=
  if len raw <? 4 then Err ErrEapShort
  else
    lb ← slice raw 2 4;
    length ← Uint16 lb;
    if (length <? 4) || (length >? len raw) then Err (ErrEapLength length (len raw))
    else
      code ← index raw 0;
      id ← index raw 1;
      if length =? 4 then
        Ok {| pk_Code := code; pk_Identifier := id; pk_Type := 0; pk_Data := [] |}
      else
        ty ← index raw 4;
        data ← slice raw 5 length;
        Ok {| pk_Code := code; pk_Identifier := id; pk_Type := ty; pk_Data := data |}.

Definition Packet_Marshal (p : Packet) : bytes :=
  if (pk_Code p =? CodeSuccess) || (pk_Code p =? CodeFailure) then
    [pk_Code p; pk_Identifier p] ++ put16 4
  else
    [pk_Code p; pk_Identifier p] ++ put16 (u16 (5 + len (pk_Data p))) ++ [pk_Type p] ++ pk_Data p.

(** ** The conversation (mschapv2.go) *)

Definition opChallenge := 1.
Definition opResponse := 2.
Definition opSuccess := 3.
Definition opFailure := 4.
Definition authChallengeLen := 16.
Definition peerChallengeLen := 16.
Definition responseValueLen := 49.

(** layeh.com/radius: rfc2759 and rfc3079; [None] is an error return. *)
Class Radius := {
  GenerateNTResponse (authChallenge peerChallenge username password : bytes) : option bytes;
  ToUTF16 (password : bytes) : option bytes;
  NTPasswordHash (password : bytes) : bytes;
  GenerateAuthenticatorResponse (authChallenge peerChallenge ntResponse username password : bytes)
    : option bytes;
  GetMasterKey (passwordHashHash ntResponse : bytes) : bytes;
  GetAsymmetricStartKey (masterKey : bytes) (length : Z) (isSend : bool) : option bytes;
}.

Record MSCHAPv2 := {
  ms_Username : bytes;
  ms_Password : bytes;
  peerChallenge : bytes;
  ntResponse : bytes;
  authChallenge : bytes;
  passwordHashHash : bytes;
  authResponse : bytes;
  authChecked : bool;
}.

Definition NewMSCHAPv2 (username password : bytes) : MSCHAPv2 :=
  {| ms_Username := username; ms_Password := password; peerChallenge := []; ntResponse := [];
     authChallenge := []; passwordHashHash := []; authResponse := []; authChecked := false |}.

(** Wipe: the buffers are zeroed and dropped. *)
Definition Wipe (m : MSCHAPv2) : MSCHAPv2 :=
  {| ms_Username := ms_Username m; ms_Password := []; peerChallenge := []; ntResponse := [];
     authChallenge := []; passwordHashHash := []; authResponse := []; authChecked := authChecked m |}.

(** The recorded material, one field at a time as the code assigns it. *)
Definition with_authChallenge (v : bytes) (m : MSCHAPv2) : MSCHAPv2 :=
  {| ms_Username := ms_Username m; ms_Password := ms_Password m; peerChallenge := peerChallenge m;
     ntResponse := ntResponse m; authChallenge := v; passwordHashHash := passwordHashHash m;
     authResponse := authResponse m; authChecked := authChecked m |}.
Definition with_peerChallenge (v : bytes) (m : MSCHAPv2) : MSCHAPv2 :=
  {| ms_Username := ms_Username m; ms_Password := ms_Password m; peerChallenge := v;
     ntResponse := ntResponse m; authChallenge := authChallenge m; passwordHashHash := passwordHashHash m;
     authResponse := authResponse m; authChecked := authChecked m |}.
Definition with_ntResponse (v : bytes) (m : MSCHAPv2) : MSCHAPv2 :=
  {| ms_Username := ms_Username m; ms_Password := ms_Password m; peerChallenge := peerChallenge m;
     ntResponse := v; authChallenge := authChallenge m; passwordHashHash := passwordHashHash m;
     authResponse := authResponse m; authChecked := authChecked m |}.
Definition with_passwordHashHash (v : bytes) (m : MSCHAPv2) : MSCHAPv2 :=
  {| ms_Username := ms_Username m; ms_Password := ms_Password m; peerChallenge := peerChallenge m;
     ntResponse := ntResponse m; authChallenge := authChallenge m; passwordHashHash := v;
     authResponse := authResponse m; authChecked := authChecked m |}.
Definition with_authResponse (v : bytes) (m : MSCHAPv2) : MSCHAPv2 :=
  {| ms_Username := ms_Username m; ms_Password := ms_Password m; peerChallenge := peerChallenge m;
     ntResponse := ntResponse m; authChallenge := authChallenge m; passwordHashHash := passwordHashHash m;
     authResponse := v; authChecked := authChecked m |}.
Definition with_authChecked (v : bool) (m : MSCHAPv2) : MSCHAPv2 :=
  {| ms_Username := ms_Username m; ms_Password := ms_Password m; peerChallenge := peerChallenge m;
     ntResponse := ntResponse m; authChallenge := authChallenge m; passwordHashHash := passwordHashHash m;
     authResponse := authResponse m; authChecked := v |}.

Definition messageBody (d : bytes) : Res eap_error bytes :=
  if len d >=? 4 then slice_from d 4 else slice_from d 1.

Section mschap.
Context {R : Radius}.

Abbreviation EM := (ST MSCHAPv2 eap_error).

(** An error return of a library call becomes an error of ours. *)
Definition orErr {A} (e : eap_error) (r : option A) : EM A :=
  match r with Some a => mret a | None => throw e end.

(** PeerChallenge(16) | Reserved(8 zero) | NT-Response(24) | Flags(1) *)
Definition responseValue (peerChal nt : bytes) : bytes :=
  copy (zeros 16) peerChal ++ zeros 8 ++ copy (zeros 24) nt ++ zeros 1.

Definition responseData (msChapID : Z) (value name : bytes) : bytes :=
  [opResponse; msChapID] ++ put16 (u16 (5 + len value + len name)) ++ [u8 responseValueLen] ++ value ++ name.

(** [rnd] is what crypto/rand delivers for the peer challenge. *)
Definition HandleChallenge (req : Packet) (rnd : option bytes) : EM Packet :=
  if negb (pk_Type req =? TypeMSCHAPv2) then throw (ErrEapType (pk_Type req))
  else
    let d := pk_Data req in
    op ← (if len d <? 5 then throw ErrMalformedChallenge else lift (index d 0));
    if negb (op =? opChallenge) then throw ErrMalformedChallenge
    else
      msChapID ← lift (index d 1);
      valueSize ← lift (index d 4);
      if negb (valueSize =? authChallengeLen) || (len d <? 5 + authChallengeLen)
      then throw (ErrChallengeSize valueSize)
      else
        ac ← lift (slice d 5 (5 + authChallengeLen));
        _ ← modifyS (with_authChallenge ac);
        peerChal ← orErr ErrEapRandom rnd;
        _ ← modifyS (with_peerChallenge peerChal);
        m ← getS;
        nt ← orErr ErrNTResponse (GenerateNTResponse ac peerChal (ms_Username m) (ms_Password m));
        _ ← modifyS (with_ntResponse nt);
        ucs2 ← orErr ErrUTF16 (ToUTF16 (ms_Password m));
        _ ← modifyS (with_passwordHashHash (NTPasswordHash (NTPasswordHash ucs2)));
        ar ← orErr ErrAuthResponse
               (GenerateAuthenticatorResponse ac peerChal nt (ms_Username m) (ms_Password m));
        _ ← modifyS (with_authResponse ar);
        mret {| pk_Code := CodeResponse; pk_Identifier := pk_Identifier req; pk_Type := TypeMSCHAPv2;
                pk_Data := responseData msChapID (responseValue peerChal nt) (ms_Username m) |}.

Definition HandleSuccess (req : Packet) : EM Packet :=
  if negb (pk_Type req =? TypeMSCHAPv2) then throw (ErrEapType (pk_Type req))
  else
    let d := pk_Data req in
    if len d <? 1 then throw ErrEmptySuccess
    else
      op ← lift (index d 0);
      if op =? opFailure then throw ErrServerFailure
      else if negb (op =? opSuccess) then throw (ErrSuccessOpcode op)
      else
        msg ← lift (messageBody d);
        m ← getS;
        let exp := authResponse m in
        if len exp =? 0 then throw ErrSuccessBeforeChallenge
        else
          same ← (if len msg <? len exp then mret false
                  else p ← lift (slice msg 0 (len exp)); mret (bool_decide (p = exp)));
          if negb same then throw ErrAuthMismatch
          else
            _ ← modifyS (with_authChecked true);
            mret {| pk_Code := CodeResponse; pk_Identifier := pk_Identifier req;
                    pk_Type := TypeMSCHAPv2; pk_Data := [opSuccess] |}.

Definition IdentityResponse (m : MSCHAPv2) (req : Packet) : Packet :=
  {| pk_Code := CodeResponse; pk_Identifier := pk_Identifier req; pk_Type := TypeIdentity;
     pk_Data := ms_Username m |}.

Definition MSKInputs (m : MSCHAPv2) : bytes * bytes := (passwordHashHash m, ntResponse m).
Definition Verified (m : MSCHAPv2) : bool := authChecked m.

(** buildEAPResponse of ikeauth.go *)
Definition buildEAPResponse (req : Packet) (rnd : option bytes) : EM Packet :=
  if pk_Type req =? TypeIdentity then m ← getS; mret (IdentityResponse m req)
  else if pk_Type req =? TypeMSCHAPv2 then
    if len (pk_Data req) =? 0 then throw ErrEmptyRequest
    else
      op ← lift (index (pk_Data req) 0);
      if op =? 1 then HandleChallenge req rnd
      else if op =? 3 then HandleSuccess req
      else if op =? 4 then throw ErrServerFailure
      else throw (ErrOpcode op)
  else if pk_Type req =? TypeNotification then
    mret {| pk_Code := CodeResponse; pk_Identifier := pk_Identifier req;
            pk_Type := TypeNotification; pk_Data := [] |}
  else throw (ErrUnsupportedType (pk_Type req)).

(** ** The master session key (msk.go) *)

Definition MSKLen := 64.
Definition KeyLength128Bit := 16.

Definition DeriveMSK (phh nt : bytes) : Res eap_error bytes :=
  if (len phh =? 0) || (len nt =? 0) then Err ErrMSKInputs
  else
    let master := GetMasterKey phh nt in
    match GetAsymmetricStartKey master KeyLength128Bit false with
    | None => Err ErrStartKey
    | Some recvKey =>
        match GetAsymmetricStartKey master KeyLength128Bit true with
        | None => Err ErrStartKey
        | Some sendKey => Ok (copy (zeros 16) recvKey ++ copy (zeros 16) sendKey ++ zeros 32)
        end
    end.

End mschap.

(** ** The packet codec *)

Record packet_ok (p : Packet) : Prop := {
  pk_code : is_u8 (pk_Code p);
  pk_id : is_u8 (pk_Identifier p);
  pk_type : is_u8 (pk_Type p);
  pk_data : bytes_ok (pk_Data p);
  pk_len : 5 + len (pk_Data p) < 2 ^ 16;
}.

(** Success and Failure packets carry neither a type nor data. *)
Definition bare_ok (p : Packet) : Prop :=
  pk_Code p = CodeSuccess ∨ pk_Code p = CodeFailure → pk_Type p = 0 ∧ pk_Data p = [].

Lemma Packet_Parse_ok raw : bytes_ok raw → yields packet_ok (Packet_Parse raw).
Proof.
  intros Hraw. unfold Packet_Parse. go_safe; try done; constructor; cbn; unfold is_u8, is_u16 in *; try done; try lia.
  constructor.
Qed.

(** The EAP codec: parsing any octets returns without a panic, with an error or a
    packet whose fields are in range; and a packet written by Marshal is read back
    unchanged, whatever its code, as long as it fits the 16-bit length. *)
Theorem Packet_codec :
  (∀ raw, bytes_ok raw → yields packet_ok (Packet_Parse raw)) ∧
  (∀ p, packet_ok p → bare_ok p → Packet_Parse (Packet_Marshal p) = Ok p).
Proof.
  split; [apply Packet_Parse_ok|]. intros p [? ? ? ? Hl] Hb. destruct p as [c i t d].
  unfold Packet_Marshal, Packet_Parse, bare_ok in *. cbn [pk_Code pk_Identifier pk_Type pk_Data] in *.
  len_pos. destruct (_ || _) eqn:Hc.
  - destruct Hb as [-> ->]; [apply orb_true_iff in Hc as [?%Z.eqb_eq|?%Z.eqb_eq]; auto|].
    rewrite put16_eq. cbn [app]. by go_run.
  - rewrite u16_small by (unfold is_u16; len_lia). rewrite put16_eq. cbn [app]. by go_run.
Qed.

(** ** The conversation *)

Section conversation.
Context {R : Radius}.

(** The recorded material is that of one challenge of the server for this user and
    password. *)
Definition material (m : MSCHAPv2) : Prop :=
  GenerateNTResponse (authChallenge m) (peerChallenge m) (ms_Username m) (ms_Password m) = Some (ntResponse m) ∧
  (∃ ucs2, ToUTF16 (ms_Password m) = Some ucs2 ∧
           passwordHashHash m = NTPasswordHash (NTPasswordHash ucs2)) ∧
  GenerateAuthenticatorResponse (authChallenge m) (peerChallenge m) (ntResponse m) (ms_Username m)
    (ms_Password m) = Some (authResponse m).

(** Between two requests: nothing has been recorded, or a whole challenge has. *)
Definition conv_ok (u w : bytes) (m : MSCHAPv2) : Prop :=
  ms_Username m = u ∧ ms_Password m = w ∧
  ((authResponse m = [] ∧ MSKInputs m = ([], []) ∧ authChecked m = false) ∨ material m).

Lemma orErr_ok {A} e (r : option A) m m' a : orErr e r m = (m', Ok a) → m' = m ∧ r = Some a.
Proof. destruct r; [by intros [= <- ->]|done]. Qed.

Lemma HandleChallenge_ok req rnd m m' p :
  HandleChallenge req rnd m = (m', Ok p) →
  ms_Username m' = ms_Username m ∧ ms_Password m' = ms_Password m ∧ material m' ∧
  authChecked m' = authChecked m ∧ rnd = Some (peerChallenge m') ∧
  ∃ id, p = {| pk_Code := CodeResponse; pk_Identifier := pk_Identifier req; pk_Type := TypeMSCHAPv2;
               pk_Data := responseData id (responseValue (peerChallenge m') (ntResponse m')) (ms_Username m) |}.
Proof.
  unfold HandleChallenge. destruct (negb _); [done|]. cbv zeta. intros H.
  run_step H op m1 E. assert (m1 = m) as ->.
  { destruct (len (pk_Data req) <? 5); [done|]. by apply lift_ok in E as [-> _]. }
  destruct (negb (op =? _)); [done|]. run_step H cid m1 E1. apply lift_ok in E1 as [-> _].
  run_step H vs m1 E2. apply lift_ok in E2 as [-> _]. destruct (_ || _); [done|].
  run_step H ac m1 E3. apply lift_ok in E3 as [-> _]. rewrite st_modify in H.
  run_step H pc m1 E4. apply orErr_ok in E4 as [-> ->]. rewrite st_modify, st_get in H.
  run_step H nt m1 E5. apply orErr_ok in E5 as [-> E5]. rewrite st_modify in H.
  run_step H ucs2 m1 E6. apply orErr_ok in E6 as [-> E6]. rewrite st_modify in H.
  run_step H ar m1 E7. apply orErr_ok in E7 as [-> E7]. rewrite st_modify in H.
  injection H as <- <-. split_and!; try done; [|by exists cid]. split_and!; [done|by exists ucs2|done].
Qed.

(** The server's message starts with the authenticator response we expect. *)
Definition proves (m : MSCHAPv2) (req : Packet) : Prop :=
  ∃ msg, messageBody (pk_Data req) = Ok msg ∧ take (length (authResponse m)) msg = authResponse m ∧
         authResponse m ≠ [].

Lemma HandleSuccess_ok req m m' p :
  HandleSuccess req m = (m', Ok p) → m' = with_authChecked true m ∧ proves m req.
Proof.
  unfold HandleSuccess. destruct (negb _); [done|]. cbv zeta. destruct (len (pk_Data req) <? 1); [done|].
  intros H. run_step H op m1 E. apply lift_ok in E as [-> _].
  destruct (op =? opFailure); [done|]. destruct (negb _); [done|].
  run_step H msg m1 E1. apply lift_ok in E1 as [-> E1]. rewrite st_get in H.
  destruct (len (authResponse m) =? 0) eqn:Hz; [done|]. run_step H same m1 E2.
  destruct (len msg <? len (authResponse m)) eqn:Hl; [by injection E2 as -> <-|].
  run_step E2 q m2 E3. apply lift_ok in E3 as [-> E3]. injection E2 as <- <-.
  destruct (bool_decide (q = authResponse m)) eqn:Hq; [|done]. apply bool_decide_eq_true in Hq as ->.
  cbn [negb] in H. rewrite st_modify in H. injection H as <- _. split; [done|].
  exists msg. split; [done|]. apply slice_ok_inv in E3 as [_ Hs].
  rewrite Z.sub_0_r, drop_0 in Hs. unfold len in Hs, Hz. rewrite Nat2Z.id in Hs. split; [done|].
  by destruct (authResponse m).
Qed.

Lemma buildEAPResponse_ok u w req rnd m m' p :
  conv_ok u w m → buildEAPResponse req rnd m = (m', Ok p) →
  conv_ok u w m' ∧ (authChecked m' = authChecked m ∨ material m ∧ proves m req).
Proof.
  intros Hm. unfold buildEAPResponse. destruct (_ =? TypeIdentity); [by intros [= <- _]; auto|].
  destruct (_ =? TypeMSCHAPv2).
  - destruct (len (pk_Data req) =? 0); [done|]. intros H. run_step H op m1 E. apply lift_ok in E as [-> _].
    destruct (op =? 1).
    { apply HandleChallenge_ok in H as (? & ? & ? & ? & _). destruct Hm as (? & ? & _).
      split; [|by left]. split_and!; [congruence..|by right]. }
    destruct (op =? 3); [|by destruct (op =? 4)].
    apply HandleSuccess_ok in H as [-> Hp]. destruct Hm as (? & ? & [[Hn _]|Hmat]).
    { by destruct Hp as (_ & _ & _ & []). }
    split; [|by right]. split_and!; [done..|by right].
  - destruct (_ =? TypeNotification); [by intros [= <- _]; auto|done].
Qed.

(** The requests of the server, each with what crypto/rand delivers, in order. *)
Fixpoint converse (reqs : list (Packet * option bytes)) : ST MSCHAPv2 eap_error (list Packet) :=
  match reqs with
  | [] => mret []
  | (req, rnd) :: rest => p ← buildEAPResponse req rnd; ps ← converse rest; mret (p :: ps)
  end.

Lemma converse_ok u w reqs m m' ps :
  conv_ok u w m → converse reqs m = (m', Ok ps) →
  conv_ok u w m' ∧
  (authChecked m' = authChecked m ∨
   ∃ before req rnd after m1 qs, reqs = before ++ (req, rnd) :: after ∧
     converse before m = (m1, Ok qs) ∧ conv_ok u w m1 ∧ material m1 ∧ proves m1 req).
Proof.
  revert m ps. induction reqs as [|[req rnd] rest IH]; intros m ps Hm; cbn [converse].
  { intros [= <- _]. auto. }
  intros H. run_step H p m1 E. run_step H qs m2 E2. injection H as -> _.
  destruct (buildEAPResponse_ok u w req rnd m m1 p Hm E) as [Hm1 Hc].
  destruct (IH m1 qs Hm1 E2) as [Hm' Hrest]. split; [done|].
  destruct Hrest as [Heq|(before & req' & rnd' & after & m3 & qs' & -> & Hb & ? & ? & ?)].
  - destruct Hc as [Hc|[? ?]]; [left; congruence|right].
    exists [], req, rnd, rest, m, []. auto.
  - right. exists ((req, rnd) :: before), req', rnd', after, m3, (p :: qs'). split; [done|].
    split; [|done]. cbn [converse]. unfold mbind, ST_bind. rewrite E. cbn. by rewrite Hb.
Qed.

Lemma converse_snoc reqs req rnd m0 m m' qs p :
  converse reqs m0 = (m, Ok qs) → buildEAPResponse req rnd m = (m', Ok p) →
  converse (reqs ++ [(req, rnd)]) m0 = (m', Ok (qs ++ [p])).
Proof.
  revert m0 qs. induction reqs as [|[r x] rest IH]; intros m0 qs; cbn [converse app].
  { intros [= -> <-] Hb. unfold mbind, ST_bind. by rewrite Hb. }
  intros H Hb. run_step H q m1 E. run_step H qs' m2 E2. injection H as -> <-.
  unfold mbind, ST_bind. rewrite E. cbn. by rewrite (IH m1 qs' E2 Hb).
Qed.

(** Answering a request never panics. *)
Lemma buildEAPResponse_safe req rnd m :
  bytes_ok (pk_Data req) → safe (buildEAPResponse req rnd m).2.
Proof.
  intros Hb. assert (Hi : ∀ i, 0 ≤ i < len (pk_Data req) → ∃ x, index (E:=eap_error) (pk_Data req) i = Ok x).
  { intros i Hi. destruct (index_ok (E:=eap_error) (pk_Data req) i) as (x & -> & _); [lia..|eauto]. }
  unfold buildEAPResponse. destruct (_ =? TypeIdentity); [done|]. destruct (_ =? TypeMSCHAPv2); [|by destruct (_ =? TypeNotification)].
  destruct (len (pk_Data req) =? 0) eqn:Hl; [done|]. len_pos. bool_prop.
  destruct (Hi 0 ltac:(lia)) as [op Hop]. rewrite Hop, st_lift.
  destruct (op =? 1); [|destruct (op =? 3); [|by destruct (op =? 4)]].
  - unfold HandleChallenge. case_if; [done|]. cbv zeta. destruct (len (pk_Data req) <? 5) eqn:H5; [done|].
    bool_prop. rewrite Hop, st_lift. case_if; [done|].
    destruct (Hi 1 ltac:(lia)) as [x1 ->]. destruct (Hi 4 ltac:(lia)) as [x4 ->]. rewrite !st_lift.
    destruct (_ || _) eqn:Hz; [done|]. bool_prop. unfold authChallengeLen in *.
    rewrite slice_ok by lia. st_step. unfold orErr.
    destruct rnd; [|done]. st_step. destruct (GenerateNTResponse _ _ _ _); [|done]. st_step.
    destruct (ToUTF16 _); [|done]. st_step. by destruct (GenerateAuthenticatorResponse _ _ _ _ _).
  - unfold HandleSuccess. case_if; [done|]. cbv zeta. case_if; [done|]. rewrite Hop, st_lift.
    case_if; [done|]. case_if; [done|]. unfold messageBody, slice_from.
    assert (∃ msg, (if len (pk_Data req) >=? 4 then slice (E:=eap_error) (pk_Data req) 4 (len (pk_Data req))
              else slice (pk_Data req) 1 (len (pk_Data req))) = Ok msg) as [msg ->].
    { case_if; bool_prop; rewrite slice_ok by lia; eauto. }
    rewrite st_lift, st_get. case_if; [done|]. destruct (len msg <? _) eqn:Hm; [done|]. bool_prop. len_pos.
    rewrite slice_ok by lia. st_step. by destruct (negb _).
Qed.

(** Mutual authentication.  Over any sequence of EAP requests that the client has
    answered without an error, it regards the server as verified only if, at some
    point of the conversation, an MSCHAPv2 Success of the server carried the
    authenticator response computed from the password for the server's challenge and
    the peer challenge drawn for it; and what the master session key is then derived
    from belongs to a whole challenge for this user and password. *)
Theorem eap_verified u w reqs m ps :
  converse reqs (NewMSCHAPv2 u w) = (m, Ok ps) → Verified m = true →
  material m ∧ ms_Username m = u ∧ ms_Password m = w ∧
  ∃ before req rnd after m1 qs, reqs = before ++ (req, rnd) :: after ∧
    converse before (NewMSCHAPv2 u w) = (m1, Ok qs) ∧
    ms_Username m1 = u ∧ ms_Password m1 = w ∧ material m1 ∧ proves m1 req.
Proof.
  intros H Hv. destruct (converse_ok u w reqs (NewMSCHAPv2 u w) m ps) as [(? & ? & Hst) Hc]; [|done|].
  { split_and!; [done..|by left]. }
  destruct Hc as [Hc|(before & req & rnd & after & m1 & qs & ? & ? & (? & ? & _) & ? & ?)].
  { unfold Verified in Hv. by rewrite Hc in Hv. }
  split_and!; [|done..|by exists before, req, rnd, after, m1, qs].
  destruct Hst as [(_ & _ & Hf)|?]; [|done]. unfold Verified in Hv. by rewrite Hf in Hv.
Qed.
End conversation.

(** ** A concrete conversation *)

Definition checksum (l : bytes) : Z := u8 (foldr Z.add 0 l).
Definition toy_radius : Radius := {|
  GenerateNTResponse a p u w := Some (replicate 24 (checksum (a ++ p ++ u ++ w)));
  ToUTF16 w := Some w;
  NTPasswordHash w := replicate 16 (checksum (7 :: w));
  GenerateAuthenticatorResponse a p n u w := Some (replicate 42 (checksum (a ++ p ++ n ++ u ++ w)));
  GetMasterKey h n := replicate 16 (checksum (h ++ n));
  GetAsymmetricStartKey k l s := Some (replicate (Z.to_nat l) (checksum k));
|}.

(** The server's challenge, and the Success that proves it knows the password. *)
Definition toy_challenge : Packet :=
  {| pk_Code := CodeRequest; pk_Identifier := 2; pk_Type := TypeMSCHAPv2;
     pk_Data := [opChallenge; 2; 0; 21; authChallengeLen] ++ replicate 16 3 |}.
Definition toy_success (rnd u w : bytes) : Packet :=
  {| pk_Code := CodeRequest; pk_Identifier := 3; pk_Type := TypeMSCHAPv2;
     pk_Data := [opSuccess; 2; 0; 46] ++
       replicate 42 (checksum (replicate 16 3 ++ rnd ++
         replicate 24 (checksum (replicate 16 3 ++ rnd ++ u ++ w)) ++ u ++ w)) |}.

Definition toy_reqs : list (Packet * option bytes) :=
  [(toy_challenge, Some (replicate 16 5)); (toy_success (replicate 16 5) [117] [119], None)].

Lemma eap_verified_witness :
  ∃ m ps, converse (R:=toy_radius) toy_reqs (NewMSCHAPv2 [117] [119]) = (m, Ok ps) ∧ Verified m = true ∧
    material (R:=toy_radius) m ∧ ms_Username m = [117] ∧ ms_Password m = [119].
Proof.
  destruct (converse (R:=toy_radius) toy_reqs (NewMSCHAPv2 [117] [119])) as [m r] eqn:Hc.
  assert (Hr : r = (converse (R:=toy_radius) toy_reqs (NewMSCHAPv2 [117] [119])).2) by (by rewrite Hc).
  assert (Hv : Verified m = true).
  { replace m with (converse (R:=toy_radius) toy_reqs (NewMSCHAPv2 [117] [119])).1 by (by rewrite Hc).
    vm_compute. reflexivity. }
  vm_compute in Hr. subst r.
  destruct (eap_verified (R:=toy_radius) [117] [119] toy_reqs m _ Hc Hv) as (H1 & H2 & H3 & _).
  eauto 8.
Defined.
