(* ===== verification/Auth.v ===== *)
(** * Authentication of the responder (internal/auth)

    The signed octets and the shared-secret AUTH of RFC 7296 2.15, the certificate
    AUTH with its RFC 7427 algorithm identifier, and the checks on the responder's
    certificate chain.  crypto/x509 and encoding/asn1 are the interface [X509]. *)

From S2P Require Import Prelude IkePayload Crypto IkeSA Protected Session.

Inductive auth_error :=
| ErrNoCertificate | ErrParseLeaf | ErrParseIntermediate | ErrChain | ErrEKU | ErrUnverifiableName
| ErrNameMismatch | ErrAuthMethod (m : Z) | ErrSignature | ErrEmptyAuthData | ErrAlgoLength
| ErrEmptySignature | ErrAlgoParse | ErrSignatureOID.

(** "Key Pad for IKEv2" *)
Definition keyPad : bytes :=
  [75; 101; 121; 32; 80; 97; 100; 32; 102; 111; 114; 32; 73; 75; 69; 118; 50].

Definition MethodRSADigitalSignature := 1.
Definition MethodSharedKeyMIC := 2.
Definition MethodDigitalSignature := 14.

Section octets.
Context {P : Primitives}.

Definition SignedOctets (realMessage peerNonce idPrime macKey : bytes) : bytes :=
  realMessage ++ peerNonce ++ prf macKey idPrime.

Definition SharedSecretAuth (secret signedOctets : bytes) : bytes :=
  prf (prf secret keyPad) signedOctets.
End octets.

(** ** Certificates *)

Inductive SignatureAlgorithm :=
| UnknownSignatureAlgorithm | SHA1WithRSA | SHA256WithRSA | SHA384WithRSA | SHA512WithRSA
| ECDSAWithSHA256 | ECDSAWithSHA384 | ECDSAWithSHA512
| SHA256WithRSAPSS | SHA384WithRSAPSS | SHA512WithRSAPSS.

#[export] Instance SignatureAlgorithm_eq_dec : EqDecision SignatureAlgorithm.
Proof. solve_decision. Defined.

Inductive ExtKeyUsage :=
| ExtKeyUsageAny | ExtKeyUsageServerAuth | ExtKeyUsageIPSECEndSystem | ExtKeyUsageIPSECTunnel
| ExtKeyUsageIPSECUser | ExtKeyUsageOther (n : Z).

Abbreviation OID := (list Z).

(** A parsed certificate: the fields the code reads. *)
Record Certificate := {
  cert_raw : bytes;
  cert_ExtKeyUsage : list ExtKeyUsage;
  cert_UnknownExtKeyUsage : list OID;
  cert_EmailAddresses : list bytes;
  cert_RawSubject : bytes;
}.

(** crypto/x509 and encoding/asn1, with the configured root pool. *)
Class X509 := {
  ParseCertificate : bytes → option Certificate;
  x509_Verify (leaf : Certificate) (intermediates : list Certificate) (now : Time) : bool;
  VerifyHostname (leaf : Certificate) (name : bytes) : bool;
  CheckSignature (leaf : Certificate) (algo : SignatureAlgorithm) (signed sig : bytes) : bool;
  (** asn1.Unmarshal into algorithmIdentifier: the OID and Parameters.FullBytes *)
  asn1_algorithmIdentifier : bytes → option (OID * bytes);
  (** asn1.Unmarshal into pssParameters: Hash.Algorithm *)
  asn1_pssParameters : bytes → option OID;
  (** netip.Addr.String *)
  Addr_String : bytes → bytes;
}.

(** auth.PeerName; [pn_IP] is [None] for the invalid address. *)
Record PeerName := {
  pn_DNS : bytes;
  pn_IP : option bytes;
  pn_Email : bytes;
  pn_DN : bytes;
  pn_Unverifiable : bool;
}.
Definition noPeerName : PeerName :=
  {| pn_DNS := []; pn_IP := None; pn_Email := []; pn_DN := []; pn_Unverifiable := false |}.

Definition oidExtKeyUsageIPSECIKE : OID := [1; 3; 6; 1; 5; 5; 7; 3; 17].
Definition oidSHA1WithRSA : OID := [1; 2; 840; 113549; 1; 1; 5].
Definition oidSHA256WithRSA : OID := [1; 2; 840; 113549; 1; 1; 11].
Definition oidSHA384WithRSA : OID := [1; 2; 840; 113549; 1; 1; 12].
Definition oidSHA512WithRSA : OID := [1; 2; 840; 113549; 1; 1; 13].
Definition oidRSAPSS : OID := [1; 2; 840; 113549; 1; 1; 10].
Definition oidECDSAWithSHA256 : OID := [1; 2; 840; 10045; 4; 3; 2].
Definition oidECDSAWithSHA384 : OID := [1; 2; 840; 10045; 4; 3; 3].
Definition oidECDSAWithSHA512 : OID := [1; 2; 840; 10045; 4; 3; 4].
Definition oidSHA256 : OID := [2; 16; 840; 1; 101; 3; 4; 2; 1].
Definition oidSHA384 : OID := [2; 16; 840; 1; 101; 3; 4; 2; 2].
Definition oidSHA512 : OID := [2; 16; 840; 1; 101; 3; 4; 2; 3].

Definition eku_ok (e : ExtKeyUsage) : bool :=
  match e with
  | ExtKeyUsageAny | ExtKeyUsageServerAuth | ExtKeyUsageIPSECEndSystem | ExtKeyUsageIPSECTunnel
  | ExtKeyUsageIPSECUser => true
  | ExtKeyUsageOther _ => false
  end.

Definition leafUsableForServerAuth (leaf : Certificate) : bool :=
  if (len (cert_ExtKeyUsage leaf) =? 0) && (len (cert_UnknownExtKeyUsage leaf) =? 0) then true
  else if existsb eku_ok (cert_ExtKeyUsage leaf) then true
  else existsb (λ oid, bool_decide (oid = oidExtKeyUsageIPSECIKE)) (cert_UnknownExtKeyUsage leaf).

Section x509.
Context {X : X509}.

Definition matchName (leaf : Certificate) (name : PeerName) : Res auth_error unit :=
  if pn_Unverifiable name then Err ErrUnverifiableName
  else if negb (len (pn_DNS name) =? 0) then
    if VerifyHostname leaf (pn_DNS name) then Ok tt else Err ErrNameMismatch
  else
    match pn_IP name with
    | Some ip => if VerifyHostname leaf (Addr_String ip) then Ok tt else Err ErrNameMismatch
    | None =>
        if negb (len (pn_Email name) =? 0) then
          if bool_decide (pn_Email name ∈ cert_EmailAddresses leaf) then Ok tt else Err ErrNameMismatch
        else if negb (len (pn_DN name) =? 0) then
          if bool_decide (cert_RawSubject leaf = pn_DN name) then Ok tt else Err ErrNameMismatch
        else Ok tt
    end.

Fixpoint parseAll (ders : list bytes) : Res auth_error (list Certificate) :=
  match ders with
  | [] => Ok []
  | der :: rest =>
      match ParseCertificate der with
      | None => Err ErrParseIntermediate
      | Some c => cs ← parseAll rest; Ok (c :: cs)
      end
  end.

Definition VerifyServerChain (certsDER : list bytes) (name : PeerName) (now : Time)
    : Res auth_error Certificate :=
  match certsDER with
  | [] => Err ErrNoCertificate
  | der :: rest =>
      match ParseCertificate der with
      | None => Err ErrParseLeaf
      | Some leaf =>
          inter ← parseAll rest;
          if negb (x509_Verify leaf inter now) then Err ErrChain
          else if negb (leafUsableForServerAuth leaf) then Err ErrEKU
          else _ ← matchName leaf name; Ok leaf
      end
  end.

(** ** The certificate AUTH *)

Definition rsaPSSHash (fullBytes : bytes) : SignatureAlgorithm :=
  if len fullBytes =? 0 then SHA256WithRSAPSS
  else
    match asn1_pssParameters fullBytes with
    | None => UnknownSignatureAlgorithm
    | Some h =>
        if bool_decide (h = oidSHA256) then SHA256WithRSAPSS
        else if bool_decide (h = oidSHA384) then SHA384WithRSAPSS
        else if bool_decide (h = oidSHA512) then SHA512WithRSAPSS
        else UnknownSignatureAlgorithm
    end.

Definition oidToSignatureAlgorithm (oid : OID) (params : bytes) : SignatureAlgorithm :=
  if bool_decide (oid = oidSHA1WithRSA) then SHA1WithRSA
  else if bool_decide (oid = oidSHA256WithRSA) then SHA256WithRSA
  else if bool_decide (oid = oidSHA384WithRSA) then SHA384WithRSA
  else if bool_decide (oid = oidSHA512WithRSA) then SHA512WithRSA
  else if bool_decide (oid = oidECDSAWithSHA256) then ECDSAWithSHA256
  else if bool_decide (oid = oidECDSAWithSHA384) then ECDSAWithSHA384
  else if bool_decide (oid = oidECDSAWithSHA512) then ECDSAWithSHA512
  else if bool_decide (oid = oidRSAPSS) then rsaPSSHash params
  else UnknownSignatureAlgorithm.

Definition parseRFC7427 (authData : bytes) : Res auth_error (SignatureAlgorithm * bytes) :=
  if len authData <? 1 then Err ErrEmptyAuthData
  else
    algoLen ← index authData 0;
    if 1 + algoLen >? len authData then Err ErrAlgoLength
    else
      algoDER ← slice authData 1 (1 + algoLen);
      sig ← slice_from authData (1 + algoLen);
      if len sig =? 0 then Err ErrEmptySignature
      else
        match asn1_algorithmIdentifier algoDER with
        | None => Err ErrAlgoParse
        | Some (oid, params) =>
            let algo := oidToSignatureAlgorithm oid params in
            if bool_decide (algo = UnknownSignatureAlgorithm) then Err ErrSignatureOID
            else Ok (algo, sig)
        end.

Definition VerifyCertAuth (method : Z) (authData signedOctets : bytes) (leaf : Certificate)
    : Res auth_error unit :=
  if method =? MethodRSADigitalSignature then
    if CheckSignature leaf SHA1WithRSA signedOctets authData then Ok tt else Err ErrSignature
  else if method =? MethodDigitalSignature then
    '(algo, sig) ← parseRFC7427 authData;
    if CheckSignature leaf algo signedOctets sig then Ok tt else Err ErrSignature
  else Err (ErrAuthMethod method).

(** peerName of ikeauth.go *)
Definition peerName (remote : WireID) : PeerName :=
  let fallthrough :=
    if negb (id_Type remote =? 0) || negb (len (id_Data remote) =? 0)
    then {| pn_DNS := []; pn_IP := None; pn_Email := []; pn_DN := []; pn_Unverifiable := true |}
    else noPeerName in
  if id_Type remote =? IDTypeFQDN then
    {| pn_DNS := id_Data remote; pn_IP := None; pn_Email := []; pn_DN := []; pn_Unverifiable := false |}
  else if id_Type remote =? IDTypeRFC822 then
    {| pn_DNS := []; pn_IP := None; pn_Email := id_Data remote; pn_DN := []; pn_Unverifiable := false |}
  else if (id_Type remote =? IDTypeIPv4) || (id_Type remote =? IDTypeIPv6) then
    if (len (id_Data remote) =? 4) || (len (id_Data remote) =? 16)
    then {| pn_DNS := []; pn_IP := Some (id_Data remote); pn_Email := []; pn_DN := [];
            pn_Unverifiable := false |}
    else fallthrough
  else if id_Type remote =? IDTypeDERASN1DN then
    {| pn_DNS := []; pn_IP := None; pn_Email := []; pn_DN := id_Data remote; pn_Unverifiable := false |}
  else fallthrough.

End x509.

(** ** What the checks establish *)

Section checks.
Context {X : X509}.

(** The certificate carries the configured identity. *)
Definition identity_matches (leaf : Certificate) (remote : WireID) : Prop :=
  if id_Type remote =? IDTypeFQDN then VerifyHostname leaf (id_Data remote) = true
  else if id_Type remote =? IDTypeRFC822 then id_Data remote ∈ cert_EmailAddresses leaf
  else if (id_Type remote =? IDTypeIPv4) || (id_Type remote =? IDTypeIPv6) then
    (len (id_Data remote) = 4 ∨ len (id_Data remote) = 16) ∧
    VerifyHostname leaf (Addr_String (id_Data remote)) = true
  else id_Type remote = IDTypeDERASN1DN ∧ cert_RawSubject leaf = id_Data remote.

(** The chain is trusted and its leaf may act as a gateway. *)
Definition chain_trusted (certs : list bytes) (now : Time) (leaf : Certificate) : Prop :=
  ∃ der rest inter, certs = der :: rest ∧ ParseCertificate der = Some leaf ∧
    parseAll rest = Ok inter ∧ x509_Verify leaf inter now = true ∧ leafUsableForServerAuth leaf = true.

Lemma VerifyServerChain_ok certs name now leaf :
  VerifyServerChain certs name now = Ok leaf → chain_trusted certs now leaf ∧ matchName leaf name = Ok tt.
Proof.
  unfold VerifyServerChain, chain_trusted. destruct certs as [|der rest]; [done|].
  destruct (ParseCertificate der) as [leaf'|] eqn:Hp; [|done].
  destruct (parseAll rest) as [inter|e| |] eqn:Hi; cbn; [|done..].
  destruct (x509_Verify leaf' inter now) eqn:Hv; cbn; [|done].
  destruct (leafUsableForServerAuth leaf') eqn:He; cbn; [|done].
  destruct (matchName leaf' name) as [[]|e| |] eqn:Hm; cbn; [|done..].
  intros [= <-]. split; [|done]. by exists der, rest, inter.
Qed.

Lemma matchName_peerName leaf remote :
  id_Data remote ≠ [] → matchName leaf (peerName remote) = Ok tt → identity_matches leaf remote.
Proof.
  intros Hne. assert (Hl : (len (id_Data remote) =? 0) = false).
  { destruct (id_Data remote); [done|]. rewrite len_cons. len_pos. lia. }
  unfold matchName, peerName, identity_matches. cbv zeta. rewrite Hl, orb_true_r.
  destruct (id_Type remote =? IDTypeFQDN); cbn; rewrite ?len_nil, ?Hl; cbn.
  { by destruct (VerifyHostname _ _). }
  destruct (id_Type remote =? IDTypeRFC822); cbn; rewrite ?len_nil, ?Hl; cbn.
  { destruct (bool_decide _) eqn:Hb; [|done]. by apply bool_decide_eq_true in Hb. }
  destruct (_ || _); cbn.
  { destruct (_ || _) eqn:Hz; cbn; [|done]. rewrite len_nil. cbn.
    destruct (VerifyHostname _ _); [|done]. intros _.
    split; [|done]. apply orb_true_iff in Hz as [?%Z.eqb_eq|?%Z.eqb_eq]; auto. }
  destruct (id_Type remote =? IDTypeDERASN1DN) eqn:Ht; cbn; [|done]. rewrite len_nil, Hl. cbn.
  destruct (bool_decide _) eqn:Hb; [|done]. apply bool_decide_eq_true in Hb. apply Z.eqb_eq in Ht. auto.
Qed.

(** The responder's certificate is accepted only if its chain verifies at the
    present time, its leaf may act as an IKE or TLS server, and, when a non-empty
    RemoteID is configured, of whatever type, the leaf carries that identity: a
    RemoteID of a type that cannot be matched fails the exchange. *)
Theorem remote_identity_enforced certs remote now leaf :
  VerifyServerChain certs (peerName remote) now = Ok leaf →
  chain_trusted certs now leaf ∧ (id_Data remote ≠ [] → identity_matches leaf remote).
Proof.
  intros [? ?]%VerifyServerChain_ok. split; [done|]. intros. by apply matchName_peerName.
Qed.

Lemma parseRFC7427_ok authData :
  bytes_ok authData → yields (λ '(algo, sig), algo ≠ UnknownSignatureAlgorithm ∧ sig ≠ []) (parseRFC7427 authData).
Proof.
  intros Hb. unfold parseRFC7427. go_safe; try done.
  destruct (asn1_algorithmIdentifier _) as [[oid params]|]; [|done]. cbv zeta.
  destruct (bool_decide _) eqn:Hd; [done|]. apply bool_decide_eq_false in Hd. cbn. split; [done|].
  by intros ->.
Qed.
End checks.

(** ** A concrete certificate *)

(** A certificate is its name; every chain verifies, every signature is one octet. *)
Definition toy_x509 : X509 := {|
  ParseCertificate b := Some {| cert_raw := b; cert_ExtKeyUsage := [ExtKeyUsageServerAuth];
                                cert_UnknownExtKeyUsage := []; cert_EmailAddresses := [];
                                cert_RawSubject := b |};
  x509_Verify leaf inter now := true;
  VerifyHostname leaf name := bool_decide (cert_raw leaf = name);
  CheckSignature leaf algo signed sig := bool_decide (len sig = 1);
  asn1_algorithmIdentifier b := None;
  asn1_pssParameters b := None;
  Addr_String b := b;
|}.

Lemma remote_identity_enforced_witness :
  ∃ leaf, VerifyServerChain (X:=toy_x509) [[118; 112; 110]]
      (peerName {| id_Type := IDTypeFQDN; id_Data := [118; 112; 110] |}) zeroTime = Ok leaf ∧
    identity_matches (X:=toy_x509) leaf {| id_Type := IDTypeFQDN; id_Data := [118; 112; 110] |}.
Proof.
  eexists. split; [vm_compute; reflexivity|].
  eapply (remote_identity_enforced (X:=toy_x509) [[118; 112; 110]] _ zeroTime);
    [vm_compute; reflexivity|done].
Defined.
