(* ===== verification/SaInit.v ===== *)
(** * IKE_SA_INIT (internal/session/session.go)

    The exchange primitive of the handshake (send, wait for the matching response,
    retransmit) and the first exchange: building the request, the COOKIE and
    INVALID_KE_PAYLOAD retries, and the derivation of the IKE SA from the response.

    What the socket delivers is the [Network]: the datagrams that arrive during the
    n-th wait of a given duration, in order.  A wait ends with the datagram that is
    taken or, when none is, with the error of the expired context or of the socket. *)

From S2P Require Import Prelude IkePayload IkeMsg Crypto IkeSA Suite Natt Protected Session Rekey.
From S2P Require Import Eap Auth.

Inductive hs_error :=
| HSess (e : sess_error) | HMsg (e : msg_error) | HEap (e : eap_error) | HAuth (e : auth_error)
| ErrUnknownSuite (id : Z) | ErrDial | ErrNoResponse | ErrContext
| ErrExchangeType (x : Z) | ErrNotResponse | ErrInitiatorSPI (spi : Z) | ErrMessageID (id : Z)
| ErrResponderSPIZero | ErrSAInitNoProposal | ErrSAInitSelection | ErrSAInitGroup (g : Z)
| ErrNoProposalChosen | ErrInvalidSyntax | ErrMissingSAKENonce | ErrDHGroup (g : Z)
| ErrAuthBeforeInit | ErrMissingIDr | ErrMissingAuth | ErrMissingEAP | ErrExpectedEAP
| ErrEAPNotVerified | ErrEAPFailure | ErrEAPRounds | ErrAuthFailed | ErrMissingESP | ErrESPSelection.

Class Network := {
  w_arrivals (n : nat) (timeout : Z) : list bytes;
  w_ctxDone : nat → bool;
  w_dial : nat → bool;
  w_migrates : bool;
  w_endpoints : endpoints;
  w_sha1 : bytes → bytes;
}.

(** The socket delivers octets. *)
Class NetworkLaws (N : Network) : Prop := {
  arrivals_ok n t : Forall bytes_ok (w_arrivals n t);
  sha1_ok b : len (w_sha1 b) = 20 ∧ bytes_ok (w_sha1 b);
}.

Abbreviation HM := (ST Session hs_error).

(** An operation of the session used during the handshake. *)
Definition sess {A} (c : SM A) : HM A := wrapST HSess c.

Definition minDuration (a b : Z) : Z := if a <? b then a else b.

(** ** Waiting for the response *)

(** recvMatching over what arrives before the deadline; the fuel is one more than
    the number of datagrams, each turn takes at least one. *)
Fixpoint recvMatching_loop (fuel : nat) (nattMode : bool) (expectMsgID : Z) (incoming : list bytes)
    : Res hs_error (option bytes) :=
  match fuel with
  | O => Hang
  | S fuel =>
      next ← recvDatagram nattMode incoming;
      match next with
      | None => Ok None
      | Some (raw, rest) =>
          match Parse raw with
          | Ok hdr =>
              if negb (m_MessageID hdr =? expectMsgID) then recvMatching_loop fuel nattMode expectMsgID rest
              else if negb (IsResponse (m_Flags hdr)) then recvMatching_loop fuel nattMode expectMsgID rest
              else Ok (Some raw)
          | Err _ => recvMatching_loop fuel nattMode expectMsgID rest
          | Panic => Panic
          | Hang => Hang
          end
      end
  end.

Definition recvMatching (nattMode : bool) (expectMsgID : Z) (incoming : list bytes)
    : Res hs_error (option bytes) :=
  recvMatching_loop (S (length incoming)) nattMode expectMsgID incoming.

Section exchange.
Context {P : Primitives} {W : World} {N : Network}.

(** for attempt := 0; attempt < tries: [n] attempts left *)
Fixpoint exchange_loop (n : nat) (reqBytes : bytes) (expectMsgID backoff : Z) : HM bytes :=
  match n with
  | O => throw ErrNoResponse
  | S n =>
      _ ← sess (sendDatagram reqBytes);
      k ← sess tick;
      s ← getS;
      r ← lift (recvMatching (nattMode s) expectMsgID (w_arrivals k backoff));
      match r with
      | Some raw => mret raw
      | None =>
          if w_ctxDone k then throw ErrContext
          else exchange_loop n reqBytes expectMsgID (minDuration (i64 (backoff * 2)) (retransmitMax (cfg s)))
      end
  end.

Definition exchange (reqBytes : bytes) (expectMsgID : Z) : HM bytes :=
  s ← getS;
  exchange_loop (Z.to_nat (retransmitTries (cfg s))) reqBytes expectMsgID (retransmitBase (cfg s)).

(** ** The request *)

Definition buildSAInit (s : Session) (cookie : bytes) : Res hs_error bytes :=
  d ← deref (dh s);
  let ps := if len cookie >? 0 then [NotifyPayload 0 NotifyCookie [] cookie] else [] in
  let ps := ps ++ [SAPayload (buildProposals [] (enabledIKESuites (cfg s)) [DH_X25519; DH_MODP2048]);
                   KEPayload (dh_Group d) (dh_Public d);
                   NoncePayload (nonceI s)] in
  let ps := appendNATDetection w_sha1 w_endpoints (initiatorSPI s) (responderSPI s) ps in
  wrap_err HMsg (Message_Marshal
    {| m_InitiatorSPI := initiatorSPI s; m_ResponderSPI := 0; m_Exchange := ExchangeIKESAInit;
       m_Flags := FlagInitiator; m_MessageID := 0; m_Payloads := ps |}).

Definition sendSAInit (cookie : bytes) : HM bytes :=
  s ← getS;
  reqBytes ← lift (buildSAInit s cookie);
  _ ← modifyS (set_initSAInitReq reqBytes);
  rspBytes ← exchange reqBytes 0;
  _ ← modifyS (set_initSAInitRsp rspBytes);
  mret rspBytes.

(** The payload loops of saInitCookie and saInitInvalidKE. *)
Fixpoint cookieIn (ps : Payloads) : option bytes :=
  match ps with
  | [] => None
  | NotifyPayload _ t _ data :: rest =>
      if t =? NotifyCookie then
        if (len data =? 0) || (len data >? 64) then None else Some data
      else cookieIn rest
  | _ :: rest => cookieIn rest
  end.

Definition saInitCookie (raw : bytes) : Res hs_error (option bytes) :=
  match Parse raw with
  | Ok m => Ok (cookieIn (m_Payloads m))
  | Err _ => Ok None
  | Panic => Panic
  | Hang => Hang
  end.

Fixpoint invalidKEIn (ps : Payloads) : Res hs_error (option Z) :=
  match ps with
  | [] => Ok None
  | NotifyPayload _ t _ data :: rest =>
      if t =? NotifyInvalidKEPayload then
        if len data >=? 2 then b ← slice data 0 2; g ← Uint16 b; Ok (Some g) else Ok (Some 0)
      else invalidKEIn rest
  | _ :: rest => invalidKEIn rest
  end.

Definition saInitInvalidKE (raw : bytes) : Res hs_error (option Z) :=
  match Parse raw with
  | Ok m => invalidKEIn (m_Payloads m)
  | Err _ => Ok None
  | Panic => Panic
  | Hang => Hang
  end.

(** ** The response *)

Definition saInitNotifyError (t : Z) : option hs_error :=
  if t =? NotifyNoProposalChosen then Some ErrNoProposalChosen
  else if t =? NotifyInvalidSyntax then Some ErrInvalidSyntax
  else None.

(** The locals of the payload loop; [ia_suite] is set once [gotSA] is. *)
Record saInitAcc := {
  ia_suite : option transformSuite;
  ia_gotKE : bool;
  ia_gotNonce : bool;
  ia_notifies : list (Z * bytes);
  ia_err : option hs_error;
}.

Fixpoint saInitPayloads (ps : Payloads) (a : saInitAcc) : HM saInitAcc :=
  match ps with
  | [] => mret a
  | SAPayload props :: rest =>
      s ← getS;
      match props with
      | [] => throw ErrSAInitNoProposal
      | prop :: _ =>
          match selectedSuite prop (enabledIKESuites (cfg s)) with
          | None => throw ErrSAInitSelection
          | Some suite =>
              d ← lift (deref (dh s));
              let g := selectedDHGroup prop in
              if negb (g =? dh_Group d) then throw (ErrSAInitGroup g)
              else saInitPayloads rest {| ia_suite := Some suite; ia_gotKE := ia_gotKE a;
                     ia_gotNonce := ia_gotNonce a; ia_notifies := ia_notifies a; ia_err := ia_err a |}
          end
      end
  | KEPayload _ data :: rest =>
      _ ← modifyS (set_peerDHPub data);
      saInitPayloads rest {| ia_suite := ia_suite a; ia_gotKE := true; ia_gotNonce := ia_gotNonce a;
                             ia_notifies := ia_notifies a; ia_err := ia_err a |}
  | NoncePayload data :: rest =>
      _ ← modifyS (set_nonceR data);
      saInitPayloads rest {| ia_suite := ia_suite a; ia_gotKE := ia_gotKE a; ia_gotNonce := true;
                             ia_notifies := ia_notifies a; ia_err := ia_err a |}
  | NotifyPayload _ t _ data :: rest =>
      let err := match saInitNotifyError t with Some e => Some e | None => ia_err a end in
      let nat := if (t =? NotifyNATDetectionSourceIP) || (t =? NotifyNATDetectionDestinationIP)
                 then ia_notifies a ++ [(t, data)] else ia_notifies a in
      saInitPayloads rest {| ia_suite := ia_suite a; ia_gotKE := ia_gotKE a; ia_gotNonce := ia_gotNonce a;
                             ia_notifies := nat; ia_err := err |}
  | _ :: rest => saInitPayloads rest a
  end.

Definition handleSAInitResponse (raw : bytes) : HM unit :=
  m ← lift (wrap_err HMsg (Parse raw));
  s ← getS;
  if negb (m_Exchange m =? ExchangeIKESAInit) then throw (ErrExchangeType (m_Exchange m))
  else if negb (IsResponse (m_Flags m)) then throw ErrNotResponse
  else if negb (m_InitiatorSPI m =? initiatorSPI s) then throw (ErrInitiatorSPI (m_InitiatorSPI m))
  else if negb (m_MessageID m =? 0) then throw (ErrMessageID (m_MessageID m))
  else if m_ResponderSPI m =? 0 then throw ErrResponderSPIZero
  else
    _ ← modifyS (set_responderSPI (m_ResponderSPI m));
    a ← saInitPayloads (m_Payloads m)
          {| ia_suite := None; ia_gotKE := false; ia_gotNonce := false; ia_notifies := []; ia_err := None |};
    match ia_err a with
    | Some e => throw e
    | None =>
        match ia_suite a with
        | None => throw ErrMissingSAKENonce
        | Some suite =>
            if negb (ia_gotKE a) || negb (ia_gotNonce a) then throw ErrMissingSAKENonce
            else
              _ ← modifyS (λ s, set_natDetected (processNATDetection w_sha1 w_endpoints (initiatorSPI s)
                                   (responderSPI s) (ia_notifies a) (natDetected s)) s);
              s ← getS;
              d ← lift (deref (dh s));
              sh ← lift (wrap_err (HSess ∘ ErrIke) (shared d (peerDHPub s)));
              sa ← lift (wrap_err (HSess ∘ ErrIke) (Derive (su_id suite) Initiator (initiatorSPI s)
                           (responderSPI s) (nonceI s) (nonceR s) sh));
              p ← sess (alloc sa);
              _ ← modifyS (set_ikeSA (Some p));
              modifyS (set_ikeDHGroup (dh_Group d))
        end
    end.

Definition migrateNATT : HM unit := if w_migrates then modifyS (set_nattMode true) else mret tt.

(** ** The exchange *)

Definition checkConfiguredSuites (c : Config) : Res hs_error unit :=
  match checkSuites (ESPSuites c) espSuites with
  | Some id => Err (ErrUnknownSuite id)
  | None =>
      match checkSuites (IKESuites c) ikeSuites with
      | Some id => Err (ErrUnknownSuite id)
      | None => Ok tt
      end
  end.

(** The retry with the group the responder asks for, and its own COOKIE retry. *)
Definition retryInvalidKE (g : Z) (cookie : bytes) : HM unit :=
  s ← getS;
  d ← lift (deref (dh s));
  if negb (supportedDHGroup g) || (g =? dh_Group d) then throw (ErrDHGroup g)
  else
    d' ← sess (NewDH g);
    _ ← modifyS (set_dh (Some d'));
    rspBytes ← sendSAInit cookie;
    c ← lift (saInitCookie rspBytes);
    match c with
    | Some c => _ ← sendSAInit c; mret tt
    | None => mret tt
    end.

(** Sessions are used for one handshake: conn is nil when IKESAInit starts, and it dials. *)
Definition IKESAInit : HM unit :=
  s ← getS;
  _ ← lift (checkConfiguredSuites (cfg s));
  k ← sess tick;
  if negb (w_dial k) then throw ErrDial
  else
    spi ← sess randUint64;
    _ ← modifyS (set_initiatorSPI spi);
    d ← sess (NewDH DH_X25519);
    _ ← modifyS (set_dh (Some d));
    ni ← sess (randBytes nonceLen);
    _ ← modifyS (set_nonceI ni);
    rspBytes ← sendSAInit [];
    c ← lift (saInitCookie rspBytes);
    '(cookie, rspBytes) ← match c with
                          | Some c => r ← sendSAInit c; mret (c, r)
                          | None => mret ([], rspBytes)
                          end;
    ke ← lift (saInitInvalidKE rspBytes);
    _ ← match ke with Some g => retryInvalidKE g cookie | None => mret tt end;
    s ← getS;
    _ ← handleSAInitResponse (initSAInitRsp s);
    _ ← migrateNATT;
    modifyS (set_messageID 1).

End exchange.

(** New(cfg): nothing but the configuration and the PFS preference. *)
Definition New (c : Config) : Session := {|
  cfg := c; sas := []; calls := 0; sent := []; installed := []; initiatorSPI := 0; responderSPI := 0;
  ikeSA := None; dh := None; nonceI := []; nonceR := []; peerDHPub := []; initSAInitReq := [];
  initSAInitRsp := []; messageID := 0; childInitiatorSPI := 0;
  remoteIDr := {| id_Type := 0; id_Data := [] |}; child := None; assigned := noAssigned;
  established := false; nattMode := false; natDetected := false; dataPlane := false; pending := None;
  lastInbound := zeroTime; lastTickWall := zeroTime; fastDPDDue := false;
  childInstalledAt := zeroTime; ikeInstalledAt := zeroTime; nextChildRekey := zeroTime;
  nextIKERekey := zeroTime; nextVolumeRekey := zeroTime; oldIKE := None; oldIKEUntil := zeroTime;
  childReestablish := false; nextChildReestablish := zeroTime; childPFS := ChildSAPFS c;
  ikeDHGroup := 0; childPFSGroup := 0; peer := noPeer; oldPeer := noPeer; oldIKEDelete := None |}.

Definition SetDataPlane (s : Session) : Session := ltac:(with_field s dataPlane true).
