(* ===== verification/IkeAuth.v ===== *)
(** * IKE_AUTH (internal/session/ikeauth.go)

    The authentication exchanges: with a pre-shared key in one round trip, with
    EAP-MSCHAPv2 in the certificate exchange, the EAP rounds and the final one; and
    the installation of the first Child SA. *)

From S2P Require Import Prelude IkePayload IkeMsg Crypto IkeSA Suite Natt Protected Session Rekey.
From S2P Require Import Eap Auth SaInit.

Definition maxEAPRounds : nat := 32.

(** ** Payload helpers *)

Definition buildCPRequest (c : Payloads) (requestIPv6 : bool) : Payloads :=
  let attr t := {| ca_Type := t; ca_Value := [] |} in
  c ++ [ConfigPayload ConfigRequest
          (attr ConfigAttrInternalIP4Address :: attr ConfigAttrInternalIP4Netmask ::
           attr ConfigAttrInternalIP4DNS ::
           (if requestIPv6 then [attr ConfigAttrInternalIP6Address; attr ConfigAttrInternalIP6DNS] else []))].

(** value[:16] of a 16 or 17 octet value; the callers reject anything else. *)
Definition addr16 (value : bytes) : Res hs_error bytes :=
  if (len value =? 16) || (len value =? 17) then slice value 0 16 else Ok [].

(** netip.AddrFromSlice *)
Definition AddrFromSlice (b : bytes) : option bytes :=
  if (len b =? 4) || (len b =? 16) then Some b else None.

Definition cpAttr (a : Assigned) (attr : ConfigAttr) : Res hs_error Assigned :=
  let v := ca_Value attr in
  let t := ca_Type attr in
  let v4 := if len v =? 4 then AddrFromSlice v else None in
  if t =? ConfigAttrInternalIP4Address then
    Ok match v4 with
       | Some ip => {| as_IP := Some ip; as_Netmask := as_Netmask a; as_DNS := as_DNS a;
                       as_IP6 := as_IP6 a; as_DNS6 := as_DNS6 a |}
       | None => a
       end
  else if t =? ConfigAttrInternalIP4Netmask then
    Ok match v4 with
       | Some ip => {| as_IP := as_IP a; as_Netmask := Some ip; as_DNS := as_DNS a;
                       as_IP6 := as_IP6 a; as_DNS6 := as_DNS6 a |}
       | None => a
       end
  else if t =? ConfigAttrInternalIP4DNS then
    Ok match v4 with
       | Some ip => {| as_IP := as_IP a; as_Netmask := as_Netmask a; as_DNS := as_DNS a ++ [ip];
                       as_IP6 := as_IP6 a; as_DNS6 := as_DNS6 a |}
       | None => a
       end
  else if t =? ConfigAttrInternalIP6Address then
    b ← addr16 v;
    match AddrFromSlice b with
    | None => Ok a
    | Some ip =>
        plen ← (if len v =? 17 then index v 16 else Ok 64);
        Ok (if plen <=? 128
            then {| as_IP := as_IP a; as_Netmask := as_Netmask a; as_DNS := as_DNS a;
                    as_IP6 := Some (ip, plen); as_DNS6 := as_DNS6 a |}
            else a)
    end
  else if t =? ConfigAttrInternalIP6DNS then
    Ok match (if len v =? 16 then AddrFromSlice v else None) with
       | Some ip => {| as_IP := as_IP a; as_Netmask := as_Netmask a; as_DNS := as_DNS a;
                       as_IP6 := as_IP6 a; as_DNS6 := as_DNS6 a ++ [ip] |}
       | None => a
       end
  else Ok a.

Fixpoint cpAttrs (a : Assigned) (attrs : list ConfigAttr) : Res hs_error Assigned :=
  match attrs with
  | [] => Ok a
  | attr :: rest => a' ← cpAttr a attr; cpAttrs a' rest
  end.

Definition parseCPReply (attrs : list ConfigAttr) : Res hs_error Assigned := cpAttrs noAssigned attrs.

(** v |= a[i] ^ b[i] over the common length *)
Definition constTimeEqual (a b : bytes) : bool :=
  if negb (len a =? len b) then false
  else foldl Z.lor 0 (zip_with Z.lxor a b) =? 0.

(** The first EAP payload, parsed; [None] when there is none. *)
Fixpoint firstEAP (ps : Payloads) : Res hs_error (option Packet) :=
  match ps with
  | [] => Ok None
  | EAPPayload data :: _ => p ← wrap_err HEap (Packet_Parse data); Ok (Some p)
  | _ :: rest => firstEAP rest
  end.

(** What the payload loops of handleAuthResponse and handleFinalAuthResponse keep. *)
Record authAcc := {
  aa_idr : option WireID;
  aa_certs : list bytes;
  aa_auth : option (Z * bytes);
  aa_sa : option (list Proposal);
  aa_cp : option (list ConfigAttr);
}.
Definition noAuthAcc : authAcc :=
  {| aa_idr := None; aa_certs := []; aa_auth := None; aa_sa := None; aa_cp := None |}.

Definition authCollect (a : authAcc) (p : Payload) : authAcc :=
  match p with
  | IDrPayload t d => {| aa_idr := Some {| id_Type := u8 t; id_Data := d |}; aa_certs := aa_certs a;
                         aa_auth := aa_auth a; aa_sa := aa_sa a; aa_cp := aa_cp a |}
  | CertPayload _ d => {| aa_idr := aa_idr a; aa_certs := aa_certs a ++ [d]; aa_auth := aa_auth a;
                          aa_sa := aa_sa a; aa_cp := aa_cp a |}
  | AuthPayload m d => {| aa_idr := aa_idr a; aa_certs := aa_certs a; aa_auth := Some (m, d);
                          aa_sa := aa_sa a; aa_cp := aa_cp a |}
  | SAPayload props => {| aa_idr := aa_idr a; aa_certs := aa_certs a; aa_auth := aa_auth a;
                          aa_sa := Some props; aa_cp := aa_cp a |}
  | ConfigPayload _ attrs => {| aa_idr := aa_idr a; aa_certs := aa_certs a; aa_auth := aa_auth a;
                                aa_sa := aa_sa a; aa_cp := Some attrs |}
  | _ => a
  end.

(** The loop, left at the first error notify. *)
Fixpoint authPayloads (a : authAcc) (ps : Payloads) : Res hs_error authAcc :=
  match ps with
  | [] => Ok a
  | NotifyPayload _ t _ _ :: rest =>
      match notifyError t with Some e => Err (HSess e) | None => authPayloads a rest end
  | p :: rest => authPayloads (authCollect a p) rest
  end.

Section auth.
Context {P : Primitives} {W : World} {N : Network} {R : Radius} {X : X509}.

(** ** The exchanges *)

Definition exchangeSK (exchangeType msgID : Z) (inner : Payloads) : HM Payloads :=
  flags ← sess (p ← current; roleBit p);
  reqBytes ← sess (encodeSK exchangeType flags msgID inner);
  rawResp ← exchange reqBytes msgID;
  '(_, payloads, _) ← sess (decodeIKE rawResp);
  mret payloads.

Definition allocChildSPI : HM bytes :=
  spi ← sess (randBytes 4);
  v ← lift (Uint32 spi);
  _ ← modifyS (set_childInitiatorSPI v);
  mret spi.

(** ** AUTH values *)

Definition initiatorSignedOctets (s : Session) (ike : IKESA) : bytes :=
  SignedOctets (initSAInitReq s) (nonceR s)
    (MarshalIDBody (id_Type (LocalID (cfg s))) (id_Data (LocalID (cfg s)))) (SKpi ike).

Definition responderSignedOctets (s : Session) (ike : IKESA) (idrPrime : bytes) : bytes :=
  SignedOctets (initSAInitRsp s) (nonceI s) idrPrime (SKpr ike).

Definition computeInitiatorAuth (secret : bytes) : HM bytes :=
  ike ← sess (p ← current; load p);
  s ← getS;
  mret (SharedSecretAuth secret (initiatorSignedOctets s ike)).

(** ** Responses *)

Definition handleAuthResponse (payloads : Payloads) : HM Packet :=
  a ← lift (authPayloads noAuthAcc payloads);
  match aa_idr a with
  | None => throw ErrMissingIDr
  | Some idr =>
      _ ← modifyS (set_remoteIDr idr);
      s ← getS;
      t ← sess now;
      leaf ← lift (wrap_err HAuth (VerifyServerChain (aa_certs a) (peerName (RemoteID (cfg s))) t));
      match aa_auth a with
      | None => throw ErrMissingAuth
      | Some (method, data) =>
          ike ← sess (p ← current; load p);
          let respSigned := responderSignedOctets s ike (MarshalIDBody (id_Type idr) (id_Data idr)) in
          _ ← lift (wrap_err HAuth (VerifyCertAuth method data respSigned leaf));
          eapReq ← lift (firstEAP payloads);
          match eapReq with Some p => mret p | None => throw ErrMissingEAP end
      end
  end.

(** The Child SA from the responder's proposals. *)
Definition selectChild (props : option (list Proposal)) : HM unit :=
  s ← getS;
  match props with
  | None | Some [] => throw ErrMissingESP
  | Some (prop :: _) =>
      match selectedSuite prop (enabledESPSuites (cfg s)) with
      | None => throw ErrESPSelection
      | Some suite =>
          if negb (len (pr_SPI prop) =? 4) then throw ErrESPSelection
          else
            respSPI ← lift (Uint32 (pr_SPI prop));
            ike ← sess (p ← current; load p);
            keys ← lift (wrap_err (HSess ∘ ErrIke) (DeriveChildKeys ike (nonceI s) (nonceR s)
                           (su_encrKeyLen suite) (su_integKeyLen suite)));
            modifyS (set_child (Some {| ch_InitiatorSPI := childInitiatorSPI s; ch_ResponderSPI := respSPI;
                                        ch_Suite := su_id suite; ch_Keys := keys |}))
      end
  end.

Definition handleFinalAuthResponse (payloads : Payloads) (secret : bytes) : HM unit :=
  a ← lift (authPayloads noAuthAcc payloads);
  match aa_auth a with
  | None => throw ErrMissingAuth
  | Some (method, data) =>
      _ ← match aa_idr a with Some idr => modifyS (set_remoteIDr idr) | None => mret tt end;
      s ← getS;
      let idr := remoteIDr s in
      if (id_Type idr =? 0) && (len (id_Data idr) =? 0) then throw ErrMissingIDr
      else
        ike ← sess (p ← current; load p);
        let want := SharedSecretAuth secret
                      (responderSignedOctets s ike (MarshalIDBody (id_Type idr) (id_Data idr))) in
        if negb (method =? MethodSharedKeyMIC) || negb (constTimeEqual data want) then throw ErrAuthFailed
        else
          _ ← selectChild (aa_sa a);
          _ ← match aa_cp a with
              | Some attrs => v ← lift (parseCPReply attrs); modifyS (set_assigned v)
              | None => mret tt
              end;
          modifyS (set_established true)
  end.

(** ** The two credentials *)

Definition ikeAuthPSK : HM unit :=
  spi ← allocChildSPI;
  s ← getS;
  mac ← computeInitiatorAuth (PSK (cfg s));
  let first := [IDiPayload (id_Type (LocalID (cfg s))) (id_Data (LocalID (cfg s)));
                AuthPayload MethodSharedKeyMIC mac;
                SAPayload (buildProposals spi (enabledESPSuites (cfg s)) preferredDHGroups)] in
  let first := buildCPRequest (appendTrafficSelectors first (RequestIPv6 (cfg s))) (RequestIPv6 (cfg s)) in
  resp ← exchangeSK ExchangeIKEAuth (messageID s) first;
  _ ← sess nextMessageID;
  match firstNotifyError resp with
  | Some e => throw (HSess e)
  | None => handleFinalAuthResponse resp (PSK (cfg s))
  end.

(** One EAP round: answer the request, return the next one. *)
Definition eapRound (mschap : MSCHAPv2) (eapReq : Packet) : HM (MSCHAPv2 * Packet) :=
  rnd ← sess (attempt (randBytes peerChallengeLen));
  let '(mschap, r) := buildEAPResponse eapReq match rnd with inr b => Some b | inl _ => None end mschap in
  eapResp ← lift (wrap_err HEap r);
  s ← getS;
  resp ← exchangeSK ExchangeIKEAuth (messageID s) [EAPPayload (Packet_Marshal eapResp)];
  _ ← sess nextMessageID;
  match firstNotifyError resp with
  | Some e => throw (HSess e)
  | None =>
      next ← lift (firstEAP resp);
      match next with Some p => mret (mschap, p) | None => throw ErrExpectedEAP end
  end.

(** for round := 0; ; round++: [n] rounds left before maxEAPRounds *)
Fixpoint eapLoop (n : nat) (mschap : MSCHAPv2) (eapReq : Packet) : HM MSCHAPv2 :=
  match n with
  | O => throw ErrEAPRounds
  | S n =>
      if pk_Code eapReq =? CodeSuccess then
        let '(phh, ntResp) := MSKInputs mschap in
        if (len phh >? 0) && (len ntResp >? 0) && negb (Verified mschap) then throw ErrEAPNotVerified
        else mret mschap
      else if pk_Code eapReq =? CodeFailure then throw ErrEAPFailure
      else
        '(mschap, next) ← eapRound mschap eapReq;
        eapLoop n mschap next
  end.

Definition ikeAuthEAP : HM unit :=
  spi ← allocChildSPI;
  s ← getS;
  let first := [IDiPayload (id_Type (LocalID (cfg s))) (id_Data (LocalID (cfg s)));
                SAPayload (buildProposals spi (enabledESPSuites (cfg s)) preferredDHGroups)] in
  let first := buildCPRequest (appendTrafficSelectors first (RequestIPv6 (cfg s))) (RequestIPv6 (cfg s)) in
  respPayloads ← exchangeSK ExchangeIKEAuth (messageID s) first;
  _ ← sess nextMessageID;
  eapReq ← handleAuthResponse respPayloads;
  mschap ← eapLoop maxEAPRounds (NewMSCHAPv2 (EAPUser (cfg s)) (EAPPass (cfg s))) eapReq;
  let '(phh, ntResp) := MSKInputs mschap in
  msk ← lift (wrap_err HEap (DeriveMSK phh ntResp));
  initiatorAuth ← computeInitiatorAuth msk;
  s ← getS;
  finalResp ← exchangeSK ExchangeIKEAuth (messageID s) [AuthPayload MethodSharedKeyMIC initiatorAuth];
  _ ← sess nextMessageID;
  handleFinalAuthResponse finalResp msk.

Definition IKEAuth : HM unit :=
  s ← getS;
  match ikeSA s with
  | None => throw ErrAuthBeforeInit
  | Some _ => if len (PSK (cfg s)) >? 0 then ikeAuthPSK else ikeAuthEAP
  end.

(** defaultDialSession of ipsec.go: the two exchanges on a new session. *)
Definition handshake : HM unit := _ ← IKESAInit; IKEAuth.

End auth.
