(* ===== verification/Config.v ===== *)
(** * The public configuration (config.go, identity.go, toSessionConfig of ipsec.go)

    Identities and their constructors, the checks and defaults of
    [Config.validate], and the translation of a validated configuration into the
    session's.  Strings are their octets; a nil logger, root pool or transport is
    not represented, since none of the code below branches on it. *)

From stdpp Require Import strings.
From S2P Require Import Prelude IkePayload IkeMsg Crypto Esp IkeSA Suite Natt Replay Session.
From S2P Require Import Protected Auth SaInit IkeAuth.

(** ** Identities *)

Definition IDKindNone := 0.
Definition IDKindIPv4 := IDTypeIPv4.
Definition IDKindFQDN := IDTypeFQDN.
Definition IDKindEmail := IDTypeRFC822.
Definition IDKindIPv6 := IDTypeIPv6.
Definition IDKindKeyID := IDTypeKeyID.
Definition idKindInvalid := 255.

Record Identity := { Kind : Z; Data : bytes }.

Definition noIdentity : Identity := {| Kind := IDKindNone; Data := [] |}.

Definition FQDN (name : bytes) : Identity := {| Kind := IDKindFQDN; Data := name |}.
Definition Email (addr : bytes) : Identity := {| Kind := IDKindEmail; Data := addr |}.
Definition KeyID (id : bytes) : Identity := {| Kind := IDKindKeyID; Data := id |}.

(** netip.Addr.Is4In6: ::ffff:0:0/96 *)
Definition Is4In6 (a : bytes) : bool := bool_decide (take 12 a = zeros 10 ++ [255; 255]).

(** addr.Unmap() *)
Definition Unmap (a : Addr) : Addr :=
  match a with
  | Addr6 b => if Is4In6 b then Addr4 (drop 12 b) else a
  | Addr4 _ => a
  end.

(** [None] is the zero netip.Addr. *)
Definition IPv4 (addr : option Addr) : Identity :=
  match Unmap <$> addr with
  | Some (Addr4 a) => {| Kind := IDKindIPv4; Data := a |}
  | _ => {| Kind := idKindInvalid; Data := [] |}
  end.

Definition IPv6 (addr : option Addr) : Identity :=
  match addr with
  | Some (Addr6 a) => if Is4In6 a then {| Kind := idKindInvalid; Data := [] |}
                      else {| Kind := IDKindIPv6; Data := a |}
  | _ => {| Kind := idKindInvalid; Data := [] |}
  end.

Definition Identity_IsZero (id : Identity) : bool := Kind id =? IDKindNone.

Inductive cfg_error :=
| ErrIPv4Data (n : Z)
| ErrIPv6Data (n : Z)
| ErrEmptyIdentity
| ErrIdentityKind (k : Z)
| ErrServerRequired
| ErrBothCredentials
| ErrNoCredentials
| ErrUsernameRequired
| ErrPasswordRequired
| ErrLocalIDRequired
| ErrLocalID (e : cfg_error)
| ErrRemoteID (e : cfg_error)
| ErrSuiteNotForLayer (cs : Z)
| ErrSuiteUnknown (cs : Z)
| ErrSuiteDuplicate (cs : Z).

Definition check (id : Identity) : Res cfg_error unit :=
  if Kind id =? IDKindNone then Ok tt
  else if Kind id =? IDKindIPv4 then
    if negb (len (Data id) =? 4) then Err (ErrIPv4Data (len (Data id))) else Ok tt
  else if Kind id =? IDKindIPv6 then
    if negb (len (Data id) =? 16) then Err (ErrIPv6Data (len (Data id))) else Ok tt
  else if (Kind id =? IDKindFQDN) || (Kind id =? IDKindEmail) || (Kind id =? IDKindKeyID) then
    if len (Data id) =? 0 then Err ErrEmptyIdentity else Ok tt
  else Err (ErrIdentityKind (Kind id)).

(** strings.Contains(username, "@") *)
Definition defaultEAPIdentity (username : bytes) : Identity :=
  if existsb (Z.eqb 64) username then Email username else FQDN username.

Definition idType (id : Identity) : Z := Kind id.
Definition idData (id : Identity) : bytes := Data id.
Definition identityFromWire (ty : Z) (data : bytes) : Identity := {| Kind := ty; Data := data |}.

(** ** Cipher suites *)

Definition CipherSuiteAESGCM256 := 1.
Definition CipherSuiteChaCha20Poly1305 := 2.
Definition CipherSuiteAESCBC256SHA256 := 3.

Definition espSuite (cs : Z) : option Z :=
  if cs =? CipherSuiteAESGCM256 then Some Esp.SuiteAESGCM256
  else if cs =? CipherSuiteChaCha20Poly1305 then Some Esp.SuiteChaCha20Poly1305
  else if cs =? CipherSuiteAESCBC256SHA256 then Some Esp.SuiteAESCBC256SHA256
  else None.

Definition ikeSuite (cs : Z) : option Z :=
  if cs =? CipherSuiteAESGCM256 then Some IkeSA.SuiteAESGCM256
  else if cs =? CipherSuiteChaCha20Poly1305 then Some IkeSA.SuiteChaCha20Poly1305
  else if cs =? CipherSuiteAESCBC256SHA256 then Some IkeSA.SuiteAESCBC256SHA256
  else None.

Definition known {A} (o : option A) : bool := match o with Some _ => true | None => false end.

Definition defined (cs : Z) : bool := known (espSuite cs) || known (ikeSuite cs).

(** The loop of validateCipherSuites; [seen] are the values met so far. *)
Fixpoint validateCipherSuites_loop (knownTo : Z → bool) (suites seen : list Z) : Res cfg_error unit :=
  match suites with
  | [] => Ok tt
  | cs :: rest =>
      if negb (knownTo cs) then
        if defined cs then Err (ErrSuiteNotForLayer cs) else Err (ErrSuiteUnknown cs)
      else if existsb (Z.eqb cs) seen then Err (ErrSuiteDuplicate cs)
      else validateCipherSuites_loop knownTo rest (cs :: seen)
  end.

Definition validateCipherSuites (suites : list Z) (knownTo : Z → bool) : Res cfg_error unit :=
  validateCipherSuites_loop knownTo suites [].

(** ** Config *)

Definition Hour : Z := 60 * Minute.
Definition DefaultMTU : Z := 1400.
Definition MinMTU : Z := 576.
Definition DefaultKeepAlive : Z := 20 * Second.
Definition DefaultDPDTimeout : Z := 30 * Second.
Definition DefaultRekeyLifetime : Z := Hour.
Definition DefaultIKERekeyLifetime : Z := 4 * Hour.
Definition DefaultReplayWindow : Z := 64.
Definition MinRekeyMaxPackets : Z := 4096.
Definition DefaultRetransmitBase : Z := 2 * Second.
Definition DefaultRetransmitMax : Z := 30 * Second.
Definition DefaultRetransmitTries : Z := 5.
Definition DefaultReconnectBackoffBase : Z := 1 * Second.
Definition DefaultReconnectBackoffMax : Z := 30 * Second.
Definition DefaultReconnectAttemptTimeout : Z := 20 * Second.

(** The two pointers to bool are options; durations are nanoseconds. *)
Record ClientConfig := mkConfig {
  cc_Server : bytes;
  cc_LocalID : Identity;
  cc_RemoteID : Identity;
  cc_Username : bytes;
  cc_Password : bytes;
  cc_PSK : bytes;
  cc_MTU : Z;
  cc_KeepAlive : Z;
  cc_DPDTimeout : Z;
  cc_RekeyLifetime : Z;
  cc_IKERekeyLifetime : Z;
  cc_ReplayWindow : Z;
  cc_RekeyMaxPackets : Z;
  cc_ESPCipherSuites : list Z;
  cc_IKECipherSuites : list Z;
  cc_ChildSAPFS : bool;
  cc_RequestIPv6 : option bool;
  cc_AutoReconnect : option bool;
  cc_ReconnectBackoffBase : Z;
  cc_ReconnectBackoffMax : Z;
  cc_ReconnectAttemptTimeout : Z;
}.

Definition autoReconnectEnabled (c : ClientConfig) : bool :=
  match cc_AutoReconnect c with None => true | Some b => b end.
Definition requestIPv6Enabled (c : ClientConfig) : bool :=
  match cc_RequestIPv6 c with None => true | Some b => b end.

Definition set (s : bytes) : bool := negb (bool_decide (s = [])).

(** The switch over the credentials. *)
Definition checkCredentials (c : ClientConfig) : Res cfg_error unit :=
  let hasPSK := set (cc_PSK c) in
  let hasEAP := set (cc_Username c) || set (cc_Password c) in
  if hasPSK && hasEAP then Err ErrBothCredentials
  else if negb hasPSK && negb hasEAP then Err ErrNoCredentials
  else if hasEAP then
    if negb (set (cc_Username c)) then Err ErrUsernameRequired
    else if negb (set (cc_Password c)) then Err ErrPasswordRequired
    else Ok tt
  else Ok tt.

(** The LocalID after its default. *)
Definition resolveLocalID (c : ClientConfig) : Res cfg_error Identity :=
  if Identity_IsZero (cc_LocalID c) then
    if set (cc_PSK c) then Err ErrLocalIDRequired else Ok (defaultEAPIdentity (cc_Username c))
  else Ok (cc_LocalID c).

(** A duration knob: zero and negative mean unset. *)
Definition orDefault (d def : Z) : Z := if d <=? 0 then def else d.

Definition validate (c : ClientConfig) : Res cfg_error ClientConfig :=
  if negb (set (cc_Server c)) then Err ErrServerRequired
  else
    _ ← checkCredentials c;
    localID ← resolveLocalID c;
    _ ← wrap_err ErrLocalID (check localID);
    _ ← wrap_err ErrRemoteID (check (cc_RemoteID c));
    _ ← validateCipherSuites (cc_ESPCipherSuites c) (λ cs, known (espSuite cs));
    _ ← validateCipherSuites (cc_IKECipherSuites c) (λ cs, known (ikeSuite cs));
    let mtu := if cc_MTU c =? 0 then DefaultMTU else cc_MTU c in
    let win := if cc_ReplayWindow c =? 0 then DefaultReplayWindow else cc_ReplayWindow c in
    Ok (mkConfig (cc_Server c) localID (cc_RemoteID c) (cc_Username c) (cc_Password c) (cc_PSK c)
          (if mtu <? MinMTU then MinMTU else mtu)
          (orDefault (cc_KeepAlive c) DefaultKeepAlive)
          (orDefault (cc_DPDTimeout c) DefaultDPDTimeout)
          (orDefault (cc_RekeyLifetime c) DefaultRekeyLifetime)
          (orDefault (cc_IKERekeyLifetime c) DefaultIKERekeyLifetime)
          (if win >? MaxReplayWindow then MaxReplayWindow else win)
          (if negb (cc_RekeyMaxPackets c =? 0) && (cc_RekeyMaxPackets c <? MinRekeyMaxPackets)
           then MinRekeyMaxPackets else cc_RekeyMaxPackets c)
          (cc_ESPCipherSuites c) (cc_IKECipherSuites c) (cc_ChildSAPFS c) (cc_RequestIPv6 c)
          (cc_AutoReconnect c)
          (orDefault (cc_ReconnectBackoffBase c) DefaultReconnectBackoffBase)
          (orDefault (cc_ReconnectBackoffMax c) DefaultReconnectBackoffMax)
          (orDefault (cc_ReconnectAttemptTimeout c) DefaultReconnectAttemptTimeout)).

(** ** The session's configuration *)

Definition espSuitesFromConfig (suites : list Z) : list Z := omap espSuite suites.
Definition ikeSuitesFromConfig (suites : list Z) : list Z := omap ikeSuite suites.

Definition toSessionConfig (c : ClientConfig) : Config := {|
  LocalID := {| id_Type := idType (cc_LocalID c); id_Data := idData (cc_LocalID c) |};
  RemoteID := {| id_Type := idType (cc_RemoteID c); id_Data := idData (cc_RemoteID c) |};
  EAPUser := cc_Username c;
  EAPPass := cc_Password c;
  PSK := cc_PSK c;
  DPDTimeout := cc_DPDTimeout c;
  RekeyLifetime := cc_RekeyLifetime c;
  IKERekeyLifetime := cc_IKERekeyLifetime c;
  RekeyMaxPackets := cc_RekeyMaxPackets c;
  ChildSAPFS := cc_ChildSAPFS c;
  ESPSuites := espSuitesFromConfig (cc_ESPCipherSuites c);
  IKESuites := ikeSuitesFromConfig (cc_IKECipherSuites c);
  RequestIPv6 := requestIPv6Enabled c;
  RetransmitBase := DefaultRetransmitBase;
  RetransmitMax := DefaultRetransmitMax;
  RetransmitTries := DefaultRetransmitTries;
|}.

(** withDefaultPort of session.go: 58 is a colon, 93 a closing bracket.  The scan
    goes from the last octet to the first. *)
Fixpoint hasPort (rev_server : bytes) : bool :=
  match rev_server with
  | [] => false
  | b :: rest => if b =? 58 then true else if b =? 93 then false else hasPort rest
  end.
Definition withDefaultPort (server : bytes) : bytes :=
  if hasPort (rev server) then server else server ++ [58; 53; 48; 48].

(** ** Rendering

    What fmt and slog are asked to print, in order: literal text, %q and %v of a
    string, %d. *)
Inductive token := Text (s : string) | Quoted (s : bytes) | Shown (s : bytes) | Number (z : Z).

Definition redactSecret (s : bytes) : list token :=
  if bool_decide (s = []) then [Text "<unset>"] else [Text "<redacted>"].

Section rendering.
(** netip.Addr.String and %x. *)
Context (addrString hexString : bytes → bytes).

Definition Identity_String (id : Identity) : list token :=
  if Kind id =? IDKindNone then [Text "<unset>"]
  else if Kind id =? idKindInvalid then [Text "<invalid>"]
  else if (Kind id =? IDKindIPv4) || (Kind id =? IDKindIPv6) then
    if (len (Data id) =? 4) || (len (Data id) =? 16) then [Shown (addrString (Data id))]
    else [Text "ip:"; Shown (hexString (Data id))]
  else if Kind id =? IDKindKeyID then [Text "keyid:"; Shown (hexString (Data id))]
  else [Shown (Data id)].

Definition EAPMSCHAPv2_String (username password : bytes) : list token :=
  [Text "ipsec.EAPMSCHAPv2{Username: "; Quoted username; Text ", Password: "] ++
  redactSecret password ++ [Text "}"].

Definition Config_String (c : ClientConfig) : list token :=
  [Text "ipsec.Config{Server: "; Quoted (cc_Server c); Text ", LocalID: "] ++
  Identity_String (cc_LocalID c) ++ [Text ", RemoteID: "] ++ Identity_String (cc_RemoteID c) ++
  [Text ", EAP: "] ++ EAPMSCHAPv2_String (cc_Username c) (cc_Password c) ++
  [Text ", PSK: "] ++ redactSecret (cc_PSK c) ++ [Text ", MTU: "; Number (cc_MTU c); Text "}"].

Definition EAPMSCHAPv2_LogValue (username password : bytes) : list (string * list token) :=
  [("username", [Shown username]); ("password", redactSecret password)]%string.

Definition Config_LogValue (c : ClientConfig) : list (string * list token) :=
  [("server", [Shown (cc_Server c)]);
   ("localID", Identity_String (cc_LocalID c));
   ("remoteID", Identity_String (cc_RemoteID c));
   ("eapUser", [Shown (cc_Username c)]);
   ("psk", redactSecret (cc_PSK c))]%string.
End rendering.

(** ** What validate accepts *)

Definition well_formed (id : Identity) : Prop :=
  Kind id = IDKindNone ∨ (Kind id = IDKindIPv4 ∧ len (Data id) = 4) ∨
  (Kind id = IDKindIPv6 ∧ len (Data id) = 16) ∨
  ((Kind id = IDKindFQDN ∨ Kind id = IDKindEmail ∨ Kind id = IDKindKeyID) ∧ Data id ≠ []).

(** Distinct suites, each of them one of the three that are defined. *)
Definition suites_ok (l : list Z) : Prop := NoDup l ∧ ∀ cs, cs ∈ l → 1 ≤ cs ≤ 3.

Definition psk_login (c : ClientConfig) : Prop :=
  cc_PSK c ≠ [] ∧ cc_Username c = [] ∧ cc_Password c = [] ∧ Kind (cc_LocalID c) ≠ IDKindNone.
Definition eap_login (c : ClientConfig) : Prop :=
  cc_PSK c = [] ∧ cc_Username c ≠ [] ∧ cc_Password c ≠ [].

Record acceptable (c : ClientConfig) : Prop := {
  ac_server : cc_Server c ≠ [];
  ac_login : psk_login c ∨ eap_login c;
  ac_local : well_formed (cc_LocalID c);
  ac_remote : well_formed (cc_RemoteID c);
  ac_esp : suites_ok (cc_ESPCipherSuites c);
  ac_ike : suites_ok (cc_IKECipherSuites c);
}.

(** What a validated configuration satisfies besides. *)
Record sane (c : ClientConfig) : Prop := {
  sn_acceptable : acceptable c;
  sn_local : Kind (cc_LocalID c) ≠ IDKindNone;
  sn_mtu : MinMTU ≤ cc_MTU c;
  sn_timers : 0 < cc_KeepAlive c ∧ 0 < cc_DPDTimeout c ∧ 0 < cc_RekeyLifetime c ∧ 0 < cc_IKERekeyLifetime c;
  sn_backoff : 0 < cc_ReconnectBackoffBase c ∧ 0 < cc_ReconnectBackoffMax c ∧
               0 < cc_ReconnectAttemptTimeout c;
  sn_window : cc_ReplayWindow c ≠ 0 ∧ cc_ReplayWindow c ≤ MaxReplayWindow;
  sn_packets : cc_RekeyMaxPackets c = 0 ∨ MinRekeyMaxPackets ≤ cc_RekeyMaxPackets c;
}.

Lemma set_spec s : set s = true ↔ s ≠ [].
Proof. unfold set. case_bool_decide; cbn; naive_solver. Qed.

Lemma set_false s : set s = false ↔ s = [].
Proof. unfold set. case_bool_decide; cbn; naive_solver. Qed.

Lemma check_spec id : check id = Ok tt ↔ well_formed id.
Proof.
  assert (Hl : len (Data id) = 0 ↔ Data id = []).
  { destruct (Data id); [done|]. rewrite len_cons. len_pos. split; [lia|done]. }
  unfold check, well_formed, IDKindNone, IDKindIPv4, IDKindIPv6, IDKindFQDN, IDKindEmail, IDKindKeyID,
    IDTypeIPv4, IDTypeIPv6, IDTypeFQDN, IDTypeRFC822, IDTypeKeyID.
  destruct (Kind id =? 0) eqn:H0; bool_prop; [split; auto|].
  destruct (Kind id =? 1) eqn:H1; bool_prop.
  { destruct (len (Data id) =? 4) eqn:H; cbn; bool_prop; split; intros; auto; try done. intuition lia. }
  destruct (Kind id =? 5) eqn:H5; bool_prop.
  { destruct (len (Data id) =? 16) eqn:H; cbn; bool_prop; split; intros; auto; try done. intuition lia. }
  destruct (_ || _) eqn:Hk.
  - assert (Kind id = 2 ∨ Kind id = 3 ∨ Kind id = 11) as Hk' by (rewrite !orb_true_iff, !Z.eqb_eq in Hk; tauto).
    destruct (len (Data id) =? 0) eqn:H; cbn; bool_prop; split; intros; try done; intuition lia.
  - rewrite !orb_false_iff, !Z.eqb_neq in Hk. split; [done|]. intuition lia.
Qed.

Lemma suite_known cs :
  (known (espSuite cs) = true ↔ 1 ≤ cs ≤ 3) ∧ (known (ikeSuite cs) = true ↔ 1 ≤ cs ≤ 3).
Proof.
  unfold espSuite, ikeSuite, CipherSuiteAESGCM256, CipherSuiteChaCha20Poly1305, CipherSuiteAESCBC256SHA256.
  repeat case_match; bool_prop; cbn; split; split; intros; done || lia.
Qed.

Lemma validateCipherSuites_loop_spec knownTo l seen :
  validateCipherSuites_loop knownTo l seen = Ok tt ↔
  NoDup l ∧ (∀ cs, cs ∈ l → knownTo cs = true ∧ cs ∉ seen).
Proof.
  revert seen. induction l as [|cs l IH]; intros seen; cbn.
  { split; [|done]. intros _. split; [constructor|]. by intros ? ?%elem_of_nil. }
  assert (Hex : existsb (Z.eqb cs) seen = true ↔ cs ∈ seen).
  { rewrite existsb_exists. setoid_rewrite Z.eqb_eq. setoid_rewrite <- list_elem_of_In.
    split; [by intros (x & ? & ->)|eauto]. }
  rewrite list.NoDup_cons. setoid_rewrite elem_of_cons.
  destruct (knownTo cs) eqn:Hk; cbn.
  2: { split; [by destruct (defined cs)|]. intros [_ H]. destruct (H cs); [by left|congruence]. }
  destruct (existsb _ _) eqn:He.
  { split; [done|]. intros [_ H]. destruct (H cs) as [_ Hn]; [by left|]. destruct Hn. by apply Hex. }
  assert (Hns : cs ∉ seen) by (rewrite <- Hex; congruence).
  rewrite IH. setoid_rewrite not_elem_of_cons. split.
  - intros [Hnd H]. split; [split; [|done]|].
    + intros Hin. by destruct (H cs Hin) as (_ & ? & _).
    + intros x [->|Hx]; [done|]. by destruct (H x Hx) as (? & _ & ?).
  - intros [[Hni Hnd] H]. split; [done|]. intros x Hx. destruct (H x) as [? ?]; [by right|].
    split_and!; [done|by intros ->|done].
Qed.

Lemma validateCipherSuites_spec knownTo l :
  (∀ cs, knownTo cs = true ↔ 1 ≤ cs ≤ 3) → validateCipherSuites l knownTo = Ok tt ↔ suites_ok l.
Proof.
  intros Hk. unfold validateCipherSuites, suites_ok. rewrite validateCipherSuites_loop_spec.
  setoid_rewrite Hk. split; intros [? H]; (split; [done|]); intros cs Hcs.
  - by apply H.
  - split; [by apply H|apply not_elem_of_nil].
Qed.

Lemma login_cases c :
  checkCredentials c = Ok tt ↔
  (cc_PSK c ≠ [] ∧ cc_Username c = [] ∧ cc_Password c = []) ∨
  (cc_PSK c = [] ∧ cc_Username c ≠ [] ∧ cc_Password c ≠ []).
Proof.
  unfold checkCredentials. cbv zeta. unfold set.
  repeat case_bool_decide; cbn; split; intros H'; try done; tauto.
Qed.

Lemma defaultEAPIdentity_ok u : u ≠ [] → well_formed (defaultEAPIdentity u) ∧ Kind (defaultEAPIdentity u) ≠ IDKindNone.
Proof. intros Hu. unfold defaultEAPIdentity. destruct (existsb _ _); cbn; split; try done; right; right; right; auto. Qed.

(** The LocalID that goes on the wire. *)
Lemma resolveLocalID_ok c id :
  checkCredentials c = Ok tt → resolveLocalID c = Ok id →
  Kind id ≠ IDKindNone ∧ (well_formed (cc_LocalID c) ↔ well_formed id) ∧ (psk_login c ∨ eap_login c).
Proof.
  unfold resolveLocalID, Identity_IsZero, psk_login, eap_login. intros Hc%login_cases.
  destruct (Kind (cc_LocalID c) =? IDKindNone) eqn:Hk; bool_prop.
  - destruct (set (cc_PSK c)) eqn:Hp; [done|]. apply set_false in Hp. intros [= <-].
    destruct Hc as [(? & _)|(_ & Hu & Hpw)]; [done|]. destruct (defaultEAPIdentity_ok _ Hu) as [Hw Hn].
    split_and!; [done| |auto]. split; [done|]. intros _. by left.
  - intros [= <-]. split_and!; [done..|]. destruct Hc as [(? & ? & ?)|(? & ? & ?)]; auto.
Qed.

Lemma resolveLocalID_total c : psk_login c ∨ eap_login c → ∃ id, resolveLocalID c = Ok id.
Proof.
  unfold resolveLocalID, Identity_IsZero. intros H. destruct (_ =? _) eqn:Hk; bool_prop; [|eauto].
  destruct H as [(_ & _ & _ & Hn)|(-> & _)]; [done|]. cbn. eauto.
Qed.

Lemma login_checks c : psk_login c ∨ eap_login c → checkCredentials c = Ok tt.
Proof. intros H. apply login_cases. unfold psk_login, eap_login in H. tauto. Qed.

Lemma wrap_ok {E E' A} (f : E → E') (r : Res E A) a : wrap_err f r = Ok a ↔ r = Ok a.
Proof. destruct r; cbn; split; congruence. Qed.

Lemma unit_ok {E} (r : Res E unit) x : r = Ok x ↔ r = Ok tt.
Proof. by destruct x. Qed.

(** validate, read as one condition and one result. *)
Lemma validate_spec c c' :
  validate c = Ok c' →
  acceptable c ∧ sane c' ∧
  (cc_Server c', cc_RemoteID c', cc_Username c', cc_Password c', cc_PSK c') =
  (cc_Server c, cc_RemoteID c, cc_Username c, cc_Password c, cc_PSK c) ∧
  (cc_ESPCipherSuites c', cc_IKECipherSuites c') = (cc_ESPCipherSuites c, cc_IKECipherSuites c) ∧
  (Kind (cc_LocalID c) ≠ IDKindNone → cc_LocalID c' = cc_LocalID c).
Proof.
  unfold validate. destruct (set (cc_Server c)) eqn:Hs; [|done]. apply set_spec in Hs. cbn [negb]. intros H.
  go_inv. subst c'. repeat match goal with x : unit |- _ => destruct x end.
  match goal with H : checkCredentials c = _, H' : resolveLocalID c = Ok ?x |- _ => rename H into Hc, H' into Hid, x into id end.
  repeat match goal with H : wrap_err _ _ = Ok _ |- _ => apply wrap_ok, check_spec in H end.
  assert (He : suites_ok (cc_ESPCipherSuites c)).
  { eapply validateCipherSuites_spec; [|done]. intros cs. apply suite_known. }
  assert (Hi : suites_ok (cc_IKECipherSuites c)).
  { eapply validateCipherSuites_spec; [|done]. intros cs. apply suite_known. } destruct (resolveLocalID_ok c id Hc Hid) as (Hk & Hwf & Hlog).
  split_and!; [by constructor; [..|apply Hwf| | |]| |done|done|].
  2: { unfold resolveLocalID, Identity_IsZero in Hid. intros Hn. cbn. apply Z.eqb_neq in Hn. rewrite Hn in Hid. congruence. }
  constructor; unfold orDefault, DefaultMTU, DefaultKeepAlive, DefaultDPDTimeout, DefaultRekeyLifetime,
    DefaultIKERekeyLifetime, DefaultReconnectBackoffBase, DefaultReconnectBackoffMax,
    DefaultReconnectAttemptTimeout, Hour, Minute, Second, MinMTU; cbn; [|done|..].
  - constructor; try done. cbn. unfold psk_login, eap_login in *. cbn. tauto.
  - repeat case_match; bool_prop; lia.
  - repeat case_match; bool_prop; lia.
  - repeat case_match; bool_prop; lia.
  - unfold DefaultReplayWindow, MaxReplayWindow. change (Z.shiftl 1 20) with 1048576 in *.
    repeat case_match; bool_prop; lia.
  - unfold MinRekeyMaxPackets. repeat case_match; bool_prop; lia.
Qed.

Lemma validate_total c : acceptable c → ∃ c', validate c = Ok c'.
Proof.
  intros [Hs Hl Hli Hre He Hi]. unfold validate. apply set_spec in Hs. rewrite Hs. cbn [negb].
  pose proof (login_checks c Hl) as Hc. destruct (resolveLocalID_total c Hl) as [id Hid].
  destruct (resolveLocalID_ok c id Hc Hid) as (_ & Hw & _). apply Hw, check_spec in Hli. apply check_spec in Hre.
  apply (validateCipherSuites_spec (λ cs, known (espSuite cs))) in He; [|intros cs; apply suite_known].
  apply (validateCipherSuites_spec (λ cs, known (ikeSuite cs))) in Hi; [|intros cs; apply suite_known].
  rewrite Hc. go_step. rewrite Hid. go_step. rewrite Hli, Hre. go_step. rewrite He. go_step. rewrite Hi. go_step.
  eauto.
Qed.

Lemma validate_sane c : sane c → validate c = Ok c.
Proof.
  intros [Ha Hk Hm (H1 & H2 & H3 & H4) (H5 & H6 & H7) [Hw0 Hw] Hp]. pose proof Ha as [Hs Hl Hli Hre He Hi].
  unfold validate. apply set_spec in Hs. rewrite Hs. cbn [negb]. rewrite (login_checks c Hl). go_step.
  apply (validateCipherSuites_spec (λ cs, known (espSuite cs))) in He; [|intros cs; apply suite_known].
  apply (validateCipherSuites_spec (λ cs, known (ikeSuite cs))) in Hi; [|intros cs; apply suite_known].
  apply check_spec in Hli, Hre. unfold resolveLocalID, Identity_IsZero. apply Z.eqb_neq in Hk. rewrite Hk. go_step.
  rewrite Hli, Hre. go_step. rewrite He. go_step. rewrite Hi. go_step. unfold orDefault. unfold MinMTU, MinRekeyMaxPackets in *.
  destruct c. cbn in *. do 2 f_equal; repeat case_match; bool_prop; lia.
Qed.

(** validate never panics, whatever the configuration. *)
Lemma validate_safe c : safe (validate c).
Proof.
  assert (Hsuite : ∀ k l seen, safe (validateCipherSuites_loop k l seen)).
  { intros k l. induction l as [|cs l IH]; intros seen; cbn; [done|]. repeat case_match; done. }
  assert (Hck : ∀ id, safe (check id)) by (intros id; unfold check; repeat case_match; done).
  assert (Hwr : ∀ (f : cfg_error → cfg_error) (r : Res cfg_error unit), safe r → safe (wrap_err f r)) by (intros f []; done).
  assert (Hcr : safe (checkCredentials c)) by (unfold checkCredentials; cbv zeta; repeat case_match; done).
  assert (Hid : safe (resolveLocalID c)) by (unfold resolveLocalID; repeat case_match; done).
  unfold validate, validateCipherSuites. destruct (negb _); [done|].
  repeat (apply safe_then; [by auto|intros ?]). done.
Qed.

(** C32. validate accepts exactly the meaningful configurations: a server, one kind of
    credentials (a PSK with an explicit LocalID, or a complete EAP login), well-formed
    identities and lists of distinct, supported suites.  It never panics; what it
    returns satisfies every bound the rest of the client relies on; and validating it
    again changes nothing. *)
Theorem validate_exact c :
  safe (validate c) ∧ ((∃ c', validate c = Ok c') ↔ acceptable c) ∧
  (∀ c', validate c = Ok c' → sane c' ∧ validate c' = Ok c').
Proof.
  split_and!; [apply validate_safe| |].
  - split; [|apply validate_total]. intros [c' H]. by apply validate_spec in H as [? _].
  - intros c' H. apply validate_spec in H as (_ & H & _). split; [done|by apply validate_sane].
Qed.

(** *** What the session makes of it *)

Lemma omap_known (f : Z → option Z) (l : list Z) :
  (∀ cs, cs ∈ l → is_Some (f cs)) → (f <$> l) = Some <$> omap f l.
Proof.
  induction l as [|cs l IH]; intros H; [done|]. destruct (H cs) as [x Hx]; [left|]. cbn. rewrite Hx. cbn.
  f_equal. apply IH. intros y Hy. apply H. by right.
Qed.

Lemma checkSuites_table (l : list Z) table :
  (∀ id, id ∈ l → is_Some (suiteByID id table)) → checkSuites l table = None.
Proof.
  induction l as [|id l IH]; intros H; [done|]. cbn. destruct (H id) as [r ->]; [left|].
  apply IH. intros x Hx. apply H. by right.
Qed.

Lemma omap_in (f : Z → option Z) (l : list Z) x : x ∈ omap f l → ∃ cs, cs ∈ l ∧ f cs = Some x.
Proof. by rewrite list_elem_of_omap. Qed.

Lemma suites_offered l :
  suites_ok l →
  espSuite <$> l = Some <$> espSuitesFromConfig l ∧ ikeSuite <$> l = Some <$> ikeSuitesFromConfig l ∧
  checkSuites (espSuitesFromConfig l) espSuites = None ∧ checkSuites (ikeSuitesFromConfig l) ikeSuites = None.
Proof.
  intros [_ Hk].
  assert (Hc : ∀ cs, cs ∈ l → cs = 1 ∨ cs = 2 ∨ cs = 3) by (intros cs Hcs; specialize (Hk cs Hcs); lia).
  split_and!.
  - apply omap_known. intros cs Hcs. destruct (Hc cs Hcs) as [->|[->| ->]]; eexists; reflexivity.
  - apply omap_known. intros cs Hcs. destruct (Hc cs Hcs) as [->|[->| ->]]; eexists; reflexivity.
  - apply checkSuites_table. intros id (cs & Hcs & Hid)%omap_in.
    destruct (Hc cs Hcs) as [->|[->| ->]]; vm_compute in Hid; injection Hid as <-; vm_compute; eauto.
  - apply checkSuites_table. intros id (cs & Hcs & Hid)%omap_in.
    destruct (Hc cs Hcs) as [->|[->| ->]]; vm_compute in Hid; injection Hid as <-; vm_compute; eauto.
Qed.

(** C33. What validate accepts takes effect in the session: no configured suite is dropped,
    reordered or unknown to the handshake, the peer authenticates by exactly the one
    kind of credentials configured, and a configured RemoteID, of whatever kind, is
    enforced on the certificate (only its absence leaves the name unchecked). *)
Theorem validated_takes_effect {X : X509} c c' certs now leaf :
  validate c = Ok c' →
  checkConfiguredSuites (toSessionConfig c') = Ok tt ∧
  (espSuite <$> cc_ESPCipherSuites c) = Some <$> ESPSuites (toSessionConfig c') ∧
  (ikeSuite <$> cc_IKECipherSuites c) = Some <$> IKESuites (toSessionConfig c') ∧
  (len (PSK (toSessionConfig c')) > 0 ↔ cc_Username c = []) ∧
  id_Data (LocalID (toSessionConfig c')) ≠ [] ∧
  (VerifyServerChain certs (peerName (RemoteID (toSessionConfig c'))) now = Ok leaf →
   Kind (cc_RemoteID c) ≠ IDKindNone → identity_matches leaf (RemoteID (toSessionConfig c'))).
Proof.
  intros (_ & [[_ Hlog Hli Hre He Hi] Hk _ _ _ _ _] & Hsame & Hsuites & _)%validate_spec.
  injection Hsame as _ Hrem Hu _ Hpsk. injection Hsuites as HeS HiS.
  assert (Hne : ∀ id, well_formed id → Kind id ≠ IDKindNone → Data id ≠ []).
  { intros id [?|[[_ H]|[[_ H]|[_ H]]]] ?; [done|..|done]; intros Hd; by rewrite Hd in H. }
  destruct (suites_offered _ He) as (H1 & _ & H3 & _). destruct (suites_offered _ Hi) as (_ & H2 & _ & H4).
  unfold checkConfiguredSuites. cbn [toSessionConfig ESPSuites IKESuites PSK LocalID RemoteID id_Data idData].
  rewrite H3, H4. split_and!; [done|congruence|congruence| |by apply Hne|].
  - rewrite <- Hu. destruct Hlog as [(Hp & -> & _)|(-> & Hun & _)]; [|done].
    split; [done|]. intros _. destruct (cc_PSK c'); [done|]. rewrite len_cons. len_pos. lia.
  - intros [_ Hm]%VerifyServerChain_ok Hkr. apply matchName_peerName; [|done]. cbn. apply Hne; [done|congruence].
Qed.

(** Printing or logging a configuration does not leak its secrets: two configurations
    that differ only in the values of a set PSK and a set password render alike. *)
Theorem rendering_redacts addrString hexString c c' :
  (cc_Server c', cc_LocalID c', cc_RemoteID c', cc_Username c', cc_MTU c') =
  (cc_Server c, cc_LocalID c, cc_RemoteID c, cc_Username c, cc_MTU c) →
  (cc_PSK c' = [] ↔ cc_PSK c = []) → (cc_Password c' = [] ↔ cc_Password c = []) →
  Config_String addrString hexString c' = Config_String addrString hexString c ∧
  Config_LogValue addrString hexString c' = Config_LogValue addrString hexString c ∧
  EAPMSCHAPv2_String (cc_Username c') (cc_Password c') = EAPMSCHAPv2_String (cc_Username c) (cc_Password c) ∧
  EAPMSCHAPv2_LogValue (cc_Username c') (cc_Password c') = EAPMSCHAPv2_LogValue (cc_Username c) (cc_Password c).
Proof.
  intros [= H1 H2 H3 H4 H5] Hp Hw.
  assert (Hr : ∀ s s' : bytes, (s' = [] ↔ s = []) → redactSecret s' = redactSecret s).
  { intros s s' H. unfold redactSecret. by erewrite (bool_decide_ext _ _ H). }
  unfold Config_String, Config_LogValue, EAPMSCHAPv2_String, EAPMSCHAPv2_LogValue.
  by rewrite H1, H2, H3, H4, H5, (Hr _ _ Hp), (Hr _ _ Hw).
Qed.

(** withDefaultPort always leaves a port, and only adds one. *)
Lemma withDefaultPort_idem server : withDefaultPort (withDefaultPort server) = withDefaultPort server.
Proof.
  assert (H : hasPort (rev (withDefaultPort server)) = true).
  { unfold withDefaultPort. destruct (hasPort (rev server)) eqn:Hp; [done|]. by rewrite rev_app_distr. }
  unfold withDefaultPort at 1. by rewrite H.
Qed.

(** ** Witnesses *)

(** A client with a pre-shared key, the gateway's name vpn, and the rest left to the defaults. *)
Definition sample_cfg : ClientConfig :=
  mkConfig [118] (FQDN [99]) (FQDN [118; 112; 110]) [] [] [1; 2; 3] 0 0 0 0 0 0 0 [2; 1] [3] false (Some false)
    None 0 0 0.
Definition sample_leaked : ClientConfig :=
  mkConfig [118] (FQDN [99]) (FQDN [118; 112; 110]) [] [] [7] 0 0 0 0 0 0 0 [2; 1] [3] false (Some false) None 0 0 0.

Lemma validated_takes_effect_witness :
  ∃ c', validate sample_cfg = Ok c' ∧ checkConfiguredSuites (toSessionConfig c') = Ok tt ∧
    ESPSuites (toSessionConfig c') = [Esp.SuiteChaCha20Poly1305; Esp.SuiteAESGCM256] ∧
    ∃ leaf, VerifyServerChain (X:=toy_x509) [[118; 112; 110]] (peerName (RemoteID (toSessionConfig c')))
              zeroTime = Ok leaf ∧ identity_matches (X:=toy_x509) leaf (RemoteID (toSessionConfig c')).
Proof.
  eexists. assert (Hv : validate sample_cfg = Ok _) by reflexivity. split; [exact Hv|].
  destruct (validated_takes_effect (X:=toy_x509) sample_cfg _ [[118; 112; 110]] zeroTime
    {| cert_raw := [118; 112; 110]; cert_ExtKeyUsage := [ExtKeyUsageServerAuth]; cert_UnknownExtKeyUsage := [];
       cert_EmailAddresses := []; cert_RawSubject := [118; 112; 110] |} Hv) as (H1 & _ & _ & _ & _ & H2).
  split; [exact H1|]. split; [reflexivity|]. eexists. split; [|apply H2; [reflexivity|discriminate]]. reflexivity.
Defined.

Lemma rendering_redacts_witness :
  Config_String id id sample_leaked = Config_String id id sample_cfg ∧ cc_PSK sample_leaked ≠ cc_PSK sample_cfg.
Proof.
  split; [|discriminate]. apply (rendering_redacts id id sample_cfg sample_leaked); [reflexivity|done|done].
Defined.
