(* ===== verification/DataPlane.v ===== *)
(** * The data plane (dataplane.go, internal/tunnel/tunnel.go)

    The client's ESP side: the registry of inbound Child SAs by SPI, the tunnel
    with the outbound SA, the grace timers that retire superseded SAs, and the
    demultiplexer that feeds decrypted packets to the netstack and IKE datagrams to
    the session driver.  Time enters through the runtime's clock, which AfterFunc
    reads when a grace timer is armed.

    ESP SAs are shared by pointer (the tunnel, the registry and a grace timer may
    hold the same object), so the state carries a store of SAs and pointers are
    indices into it; a nil [*esp.SA] is [None]. *)

From stdpp Require Import gmap.
From S2P Require Import Prelude Replay Crypto Esp IkeSA Suite Natt Session.

Inductive cl_error :=
| CEsp (e : esp_error)
| CErrClosed
| CErrSend.

(** tun2net.TunConfig; RemoteIP6 is never set. *)
Record TunConfig := {
  tc_LocalIP : option bytes;
  tc_Netmask : option bytes;
  tc_Gateway : option bytes;
  tc_LocalIP6 : option (bytes * Z);
  tc_DNS : list bytes;
  tc_MTU : Z;
}.

(** A Tunnel with its espConn.  [tn_reconfigure] maps a registered hook to the
    configurations it has been called with, oldest first. *)
Record Tunnel := mkTunnel {
  tn_sa : nat;
  tn_closed : bool;
  tn_cfg : TunConfig;
  tn_inbound : bool;
  tn_reconfigure : gmap nat (list TunConfig);
  tn_nextHook : nat;
}.

(** How long a superseded inbound SA stays after the cutover. *)
Definition childSAGrace : Z := 30 * Second.

(** The client's data-plane fields.  [cl_esp] is the store of ESP SAs; [cl_armed]
    are the grace timers the runtime has still to fire, each with the time it is due
    and the entry its function removes, and [cl_now] is the runtime's clock; [cl_deathSig] is the one-slot
    channel of that name and [cl_closed] is set by Close; [cl_delivered], [cl_sent]
    and [cl_rekeyed] record what the inbound handler was given, what the transport
    took and the calls of the OnRekey callbacks. *)
Record Client := mkClient {
  cl_ReplayWindow : Z;
  cl_MTU : Z;
  cl_esp : list SA;
  cl_session : option Session;
  cl_tun : option Tunnel;
  cl_rxDrops : Z;
  cl_inbound : option (gmap Z nat);
  cl_lastDataInbound : Z;
  cl_graceTimers : list nat;
  cl_armed : gmap nat (Z * (Z * option nat));
  cl_now : Z;
  cl_nextTimer : nat;
  cl_inbox : list bytes;
  cl_onRekey : list nat;
  cl_localIP : option bytes;
  cl_deathSig : bool;
  cl_closed : bool;
  cl_delivered : list bytes;
  cl_sent : list bytes;
  cl_rekeyed : list nat;
}.

(** One field of the client replaced. *)
Ltac with_cl c p v :=
  let f q := first [ constr_eq p q; exact v | exact (q c) ] in
  exact (mkClient ltac:(f cl_ReplayWindow) ltac:(f cl_MTU) ltac:(f cl_esp) ltac:(f cl_session)
      ltac:(f cl_tun) ltac:(f cl_rxDrops) ltac:(f cl_inbound) ltac:(f cl_lastDataInbound)
      ltac:(f cl_graceTimers) ltac:(f cl_armed) ltac:(f cl_now) ltac:(f cl_nextTimer) ltac:(f cl_inbox)
      ltac:(f cl_onRekey) ltac:(f cl_localIP) ltac:(f cl_deathSig) ltac:(f cl_closed) ltac:(f cl_delivered) ltac:(f cl_sent)
      ltac:(f cl_rekeyed)).

Definition set_esp (v : list SA) (c : Client) : Client := ltac:(with_cl c cl_esp v).
Definition set_session (v : option Session) (c : Client) : Client := ltac:(with_cl c cl_session v).
Definition set_tun (v : option Tunnel) (c : Client) : Client := ltac:(with_cl c cl_tun v).
Definition set_rxDrops (v : Z) (c : Client) : Client := ltac:(with_cl c cl_rxDrops v).
Definition set_inbound (v : option (gmap Z nat)) (c : Client) : Client := ltac:(with_cl c cl_inbound v).
Definition set_lastDataInbound (v : Z) (c : Client) : Client := ltac:(with_cl c cl_lastDataInbound v).
Definition set_graceTimers (v : list nat) (c : Client) : Client := ltac:(with_cl c cl_graceTimers v).
Definition set_armed (v : gmap nat (Z * (Z * option nat))) (c : Client) : Client := ltac:(with_cl c cl_armed v).
Definition set_now (v : Z) (c : Client) : Client := ltac:(with_cl c cl_now v).
Definition set_nextTimer (v : nat) (c : Client) : Client := ltac:(with_cl c cl_nextTimer v).
Definition set_inbox (v : list bytes) (c : Client) : Client := ltac:(with_cl c cl_inbox v).
Definition set_onRekey (v : list nat) (c : Client) : Client := ltac:(with_cl c cl_onRekey v).
Definition set_localIP (v : option bytes) (c : Client) : Client := ltac:(with_cl c cl_localIP v).
Definition set_deathSig (v : bool) (c : Client) : Client := ltac:(with_cl c cl_deathSig v).
Definition set_closed (v : bool) (c : Client) : Client := ltac:(with_cl c cl_closed v).
Definition set_delivered (v : list bytes) (c : Client) : Client := ltac:(with_cl c cl_delivered v).
Definition set_cl_sent (v : list bytes) (c : Client) : Client := ltac:(with_cl c cl_sent v).
Definition set_rekeyed (v : list nat) (c : Client) : Client := ltac:(with_cl c cl_rekeyed v).

Definition with_tn_sa (t : Tunnel) (p : nat) : Tunnel :=
  mkTunnel p (tn_closed t) (tn_cfg t) (tn_inbound t) (tn_reconfigure t) (tn_nextHook t).
Definition with_tn_closed (t : Tunnel) (b : bool) : Tunnel :=
  mkTunnel (tn_sa t) b (tn_cfg t) (tn_inbound t) (tn_reconfigure t) (tn_nextHook t).
Definition with_tn_inbound (t : Tunnel) (b : bool) : Tunnel :=
  mkTunnel (tn_sa t) (tn_closed t) (tn_cfg t) b (tn_reconfigure t) (tn_nextHook t).

Abbreviation CM := (ST Client cl_error).

(** ** The store of ESP SAs *)

Definition alloc_esp (sa : SA) : CM nat := λ c, (set_esp (cl_esp c ++ [sa]) c, Ok (length (cl_esp c))).

(** A method call on the SA at [p]. *)
Definition on_esp {A} (p : nat) (m : ST SA esp_error A) : CM A :=
  c ← getS;
  sa ← lift (deref (cl_esp c !! p));
  let '(sa', r) := m sa in
  _ ← putS (set_esp (<[p := sa']> (cl_esp c)) c);
  lift (wrap_err CEsp r).

(** ** The tunnel *)

Definition tunnel_New (p : nat) (tc : TunConfig) : Tunnel := mkTunnel p false tc false ∅ 0.

(** t.tun, a nil dereference when startDataPlane has not run. *)
Definition theTunnel : CM Tunnel := c ← getS; lift (deref (cl_tun c)).

Definition SetInbound : CM unit := t ← theTunnel; modifyS (set_tun (Some (with_tn_inbound t true))).
Definition detachInbound : CM unit := t ← theTunnel; modifyS (set_tun (Some (with_tn_inbound t false))).

Definition OnReconfigure : CM nat :=
  t ← theTunnel;
  let id := tn_nextHook t in
  _ ← modifyS (set_tun (Some (mkTunnel (tn_sa t) (tn_closed t) (tn_cfg t) (tn_inbound t)
                                (<[id := []]> (tn_reconfigure t)) (S id))));
  mret id.
Definition detachReconfigure (id : nat) : CM unit :=
  t ← theTunnel;
  modifyS (set_tun (Some (mkTunnel (tn_sa t) (tn_closed t) (tn_cfg t) (tn_inbound t)
                            (delete id (tn_reconfigure t)) (tn_nextHook t)))).

Definition DeliverInbound (ip : bytes) : CM unit :=
  t ← theTunnel;
  if tn_inbound t then modifyS (λ c, set_delivered (cl_delivered c ++ [ip]) c) else mret tt.

Definition SwapSA (p : nat) : CM unit := t ← theTunnel; modifyS (set_tun (Some (with_tn_sa t p))).

Definition OutboundSeq : CM Z :=
  t ← theTunnel; c ← getS; sa ← lift (deref (cl_esp c !! tn_sa t)); mret (seq sa).

Definition Reconfigure (p : nat) (tc : TunConfig) : CM unit :=
  _ ← SwapSA p;
  t ← theTunnel;
  modifyS (set_tun (Some (mkTunnel (tn_sa t) (tn_closed t) tc (tn_inbound t)
                            ((λ calls, calls ++ [tc]) <$> tn_reconfigure t) (tn_nextHook t)))).

Definition tunnel_Close : CM unit := t ← theTunnel; modifyS (set_tun (Some (with_tn_closed t true))).

Section dataplane.
Context {P : Primitives}.

(** c.sendESP over the current session; [ok]: whether the socket takes the datagram. *)
Definition sendESP (ok : bool) (pkt : bytes) : CM unit :=
  c ← getS;
  match cl_session c with
  | None => throw CErrClosed
  | Some _ => if ok then modifyS (set_cl_sent (cl_sent c ++ [pkt])) else throw CErrSend
  end.

(** [closing]: Close ran while the send was blocked. *)
Definition Write (p : bytes) (iv : option bytes) (ok closing : bool) : CM Z :=
  t ← theTunnel;
  if tn_closed t then throw CErrClosed
  else
    pkt ← on_esp (tn_sa t) (Encrypt p iv);
    r ← attempt (sendESP ok pkt);
    match r with
    | inl e => if closing then throw CErrClosed else throw e
    | inr _ => mret (len p)
    end.

(** ** The inbound registry *)

Definition resetInbound (spi : Z) (p : nat) : CM unit := modifyS (set_inbound (Some {[spi := p]})).

Definition lookupInbound (spi : Z) : CM (option nat) :=
  c ← getS;
  mret match cl_inbound c with None => None | Some m => m !! spi end.

(** The copy of the registry without [spi] is [delete spi]. *)
Definition removeInbound (spi : Z) (want : option nat) : CM unit :=
  c ← getS;
  old ← lift (deref (cl_inbound c));
  match old !! spi with
  | None => mret tt
  | Some cur => if negb (bool_decide (Some cur = want)) then mret tt
                else putS (set_inbound (Some (delete spi old)) c)
  end.

Definition espSAFromChild (ch : ChildSA) : CM nat :=
  c ← getS;
  sa ← lift (wrap_err CEsp (newSA (ch_Suite ch) (ch_ResponderSPI ch) (ch_InitiatorSPI ch)
               (EncrIR (ch_Keys ch)) (IntegIR (ch_Keys ch)) (EncrRI (ch_Keys ch)) (IntegRI (ch_Keys ch))
               (cl_ReplayWindow c)));
  alloc_esp sa.

(** ** Grace timers *)

Definition stopGraceTimers : CM unit :=
  modifyS (λ c, set_graceTimers [] (set_armed (foldr delete (cl_armed c) (cl_graceTimers c)) c)).

(** time.AfterFunc(childSAGrace, ...), then the append under graceMu. *)
Definition scheduleInboundRemoval (spi : Z) (sa : option nat) : CM unit :=
  c ← getS;
  let t := cl_nextTimer c in
  _ ← putS (set_nextTimer (S t) (set_armed (<[t := (cl_now c + childSAGrace, (spi, sa))]> (cl_armed c)) c));
  modifyS (λ c, set_graceTimers (cl_graceTimers c ++ [t]) c).

(** slices.DeleteFunc(c.graceTimers, func(x) { return x == t }) *)
Definition pruneTimer (t : nat) : CM unit :=
  modifyS (λ c, set_graceTimers (filter (λ x, x ≠ t) (cl_graceTimers c)) c).

(** The function of a fired timer. *)
Definition graceExpired (t : nat) (spi : Z) (sa : option nat) : CM unit :=
  _ ← removeInbound spi sa; pruneTimer t.

(** ** Installing a rekeyed Child SA *)

Definition OnRekey (fn : option nat) : CM unit :=
  match fn with
  | None => mret tt
  | Some f => modifyS (λ c, set_onRekey (cl_onRekey c ++ [f]) c)
  end.

Definition fireRekey : CM unit := modifyS (λ c, set_rekeyed (cl_rekeyed c ++ cl_onRekey c) c).

(** esp.NewSA; [None]: the error is logged and the call returns. *)
Definition buildChildSA (u : ChildSAUpdate) : CM (option nat) :=
  c ← getS;
  match newSA (up_Suite u) (NewOutSPI u) (NewInSPI u) (OutEncr u) (OutInteg u) (InEncr u) (InInteg u)
          (cl_ReplayWindow c) with
  | Ok sa => p ← alloc_esp sa; mret (Some p)
  | Err _ => mret None
  | Panic => lift Panic
  | Hang => lift Hang
  end.

(** The critical section under inboundMu: add the new SA, capture the superseded one. *)
Definition addInbound (u : ChildSAUpdate) (p : nat) : CM (option nat) :=
  c ← getS;
  old ← lift (deref (cl_inbound c));
  _ ← putS (set_inbound (Some (<[NewInSPI u := p]> old)) c);
  mret (old !! OldInSPI u).

(** What follows the atomic cutover. *)
Definition retireOld (u : ChildSAUpdate) (superseded : option nat) : CM unit :=
  if negb (OldInSPI u =? 0) && negb (OldInSPI u =? NewInSPI u)
  then scheduleInboundRemoval (OldInSPI u) superseded else mret tt.

Definition InstallChildSA (u : ChildSAUpdate) : CM unit :=
  r ← buildChildSA u;
  match r with
  | None => mret tt
  | Some p =>
      superseded ← addInbound u p;
      _ ← SwapSA p;
      _ ← fireRekey;
      retireOld u superseded
  end.

(** ** Receiving *)

Definition inboxCap : Z := 16.

Definition dropPacket : CM unit := modifyS (λ c, set_rxDrops (u64 (cl_rxDrops c + 1)) c).

(** One datagram off the socket, received at [nowNano]. *)
Definition rxDatagram (nowNano : Z) (raw : bytes) : CM unit :=
  '(kind, payload) ← lift (Classify raw);
  match kind with
  | KindESP =>
      if len payload <? 4 then dropPacket
      else
        sb ← lift (slice payload 0 4);
        spi ← lift (Uint32 sb);
        sa ← lookupInbound spi;
        match sa with
        | None => dropPacket
        | Some p =>
            r ← attempt (on_esp p (Decrypt payload));
            match r with
            | inl _ => dropPacket
            | inr inner =>
                _ ← modifyS (set_lastDataInbound nowNano);
                DeliverInbound inner
            end
        end
  | KindIKE =>
      c ← getS;
      if len (cl_inbox c) <? inboxCap then putS (set_inbox (cl_inbox c ++ [payload]) c) else mret tt
  | KindKeepalive | KindUnknown => mret tt
  end.

(** The loop: [incoming] is what the socket delivers before it returns an error;
    a nil session ends it. *)
Fixpoint rxDemux (incoming : list (Z * bytes)) : CM unit :=
  match incoming with
  | [] => mret tt
  | (nowNano, raw) :: rest =>
      c ← getS;
      match cl_session c with
      | None => mret tt
      | Some _ => _ ← rxDatagram nowNano raw; rxDemux rest
      end
  end.

Definition LastDataInbound (c : Client) : Time :=
  if cl_lastDataInbound c =? 0 then zeroTime else {| t_wall := cl_lastDataInbound c; t_mono := None |}.

Definition ChildSAVolume : CM Z := OutboundSeq.

(** One tick of keepaliveLoop; the result says whether the loop goes on.  [cancelled]
    is ctx.Err() != nil after a failed send. *)
Definition keepaliveTick (ok cancelled : bool) : CM bool :=
  c ← getS;
  match cl_session c with
  | None => mret false
  | Some _ => if ok then _ ← putS (set_cl_sent (cl_sent c ++ [[KeepaliveByte]]) c); mret true
              else mret (negb cancelled)
  end.
End dataplane.
