(* ===== verification/Client.v ===== *)
(** * The client's life (ipsec.go, dataplane.go, reconnect.go)

    Dialling, the first data plane, the reconnect supervisor with its backoff, and
    Close.  A handshake is [handshake] on a new session; its outcome, and whether the
    client is being closed meanwhile, are inputs of the redial loop. *)

From stdpp Require Import gmap.
From S2P Require Import Prelude Crypto Esp IkeSA Suite Natt Session Eap Auth SaInit IkeAuth Config DataPlane.

(** ** The data plane of a generation *)

(** Assigned has no Gateway here: the session never sets it. *)
Definition tunConfig (mtu : Z) (a : Assigned) : TunConfig := {|
  tc_LocalIP := as_IP a;
  tc_Netmask := as_Netmask a;
  tc_Gateway := None;
  tc_LocalIP6 := as_IP6 a;
  tc_DNS := as_DNS a ++ as_DNS6 a;
  tc_MTU := mtu;
|}.

(** c.curSession(), dereferenced *)
Definition theSession : CM Session := c ← getS; lift (deref (cl_session c)).

(** SetDataPlane and a new inbox; the workers themselves are goroutines. *)
Definition startWorkers : CM unit :=
  s ← theSession;
  _ ← modifyS (set_session (Some (SetDataPlane s)));
  modifyS (set_inbox []).

Definition startDataPlane : CM unit :=
  s ← theSession;
  ch ← lift (deref (child s));
  p ← espSAFromChild ch;
  _ ← resetInbound (ch_InitiatorSPI ch) p;
  _ ← modifyS (λ c, set_tun (Some (tunnel_New p (tunConfig (cl_MTU c) (assigned s)))) c);
  startWorkers.

Definition newClient (cfg : ClientConfig) : Client := {|
  cl_ReplayWindow := cc_ReplayWindow cfg; cl_MTU := cc_MTU cfg; cl_esp := []; cl_session := None;
  cl_tun := None; cl_rxDrops := 0; cl_inbound := None; cl_lastDataInbound := 0; cl_graceTimers := [];
  cl_armed := ∅; cl_now := 0; cl_nextTimer := 0; cl_inbox := []; cl_onRekey := []; cl_localIP := None;
  cl_deathSig := false; cl_closed := false; cl_delivered := []; cl_sent := []; cl_rekeyed := [] |}.

(** secretmem.Wipe *)
Definition Wipe (b : bytes) : bytes := zeros (length b).

Definition wiped (c : Config) : Config := {|
  LocalID := LocalID c; RemoteID := RemoteID c; EAPUser := EAPUser c; EAPPass := Wipe (EAPPass c);
  PSK := Wipe (PSK c); DPDTimeout := DPDTimeout c; RekeyLifetime := RekeyLifetime c;
  IKERekeyLifetime := IKERekeyLifetime c; RekeyMaxPackets := RekeyMaxPackets c; ChildSAPFS := ChildSAPFS c;
  ESPSuites := ESPSuites c; IKESuites := IKESuites c; RequestIPv6 := RequestIPv6 c;
  RetransmitBase := RetransmitBase c; RetransmitMax := RetransmitMax c; RetransmitTries := RetransmitTries c |}.

(** Session.Close: what it leaves of the session; the socket is not part of the state. *)
Definition Session_Close (s : Session) : Session := ltac:(with_field s cfg (wiped (cfg s))).

Definition closeSession : CM unit := modifyS (λ c, set_session (Session_Close <$> cl_session c) c).

(** A session is adopted: stored, with its address published. *)
Definition adopt (s : Session) : CM unit :=
  _ ← modifyS (set_session (Some s));
  modifyS (set_localIP (as_IP (assigned s))).

Inductive dial_error :=
| DialConfig (e : cfg_error)
| DialHandshake (e : hs_error)
| DialDataPlane (e : cl_error).

(** ** Reconnecting *)

(** The channel holds one signal; more are coalesced into it. *)
Definition signalDeath : CM unit := modifyS (set_deathSig true).

(** One turn of supervise's select; [None] when superCtx is done. *)
Definition superviseTake : CM bool :=
  c ← getS;
  if cl_deathSig c then _ ← putS (set_deathSig false c); mret true else mret false.

(** What happens around one attempt of the redial loop: whether Close had begun at
    its top, the session the dial returned (if any), whether Close had begun after a
    failed dial, and whether the wait was interrupted by it. *)
Record redialTurn := {
  rt_closing : bool;
  rt_session : option Session;
  rt_closingAfter : bool;
  rt_slept : bool;
  rt_rand : option Z;
}.

Inductive redialResult := RedialSession (s : Session) | RedialClosing | RedialTrying.

Section reconnect.
Context {W : World}.

(** time.Duration(float64(d) * (0.85 + 0.15*frac)) *)
Definition jitterDuration (d : Z) (r : option Z) : Z := w_scale d r.

(** The loop, with the waits it asked for; the product wraps like a time.Duration. *)
Fixpoint redialLoop (bmax backoff : Z) (turns : list redialTurn) : list Z * redialResult :=
  match turns with
  | [] => ([], RedialTrying)
  | t :: rest =>
      if rt_closing t then ([], RedialClosing)
      else
        match rt_session t with
        | Some s => ([], RedialSession s)
        | None =>
            if rt_closingAfter t then ([], RedialClosing)
            else
              let d := jitterDuration backoff (rt_rand t) in
              if negb (rt_slept t) then ([d], RedialClosing)
              else
                let '(ds, r) := redialLoop bmax (Z.min (i64 (backoff * 2)) bmax) rest in
                (d :: ds, r)
        end
  end.

Definition redialWithBackoff (cfg : ClientConfig) (turns : list redialTurn) : list Z * redialResult :=
  redialLoop (cc_ReconnectBackoffMax cfg) (cc_ReconnectBackoffBase cfg) turns.
End reconnect.

(** The re-addressing of the tunnel once the new SA [p] is built. *)
Definition switchGeneration (s : Session) (ch : ChildSA) (p : nat) : CM unit :=
  _ ← resetInbound (ch_InitiatorSPI ch) p;
  _ ← adopt s;
  c ← getS;
  _ ← Reconfigure p (tunConfig (cl_MTU c) (assigned s));
  _ ← fireRekey;
  startWorkers.

(** reconnect, given what the redial gives; the old generation has been stopped. *)
Definition reconnect (closing : bool) (r : redialResult) : CM unit :=
  if closing then mret tt
  else
    _ ← closeSession;
    _ ← stopGraceTimers;
    match r with
    | RedialClosing | RedialTrying => mret tt
    | RedialSession s =>
        ch ← lift (deref (child s));
        x ← attempt (espSAFromChild ch);
        match x with
        | inl _ => signalDeath
        | inr p => switchGeneration s ch p
        end
    end.

(** ** Dial and Close *)

Section dial.
Context {P : Primitives} {W : World} {N : Network} {R : Radius} {X : X509}.

(** defaultDialSession: a handshake on a new session. *)
Definition dialSession (cfg : ClientConfig) : Session * Res hs_error unit :=
  handshake (New (toSessionConfig cfg)).

Definition Dial (cfg : ClientConfig) : Res dial_error Client :=
  cfg ← wrap_err DialConfig (validate cfg);
  match dialSession cfg with
  | (s, Ok _) =>
      match (_ ← adopt s; startDataPlane) (newClient cfg) with
      | (c, Ok _) => Ok c
      | (_, Err e) => Err (DialDataPlane e)
      | (_, Panic) => Panic
      | (_, Hang) => Hang
      end
  | (_, Err e) => Err (DialHandshake e)
  | (_, Panic) => Panic
  | (_, Hang) => Hang
  end.
End dial.

(** ** Accessors *)

Definition RxDrops (c : Client) : Z := cl_rxDrops c.
Definition LocalIP (c : Client) : option bytes := cl_localIP c.
Definition DNS (c : Client) : list bytes :=
  match cl_session c with None => [] | Some s => as_DNS (assigned s) end.
Definition DNS6 (c : Client) : list bytes :=
  match cl_session c with None => [] | Some s => as_DNS6 (assigned s) end.
Definition LocalIP6 (c : Client) : option (bytes * Z) :=
  match cl_session c with None => None | Some s => as_IP6 (assigned s) end.

(** Close, once the supervisor and the workers have been waited for; closeOnce makes a
    second call return at once.  Closing the netstack and the socket does not touch this
    state; their errors, which Close joins, are not represented. *)
Definition Close : CM unit :=
  c ← getS;
  if cl_closed c then mret tt
  else
    _ ← putS (set_closed true c);
    _ ← (if bool_decide (cl_tun c ≠ None) then tunnel_Close else mret tt);
    _ ← stopGraceTimers;
    closeSession.
