(* ===== verification/Handshake.v ===== *)
(** * The handshake, step by step

    A total-correctness logic for the handshake and its use on IKE_SA_INIT.
    [triple Pre m Post]: run from a state in [Pre], [m] neither panics nor hangs, and
    a value it returns satisfies [Post] together with the state it leaves.  The
    operations shared with the driver bring the session invariant of Invariant.v
    with them: they do not read the data plane, which is attached after the
    handshake, so what holds with it holds without it. *)

From S2P Require Import Prelude IkePayload IkeMsg Crypto IkeSA Suite Natt Protected Session Rekey Driver.
From S2P Require Import Stable Invariant Eap Auth SaInit IkeAuth.

(** ** Triples *)

Definition triple {S E A} (Pre : S → Prop) (m : ST S E A) (Post : A → S → Prop) : Prop :=
  ∀ s, Pre s → match m s with
               | (s', Ok a) => Post a s'
               | (_, Err _) => True
               | (_, Panic) | (_, Hang) => False
               end.

Section triple.
Context {S E : Type}.

Lemma triple_bind {A B} (P : S → Prop) (m : ST S E A) (f : A → ST S E B) Q R :
  triple P m Q → (∀ a, triple (Q a) (f a) R) → triple P (m ≫= f) R.
Proof.
  intros Hm Hf s Hs. specialize (Hm s Hs). unfold mbind, ST_bind.
  destruct (m s) as [s' [a|e| |]]; [by apply Hf|done..].
Qed.
Lemma triple_conseq {A} (P P' : S → Prop) (m : ST S E A) (Q Q' : A → S → Prop) :
  triple P' m Q' → (∀ s, P s → P' s) → (∀ a s, Q' a s → Q a s) → triple P m Q.
Proof.
  intros Hm HP HQ s Hs. specialize (Hm s (HP s Hs)). destruct (m s) as [s' [a|e| |]]; auto.
Qed.
Lemma triple_pre {A} (P P' : S → Prop) (m : ST S E A) Q :
  triple P' m Q → (∀ s, P s → P' s) → triple P m Q.
Proof. intros Hm HP s Hs. by apply Hm, HP. Qed.
Lemma triple_post {A} (P : S → Prop) (m : ST S E A) (Q Q' : A → S → Prop) :
  triple P m Q' → (∀ a s, Q' a s → Q a s) → triple P m Q.
Proof. intros Hm HQ. by eapply triple_conseq. Qed.
Lemma triple_ret {A} (a : A) (P : S → Prop) Q : (∀ s, P s → Q a s) → triple P (mret a : ST S E A) Q.
Proof. intros H s Hs. by apply H. Qed.
Lemma triple_throw {A} (e : E) P Q : triple P (throw e : ST S E A) Q.
Proof. by intros s Hs. Qed.
Lemma triple_lift {A} (P : S → Prop) (r : Res E A) T :
  (∀ s, P s → yields T r) → triple P (lift r) (λ a s, P s ∧ T a ∧ r = Ok a).
Proof. intros H s Hs. specialize (H s Hs). by destruct r. Qed.
Lemma triple_get {A} (P : S → Prop) (f : S → ST S E A) Q :
  (∀ s0, P s0 → triple (λ s, s = s0) (f s0) Q) → triple P (getS ≫= f) Q.
Proof. intros Hf s Hs. rewrite st_get. by apply (Hf s Hs). Qed.
(** Reading the state and forgetting that it is the present one. *)
Lemma triple_read {A} (P : S → Prop) (f : S → ST S E A) Q :
  (∀ s0, P s0 → triple P (f s0) Q) → triple P (getS ≫= f) Q.
Proof. intros Hf. apply triple_get. intros s0 Hs. eapply triple_pre; [by apply Hf|]. by intros s ->. Qed.
Lemma triple_modify (P : S → Prop) f (Q : unit → S → Prop) :
  (∀ s, P s → Q tt (f s)) → triple P (modifyS f : ST S E unit) Q.
Proof. intros H s Hs. by apply H. Qed.
Lemma triple_modify_then {A} (P P' : S → Prop) f (k : unit → ST S E A) Q :
  triple P' (k tt) Q → (∀ s, P s → P' (f s)) → triple P (modifyS f ≫= k) Q.
Proof. intros Hk Hf s Hs. rewrite st_modify. by apply Hk, Hf. Qed.
Lemma triple_hoare {A} (I : S → Prop) (m : ST S E A) T :
  hoare I m T → triple I m (λ a s, I s ∧ T a).
Proof. intros Hm s Hs. destruct (Hm s Hs). by destruct (m s) as [s' []]. Qed.
(** A pure fact of the precondition. *)
Lemma triple_pure {A} (φ : Prop) (P : S → Prop) (m : ST S E A) Q :
  (φ → triple P m Q) → triple (λ s, P s ∧ φ) m Q.
Proof. intros H s [Hs Hφ]. by apply (H Hφ). Qed.
Lemma triple_safe {A} (P : S → Prop) (m : ST S E A) Q s : triple P m Q → P s → safe (m s).2.
Proof. intros Hm Hs. specialize (Hm s Hs). by destruct (m s) as [s' []]. Qed.
Lemma triple_run {A} (P : S → Prop) (m : ST S E A) Q s s' a :
  triple P m Q → P s → m s = (s', Ok a) → Q a s'.
Proof. intros Hm Hs Hr. specialize (Hm s Hs). by rewrite Hr in Hm. Qed.
End triple.

Lemma triple_wrapST {S E F A} (g : E → F) (P : S → Prop) (m : ST S E A) Q :
  triple P m Q → triple P (wrapST g m) Q.
Proof. intros Hm s Hs. specialize (Hm s Hs). unfold wrapST. by destruct (m s) as [s' []]. Qed.

(** ** Receiving *)

Lemma Classify_ok {E} d : bytes_ok d → yields (λ '(_, p), bytes_ok p) (Classify (E:=E) d).
Proof. intros Hd. unfold Classify. go_safe; try done; auto with go. Qed.

Lemma recvDatagram_ok {E} natt incoming :
  Forall bytes_ok incoming →
  yields (λ r, ∀ raw rest, r = Some (raw, rest) →
            bytes_ok raw ∧ Forall bytes_ok rest ∧ (length rest < length incoming)%nat)
    (recvDatagram (E:=E) natt incoming).
Proof.
  induction incoming as [|d rest IH]; intros Hin; cbn [recvDatagram]; [done|].
  inversion_clear Hin as [|? ? Hd Hrest]. destruct natt; cbn [negb].
  - eapply yields_bind; [by apply Classify_ok|]. intros [kind p] Hp.
    assert (Hk : yields (λ r, ∀ raw rest', r = Some (raw, rest') →
              bytes_ok raw ∧ Forall bytes_ok rest' ∧ (length rest' < length (d :: rest))%nat)
              (recvDatagram (E:=E) true rest)).
    { eapply yields_mono; [|by apply IH]. intros r Hr raw rest' ->.
      destruct (Hr _ _ eq_refl) as (? & ? & ?). cbn. split_and!; auto with lia. }
    destruct kind; try done. cbn. intros raw rest' [= <- <-]. auto.
  - cbn. intros raw rest' [= <- <-]. auto.
Qed.

(** What recvMatching returns is an octet string that parses to a response with the
    awaited message ID; it never runs out of fuel. *)
Definition matching (id : Z) (raw : bytes) : Prop :=
  bytes_ok raw ∧ ∃ m, Parse raw = Ok m ∧ m_MessageID m = id ∧ IsResponse (m_Flags m) = true.

Lemma recvMatching_loop_ok fuel natt id incoming :
  Forall bytes_ok incoming → (length incoming < fuel)%nat →
  yields (λ r, ∀ raw, r = Some raw → matching id raw) (recvMatching_loop fuel natt id incoming).
Proof.
  revert incoming. induction fuel as [|fuel IH]; intros incoming Hin Hf; [lia|]. cbn [recvMatching_loop].
  eapply yields_bind; [by apply recvDatagram_ok|]. intros [[raw rest]|] Hr; [|done].
  destruct (Hr _ _ eq_refl) as (Hraw & Hrest & Hlen).
  assert (Hnext : yields (λ r, ∀ raw, r = Some raw → matching id raw) (recvMatching_loop fuel natt id rest)).
  { apply IH; [done|lia]. }
  pose proof (Parse_ok raw Hraw) as Hp. destruct (Parse raw) as [m|e| |] eqn:Hm; [|done..].
  destruct (m_MessageID m =? id) eqn:Hid; cbn [negb]; [|done].
  destruct (IsResponse (m_Flags m)) eqn:Hfl; cbn [negb]; [|done].
  bool_prop. cbn. intros ? [= <-]. split; [done|]. eauto.
Qed.

(** ** Exchanges *)

(** An assertion that survives a call to the environment and a datagram sent. *)
Class Plumbed (I : Session → Prop) : Prop := {
  plumb_calls n s : I s → I (set_calls n s);
  plumb_sent d s : I s → I (set_sent (sent s ++ [d]) s);
}.

Section plumbing.
Context {P : Primitives} {HL : PrimitiveLaws P} {W : World} {HW : WorldLaws W}.
Context {N : Network} {HN : NetworkLaws N}.
Context (I : Session → Prop) {HI : Plumbed I}.

Lemma triple_tick : triple I (sess tick) (λ _ s, I s).
Proof using HI. apply triple_wrapST. intros s Hs. by apply plumb_calls. Qed.

Lemma triple_randBytes k : 0 ≤ k → triple I (sess (randBytes k)) (λ b s, I s ∧ len b = k ∧ bytes_ok b).
Proof using HI HW.
  intros Hk. apply triple_wrapST. eapply triple_bind with (Q := λ _, I); [intros s Hs; by apply plumb_calls|].
  intros n. destruct (w_rand n k) as [b|] eqn:Hb; [|apply triple_throw]. apply triple_ret. intros s Hs.
  apply rand_len in Hb as [Hl ?]. split_and!; [done|lia|done].
Qed.

Lemma triple_randUint64 : triple I (sess randUint64) (λ v s, I s ∧ is_u64 v).
Proof using HI HW.
  apply triple_wrapST. eapply triple_bind with (Q := λ b s, I s ∧ len b = 8 ∧ bytes_ok b).
  { intros s Hs. pose proof (triple_randBytes 8 ltac:(lia) s Hs) as H. unfold sess, wrapST in H.
    by destruct (randBytes 8 s) as [s' []]. }
  intros b. eapply triple_post.
  - apply (triple_lift _ _ is_u64). intros s (_ & Hl & Hb). apply Uint64_yields; [done|lia].
  - cbn. tauto.
Qed.

Lemma triple_NewDH g : triple I (sess (NewDH g)) (λ d s, I s ∧ dh_Group d = g ∧ dh_wf d).
Proof using HI HW HL.
  apply triple_wrapST. eapply triple_bind with (Q := λ _, I); [intros s Hs; by apply plumb_calls|].
  intros n. eapply triple_post.
  - apply (triple_lift _ _ (λ d, dh_Group d = g ∧ dh_wf d)). intros s _. apply wrap_err_yields, newDH_wf, dh_ok.
  - cbn. tauto.
Qed.

Lemma triple_sendDatagram b raw :
  triple (λ s, I s ∧ nattMode s = b) (sess (sendDatagram raw))
    (λ _ s, I s ∧ nattMode s = b ∧ frameDatagram b raw ∈ sent s).
Proof using HI.
  apply triple_wrapST. intros s [Hs Hb]. unfold sendDatagram, tick. st_step.
  destruct (w_send _); [|done]. split_and!; [by apply plumb_sent, plumb_calls|done|].
  cbn. rewrite Hb. apply elem_of_app. right. by apply list_elem_of_singleton.
Qed.

Lemma triple_exchange_loop n b raw id backoff :
  triple (λ s, I s ∧ nattMode s = b) (exchange_loop n raw id backoff)
    (λ rsp s, (I s ∧ nattMode s = b) ∧ matching id rsp ∧ frameDatagram b raw ∈ sent s).
Proof using HI HN.
  revert backoff. induction n as [|n IH]; intros backoff; cbn [exchange_loop]; [apply triple_throw|].
  eapply triple_bind; [apply triple_sendDatagram|]. intros [].
  eapply triple_bind with (Q := λ _ s, I s ∧ nattMode s = b ∧ frameDatagram b raw ∈ sent s).
  { apply triple_wrapST. intros s (Hs & Hb & Hin). split_and!; [by apply plumb_calls|done..]. }
  intros k. apply triple_read. intros s0 _. eapply triple_bind.
  { apply (triple_lift _ _ (λ r, ∀ raw, r = Some raw → matching id raw)). intros s _.
    apply recvMatching_loop_ok; [apply arrivals_ok|lia]. }
  intros [rsp|].
  - apply triple_ret. intros s ((? & ? & ?) & Hr & _). auto.
  - destruct (w_ctxDone k); [apply triple_throw|]. eapply triple_pre; [apply IH|]. cbn. tauto.
Qed.

Lemma triple_exchange b raw id :
  triple (λ s, I s ∧ nattMode s = b) (exchange raw id)
    (λ rsp s, (I s ∧ nattMode s = b) ∧ matching id rsp ∧ frameDatagram b raw ∈ sent s).
Proof using HI HN. unfold exchange. apply triple_read. intros s0 _. apply triple_exchange_loop. Qed.
End plumbing.

(** ** IKE_SA_INIT *)

(** What a payload loop reads in a chain. *)
Lemma cookieIn_ok ps c : Forall payload_ok ps → cookieIn ps = Some c → bytes_ok c ∧ 1 ≤ len c ≤ 64.
Proof.
  induction 1 as [|p ps Hp _ IH]; cbn [cookieIn]; [done|]. destruct p; try done.
  destruct (_ =? NotifyCookie); [|done]. destruct (_ || _) eqn:Hl; [done|]. intros [= <-].
  bool_prop. destruct Hp as (_ & _ & _ & _ & Hd). split; [exact Hd|len_pos; lia].
Qed.

Lemma invalidKEIn_ok ps : Forall payload_ok ps → yields (λ _, True) (invalidKEIn ps).
Proof.
  induction 1 as [|p ps Hp _ IH]; cbn [invalidKEIn]; [done|]. destruct p; try done.
  destruct (_ =? NotifyInvalidKEPayload); [|done].
  destruct Hp as (_ & _ & _ & _ & Hd). go_safe; try done.
Qed.

Section init.
Context {P : Primitives} {HL : PrimitiveLaws P} {W : World} {HW : WorldLaws W}.
Context {N : Network} {HN : NetworkLaws N}.

(** The IKE_SA_INIT request that offers the key share [d] and the nonce [ni]. *)
Definition saInitRequest (c : Config) (spi : Z) (d : DH) (ni cookie : bytes) : Message :=
  {| m_InitiatorSPI := spi; m_ResponderSPI := 0; m_Exchange := ExchangeIKESAInit;
     m_Flags := FlagInitiator; m_MessageID := 0;
     m_Payloads := appendNATDetection w_sha1 w_endpoints spi 0
       ((if len cookie >? 0 then [NotifyPayload 0 NotifyCookie [] cookie] else []) ++
        [SAPayload (buildProposals [] (enabledIKESuites c) preferredDHGroups);
         KEPayload (dh_Group d) (dh_Public d); NoncePayload ni]) |}.

(** Before there is an IKE SA. *)
Record fresh (c : Config) (s : Session) : Prop := {
  fr_cfg : cfg s = c;
  fr_sas : sas s = [];
  fr_ikeSA : ikeSA s = None;
  fr_oldIKE : oldIKE s = None;
  fr_pending : pending s = None;
  fr_natt : nattMode s = false;
}.

(** The initiator has chosen its SPI, key share and nonce. *)
Record asked (c : Config) (spi r : Z) (d : DH) (ni : bytes) (s : Session) : Prop := {
  ak_fresh : fresh c s;
  ak_dh : dh s = Some d;
  ak_nonceI : nonceI s = ni;
  ak_spi : initiatorSPI s = spi;
  ak_spir : responderSPI s = r;
}.

(** The last request was sent and answered. *)
Record answered (c : Config) (spi : Z) (d : DH) (ni : bytes) (s : Session) : Prop := {
  an_req : ∃ cookie, Message_Marshal (saInitRequest c spi d ni cookie) = Ok (initSAInitReq s);
  an_sent : initSAInitReq s ∈ sent s;
  an_rsp : bytes_ok (initSAInitRsp s);
}.

Definition share_ok (d : DH) : Prop := dh_wf d ∧ dh_Group d ∈ preferredDHGroups.

Lemma sent_later (x d : bytes) s : x ∈ sent s → x ∈ sent (set_sent (sent s ++ [d]) s).
Proof. intros H. cbn. apply elem_of_app. by left. Qed.

#[local] Instance fresh_plumbed c : Plumbed (fresh c).
Proof. split; intros ? s []; by constructor. Qed.
#[local] Instance asked_plumbed c spi r d ni : Plumbed (asked c spi r d ni).
Proof. split; intros ? s []; constructor; try done; by apply plumb_calls || by apply plumb_sent. Qed.

(** A conjunction of plumbed assertions and of facts about other fields. *)
Ltac plumbed :=
  split; intros; destruct_and?; split_and?; first [done|by apply plumb_calls|by apply plumb_sent].

Lemma triple_sendSAInit c spi d ni cookie :
  triple (asked c spi 0 d ni) (sendSAInit cookie)
    (λ rsp s, asked c spi 0 d ni s ∧ answered c spi d ni s ∧ initSAInitRsp s = rsp ∧ bytes_ok rsp).
Proof using HN.
  unfold sendSAInit. apply triple_read. intros s0 [Hf Hdh Hni Hspi Hr]. eapply triple_bind.
  { apply (triple_lift _ _ (λ raw, Message_Marshal (saInitRequest c spi d ni cookie) = Ok raw)). intros s _.
    unfold buildSAInit. rewrite Hdh, Hni, Hspi, Hr, (fr_cfg _ _ Hf). cbn [deref]. go_step.
    pose proof (Message_Marshal_safe (saInitRequest c spi d ni cookie)) as Hm. unfold saInitRequest in Hm.
    fold (saInitRequest c spi d ni cookie) in Hm |- *. unfold preferredDHGroups in Hm.
    by destruct (Message_Marshal _). }
  intros req. eapply triple_bind with
    (Q := λ _ s, (asked c spi 0 d ni s ∧ initSAInitReq s = req ∧
                  Message_Marshal (saInitRequest c spi d ni cookie) = Ok req) ∧ nattMode s = false).
  { apply triple_modify. intros s (Ha & Hm & _). split; [|by destruct Ha as [[]]].
    split; [|done]. destruct Ha as [[] ? ? ? ?]. by repeat constructor. }
  intros []. eapply triple_bind.
  { apply triple_exchange. plumbed. }
  intros rsp. eapply triple_bind with
    (Q := λ _ s, asked c spi 0 d ni s ∧ answered c spi d ni s ∧ initSAInitRsp s = rsp ∧ bytes_ok rsp).
  { apply triple_modify. intros s (((Ha & Hreq & Hm) & _) & [Hb _] & Hs). cbn in Hs.
    split_and!; [|constructor; cbn; [|by rewrite Hreq|done]|done|done].
    - destruct Ha as [[] ? ? ? ?]. by repeat constructor.
    - exists cookie. by rewrite Hreq. }
  intros []. by apply triple_ret.
Qed.

Lemma saInitCookie_ok raw : bytes_ok raw → yields (λ _, True) (saInitCookie raw).
Proof.
  intros Hb. unfold saInitCookie. pose proof (Parse_ok raw Hb) as Hp. by destruct (Parse raw).
Qed.
Lemma saInitInvalidKE_ok raw : bytes_ok raw → yields (λ _, True) (saInitInvalidKE raw).
Proof.
  intros Hb. unfold saInitInvalidKE. pose proof (Parse_ok raw Hb) as Hp. destruct (Parse raw) as [m|e| |]; try done.
  apply invalidKEIn_ok, Hp.
Qed.

(** *** The response *)

(** What the payload loop has collected comes from the payloads [ps]. *)
Record collected (c : Config) (d : DH) (ps : Payloads) (a : saInitAcc) (s : Session) : Prop := {
  co_suite suite : ia_suite a = Some suite →
    ∃ prop props, SAPayload (prop :: props) ∈ ps ∧
      selectedSuite prop (enabledIKESuites c) = Some suite ∧ selectedDHGroup prop = dh_Group d;
  co_KE : ia_gotKE a = true → ∃ g, KEPayload g (peerDHPub s) ∈ ps;
  co_nonce : ia_gotNonce a = true → NoncePayload (nonceR s) ∈ ps;
}.

Definition replied c spi r d ni ps (a : saInitAcc) (s : Session) : Prop :=
  asked c spi r d ni s ∧ answered c spi d ni s ∧ collected c d ps a s.

Lemma triple_saInitPayloads c spi r d ni all ps a :
  (∀ p, p ∈ ps → p ∈ all) →
  triple (replied c spi r d ni all a) (saInitPayloads ps a) (replied c spi r d ni all).
Proof.
  revert a. induction ps as [|p ps IH]; intros a Hsub; cbn [saInitPayloads]; [by apply triple_ret|].
  assert (Hp : p ∈ all) by (apply Hsub, list_elem_of_here).
  assert (Hnext : ∀ a', triple (replied c spi r d ni all a') (saInitPayloads ps a') (replied c spi r d ni all)).
  { intros a'. apply IH. intros q Hq. by apply Hsub, list_elem_of_further. }
  destruct p; try apply Hnext.
  - apply triple_read. intros s0 (Ha & _). destruct Proposals as [|prop props]; [apply triple_throw|].
    destruct (selectedSuite _ _) as [suite|] eqn:Hs; [|apply triple_throw].
    rewrite (ak_dh _ _ _ _ _ _ Ha). cbn [deref].
    eapply triple_bind with (Q := λ d' s, replied c spi r d ni all a s ∧ d' = d); [by intros s|].
    intros d'. apply triple_pure. intros ->. destruct (negb _) eqn:Hg; [apply triple_throw|]. bool_prop.
    eapply triple_pre; [apply Hnext|]. intros s (? & ? & []). split_and!; try done. constructor; try done.
    cbn. intros ? [= <-]. exists prop, props. rewrite (fr_cfg _ _ (ak_fresh _ _ _ _ _ _ Ha)) in Hs. auto.
  - eapply triple_modify_then; [apply Hnext|].
    intros s ([[] ? ? ? ?] & [] & []). split_and!; repeat constructor; try done. cbn. eauto.
  - eapply triple_modify_then; [apply Hnext|].
    intros s ([[] ? ? ? ?] & [] & []). split_and!; by repeat constructor.
  - eapply triple_pre; [apply Hnext|]. intros s (? & ? & []). split_and!; try done.
Qed.

Lemma saInitPayloads_keeps_rsp ps a : stable initSAInitRsp (saInitPayloads ps a).
Proof. revert a. induction ps as [|p ps IH]; intros a; cbn [saInitPayloads]; [done|]. destruct p; stable. Qed.

(** The IKE SA of [s] was derived from the messages of the exchange. *)
Definition bound (c : Config) (s : Session) : Prop :=
  ∃ m d cookie suite prop props g sh ike,
    Parse (initSAInitRsp s) = Ok m ∧ m_Exchange m = ExchangeIKESAInit ∧
    IsResponse (m_Flags m) = true ∧ m_MessageID m = 0 ∧
    m_InitiatorSPI m = initiatorSPI s ∧ m_ResponderSPI m = responderSPI s ∧ responderSPI s ≠ 0 ∧
    share_ok d ∧
    Message_Marshal (saInitRequest c (initiatorSPI s) d (nonceI s) cookie) = Ok (initSAInitReq s) ∧
    initSAInitReq s ∈ sent s ∧
    SAPayload (prop :: props) ∈ m_Payloads m ∧ KEPayload g (peerDHPub s) ∈ m_Payloads m ∧
    NoncePayload (nonceR s) ∈ m_Payloads m ∧
    selectedSuite prop (enabledIKESuites c) = Some suite ∧ selectedDHGroup prop = dh_Group d ∧
    shared d (peerDHPub s) = Ok sh ∧
    Derive (su_id suite) Initiator (initiatorSPI s) (responderSPI s) (nonceI s) (nonceR s) sh = Ok ike ∧
    sas s = [ike] ∧ ikeSA s = Some 0%nat ∧ ikeDHGroup s = dh_Group d.

Lemma Derive_ok suite role spii spir ni nr sh :
  yields (λ s, ike_ok s ∧ ike_InitiatorSPI s = spii ∧ ike_ResponderSPI s = spir)
    (Derive suite role spii spir ni nr sh).
Proof using HL.
  unfold Derive. repeat (case_if; [done|]). cbv zeta.
  destruct (deriveFromSKEYSEED_ok suite role spii spir ni nr (prf (ni ++ nr) sh)) as (s & Hs & Hok).
  rewrite Hs. split; [done|]. by apply deriveFromSKEYSEED_fields in Hs as (_ & _ & ? & ?).
Qed.

(** Between the two exchanges. *)
Record keyed (c : Config) (s : Session) : Prop := {
  ky_cfg : cfg s = c;
  ky_bound : bound c s;
  ky_rsp : bytes_ok (initSAInitRsp s);
  ky_ike : ∃ ike, sas s = [ike] ∧ ikeSA s = Some 0%nat ∧ ike_ok ike ∧
    ike_InitiatorSPI ike = initiatorSPI s ∧ ike_ResponderSPI ike = responderSPI s;
  ky_old : oldIKE s = None;
  ky_pending : pending s = None;
}.

Lemma sess_alloc {B} sa (f : nat → HM B) s :
  (sess (alloc sa) ≫= f) s = f (length (sas s)) (set_sas (sas s ++ [sa]) s).
Proof. done. Qed.

(** The last steps: the shared secret, the keys, the store. *)
Lemma triple_saInitDerive c spi r d ni m suite a s0 :
  share_ok d → Parse (initSAInitRsp s0) = Ok m → m_Exchange m = ExchangeIKESAInit →
  IsResponse (m_Flags m) = true → m_MessageID m = 0 → m_InitiatorSPI m = spi → m_ResponderSPI m = r → r ≠ 0 →
  replied c spi r d ni (m_Payloads m) a s0 → ia_suite a = Some suite → ia_gotKE a = true →
  ia_gotNonce a = true →
  triple (λ s, s = s0)
    (d ← lift (deref (dh s0));
     sh ← lift (wrap_err (HSess ∘ ErrIke) (shared d (peerDHPub s0)));
     sa ← lift (wrap_err (HSess ∘ ErrIke) (Derive (su_id suite) Initiator (initiatorSPI s0)
                  (responderSPI s0) (nonceI s0) (nonceR s0) sh));
     p ← sess (alloc sa);
     _ ← modifyS (set_ikeSA (Some p));
     modifyS (set_ikeDHGroup (dh_Group d)))
    (λ _, keyed c).
Proof using HL.
  intros Hd Hp Hex Hfl Hid Hi Hr Hr0 (Ha & Han & Hc) Hs Hke Hno s ->.
  destruct Ha as [[] Hdh Hni Hspi Hspir], Han as [[cookie Hm] Hsent Hb], Hc as [Hc1 Hc2 Hc3].
  destruct (Hc1 suite Hs) as (prop & props & Hin & Hsel & Hg). destruct (Hc2 Hke) as [g Hg'].
  specialize (Hc3 Hno). rewrite Hdh. cbn [deref]. st_step.
  pose proof (shared_safe d (peerDHPub s0) (proj1 Hd)) as Hsh.
  destruct (shared d (peerDHPub s0)) as [sh|e| |] eqn:Hshr; [|done..]. cbn [wrap_err]. st_step.
  pose proof (Derive_ok (su_id suite) Initiator (initiatorSPI s0) (responderSPI s0) (nonceI s0) (nonceR s0) sh) as Hder.
  destruct (Derive _ _ _ _ _ _ _) as [ike|e| |] eqn:Hike; [|done..]. cbn [wrap_err]. st_step.
  rewrite sess_alloc. st_step. rewrite fr_sas0. destruct Hder as (? & ? & ?). constructor; cbn; try done.
  - exists m, d, cookie, suite, prop, props, g, sh, ike. cbn. rewrite ?Hspi, ?Hni, ?Hspir in *. split_and!; congruence || done.
  - by exists ike.
Qed.

Definition complete c spi d ni (s : Session) : Prop :=
  asked c spi 0 d ni s ∧ answered c spi d ni s.

Lemma triple_handleSAInitResponse c spi d ni raw :
  share_ok d →
  triple (λ s, complete c spi d ni s ∧ initSAInitRsp s = raw) (handleSAInitResponse raw) (λ _, keyed c).
Proof using HL.
  intros Hd. unfold handleSAInitResponse. eapply triple_bind.
  { apply (triple_lift _ _ message_ok). intros s [[_ Han] <-]. apply wrap_err_yields, Parse_ok, Han. }
  intros m. apply triple_get. intros s0 ([[Ha Han] Hraw] & Hm & Hp).
  destruct (Parse raw) as [m'|e| |] eqn:Hpr; try done. injection Hp as ->.
  destruct (m_Exchange m =? _) eqn:Hex; cbn [negb]; [|apply triple_throw].
  destruct (IsResponse _) eqn:Hfl; cbn [negb]; [|apply triple_throw].
  destruct (m_InitiatorSPI m =? _) eqn:Hi; cbn [negb]; [|apply triple_throw].
  destruct (m_MessageID m =? 0) eqn:Hid; cbn [negb]; [|apply triple_throw].
  destruct (m_ResponderSPI m =? 0) eqn:Hr; [apply triple_throw|]. bool_prop.
  set (a0 := {| ia_suite := None |}).
  apply triple_modify_then with (P' := λ s, replied c spi (m_ResponderSPI m) d ni (m_Payloads m) a0 s ∧
                                             initSAInitRsp s = raw).
  2:{ intros s ->. destruct Ha as [[] ? ? ? ?], Han. split; [|done]. split_and!; by repeat constructor. }
  eapply triple_bind with (Q := λ a s, replied c spi (m_ResponderSPI m) d ni (m_Payloads m) a s ∧
                                       initSAInitRsp s = raw).
  { intros s [Hs Hrw]. pose proof (triple_saInitPayloads c spi (m_ResponderSPI m) d ni (m_Payloads m)
      (m_Payloads m) a0 (λ _ H, H) s Hs) as H. pose proof (saInitPayloads_keeps_rsp (m_Payloads m) a0 s) as H'.
    destruct (saInitPayloads _ _ s) as [s' []]; try done. cbn in H'. split; [done|]. by rewrite H'. }
  intros a. destruct (ia_err a); [apply triple_throw|].
  destruct (ia_suite a) as [suite|] eqn:Hs; [|apply triple_throw].
  destruct (ia_gotKE a) eqn:Hke; cbn [negb orb]; [|apply triple_throw].
  destruct (ia_gotNonce a) eqn:Hno; cbn [negb]; [|apply triple_throw].
  apply triple_modify_then with (P' := λ s, replied c spi (m_ResponderSPI m) d ni (m_Payloads m) a s ∧
                                             initSAInitRsp s = raw).
  2:{ intros s [([[] ? ? ? ?] & [] & []) ?]. split; [|done]. split_and!; by repeat constructor. }
  apply triple_get. intros s1 [Hs1 Hraw1]. rewrite <- Hraw1 in Hpr.
  rewrite (ak_spi _ _ _ _ _ _ Ha) in Hi. by eapply triple_saInitDerive.
Qed.

Lemma triple_retryInvalidKE c spi d ni g cookie :
  share_ok d →
  triple (complete c spi d ni) (retryInvalidKE g cookie) (λ _ s, ∃ d', share_ok d' ∧ complete c spi d' ni s).
Proof using HL HW HN.
  intros Hd. unfold retryInvalidKE. apply triple_read. intros s0 [Ha0 _].
  rewrite (ak_dh _ _ _ _ _ _ Ha0). cbn [deref].
  eapply triple_bind with (Q := λ d' s, complete c spi d ni s ∧ d' = d); [by intros s|].
  intros ?. apply triple_pure. intros ->.
  destruct (supportedDHGroup g) eqn:Hg; cbn [negb orb]; [|apply triple_throw].
  destruct (g =? dh_Group d); [apply triple_throw|].
  eapply triple_bind with (Q := λ d' s, asked c spi 0 d ni s ∧ dh_Group d' = g ∧ dh_wf d').
  { eapply triple_pre; [apply triple_NewDH; apply _|]. by intros s []. }
  intros d'. apply triple_pure. intros [Hg' Hwf].
  assert (Hd' : share_ok d').
  { split; [done|]. rewrite Hg'. by apply bool_decide_eq_true in Hg. }
  apply triple_modify_then with (P' := asked c spi 0 d' ni).
  2:{ intros s [[] ? ? ? ?]. by repeat constructor. }
  eapply triple_bind; [apply triple_sendSAInit|]. intros rsp. eapply triple_bind.
  { apply (triple_lift _ _ (λ _, True)). intros s (_ & _ & _ & Hb). by apply saInitCookie_ok. }
  intros [ck|].
  - eapply triple_bind; [eapply triple_pre; [apply triple_sendSAInit|]; intros s [[? _] _]; done|].
    intros rsp'. apply triple_ret. intros s (? & ? & _). exists d'. by split.
  - apply triple_ret. intros s [(? & ? & _) _]. exists d'. by split.
Qed.

Lemma checkConfiguredSuites_ok c : yields (λ _, True) (checkConfiguredSuites c).
Proof. unfold checkConfiguredSuites. by repeat case_match. Qed.

Lemma New_fresh c : fresh c (New c).
Proof. by constructor. Qed.

Lemma keyed_natt c b s : keyed c s → keyed c (set_nattMode b s).
Proof. intros []. by constructor. Qed.

Lemma triple_IKESAInit c :
  triple (λ s, fresh c s ∧ responderSPI s = 0) IKESAInit (λ _ s, keyed c s ∧ messageID s = 1).
Proof using HL HW HN.
  unfold IKESAInit. apply triple_read. intros s0 _. eapply triple_bind.
  { apply (triple_lift _ _ (λ _, True)). intros s _. apply checkConfiguredSuites_ok. }
  intros []. eapply triple_bind with (Q := λ _ s, fresh c s ∧ responderSPI s = 0).
  { eapply triple_pre; [apply triple_tick; plumbed|]. by intros s [? _]. }
  intros k. destruct (negb _); [apply triple_throw|].
  eapply triple_bind.
  { apply triple_randUint64. plumbed. }
  intros spi. apply triple_modify_then with (P' := λ s, fresh c s ∧ responderSPI s = 0 ∧ initiatorSPI s = spi).
  2:{ intros s [[[] ?] ?]. split; by repeat constructor. }
  eapply triple_bind.
  { apply triple_NewDH. plumbed. }
  intros d. apply triple_pure. intros [Hg Hwf].
  assert (Hd : share_ok d). { split; [done|]. rewrite Hg. apply list_elem_of_here. }
  apply triple_modify_then with (P' := λ s, fresh c s ∧ responderSPI s = 0 ∧ initiatorSPI s = spi ∧ dh s = Some d).
  2:{ intros s ([] & ? & ?). split; by repeat constructor. }
  eapply triple_bind.
  { apply triple_randBytes; [|unfold nonceLen; lia]. plumbed. }
  intros ni. apply triple_modify_then with (P' := asked c spi 0 d ni).
  2:{ intros s (([] & ? & ? & ?) & _). by repeat constructor. }
  eapply triple_bind; [apply triple_sendSAInit|]. intros rsp. eapply triple_bind.
  { apply (triple_lift _ _ (λ _, True)). intros s (_ & _ & _ & Hb). by apply saInitCookie_ok. }
  intros ck. eapply triple_bind with (Q := λ r s, complete c spi d ni s ∧ bytes_ok r.2).
  { destruct ck as [ck|].
    - eapply triple_bind; [eapply triple_pre; [apply triple_sendSAInit|]; intros s [[? _] _]; done|].
      intros rsp'. apply triple_ret. intros s (? & ? & _ & ?). by split.
    - apply triple_ret. intros s [(? & ? & _ & ?) _]. by split. }
  intros [cookie rsp']. apply triple_pure. intros Hb. eapply triple_bind.
  { apply (triple_lift _ _ (λ _, True)). intros s _. by apply saInitInvalidKE_ok. }
  intros ke. eapply triple_bind with (Q := λ _ s, ∃ d', share_ok d' ∧ complete c spi d' ni s).
  { destruct ke as [g|].
    - eapply triple_pre; [by apply triple_retryInvalidKE|]. by intros s [? _].
    - apply triple_ret. intros s [? _]. eauto. }
  intros []. apply triple_get. intros s1 (d' & Hd' & Hs1).
  eapply triple_bind.
  { eapply triple_pre; [by apply (triple_handleSAInitResponse c spi d' ni)|]. by intros s ->. }
  intros []. eapply triple_bind with (Q := λ _, keyed c).
  { unfold migrateNATT. destruct w_migrates; [|by apply triple_ret]. apply triple_modify.
    intros s. apply keyed_natt. }
  intros []. apply triple_modify. intros s []. split; [|done]. by constructor.
Qed.
End init.
