(* ===== verification/HandshakeAuth.v ===== *)
(** * IKE_AUTH: what an established session has proved

    The IKE_AUTH exchanges on top of IKE_SA_INIT, in the logic of Handshake.v.  They
    run before the data plane is attached and, with a pre-shared key, without
    looking at the configured RemoteID; both facts are instances of [commutes]: a
    computation that does not read a field gives the same result when the field is
    changed beforehand. *)

From S2P Require Import Prelude IkePayload IkeMsg Crypto IkeSA Suite Natt Protected Session Rekey Driver.
From S2P Require Import Stable Invariant Eap Auth SaInit IkeAuth Handshake.

(** ** Computations that ignore a field *)

Definition commutes {E A} (f : Session → Session) (m : ST Session E A) : Prop :=
  ∀ s, m (f s) = (f (m s).1, (m s).2).

(** [f] changes nothing the plumbing of the session looks at. *)
Class Blind (f : Session → Session) : Prop := {
  bl_calls s : calls (f s) = calls s;
  bl_sent s : sent (f s) = sent s;
  bl_sas s : sas (f s) = sas s;
  bl_nattMode s : nattMode (f s) = nattMode s;
  bl_ikeSA s : ikeSA (f s) = ikeSA s;
  bl_oldIKE s : oldIKE (f s) = oldIKE s;
  bl_oldIKEUntil s : oldIKEUntil (f s) = oldIKEUntil s;
  bl_initiatorSPI s : initiatorSPI (f s) = initiatorSPI s;
  bl_responderSPI s : responderSPI (f s) = responderSPI s;
  bl_messageID s : messageID (f s) = messageID s;
  bl_set_calls n s : set_calls n (f s) = f (set_calls n s);
  bl_set_sent l s : set_sent l (f s) = f (set_sent l s);
  bl_set_sas l s : set_sas l (f s) = f (set_sas l s);
  bl_set_messageID n s : set_messageID n (f s) = f (set_messageID n s);
}.

Create HintDb commutes discriminated.

Section commutes.
Context {E : Type} (f : Session → Session).

Lemma commutes_bind {A B} (m : ST Session E A) (k : A → ST Session E B) :
  commutes f m → (∀ a, commutes f (k a)) → commutes f (m ≫= k).
Proof.
  intros Hm Hk s. unfold mbind, ST_bind. rewrite Hm. destruct (m s) as [s' [a|e| |]]; cbn; [apply Hk|done..].
Qed.
(** Reading the state, and using only what [f] leaves alone. *)
Lemma commutes_get {A} (k : Session → ST Session E A) :
  (∀ s, k (f s) = k s) → (∀ s, commutes f (k s)) → commutes f (getS ≫= k).
Proof. intros H1 H2 s. rewrite !st_get, H1. apply H2. Qed.
Lemma commutes_ret {A} (a : A) : commutes f (mret a : ST Session E A).
Proof. done. Qed.
Lemma commutes_throw {A} (e : E) : commutes f (throw e : ST Session E A).
Proof. done. Qed.
Lemma commutes_lift {A} (r : Res E A) : commutes f (lift r).
Proof. done. Qed.
Lemma commutes_modify g : (∀ s, g (f s) = f (g s)) → commutes f (modifyS g : ST Session E unit).
Proof. intros H s. transitivity ((g (f s), Ok tt) : Session * Res E unit); [done|by rewrite H]. Qed.
Lemma commutes_wrapST {F A} (g : E → F) (m : ST Session E A) : commutes f m → commutes f (wrapST g m).
Proof. intros Hm s. unfold wrapST. rewrite Hm. by destruct (m s). Qed.
Lemma commutes_attempt {F A} (m : ST Session E A) : commutes f m → commutes f (attempt (F:=F) m).
Proof. intros Hm s. unfold attempt. rewrite Hm. by destruct (m s) as [s' []]. Qed.
End commutes.
#[export] Hint Resolve commutes_ret commutes_throw commutes_lift : commutes.

Ltac commutes :=
  repeat first
    [ solve [eauto with commutes]
    | lazymatch goal with
      | |- commutes _ (getS ≫= _) => apply commutes_get; [reflexivity|]
      | |- commutes _ (_ ≫= _) => apply commutes_bind
      | |- commutes _ (attempt _) => apply commutes_attempt
      | |- commutes _ (wrapST _ _) => apply commutes_wrapST
      | |- commutes _ (sess _) => apply commutes_wrapST
      | |- commutes _ (modifyS _) => apply commutes_modify; reflexivity
      | |- commutes _ _ => first [ progress cbv zeta | case_match ]
      | |- ∀ _, _ => intro
      end ].

Section blind.
Context {P : Primitives} {W : World} {N : Network} (f : Session → Session) {HB : Blind f}.

Lemma commutes_tick : commutes f tick.
Proof using HB. intros s. unfold tick. st_step. by rewrite bl_calls, bl_set_calls. Qed.
#[local] Hint Resolve commutes_tick : commutes.
Lemma commutes_now : commutes f now.
Proof using HB. unfold now. commutes. Qed.
Lemma commutes_randBytes k : commutes f (randBytes k).
Proof using HB. unfold randBytes. commutes. Qed.
#[local] Hint Resolve commutes_now commutes_randBytes : commutes.
Lemma commutes_sendDatagram raw : commutes f (sendDatagram raw).
Proof using HB.
  intros s. unfold sendDatagram, tick. st_step. rewrite bl_calls, bl_set_calls.
  destruct (w_send _); [|done]. cbn [fst snd putS]. by rewrite bl_sent, bl_nattMode, bl_set_sent.
Qed.
Lemma commutes_nextMessageID : commutes f nextMessageID.
Proof using HB. apply commutes_modify. intros s. by rewrite bl_messageID, bl_set_messageID. Qed.
Lemma commutes_current : commutes f current.
Proof using HB. apply commutes_get; [intros s; by rewrite bl_ikeSA|]. commutes. Qed.
Lemma commutes_load p : commutes f (load p).
Proof using HB. apply commutes_get; [intros s; by rewrite bl_sas|]. commutes. Qed.
#[local] Hint Resolve commutes_sendDatagram commutes_nextMessageID commutes_current commutes_load : commutes.
Lemma commutes_roleBit p : commutes f (roleBit p).
Proof using HB. unfold roleBit. commutes. Qed.
Lemma commutes_curCtx : commutes f curCtx.
Proof using HB.
  unfold curCtx. apply commutes_bind; [commutes|]. intros p.
  apply commutes_get; [intros s; by rewrite bl_initiatorSPI, bl_responderSPI|]. commutes.
Qed.
#[local] Hint Resolve commutes_roleBit commutes_curCtx : commutes.
Lemma commutes_on_sa {A} p (c : ST IKESA sess_error A) : commutes f (on_sa p c).
Proof using HB.
  unfold on_sa. apply commutes_bind; [commutes|]. intros ike. destruct (c ike) as [ike' r].
  apply commutes_bind; [|commutes]. apply commutes_modify. intros s. by rewrite bl_sas, bl_set_sas.
Qed.
#[local] Hint Resolve commutes_on_sa : commutes.
Lemma commutes_encodeSK e fl i ps : commutes f (encodeSK e fl i ps).
Proof using HB. unfold encodeSK, encodeSKAt. commutes. Qed.
Lemma commutes_decodeIKE raw : commutes f (decodeIKE raw).
Proof using HB.
  unfold decodeIKE. apply commutes_bind; [commutes|]. intros cur. apply commutes_bind; [commutes|]. intros ike.
  apply commutes_get; [intros s; by rewrite bl_oldIKE, bl_oldIKEUntil|]. commutes.
Qed.
End blind.
#[export] Hint Resolve commutes_tick commutes_now commutes_randBytes commutes_sendDatagram
  commutes_nextMessageID commutes_current commutes_load commutes_roleBit commutes_encodeSK
  commutes_decodeIKE : commutes.
#[export] Hint Extern 1 (Blind _) => typeclasses eauto : commutes.

#[export] Instance SetDataPlane_blind : Blind SetDataPlane.
Proof. by constructor. Qed.

(** ** Pure parts *)

Lemma not_nil_len {A} (l : list A) : l ≠ [] → 0 < len l.
Proof. destruct l; [done|]. rewrite len_cons. len_pos. lia. Qed.

Lemma foldl_lor_zero l a : foldl Z.lor a l = 0 → a = 0 ∧ Forall (λ x, x = 0) l.
Proof.
  revert a. induction l as [|x l IH]; intros a; cbn; [auto|].
  intros [Hx Hl]%IH. apply Z.lor_eq_0_iff in Hx as [-> ->]. auto.
Qed.

Lemma constTimeEqual_eq a b : constTimeEqual a b = true ↔ a = b.
Proof.
  unfold constTimeEqual, len. split.
  - destruct (_ =? _) eqn:Hl; cbn [negb]; [|done]. bool_prop. intros Hz. apply Z.eqb_eq in Hz.
    apply foldl_lor_zero in Hz as [_ Hz]. apply Nat2Z.inj in Hl. revert b Hl Hz.
    induction a as [|x a IH]; intros [|y b] Hl Hz; try done. cbn in Hz. inversion_clear Hz as [|? ? Hxy Hrest].
    apply Z.lxor_eq in Hxy as ->. f_equal. apply IH; [by injection Hl|done].
  - intros ->. rewrite Z.eqb_refl. cbn [negb]. apply Z.eqb_eq.
    assert (H : ∀ l z, z = 0 → foldl Z.lor z (zip_with Z.lxor l l) = 0).
    { induction l as [|x l IH]; intros z ->; cbn; [done|]. apply IH. by rewrite Z.lxor_nilpotent. }
    by apply H.
Qed.

(** Everything a payload loop has kept comes from the message. *)
Record gathered (all : Payloads) (a : authAcc) : Prop := {
  ga_idr i : aa_idr a = Some i → IDrPayload (id_Type i) (id_Data i) ∈ all;
  ga_certs d : d ∈ aa_certs a → ∃ e, CertPayload e d ∈ all;
  ga_auth m d : aa_auth a = Some (m, d) → AuthPayload m d ∈ all;
  ga_sa props : aa_sa a = Some props → SAPayload props ∈ all;
  ga_cp attrs : aa_cp a = Some attrs → ∃ t, ConfigPayload t attrs ∈ all;
}.

Lemma gathered_none all : gathered all noAuthAcc.
Proof. constructor; try done. by intros d ?%elem_of_nil. Qed.

Lemma authCollect_gathered all a p :
  p ∈ all → payload_ok p → gathered all a → gathered all (authCollect a p).
Proof.
  intros Hp Hok []. destruct p; try done; cbn [authCollect]; constructor; cbn; try done.
  - by intros ? [= <-].
  - intros i [= <-]. cbn. destruct Hok as [Hu _]. by rewrite u8_small by exact Hu.
  - intros d [Hd|Hd]%elem_of_app; [auto|]. apply list_elem_of_singleton in Hd as ->. eauto.
  - by intros m d [= <- <-].
  - intros ? [= <-]. eauto.
Qed.

Lemma authPayloads_gathered all ps a :
  (∀ p, p ∈ ps → p ∈ all) → Forall payload_ok all → gathered all a →
  yields (gathered all) (authPayloads a ps).
Proof.
  intros Hsub Hall. revert a. induction ps as [|p ps IH]; intros a Ha; [done|].
  assert (Hp : p ∈ all) by (apply Hsub, list_elem_of_here).
  assert (Hok : payload_ok p) by (rewrite Forall_forall in Hall; apply Hall; by apply list_elem_of_In).
  assert (Hnext : ∀ a', gathered all a' → yields (gathered all) (authPayloads a' ps)).
  { apply IH. intros q Hq. by apply Hsub, list_elem_of_further. }
  pose proof (Hnext _ (authCollect_gathered all a p Hp Hok Ha)) as H.
  destruct p; try exact H. cbn [authPayloads]. destruct (notifyError _); [done|]. by apply Hnext.
Qed.

Lemma authPayloads_all ps : Forall payload_ok ps → yields (gathered ps) (authPayloads noAuthAcc ps).
Proof. intros H. by apply authPayloads_gathered, gathered_none. Qed.

Lemma Packet_Parse_reads raw : bytes_ok raw → yields (λ p, bytes_ok (pk_Data p)) (Packet_Parse raw).
Proof. intros Hb. unfold Packet_Parse. go_safe; cbn; auto with go. Qed.

Lemma firstEAP_ok ps :
  Forall payload_ok ps → yields (λ r, ∀ p, r = Some p → bytes_ok (pk_Data p)) (firstEAP ps).
Proof.
  induction 1 as [|p ps Hp _ IH]; [done|]. destruct p; try exact IH. cbn [firstEAP].
  eapply yields_bind; [by apply wrap_err_yields, Packet_Parse_reads|]. intros p Hd. by intros ? [= <-].
Qed.

(** parseCPReply neither fails nor panics. *)
Lemma cpAttrs_total attrs a : Forall config_attr_ok attrs → ∃ a', cpAttrs a attrs = Ok a'.
Proof.
  intros H. revert a. induction H as [|attr attrs Hat _ IH]; intros a; cbn [cpAttrs]; [eauto|].
  assert (∃ a', cpAttr a attr = Ok a') as [a' ->]; [|apply IH].
  unfold cpAttr. cbv zeta. repeat (case_if; [by eexists|]). case_if; [|case_if; by eexists].
  unfold addr16. destruct (_ || _) eqn:Hl; [|by eexists].
  assert (16 ≤ len (ca_Value attr)).
  { apply orb_true_iff in Hl as [?%Z.eqb_eq|?%Z.eqb_eq]; lia. }
  rewrite slice_ok by lia. cbn [mbind Res_bind]. destruct (AddrFromSlice _); [|by eexists].
  case_if; [|by eexists]. bool_prop. destruct (index_ok (E:=hs_error) (ca_Value attr) 16) as (x & -> & _); [lia..|].
  by eexists.
Qed.

(** ** The exchanges *)

(** What IKE_AUTH leaves as IKE_SA_INIT left it. *)
Definition frozen (s : Session) : Config * bool * bytes * bytes * bytes * bytes :=
  (cfg s, nattMode s, nonceI s, nonceR s, initSAInitReq s, initSAInitRsp s).

#[export] Instance frozen_observes : Observes frozen.
Proof. by constructor. Qed.

Record authing (s0 s : Session) : Prop := {
  au_inv : inv false (SetDataPlane s0) (SetDataPlane s);
  au_frozen : frozen s = frozen s0;
}.

#[export] Instance authing_plumbed s0 : Plumbed (authing s0).
Proof.
  split; intros x s [[[] []] Hf]; (split; [|exact Hf]); split; constructor; cbn in *; auto.
  by apply prefix_app_r.
Qed.

(** A write to a field that neither the invariant nor [frozen] mentions. *)
Ltac authing_frame := intros [[[] []] Hf]; split; [split; by constructor|exact Hf].

(** The payloads were received under the keys of [ike]. *)
Definition received {P : Primitives} (ike : IKESA) (ps : Payloads) : Prop :=
  ∃ ike' raw m, same_keys ike ike' ∧ authentic_message ike' raw m ∧ decodeSKWith ike' raw = (true, Ok (m, ps)).

Lemma same_keys_SKpr s s' : same_keys s s' → SKpr s' = SKpr s.
Proof. by intros [n ->]. Qed.

Lemma sess_current_state s : (sess (p ← current; load p) s).1 = s.
Proof.
  unfold sess, wrapST, current, load. st_step. destruct (ikeSA s) as [p|]; [|done]. st_step. by destruct (sas s !! p).
Qed.

Section auth.
Context {P : Primitives} {HL : PrimitiveLaws P} {W : World} {HW : WorldLaws W}.
Context {N : Network} {HN : NetworkLaws N} {R : Radius} {X : X509}.
Context (s0 : Session) (p0 : nat) (ike0 : IKESA).
Hypothesis Hcur : ikeSA s0 = Some p0.
Hypothesis Hike : sas s0 !! p0 = Some ike0.
Hypothesis Hold : oldIKE s0 = None.

(** An operation of the session that does not look at the data plane. *)
Lemma triple_sess {A} (m : SM A) T :
  commutes SetDataPlane m → stable frozen m → hoare (inv false (SetDataPlane s0)) m T →
  triple (authing s0) (sess m) (λ a s, authing s0 s ∧ T a).
Proof.
  intros Hc Hs Hm. apply triple_wrapST. intros s [Hi Hf]. specialize (Hc s). specialize (Hs s).
  destruct (Hm _ Hi) as [Hi' Hy]. rewrite Hc in Hi', Hy. destruct (m s) as [s' [a|e| |]]; try done.
  cbn in *. split; [|done]. split; [done|]. by rewrite Hs.
Qed.

Lemma triple_current : triple (authing s0) (sess (p ← current; load p)) (λ ike s, authing s0 s ∧ same_keys ike0 ike).
Proof using Hcur Hike.
  apply triple_wrapST. intros s [[Hok Hev] Hf]. unfold current, load. st_step.
  destruct (ev_current _ _ _ Hev eq_refl) as (Hc & _). cbn in Hc. rewrite Hc, Hcur. cbn [deref]. st_step.
  destruct (ev_sas _ _ _ Hev p0 ike0) as (ike & Hl & Hk); [done|]. cbn in Hl. rewrite Hl. cbn. split; [split; [by split|done]|done].
Qed.

Lemma triple_decodeSK raw :
  bytes_ok raw →
  triple (authing s0) (sess (decodeIKE raw))
    (λ r s, authing s0 s ∧ Forall payload_ok r.1.2 ∧ received ike0 r.1.2).
Proof using HL Hcur Hike Hold.
  intros Hb. apply triple_wrapST. intros s [[Hok Hev] Hf].
  pose proof (commutes_decodeIKE SetDataPlane raw s) as Hc. pose proof (stable_decodeIKE frozen raw s) as Hst.
  destruct (decodeIKE_post (SetDataPlane s) raw Hok Hb) as (n & Hs' & Hy). rewrite Hc in Hs', Hy.
  destruct (decodeIKE raw s) as [s' [[[m inner] dec]|e| |]]; try done. cbn in Hs', Hy, Hst |- *.
  destruct Hy as (_ & Hin & _ & (ike & Hl & Hau & Hd) & Hdec).
  destruct (ev_current _ _ _ Hev eq_refl) as (Hc0 & Ho0 & _). cbn in Hc0, Ho0, Hl.
  rewrite Hc0, Hcur, Ho0, Hold in Hdec. destruct Hdec as [[= Hdec]|]; [|done].
  destruct (ev_sas _ _ _ Hev p0 ike0) as (ike' & Hl' & Hk); [done|]. cbn in Hl'.
  rewrite <- Hdec in Hl. split_and!; [|done|].
  - split; [|by rewrite Hst]. rewrite Hs'. by apply inv_calls.
  - exists ike, raw, m. split_and!; [|done..]. congruence.
Qed.

Lemma triple_exchangeSK ex id inner :
  triple (authing s0) (exchangeSK ex id inner)
    (λ ps s, authing s0 s ∧ Forall payload_ok ps ∧ received ike0 ps).
Proof using HL HW HN Hcur Hike Hold.
  unfold exchangeSK. eapply triple_bind; [apply triple_sess; [commutes|stable|eauto with hoare]|]. intros fl.
  eapply triple_bind.
  { eapply triple_pre; [apply triple_sess; [commutes|stable|eauto with hoare]|]. by intros s []. }
  intros req. eapply triple_bind with (Q := λ rsp s, authing s0 s ∧ matching id rsp).
  { eapply triple_conseq; [apply (triple_exchange (authing s0) (nattMode s0))|..].
    - intros s [Hs _]. split; [done|]. by injection (au_frozen _ _ Hs).
    - intros rsp s ([? _] & ? & _). done. }
  intros rsp. apply triple_pure. intros [Hb _]. eapply triple_bind; [by apply triple_decodeSK|].
  intros [[m ps] dec]. by apply triple_ret.
Qed.

Lemma triple_nextMessageID :
  triple (authing s0) (sess nextMessageID) (λ _ s, authing s0 s).
Proof.
  eapply triple_post; [apply triple_sess; [commutes|by apply stable_modify|apply hoare_nextMessageID]|]. by intros ? s [].
Qed.

Lemma triple_allocChildSPI : triple (authing s0) allocChildSPI (λ _ s, authing s0 s).
Proof using HW.
  unfold allocChildSPI. eapply triple_bind; [apply triple_randBytes; [apply _|lia]|]. intros spi.
  eapply triple_bind.
  { apply (triple_lift _ _ is_u32). intros s (_ & Hl & Hb). apply Uint32_yields; [done|lia]. }
  intros v. eapply triple_modify_then; [by apply (triple_ret _ (authing s0))|].
  intros s [[Hs _] _]. revert Hs. authing_frame.
Qed.

Lemma triple_computeInitiatorAuth secret :
  triple (authing s0) (computeInitiatorAuth secret) (λ _ s, authing s0 s).
Proof using Hcur Hike.
  unfold computeInitiatorAuth. eapply triple_bind; [apply triple_current|]. intros ike.
  apply triple_read. intros s1 _. apply triple_ret. by intros s [].
Qed.

Lemma responderSignedOctets_frozen s ike id :
  authing s0 s → same_keys ike0 ike → responderSignedOctets s ike id = responderSignedOctets s0 ike0 id.
Proof.
  intros [_ Hf] Hk. unfold responderSignedOctets. injection Hf as _ _ -> _ _ ->. by rewrite (same_keys_SKpr _ _ Hk).
Qed.

(** ** The responses *)

(** The responder signed the exchange with the key of a certificate we trust. *)
Definition cert_proof : Prop :=
  ∃ ps certs ty d method data t leaf,
    received ike0 ps ∧ (∀ der, der ∈ certs → ∃ e, CertPayload e der ∈ ps) ∧
    IDrPayload ty d ∈ ps ∧ AuthPayload method data ∈ ps ∧ chain_trusted certs t leaf ∧
    (id_Data (RemoteID (cfg s0)) ≠ [] → identity_matches leaf (RemoteID (cfg s0))) ∧
    VerifyCertAuth method data (responderSignedOctets s0 ike0 (MarshalIDBody ty d)) leaf = Ok tt.

(** The responder has proved that it holds the secret. *)
Definition secret_proof (secret : bytes) (ps : Payloads) (s : Session) : Prop :=
  received ike0 ps ∧
  AuthPayload MethodSharedKeyMIC (SharedSecretAuth secret (responderSignedOctets s0 ike0
    (MarshalIDBody (id_Type (remoteIDr s)) (id_Data (remoteIDr s))))) ∈ ps.

(** The Child SA is the one the responder selected, keyed by the IKE SA. *)
Definition child_from (ps : Payloads) (s : Session) : Prop :=
  ∃ prop props suite ch, SAPayload (prop :: props) ∈ ps ∧
    selectedSuite prop (enabledESPSuites (cfg s0)) = Some suite ∧ child s = Some ch ∧
    ch_Suite ch = su_id suite ∧ Uint32 (pr_SPI prop) = Ok (E:=hs_error) (ch_ResponderSPI ch) ∧
    is_u32 (ch_ResponderSPI ch) ∧ ch_InitiatorSPI ch = childInitiatorSPI s ∧
    DeriveChildKeys ike0 (nonceI s0) (nonceR s0) (su_encrKeyLen suite) (su_integKeyLen suite) = Ok (ch_Keys ch).

Lemma frozen_cfg s : authing s0 s → cfg s = cfg s0.
Proof. intros [_ Hf]. by injection Hf. Qed.

Lemma VerifyCertAuth_ok method data signed leaf :
  bytes_ok data → yields (λ _, True) (VerifyCertAuth method data signed leaf).
Proof.
  intros Hb. unfold VerifyCertAuth. case_if; [by case_if|]. case_if; [|done].
  eapply yields_bind; [by apply parseRFC7427_ok|]. intros [algo sig] _. by case_if.
Qed.

Lemma parseAll_ok ders : yields (λ _, True) (parseAll ders).
Proof.
  induction ders as [|der rest IH]; [done|]. cbn [parseAll]. destruct (ParseCertificate der); [|done].
  by eapply yields_bind.
Qed.
Lemma VerifyServerChain_safe certs name now : yields (λ _, True) (VerifyServerChain certs name now).
Proof.
  unfold VerifyServerChain. destruct certs as [|der rest]; [done|]. destruct (ParseCertificate der); [|done].
  eapply yields_bind; [apply parseAll_ok|]. intros inter _. case_if; [done|]. case_if; [done|].
  unfold matchName. by repeat case_match.
Qed.

Lemma payload_in ps p : Forall payload_ok ps → p ∈ ps → payload_ok p.
Proof. intros H Hp. rewrite Forall_forall in H. apply H. by apply list_elem_of_In. Qed.

Lemma triple_handleAuthResponse ps :
  Forall payload_ok ps → received ike0 ps →
  triple (authing s0) (handleAuthResponse ps)
    (λ p s, authing s0 s ∧ bytes_ok (pk_Data p) ∧ firstEAP ps = Ok (Some p) ∧ cert_proof).
Proof using HW Hcur Hike.
  intros Hps Hrec. unfold handleAuthResponse. eapply triple_bind.
  { apply (triple_lift _ _ (gathered ps)). intros s _. by apply authPayloads_all. }
  intros a. destruct (aa_idr a) as [idr|] eqn:Hidr; [|apply triple_throw].
  apply triple_modify_then with (P' := λ s, authing s0 s ∧ gathered ps a).
  2:{ intros s (Hs & Hg & _). split; [|done]. revert Hs. authing_frame. }
  apply triple_pure. intros Hg. apply triple_read. intros s1 Hs1.
  eapply triple_bind; [apply triple_sess; [commutes|stable|apply hoare_now]|]. intros t.
  eapply triple_bind.
  { apply (triple_lift _ _ (λ _, True)). intros s _. apply wrap_err_yields, VerifyServerChain_safe. }
  intros leaf. eapply triple_pre with (P' := λ s, authing s0 s ∧
    VerifyServerChain (aa_certs a) (peerName (RemoteID (cfg s0))) t = Ok leaf).
  2:{ intros s ([Hs _] & _ & Hv). split; [done|]. rewrite (frozen_cfg s1 Hs1) in Hv.
      destruct (VerifyServerChain _ _ _); try done. by injection Hv as ->. }
  apply triple_pure. intros [Htr Hname]%VerifyServerChain_ok.
  destruct (aa_auth a) as [[method data]|] eqn:Hauth; [|apply triple_throw].
  pose proof (ga_auth _ _ Hg _ _ Hauth) as Hin. pose proof (payload_in _ _ Hps Hin) as [_ Hdata].
  eapply triple_bind; [apply triple_current|]. intros ike. cbv zeta. eapply triple_bind.
  { apply (triple_lift _ _ (λ _, True)). intros s _. by apply wrap_err_yields, VerifyCertAuth_ok. }
  intros []. eapply triple_pre with (P' := λ s, authing s0 s ∧ cert_proof).
  2:{ intros s ([Hs Hk] & _ & Hv). split; [done|]. rewrite responderSignedOctets_frozen in Hv by done.
      exists ps, (aa_certs a), (id_Type idr), (id_Data idr), method, data, t, leaf.
      split_and!; [done|apply Hg|by apply Hg|done|done|intros; by apply matchName_peerName|].
      destruct (VerifyCertAuth _ _ _ _) as [[]|e| |]; done. }
  apply triple_pure. intros Hcert. eapply triple_bind.
  { apply (triple_lift _ _ (λ r, ∀ p, r = Some p → bytes_ok (pk_Data p))). intros s _. by apply firstEAP_ok. }
  intros [p|]; [|apply triple_throw]. apply triple_ret. intros s (Hs & Hp & He). split_and!; auto.
Qed.

Lemma DeriveChildKeys_same ike ni nr e i :
  same_keys ike0 ike → DeriveChildKeys ike ni nr e i = DeriveChildKeys ike0 ni nr e i.
Proof.
  intros [n ->]. unfold DeriveChildKeys, deriveChildKeys.
  by change (SKd (with_skSeq ike0 n)) with (SKd ike0).
Qed.

Lemma triple_selectChild ps props id :
  Forall payload_ok ps → (∀ l, props = Some l → SAPayload l ∈ ps) →
  triple (λ s, authing s0 s ∧ remoteIDr s = id) (selectChild props)
    (λ _ s, authing s0 s ∧ remoteIDr s = id ∧ child_from ps s).
Proof using HL Hcur Hike.
  intros Hps Hin. unfold selectChild. apply triple_get. intros s1 [Hs1 Hid].
  destruct props as [[|prop props]|]; [apply triple_throw| |apply triple_throw].
  specialize (Hin _ eq_refl). pose proof (payload_in _ _ Hps Hin) as Hok. inversion_clear Hok as [|? ? Hprop _].
  destruct (selectedSuite _ _) as [suite|] eqn:Hsel; [|apply triple_throw].
  destruct (negb _) eqn:Hl; [apply triple_throw|]. bool_prop.
  eapply triple_bind.
  { apply (triple_lift _ _ is_u32). intros s _. apply Uint32_yields; [apply Hprop|lia]. }
  intros spi. intros s (-> & Hu32 & Hspi). rewrite st_mbind_run.
  pose proof (triple_current s1 Hs1) as Hc. pose proof (sess_current_state s1) as Hst.
  destruct (sess (p ← current; load p) s1) as [s2 [ike|e| |]]; try done. cbn in Hst. subst s2.
  destruct Hc as [_ Hk]. rewrite (DeriveChildKeys_same _ _ _ _ _ Hk).
  assert (Hsuite : suite ∈ espSuites).
  { rewrite (frozen_cfg s1 Hs1) in Hsel. by eapply enabledSuites_sub, selectedSuite_in. }
  destruct (suite_lens LayerESP suite Hsuite) as (? & ? & _).
  assert (Hd : yields (λ _, True) (DeriveChildKeys ike0 (nonceI s1) (nonceR s1) (su_encrKeyLen suite) (su_integKeyLen suite))).
  { eapply yields_mono; [|apply deriveChildKeys_safe; lia]. done. }
  destruct (DeriveChildKeys _ _ _ _ _) as [keys|e| |] eqn:Hkeys; try done. cbn [wrap_err]. st_step.
  split_and!; [revert Hs1; authing_frame|done|].
  eexists prop, props, suite, _. split_and!; [done| |done..|].
  - by rewrite <- (frozen_cfg s1 Hs1).
  - destruct Hs1 as [_ Hf]. injection Hf as _ _ HnI HnR _ _. rewrite <- HnI, <- HnR. cbn [ch_Keys]. exact Hkeys.
Qed.

#[local] Opaque DeriveChildKeys.

Lemma triple_handleFinalAuthResponse ps secret :
  Forall payload_ok ps → received ike0 ps →
  triple (authing s0) (handleFinalAuthResponse ps secret)
    (λ _ s, authing s0 s ∧ established s = true ∧ secret_proof secret ps s ∧ child_from ps s).
Proof using HL Hcur Hike.
  intros Hps Hrec. unfold handleFinalAuthResponse. eapply triple_bind.
  { apply (triple_lift _ _ (gathered ps)). intros s _. by apply authPayloads_all. }
  intros a. destruct (aa_auth a) as [[method data]|] eqn:Hauth; [|apply triple_throw].
  eapply triple_bind with (Q := λ _ s, authing s0 s ∧ gathered ps a).
  { destruct (aa_idr a) as [idr|]; [apply triple_modify|apply triple_ret].
    - intros s (Hs & Hg & _). split; [|done]. revert Hs. authing_frame.
    - intros s (Hs & Hg & _). done. }
  intros []. apply triple_pure. intros Hg. apply triple_get. intros s1 Hs1. cbv zeta.
  destruct (_ && _); [apply triple_throw|].
  eapply triple_bind with (Q := λ ike s, (authing s0 s ∧ remoteIDr s = remoteIDr s1) ∧ same_keys ike0 ike).
  { intros s ->. pose proof (triple_current s1 Hs1) as Hc. pose proof (sess_current_state s1) as Hst.
    destruct (sess _ s1) as [s2 []]; try done. cbn in Hst. subst s2. destruct Hc. done. }
  intros ike. apply triple_pure. intros Hk.
  destruct (method =? MethodSharedKeyMIC) eqn:Hm; cbn [negb orb]; [|apply triple_throw].
  destruct (constTimeEqual _ _) eqn:Heq; cbn [negb]; [|apply triple_throw].
  apply constTimeEqual_eq in Heq. bool_prop. rewrite responderSignedOctets_frozen in Heq by done. subst method data.
  pose proof (ga_auth _ _ Hg _ _ Hauth) as Hin.
  eapply triple_bind; [apply (triple_selectChild ps); [done|apply Hg]|]. intros [].
  eapply triple_bind with (Q := λ _ s, authing s0 s ∧ remoteIDr s = remoteIDr s1 ∧ child_from ps s).
  { destruct (aa_cp a) as [attrs|] eqn:Hcp; [|by apply triple_ret].
    destruct (ga_cp _ _ Hg _ Hcp) as [ty Hcin]. pose proof (payload_in _ _ Hps Hcin) as [_ Hattrs].
    destruct (cpAttrs_total attrs noAssigned Hattrs) as [v Hv]. unfold parseCPReply. rewrite Hv.
    eapply triple_bind; [by apply (triple_lift _ _ (λ _, True))|]. intros v'. apply triple_modify.
    intros s ((Hs & Hid & Hch) & _). split_and!; [revert Hs; authing_frame|done|exact Hch]. }
  intros []. apply triple_modify. intros s (Hs & Hid & Hch).
  split_and!; [revert Hs; authing_frame|done| |exact Hch].
  split; [done|]. cbn [remoteIDr set_established]. by rewrite Hid.
Qed.

(** ** Pre-shared key *)

Lemma triple_ikeAuthPSK :
  triple (authing s0) ikeAuthPSK
    (λ _ s, authing s0 s ∧ established s = true ∧
            ∃ ps, secret_proof (PSK (cfg s0)) ps s ∧ child_from ps s).
Proof using HL HW HN Hcur Hike Hold.
  unfold ikeAuthPSK. eapply triple_bind; [apply triple_allocChildSPI|]. intros spi.
  apply triple_read. intros s1 Hs1. eapply triple_bind; [apply triple_computeInitiatorAuth|]. intros mac. cbv zeta.
  eapply triple_bind; [apply triple_exchangeSK|]. intros ps. apply triple_pure. intros [Hps Hrec].
  eapply triple_bind; [apply triple_nextMessageID|]. intros []. destruct (firstNotifyError ps); [apply triple_throw|].
  rewrite (frozen_cfg s1 Hs1). eapply triple_post; [by apply triple_handleFinalAuthResponse|].
  intros [] s (? & ? & ? & ?). eauto 6.
Qed.

(** ** EAP *)

(** The server has proved to the client that it knows the password of [c], and [msk]
    is the key of that conversation. *)
Definition eap_proof (c : Config) (msk : bytes) : Prop :=
  ∃ reqs m qs, converse reqs (NewMSCHAPv2 (EAPUser c) (EAPPass c)) = (m, Ok qs) ∧ Verified m = true ∧
    DeriveMSK (MSKInputs m).1 (MSKInputs m).2 = Ok msk.

(** Some conversation has led to [m]. *)
Definition conversed (c : Config) (m : MSCHAPv2) : Prop :=
  ∃ reqs qs, converse reqs (NewMSCHAPv2 (EAPUser c) (EAPPass c)) = (m, Ok qs).

Lemma conversed_step c req rnd m m' p :
  conversed c m → buildEAPResponse req rnd m = (m', Ok p) → conversed c m'.
Proof.
  intros (reqs & qs & H) Hb. exists (reqs ++ [(req, rnd)]), (qs ++ [p]). by eapply converse_snoc.
Qed.

Lemma triple_eapRound c m req :
  conversed c m → bytes_ok (pk_Data req) →
  triple (authing s0) (eapRound m req)
    (λ r s, authing s0 s ∧ conversed c r.1 ∧ bytes_ok (pk_Data r.2)).
Proof using HL HW HN Hcur Hike Hold.
  intros Hconv Hreq. unfold eapRound.
  eapply triple_bind; [apply triple_sess; [commutes|stable|by apply hoare_attempt, hoare_randBytes]|].
  intros rnd. set (rn := match rnd with inl _ => None | inr b => Some b end).
  pose proof (buildEAPResponse_safe req rn m Hreq) as Hsafe.
  destruct (buildEAPResponse req rn m) as [m' r] eqn:Hb. cbn in Hsafe.
  eapply triple_bind.
  { apply (triple_lift _ _ (λ _, True)). intros s _. by destruct r. }
  intros resp. eapply triple_pre with (P' := λ s, authing s0 s ∧ conversed c m').
  2:{ intros s ([Hs _] & _ & Hr). split; [done|]. destruct r; try done. by eapply conversed_step. }
  apply triple_pure. intros Hconv'. apply triple_read. intros s1 _.
  eapply triple_bind; [apply triple_exchangeSK|]. intros ps. apply triple_pure. intros [Hps _].
  eapply triple_bind; [apply triple_nextMessageID|]. intros []. destruct (firstNotifyError ps); [apply triple_throw|].
  eapply triple_bind.
  { apply (triple_lift _ _ (λ r, ∀ p, r = Some p → bytes_ok (pk_Data p))). intros s _. by apply firstEAP_ok. }
  intros [p|]; [|apply triple_throw]. apply triple_ret. intros s (Hs & Hp & _). split_and!; auto.
Qed.

Lemma triple_eapLoop c n m req :
  conversed c m → bytes_ok (pk_Data req) →
  triple (authing s0) (eapLoop n m req)
    (λ m' s, authing s0 s ∧ conversed c m' ∧
             ((MSKInputs m').1 ≠ [] → (MSKInputs m').2 ≠ [] → Verified m' = true)).
Proof using HL HW HN Hcur Hike Hold.
  revert m req. induction n as [|n IH]; intros m req Hconv Hreq; cbn [eapLoop]; [apply triple_throw|].
  destruct (_ =? CodeSuccess).
  - destruct (MSKInputs m) as [phh nt] eqn:Hin. destruct (_ && _ && _) eqn:Hv; [apply triple_throw|].
    apply triple_ret. intros s Hs. split_and!; [done..|]. rewrite Hin. cbn [fst snd].
    intros ?%not_nil_len ?%not_nil_len.
    replace (len phh >? 0) with true in Hv by lia. replace (len nt >? 0) with true in Hv by lia.
    by destruct (Verified m).
  - destruct (_ =? CodeFailure); [apply triple_throw|].
    eapply triple_bind; [by apply (triple_eapRound c)|]. intros [m' next]. apply triple_pure.
    intros [? ?]. by apply IH.
Qed.

Lemma DeriveMSK_inputs phh nt msk : DeriveMSK phh nt = Ok msk → phh ≠ [] ∧ nt ≠ [].
Proof. unfold DeriveMSK. destruct phh as [|x phh]; [done|]. destruct nt as [|y nt]; [by rewrite orb_true_r|done]. Qed.
Lemma DeriveMSK_safe phh nt : yields (λ _, True) (DeriveMSK phh nt).
Proof. unfold DeriveMSK. cbv zeta. by repeat case_match. Qed.

Lemma triple_ikeAuthEAP :
  triple (authing s0) ikeAuthEAP
    (λ _ s, authing s0 s ∧ established s = true ∧ cert_proof ∧
            ∃ ps msk, eap_proof (cfg s0) msk ∧ secret_proof msk ps s ∧ child_from ps s).
Proof using HL HW HN Hcur Hike Hold.
  unfold ikeAuthEAP. eapply triple_bind; [apply triple_allocChildSPI|]. intros spi.
  apply triple_read. intros s1 Hs1. cbv zeta. rewrite (frozen_cfg s1 Hs1).
  eapply triple_bind; [apply triple_exchangeSK|]. intros ps. apply triple_pure. intros [Hps Hrec].
  eapply triple_bind; [apply triple_nextMessageID|]. intros [].
  eapply triple_bind; [by apply triple_handleAuthResponse|]. intros req. apply triple_pure. intros (Hreq & _ & Hcert).
  eapply triple_bind; [apply (triple_eapLoop (cfg s0)); [by exists [], []|done]|].
  intros m. apply triple_pure. intros [Hconv Hver]. destruct (MSKInputs m) as [phh nt] eqn:Hin.
  eapply triple_bind.
  { apply (triple_lift _ _ (λ _, True)). intros s _. apply wrap_err_yields, DeriveMSK_safe. }
  intros msk. eapply triple_pre with (P' := λ s, authing s0 s ∧ eap_proof (cfg s0) msk).
  2:{ intros s (Hs & _ & Hm). split; [done|]. destruct Hconv as (reqs & qs & Hrun).
      destruct (DeriveMSK phh nt) as [k|e| |] eqn:Hd; try done. injection Hm as ->.
      destruct (DeriveMSK_inputs _ _ _ Hd) as [Hp Hn]. exists reqs, m, qs. rewrite Hin. auto. }
  apply triple_pure. intros Heap.
  eapply triple_bind; [apply triple_computeInitiatorAuth|]. intros mac. apply triple_read. intros s2 _.
  eapply triple_bind; [apply triple_exchangeSK|]. intros ps'. apply triple_pure. intros [Hps' Hrec'].
  eapply triple_bind; [apply triple_nextMessageID|]. intros [].
  eapply triple_post; [by apply triple_handleFinalAuthResponse|].
  intros [] s (? & ? & ? & ?). split_and!; [done..|]. by exists ps', msk.
Qed.

(** The outcome of IKE_AUTH. *)
Definition authenticated (c : Config) (s : Session) : Prop :=
  established s = true ∧
  ∃ secret ps, secret_proof secret ps s ∧ child_from ps s ∧
    if len (PSK c) >? 0 then secret = PSK c else eap_proof c secret ∧ cert_proof.

Lemma triple_IKEAuth : triple (authing s0) IKEAuth (λ _ s, authing s0 s ∧ authenticated (cfg s0) s).
Proof using HL HW HN Hcur Hike Hold.
  unfold IKEAuth. apply triple_read. intros s1 Hs1. destruct (ikeSA s1); [|apply triple_throw].
  rewrite (frozen_cfg s1 Hs1). unfold authenticated. destruct (_ >? 0).
  - eapply triple_post; [apply triple_ikeAuthPSK|]. intros [] s (? & ? & ps & ? & ?).
    split_and!; [done..|]. by exists (PSK (cfg s0)), ps.
  - eapply triple_post; [apply triple_ikeAuthEAP|]. intros [] s (? & ? & ? & ps & msk & ? & ? & ?).
    split_and!; [done..|]. by exists msk, ps.
Qed.
End auth.

Lemma keyed_authing {P : Primitives} {N : Network} c s : keyed c s → messageID s = 1 → authing s s.
Proof.
  intros [Hc _ _ (ike & Hsas & Hcur & Hok & Hi & Hr) Ho Hp] Hm. split; [|done]. apply inv_refl.
  constructor; cbn.
  - rewrite Hsas. by constructor.
  - exists 0%nat. split; [done|]. exists ike. by rewrite Hsas.
  - by rewrite Ho.
  - by rewrite Hm.
  - by rewrite Hp.
  - done.
Qed.
