(* ===== verification/HandshakeDemo.v ===== *)
(** * A concrete handshake

    The toy environment of Demo.v with a responder that answers both exchanges, with a
    pre-shared key: the network delivers its two datagrams in every wait, and the
    client picks the one it waits for. *)

From S2P Require Import Prelude IkePayload IkeMsg Crypto IkeSA Suite Natt Protected Session Rekey Driver.
From S2P Require Import Stable Invariant Demo Eap Auth SaInit IkeAuth.

(** A network that delivers [ds] in every wait. *)
Definition demo_net (ds : list bytes) : Network := {|
  w_arrivals n t := ds; w_ctxDone n := false; w_dial n := true; w_migrates := false;
  w_endpoints := {| localIP := Addr4 [10; 0; 0; 1]; localPort := 500; remoteIP := Addr4 [10; 0; 0; 2];
                    remotePort := 500 |};
  w_sha1 b := replicate 20 (u8 (Crypto.Toy.sum b)) |}.

Lemma demo_net_laws ds : forallb demo_bytes_okb ds = true → NetworkLaws (demo_net ds).
Proof.
  intros H. split.
  { intros n t. cbn [w_arrivals demo_net]. apply Forall_forall. intros d Hd. rewrite forallb_forall in H. by apply demo_bytes_ok, H. }
  intros b. split; [done|]. apply Forall_replicate, byte_ok_u8.
Qed.

(** A client with the given pre-shared key and the user u, w. *)
Definition hs_cfg (psk : bytes) : Config := {|
  LocalID := {| id_Type := IDTypeFQDN; id_Data := [99] |};
  RemoteID := {| id_Type := IDTypeFQDN; id_Data := [118; 112; 110] |};
  EAPUser := [117]; EAPPass := [119]; PSK := psk; DPDTimeout := 0; RekeyLifetime := 0;
  IKERekeyLifetime := 0; RekeyMaxPackets := 0; ChildSAPFS := false; ESPSuites := []; IKESuites := [];
  RequestIPv6 := false; RetransmitBase := 0; RetransmitMax := 0; RetransmitTries := 0 |}.
Definition psk_cfg : Config := hs_cfg [1; 2; 3].
Definition eap_cfg : Config := hs_cfg [].

Section demo.
Local Existing Instance toy_primitives.

(** The client after it has sent its first request to a silent network; what it has
    drawn does not depend on the credential. *)
Definition hs_asked : Session := (IKESAInit (N:=demo_net []) (New eap_cfg)).1.

Definition hs_suite : transformSuite := match ikeSuites with s :: _ => s | [] => gcm_row end.
Definition hs_esp : transformSuite := match espSuites with s :: _ => s | [] => gcm_row end.

Definition hs_response : bytes :=
  match Message_Marshal
    {| m_InitiatorSPI := initiatorSPI hs_asked; m_ResponderSPI := 77; m_Exchange := ExchangeIKESAInit;
       m_Flags := FlagResponse; m_MessageID := 0;
       m_Payloads := [SAPayload [buildProposalForSuite 1 hs_suite [] [DH_X25519]];
                      KEPayload DH_X25519 (dh_Public demo_dh); NoncePayload (replicate 32 8)] |} with
  | Ok raw => raw
  | _ => []
  end.

(** The responder's SA. *)
Definition hs_sa : IKESA :=
  match dh hs_asked with
  | Some d =>
      match shared demo_dh (dh_Public d) with
      | Ok sh => match Derive (su_id hs_suite) Responder (initiatorSPI hs_asked) 77 (nonceI hs_asked)
                         (replicate 32 8) sh with Ok ike => ike | _ => no_sa end
      | _ => no_sa
      end
  | None => no_sa
  end.

(** A message of the responder. *)
Definition hs_message (id : Z) (inner : Payloads) : bytes :=
  match (encodeSKWith (initiatorSPI hs_asked) 77 ExchangeIKEAuth FlagResponse id inner
           (Some (replicate 16 4)) hs_sa).2 with Ok raw => raw | _ => [] end.

(** The AUTH of a responder with the given name, and the Child SA it selects. *)
Definition hs_final (secret name : bytes) : Payloads :=
  [IDrPayload IDTypeFQDN name;
   AuthPayload MethodSharedKeyMIC (SharedSecretAuth secret
     (SignedOctets hs_response (nonceI hs_asked) (MarshalIDBody IDTypeFQDN name) (SKpr hs_sa)));
   SAPayload [buildProposalForSuite 1 hs_esp [0; 0; 0; 9] []]].

(** With the pre-shared key; the responder calls itself x, not the vpn of RemoteID. *)
Definition psk_net : Network := demo_net [hs_response; hs_message 1 (hs_final [1; 2; 3] [120])].

Definition eap (p : Packet) : Payload := EAPPayload (Packet_Marshal p).

(** The peer challenge the client will draw, and the key that results. *)
Definition hs_rnd : bytes := replicate 16 15.
Definition hs_msk : bytes :=
  match converse (R:=toy_radius) [(toy_challenge, Some hs_rnd)] (NewMSCHAPv2 [117] [119]) with
  | (m, _) => match DeriveMSK (R:=toy_radius) (passwordHashHash m) (ntResponse m) with Ok k => k | _ => [] end
  end.

(** With EAP: certificate, identity, challenge, success, the end of EAP, AUTH. *)
Definition eap_net : Network := demo_net
  [hs_response;
   hs_message 1 [IDrPayload IDTypeFQDN [118; 112; 110]; CertPayload 4 [118; 112; 110]; AuthPayload 1 [0];
                 eap {| pk_Code := CodeRequest; pk_Identifier := 1; pk_Type := TypeIdentity; pk_Data := [] |}];
   hs_message 2 [eap toy_challenge];
   hs_message 3 [eap (toy_success hs_rnd [117] [119])];
   hs_message 4 [eap {| pk_Code := CodeSuccess; pk_Identifier := 4; pk_Type := 0; pk_Data := [] |}];
   hs_message 5 (hs_final hs_msk [118; 112; 110])].

Lemma psk_net_laws : NetworkLaws psk_net.
Proof. apply demo_net_laws. vm_compute. reflexivity. Qed.
Lemma eap_net_laws : NetworkLaws eap_net.
Proof. apply demo_net_laws. vm_compute. reflexivity. Qed.
End demo.
