(* ===== verification/HandshakeProps.v ===== *)
(** * Theorems about the handshake

    What holds of Dial's two exchanges for every network: they return, an
    established session has authenticated its peer, a failed one has installed
    nothing, the number of datagrams is bounded, and the session they leave is one
    the driver can run. *)

From S2P Require Import Prelude IkePayload IkeMsg Crypto IkeSA Suite Natt Protected Session Rekey Driver.
From S2P Require Import Stable Invariant Demo DriverProps Eap Auth SaInit IkeAuth Handshake HandshakeAuth HandshakeDemo.

(** ** A failed handshake *)

(** What the handshake is there to set. *)
Definition outcome (s : Session) : bool * option ChildSA * Assigned * list ChildSAUpdate :=
  (established s, child s, assigned s, installed s).

#[export] Instance outcome_observes : Observes outcome.
Proof. by constructor. Qed.

(** An error of [m] leaves the outcome alone. *)
Definition clean {A} (m : HM A) : Prop := ∀ s e, (m s).2 = Err e → outcome (m s).1 = outcome s.

Lemma clean_stable {A} (m : HM A) : stable outcome m → clean m.
Proof. intros Hm s e He. apply Hm. by rewrite He. Qed.
Lemma clean_bind {A B} (m : HM A) (k : A → HM B) :
  stable outcome m → (∀ a, clean (k a)) → clean (m ≫= k).
Proof.
  intros Hm Hk s e. unfold mbind, ST_bind. specialize (Hm s). destruct (m s) as [s' [a|e'| |]]; cbn in *;
    [|by intros _; apply Hm|done..].
  intros He. rewrite (Hk a s' e He). by apply Hm.
Qed.
Lemma clean_then {A B} (m : HM A) (k : A → HM B) :
  clean m → (∀ a, noErr (k a)) → clean (m ≫= k).
Proof.
  intros Hm Hk s e. unfold mbind, ST_bind. specialize (Hm s).
  destruct (m s) as [s' [a|e'| |]]; cbn in *; [|by intros _; eapply Hm|done..]. intros He. by destruct (Hk a s' e).
Qed.

Lemma slice_noErr {E A} (b : list A) i j (e : E) : slice b i j ≠ Err e.
Proof. unfold slice. by repeat case_match. Qed.

Lemma cpAttr_noErr a attr e : cpAttr a attr ≠ Err e.
Proof.
  unfold cpAttr. cbv zeta. repeat (case_if; [done|]). case_if; [|by case_if].
  assert (H16 : ∀ e', addr16 (ca_Value attr) ≠ Err e').
  { intros e'. unfold addr16. case_if; [apply slice_noErr|done]. }
  destruct (addr16 (ca_Value attr)) as [b|e'| |]; cbn [mbind Res_bind]; [|by destruct (H16 e')|done..].
  destruct (AddrFromSlice b); [|done]. case_if; [|done].
  pose proof (index_noErr (E:=hs_error) (ca_Value attr) 16) as Hi.
  destruct (index (ca_Value attr) 16) as [x|e'| |]; cbn [mbind Res_bind]; [done|by destruct (Hi e')|done..].
Qed.
Lemma cpAttrs_noErr attrs a e : cpAttrs a attrs ≠ Err e.
Proof.
  revert a. induction attrs as [|attr attrs IH]; intros a; cbn [cpAttrs]; [done|].
  pose proof (cpAttr_noErr a attr) as Hc. destruct (cpAttr a attr) as [a'|e'| |]; cbn [mbind Res_bind];
    [apply IH|by destruct (Hc e')|done..].
Qed.

Lemma stable_sess {Y A} (obs : Session → Y) (m : SM A) : stable obs m → stable obs (sess m).
Proof. apply stable_wrapST. Qed.
Ltac sess_stable := repeat first [progress stable | apply stable_sess].

(** [obs] looks away from what the exchanges record before their verdict. *)
Class Ignores {Y} (obs : Session → Y) : Prop := {
  ig_observes :: Observes obs;
  ig_initiatorSPI v s : obs (set_initiatorSPI v s) = obs s;
  ig_responderSPI v s : obs (set_responderSPI v s) = obs s;
  ig_dh v s : obs (set_dh v s) = obs s;
  ig_nonceI v s : obs (set_nonceI v s) = obs s;
  ig_nonceR v s : obs (set_nonceR v s) = obs s;
  ig_peerDHPub v s : obs (set_peerDHPub v s) = obs s;
  ig_initSAInitReq v s : obs (set_initSAInitReq v s) = obs s;
  ig_initSAInitRsp v s : obs (set_initSAInitRsp v s) = obs s;
  ig_messageID v s : obs (set_messageID v s) = obs s;
  ig_remoteIDr v s : obs (set_remoteIDr v s) = obs s;
  ig_nattMode v s : obs (set_nattMode v s) = obs s;
  ig_natDetected v s : obs (set_natDetected v s) = obs s;
  ig_ikeSA v s : obs (set_ikeSA v s) = obs s;
  ig_ikeDHGroup v s : obs (set_ikeDHGroup v s) = obs s;
}.
#[export] Hint Extern 1 (stable _ (modifyS _)) =>
  apply stable_modify; intros;
  (apply ig_initiatorSPI || apply ig_responderSPI || apply ig_dh || apply ig_nonceI || apply ig_nonceR ||
   apply ig_peerDHPub || apply ig_initSAInitReq || apply ig_initSAInitRsp || apply ig_messageID ||
   apply ig_remoteIDr || apply ig_nattMode || apply ig_natDetected || apply ig_ikeSA ||
   apply ig_ikeDHGroup) : stable.

Section ignores.
Context {P : Primitives} {W : World} {N : Network} {R : Radius} {X : X509}.
Context {Y : Type} (obs : Session → Y) {HI : Ignores obs}.

#[local] Hint Resolve stable_sess : stable.
Lemma stable_exchange raw id : stable obs (exchange raw id).
Proof using HI.
  unfold exchange. apply stable_bind; [stable|]. intros s.
  generalize (retransmitBase (cfg s)). induction (Z.to_nat _) as [|n IH]; intros b; cbn [exchange_loop]; sess_stable.
Qed.
#[local] Hint Resolve stable_exchange : stable.
Lemma stable_sendSAInit cookie : stable obs (sendSAInit cookie).
Proof using HI. unfold sendSAInit. sess_stable. Qed.
Lemma stable_saInitPayloads ps a : stable obs (saInitPayloads ps a).
Proof using HI. revert a. induction ps as [|p ps IH]; intros a; cbn [saInitPayloads]; [done|]. destruct p; sess_stable. Qed.
#[local] Hint Resolve stable_sendSAInit stable_saInitPayloads : stable.
Lemma stable_handleSAInitResponse raw : stable obs (handleSAInitResponse raw).
Proof using HI. unfold handleSAInitResponse. sess_stable. Qed.
#[local] Hint Resolve stable_handleSAInitResponse : stable.
Lemma stable_IKESAInit : stable obs IKESAInit.
Proof using HI. unfold IKESAInit, retryInvalidKE, migrateNATT. sess_stable. Qed.

Lemma stable_nextMessageID : stable obs nextMessageID.
Proof using HI. unfold nextMessageID. stable. Qed.
#[local] Hint Resolve stable_nextMessageID : stable.
Lemma stable_exchangeSK ex id inner : stable obs (exchangeSK ex id inner).
Proof using HI. unfold exchangeSK. sess_stable. Qed.
Lemma stable_computeInitiatorAuth secret : stable obs (computeInitiatorAuth secret).
Proof using HI. unfold computeInitiatorAuth. sess_stable. Qed.
Lemma stable_handleAuthResponse ps : stable obs (handleAuthResponse ps).
Proof using HI. unfold handleAuthResponse. sess_stable. Qed.
#[local] Hint Resolve stable_exchangeSK stable_computeInitiatorAuth stable_handleAuthResponse : stable.
Lemma stable_eapLoop n m req : stable obs (eapLoop n m req).
Proof using HI. revert m req. induction n as [|n IH]; intros m req; cbn [eapLoop]; unfold eapRound; sess_stable. Qed.
End ignores.
#[export] Hint Resolve stable_IKESAInit stable_nextMessageID stable_exchangeSK stable_computeInitiatorAuth
  stable_handleAuthResponse stable_eapLoop : stable.
#[export] Hint Extern 1 (Ignores _) => typeclasses eauto : stable.

#[export] Instance outcome_ignores : Ignores outcome.
Proof. constructor; [apply _|done..]. Qed.

Section clean.
Context {P : Primitives} {W : World} {N : Network} {R : Radius} {X : X509}.

#[local] Hint Resolve stable_sess : stable.
Lemma stable_allocChildSPI : stable outcome allocChildSPI.
Proof. unfold allocChildSPI. sess_stable. Qed.
#[local] Hint Resolve stable_allocChildSPI : stable.

Lemma clean_selectChild props : clean (selectChild props).
Proof.
  apply clean_bind; [done|]. intros s. destruct props as [[|prop props]|]; [by apply clean_stable| |by apply clean_stable].
  destruct (selectedSuite _ _) as [suite|]; [|by apply clean_stable]. case_if; [by apply clean_stable|].
  apply clean_bind; [done|]. intros spi. apply clean_bind; [sess_stable|]. intros ike.
  apply clean_bind; [done|]. intros keys s' e He. done.
Qed.

Lemma clean_handleFinalAuthResponse ps secret : clean (handleFinalAuthResponse ps secret).
Proof.
  apply clean_bind; [done|]. intros a. destruct (aa_auth a) as [[method data]|]; [|by apply clean_stable].
  apply clean_bind; [sess_stable|]. intros []. apply clean_bind; [done|]. intros s. cbv zeta.
  case_if; [by apply clean_stable|]. apply clean_bind; [sess_stable|]. intros ike.
  case_if; [by apply clean_stable|]. apply clean_then; [apply clean_selectChild|]. intros _.
  apply noErr_bind; [|noerr]. destruct (aa_cp a); [|noerr]. apply noErr_bind; [|noerr].
  apply noErr_lift, cpAttrs_noErr.
Qed.

Ltac clean_steps :=
  repeat lazymatch goal with
    | |- clean (_ ≫= _) => apply clean_bind; [sess_stable|intros ?]
    | |- clean (let '(_, _) := ?x in _) => destruct x
    | |- clean (let _ := _ in _) => cbv zeta
    end.

Lemma clean_IKEAuth : clean IKEAuth.
Proof.
  apply clean_bind; [done|]. intros s. destruct (ikeSA s); [|by apply clean_stable]. case_if.
  - unfold ikeAuthPSK. clean_steps. destruct (firstNotifyError _); [by apply clean_stable|].
    apply clean_handleFinalAuthResponse.
  - unfold ikeAuthEAP. clean_steps. apply clean_handleFinalAuthResponse.
Qed.

Lemma clean_handshake : clean handshake.
Proof. apply clean_bind; [apply stable_IKESAInit, _|]. intros _. apply clean_IKEAuth. Qed.
End clean.

(** ** The number of datagrams *)

(** [m] sends at most [n] requests, each with its retransmissions. *)
Definition spends {E A} (n : nat) (m : ST Session E A) : Prop := ∀ s, safe (m s).2 →
  cfg (m s).1 = cfg s ∧
  (length (sent (m s).1) ≤ length (sent s) + n * Z.to_nat (retransmitTries (cfg s)))%nat.

Definition wire (s : Session) : Config * list bytes := (cfg s, sent s).

Lemma spends_quiet {E A} (m : ST Session E A) : stable wire m → spends 0 m.
Proof. intros Hm s Hs. specialize (Hm s Hs). injection Hm as -> ->. split; [done|lia]. Qed.
Lemma spends_bind {E A B} i j (m : ST Session E A) (k : A → ST Session E B) :
  spends i m → (∀ a, spends j (k a)) → spends (i + j) (m ≫= k).
Proof.
  intros Hm Hk s. unfold mbind, ST_bind. specialize (Hm s). destruct (m s) as [s' [a|e| |]]; cbn in *; [| |done..].
  - intros Hs. destruct (Hm Logic.I) as [Hc Hl]. destruct (Hk a s' Hs) as [Hc' Hl'].
    rewrite Hc in Hc', Hl'. split; [done|]. lia.
  - intros _. destruct (Hm Logic.I) as [Hc Hl]. split; [done|]. lia.
Qed.
Lemma spends_mono {E A} i j (m : ST Session E A) : spends i m → (i ≤ j)%nat → spends j m.
Proof. intros Hm Hij s Hs. destruct (Hm s Hs). split; [done|]. nia. Qed.
Lemma spends_quiet_bind {E A B} n (m : ST Session E A) (k : A → ST Session E B) :
  stable wire m → (∀ a, spends n (k a)) → spends n (m ≫= k).
Proof. intros Hm Hk. by apply (spends_bind 0 n); [apply spends_quiet|]. Qed.

Section bounded.
Context {P : Primitives} {W : World} {N : Network} {R : Radius} {X : X509}.

Lemma wire_tick : stable wire tick.
Proof. by intros s _. Qed.
#[local] Hint Resolve wire_tick : stable.
Lemma wire_now : stable wire now.
Proof. unfold now. stable. Qed.
Lemma wire_randBytes k : stable wire (randBytes k).
Proof. unfold randBytes. stable. Qed.
#[local] Hint Resolve wire_now wire_randBytes : stable.
Lemma wire_randUint64 : stable wire randUint64.
Proof. unfold randUint64. stable. Qed.
Lemma wire_NewDH g : stable wire (NewDH g).
Proof. unfold NewDH. stable. Qed.
Lemma wire_alloc ike : stable wire (alloc ike).
Proof. by intros s _. Qed.
Lemma wire_encodeSK e f i ps : stable wire (encodeSK e f i ps).
Proof. unfold encodeSK, encodeSKAt, curCtx, on_sa, current, load. stable. Qed.
Lemma wire_decodeIKE raw : stable wire (decodeIKE raw).
Proof. unfold decodeIKE, curCtx, current, load. stable. Qed.
Lemma wire_load : stable wire (p ← current; load p).
Proof. unfold current, load. stable. Qed.
Lemma wire_role : stable wire (p ← current; roleBit p).
Proof. unfold current, roleBit, load. stable. Qed.
Lemma wire_nextMessageID : stable wire nextMessageID.
Proof. by apply stable_modify. Qed.
#[local] Hint Resolve wire_randUint64 wire_NewDH wire_alloc wire_encodeSK wire_decodeIKE wire_load
  wire_role wire_nextMessageID stable_sess : stable.

Lemma sess_tick {B} (f : nat → HM B) s : (sess tick ≫= f) s = f (calls s) (set_calls (S (calls s)) s).
Proof. done. Qed.

Lemma exchange_loop_sends n raw id b s :
  safe (exchange_loop n raw id b s).2 →
  cfg (exchange_loop n raw id b s).1 = cfg s ∧
  (length (sent (exchange_loop n raw id b s).1) ≤ length (sent s) + n)%nat.
Proof.
  revert b s. induction n as [|n IH]; intros b s; cbn [exchange_loop].
  { intros _. split; [done|cbn; lia]. }
  rewrite st_mbind_run. assert (Hsend : ∀ s1 r, sess (sendDatagram raw) s = (s1, r) →
    cfg s1 = cfg s ∧ (length (sent s1) ≤ length (sent s) + 1)%nat).
  { unfold sess, wrapST, sendDatagram, tick. intros s1 r. st_step. destruct (w_send _); intros [= <- _];
      cbn [cfg sent set_sent set_calls]; (split; [done|]); [|lia]. rewrite length_app. cbn. lia. }
  destruct (sess (sendDatagram raw) s) as [s1 [[]|e| |]]; [| |done..];
    destruct (Hsend _ _ eq_refl) as [Hc Hl]; [|intros _; cbn; split; [done|lia]].
  rewrite sess_tick, st_get.
  destruct (recvMatching _ _ _) as [[rsp|]|e| |]; st_step; [| | |done..].
  - intros _. cbn. split; [done|lia].
  - destruct (w_ctxDone _); [intros _; cbn; split; [done|lia]|].
    intros Hs. destruct (IH _ _ Hs) as [Hc' Hl']. cbn in Hc', Hl' |- *. rewrite Hc'. split; [done|lia].
  - intros _. cbn. split; [done|lia].
Qed.

Lemma spends_exchange raw id : spends 1 (exchange raw id).
Proof.
  intros s. unfold exchange. rewrite st_get, Nat.mul_1_l. apply exchange_loop_sends.
Qed.

(** Step over what sends nothing. *)
Ltac quiet :=
  repeat lazymatch goal with
    | |- spends _ (_ ≫= _) => apply spends_quiet_bind; [solve [sess_stable]|intros ?]
    | |- spends _ (let '(_, _) := ?x in _) => destruct x
    | |- spends _ (let _ := _ in _) => cbv zeta
    | |- spends _ (if ?b then _ else _) => destruct b
    | |- spends _ (match ?x with _ => _ end) => destruct x
    | |- spends _ _ => apply (spends_mono 0); [apply spends_quiet; solve [sess_stable]|lia]
    end.

Lemma spends_sendSAInit cookie : spends 1 (sendSAInit cookie).
Proof. unfold sendSAInit. quiet. apply (spends_bind 1 0); [apply spends_exchange|]. intros. quiet. Qed.

Lemma wire_saInitPayloads ps a : stable wire (saInitPayloads ps a).
Proof. revert a. induction ps as [|p ps IH]; intros a; cbn [saInitPayloads]; [done|]. destruct p; sess_stable. Qed.
#[local] Hint Resolve wire_saInitPayloads : stable.
Lemma wire_handleSAInitResponse raw : stable wire (handleSAInitResponse raw).
Proof. unfold handleSAInitResponse. sess_stable. Qed.
#[local] Hint Resolve wire_handleSAInitResponse : stable.

Lemma spends_retryInvalidKE g cookie : spends 2 (retryInvalidKE g cookie).
Proof.
  unfold retryInvalidKE. quiet. apply (spends_bind 1 1); [apply spends_sendSAInit|]. intros rsp. quiet.
  apply (spends_bind 1 0); [apply spends_sendSAInit|]. intros. quiet.
Qed.

Lemma spends_IKESAInit : spends 4 IKESAInit.
Proof.
  unfold IKESAInit. quiet. apply (spends_bind 1 3); [apply spends_sendSAInit|]. intros rsp.
  apply spends_quiet_bind; [sess_stable|]. intros c. apply (spends_bind 1 2).
  { quiet. apply (spends_bind 1 0); [apply spends_sendSAInit|]. intros. quiet. }
  intros [cookie rsp']. apply spends_quiet_bind; [sess_stable|]. intros ke. apply (spends_bind 2 0).
  { quiet. apply spends_retryInvalidKE. }
  intros _. unfold migrateNATT. quiet.
Qed.

Lemma spends_exchangeSK ex id inner : spends 1 (exchangeSK ex id inner).
Proof. unfold exchangeSK. quiet. apply (spends_bind 1 0); [apply spends_exchange|]. intros. quiet. Qed.

Lemma spends_eapLoop n m req : spends n (eapLoop n m req).
Proof.
  revert m req. induction n as [|n IH]; intros m req; cbn [eapLoop]; [quiet|]. quiet.
  apply (spends_bind 1 n); [|intros [m' next]; apply IH]. unfold eapRound. quiet.
  apply (spends_bind 1 0); [apply spends_exchangeSK|]. intros ps. quiet.
Qed.

Lemma wire_handleFinalAuthResponse ps secret : stable wire (handleFinalAuthResponse ps secret).
Proof. unfold handleFinalAuthResponse, selectChild. sess_stable. Qed.
Lemma wire_handleAuthResponse ps : stable wire (handleAuthResponse ps).
Proof. unfold handleAuthResponse. sess_stable. Qed.
Lemma wire_allocChildSPI : stable wire allocChildSPI.
Proof. unfold allocChildSPI. sess_stable. Qed.
Lemma wire_computeInitiatorAuth secret : stable wire (computeInitiatorAuth secret).
Proof. unfold computeInitiatorAuth. sess_stable. Qed.
#[local] Hint Resolve wire_handleFinalAuthResponse wire_handleAuthResponse wire_allocChildSPI
  wire_computeInitiatorAuth : stable.

Lemma spends_IKEAuth : spends (maxEAPRounds + 2) IKEAuth.
Proof.
  unfold IKEAuth. quiet.
  - apply (spends_mono 1); [|unfold maxEAPRounds; lia]. unfold ikeAuthPSK. quiet.
    apply (spends_bind 1 0); [apply spends_exchangeSK|]. intros. quiet.
  - unfold ikeAuthEAP. quiet. replace (maxEAPRounds + 2)%nat with (1 + (maxEAPRounds + 1))%nat by lia.
    apply (spends_bind 1); [apply spends_exchangeSK|]. intros ps.
    repeat (apply spends_quiet_bind; [solve [sess_stable]|intros ?]).
    apply spends_bind; [apply spends_eapLoop|]. intros m. quiet.
    apply (spends_bind 1 0); [apply spends_exchangeSK|]. intros. quiet.
Qed.
End bounded.

(** ** The theorems *)

(** The configured identity of the responder replaced. *)
Definition with_RemoteID (r : WireID) (c : Config) : Config :=
  {| LocalID := LocalID c; RemoteID := r; EAPUser := EAPUser c; EAPPass := EAPPass c; PSK := PSK c;
     DPDTimeout := DPDTimeout c; RekeyLifetime := RekeyLifetime c; IKERekeyLifetime := IKERekeyLifetime c;
     RekeyMaxPackets := RekeyMaxPackets c; ChildSAPFS := ChildSAPFS c; ESPSuites := ESPSuites c;
     IKESuites := IKESuites c; RequestIPv6 := RequestIPv6 c; RetransmitBase := RetransmitBase c;
     RetransmitMax := RetransmitMax c; RetransmitTries := RetransmitTries c |}.
Definition set_RemoteID (r : WireID) (s : Session) : Session :=
  ltac:(with_field s cfg (with_RemoteID r (cfg s))).

#[export] Instance set_RemoteID_blind r : Blind (set_RemoteID r).
Proof. by constructor. Qed.

Section commuting.
Context {P : Primitives} {W : World} {N : Network} {R : Radius} {X : X509} (r : WireID).

Lemma commutes_exchange raw id : commutes (set_RemoteID r) (exchange raw id).
Proof.
  apply commutes_get; [done|]. intros s. generalize (retransmitBase (cfg s)).
  induction (Z.to_nat _) as [|n IH]; intros b; cbn [exchange_loop]; [done|]. commutes.
Qed.
#[local] Hint Resolve commutes_exchange : commutes.
Lemma commutes_exchangeSK ex id inner : commutes (set_RemoteID r) (exchangeSK ex id inner).
Proof. unfold exchangeSK. commutes. Qed.
#[local] Hint Resolve commutes_exchangeSK : commutes.
Lemma commutes_handleFinalAuthResponse ps secret :
  commutes (set_RemoteID r) (handleFinalAuthResponse ps secret).
Proof. unfold handleFinalAuthResponse, selectChild. commutes. Qed.
#[local] Hint Resolve commutes_handleFinalAuthResponse : commutes.
Lemma commutes_ikeAuthPSK : commutes (set_RemoteID r) ikeAuthPSK.
Proof. unfold ikeAuthPSK, allocChildSPI, computeInitiatorAuth. commutes. Qed.
End commuting.

Section theorems.
Context {P : Primitives} {HL : PrimitiveLaws P} {W : World} {HW : WorldLaws W}.
Context {N : Network} {HN : NetworkLaws N} {R : Radius} {X : X509}.

Lemma IKESAInit_keyed c s : IKESAInit (New c) = (s, Ok tt) → keyed c s ∧ messageID s = 1.
Proof using HL HW HN. intros H. eapply (triple_run _ _ _ _ _ _ (triple_IKESAInit c)); [|exact H]. done. Qed.

Lemma IKEAuth_outcome c s1 s :
  keyed c s1 → messageID s1 = 1 → IKEAuth s1 = (s, Ok tt) →
  ∃ ike, sas s1 = [ike] ∧ authing s1 s ∧ authenticated s1 ike c s.
Proof using HL HW HN.
  intros Hk Hm Hr. pose proof (keyed_authing c s1 Hk Hm) as Hau.
  destruct Hk as [<- _ _ (ike & Hsas & Hcur & _) Ho _]. exists ike. split; [done|].
  eapply (triple_run _ _ _ _ _ _ (triple_IKEAuth s1 0 ike Hcur ltac:(by rewrite Hsas) Ho)); [exact Hau|exact Hr].
Qed.

Lemma handshake_triple c : triple (λ s, s = New c) handshake (λ _ s, session_ok (SetDataPlane s)).
Proof using HL HW HN.
  unfold handshake. eapply triple_bind; [eapply triple_pre; [apply (triple_IKESAInit c)|]; by intros s ->|].
  intros [] s1 [Hk Hm]. pose proof (keyed_authing c s1 Hk Hm) as Hau.
  destruct Hk as [_ _ _ (ike & Hsas & Hcur & _) Ho _].
  pose proof (triple_IKEAuth s1 0 ike Hcur ltac:(by rewrite Hsas) Ho s1 Hau) as H.
  destruct (IKEAuth s1) as [s [[]|e| |]]; try done. destruct H as [[[? _] _] _]. done.
Qed.

(** C9. From the first datagram to the last the client neither panics nor diverges: for
    every network, clock and random source, the handshake returns a value or an error,
    and when it succeeds the driver, started on the session it leaves with the data
    plane attached, processes any sequence of datagrams, ticks and cancellation and
    ends in a well-formed session. *)
Theorem lifetime_safe c es :
  Forall event_ok es →
  safe (handshake (New c)).2 ∧
  ∀ s, handshake (New c) = (s, Ok tt) →
    ∃ s' b, Driver es (SetDataPlane s) = (s', Ok b) ∧ session_ok s'.
Proof using HL HW HN.
  intros Hes. split; [by apply (triple_safe _ _ _ _ (handshake_triple c))|]. intros s Hr.
  pose proof (triple_run _ _ _ _ _ _ (handshake_triple c) eq_refl Hr) as H.
  destruct (Driver_runs (SetDataPlane s) es H Hes) as (s' & b & ? & ? & _). eauto.
Qed.

(** C16. What IKE_SA_INIT derives its keys from.  When it succeeds, the recorded response
    is a well-formed IKE_SA_INIT response with message ID 0 and our SPI, and the
    responder SPI is the non-zero one it carries; the recorded request is the encoding
    of our proposals, our key share and our nonce, and was sent; the single IKE SA of
    the session is the one derived from the KE and nonce payloads of exactly that
    response, for a suite of ours that the response selects unambiguously and for the
    group our key share belongs to, one of the two we offer. *)
Theorem sa_init_binds c s : IKESAInit (New c) = (s, Ok tt) → bound c s ∧ messageID s = 1.
Proof using HL HW HN. intros [[] ?]%IKESAInit_keyed. done. Qed.

(** C1. An established session has authenticated its peer.  If the handshake succeeds,
    then a message authentic under the IKE SA of the IKE_SA_INIT exchange carried an
    AUTH payload equal to the shared-secret MIC over the response of that exchange as it
    was received, our nonce and the peer's identity.  The secret is the configured
    pre-shared key; without one it is the MSK of an EAP-MSCHAPv2 conversation in which
    the server proved knowledge of the password, and the peer has moreover signed the
    same octets with the key of a certificate whose chain is trusted and which carries
    the configured RemoteID.  The Child SA is of a suite of ours that this message
    selects, keyed from the IKE SA and the two nonces. *)
Theorem handshake_authenticates c s1 s :
  IKESAInit (New c) = (s1, Ok tt) → IKEAuth s1 = (s, Ok tt) →
  ∃ ike, sas s1 = [ike] ∧ authenticated s1 ike c s.
Proof using HL HW HN.
  intros [Hk Hm]%IKESAInit_keyed Hr. destruct (IKEAuth_outcome c s1 s Hk Hm Hr) as (ike & ? & _ & ?). eauto.
Qed.

(** A handshake that fails leaves nothing behind: whatever the error and wherever it
    arises, the session is not established, has no Child SA and no assigned addresses,
    and nothing was installed in the data plane. *)
Theorem failed_handshake_clean c s e :
  handshake (New c) = (s, Err e) →
  established s = false ∧ child s = None ∧ assigned s = noAssigned ∧ installed s = [].
Proof using Type.
  intros H. pose proof (clean_handshake (New c) e) as Hc. rewrite H in Hc. specialize (Hc eq_refl).
  by injection Hc.
Qed.

Lemma handshake_returns c : safe (handshake (New c)).2.
Proof using HL HW HN. exact (triple_safe _ _ _ _ (handshake_triple c) eq_refl). Qed.

(** C21. The handshake returns (a session or an error, never a panic) after a bounded
    number of datagrams, whatever the peer does: at most four requests in IKE_SA_INIT (the first, the cookie, the other group, its
    cookie) and maxEAPRounds + 2 in IKE_AUTH, each sent at most retransmitTries
    times. *)
Theorem handshake_bounded c :
  safe (handshake (New c)).2 ∧
  (length (sent (handshake (New c)).1) ≤ (maxEAPRounds + 6) * Z.to_nat (retransmitTries c))%nat.
Proof using HL HW HN.
  pose proof (handshake_returns c) as Hs. split; [exact Hs|].
  assert (H : spends (4 + (maxEAPRounds + 2)) handshake).
  { apply spends_bind; [apply spends_IKESAInit|]. intros _. apply spends_IKEAuth. }
  destruct (H _ Hs) as [_ Hl]. cbn [New cfg sent length] in Hl. lia.
Qed.

(** With a pre-shared key the configured RemoteID plays no role in IKE_AUTH: replacing
    it by any other gives the same datagrams, the same verdict and the same session. *)
Theorem psk_ignores_remote_id r s :
  len (PSK (cfg s)) > 0 →
  IKEAuth (set_RemoteID r s) = (set_RemoteID r (IKEAuth s).1, (IKEAuth s).2).
Proof using Type.
  intros Hp. unfold IKEAuth. rewrite !st_get. cbn [cfg set_RemoteID with_RemoteID PSK ikeSA].
  destruct (ikeSA s); [|done]. replace (len (PSK (cfg s)) >? 0) with true by lia. apply commutes_ikeAuthPSK.
Qed.
End theorems.

(** ** Witnesses *)

Section witnesses.
Local Existing Instances toy_primitives toy_laws toy_radius toy_x509.

Abbreviation psk_run := (handshake (N:=psk_net) (New psk_cfg)).
Abbreviation eap_init := (IKESAInit (N:=eap_net) (New eap_cfg)).
Abbreviation eap_run := (IKEAuth (N:=eap_net) eap_init.1).
(** A responder that does not know the pre-shared key. *)
Abbreviation bad_run := (handshake (N:=eap_net) (New psk_cfg)).

Lemma run_of {A} (x : Session * Res hs_error A) a : x.2 = Ok a → x = (x.1, Ok a).
Proof. destruct x as [s r]. by intros [= ->]. Qed.

Lemma psk_established : psk_run.2 = Ok tt.
Proof. vm_compute. reflexivity. Qed.
Lemma eap_keyed : eap_init = (eap_init.1, Ok tt).
Proof. apply run_of. vm_compute. reflexivity. Qed.
Lemma eap_established : eap_run = (eap_run.1, Ok tt).
Proof. apply run_of. vm_compute. reflexivity. Qed.

Definition demo_events : list event := [EvTick; EvInbound [1]].
Lemma demo_events_ok : Forall event_ok demo_events.
Proof. constructor; [done|]. constructor; [|done]. apply demo_bytes_ok. reflexivity. Qed.

Lemma lifetime_safe_witness :
  ∃ s' b, Driver demo_events (SetDataPlane psk_run.1) = (s', Ok b) ∧ session_ok s'.
Proof.
  apply (lifetime_safe (N:=psk_net) (HN:=psk_net_laws) psk_cfg demo_events demo_events_ok).
  apply run_of, psk_established.
Defined.

Lemma sa_init_binds_witness : bound (N:=eap_net) eap_cfg eap_init.1 ∧ messageID eap_init.1 = 1.
Proof. exact (sa_init_binds (N:=eap_net) (HN:=eap_net_laws) eap_cfg _ eap_keyed). Defined.

Lemma handshake_authenticates_witness :
  ∃ ike, sas eap_init.1 = [ike] ∧ authenticated eap_init.1 ike eap_cfg eap_run.1.
Proof.
  exact (handshake_authenticates (N:=eap_net) (HN:=eap_net_laws) eap_cfg _ _ eap_keyed eap_established).
Defined.

Lemma handshake_bounded_witness :
  safe bad_run.2 ∧ (length (sent bad_run.1) ≤ (maxEAPRounds + 6) * Z.to_nat (retransmitTries psk_cfg))%nat.
Proof. exact (handshake_bounded (N:=eap_net) (HN:=eap_net_laws) psk_cfg). Defined.

Lemma failed_handshake_clean_witness : ∃ e, bad_run.2 = Err e ∧ established bad_run.1 = false.
Proof.
  destruct bad_run as [s [[]|e| |]] eqn:H; [exfalso|..|exfalso|exfalso].
  - assert (H' : bad_run.2 = Ok tt) by (by rewrite H). vm_compute in H'. done.
  - exists e. split; [done|]. by apply (failed_handshake_clean (N:=eap_net) psk_cfg s e).
  - assert (H' : bad_run.2 = Panic) by (by rewrite H). vm_compute in H'. done.
  - assert (H' : bad_run.2 = Hang) by (by rewrite H). vm_compute in H'. done.
Defined.

(** The responder of [psk_net] does not carry the name the client was configured with,
    and is accepted. *)
Definition psk_keyed : Session := (IKESAInit (N:=psk_net) (New psk_cfg)).1.
Definition psk_other : WireID := {| id_Type := IDTypeFQDN; id_Data := [120] |}.

Lemma psk_ignores_remote_id_witness :
  len (PSK (cfg psk_keyed)) > 0 ∧
  IKEAuth (N:=psk_net) (set_RemoteID psk_other psk_keyed) =
    (set_RemoteID psk_other (IKEAuth (N:=psk_net) psk_keyed).1, (IKEAuth (N:=psk_net) psk_keyed).2) ∧
  established psk_run.1 = true ∧ RemoteID (cfg psk_run.1) ≠ remoteIDr psk_run.1.
Proof.
  assert (Hp : len (PSK (cfg psk_keyed)) > 0) by (vm_compute; reflexivity).
  split; [exact Hp|]. split; [exact (psk_ignores_remote_id (N:=psk_net) psk_other psk_keyed Hp)|].
  split; vm_compute; done.
Defined.
End witnesses.
