(* ===== verification/Cutover.v ===== *)
(** * The data plane under concurrency

    The goroutines of one client as a step relation: the IKE driver installing
    rekeyed Child SAs one critical section at a time, fired grace timers, the
    demultiplexer, writers, the supervisor replacing a dead session, and the clock.  The
    invariant ties the registry, the outbound SA and the timers to the line of Child
    SAs the session negotiates. *)

From stdpp Require Import gmap relations.
From S2P Require Import Prelude Replay Crypto Esp IkeSA Suite Natt Session Rekey Driver Invariant.
From S2P Require Import DriverProps Lineage SaInit Config DataPlane Client.

(** ** What stays of an SA while it is used *)

(** The SA without its counter and its replay window. *)
Definition static (sa : SA) : SA := with_seq (with_replay sa (NewReplayWindow 64)) 0.

Lemma static_seq sa v : static (with_seq sa v) = static sa.
Proof. done. Qed.
Lemma static_replay sa w : static (with_replay sa w) = static sa.
Proof. done. Qed.
Lemma static_inSPI sa sb : static sa = static sb → inSPI sa = inSPI sb.
Proof. by intros [=]. Qed.

(** The part of the client that the cutover is about. *)
Record view := {
  v_out : nat;
  v_reg : gmap Z nat;
  v_sas : list SA;
  v_armed : gmap nat (Z * option nat);
  v_due : gmap nat Z;
  v_now : Z;
  v_timers : list nat;
  v_next : nat;
  v_session : option Session;
}.

Definition view_of (c : Client) : option view :=
  t ← cl_tun c; m ← cl_inbound c;
  Some {| v_out := tn_sa t; v_reg := m; v_sas := static <$> cl_esp c; v_armed := snd <$> cl_armed c;
          v_due := fst <$> cl_armed c; v_now := cl_now c; v_timers := cl_graceTimers c;
          v_next := cl_nextTimer c; v_session := cl_session c |}.

(** The client shows [v], and its SAs are well formed. *)
Record shows (v : view) (c : Client) : Prop := {
  sh_view : view_of c = Some v;
  sh_sas : Forall sa_ok (cl_esp c);
  sh_window : is_u32 (cl_ReplayWindow c);
}.

Lemma view_of_inv v c :
  view_of c = Some v → ∃ t m, cl_tun c = Some t ∧ cl_inbound c = Some m ∧
    v = {| v_out := tn_sa t; v_reg := m; v_sas := static <$> cl_esp c; v_armed := snd <$> cl_armed c;
           v_due := fst <$> cl_armed c; v_now := cl_now c; v_timers := cl_graceTimers c;
           v_next := cl_nextTimer c; v_session := cl_session c |}.
Proof.
  unfold view_of. destruct (cl_tun c) as [t|]; [|done]. destruct (cl_inbound c) as [m|]; [|done].
  cbn. intros [= <-]. eauto.
Qed.

Lemma static_insert (l : list SA) (p : nat) sa sa' :
  l !! p = Some sa → static sa' = static sa → static <$> <[p:=sa']> l = static <$> l.
Proof.
  intros Hp Hs. rewrite list_fmap_insert, Hs. apply list_insert_id. by rewrite list_lookup_fmap, Hp.
Qed.

Section views.
Context `{HL : PrimitiveLaws}.

(** ** Operations that do not change the view *)

Lemma hoare_theTunnel v : hoare (shows v) theTunnel (λ t, tn_sa t = v_out v).
Proof.
  intros c [Hv Hok Hw]. unfold theTunnel. rewrite st_get. destruct (view_of_inv _ _ Hv) as (t & m & Ht & _ & ->).
  rewrite Ht. by split.
Qed.

(** Write to a field the view does not show. *)
Lemma hoare_quiet v (f : Client → Client) :
  (∀ c, view_of (f c) = view_of c ∧ cl_esp (f c) = cl_esp c ∧ cl_ReplayWindow (f c) = cl_ReplayWindow c) →
  hoare (shows v) (modifyS f : CM unit) (λ _, True).
Proof.
  intros Hf. apply hoare_modify. intros c [Hv Hok Hw]. destruct (Hf c) as (H1 & H2 & H3).
  split; congruence.
Qed.

(** A change of the tunnel other than its SA. *)
Lemma hoare_set_tun v t :
  tn_sa t = v_out v → hoare (shows v) (modifyS (set_tun (Some t)) : CM unit) (λ _, True).
Proof.
  intros Ht. apply hoare_modify.
  intros c [Hv Hok Hw]. split; [|done..]. destruct (view_of_inv _ _ Hv) as (t' & m & _ & Hm & ->).
  unfold view_of. cbn. rewrite Hm. cbn. by rewrite Ht.
Qed.

Lemma hoare_on_esp {A} v p (m : ST SA esp_error A) sa0 Q :
  v_sas v !! p = Some sa0 →
  (∀ sa, sa_ok sa → static (m sa).1 = static sa ∧ sa_ok (m sa).1 ∧ yields Q (m sa).2) →
  hoare (shows v) (on_esp p m) Q.
Proof.
  intros Hp Hm c [Hv Hok]. unfold on_esp. rewrite st_get.
  destruct (view_of_inv _ _ Hv) as (t & reg & Ht & Hi & Hveq). rewrite Hveq in Hp. cbn in Hp.
  rewrite list_lookup_fmap in Hp. destruct (cl_esp c !! p) as [sa|] eqn:Hsa; [|done].
  destruct (Hm sa) as (H1 & H2 & H3); [by eapply Forall_lookup_1|]. st_step.
  destruct (m sa) as [sa' r]. st_step. cbn in *. split; [|by apply wrap_err_yields]. split.
  - rewrite Hveq. unfold view_of. cbn. rewrite Ht, Hi. cbn. by erewrite static_insert.
  - by apply Forall_insert.
  - done.
Qed.

Lemma hoare_sendESP v ok pkt : hoare (shows v) (sendESP ok pkt) (λ _, True).
Proof.
  eapply hoare_bind; [apply hoare_get|]. intros c _. destruct (cl_session c); [|apply hoare_throw].
  destruct ok; [by apply hoare_quiet|apply hoare_throw].
Qed.

Lemma hoare_Write v sa0 p iv ok closing :
  v_sas v !! v_out v = Some sa0 → hoare (shows v) (Write p iv ok closing) (λ n, n = len p).
Proof.
  intros Hout. eapply hoare_bind; [apply hoare_theTunnel|]. intros t Ht.
  destruct (tn_closed t); [apply hoare_throw|]. rewrite Ht. eapply hoare_bind.
  { apply (hoare_on_esp v _ _ sa0 (λ _, True)); [done|]. intros sa Hsa.
    destruct (Encrypt_post sa p iv Hsa) as (Hs & w & -> & Hw). split_and!; [done|done|].
    by destruct (Encrypt p iv sa).2. }
  intros pkt _. eapply hoare_bind; [apply hoare_attempt, hoare_sendESP|]. intros [e|[]] _.
  - destruct closing; apply hoare_throw.
  - by apply hoare_ret.
Qed.

Lemma hoare_DeliverInbound v ip : hoare (shows v) (DeliverInbound ip) (λ _, True).
Proof.
  eapply hoare_bind; [apply hoare_theTunnel|]. intros t Ht. destruct (tn_inbound t); [|by apply hoare_ret].
  by apply hoare_quiet.
Qed.

(** Every registered SA is in the store, under its own SPI. *)
Definition registered (v : view) : Prop :=
  ∀ spi p, v_reg v !! spi = Some p → ∃ sa, v_sas v !! p = Some sa ∧ inSPI sa = spi.

Lemma hoare_lookupInbound v spi :
  hoare (shows v) (lookupInbound spi) (λ o, o = v_reg v !! spi).
Proof.
  intros c [Hv Hok Hw]. unfold lookupInbound. rewrite st_get. destruct (view_of_inv _ _ Hv) as (t & m & _ & -> & ->).
  by split.
Qed.

Lemma hoare_rxDatagram v nowNano raw :
  registered v → bytes_ok raw → hoare (shows v) (rxDatagram nowNano raw) (λ _, True).
Proof.
  intros Hreg Hb. unfold rxDatagram.
  eapply hoare_bind; [apply hoare_lift, (Classify_yields raw Hb)|]. intros [kind payload] Hp.
  destruct kind; try by apply hoare_ret.
  - eapply hoare_bind; [apply hoare_get|]. intros c Hc. destruct (_ <? _); [|by apply hoare_ret].
    apply hoare_put; by destruct Hc.
  - destruct (len payload <? 4) eqn:Hl; [by apply hoare_quiet|]. bool_prop.
    rewrite slice_ok by lia. eapply hoare_bind with (Q := λ b, bytes_ok b ∧ len b = 4).
    { apply hoare_lift. cbn. split; [auto with go|len_lia]. }
    intros sb [Hsb Hsl]. eapply hoare_bind; [apply hoare_lift, Uint32_yields; [done|lia]|]. intros spi _.
    eapply hoare_bind; [apply hoare_lookupInbound|]. intros [p|] Hlook; [|by apply hoare_quiet].
    destruct (Hreg spi p) as (sa0 & Hsa0 & _); [done|].
    eapply hoare_bind.
    { apply hoare_attempt, (hoare_on_esp v p _ sa0 bytes_ok); [done|]. intros sa Hsa.
      pose proof (Decrypt_post sa payload Hsa Hp) as Hd. unfold wp in Hd.
      destruct (Decrypt payload sa) as [sa' r]. destruct Hd as (H1 & H2 & H3 & _). cbn [fst snd].
      split_and!; [cbn in H3; by rewrite H3|done|done]. }
    intros [e|inner] _; [by apply hoare_quiet|].
    eapply hoare_bind; [by apply hoare_quiet|]. intros _ _. apply hoare_DeliverInbound.
Qed.
End views.

(** ** Operations on the view *)

Definition v_with_out (p : nat) (v : view) : view :=
  {| v_out := p; v_reg := v_reg v; v_sas := v_sas v; v_armed := v_armed v; v_due := v_due v;
     v_now := v_now v; v_timers := v_timers v; v_next := v_next v; v_session := v_session v |}.
Definition v_with_reg (m : gmap Z nat) (v : view) : view :=
  {| v_out := v_out v; v_reg := m; v_sas := v_sas v; v_armed := v_armed v; v_due := v_due v;
     v_now := v_now v; v_timers := v_timers v; v_next := v_next v; v_session := v_session v |}.
Definition v_with_sas (l : list SA) (v : view) : view :=
  {| v_out := v_out v; v_reg := v_reg v; v_sas := l; v_armed := v_armed v; v_due := v_due v;
     v_now := v_now v; v_timers := v_timers v; v_next := v_next v; v_session := v_session v |}.
Definition v_with_now (n : Z) (v : view) : view :=
  {| v_out := v_out v; v_reg := v_reg v; v_sas := v_sas v; v_armed := v_armed v; v_due := v_due v;
     v_now := n; v_timers := v_timers v; v_next := v_next v; v_session := v_session v |}.
Definition v_with_session (s : option Session) (v : view) : view :=
  {| v_out := v_out v; v_reg := v_reg v; v_sas := v_sas v; v_armed := v_armed v; v_due := v_due v;
     v_now := v_now v; v_timers := v_timers v; v_next := v_next v; v_session := s |}.
Definition v_with_timers (armed : gmap nat (Z * option nat)) (due : gmap nat Z) (ts : list nat) (next : nat) (v : view) : view :=
  {| v_out := v_out v; v_reg := v_reg v; v_sas := v_sas v; v_armed := armed; v_due := due;
     v_now := v_now v; v_timers := ts; v_next := next; v_session := v_session v |}.

(** [m] succeeds from any client that shows [v], with [a], and then shows [v']. *)
Definition takes {A} (m : CM A) (v : view) (a : A) (v' : view) : Prop :=
  ∀ c, shows v c → ∃ c', m c = (c', Ok a) ∧ shows v' c'.

Lemma takes_bind {A B} (m : CM A) (f : A → CM B) v a v' b v'' :
  takes m v a v' → takes (f a) v' b v'' → takes (m ≫= f) v b v''.
Proof.
  intros Hm Hf c Hc. destruct (Hm c Hc) as (c1 & H1 & Hc1). destruct (Hf c1 Hc1) as (c2 & H2 & Hc2).
  exists c2. split; [|done]. unfold mbind, ST_bind. by rewrite H1.
Qed.

(** The view of a client whose shown fields are rewritten. *)
Ltac take_view :=
  intros c [Hv Hok Hwin]; destruct (view_of_inv _ _ Hv) as (t & m & Ht & Hm & ->);
  cbn [v_out v_reg v_sas v_armed v_due v_now v_timers v_next v_session].

(** The rewritten client shows the rewritten view. *)
Ltac show_view :=
  split;
    [unfold view_of; cbn;
     repeat match goal with H : cl_tun _ = Some _ |- _ => rewrite H | H : cl_inbound _ = Some _ |- _ => rewrite H end;
     cbn; try done
    |try done..].

(** The listed timers are stopped and forgotten. *)
Abbreviation v_stopped v :=
  (v_with_timers (foldr delete (v_armed v) (v_timers v)) (foldr delete (v_due v) (v_timers v)) [] (v_next v) v).

Section takes.
Context `{HL : PrimitiveLaws}.

Lemma takes_alloc_esp v sa :
  sa_ok sa → takes (alloc_esp sa) v (length (v_sas v)) (v_with_sas (v_sas v ++ [static sa]) v).
Proof.
  intros Hsa. take_view. eexists. unfold alloc_esp. rewrite length_fmap. split; [reflexivity|]. show_view.
  - by rewrite fmap_app.
  - apply Forall_app. auto.
Qed.

(** Key material that fits always builds an SA, whatever the replay window. *)
Lemma newSA_fits s o i oe oi ie ii w :
  is_u32 o → is_u32 i → is_u32 w → bytes_ok oe → bytes_ok oi → bytes_ok ie → bytes_ok ii →
  keys_fit s oe oi ie ii = true →
  ∃ sa, newSA s o i oe oi ie ii w = Ok sa ∧ sa_ok sa ∧ inSPI sa = i ∧ outSPI sa = o ∧ seq sa = 0 ∧
        represents (replay sa) Spec.init.
Proof.
  intros Ho Hi Hw H1 H2 H3 H4 Hfit. pose proof (newSA_checks s o i oe oi ie ii w Ho Hi Hw H1 H2 H3 H4) as H.
  destruct (newSA s o i oe oi ie ii w) as [sa|e| |] eqn:Hsa; [|congruence|done..].
  destruct H as (_ & Hok & Hseq & HoS & HiS & Hrep). by exists sa.
Qed.

(** The replay window is the only thing the configured size goes into. *)
Lemma newSA_static s o i oe oi ie ii w w' sa :
  newSA s o i oe oi ie ii w = Ok sa → ∃ sa', newSA s o i oe oi ie ii w' = Ok sa' ∧ static sa' = static sa.
Proof.
  unfold newSA. destruct (s =? Esp.SuiteAESCBC256SHA256); [|destruct (_ || _); [|intros [=]]].
  all: intros H; go_inv; subst sa; eexists;
    repeat match goal with H : _ = Ok _ |- _ => rewrite H; clear H; go_step end; done.
Qed.

Lemma takes_SwapSA v p : takes (SwapSA p) v tt (v_with_out p v).
Proof.
  take_view. eexists. unfold SwapSA, theTunnel. st_step. rewrite Ht. st_step. split; [reflexivity|]. show_view.
Qed.

Lemma takes_addInbound v u p :
  takes (addInbound u p) v (v_reg v !! OldInSPI u) (v_with_reg (<[NewInSPI u := p]> (v_reg v)) v).
Proof.
  take_view. eexists. unfold addInbound. st_step. rewrite Hm. st_step. split; [reflexivity|]. show_view.
Qed.

Lemma takes_fireRekey v : takes fireRekey v tt v.
Proof. take_view. eexists. split; [reflexivity|]. show_view. Qed.

Lemma takes_removeInbound v spi want :
  takes (removeInbound spi want) v tt
    (v_with_reg (if bool_decide (v_reg v !! spi = want ∧ want ≠ None) then delete spi (v_reg v) else v_reg v) v).
Proof.
  take_view. unfold removeInbound. st_step. rewrite Hm. st_step.
  destruct (m !! spi) as [cur|] eqn:Hcur.
  - destruct (bool_decide (Some cur = want)) eqn:Hw; cbn [negb].
    + apply bool_decide_eq_true in Hw. subst want. rewrite bool_decide_eq_true_2 by done.
      eexists. split; [reflexivity|]. show_view.
    + apply bool_decide_eq_false in Hw. rewrite bool_decide_eq_false_2 by (intros [? ?]; done).
      eexists. split; [reflexivity|]. show_view.
  - rewrite bool_decide_eq_false_2 by (intros [? ?]; congruence). eexists. split; [reflexivity|]. show_view.
Qed.

Lemma takes_pruneTimer v t :
  takes (pruneTimer t) v tt (v_with_timers (v_armed v) (v_due v) (filter (λ x, x ≠ t) (v_timers v)) (v_next v) v).
Proof.
  intros c [Hv Hok Hwin]; destruct (view_of_inv _ _ Hv) as (tn & m & Ht & Hm & ->).
  eexists. split; [reflexivity|]. show_view.
Qed.

Lemma fmap_foldr_delete {A B} (f : A → B) (m : gmap nat A) l : f <$> foldr delete m l = foldr delete (f <$> m) l.
Proof. induction l as [|x l IH]; cbn [foldr]; [done|]. by rewrite fmap_delete, IH. Qed.

Lemma takes_stopGraceTimers v : takes stopGraceTimers v tt (v_stopped v).
Proof. take_view. eexists. split; [reflexivity|]. show_view. by rewrite !fmap_foldr_delete. Qed.

Lemma takes_closeSession v : takes closeSession v tt (v_with_session (Session_Close <$> v_session v) v).
Proof. take_view. eexists. split; [reflexivity|]. show_view. Qed.

(** The dead generation goes. *)
Lemma takes_stop v :
  takes (_ ← closeSession; stopGraceTimers) v tt
    (v_stopped (v_with_session (Session_Close <$> v_session v) v)).
Proof.
  eapply takes_bind; [apply takes_closeSession|].
  apply (takes_stopGraceTimers (v_with_session (Session_Close <$> v_session v) v)).
Qed.

Lemma takes_retireOld v u sup :
  takes (retireOld u sup) v tt
    (if negb (OldInSPI u =? 0) && negb (OldInSPI u =? NewInSPI u)
     then v_with_timers (<[v_next v := (OldInSPI u, sup)]> (v_armed v))
            (<[v_next v := v_now v + childSAGrace]> (v_due v)) (v_timers v ++ [v_next v]) (S (v_next v)) v
     else v).
Proof.
  take_view. unfold retireOld, scheduleInboundRemoval. destruct (_ && _).
  - eexists. st_step. split; [reflexivity|]. show_view. by rewrite !fmap_insert.
  - eexists. split; [reflexivity|]. show_view.
Qed.

Lemma takes_resetInbound v spi p : takes (resetInbound spi p) v tt (v_with_reg {[spi := p]} v).
Proof. take_view. eexists. split; [reflexivity|]. show_view. Qed.

Lemma takes_Reconfigure v p tc : takes (Reconfigure p tc) v tt (v_with_out p v).
Proof.
  eapply takes_bind; [apply takes_SwapSA|]. take_view. unfold theTunnel. st_step. rewrite Ht. st_step.
  eexists. split; [reflexivity|]. show_view.
Qed.
End takes.

(** ** The goroutines *)

(** Where the driver is inside InstallChildSA. *)
Inductive driver_pc :=
| DIdle
| DBuilt (u : ChildSAUpdate) (p : nat)
| DAdded (u : ChildSAUpdate) (p : nat) (superseded : option nat)
| DSwapped (u : ChildSAUpdate) (superseded : option nat).

(** A grace timer whose function is running: before and after its critical section. *)
Inductive timer_pc :=
| TRemove (t : nat) (spi : Z) (sa : option nat)
| TPrune (t : nat).

(** Where the supervisor is: waiting; a death signalled; inside reconnect with the old
    generation stopped, redialled, the new SA built, the registry reset, the session
    stored, the tunnel re-addressed. *)
Inductive super_pc :=
| Running
| Dying
| Stopped
| Redialled (s : Session)
| Built (s : Session) (p : nat)
| ResetDone (s : Session) (p : nat)
| Stored (s : Session) (p : nat)
| Readdressed.

(** [sy_queue]: the updates of the driver's present event still to be installed. *)
Record System := {
  sy_client : Client;
  sy_queue : list ChildSAUpdate;
  sy_driver : driver_pc;
  sy_timers : list timer_pc;
  sy_super : super_pc;
}.

Definition on_client (c : Client) (σ : System) : System :=
  {| sy_client := c; sy_queue := sy_queue σ; sy_driver := sy_driver σ; sy_timers := sy_timers σ;
     sy_super := sy_super σ |}.
Definition on_driver (c : Client) (q : list ChildSAUpdate) (d : driver_pc) (σ : System) : System :=
  {| sy_client := c; sy_queue := q; sy_driver := d; sy_timers := sy_timers σ; sy_super := sy_super σ |}.
Definition on_timers (c : Client) (ts : list timer_pc) (σ : System) : System :=
  {| sy_client := c; sy_queue := sy_queue σ; sy_driver := sy_driver σ; sy_timers := ts;
     sy_super := sy_super σ |}.
Definition on_super (c : Client) (p : super_pc) (σ : System) : System :=
  {| sy_client := c; sy_queue := sy_queue σ; sy_driver := sy_driver σ; sy_timers := sy_timers σ;
     sy_super := p |}.

(** The workers of a generation are up. *)
Definition workers_up (σ : System) : Prop := sy_super σ = Running ∨ sy_super σ = Dying.

(** Key material a Child SA can be built from. *)
Record child_ok (ch : ChildSA) : Prop := {
  cho_in : is_u32 (ch_InitiatorSPI ch);
  cho_out : is_u32 (ch_ResponderSPI ch);
  cho_fit : keys_fit (ch_Suite ch) (EncrIR (ch_Keys ch)) (IntegIR (ch_Keys ch))
              (EncrRI (ch_Keys ch)) (IntegRI (ch_Keys ch)) = true;
  cho_bytes : bytes_ok (EncrIR (ch_Keys ch)) ∧ bytes_ok (IntegIR (ch_Keys ch)) ∧
              bytes_ok (EncrRI (ch_Keys ch)) ∧ bytes_ok (IntegRI (ch_Keys ch));
}.

(** A session as the handshake returns it. *)
Record ready (s : Session) : Prop := {
  rd_ok : session_ok s;
  rd_idle : pending s = None;
  rd_fresh : installed s = [];
  rd_child : ∃ ch, child s = Some ch ∧ child_ok ch;
}.

(** What a caller of the tunnel may do at any time. *)
Inductive user_call : CM unit → Prop :=
| UserSetInbound : user_call SetInbound
| UserDetach : user_call detachInbound
| UserOnReconfigure : user_call (_ ← OnReconfigure; mret tt)
| UserDetachReconfigure id : user_call (detachReconfigure id)
| UserOnRekey fn : user_call (OnRekey fn).

Section steps.
Context {P : Primitives} {W : World}.

Inductive step (σ : System) : System → Prop :=
(** The driver handles an event of the session. *)
| StepEvent e s s' us (stop : bool) :
    sy_super σ = Running → sy_driver σ = DIdle → sy_queue σ = [] →
    cl_session (sy_client σ) = Some s → event_ok e → Driver_step e s = (s', Ok stop) →
    installed s' = installed s ++ us →
    step σ {| sy_client := set_session (Some s') (sy_client σ); sy_queue := us; sy_driver := DIdle;
              sy_timers := sy_timers σ; sy_super := if stop then Dying else Running |}
(** The driver in InstallChildSA. *)
| StepBuild u q c p :
    sy_driver σ = DIdle → sy_queue σ = u :: q → buildChildSA u (sy_client σ) = (c, Ok (Some p)) →
    step σ (on_driver c q (DBuilt u p) σ)
| StepUnbuildable u q c :
    sy_driver σ = DIdle → sy_queue σ = u :: q → buildChildSA u (sy_client σ) = (c, Ok None) →
    step σ (on_driver c q DIdle σ)
| StepAdd u p c sup :
    sy_driver σ = DBuilt u p → addInbound u p (sy_client σ) = (c, Ok sup) →
    step σ (on_driver c (sy_queue σ) (DAdded u p sup) σ)
| StepSwap u p sup c :
    sy_driver σ = DAdded u p sup → SwapSA p (sy_client σ) = (c, Ok tt) →
    step σ (on_driver c (sy_queue σ) (DSwapped u sup) σ)
(** After the cutover: the hooks, then the timer is armed and listed.  Only a timer and
    stopGraceTimers look at the list; the timer is not due for 30 seconds, and the latter
    runs when the driver has ended. *)
| StepRetire u sup c :
    sy_driver σ = DSwapped u sup → (_ ← fireRekey; retireOld u sup) (sy_client σ) = (c, Ok tt) →
    step σ (on_driver c (sy_queue σ) DIdle σ)
(** A grace timer, once it is due. *)
| StepFire t due spi sa :
    cl_armed (sy_client σ) !! t = Some (due, (spi, sa)) → due ≤ cl_now (sy_client σ) →
    step σ (on_timers (set_armed (delete t (cl_armed (sy_client σ))) (sy_client σ))
              (sy_timers σ ++ [TRemove t spi sa]) σ)
| StepRemove i t spi sa c :
    sy_timers σ !! i = Some (TRemove t spi sa) → removeInbound spi sa (sy_client σ) = (c, Ok tt) →
    step σ (on_timers c (<[i := TPrune t]> (sy_timers σ)) σ)
| StepPrune ts1 ts2 t c :
    sy_timers σ = ts1 ++ TPrune t :: ts2 → pruneTimer t (sy_client σ) = (c, Ok tt) →
    step σ (on_timers c (ts1 ++ ts2) σ)
(** The other goroutines. *)
| StepReceive nowNano raw c :
    workers_up σ → bytes_ok raw → rxDatagram nowNano raw (sy_client σ) = (c, Ok tt) →
    step σ (on_client c σ)
| StepKeepalive ok cancelled c b :
    workers_up σ → keepaliveTick ok cancelled (sy_client σ) = (c, Ok b) → step σ (on_client c σ)
| StepWrite p iv ok closing c r :
    Write p iv ok closing (sy_client σ) = (c, r) → step σ (on_client c σ)
| StepUser m c r :
    user_call m → m (sy_client σ) = (c, r) → step σ (on_client c σ)
(** Time passes. *)
| StepTime n :
    cl_now (sy_client σ) ≤ n → step σ (on_client (set_now n (sy_client σ)) σ)
(** The supervisor in reconnect. *)
| StepStop c :
    sy_super σ = Dying → sy_driver σ = DIdle → sy_queue σ = [] →
    (_ ← closeSession; stopGraceTimers) (sy_client σ) = (c, Ok tt) → step σ (on_super c Stopped σ)
| StepRedial s :
    sy_super σ = Stopped → ready (SetDataPlane s) → step σ (on_super (sy_client σ) (Redialled s) σ)
| StepBuildNew s ch c p :
    sy_super σ = Redialled s → child s = Some ch → espSAFromChild ch (sy_client σ) = (c, Ok p) →
    step σ (on_super c (Built s p) σ)
| StepRetryNew s ch c e :
    sy_super σ = Redialled s → child s = Some ch → espSAFromChild ch (sy_client σ) = (c, Err e) →
    step σ (on_super c Dying σ)
| StepReset s ch p c :
    sy_super σ = Built s p → child s = Some ch →
    resetInbound (ch_InitiatorSPI ch) p (sy_client σ) = (c, Ok tt) →
    step σ (on_super c (ResetDone s p) σ)
| StepStore s p c :
    sy_super σ = ResetDone s p → adopt s (sy_client σ) = (c, Ok tt) →
    step σ (on_super c (Stored s p) σ)
| StepReaddress s p c :
    sy_super σ = Stored s p →
    Reconfigure p (tunConfig (cl_MTU (sy_client σ)) (assigned s)) (sy_client σ) = (c, Ok tt) →
    step σ (on_super c Readdressed σ)
| StepStart c :
    sy_super σ = Readdressed → (_ ← fireRekey; startWorkers) (sy_client σ) = (c, Ok tt) →
    step σ (on_super c Running σ).
End steps.

(** ** The invariant *)

Definition spi_at (v : view) (p : nat) : option Z := inSPI <$> v_sas v !! p.

(** The SA was built as [u] orders: its suite and SPIs, and its keys each in its direction. *)
Definition speaks (sa : SA) (u : ChildSAUpdate) : Prop :=
  ∃ w sa0,
    newSA (up_Suite u) (NewOutSPI u) (NewInSPI u) (OutEncr u) (OutInteg u) (InEncr u) (InInteg u) w = Ok sa0 ∧
    static sa = static sa0.

Definition speaks_at (v : view) (p : nat) (u : ChildSAUpdate) : Prop :=
  ∃ sa, v_sas v !! p = Some sa ∧ speaks sa u ∧ inSPI sa = NewInSPI u.

(** A grace timer will remove, or is removing, the SA at [q] from under [spi]. *)
Definition doomed (v : view) (ts : list timer_pc) (spi : Z) (q : nat) : Prop :=
  (∃ t, v_armed v !! t = Some (spi, Some q)) ∨ (∃ t, TRemove t spi (Some q) ∈ ts).

Definition fired (ts : list timer_pc) (t : nat) : Prop :=
  (∃ spi sa, TRemove t spi sa ∈ ts) ∨ TPrune t ∈ ts.

Record timers_ok (v : view) (ts : list timer_pc) : Prop := {
  to_target spi q : doomed v ts spi q → (q < v_out v)%nat ∧ spi_at v q = Some spi;
  to_grace t spi q : v_armed v !! t = Some (spi, Some q) →
    v_reg v !! spi = Some q ∨ ∃ q', (q < q')%nat ∧ spi_at v q' = Some spi;
  to_once t1 t2 s1 s2 q : v_armed v !! t1 = Some (s1, Some q) → v_armed v !! t2 = Some (s2, Some q) → t1 = t2;
  to_apart t s q t' s' : v_armed v !! t = Some (s, Some q) → TRemove t' s' (Some q) ∈ ts → False;
  to_listed t x : v_armed v !! t = Some x → t ∈ v_timers v ∧ (t < v_next v)%nat;
  to_fired t : fired ts t → v_armed v !! t = None ∧ (t < v_next v)%nat;
  to_pruned t : t ∈ v_timers v → is_Some (v_armed v !! t) ∨ fired ts t;
}.

(** Every registered SA but those in [X] awaits its timer.  SPI 0 is not an SPI of
    ESP: the demultiplexer takes such a packet for IKE. *)
Definition covered (v : view) (ts : list timer_pc) (X : nat → Prop) : Prop :=
  ∀ spi p, v_reg v !! spi = Some p → spi ≠ 0 → X p ∨ doomed v ts spi p.

(** The SA at [p] is the one [u] orders, and is found under its SPI. *)
Record current (v : view) (p : nat) (u : ChildSAUpdate) : Prop := {
  cu_speaks : speaks_at v p u;
  cu_found : v_reg v !! NewInSPI u = Some p;
}.

(** The driver's part: the queue leads to what the session has ordered. *)
Definition installing (v : view) (ts : list timer_pc) (q : list ChildSAUpdate) (d : driver_pc)
    (s : Session) : Prop :=
  let out := v_out v in
  match d with
  | DIdle => ∃ u0, length (v_sas v) = S out ∧ current v out u0 ∧ heir u0 q s ∧ covered v ts (λ p, p = out)
  | DBuilt u p => ∃ u0, length (v_sas v) = S (S out) ∧ p = S out ∧ current v out u0 ∧
      speaks_at v p u ∧ OldInSPI u = NewInSPI u0 ∧ heir u q s ∧ covered v ts (λ p, p = out)
  | DAdded u p sup => ∃ u0, length (v_sas v) = S (S out) ∧ p = S out ∧ speaks_at v out u0 ∧
      sup = Some out ∧ current v p u ∧ OldInSPI u = NewInSPI u0 ∧
      (OldInSPI u = NewInSPI u ∨ v_reg v !! OldInSPI u = Some out) ∧
      heir u q s ∧ covered v ts (λ p', p' = out ∨ p' = p)
  | DSwapped u sup => ∃ q0, length (v_sas v) = S out ∧ current v out u ∧
      sup = Some q0 ∧ (q0 < out)%nat ∧ spi_at v q0 = Some (OldInSPI u) ∧
      (OldInSPI u = NewInSPI u ∨ v_reg v !! OldInSPI u = Some q0) ∧
      (∀ spi q, doomed v ts spi q → (q < q0)%nat) ∧
      heir u q s ∧ covered v ts (λ p', p' = out ∨ p' = q0)
  end.

(** The supervisor's part, with the driver gone and no timer armed. *)
Definition reviving (v : view) (ts : list timer_pc) (sup : super_pc) : Prop :=
  let out := v_out v in
  let dialled s := ready (SetDataPlane s) in
  match sup with
  | Running | Dying => False
  | Stopped => length (v_sas v) = S out
  | Redialled s => dialled s ∧ length (v_sas v) = S out
  | Built s p => dialled s ∧ length (v_sas v) = S (S out) ∧ p = S out ∧
      (∃ ch, child s = Some ch ∧ speaks_at v p (first_update ch))
  | ResetDone s p => dialled s ∧ length (v_sas v) = S (S out) ∧ p = S out ∧
      (∃ ch, child s = Some ch ∧ current v p (first_update ch)) ∧ covered v ts (λ p', p' = p)
  | Stored s p => dialled s ∧ length (v_sas v) = S (S out) ∧ p = S out ∧ v_session v = Some s ∧
      (∃ ch, child s = Some ch ∧ current v p (first_update ch)) ∧ covered v ts (λ p', p' = p)
  | Readdressed => length (v_sas v) = S out ∧ ∃ s ch, dialled s ∧ v_session v = Some s ∧
      child s = Some ch ∧ current v out (first_update ch) ∧ covered v ts (λ p', p' = out)
  end.

Definition phase (v : view) (σ : System) : Prop :=
  (workers_up σ ∧ Forall update_ok (sy_queue σ) ∧
   ∃ s, v_session v = Some s ∧ session_ok s ∧ coherent s ∧
        installing v (sy_timers σ) (sy_queue σ) (sy_driver σ) s) ∨
  (sy_driver σ = DIdle ∧ sy_queue σ = [] ∧ v_armed v = ∅ ∧ reviving v (sy_timers σ) (sy_super σ)).

Record cut_inv (v : view) (σ : System) : Prop := {
  ci_shows : shows v (sy_client σ);
  ci_reg : registered v;
  ci_timers : timers_ok v (sy_timers σ);
  ci_phase : phase v σ;
}.

Ltac split_hyps :=
  repeat match goal with H : _ ∧ _ |- _ => destruct H | H : ∃ _, _ |- _ => destruct H end.

(** The outbound SA is always in the store. *)
Lemma cut_out v σ : cut_inv v σ → ∃ sa, v_sas v !! v_out v = Some sa.
Proof.
  intros [_ _ _ Hp]. assert (Hlt : (v_out v < length (v_sas v))%nat).
  { destruct Hp as [(_ & _ & s & _ & _ & _ & Hi)|(_ & _ & _ & Hr)].
    - destruct (sy_driver σ); cbn in Hi; split_hyps; lia.
    - destruct (sy_super σ); cbn in Hr; split_hyps; lia || done. }
  apply lookup_lt_is_Some_2 in Hlt as [sa ?]. eauto.
Qed.

(** *** How the parts move *)

Lemma doomed_eq v v' ts spi q : v_armed v' = v_armed v → doomed v' ts spi q ↔ doomed v ts spi q.
Proof. unfold doomed. by intros ->. Qed.

(** The timers look on while SAs are added and the outbound one moves forward. *)
Lemma timers_mono v v' ts :
  timers_ok v ts → (v_out v ≤ v_out v')%nat →
  (∀ p x, spi_at v p = Some x → spi_at v' p = Some x) →
  v_armed v' = v_armed v → v_timers v' = v_timers v → v_next v' = v_next v →
  (∀ t spi q, v_armed v !! t = Some (spi, Some q) → v_reg v !! spi = Some q →
     v_reg v' !! spi = Some q ∨ ∃ q', (q < q')%nat ∧ spi_at v' q' = Some spi) →
  timers_ok v' ts.
Proof.
  intros [T1 T2 T3 T4 T5 T6 T7] Ho Hs Ha Ht Hn Hr. constructor; rewrite ?Ha, ?Ht, ?Hn; try done.
  - intros spi q Hd. rewrite (doomed_eq v v') in Hd by done. destruct (T1 spi q Hd). split; [lia|auto].
  - intros t spi q Hq. destruct (T2 t spi q Hq) as [H|(q' & ? & ?)]; [by eapply Hr|]. right. eauto.
Qed.

Lemma covered_mono v v' ts (X Y : nat → Prop) :
  covered v ts X → v_armed v' = v_armed v →
  (∀ spi p, v_reg v' !! spi = Some p → v_reg v !! spi = Some p ∨ Y p) → (∀ p, X p → Y p) →
  covered v' ts Y.
Proof.
  intros Hc Ha Hr HXY spi p Hp Hnz. destruct (Hr spi p Hp) as [H|H]; [|by left].
  destruct (Hc spi p H Hnz); [by left; apply HXY|right; by apply (doomed_eq v v')].
Qed.

Lemma speaks_at_mono v v' p u :
  speaks_at v p u → (∀ sa, v_sas v !! p = Some sa → v_sas v' !! p = Some sa) → speaks_at v' p u.
Proof. intros (sa & ? & ? & ?) Hm. exists sa. auto. Qed.

Lemma speaks_at_spi v p u : speaks_at v p u → spi_at v p = Some (NewInSPI u).
Proof. unfold spi_at. intros (sa & -> & _ & <-). done. Qed.

Lemma spi_at_app v l p x :
  spi_at v p = Some x → spi_at (v_with_sas (v_sas v ++ l) v) p = Some x.
Proof.
  unfold spi_at. cbn. destruct (v_sas v !! p) as [sa|] eqn:Hp; [|done].
  by rewrite (lookup_app_l_Some _ _ _ _ Hp).
Qed.

Lemma registered_app v l : registered v → registered (v_with_sas (v_sas v ++ l) v).
Proof.
  intros Hr spi p Hp. destruct (Hr spi p Hp) as (sa & H1 & H2). exists sa. split; [|done].
  cbn. by apply lookup_app_l_Some.
Qed.

Section invariant.
Context `{HL : PrimitiveLaws} {W : World} {HW : WorldLaws W}.

(** *** The driver installs *)

Lemma takes_buildChildSA v u :
  update_ok u →
  ∃ sa, takes (buildChildSA u) v (Some (length (v_sas v))) (v_with_sas (v_sas v ++ [static sa]) v) ∧
        speaks (static sa) u ∧ inSPI sa = NewInSPI u.
Proof.
  intros [Hi Ho Hfit (B1 & B2 & B3 & B4)].
  destruct (newSA_fits (up_Suite u) (NewOutSPI u) (NewInSPI u) (OutEncr u) (OutInteg u) (InEncr u)
    (InInteg u) 64) as (sa & Hsa & _ & Hin & _); try done.
  exists sa. split_and!; [|by exists 64, sa|done].
  intros c Hc. pose proof (sh_window _ _ Hc) as Hw.
  destruct (newSA_fits (up_Suite u) (NewOutSPI u) (NewInSPI u) (OutEncr u) (OutInteg u) (InEncr u)
    (InInteg u) (cl_ReplayWindow c)) as (sa' & Hsa' & Hok & _); try done.
  destruct (newSA_static _ _ _ _ _ _ _ _ (cl_ReplayWindow c) _ Hsa) as (sa'' & H1 & H2).
  assert (sa'' = sa') as -> by congruence.
  destruct (takes_alloc_esp v sa' Hok c Hc) as (c' & Ha & Hc'). exists c'.
  rewrite <- H2. split; [|done]. unfold buildChildSA. st_step. rewrite Hsa'. unfold mbind, ST_bind.
  by rewrite Ha.
Qed.

Lemma takes_espSAFromChild v ch :
  child_ok ch →
  ∃ sa, takes (espSAFromChild ch) v (length (v_sas v)) (v_with_sas (v_sas v ++ [static sa]) v) ∧
        speaks (static sa) (first_update ch) ∧ inSPI sa = ch_InitiatorSPI ch.
Proof.
  intros [Hi Ho Hfit (B1 & B2 & B3 & B4)].
  destruct (takes_buildChildSA v (first_update ch)) as (sa & Ht & Hs & Hin); [by constructor|].
  exists sa. split_and!; [|done..]. intros c Hc. destruct (Ht c Hc) as (c' & Hb & Hc'). exists c'.
  split; [|done]. revert Hb. unfold buildChildSA, espSAFromChild. st_step.
  cbn [up_Suite NewOutSPI NewInSPI OutEncr OutInteg InEncr InInteg first_update].
  destruct (newSA _ _ _ _ _ _ _ _); [|done..]. cbn [wrap_err]. intros Hb. run_step Hb p c1 Ha.
  injection Hb as -> ->. exact Ha.
Qed.

Lemma takes_run {A} (m : CM A) v a v' c c' b :
  takes m v a v' → shows v c → m c = (c', Ok b) → b = a ∧ shows v' c'.
Proof. intros Hm Hc Hr. destruct (Hm c Hc) as (c1 & H1 & H2). rewrite Hr in H1. by injection H1 as -> ->. Qed.

Lemma up_phase v σ :
  phase v σ → sy_driver σ ≠ DIdle ∨ sy_queue σ ≠ [] ∨ workers_up σ →
  workers_up σ ∧ Forall update_ok (sy_queue σ) ∧
  ∃ s, v_session v = Some s ∧ session_ok s ∧ coherent s ∧
       installing v (sy_timers σ) (sy_queue σ) (sy_driver σ) s.
Proof.
  intros [H|(Hd & Hq & _ & Hr)] Hup; [done|]. destruct Hup as [?|[?|Hup]]; [done..|].
  by destruct Hup as [Hs|Hs]; rewrite Hs in Hr.
Qed.

Lemma cut_event v σ e s s' us (stop : bool) :
  cut_inv v σ → sy_super σ = Running → sy_driver σ = DIdle → sy_queue σ = [] →
  cl_session (sy_client σ) = Some s → event_ok e → Driver_step e s = (s', Ok stop) →
  installed s' = installed s ++ us →
  cut_inv (v_with_session (Some s') v)
    {| sy_client := set_session (Some s') (sy_client σ); sy_queue := us; sy_driver := DIdle;
       sy_timers := sy_timers σ; sy_super := if stop then Dying else Running |}.
Proof using HL HW.
  intros [Hsh Hreg Ht Hp] Hrun Hd Hq Hs He Hstep Hus.
  destruct (up_phase v σ Hp) as (_ & _ & s0 & Hs0 & Hok & Hco & Hin); [by right; right; left|].
  assert (s0 = s) as ->.
  { destruct Hsh as [Hv _ _]. destruct (view_of_inv _ _ Hv) as (t & m & _ & _ & ->). cbn in Hs0. congruence. }
  pose proof (traces_Driver_step e s Hco) as Htr. rewrite Hstep in Htr. destruct (Htr I) as [Hco' (us' & Hi' & Hlin)].
  assert (us' = us) as -> by (eapply app_inv_head; by rewrite <- Hi'). clear Htr Hi'.
  destruct (Driver_step_post s e Hok He) as [[Hok' Hev] _]. rewrite Hstep in Hok', Hev. cbn in Hok', Hev.
  destruct (ev_installed _ _ _ Hev) as (vs & Hvs & Hfit). assert (vs = us) as ->.
  { eapply app_inv_head. by rewrite <- Hvs. }
  rewrite Hd, Hq in Hin. destruct Hin as (u0 & Hlen & Hcur & Hh & Hcov).
  constructor; cbn [sy_client sy_queue sy_driver sy_timers sy_super].
  - destruct Hsh as [Hv ? ?]. destruct (view_of_inv _ _ Hv) as (t & m & Htn & Hm & ->). by show_view.
  - done.
  - apply (timers_mono v); auto.
  - left. split; [destruct stop; [by right|by left]|]. split; [done|]. exists s'. split_and!; [done..|].
    exists u0. split_and!; [done|by destruct Hcur|by apply (heir_event _ s)|done].
Qed.

(** The store grows by the SA that was built. *)
Lemma grow_timers v ts sa : timers_ok v ts → timers_ok (v_with_sas (v_sas v ++ [sa]) v) ts.
Proof. intros Ht. apply (timers_mono v); auto using spi_at_app. Qed.

Lemma grow_current v p u sa : current v p u → current (v_with_sas (v_sas v ++ [sa]) v) p u.
Proof.
  intros [Hs Hf]. split; [|done]. eapply speaks_at_mono; [done|]. intros. by apply lookup_app_l_Some.
Qed.

Lemma grow_speaks v sa u :
  speaks (static sa) u → inSPI sa = NewInSPI u →
  speaks_at (v_with_sas (v_sas v ++ [static sa]) v) (length (v_sas v)) u.
Proof. intros Hs Hi. exists (static sa). split; [|done]. cbn. by apply list_lookup_middle. Qed.

Lemma cut_build v σ u q c p :
  cut_inv v σ → sy_driver σ = DIdle → sy_queue σ = u :: q →
  buildChildSA u (sy_client σ) = (c, Ok (Some p)) → ∃ v', cut_inv v' (on_driver c q (DBuilt u p) σ).
Proof using HL.
  intros [Hsh Hreg Ht Hp] Hd Hq Hb.
  destruct (up_phase v σ Hp) as (Hup & Hfit & s & Hs & Hok & Hco & Hin); [right; left; by rewrite Hq|].
  rewrite Hd, Hq in Hin. rewrite Hq in Hfit. apply Forall_cons_1 in Hfit as [Hu Hfit].
  destruct Hin as (u0 & Hlen & Hcur & [Hold Hh]%heir_cons & Hcov).
  destruct (takes_buildChildSA v u Hu) as (sa & Htk & Hsp & Hi).
  destruct (takes_run _ _ _ _ _ _ _ Htk Hsh Hb) as [[= ->] Hsh'].
  exists (v_with_sas (v_sas v ++ [static sa]) v). constructor; cbn [sy_client sy_timers on_driver].
  - done.
  - by apply registered_app.
  - by apply grow_timers.
  - left. split; [exact Hup|]. split; [done|]. exists s. split_and!; [done..|].
    exists u0. cbn [v_out v_with_sas v_sas sy_timers sy_queue on_driver]. rewrite length_app. cbn. split_and!; try done.
    + lia.
    + by apply grow_current.
    + by apply grow_speaks.
Qed.

Lemma cut_unbuildable v σ u q c :
  cut_inv v σ → sy_driver σ = DIdle → sy_queue σ = u :: q →
  buildChildSA u (sy_client σ) = (c, Ok None) → False.
Proof using HL.
  intros [Hsh Hreg Ht Hp] Hd Hq Hb.
  destruct (up_phase v σ Hp) as (_ & Hfit & _); [right; left; by rewrite Hq|].
  rewrite Hq in Hfit. apply Forall_cons_1 in Hfit as [Hu _].
  destruct (takes_buildChildSA v u Hu) as (sa & Htk & _).
  by destruct (takes_run _ _ _ _ _ _ _ Htk Hsh Hb).
Qed.

Lemma cut_add v σ u p c sup :
  cut_inv v σ → sy_driver σ = DBuilt u p → addInbound u p (sy_client σ) = (c, Ok sup) →
  ∃ v', cut_inv v' (on_driver c (sy_queue σ) (DAdded u p sup) σ).
Proof using HL.
  intros [Hsh Hreg Ht Hp] Hd Ha.
  destruct (up_phase v σ Hp) as (Hup & Hfit & s & Hs & Hok & Hco & Hin); [left; by rewrite Hd|].
  rewrite Hd in Hin. destruct Hin as (u0 & Hlen & -> & Hcur & Hsp & Hold & Hh & Hcov).
  destruct (takes_run _ _ _ _ _ _ _ (takes_addInbound v u (S (v_out v))) Hsh Ha) as [-> Hsh'].
  exists (v_with_reg (<[NewInSPI u := S (v_out v)]> (v_reg v)) v).
  constructor; cbn [sy_client sy_timers on_driver].
  - done.
  - intros spi q Hlk. cbn in Hlk. apply lookup_insert_Some in Hlk as [[<- <-]|[_ Hlk]]; [|by apply Hreg].
    destruct Hsp as (sa & ? & _ & ?). exists sa. split; [done|congruence].
  - apply (timers_mono v); auto. intros t spi q Harm Hlk. cbn.
    destruct (decide (spi = NewInSPI u)) as [->|Hne]; [right|left; by rewrite lookup_insert_ne].
    exists (S (v_out v)). split; [|by apply speaks_at_spi].
    destruct (to_target _ _ Ht (NewInSPI u) q); [left; eauto|lia].
  - left. split; [exact Hup|]. split; [done|]. exists s. split_and!; [done..|].
    exists u0. cbn [v_out v_reg v_with_reg v_sas sy_timers sy_queue on_driver].
    destruct Hcur as [Hcs Hcf]. split_and!; try done.
    + by rewrite Hold.
    + split; [done|]. cbn. apply lookup_insert_eq.
    + destruct (decide (OldInSPI u = NewInSPI u)) as [|Hne]; [by left|right].
      rewrite lookup_insert_ne by done. by rewrite Hold.
    + eapply covered_mono; [exact Hcov|done| |by left].
      intros spi q Hlk. cbn in Hlk. apply lookup_insert_Some in Hlk as [[_ <-]|[_ Hlk]]; auto.
Qed.

Lemma cut_swap v σ u p sup c :
  cut_inv v σ → sy_driver σ = DAdded u p sup → SwapSA p (sy_client σ) = (c, Ok tt) →
  ∃ v', cut_inv v' (on_driver c (sy_queue σ) (DSwapped u sup) σ).
Proof using HL.
  intros [Hsh Hreg Ht Hp] Hd Ha.
  destruct (up_phase v σ Hp) as (Hup & Hfit & s & Hs & Hok & Hco & Hin); [left; by rewrite Hd|].
  rewrite Hd in Hin.
  destruct Hin as (u0 & Hlen & -> & Hsp & -> & Hcur & Hold & Hkeep & Hh & Hcov).
  destruct (takes_run _ _ _ _ _ _ _ (takes_SwapSA v (S (v_out v))) Hsh Ha) as [_ Hsh'].
  exists (v_with_out (S (v_out v)) v). constructor; cbn [sy_client sy_timers on_driver].
  - done.
  - done.
  - apply (timers_mono v); auto. cbn. lia.
  - left. split; [exact Hup|]. split; [done|]. exists s. split_and!; [done..|].
    exists (v_out v). cbn [v_out v_reg v_with_out v_sas sy_timers sy_queue on_driver].
    split_and!; try done.
    + by destruct Hcur.
    + lia.
    + rewrite Hold. by apply speaks_at_spi.
    + intros spi q Hdm. by eapply to_target.
    + eapply covered_mono; [exact Hcov|done|by left|]. cbn. intuition.
Qed.

(** A new timer for the superseded SA. *)
Lemma arm_timers v ts spi q0 due :
  timers_ok v ts → (q0 < v_out v)%nat → spi_at v q0 = Some spi → v_reg v !! spi = Some q0 →
  (∀ spi' q, doomed v ts spi' q → (q < q0)%nat) →
  timers_ok (v_with_timers (<[v_next v := (spi, Some q0)]> (v_armed v)) due (v_timers v ++ [v_next v])
               (S (v_next v)) v) ts.
Proof.
  intros [T1 T2 T3 T4 T5 T6 T7] Hlt Hspi Hlk Hold.
  assert (Hfresh : v_armed v !! v_next v = None).
  { destruct (v_armed v !! v_next v) eqn:Hn; [|done]. destruct (T5 _ _ Hn). lia. }
  assert (Hnew : ∀ s, doomed v ts s q0 → False) by (intros s Hd; apply Hold in Hd; lia).
  constructor; cbn [v_armed v_timers v_next v_with_timers v_reg v_out].
  - intros s q [(t & Hq)|Hq]; [|by apply T1; right].
    cbn in Hq. apply lookup_insert_Some in Hq as [[<- [= <- <-]]|[_ Hq]]; [done|apply T1; left; eauto].
  - intros t s q Hq. apply lookup_insert_Some in Hq as [[<- [= <- <-]]|[_ Hq]]; [by left|eauto].
  - intros t1 t2 s1 s2 q H1 H2.
    apply lookup_insert_Some in H1 as [[<- H1]|[Hn1 H1]];
      apply lookup_insert_Some in H2 as [[<- H2]|[Hn2 H2]]; simplify_eq; eauto.
    all: exfalso; eapply Hnew; left; eauto.
  - intros t s q t' s' Hq Hin. apply lookup_insert_Some in Hq as [[<- [= <- <-]]|[_ Hq]]; [|eauto].
    eapply Hnew. right. eauto.
  - intros t x Hq. apply lookup_insert_Some in Hq as [[<- _]|[_ Hq]].
    + split; [apply elem_of_app; right; by apply list_elem_of_singleton|lia].
    + destruct (T5 _ _ Hq). split; [apply elem_of_app; by left|lia].
  - intros t Hf. destruct (T6 t Hf). split; [rewrite lookup_insert_ne; [done|lia]|lia].
  - intros t [Hin| ->%list_elem_of_singleton]%elem_of_app.
    + destruct (T7 t Hin) as [Hs|]; [|by right]. left.
      destruct (decide (t = v_next v)) as [->|]; [by rewrite lookup_insert_eq|by rewrite lookup_insert_ne].
    + left. by rewrite lookup_insert_eq.
Qed.

Lemma cut_retire v σ u sup c :
  cut_inv v σ → sy_driver σ = DSwapped u sup →
  (_ ← fireRekey; retireOld u sup) (sy_client σ) = (c, Ok tt) →
  ∃ v', cut_inv v' (on_driver c (sy_queue σ) DIdle σ).
Proof using HL.
  intros [Hsh Hreg Ht Hp] Hd Ha.
  destruct (up_phase v σ Hp) as (Hup & Hfit & s & Hs & Hok & Hco & Hin); [left; by rewrite Hd|].
  rewrite Hd in Hin.
  destruct Hin as (q0 & Hlen & Hcur & -> & Hlt & Hspi & Hkeep & Hold & Hh & Hcov).
  pose proof (takes_bind _ (λ _, retireOld u (Some q0)) _ _ _ _ _ (takes_fireRekey v) (takes_retireOld v u (Some q0))) as Htk.
  destruct (takes_run _ _ _ _ _ _ _ Htk Hsh Ha) as [_ Hsh']. clear Htk Ha.
  (* the superseded SA, if it is still in the registry, awaits the new timer *)
  assert (Hq0 : ∀ spi, v_reg v !! spi = Some q0 → spi = OldInSPI u).
  { intros spi Hlk. destruct (Hreg _ _ Hlk) as (sa & Hsa & <-). unfold spi_at in Hspi. rewrite Hsa in Hspi.
    by injection Hspi. }
  destruct (negb (OldInSPI u =? 0) && negb (OldInSPI u =? NewInSPI u)) eqn:Hg.
  - apply andb_true_iff in Hg as [Hg1 Hg2]. bool_prop. destruct Hkeep as [|Hkeep]; [done|].
    eexists. constructor; cbn [sy_client sy_timers on_driver]; [exact Hsh'|done|by apply arm_timers|].
    left. split; [exact Hup|]. split; [done|]. exists s. split_and!; [done..|].
    exists u. split_and!; [done|by destruct Hcur|done|].
    intros spi p Hlk Hnz. destruct (Hcov spi p Hlk Hnz) as [[->| ->]|[(t & Hdm)|Hdm]]; [by left|..].
    + right. left. exists (v_next v). rewrite (Hq0 spi Hlk). apply lookup_insert_eq.
    + right. left. exists t. cbn. rewrite lookup_insert_ne; [done|]. intros <-.
      destruct (to_listed _ _ Ht _ _ Hdm). lia.
    + right. by right.
  - exists v. constructor; [exact Hsh'|done|done|].
    left. split; [exact Hup|]. split; [done|]. exists s. split_and!; [done..|].
    exists u. split_and!; [done..|]. intros spi p Hlk Hnz.
    destruct (Hcov spi p Hlk Hnz) as [[->| ->]|]; [by left| |by right]. exfalso.
    pose proof (Hq0 spi Hlk) as ->. apply andb_false_iff in Hg as [Hg|Hg]; bool_prop; [done|].
    rewrite Hg in Hlk. destruct Hcur as [_ Hf]. rewrite Hf in Hlk. injection Hlk. lia.
Qed.

(** *** Timers run *)

(** [v'] and [ts'] after a timer has moved on: an SA leaves the registry only when its
    timer removes it. *)
Record aged (v : view) (ts : list timer_pc) (v' : view) (ts' : list timer_pc) : Prop := {
  ag_out : v_out v' = v_out v;
  ag_sas : v_sas v' = v_sas v;
  ag_session : v_session v' = v_session v;
  ag_sub x p : v_reg v' !! x = Some p → v_reg v !! x = Some p;
  ag_keep x p : v_reg v !! x = Some p → ¬ doomed v ts x p → v_reg v' !! x = Some p;
  ag_less x p : doomed v' ts' x p → doomed v ts x p;
  ag_cover x p : doomed v ts x p → v_reg v' !! x = Some p → doomed v' ts' x p;
}.

Lemma aged_covered v ts v' ts' X : aged v ts v' ts' → covered v ts X → covered v' ts' X.
Proof.
  intros [] Hc x p Hp Hnz. destruct (Hc x p) as [|]; auto.
Qed.

Lemma aged_speaks v ts v' ts' p u : aged v ts v' ts' → speaks_at v p u → speaks_at v' p u.
Proof. intros [] H. unfold speaks_at. by rewrite ag_sas0. Qed.

Lemma aged_current v ts v' ts' p u :
  timers_ok v ts → aged v ts v' ts' → (v_out v ≤ p)%nat → current v p u → current v' p u.
Proof.
  intros Ht Ha Hp [Hs Hf]. split; [by eapply aged_speaks|]. apply (ag_keep _ _ _ _ Ha); [done|].
  intros Hd. apply (to_target _ _ Ht) in Hd as [? _]. lia.
Qed.

Lemma aged_phase v v' σ c ts' :
  timers_ok v (sy_timers σ) → aged v (sy_timers σ) v' ts' →
  (v_armed v = ∅ → v_armed v' = ∅) → phase v σ → phase v' (on_timers c ts' σ).
Proof.
  intros Ht Ha He [(Hup & Hfit & s & Hs & Hok & Hco & Hin)|(Hd & Hq & Harm & Hr)].
  - left. split; [exact Hup|]. split; [done|]. exists s. split_and!; [by rewrite (ag_session _ _ _ _ Ha)|done..|].
    cbn [sy_queue sy_driver sy_timers on_timers].
    destruct (sy_driver σ) as [|u p|u p sup|u sup]; cbn [installing] in *; rewrite (ag_out _ _ _ _ Ha), (ag_sas _ _ _ _ Ha).
    + destruct Hin as (u0 & ? & ? & ? & ?). exists u0.
      split_and!; eauto using aged_current, aged_covered.
    + destruct Hin as (u0 & ? & ? & ? & ? & ? & ? & ?). exists u0.
      split_and!; eauto using aged_current, aged_covered, aged_speaks.
    + destruct Hin as (u0 & ? & ? & ? & ? & Hcur & ? & Hk & ? & ?). exists u0.
      split_and!; eauto using aged_covered, aged_speaks.
      * eapply aged_current; [done..|lia|done].
      * destruct Hk as [|Hk]; [by left|right]. apply (ag_keep _ _ _ _ Ha); [done|].
        intros Hdm. apply (to_target _ _ Ht) in Hdm as [? _]. lia.
    + destruct Hin as (q0 & ? & ? & ? & ? & ? & Hk & Hold & ? & ?). exists q0.
      split_and!; eauto using aged_current, aged_covered.
      * unfold spi_at in *. by rewrite (ag_sas _ _ _ _ Ha).
      * destruct Hk as [|Hk]; [by left|right]. apply (ag_keep _ _ _ _ Ha); [done|].
        intros Hdm. apply Hold in Hdm. lia.
      * intros spi q Hdm. eapply Hold, (ag_less _ _ _ _ Ha), Hdm.
  - right. split_and!; [done..|by apply He|]. cbn [sy_timers sy_super on_timers].
    destruct (sy_super σ); cbn [reviving] in *; rewrite ?(ag_out _ _ _ _ Ha), ?(ag_sas _ _ _ _ Ha), ?(ag_session _ _ _ _ Ha);
      try done; split_hyps; split_and!; eauto using aged_covered, aged_speaks.
    all: try (eexists; split; [done|]; eapply aged_current; [done..|lia|done]).
    do 2 eexists. split_and!; eauto using aged_covered, aged_current.
Qed.

Lemma cut_fire v σ t due spi sa :
  cut_inv v σ → cl_armed (sy_client σ) !! t = Some (due, (spi, sa)) →
  ∃ v', cut_inv v' (on_timers (set_armed (delete t (cl_armed (sy_client σ))) (sy_client σ))
                      (sy_timers σ ++ [TRemove t spi sa]) σ).
Proof.
  intros [Hsh Hreg Ht Hp] Harm.
  assert (Harm' : v_armed v !! t = Some (spi, sa)).
  { destruct Hsh as [Hv _ _]. destruct (view_of_inv _ _ Hv) as (tn & m & _ & _ & ->). cbn.
    by rewrite lookup_fmap, Harm. }
  clear Harm. rename Harm' into Harm. set (ts := sy_timers σ) in *. set (ts' := ts ++ [TRemove t spi sa]).
  set (v' := v_with_timers (delete t (v_armed v)) (delete t (v_due v)) (v_timers v) (v_next v) v).
  assert (Hin : ∀ x, x ∈ ts' ↔ x ∈ ts ∨ x = TRemove t spi sa).
  { intros x. unfold ts'. by rewrite elem_of_app, list_elem_of_singleton. }
  assert (Hdm : ∀ x p, doomed v' ts' x p ↔ doomed v ts x p).
  { intros x p. unfold doomed. cbn [v_armed v_with_timers v']. setoid_rewrite Hin.
    setoid_rewrite lookup_delete_Some. split.
    - intros [(t' & ? & ?)|(t' & [?|[= -> -> ->]])]; eauto.
    - intros [(t' & Hq)|(t' & ?)]; [|by eauto]. destruct (decide (t = t')) as [<-|]; [|by eauto].
      right. exists t. right. congruence. }
  destruct Ht as [T1 T2 T3 T4 T5 T6 T7]. exists v'. constructor; cbn [sy_client sy_timers on_timers].
  - destruct Hsh as [Hv ? ?]. destruct (view_of_inv _ _ Hv) as (tn & m & Htn & Hm & Hveq). split; [|done..].
    unfold view_of. cbn. rewrite Htn, Hm. cbn. unfold v'. rewrite Hveq. by rewrite !fmap_delete.
  - done.
  - constructor; cbn [v_armed v_timers v_next v_with_timers v_reg v'].
    + intros x p Hd%Hdm. by apply T1.
    + intros t' x p [_ Hq]%lookup_delete_Some. eauto.
    + intros t1 t2 s1 s2 q [_ H1]%lookup_delete_Some [_ H2]%lookup_delete_Some. eauto.
    + intros t1 s q t' s' [Hne Hq]%lookup_delete_Some [Hi|[= -> -> <-]]%Hin; [eauto|].
      apply Hne. eauto.
    + intros t' x [_ Hq]%lookup_delete_Some. eauto.
    + intros t' Hf. assert (t' = t ∨ fired ts t') as [->|Hf'].
      { destruct Hf as [(s' & a' & [?|[= -> -> ->]]%Hin)|[?|?]%Hin]; unfold fired; eauto. done. }
      * split; [apply lookup_delete_eq|by eapply T5].
      * destruct (T6 t' Hf') as [H1 H2]. split; [|done]. apply lookup_delete_None. by right.
    + intros t' Hl. destruct (decide (t' = t)) as [->|Hne].
      { right. left. exists spi, sa. apply Hin. by right. }
      destruct (T7 t' Hl) as [|[(s' & a' & ?)|?]].
      * left. by rewrite lookup_delete_ne.
      * right. left. exists s', a'. apply Hin. by left.
      * right. right. apply Hin. by left.
  - apply (aged_phase v); [by constructor| |intros He; by rewrite He in Harm|done].
    constructor; try done; intros; by apply Hdm.
Qed.

Lemma cut_remove v σ i t spi sa c :
  cut_inv v σ → sy_timers σ !! i = Some (TRemove t spi sa) →
  removeInbound spi sa (sy_client σ) = (c, Ok tt) →
  ∃ v', cut_inv v' (on_timers c (<[i := TPrune t]> (sy_timers σ)) σ).
Proof.
  intros [Hsh Hreg Ht Hp] Hi Hr.
  destruct (takes_run _ _ _ _ _ _ _ (takes_removeInbound v spi sa) Hsh Hr) as [_ Hsh']. clear Hr.
  set (reg' := if bool_decide _ then _ else _) in Hsh'. set (ts := sy_timers σ) in *. set (ts' := <[i := TPrune t]> ts).
  assert (Hit : TRemove t spi sa ∈ ts) by (by eapply list_elem_of_lookup_2).
  assert (Hsub : ∀ x p, reg' !! x = Some p → v_reg v !! x = Some p).
  { intros x p. unfold reg'. case_bool_decide; [|done]. intros [_ ?]%lookup_delete_Some. done. }
  assert (Hgone : ∀ q, sa = Some q → reg' !! spi ≠ Some q).
  { intros q ->. unfold reg'. case_bool_decide as Hb; [by rewrite lookup_delete_eq|]. intros Hq. by apply Hb. }
  assert (Hkeep : ∀ x p, v_reg v !! x = Some p → ¬ (x = spi ∧ sa = Some p) → reg' !! x = Some p).
  { intros x p Hx Hn. unfold reg'. case_bool_decide as Hb; [|done]. destruct Hb as [<- _].
    rewrite lookup_delete_ne; [done|]. intros ->. by apply Hn. }
  assert (Hin : ∀ x, x ∈ ts' → x ∈ ts ∨ x = TPrune t).
  { intros x (j & Hj)%list_elem_of_lookup_1. unfold ts' in Hj. destruct (decide (j = i)) as [->|Hne].
    - rewrite list_lookup_insert_eq in Hj by (by eapply lookup_lt_Some). right. congruence.
    - rewrite list_lookup_insert_ne in Hj by done. left. by eapply list_elem_of_lookup_2. }
  assert (Hin' : ∀ x, x ∈ ts → x = TRemove t spi sa ∨ x ∈ ts').
  { intros x (j & Hj)%list_elem_of_lookup_1. destruct (decide (j = i)) as [->|Hne]; [left; congruence|right].
    apply (list_elem_of_lookup_2 _ j). unfold ts'. by rewrite list_lookup_insert_ne. }
  assert (Hpr : TPrune t ∈ ts').
  { apply (list_elem_of_lookup_2 _ i). apply list_lookup_insert_eq. by eapply lookup_lt_Some. }
  assert (Hag : aged v ts (v_with_reg reg' v) ts').
  { constructor; cbn [v_with_reg v_reg]; try done.
    - intros x p Hx Hnd. apply Hkeep; [done|]. intros [-> ->]. apply Hnd. right. eauto.
    - intros x p [?|(t' & [?|?]%Hin)]; [by left|by right; eauto|done].
    - intros x p [?|(t' & [[= -> -> Hsa]|?]%Hin')] Hx; [by left| |by right; eauto]. by destruct (Hgone p). }
  assert (Hf : ∀ t', fired ts' t' ↔ fired ts t').
  { intros t'. unfold fired. split.
    - intros [(s' & a' & [?|?]%Hin)|[?|[= ->]]%Hin]; eauto. done.
    - intros [(s' & a' & [[= -> -> ->]|?]%Hin')|[?|?]%Hin']; eauto. done. }
  destruct Ht as [T1 T2 T3 T4 T5 T6 T7]. exists (v_with_reg reg' v). constructor; cbn [sy_client sy_timers on_timers].
  - done.
  - intros x p Hx. apply Hreg, Hsub, Hx.
  - constructor; cbn [v_armed v_timers v_next v_with_reg v_reg v_out]; try done.
    + intros x p Hd. by apply T1, (ag_less _ _ _ _ Hag).
    + intros t' x p Hq. destruct (T2 t' x p Hq) as [Hlk|]; [|by right]. left. apply Hkeep; [done|].
      intros [-> ->]. eauto.
    + intros t' s q t1 s1 Hq [?|?]%Hin; [eauto|done].
    + intros t' H%Hf. by apply T6.
    + intros t' Hl. rewrite Hf. by apply T7.
  - by apply (aged_phase v).
Qed.

Lemma cut_prune v σ ts1 ts2 t c :
  cut_inv v σ → sy_timers σ = ts1 ++ TPrune t :: ts2 → pruneTimer t (sy_client σ) = (c, Ok tt) →
  ∃ v', cut_inv v' (on_timers c (ts1 ++ ts2) σ).
Proof.
  intros [Hsh Hreg Ht Hp] Hi Hr.
  destruct (takes_run _ _ _ _ _ _ _ (takes_pruneTimer v t) Hsh Hr) as [_ Hsh']. clear Hr.
  assert (Hin : ∀ x, x ∈ sy_timers σ ↔ x ∈ ts1 ++ ts2 ∨ x = TPrune t).
  { intros x. rewrite Hi, !elem_of_app, elem_of_cons. tauto. }
  assert (Hdm : ∀ w x p, v_armed w = v_armed v → doomed w (ts1 ++ ts2) x p ↔ doomed v (sy_timers σ) x p).
  { intros w x p Hw. unfold doomed. rewrite Hw. setoid_rewrite Hin. split; [intros [|(t' & ?)]; eauto|].
    intros [|(t' & [?|?])]; eauto. done. }
  assert (Hfd : ∀ t', fired (ts1 ++ ts2) t' → fired (sy_timers σ) t').
  { intros t' [(s' & a' & ?)|?]; [left; exists s', a'|right]; apply Hin; by left. }
  destruct Ht as [T1 T2 T3 T4 T5 T6 T7]. eexists. constructor; cbn [sy_client sy_timers on_timers].
  - exact Hsh'.
  - done.
  - constructor; cbn [v_armed v_timers v_next v_with_timers v_reg v_out]; try done.
    + intros x p Hd. apply Hdm in Hd; [|done]. by apply T1.
    + intros t1 s q t' s' Hq Hm. apply (T4 t1 s q t' s'); [done|]. apply Hin. by left.
    + intros t' x Hq. destruct (T5 t' x Hq) as [H1 H2]. split; [|done].
      apply list_elem_of_filter. split; [|done]. intros ->.
      destruct (T6 t) as [H3 _]; [right; apply Hin; by right|]. congruence.
    + intros t' Hf. by apply T6, Hfd.
    + intros t' [Hne Hl]%list_elem_of_filter. destruct (T7 t' Hl) as [|[(s' & a' & Hx)|Hx]]; [by left|..]; right.
      * apply Hin in Hx as [Hx|?]; [|done]. left. eauto.
      * apply Hin in Hx as [Hx|[= ->]]; [by right|done].
  - apply (aged_phase v); [by constructor| |done|done].
    constructor; try done; [intros x p; by apply Hdm|intros x p Hd _; by apply Hdm].
Qed.

(** *** Receiving, sending and the callers of the tunnel *)

Lemma cut_quiet v σ c : cut_inv v σ → shows v c → cut_inv v (on_client c σ).
Proof. intros [_ Hreg Ht Hp] Hsh. by constructor. Qed.

Lemma hoare_keepaliveTick v ok cancelled : hoare (shows v) (keepaliveTick ok cancelled) (λ _, True).
Proof.
  eapply hoare_bind; [apply hoare_get|]. intros c Hc. destruct (cl_session c); [|by apply hoare_ret].
  destruct ok; [|by apply hoare_ret]. eapply hoare_bind; [apply hoare_put; by destruct Hc|].
  intros. by apply hoare_ret.
Qed.

Lemma hoare_user v m : user_call m → hoare (shows v) m (λ _, True).
Proof.
  destruct 1 as [| | | |fn].
  - eapply hoare_bind; [apply hoare_theTunnel|]. intros t Ht. by apply hoare_set_tun.
  - eapply hoare_bind; [apply hoare_theTunnel|]. intros t Ht. by apply hoare_set_tun.
  - eapply hoare_bind with (Q := λ _, True); [|intros; by apply hoare_ret].
    eapply hoare_bind; [apply hoare_theTunnel|]. intros t Ht. cbv zeta.
    eapply hoare_bind; [by apply hoare_set_tun|]. intros. by apply hoare_ret.
  - eapply hoare_bind; [apply hoare_theTunnel|]. intros t Ht. by apply hoare_set_tun.
  - destruct fn; [by apply hoare_quiet|by apply hoare_ret].
Qed.

(** Nothing but the grace timers looks at the clock. *)
Lemma cut_time v σ n : cut_inv v σ → cut_inv (v_with_now n v) (on_client (set_now n (sy_client σ)) σ).
Proof.
  intros [Hsh Hreg Ht Hp]. constructor; cbn [sy_client sy_timers on_client].
  - destruct Hsh as [Hv ? ?]. destruct (view_of_inv _ _ Hv) as (t & m & Htn & Hm & ->). by show_view.
  - done.
  - apply (timers_mono v); auto.
  - exact (aged_phase v (v_with_now n v) σ (set_now n (sy_client σ)) (sy_timers σ) Ht ltac:(by constructor) (λ H, H) Hp).
Qed.

(** *** The supervisor revives the tunnel *)

Lemma foldr_delete_lookup {A} (m : gmap nat A) l t :
  foldr delete m l !! t = if decide (t ∈ l) then None else m !! t.
Proof.
  induction l as [|x l IH]; cbn [foldr]; [by rewrite decide_False by apply not_elem_of_nil|].
  destruct (decide (t = x)) as [->|Hne].
  - rewrite lookup_delete_eq, decide_True; [done|apply elem_of_cons; by left].
  - rewrite lookup_delete_ne, IH by done. apply decide_ext. rewrite elem_of_cons. tauto.
Qed.

(** Stopping the listed timers disarms all of them. *)
Lemma stop_disarms v ts : timers_ok v ts → foldr delete (v_armed v) (v_timers v) = ∅.
Proof.
  intros Ht. apply map_empty. intros t. rewrite foldr_delete_lookup. destruct (decide _) as [|Hn]; [done|].
  destruct (v_armed v !! t) eqn:Ha; [|done]. by destruct (to_listed _ _ Ht _ _ Ha).
Qed.

Lemma cut_stop v σ c :
  cut_inv v σ → sy_super σ = Dying → sy_driver σ = DIdle → sy_queue σ = [] →
  (_ ← closeSession; stopGraceTimers) (sy_client σ) = (c, Ok tt) → ∃ v', cut_inv v' (on_super c Stopped σ).
Proof.
  intros [Hsh Hreg Ht Hp] Hdy Hd Hq Hr.
  destruct (takes_run _ _ _ _ _ _ _ (takes_stop v) Hsh Hr) as [_ Hsh']. clear Hr.
  destruct (up_phase v σ Hp) as (_ & _ & s & _ & _ & _ & Hin); [right; right; by right|].
  rewrite Hd in Hin. destruct Hin as (u0 & Hlen & _).
  cbn [v_armed v_timers v_due v_next v_with_session] in Hsh'. rewrite (stop_disarms v _ Ht) in Hsh'. destruct Ht as [T1 T2 T3 T4 T5 T6 T7].
  eexists. constructor; [exact Hsh'|done| |].
  - constructor; cbn [v_armed v_timers v_next v_with_timers v_reg v_out]; try (intros *; by rewrite lookup_empty).
    + intros x p [(t & Hx)|Hx]; [cbn in Hx; by rewrite lookup_empty in Hx|]. apply T1. by right.
    + intros t Hf. rewrite lookup_empty. split; [done|]. by apply T6.
    + intros t Hx. by apply not_elem_of_nil in Hx.
  - right. by split_and!.
Qed.

Lemma down_phase v σ :
  phase v σ → ¬ workers_up σ →
  sy_driver σ = DIdle ∧ sy_queue σ = [] ∧ v_armed v = ∅ ∧ reviving v (sy_timers σ) (sy_super σ).
Proof. intros [[? _]|?] ?; done. Qed.

Lemma not_up σ sup : sy_super σ = sup → sup ≠ Running → sup ≠ Dying → ¬ workers_up σ.
Proof. intros Hs H1 H2 [H|H]; congruence. Qed.

Lemma cut_buildNew v σ s ch c r :
  cut_inv v σ → sy_super σ = Redialled s → child s = Some ch →
  espSAFromChild ch (sy_client σ) = (c, r) → ∃ p v', r = Ok p ∧ cut_inv v' (on_super c (Built s p) σ).
Proof using HL.
  intros [Hsh Hreg Ht Hp] Hs Hch Hr.
  destruct (down_phase v σ Hp) as (Hd & Hq & Ha & Hrv); [by eapply not_up|].
  rewrite Hs in Hrv. destruct Hrv as [Hdial Hlen].
  destruct (rd_child _ Hdial) as (ch' & Hch' & Hok). assert (ch' = ch) as -> by (cbn in Hch'; congruence).
  destruct (takes_espSAFromChild v ch Hok) as (sa & Htk & Hsp & Hi).
  destruct (Htk _ Hsh) as (c' & Hc' & Hsh'). rewrite Hr in Hc'. injection Hc' as -> ->.
  exists (length (v_sas v)), (v_with_sas (v_sas v ++ [static sa]) v). split; [done|].
  constructor; cbn [sy_client sy_timers on_super]; [done|by apply registered_app|by apply grow_timers|].
  right. split_and!; [done..|]. cbn. rewrite length_app. cbn. split_and!; [done|lia|done|].
  exists ch. split; [done|]. by apply grow_speaks.
Qed.

Lemma cut_reset v σ s ch p c :
  cut_inv v σ → sy_super σ = Built s p → child s = Some ch →
  resetInbound (ch_InitiatorSPI ch) p (sy_client σ) = (c, Ok tt) →
  ∃ v', cut_inv v' (on_super c (ResetDone s p) σ).
Proof.
  intros [Hsh Hreg Ht Hp] Hs Hch Hr.
  destruct (down_phase v σ Hp) as (Hd & Hq & Ha & Hrv); [by eapply not_up|].
  rewrite Hs in Hrv. destruct Hrv as (Hdial & Hlen & -> & ch' & Hch' & Hsp).
  assert (ch' = ch) as -> by congruence.
  destruct (takes_run _ _ _ _ _ _ _ (takes_resetInbound v (ch_InitiatorSPI ch) (S (v_out v))) Hsh Hr) as [_ Hsh'].
  eexists. constructor; [exact Hsh'| | |]; cbn [sy_timers on_super].
  - intros x q Hx. cbn in Hx. apply lookup_singleton_Some in Hx as [<- <-].
    destruct Hsp as (sa & ? & _ & ?). by exists sa.
  - apply (timers_mono v); auto. intros t x q Hx. by rewrite Ha, lookup_empty in Hx.
  - right. split_and!; [done..|]. cbn. split_and!; [done..| |].
    + exists ch. split; [done|]. split; [done|]. apply lookup_singleton_eq.
    + intros x q Hx _. cbn in Hx. apply lookup_singleton_Some in Hx as [_ <-]. by left.
Qed.

Lemma cut_store v σ s p c :
  cut_inv v σ → sy_super σ = ResetDone s p → adopt s (sy_client σ) = (c, Ok tt) →
  ∃ v', cut_inv v' (on_super c (Stored s p) σ).
Proof.
  intros [Hsh Hreg Ht Hp] Hs Hr.
  destruct (down_phase v σ Hp) as (Hd & Hq & Ha & Hrv); [by eapply not_up|].
  rewrite Hs in Hrv. destruct Hrv as (Hdial & Hlen & -> & (ch & Hch & Hcur) & Hcov).
  exists (v_with_session (Some s) v). constructor; cbn [sy_client sy_timers on_super].
  - injection Hr as <-. destruct Hsh as [Hv ? ?]. destruct (view_of_inv _ _ Hv) as (tn & m & Htn & Hm & ->). by show_view.
  - done.
  - apply (timers_mono v); auto.
  - right. split_and!; [done..|]. cbn. split_and!; [done..| |done]. exists ch. split; [done|]. by destruct Hcur.
Qed.

Lemma cut_readdress v σ s p tc c :
  cut_inv v σ → sy_super σ = Stored s p → Reconfigure p tc (sy_client σ) = (c, Ok tt) →
  ∃ v', cut_inv v' (on_super c Readdressed σ).
Proof.
  intros [Hsh Hreg Ht Hp] Hs Hr.
  destruct (down_phase v σ Hp) as (Hd & Hq & Ha & Hrv); [by eapply not_up|].
  rewrite Hs in Hrv. destruct Hrv as (Hdial & Hlen & -> & Hsess & (ch & Hch & Hcur) & Hcov).
  destruct (takes_run _ _ _ _ _ _ _ (takes_Reconfigure v (S (v_out v)) tc) Hsh Hr) as [_ Hsh'].
  eexists. constructor; [exact Hsh'|done| |]; cbn [sy_timers on_super].
  - apply (timers_mono v); auto. cbn. lia.
  - right. split_and!; [done..|]. cbn. split; [done|]. exists s, ch. split_and!; [done..| |done]. by destruct Hcur.
Qed.

Lemma cut_start v σ c :
  cut_inv v σ → sy_super σ = Readdressed → (_ ← fireRekey; startWorkers) (sy_client σ) = (c, Ok tt) →
  ∃ v', cut_inv v' (on_super c Running σ).
Proof.
  intros [Hsh Hreg Ht Hp] Hs Hr.
  destruct (down_phase v σ Hp) as (Hd & Hq & Ha & Hrv); [by eapply not_up|].
  rewrite Hs in Hrv. destruct Hrv as (Hlen & s & ch & Hdial & Hsess & Hch & Hcur & Hcov).
  exists (v_with_session (Some (SetDataPlane s)) v). constructor; cbn [sy_client sy_timers on_super].
  - destruct Hsh as [Hv ? ?]. destruct (view_of_inv _ _ Hv) as (tn & m & Htn & Hm & Hveq).
    revert Hr. unfold startWorkers, theSession, fireRekey. rewrite Hveq in Hsess. cbn in Hsess. st_step.
    cbn [cl_session set_rekeyed]. rewrite Hsess. st_step. intros [= <-]. rewrite Hveq. by show_view.
  - done.
  - apply (timers_mono v); auto.
  - left. split; [by left|]. split; [cbn; by rewrite Hq|]. exists (SetDataPlane s).
    split_and!; [done|apply Hdial|intros q cc Hpd; by rewrite (rd_idle _ Hdial) in Hpd|].
    cbn [sy_driver sy_queue sy_timers on_super]. rewrite Hd. exists (first_update ch).
    split_and!; [done|by destruct Hcur| |done]. rewrite Hq. by apply heir_first, Hdial.
Qed.

(** *** Every step *)

Lemma cut_step v σ σ' : cut_inv v σ → step σ σ' → ∃ v', cut_inv v' σ'.
Proof using HL HW.
  intros Hi Hstep. destruct Hstep.
  - eexists. by eapply cut_event.
  - by eapply cut_build.
  - by destruct (cut_unbuildable v σ u q c).
  - by eapply cut_add.
  - by eapply cut_swap.
  - by eapply cut_retire.
  - by eapply cut_fire.
  - by eapply cut_remove.
  - by eapply cut_prune.
  - exists v. apply cut_quiet; [done|].
    destruct (hoare_rxDatagram v nowNano raw (ci_reg _ _ Hi) H0 _ (ci_shows _ _ Hi)) as [Hs _]. by rewrite H1 in Hs.
  - exists v. apply cut_quiet; [done|].
    destruct (hoare_keepaliveTick v ok cancelled _ (ci_shows _ _ Hi)) as [Hs _]. by rewrite H0 in Hs.
  - exists v. apply cut_quiet; [done|]. destruct (cut_out v σ Hi) as [sa Hsa].
    destruct (hoare_Write v sa p iv ok closing Hsa _ (ci_shows _ _ Hi)) as [Hs _]. by rewrite H in Hs.
  - exists v. apply cut_quiet; [done|].
    destruct (hoare_user v m H _ (ci_shows _ _ Hi)) as [Hs _]. by rewrite H0 in Hs.
  - eexists. by apply cut_time.
  - by eapply cut_stop.
  - exists v. destruct Hi as [Hsh Hreg Ht Hp]. constructor; [done..|].
    destruct (down_phase v σ Hp) as (? & ? & ? & Hrv); [by eapply not_up|]. rewrite H in Hrv.
    right. by split_and!.
  - destruct (cut_buildNew v σ s ch c (Ok p)) as (p' & v' & [= <-] & ?); eauto.
  - by destruct (cut_buildNew v σ s ch c (Err e)) as (p' & v' & ? & ?).
  - by eapply cut_reset.
  - by eapply cut_store.
  - by eapply cut_readdress.
  - by eapply cut_start.
Qed.

Lemma cut_reachable v σ σ' : cut_inv v σ → rtc step σ σ' → ∃ v', cut_inv v' σ'.
Proof using HL HW.
  intros Hi Hr. revert v Hi. induction Hr as [|σ1 σ2 σ3 Hs _ IH]; [by eauto|]. intros v Hi.
  destruct (cut_step v σ1 σ2 Hi Hs) as [v' Hi']. eauto.
Qed.

(** *** The grace period *)

(** A step within one generation of workers. *)
Definition gen_step (σ σ' : System) : Prop := step σ σ' ∧ workers_up σ'.

(** The SA at [p] cannot be found under its SPI: that SPI is 0, or a later SA has it. *)
Definition overtaken (v : view) (p : nat) : Prop :=
  ∃ x, spi_at v p = Some x ∧ (x = 0 ∨ ∃ q, (p < q)%nat ∧ spi_at v q = Some x).

(** Until [D] the SA at [p] is kept for someone: it is the tunnel's, or its timer is about
    to be armed, or is armed and not due before [D]. *)
Definition kept (v : view) (d : driver_pc) (D : Z) (p : nat) : Prop :=
  v_out v = p ∨ (∃ u, d = DSwapped u (Some p)) ∨
  ∃ k spi due, v_armed v !! k = Some (spi, Some p) ∧ v_due v !! k = Some due ∧ D ≤ due.

Definition graced (v : view) (d : driver_pc) (D : Z) (p : nat) : Prop :=
  D - childSAGrace ≤ v_now v ∧ (D ≤ v_now v ∨ overtaken v p ∨ kept v d D p).

Lemma shows_eq v v' c : shows v c → shows v' c → v = v'.
Proof. intros [H _ _] [H' _ _]. congruence. Qed.

Lemma overtaken_mono v v' p :
  (∀ q x, spi_at v q = Some x → spi_at v' q = Some x) → overtaken v p → overtaken v' p.
Proof. intros Hm (x & Hx & Ho). exists x. split; [auto|]. destruct Ho as [|(q & ? & ?)]; eauto. Qed.

(** A step that lets go of nothing. *)
Lemma graced_mono v v' d d' D p :
  graced v d D p → v_now v ≤ v_now v' → (∀ q x, spi_at v q = Some x → spi_at v' q = Some x) →
  (kept v d D p → D ≤ v_now v' ∨ overtaken v' p ∨ kept v' d' D p) → graced v' d' D p.
Proof.
  intros [Hn Hg] Hle Hs Hk. split; [lia|]. destruct Hg as [|[|]]; [left; lia|right; left; by eapply overtaken_mono|auto].
Qed.

Lemma kept_same v v' d d' D p :
  v_out v' = v_out v → v_armed v' = v_armed v → v_due v' = v_due v → (∀ u, d = DSwapped u (Some p) → d' = d) →
  kept v d D p → kept v' d' D p.
Proof.
  unfold kept. intros -> -> -> Hd [?|[(u & Hu)|?]]; [by left| |by right; right].
  right. left. exists u. by rewrite (Hd u Hu).
Qed.

Lemma graced_event v s d D p : graced v d D p → graced (v_with_session s v) d D p.
Proof. intros [Hn Hg]. by split. Qed.

Lemma graced_build v σ u q c p D r :
  cut_inv v σ → sy_driver σ = DIdle → sy_queue σ = u :: q → buildChildSA u (sy_client σ) = (c, Ok (Some r)) →
  graced v DIdle D p → ∃ v', shows v' c ∧ graced v' (DBuilt u r) D p.
Proof using HL.
  intros [Hsh _ _ Hp] Hd Hq Hb Hg.
  destruct (up_phase v σ Hp) as (_ & Hfit & _); [right; left; by rewrite Hq|].
  rewrite Hq in Hfit. apply Forall_cons_1 in Hfit as [Hu _]. destruct (takes_buildChildSA v u Hu) as (sa & Htk & _).
  destruct (takes_run _ _ _ _ _ _ _ Htk Hsh Hb) as [_ Hsh']. eexists. split; [exact Hsh'|].
  eapply graced_mono; [exact Hg|done|intros; by apply spi_at_app|]. intros Hk. right. right. by apply (kept_same v _ DIdle).
Qed.

Lemma graced_swap v σ u r sup c D p :
  cut_inv v σ → sy_driver σ = DAdded u r sup → SwapSA r (sy_client σ) = (c, Ok tt) →
  graced v (DAdded u r sup) D p → ∃ v', shows v' c ∧ graced v' (DSwapped u sup) D p.
Proof using HL.
  intros [Hsh _ _ Hp] Hd Hb Hg.
  destruct (up_phase v σ Hp) as (_ & _ & s & _ & _ & _ & Hin); [left; by rewrite Hd|].
  rewrite Hd in Hin. destruct Hin as (u0 & _ & _ & _ & -> & _).
  destruct (takes_run _ _ _ _ _ _ _ (takes_SwapSA v r) Hsh Hb) as [_ Hsh']. eexists. split; [exact Hsh'|].
  eapply graced_mono; [exact Hg|done|done|]. intros [<-|[(u' & [=])|Hk]]; right; right; right; [left; eauto|by right].
Qed.

Lemma graced_retire v σ u sup c D p :
  cut_inv v σ → sy_driver σ = DSwapped u sup → (_ ← fireRekey; retireOld u sup) (sy_client σ) = (c, Ok tt) →
  graced v (DSwapped u sup) D p → ∃ v', shows v' c ∧ graced v' DIdle D p.
Proof using HL.
  intros [Hsh _ Ht Hp] Hd Hb Hg.
  destruct (up_phase v σ Hp) as (_ & _ & s & _ & _ & _ & Hin); [left; by rewrite Hd|].
  rewrite Hd in Hin. destruct Hin as (q0 & _ & [Hsp _] & -> & Hlt & Hspi & _).
  pose proof (takes_bind _ (λ _, retireOld u (Some q0)) _ _ _ _ _ (takes_fireRekey v) (takes_retireOld v u (Some q0))) as Htk.
  destruct (takes_run _ _ _ _ _ _ _ Htk Hsh Hb) as [_ Hsh']. eexists. split; [exact Hsh'|]. clear Htk Hb Hsh'.
  pose proof (proj1 Hg) as Hnow. destruct (_ && _) eqn:Hc.
  - eapply graced_mono; [exact Hg|done|done|]. intros [?|[(u' & [= <- <-])|(k & x & due & Hk & Hdue & Hle)]]; right; right.
    + by left.
    + right. right. exists (v_next v), (OldInSPI u), (v_now v + childSAGrace). cbn. rewrite !lookup_insert_eq.
      split_and!; [done|done|lia].
    + right. right. exists k, x, due. destruct (to_listed _ _ Ht _ _ Hk) as [_ Hlk]. cbn.
      by rewrite !lookup_insert_ne by lia.
  - eapply graced_mono; [exact Hg|done|done|]. intros [?|[(u' & [= <- <-])|Hk]]; right;
      [right; by left|left|right; by right; right].
    exists (OldInSPI u). split; [done|]. apply andb_false_iff in Hc as [Hc|Hc]; bool_prop; [by left|right].
    exists (v_out v). split; [done|]. rewrite Hc. by apply speaks_at_spi.
Qed.

Lemma graced_fire v σ t due spi sa d D p :
  cut_inv v σ → cl_armed (sy_client σ) !! t = Some (due, (spi, sa)) → due ≤ cl_now (sy_client σ) →
  graced v d D p →
  ∃ v', shows v' (set_armed (delete t (cl_armed (sy_client σ))) (sy_client σ)) ∧ graced v' d D p.
Proof.
  intros [[Hv ? ?] _ _ _] Ha Hle Hg. destruct (view_of_inv _ _ Hv) as (tn & m & Htn & Hm & ->).
  eexists. split.
  { split; [|done..]. unfold view_of. cbn. rewrite Htn, Hm. reflexivity. }
  eapply graced_mono; [exact Hg|done|done|]. cbn. intros [?|[?|(k & x & due' & Hk & Hdue & HD)]]; [right; right; by left|right; right; by right; left|].
  cbn in Hk, Hdue. destruct (decide (k = t)) as [->|Hne].
  - left. rewrite lookup_fmap, Ha in Hdue. cbn in Hdue. injection Hdue as <-. lia.
  - right. right. right. right. exists k, x, due'. cbn. by rewrite !fmap_delete, !lookup_delete_ne by done.
Qed.

(** For the grace period nothing a step does lets go of the SA. *)
Lemma graced_step v σ σ' D p :
  cut_inv v σ → workers_up σ → gen_step σ σ' → graced v (sy_driver σ) D p →
  ∃ v', cut_inv v' σ' ∧ graced v' (sy_driver σ') D p.
Proof using HL HW.
  intros Hi Hup [Hst Hup'] Hg. destruct (cut_step v σ σ' Hi Hst) as [v' Hi']. exists v'. split; [done|].
  assert (Hview : ∀ w, shows w (sy_client σ') → w = v') by (intros w Hw; by eapply shows_eq, ci_shows).
  assert (Hsuff : (∃ w, shows w (sy_client σ') ∧ graced w (sy_driver σ') D p) → graced v' (sy_driver σ') D p).
  { intros (w & Hw & Hgw). by rewrite <- (Hview w Hw). }
  apply Hsuff. clear Hsuff Hview. pose proof (ci_shows _ _ Hi) as Hsh.
  destruct Hst; cbn [sy_client sy_driver on_driver on_client on_timers on_super] in *.
  - eexists. split; [|rewrite H0 in Hg; by apply (graced_event v (Some s'))].
    destruct Hsh as [Hv ? ?]. destruct (view_of_inv _ _ Hv) as (t & m & Htn & Hm & ->). by show_view.
  - rewrite H in Hg. exact (graced_build v σ u q c p D p0 Hi H H0 H1 Hg).
  - by destruct (cut_unbuildable v σ u q c).
  - rewrite H in Hg. destruct (takes_run _ _ _ _ _ _ _ (takes_addInbound v u p0) Hsh H0) as [_ Hsh'].
    eexists. split; [exact Hsh'|]. eapply graced_mono; [exact Hg|done|done|]. intros Hk. right. right.
    by apply (kept_same v _ (DBuilt u p0)).
  - rewrite H in Hg. exact (graced_swap v σ u p0 sup c D p Hi H H0 Hg).
  - rewrite H in Hg. exact (graced_retire v σ u sup c D p Hi H H0 Hg).
  - exact (graced_fire v σ t due spi sa _ D p Hi H H0 Hg).
  - destruct (takes_run _ _ _ _ _ _ _ (takes_removeInbound v spi sa) Hsh H0) as [_ Hsh']. by eexists.
  - destruct (takes_run _ _ _ _ _ _ _ (takes_pruneTimer v t) Hsh H0) as [_ Hsh']. by eexists.
  - exists v. split; [|done].
    destruct (hoare_rxDatagram v nowNano raw (ci_reg _ _ Hi) H0 _ Hsh) as [Hs _]. by rewrite H1 in Hs.
  - exists v. split; [|done]. destruct (hoare_keepaliveTick v ok cancelled _ Hsh) as [Hs _]. by rewrite H0 in Hs.
  - exists v. split; [|done]. destruct (cut_out v σ Hi) as [sa Hsa].
    destruct (hoare_Write v sa p0 iv ok closing Hsa _ Hsh) as [Hs _]. by rewrite H in Hs.
  - exists v. split; [|done]. destruct (hoare_user v m H _ Hsh) as [Hs _]. by rewrite H0 in Hs.
  - exists (v_with_now n v). split; [exact (ci_shows _ _ (cut_time v σ n Hi))|].
    assert (v_now v = cl_now (sy_client σ)) as Hn.
    { destruct Hsh as [Hv _ _]. by destruct (view_of_inv _ _ Hv) as (t & m & _ & _ & ->). }
    eapply graced_mono; [exact Hg|cbn; lia|done|]. intros Hk. right. right. by apply (kept_same v _ (sy_driver σ)).
  - by destruct Hup'.
  - by destruct Hup'.
  - by destruct Hup'.
  - by destruct (not_up σ (Redialled s)).
  - by destruct Hup'.
  - by destruct Hup'.
  - by destruct Hup'.
  - by destruct (not_up σ Readdressed).
Qed.

Lemma graced_run v σ σ' D p :
  cut_inv v σ → workers_up σ → rtc gen_step σ σ' → graced v (sy_driver σ) D p →
  ∃ v', cut_inv v' σ' ∧ workers_up σ' ∧ graced v' (sy_driver σ') D p.
Proof using HL HW.
  intros Hi Hup Hr. revert v Hi Hup. induction Hr as [|σ1 σ2 σ3 Hs _ IH]; [by eauto|]. intros v Hi Hup Hg.
  destruct (graced_step v σ1 σ2 D p Hi Hup Hs Hg) as (v' & Hi' & Hg'). destruct Hs as [_ Hup']. eauto.
Qed.
End invariant.
