(* ===== verification/ClientProps.v ===== *)
(** * What a dialled client guarantees

    The handshake, the driver and the data plane together: the session a handshake
    returns can always be given a data plane, and from then on, however the
    goroutines of the client interleave, across rekeys and reconnects, the tunnel
    runs on the Child SA the session negotiated, nothing that is still in use is
    removed and nothing that is not stays. *)

From stdpp Require Import gmap relations.
From S2P Require Import Prelude Replay IkePayload IkeMsg Crypto Esp IkeSA Suite Natt Protected Session Rekey Driver.
From S2P Require Import Stable Invariant Demo DriverProps Lineage Eap Auth SaInit IkeAuth Config DataPlane Client.
From S2P Require Import Handshake HandshakeAuth HandshakeDemo HandshakeProps Cutover.

(** ** The handshake leaves a session to build a data plane on *)

Definition claim (s : Session) : option pendingExchange * Z * list ChildSAUpdate :=
  (pending s, childInitiatorSPI s, installed s).

#[export] Instance claim_ignores : Ignores claim.
Proof. constructor; [by constructor|done..]. Qed.

Definition unpledged (s : Session) : Prop :=
  pending s = None ∧ is_u32 (childInitiatorSPI s) ∧ installed s = [].

Definition pledges {A} (m : HM A) : Prop := ∀ s, unpledged s → safe (m s).2 → unpledged (m s).1.

Lemma pledges_stable {A} (m : HM A) : stable claim m → pledges m.
Proof. intros Hm s Hs Hr. specialize (Hm s Hr). injection Hm as H1 H2 H3. unfold unpledged. by rewrite H1, H2, H3. Qed.

Lemma pledges_bind {A B} (m : HM A) (f : A → HM B) : pledges m → (∀ a, pledges (f a)) → pledges (m ≫= f).
Proof.
  intros Hm Hf s Hs. unfold mbind, ST_bind. specialize (Hm s Hs).
  destruct (m s) as [s' [a|e| |]]; cbn in *; [|by auto..]. intros Hr. by apply Hf; [apply Hm|].
Qed.

Lemma pledges_run {A} (m : HM A) s s' a : pledges m → unpledged s → m s = (s', Ok a) → unpledged s'.
Proof. intros Hm Hs Hr. specialize (Hm s Hs). rewrite Hr in Hm. by apply Hm. Qed.

Ltac pledges :=
  repeat lazymatch goal with
    | |- pledges (_ ≫= _) => apply pledges_bind; [|intros ?]
    | |- pledges (let '(_, _) := ?x in _) => destruct x
    | |- pledges (let _ := _ in _) => cbv zeta
    | |- pledges (if ?b then _ else _) => destruct b
    | |- pledges (match ?x with _ => _ end) => destruct x
    | |- pledges _ => first [assumption | apply pledges_stable; solve [sess_stable]]
    end.

Section ready.
Context {P : Primitives} {HL : PrimitiveLaws P} {W : World} {HW : WorldLaws W}.
Context {N : Network} {HN : NetworkLaws N} {R : Radius} {X : X509}.

Lemma pledges_allocChildSPI : pledges allocChildSPI.
Proof using HW.
  intros s (Hp & Hu & Hn). unfold allocChildSPI, sess, wrapST, randBytes, tick. rewrite st_mbind_run. st_step.
  destruct (w_rand (calls s) 4) as [b|] eqn:Hb; st_step; [|done].
  destruct (rand_len _ _ _ Hb) as [Hl Hok]. cbn [wrap_err]. st_step. rewrite be_read_ok by lia. st_step. intros _. split; [done|]. split; [|done].
  apply (be_read_bound (E:=hs_error) 4 b); [done|]. rewrite be_read_ok by lia. done.
Qed.

Lemma pledges_handshake : pledges handshake.
Proof using HW.
  pose proof pledges_allocChildSPI. unfold handshake, IKEAuth, ikeAuthPSK, ikeAuthEAP, handleFinalAuthResponse, selectChild.
  pledges.
Qed.

Lemma handshake_runs s0 s :
  handshake s0 = (s, Ok tt) → ∃ s1, IKESAInit s0 = (s1, Ok tt) ∧ IKEAuth s1 = (s, Ok tt).
Proof using Type. unfold handshake. intros H. run_step H u s1 H1. destruct u. eauto. Qed.

Lemma child_from_ok s1 ike ps s :
  child_from s1 ike ps s → is_u32 (childInitiatorSPI s) → ∃ ch, child s = Some ch ∧ child_ok ch.
Proof using HL.
  intros (prop & props & suite & ch & _ & Hsel & Hch & Hsu & _ & Hout & Hin & Hkeys) Hspi.
  exists ch. split; [exact Hch|].
  assert (Hs : suite ∈ espSuites) by (by eapply enabledSuites_sub, selectedSuite_in).
  destruct (suite_lens LayerESP suite Hs) as (? & ? & _).
  apply DeriveChildKeys_ok in Hkeys as [(L1 & L2 & L3 & L4) Hb]; [|lia..].
  constructor; [by rewrite Hin|exact Hout| |exact Hb]. rewrite Hsu. by apply suite_keymat.
Qed.

Lemma handshake_unpledged c s : handshake (New c) = (s, Ok tt) → unpledged s.
Proof using HW.
  intros Hr. refine (pledges_run _ _ _ _ pledges_handshake _ Hr). by split.
Qed.

Lemma IKEAuth_ready c s1 s :
  keyed c s1 → messageID s1 = 1 → IKEAuth s1 = (s, Ok tt) → unpledged s → ready (SetDataPlane s).
Proof using HL HW HN.
  intros Hk Hm Hr (Hpend & Hspi & Hnew).
  destruct (IKEAuth_outcome c s1 s Hk Hm Hr) as (ike & _ & Hau & _ & secret & ps & _ & Hch & _).
  destruct (child_from_ok _ _ _ _ Hch Hspi) as (ch & H1 & H2).
  constructor; [apply Hau|exact Hpend|exact Hnew|exists ch; split; [exact H1|exact H2]].
Qed.

Lemma handshake_ready c s : handshake (New c) = (s, Ok tt) → ready (SetDataPlane s).
Proof using HL HW HN.
  intros Hr. pose proof (handshake_unpledged c s Hr) as Hpl.
  destruct (handshake_runs _ _ Hr) as (s1 & H1 & H2). destruct (IKESAInit_keyed c s1 H1) as [Hk Hm].
  exact (IKEAuth_ready c s1 s Hk Hm H2 Hpl).
Qed.
End ready.

(** ** Launching the data plane *)

(** The client's goroutines as Dial leaves them. *)
Definition launched (c : Client) : System :=
  {| sy_client := c; sy_queue := []; sy_driver := DIdle; sy_timers := []; sy_super := Running |}.

Section launch.
Context {P : Primitives} {HL : PrimitiveLaws P}.

Lemma launch cfg s :
  ready (SetDataPlane s) → is_u32 (cc_ReplayWindow cfg) →
  ∃ c v, (_ ← adopt s; startDataPlane) (newClient cfg) = (c, Ok tt) ∧ cut_inv v (launched c).
Proof using HL.
  intros [Hok Hidle Hnew (ch & Hch & Hchok)] Hw. cbn in Hidle, Hnew, Hch. pose proof Hchok as [Hi Ho Hfit (B1 & B2 & B3 & B4)].
  destruct (newSA_fits _ _ _ _ _ _ _ (cc_ReplayWindow cfg) Ho Hi Hw B1 B2 B3 B4 Hfit)
    as (sa & Hsa & Hsaok & Hin & _).
  unfold adopt, startDataPlane, theSession, espSAFromChild, alloc_esp, resetInbound, startWorkers, theSession.
  st_step. cbn [cl_session set_localIP set_session deref]. st_step. rewrite Hch. st_step.
  cbn [cl_ReplayWindow set_localIP set_session newClient]. rewrite Hsa. cbn [wrap_err]. st_step.
  eexists. exists {| v_out := 0; v_reg := {[ch_InitiatorSPI ch := 0%nat]}; v_sas := [static sa]; v_armed := ∅;
                     v_due := ∅; v_now := 0; v_timers := []; v_next := 0; v_session := Some (SetDataPlane s) |}.
  split; [reflexivity|].
  assert (Hsp : speaks (static sa) (first_update ch)) by (by exists (cc_ReplayWindow cfg), sa).
  constructor.
  - split; [reflexivity|by constructor|done].
  - intros spi p Hp. cbn in Hp. apply lookup_singleton_Some in Hp as [<- <-]. by exists (static sa).
  - constructor; cbn; try (intros *; by rewrite lookup_empty).
    + intros spi q [(t & Ht)|(t & Ht)]; [cbn in Ht; by rewrite lookup_empty in Ht|by apply not_elem_of_nil in Ht].
    + intros t [(? & ? & Ht)|Ht]; by apply not_elem_of_nil in Ht.
    + intros t Ht. by apply not_elem_of_nil in Ht.
  - left. split; [by left|]. split; [done|]. exists (SetDataPlane s). split_and!; [done|done| |].
    + intros p cc Hp. cbn in Hp. congruence.
    + exists (first_update ch). split_and!; [done| | |].
      * split; [by exists (static sa)|]. apply lookup_singleton_eq.
      * by apply heir_first.
      * intros spi p Hp _. cbn in Hp. apply lookup_singleton_Some in Hp as [_ <-]. by left.
Qed.
End launch.

Section dialled.
Context {P : Primitives} {HL : PrimitiveLaws P} {W : World} {HW : WorldLaws W}.
Context {N : Network} {HN : NetworkLaws N} {R : Radius} {X : X509}.

Lemma validate_window cfg cfg' :
  validate cfg = Ok cfg' → is_u32 (cc_ReplayWindow cfg) → is_u32 (cc_ReplayWindow cfg').
Proof.
  unfold validate. intros H Hw. go_inv. subst cfg'. cbn [cc_ReplayWindow]. unfold is_u32, DefaultReplayWindow,
    MaxReplayWindow in *. change (Z.shiftl 1 20) with 1048576 in *. repeat case_match; bool_prop; lia.
Qed.

Lemma Dial_inv cfg c :
  Dial cfg = Ok c → ∃ cfg' s, validate cfg = Ok cfg' ∧ handshake (New (toSessionConfig cfg')) = (s, Ok tt) ∧
    (_ ← adopt s; startDataPlane) (newClient cfg') = (c, Ok tt).
Proof.
  unfold Dial, dialSession. destruct (validate cfg) as [cfg'|e| |]; [|done..]. cbn [wrap_err mbind Res_bind].
  destruct (handshake (New (toSessionConfig cfg'))) as [s [[]|e| |]] eqn:Hh; [|done..].
  destruct ((adopt s ≫= λ _, startDataPlane) (newClient cfg')) as [c' [[]|e| |]] eqn:Hs; [|done..].
  intros [= <-]. by exists cfg', s.
Qed.

Lemma Dial_launches cfg c :
  is_u32 (cc_ReplayWindow cfg) → Dial cfg = Ok c → ∃ v, cut_inv v (launched c).
Proof using HL HW HN.
  intros Hw (cfg' & s & Hv & Hh & Hs)%Dial_inv.
  destruct (launch cfg' s (handshake_ready _ _ Hh) (validate_window _ _ Hv Hw)) as (c' & v & Hc' & Hi).
  rewrite Hs in Hc'. injection Hc' as <-. eauto.
Qed.

Lemma reachable_inv cfg c σ :
  is_u32 (cc_ReplayWindow cfg) → Dial cfg = Ok c → rtc step (launched c) σ → ∃ v, cut_inv v σ.
Proof using HL HW HN.
  intros Hw Hd Hr. destruct (Dial_launches cfg c Hw Hd) as [v Hv]. by eapply cut_reachable.
Qed.

(** What a view says of the client that shows it. *)
Lemma shows_client v c :
  shows v c → ∃ t, cl_tun c = Some t ∧ tn_sa t = v_out v ∧ cl_inbound c = Some (v_reg v) ∧
    cl_session c = v_session v ∧ v_armed v = snd <$> cl_armed c ∧ v_sas v = static <$> cl_esp c.
Proof. intros [Hv _ _]. destruct (view_of_inv _ _ Hv) as (t & m & Ht & Hm & ->). by exists t. Qed.

Lemma speaks_at_client v c p u :
  shows v c → speaks_at v p u → ∃ sa, cl_esp c !! p = Some sa ∧ sa_ok sa ∧ speaks sa u.
Proof.
  intros Hs (sa & Hp & Hsp & _). destruct (shows_client v c Hs) as (t & _ & _ & _ & _ & _ & Hsas).
  rewrite Hsas, list_lookup_fmap in Hp. destruct (cl_esp c !! p) as [sa'|] eqn:Hsa; [|done].
  injection Hp as <-. exists sa'. split_and!; [done|by eapply Forall_lookup_1; [apply Hs|]|].
  destruct Hsp as (w & sa0 & ? & Heq). by exists w, sa0.
Qed.

(** C3. The tunnel runs on the Child SA the session negotiated.  From Dial on, however the
    driver, the grace timers, the receiver, writers and the supervisor interleave, whenever
    the driver is between two installations the session has a Child SA, the tunnel sends
    under an ESP SA with exactly the suite, the SPIs and, each in its direction, the keys
    the session ordered last (the keys of the handshake with the client as initiator while
    it has ordered none), these are those of the session's Child SA, and the registry
    resolves its inbound SPI to that same SA. *)
Theorem tunnel_follows_session cfg c σ :
  is_u32 (cc_ReplayWindow cfg) → Dial cfg = Ok c → rtc step (launched c) σ →
  workers_up σ → sy_driver σ = DIdle → sy_queue σ = [] →
  ∃ s ch u t m sa, cl_session (sy_client σ) = Some s ∧ session_ok s ∧
    child s = Some ch ∧ ordered s = Some u ∧ child_of u ch ∧
    cl_tun (sy_client σ) = Some t ∧ cl_inbound (sy_client σ) = Some m ∧
    cl_esp (sy_client σ) !! tn_sa t = Some sa ∧ sa_ok sa ∧ speaks sa u ∧
    m !! ch_InitiatorSPI ch = Some (tn_sa t).
Proof using HL HW HN.
  intros Hw Hd Hr Hup Hdr Hq. destruct (reachable_inv cfg c σ Hw Hd Hr) as [v [Hsh _ _ Hp]].
  destruct (up_phase v σ Hp) as (_ & _ & s & Hs & Hok & _ & Hin); [by right; right|].
  rewrite Hdr, Hq in Hin. destruct Hin as (u & _ & [Hsp Hf] & (ch & Hch & Hof & Hor)%heir_nil & _).
  destruct (shows_client v _ Hsh) as (t & Ht & Hto & Hm & Hse & _).
  destruct (speaks_at_client v _ _ u Hsh Hsp) as (sa & Hsa & Hsaok & Hsas).
  exists s, ch, u, t, (v_reg v), sa. rewrite Hto, (proj1 Hof). split_and!; congruence || done.
Qed.

(** C14. The inbound registry is exact.  Whenever the driver is between two installations,
    every SA registered under a usable SPI is the one the tunnel sends with or has a grace
    timer that will remove it (nothing superseded is kept for good), every armed timer
    is for an SA other than the tunnel's, and until it fires that SA is still found
    under its SPI, unless a later SA was given the same SPI. *)
Theorem registry_exact cfg c σ t m :
  is_u32 (cc_ReplayWindow cfg) → Dial cfg = Ok c → rtc step (launched c) σ →
  workers_up σ → sy_driver σ = DIdle →
  cl_tun (sy_client σ) = Some t → cl_inbound (sy_client σ) = Some m →
  (∀ spi p, m !! spi = Some p → spi ≠ 0 →
     p = tn_sa t ∨ (∃ k due, cl_armed (sy_client σ) !! k = Some (due, (spi, Some p))) ∨
     ∃ k, TRemove k spi (Some p) ∈ sy_timers σ) ∧
  (∀ k due spi p, cl_armed (sy_client σ) !! k = Some (due, (spi, Some p)) →
     p ≠ tn_sa t ∧
     (m !! spi = Some p ∨ ∃ p' sa, (p < p')%nat ∧ cl_esp (sy_client σ) !! p' = Some sa ∧ inSPI sa = spi)).
Proof using HL HW HN.
  intros Hw Hd Hr Hup Hdr Ht Hm. destruct (reachable_inv cfg c σ Hw Hd Hr) as [v [Hsh _ Hti Hp]].
  destruct (up_phase v σ Hp) as (_ & _ & s & Hs & Hok & _ & Hin); [by right; right|].
  rewrite Hdr in Hin. destruct Hin as (u & _ & _ & _ & Hcov).
  destruct (shows_client v _ Hsh) as (t' & Ht' & Hto & Hm' & _ & Harm & Hsas).
  rewrite Ht in Ht'. injection Ht' as <-. rewrite Hm in Hm'. injection Hm' as ->. rewrite Hto. split.
  - intros spi p Hlk Hne. destruct (Hcov spi p Hlk Hne) as [->|[(k & Hk)|Hdm]]; [by left| |by right; right].
    right. left. rewrite Harm, lookup_fmap in Hk.
    destruct (cl_armed (sy_client σ) !! k) as [[due x]|] eqn:Ha; [|done]. injection Hk as ->. eauto.
  - intros k due spi p Hk. assert (Hk' : v_armed v !! k = Some (spi, Some p)) by (by rewrite Harm, lookup_fmap, Hk).
    destruct (to_target _ _ Hti spi p) as [Hlt _]; [left; eauto|]. split; [lia|].
    destruct (to_grace _ _ Hti k spi p Hk') as [Hl|(q' & Hq & Hspi)]; [by left|right].
    unfold spi_at in Hspi. rewrite Hsas, list_lookup_fmap in Hspi.
    destruct (cl_esp (sy_client σ) !! q') as [sa|] eqn:Hsa; [|done]. injection Hspi as Hspi. by exists q', sa.
Qed.

(** No later SA was given its SPI. *)
Definition unshadowed (c : Client) (p : nat) (sa : SA) : Prop :=
  ∀ p' sa', (p < p')%nat → cl_esp c !! p' = Some sa' → inSPI sa' ≠ inSPI sa.

Lemma shadow v c p sa q x :
  shows v c → unshadowed c p sa → (p < q)%nat → spi_at v q = Some x → x ≠ inSPI sa.
Proof.
  intros Hsh Hu Hlt Hq. destruct (shows_client v c Hsh) as (_ & _ & _ & _ & _ & _ & Hsas).
  unfold spi_at in Hq. rewrite Hsas, list_lookup_fmap in Hq.
  destruct (cl_esp c !! q) as [sa'|] eqn:Hsa; [|done]. injection Hq as <-. by apply (Hu q).
Qed.

(** The tunnel's own SA is found under its SPI. *)
Lemma out_registered v σ sa :
  cut_inv v σ → workers_up σ → spi_at v (v_out v) = Some (inSPI sa) → unshadowed (sy_client σ) (v_out v) sa →
  v_reg v !! inSPI sa = Some (v_out v).
Proof.
  intros [Hsh _ _ Hp] Hup Hspi Hu.
  destruct (up_phase v σ Hp) as (_ & _ & s & _ & _ & _ & Hin); [by right; right|].
  destruct (sy_driver σ) as [|u q|u q sup|u sup]; cbn in Hin; split_hyps; subst.
  1,2,4: match goal with H : current _ (v_out _) _ |- _ =>
           destruct H as [Hs Hf]; rewrite (speaks_at_spi _ _ _ Hs) in Hspi; by injection Hspi as <- end.
  match goal with H : speaks_at v (v_out v) _ |- _ => pose proof (speaks_at_spi _ _ _ H) as Hs end.
  match goal with H : current v _ _ |- _ => pose proof (speaks_at_spi _ _ _ (cu_speaks _ _ _ H)) as Hnew end.
  match goal with H : _ ∨ _ |- _ => destruct H as [He|Hf] end; [|congruence].
  exfalso. refine (shadow v _ _ sa _ _ Hsh Hu _ Hnew _); [lia|congruence].
Qed.

(** So is one that is kept for its grace period. *)
Lemma kept_registered v σ D p sa :
  cut_inv v σ → workers_up σ → kept v (sy_driver σ) D p → cl_esp (sy_client σ) !! p = Some sa →
  unshadowed (sy_client σ) p sa → v_reg v !! inSPI sa = Some p.
Proof.
  intros Hi Hup Hk Hsa Hu. pose proof Hi as [Hsh _ Hti Hp].
  destruct (shows_client v _ Hsh) as (t & _ & _ & _ & _ & _ & Hsas).
  assert (Hspi : spi_at v p = Some (inSPI sa)) by (unfold spi_at; by rewrite Hsas, list_lookup_fmap, Hsa).
  destruct Hk as [<-|[(u & Hd)|(k & spi & due & Hk & _)]].
  - by apply (out_registered v σ).
  - destruct (up_phase v σ Hp) as (_ & _ & s & _ & _ & _ & Hin); [left; by rewrite Hd|].
    rewrite Hd in Hin. destruct Hin as (q0 & _ & [Hs _] & [= <-] & Hlt & Hold & Hreg & _).
    assert (OldInSPI u = inSPI sa) as He by congruence. rewrite He in Hreg.
    destruct Hreg as [Hn|]; [|done]. by destruct (shadow v _ p sa _ _ Hsh Hu Hlt (speaks_at_spi _ _ _ Hs)).
  - destruct (to_target _ _ Hti spi p) as [_ Hs]; [left; eauto|].
    assert (spi = inSPI sa) as -> by congruence.
    destruct (to_grace _ _ Hti k _ p Hk) as [Hl|(q' & Hq & Hs')]; [done|].
    by destruct (shadow v _ p sa q' _ Hsh Hu Hq Hs').
Qed.

(** An SA the tunnel sent with less than a grace period ago is still registered. *)
Lemma grace_registered v1 σ1 σ p sa :
  cut_inv v1 σ1 → workers_up σ1 → v_out v1 = p → rtc gen_step σ1 σ →
  cl_now (sy_client σ) < cl_now (sy_client σ1) + childSAGrace →
  cl_esp (sy_client σ) !! p = Some sa → unshadowed (sy_client σ) p sa → inSPI sa ≠ 0 →
  ∃ v, cut_inv v σ ∧ v_reg v !! inSPI sa = Some p.
Proof using HL HW.
  intros Hi1 Hup1 Hout Hr Hnow Hsa Hu Hne.
  assert (Hclock : ∀ v c, shows v c → v_now v = cl_now c).
  { intros v c [Hv _ _]. by destruct (view_of_inv _ _ Hv) as (? & ? & _ & _ & ->). }
  pose proof (Hclock _ _ (ci_shows _ _ Hi1)) as Hn1.
  destruct (graced_run v1 σ1 σ (v_now v1 + childSAGrace) p Hi1 Hup1 Hr) as (v & Hi & Hup & _ & Hg).
  { split; [lia|]. right. right. by left. }
  exists v. split; [done|]. pose proof (Hclock _ _ (ci_shows _ _ Hi)) as Hn.
  destruct Hg as [|[(x & Hx & Ho)|Hk]]; [lia| |by eapply kept_registered]. exfalso.
  assert (x = inSPI sa) as ->.
  { destruct (shows_client v _ (ci_shows _ _ Hi)) as (_ & _ & _ & _ & _ & _ & Hsas).
    unfold spi_at in Hx. rewrite Hsas, list_lookup_fmap, Hsa in Hx. by injection Hx. }
  destruct Ho as [|(q & Hlt & Hq)]; [done|]. by destruct (shadow v _ p sa q _ (ci_shows _ _ Hi) Hu Hlt Hq).
Qed.

(** *** Receiving *)

Lemma on_esp_run {A} p (m : ST SA esp_error A) c sa sa' r :
  cl_esp c !! p = Some sa → m sa = (sa', r) →
  on_esp p m c = (set_esp (<[p := sa']> (cl_esp c)) c, wrap_err CEsp r).
Proof. intros Hsa Hm. unfold on_esp. st_step. rewrite Hsa. st_step. rewrite Hm. by st_step. Qed.

(** An authentic packet for a registered SA, on a tunnel that is being read. *)
Lemma rxDatagram_delivers nowNano spi rest inner sa' c t m p sa :
  is_u32 spi → spi ≠ 0 → cl_tun c = Some t → tn_inbound t = true → cl_inbound c = Some m →
  m !! spi = Some p → cl_esp c !! p = Some sa → Decrypt (put32 spi ++ rest) sa = (sa', Ok inner) →
  ∃ c', rxDatagram nowNano (put32 spi ++ rest) c = (c', Ok tt) ∧
        cl_delivered c' = cl_delivered c ++ [inner] ∧ cl_esp c' = <[p := sa']> (cl_esp c) ∧
        cl_rxDrops c' = cl_rxDrops c.
Proof.
  intros Hu Hne Ht Hin Hm Hp Hsa Hd. pose proof (on_esp_run p _ c sa sa' _ Hsa Hd) as Hon.
  unfold rxDatagram, lookupInbound, DeliverInbound, theTunnel.
  rewrite Classify_spi by done. st_step. go_if. rewrite slice_hit by len_lia. st_step.
  rewrite be_read_exact by done. st_step. rewrite Hm. st_step. rewrite Hp. unfold attempt.
  rewrite st_mbind_run, Hon. cbn [wrap_err]. st_step.
  cbn [cl_tun set_lastDataInbound set_esp]. rewrite Ht. st_step. rewrite Hin. st_step.
  eexists. split; [reflexivity|]. done.
Qed.

(** C2. Zero-loss rekey.  Take any moment at which the tunnel sends with some SA.  For 30
    seconds from then, however many rekeys, timers and other goroutines run in that
    time, a packet the peer seals for that SA is opened and handed to the reader of the
    tunnel, and not counted as dropped, as long as its number is fresh, no later SA has
    taken over the SPI, and the session has not been replaced by a reconnect. *)
Theorem rekey_loses_nothing cfg c σ1 t1 σ t sa peer inner iv w' nowNano :
  is_u32 (cc_ReplayWindow cfg) → Dial cfg = Ok c → rtc step (launched c) σ1 →
  workers_up σ1 → cl_tun (sy_client σ1) = Some t1 →
  rtc gen_step σ1 σ → cl_now (sy_client σ) < cl_now (sy_client σ1) + 30 * Second →
  cl_esp (sy_client σ) !! tn_sa t1 = Some sa → unshadowed (sy_client σ) (tn_sa t1) sa → inSPI sa ≠ 0 →
  cl_tun (sy_client σ) = Some t → tn_inbound t = true →
  sa_ok peer → paired peer sa → seq peer ≠ 2 ^ 32 - 1 →
  bytes_ok inner → len iv = 16 → bytes_ok iv →
  Accept (E:=esp_error) (replay sa) (seq peer + 1) = Ok (true, w') →
  ∃ pkt c', Encrypt inner (Some iv) peer = (with_seq peer (seq peer + 1), Ok pkt) ∧
    rxDatagram nowNano pkt (sy_client σ) = (c', Ok tt) ∧
    cl_delivered c' = cl_delivered (sy_client σ) ++ [inner] ∧ cl_rxDrops c' = cl_rxDrops (sy_client σ).
Proof using HL HW HN.
  intros Hw Hd Hr Hup Ht1 Hgen Hnow Hsa Hu Hne Ht Hin Hpok Hpair Hseq Hi Hiv1 Hiv2 Hacc.
  destruct (reachable_inv cfg c σ1 Hw Hd Hr) as [v1 Hv1].
  assert (Hout : v_out v1 = tn_sa t1).
  { destruct (shows_client v1 _ (ci_shows _ _ Hv1)) as (t' & Ht' & <- & _). congruence. }
  destruct (grace_registered v1 σ1 σ _ sa Hv1 Hup Hout Hgen Hnow Hsa Hu Hne) as (v & Hv & Hreg).
  destruct (shows_client v _ (ci_shows _ _ Hv)) as (_ & _ & _ & Hm & _).
  destruct (Encrypt_Decrypt_packet peer sa inner iv w') as (pkt & He & _ & Hdec); try done.
  destruct (Encrypt_spi _ _ _ _ _ He) as [rest ->]. rewrite (pa_spi _ _ Hpair) in *.
  destruct (rxDatagram_delivers nowNano (inSPI sa) rest inner _ _ t _ _ sa (eq_ind _ _ (so_outSPI _ Hpok) _ (pa_spi _ _ Hpair))
    Hne Ht Hin Hm Hreg Hsa Hdec) as (c' & H1 & H2 & _ & H3). by exists (put32 (inSPI sa) ++ rest), c'.
Qed.

Lemma Classify_esp {E} d pl : Classify (E:=E) d = Ok (KindESP, pl) → pl = d ∧ 4 ≤ len d.
Proof.
  unfold Classify. intros H. go_inv; bool_prop; try done; split; congruence || lia.
Qed.

Lemma Classify_total {E} d : ∃ k pl, Classify (E:=E) d = Ok (k, pl).
Proof.
  assert (Hmain : ∃ k pl, (if len d >=? 4 then
    h ← slice d 0 4; spi ← Uint32 h;
    if spi =? 0 then rest ← slice_from d 4; Ok (KindIKE, rest) else Ok (KindESP, d)
    else Ok (E:=E) (KindUnknown, [])) = Ok (k, pl)).
  { destruct (len d >=? 4) eqn:Hl; [|eauto]. bool_prop. rewrite slice_ok by lia. go_step.
    rewrite be_read_ok by len_lia. go_step. rewrite slice_from_ok by lia. go_step. destruct (_ =? 0); eauto. }
  unfold Classify. destruct d as [|b [|b' d]]; [exact Hmain| |].
  - rewrite (index_lookup [b] 0 b) by done. change (len [b] =? 1) with true. go_step.
    destruct (b =? KeepaliveByte); [eauto|exact Hmain].
  - replace (len (b :: b' :: d) =? 1) with false by (rewrite !len_cons; len_pos; lia). exact Hmain.
Qed.

(** [delivers c raw c']: what [raw] added to the reader's queue was sealed for a registered SA. *)
Definition delivers (c : Client) (raw : bytes) (c' : Client) : Prop :=
  cl_delivered c' = cl_delivered c ∨
  ∃ m p sa sa' inner, cl_inbound c = Some m ∧ m !! inSPI sa = Some p ∧ cl_esp c !! p = Some sa ∧
    Decrypt raw sa = (sa', Ok inner) ∧ authentic sa raw ∧ cl_delivered c' = cl_delivered c ++ [inner].

Lemma rxDatagram_authentic v c nowNano raw :
  shows v c → registered v → bytes_ok raw →
  ∃ c', rxDatagram nowNano raw c = (c', Ok tt) ∧ delivers c raw c'.
Proof using HL.
  intros Hsh Hreg Hb. unfold rxDatagram. destruct (Classify_total (E:=cl_error) raw) as (k & pl & Hk).
  rewrite Hk. st_step. destruct k.
  - by eexists; split; [reflexivity|left].
  - st_step. destruct (_ <? _); by eexists; split; [reflexivity|left].
  - apply Classify_esp in Hk as [-> Hl]. go_if. rewrite slice_ok by lia. st_step.
    set (hd := take _ _). rewrite (be_read_ok 4 hd) by (unfold hd; len_lia). st_step.
    set (spi := be_get _). destruct (shows_client v c Hsh) as (t & Ht & _ & Hm & _ & _ & Hsas).
    unfold lookupInbound. st_step. rewrite Hm. st_step.
    destruct (v_reg v !! spi) as [p|] eqn:Hp; [|by eexists; split; [reflexivity|left]].
    destruct (Hreg spi p Hp) as (sa0 & Hsa0 & Hspi). rewrite Hsas, list_lookup_fmap in Hsa0.
    destruct (cl_esp c !! p) as [sa|] eqn:Hsa; [|done]. injection Hsa0 as <-.
    pose proof (Forall_lookup_1 _ _ _ _ (sh_sas _ _ Hsh) Hsa) as Hok.
    pose proof (Decrypt_post sa raw Hok Hb) as Hw. unfold wp in Hw.
    destruct (Decrypt raw sa) as [sa' r] eqn:Hd. destruct Hw as (Hy & _ & _ & Hau).
    unfold attempt. rewrite st_mbind_run, (on_esp_run p _ c sa sa' r Hsa Hd).
    destruct r as [inner|e| |]; [|by eexists; split; [reflexivity|left]|done..].
    cbn [wrap_err]. unfold DeliverInbound, theTunnel. st_step. cbn [cl_tun set_lastDataInbound set_esp].
    rewrite Ht. st_step. destruct (tn_inbound t); [|by eexists; split; [reflexivity|left]].
    eexists; split; [reflexivity|right]. exists (v_reg v), p, sa, sa', inner.
    split_and!; try done; [by rewrite <- Hp, <- Hspi|]. apply Hau. eauto.
  - by eexists; split; [reflexivity|left].
Qed.

(** C13. The receiver survives any datagram, and forged traffic reaches nobody: at any
    moment from Dial on, whatever octets arrive, the demultiplexer handles them without
    an error, and it hands a datagram to the tunnel's reader only when it decrypts under
    the SA registered for its SPI, with a valid integrity value for that SA's inbound key. *)
Theorem receiver_delivers_authentic cfg c σ nowNano raw :
  is_u32 (cc_ReplayWindow cfg) → Dial cfg = Ok c → rtc step (launched c) σ → bytes_ok raw →
  ∃ c', rxDatagram nowNano raw (sy_client σ) = (c', Ok tt) ∧ delivers (sy_client σ) raw c'.
Proof using HL HW HN.
  intros Hw Hd Hr Hb. destruct (reachable_inv cfg c σ Hw Hd Hr) as [v [Hsh Hreg _ _]].
  by apply (rxDatagram_authentic v).
Qed.

(** *** Installing *)

(** The steps the driver has yet to take. *)
Definition todo (σ : System) : nat :=
  4 * length (sy_queue σ) +
  match sy_driver σ with DIdle => 0 | DBuilt _ _ => 3 | DAdded _ _ _ => 2 | DSwapped _ _ => 1 end.

(** The driver takes its next step, with the session as it is. *)
Lemma install_progress v σ :
  cut_inv v σ → todo σ ≠ 0%nat →
  ∃ v' σ', step σ σ' ∧ cut_inv v' σ' ∧ todo σ = S (todo σ') ∧ sy_super σ' = sy_super σ ∧
           v_session v' = v_session v.
Proof using HL HW.
  intros Hi Hne. unfold todo in *.
  assert (Hnext : ∀ c σ' v', step σ σ' → sy_client σ' = c → shows v' c → v_session v' = v_session v →
    ∃ v'', cut_inv v'' σ' ∧ v_session v'' = v_session v).
  { intros c σ' v' Hst <- Hsh' Hs'. destruct (cut_step v σ σ' Hi Hst) as [v'' Hv'']. exists v''. split; [done|].
    destruct (shows_client _ _ Hsh') as (_ & _ & _ & _ & Hse' & _).
    destruct (shows_client _ _ (ci_shows _ _ Hv'')) as (_ & _ & _ & _ & Hse'' & _). congruence. }
  destruct (up_phase v σ (ci_phase _ _ Hi)) as (_ & Hfit & s & _ & _ & _ & Hin).
  { destruct (sy_driver σ); [right; left; intros Hq; by rewrite Hq in Hne|by left..]. }
  pose proof (ci_shows _ _ Hi) as Hsh. destruct (sy_driver σ) as [|u p|u p sup|u sup] eqn:Hdr.
  - destruct (sy_queue σ) as [|u q] eqn:Hq; [done|]. apply Forall_cons_1 in Hfit as [Hu _].
    destruct (takes_buildChildSA v u Hu) as (sa & Htk & _). destruct (Htk _ Hsh) as (c' & Hb & Hsh').
    assert (Hst : step σ (on_driver c' q (DBuilt u (length (v_sas v))) σ)) by (by eapply StepBuild).
    destruct (Hnext c' _ _ Hst eq_refl Hsh' eq_refl) as (v'' & ? & ?).
    eexists v'', _. split_and!; [exact Hst|done| |done..]. cbn. lia.
  - destruct (takes_addInbound v u p _ Hsh) as (c' & Hb & Hsh').
    assert (Hst := StepAdd σ u p c' _ Hdr Hb). destruct (Hnext c' _ _ Hst eq_refl Hsh' eq_refl) as (v'' & ? & ?).
    eexists v'', _. split_and!; [exact Hst|done| |done..]. cbn. lia.
  - destruct (takes_SwapSA v p _ Hsh) as (c' & Hb & Hsh').
    assert (Hst := StepSwap σ u p _ c' Hdr Hb). destruct (Hnext c' _ _ Hst eq_refl Hsh' eq_refl) as (v'' & ? & ?).
    eexists v'', _. split_and!; [exact Hst|done| |done..]. cbn. lia.
  - destruct (takes_bind _ (λ _, retireOld u sup) _ _ _ _ _ (takes_fireRekey v) (takes_retireOld v u sup) _ Hsh) as (c' & Hb & Hsh').
    assert (Hst := StepRetire σ u sup c' Hdr Hb).
    destruct (Hnext c' _ _ Hst eq_refl Hsh') as (v'' & ? & ?); [by destruct (_ && _)|].
    eexists v'', _. split_and!; [exact Hst|done| |done..]. cbn. lia.
Qed.

Lemma install_all n v σ :
  cut_inv v σ → todo σ = n →
  ∃ v' σ', nsteps step n σ σ' ∧ cut_inv v' σ' ∧ todo σ' = 0%nat ∧ sy_super σ' = sy_super σ ∧
           v_session v' = v_session v.
Proof using HL HW.
  revert v σ. induction n as [|n IH]; intros v σ Hi Hn.
  - exists v, σ. split_and!; [constructor|done..].
  - destruct (install_progress v σ Hi) as (v1 & σ1 & Hst & Hi1 & Ht & Hs1 & Hv1); [lia|].
    destruct (IH v1 σ1 Hi1) as (v' & σ' & Hn' & Hi' & H0 & Hs' & Hv'); [lia|].
    exists v', σ'. split_and!; [by econstructor|done|done|congruence..].
Qed.

(** C23. Every rekey reaches the data plane.  Wherever the driver is in its installations, it
    is never stuck: its own remaining steps, four for each queued Child SA, always lead
    to the queue being empty, with the session unchanged and the tunnel sending under
    the session's present Child SA, with its keys each in the direction last ordered. *)
Theorem installs_complete cfg c σ :
  is_u32 (cc_ReplayWindow cfg) → Dial cfg = Ok c → rtc step (launched c) σ → workers_up σ →
  ∃ σ' s ch u t sa, nsteps step (todo σ) σ σ' ∧ sy_driver σ' = DIdle ∧ sy_queue σ' = [] ∧
    cl_session (sy_client σ) = Some s ∧ cl_session (sy_client σ') = Some s ∧
    child s = Some ch ∧ ordered s = Some u ∧ child_of u ch ∧
    cl_tun (sy_client σ') = Some t ∧ cl_esp (sy_client σ') !! tn_sa t = Some sa ∧ speaks sa u.
Proof using HL HW HN.
  intros Hw Hd Hr Hup. destruct (reachable_inv cfg c σ Hw Hd Hr) as [v Hv].
  destruct (install_all _ v σ Hv eq_refl) as (v' & σ' & Hn & [Hsh _ _ Hp] & H0 & Hsup & Hses).
  assert (sy_driver σ' = DIdle ∧ sy_queue σ' = []) as [Hdr Hq].
  { unfold todo in H0. destruct (sy_driver σ'), (sy_queue σ'); cbn in H0; by try lia. }
  destruct (up_phase v' σ' Hp) as (_ & _ & s & Hs & _ & _ & Hin).
  { right; right. unfold workers_up in *. by rewrite Hsup. }
  rewrite Hdr, Hq in Hin. destruct Hin as (u & _ & [Hsp Hf] & (ch & Hch & Hof & Hor)%heir_nil & _).
  destruct (shows_client v' _ Hsh) as (t & Ht & Hto & Hm & Hse & _).
  destruct (shows_client v _ (ci_shows _ _ Hv)) as (_ & _ & _ & _ & Hse0 & _).
  destruct (speaks_at_client v' _ _ u Hsh Hsp) as (sa & Hsa & _ & Hsas).
  exists σ', s, ch, u, t, sa. rewrite Hto. split_and!; congruence || done.
Qed.

(** The driver takes an event that orders one Child SA, and the whole of InstallChildSA. *)
Lemma rekey_steps σ e s s' u c' :
  sy_super σ = Running → sy_driver σ = DIdle → sy_queue σ = [] → cl_session (sy_client σ) = Some s →
  event_ok e → Driver_step e s = (s', Ok false) → installed s' = installed s ++ [u] →
  InstallChildSA u (set_session (Some s') (sy_client σ)) = (c', Ok tt) →
  rtc gen_step σ (on_driver c' [] DIdle σ).
Proof using Type.
  intros Hrun Hd Hq Hs He Hst Hi Hin. unfold InstallChildSA in Hin. run_step Hin r c1 H1.
  eapply rtc_l; [split; [by eapply StepEvent|by left]|].
  destruct r as [p|].
  - run_step Hin sup c2 H2. run_step Hin x c3 H3. destruct x. rewrite <- Hrun.
    eapply rtc_l; [split; [by eapply StepBuild|left; exact Hrun]|]. eapply rtc_l; [split; [by eapply StepAdd|left; exact Hrun]|].
    eapply rtc_l; [split; [by eapply StepSwap|left; exact Hrun]|]. eapply rtc_l; [split; [by eapply StepRetire|left; exact Hrun]|]. apply rtc_refl.
  - injection Hin as <-. rewrite <- Hrun. eapply rtc_l; [split; [by eapply StepUnbuildable|left; exact Hrun]|]. apply rtc_refl.
Qed.
End dialled.

(** ** Witnesses *)

Section witnesses.
Local Existing Instances toy_primitives toy_laws toy_radius toy_x509.

(** The other end of an SA, before it has sent anything. *)
Definition peer_of (sa : SA) : SA :=
  {| suite := suite sa; outSPI := inSPI sa; inSPI := outSPI sa; outBlock := inBlock sa; inBlock := outBlock sa;
     outInteg := inInteg sa; inInteg := outInteg sa; outAEAD := inAEAD sa; inAEAD := outAEAD sa;
     outSalt := inSalt sa; inSalt := outSalt sa; seq := 0; replay := replay sa |}.

Lemma peer_of_ok sa : sa_ok sa → sa_ok (peer_of sa) ∧ paired (peer_of sa) sa.
Proof.
  intros [H1 H2 H3 _ H5]. split; [|done]. constructor; try done.
  destruct H1 as [[Hs (ko & ki & ? & ? & ? & ?)]|[Hs (ao & ai & ? & ? & ? & ?)]];
    [left; split; [done|]; by exists ki, ko|right; split; [done|]; by exists ai, ao].
Qed.

(** A client that dials the responder of [psk_net]. *)
Definition dial_cfg : ClientConfig :=
  mkConfig [118] (FQDN [99]) noIdentity [] [] [1; 2; 3] 0 0 0 0 0 0 0 [] [] false (Some false) None 0 0 0.

Abbreviation dial_run := (Dial (N:=psk_net) dial_cfg).
Definition dial_client : Client := match dial_run with Ok c => c | _ => newClient dial_cfg end.

Lemma dial_succeeds : dial_run = Ok dial_client.
Proof.
  assert (H : (if dial_run is Ok _ then true else false) = true) by (vm_compute; reflexivity).
  unfold dial_client. by destruct dial_run.
Qed.

Lemma dial_window : is_u32 (cc_ReplayWindow dial_cfg).
Proof. split; [done|reflexivity]. Qed.

#[local] Opaque dial_client.

(** The client with a reader on its tunnel. *)
Definition read_client : Client := (SetInbound dial_client).1.
Definition reading : System := on_client read_client (launched dial_client).

Lemma reading_reached : rtc step (launched dial_client) reading.
Proof.
  apply rtc_once. eapply (StepUser _ SetInbound _ (SetInbound dial_client).2); [constructor|].
  apply surjective_pairing.
Qed.

(** Its one ESP SA, and the peer's end of it. *)
Definition dial_sa : SA := match cl_esp read_client with [sa] => sa | _ => sample_SA 0 0 0 0 end.
Definition dial_peer : SA := peer_of dial_sa.
Definition dial_tunnel : Tunnel :=
  match cl_tun read_client with Some t => t | None => tunnel_New 0 (tunConfig 0 noAssigned) end.

Lemma dial_esp : cl_esp read_client = [dial_sa].
Proof. vm_compute. reflexivity. Qed.
Lemma dial_tun : cl_tun read_client = Some dial_tunnel.
Proof. vm_compute. reflexivity. Qed.

#[local] Opaque read_client dial_sa dial_tunnel.

Lemma dial_delivered : cl_delivered read_client = [].
Proof. vm_compute. reflexivity. Qed.

Lemma registry_exact_witness :
  ∃ m, cl_inbound read_client = Some m ∧ (∃ p, m !! inSPI dial_sa = Some p) ∧
    ∀ spi p, m !! spi = Some p → spi ≠ 0 → p = tn_sa dial_tunnel ∨
      (∃ k due, cl_armed read_client !! k = Some (due, (spi, Some p))) ∨ ∃ k, TRemove k spi (Some p) ∈ sy_timers reading.
Proof.
  eexists. assert (Hm : cl_inbound read_client = Some _) by (vm_compute; reflexivity). split; [exact Hm|].
  split; [eexists; vm_compute; reflexivity|].
  apply (registry_exact (N:=psk_net) (HN:=psk_net_laws) dial_cfg dial_client reading dial_tunnel _ dial_window
    dial_succeeds reading_reached); [by left|reflexivity|exact dial_tun|exact Hm].
Defined.

Lemma dial_sa_ok : sa_ok dial_sa.
Proof.
  destruct (reachable_inv (N:=psk_net) (HN:=psk_net_laws) dial_cfg dial_client reading dial_window dial_succeeds
    reading_reached) as [v [Hsh _ _ _]].
  apply sh_sas in Hsh. change (sy_client reading) with read_client in Hsh. rewrite dial_esp in Hsh.
  apply Forall_cons_1 in Hsh as [Hok _]. exact Hok.
Qed.

Lemma dial_peer_ok : sa_ok dial_peer ∧ paired dial_peer dial_sa.
Proof. exact (peer_of_ok dial_sa dial_sa_ok). Qed.

(** *** The peer rekeys the Child SA of the dialled client *)

Definition live_session : Session := match cl_session read_client with Some s => s | None => New psk_cfg end.
Definition rekey_request : bytes :=
  match (encodeSKWith (initiatorSPI hs_asked) 77 ExchangeCreateChildSA 0 0
           [SAPayload [buildProposalForSuite 1 hs_esp [0; 0; 0; 42] []]; NoncePayload (replicate 32 5)]
           (Some (replicate 16 4)) hs_sa).2 with Ok raw => raw | _ => [] end.
Abbreviation rekey_step := (Driver_step (EvInbound rekey_request) live_session).
Definition rekeyed_session : Session := rekey_step.1.
Definition rekey_update : ChildSAUpdate :=
  match installed rekeyed_session with [u] => u | _ => first_update demo_child end.
Abbreviation rekey_install := (InstallChildSA rekey_update (set_session (Some rekeyed_session) read_client)).
Definition rekeyed_client : Client := rekey_install.1.
Definition rekeyed_sa : SA := match cl_esp rekeyed_client with [_; sa] => sa | _ => sample_SA 0 0 0 0 end.
Definition rekeyed_tunnel : Tunnel := with_tn_sa dial_tunnel 1.

Lemma live_session_stored : cl_session read_client = Some live_session.
Proof. vm_compute. reflexivity. Qed.
Lemma rekey_request_ok : bytes_ok rekey_request.
Proof. apply demo_bytes_ok. vm_compute. reflexivity. Qed.
Lemma rekey_answered : rekey_step = (rekeyed_session, Ok false).
Proof. assert (H : rekey_step.2 = Ok false) by (vm_compute; reflexivity). rewrite <- H. apply surjective_pairing. Qed.
Lemma rekey_ordered : installed rekeyed_session = installed live_session ++ [rekey_update].
Proof. vm_compute. reflexivity. Qed.
Lemma rekey_installed : rekey_install = (rekeyed_client, Ok tt).
Proof. assert (H : rekey_install.2 = Ok tt) by (vm_compute; reflexivity). rewrite <- H. apply surjective_pairing. Qed.
Lemma rekeyed_esp : cl_esp rekeyed_client = [dial_sa; rekeyed_sa].
Proof. vm_compute. reflexivity. Qed.
Lemma rekeyed_tun : cl_tun rekeyed_client = Some rekeyed_tunnel.
Proof. vm_compute. reflexivity. Qed.
Lemma rekeyed_delivered : cl_delivered rekeyed_client = [].
Proof. vm_compute. reflexivity. Qed.
Lemma rekeyed_spis : inSPI dial_sa = 101058054 ∧ inSPI rekeyed_sa = 185273099.
Proof. vm_compute. split; reflexivity. Qed.

#[local] Opaque live_session rekey_request rekeyed_session rekey_update rekeyed_client rekeyed_sa.

(** The update is queued; it is installed; 29 seconds later. *)
Definition rekeying : System :=
  {| sy_client := set_session (Some rekeyed_session) read_client; sy_queue := [rekey_update]; sy_driver := DIdle;
     sy_timers := []; sy_super := Running |}.
Definition rekeyed : System := on_driver rekeyed_client [] DIdle reading.
Definition rekeyed_later : System := on_client (set_now (29 * Second) rekeyed_client) rekeyed.

Lemma rekeying_reached : rtc step (launched dial_client) rekeying.
Proof.
  eapply rtc_r; [exact reading_reached|].
  exact (StepEvent reading (EvInbound rekey_request) live_session rekeyed_session [rekey_update] false eq_refl eq_refl
    eq_refl live_session_stored rekey_request_ok rekey_answered rekey_ordered).
Qed.

Lemma rekeyed_run : rtc gen_step reading rekeyed.
Proof.
  exact (rekey_steps reading (EvInbound rekey_request) live_session rekeyed_session rekey_update rekeyed_client eq_refl
    eq_refl eq_refl live_session_stored rekey_request_ok rekey_answered rekey_ordered rekey_installed).
Qed.

Lemma gen_steps σ σ' : rtc gen_step σ σ' → rtc step σ σ'.
Proof. apply rtc_subrel. by intros ? ? [? _]. Qed.

Lemma rekeyed_reached : rtc step (launched dial_client) rekeyed.
Proof. etrans; [exact reading_reached|exact (gen_steps _ _ rekeyed_run)]. Qed.

Lemma later_step c n σ :
  sy_client σ = c → cl_now c ≤ n → workers_up σ → gen_step σ (on_client (set_now n c) σ).
Proof. intros <- Hn Hup. split; [by apply StepTime|exact Hup]. Qed.

Lemma later_run : rtc gen_step reading rekeyed_later.
Proof.
  eapply rtc_r; [exact rekeyed_run|]. apply later_step; [reflexivity| |by left]. vm_compute. discriminate.
Qed.

Lemma later_client c n σ :
  let c' := sy_client (on_client (set_now n c) σ) in
  cl_esp c' = cl_esp c ∧ cl_tun c' = cl_tun c ∧ cl_delivered c' = cl_delivered c ∧ cl_now c' = n.
Proof. done. Qed.

Lemma later_esp : cl_esp (sy_client rekeyed_later) = [dial_sa; rekeyed_sa].
Proof. etrans; [exact (proj1 (later_client rekeyed_client _ rekeyed))|exact rekeyed_esp]. Qed.
Lemma later_tun : cl_tun (sy_client rekeyed_later) = Some rekeyed_tunnel.
Proof. etrans; [exact (proj1 (proj2 (later_client rekeyed_client _ rekeyed)))|exact rekeyed_tun]. Qed.
Lemma later_delivered : cl_delivered (sy_client rekeyed_later) = [].
Proof. etrans; [exact (proj1 (proj2 (proj2 (later_client rekeyed_client _ rekeyed))))|exact rekeyed_delivered]. Qed.
Lemma later_now : cl_now (sy_client rekeyed_later) < cl_now (sy_client reading) + 30 * Second.
Proof. vm_compute. reflexivity. Qed.

Lemma unshadowed_first c a b : cl_esp c = [a; b] → inSPI b ≠ inSPI a → unshadowed c 0 a.
Proof.
  intros Hc Hne p sa Hlt Hp. rewrite Hc in Hp. destruct p as [|[|p]]; [lia| |done]. by injection Hp as <-.
Qed.

#[local] Opaque rekeyed_later.

Lemma tunnel_follows_session_witness :
  ∃ s ch u t m sa, cl_session rekeyed_client = Some s ∧ session_ok s ∧
    child s = Some ch ∧ ordered s = Some u ∧ child_of u ch ∧
    cl_tun rekeyed_client = Some t ∧ cl_inbound rekeyed_client = Some m ∧
    cl_esp rekeyed_client !! tn_sa t = Some sa ∧ sa_ok sa ∧ speaks sa u ∧
    m !! ch_InitiatorSPI ch = Some (tn_sa t).
Proof.
  refine (tunnel_follows_session (N:=psk_net) (HN:=psk_net_laws) dial_cfg dial_client rekeyed dial_window
    dial_succeeds rekeyed_reached _ eq_refl eq_refl). by left.
Defined.

Lemma installs_complete_witness :
  todo rekeying = 4%nat ∧
  ∃ σ' s ch u t sa, nsteps step 4 rekeying σ' ∧ sy_driver σ' = DIdle ∧ sy_queue σ' = [] ∧
    cl_session (sy_client rekeying) = Some s ∧ cl_session (sy_client σ') = Some s ∧
    child s = Some ch ∧ ordered s = Some u ∧ child_of u ch ∧
    cl_tun (sy_client σ') = Some t ∧ cl_esp (sy_client σ') !! tn_sa t = Some sa ∧ speaks sa u.
Proof.
  split; [reflexivity|].
  refine (installs_complete (N:=psk_net) (HN:=psk_net_laws) dial_cfg dial_client rekeying dial_window
    dial_succeeds rekeying_reached _). by left.
Defined.

(** The peer has not switched yet: 29 seconds after the rekey it still sends under the old SA. *)
Lemma rekey_loses_nothing_witness :
  tn_sa rekeyed_tunnel ≠ tn_sa dial_tunnel ∧
  ∃ pkt c', Encrypt [69; 0; 1] (Some (replicate 16 7)) dial_peer = (with_seq dial_peer 1, Ok pkt) ∧
    rxDatagram 5 pkt (sy_client rekeyed_later) = (c', Ok tt) ∧ cl_delivered c' = [[69; 0; 1]].
Proof.
  split; [vm_compute; discriminate|]. assert (Htn : tn_sa dial_tunnel = 0%nat) by (vm_compute; reflexivity).
  destruct (rekey_loses_nothing (N:=psk_net) (HN:=psk_net_laws) dial_cfg dial_client reading dial_tunnel rekeyed_later
    rekeyed_tunnel dial_sa dial_peer [69; 0; 1] (replicate 16 7)
    (match Accept (E:=esp_error) (replay dial_sa) 1 with Ok (_, w) => w | _ => replay dial_sa end) 5)
    as (pkt & c' & H1 & H2 & H3 & _).
  - exact dial_window.
  - exact dial_succeeds.
  - exact reading_reached.
  - by left.
  - exact dial_tun.
  - exact later_run.
  - exact later_now.
  - rewrite Htn, later_esp. reflexivity.
  - rewrite Htn. apply (unshadowed_first _ _ _ later_esp). destruct rekeyed_spis as [Ho Hn]. rewrite Ho, Hn. discriminate.
  - destruct rekeyed_spis as [Ho _]. rewrite Ho. discriminate.
  - exact later_tun.
  - vm_compute. reflexivity.
  - apply dial_peer_ok.
  - apply dial_peer_ok.
  - discriminate.
  - apply demo_bytes_ok. reflexivity.
  - reflexivity.
  - apply demo_bytes_ok. reflexivity.
  - vm_compute. reflexivity.
  - exists pkt, c'. split; [exact H1|]. split; [exact H2|].
    by rewrite later_delivered in H3.
Defined.

Lemma receiver_delivers_authentic_witness :
  ∃ c', rxDatagram 5 [1; 2; 3; 4; 5] read_client = (c', Ok tt) ∧ delivers read_client [1; 2; 3; 4; 5] c'.
Proof.
  apply (receiver_delivers_authentic (N:=psk_net) (HN:=psk_net_laws) dial_cfg dial_client reading 5 [1; 2; 3; 4; 5]
    dial_window dial_succeeds reading_reached). apply demo_bytes_ok. reflexivity.
Defined.

End witnesses.
