(* ===== verification/ClientLife.v ===== *)
(** * Dialling, reconnecting and closing

    The sequential life of a client: what Dial returns, how InstallChildSA and
    reconnect run as the steps of Cutover.v, what a reconnect leaves behind, the waits
    between redials, and what Close stops. *)

From stdpp Require Import gmap relations.
From S2P Require Import Prelude Replay IkePayload IkeMsg Crypto Esp IkeSA Suite Natt Protected Session Rekey Driver.
From S2P Require Import Stable Invariant Demo Lineage Eap Auth SaInit IkeAuth Config DataPlane Client Handshake HandshakeAuth.
From S2P Require Import HandshakeDemo HandshakeProps Cutover ClientProps.

Section life.
Context {P : Primitives} {HL : PrimitiveLaws P} {W : World} {HW : WorldLaws W}.
Context {N : Network} {HN : NetworkLaws N} {R : Radius} {X : X509}.

(** ** Dial *)

Definition dialled (cfg' : ClientConfig) (c : Client) : Prop :=
  ∃ s ch sa, handshake (New (toSessionConfig cfg')) = (s, Ok tt) ∧ child s = Some ch ∧
    newSA (ch_Suite ch) (ch_ResponderSPI ch) (ch_InitiatorSPI ch) (EncrIR (ch_Keys ch)) (IntegIR (ch_Keys ch))
      (EncrRI (ch_Keys ch)) (IntegRI (ch_Keys ch)) (cc_ReplayWindow cfg') = Ok sa ∧
    cl_session c = Some (SetDataPlane s) ∧ cl_localIP c = as_IP (assigned s) ∧ cl_esp c = [sa] ∧
    cl_inbound c = Some {[ch_InitiatorSPI ch := 0%nat]} ∧ cl_armed c = ∅ ∧
    cl_tun c = Some (tunnel_New 0 (tunConfig (cc_MTU cfg') (assigned s))).

Lemma startDataPlane_run cfg' s ch :
  child s = Some ch → child_ok ch → is_u32 (cc_ReplayWindow cfg') →
  ∃ c sa, (_ ← adopt s; startDataPlane) (newClient cfg') = (c, Ok tt) ∧
    newSA (ch_Suite ch) (ch_ResponderSPI ch) (ch_InitiatorSPI ch) (EncrIR (ch_Keys ch)) (IntegIR (ch_Keys ch))
      (EncrRI (ch_Keys ch)) (IntegRI (ch_Keys ch)) (cc_ReplayWindow cfg') = Ok sa ∧
    cl_session c = Some (SetDataPlane s) ∧ cl_localIP c = as_IP (assigned s) ∧ cl_esp c = [sa] ∧
    cl_inbound c = Some {[ch_InitiatorSPI ch := 0%nat]} ∧ cl_armed c = ∅ ∧
    cl_tun c = Some (tunnel_New 0 (tunConfig (cc_MTU cfg') (assigned s))).
Proof using Type.
  intros Hch [Hi Ho Hfit (B1 & B2 & B3 & B4)] Hw.
  destruct (newSA_fits _ _ _ _ _ _ _ _ Ho Hi Hw B1 B2 B3 B4 Hfit) as (sa & Hsa & _).
  unfold adopt, startDataPlane, theSession, espSAFromChild, alloc_esp, resetInbound, startWorkers, theSession.
  st_step. cbn [cl_session set_localIP set_session deref]. st_step. rewrite Hch. st_step.
  cbn [cl_ReplayWindow set_localIP set_session newClient]. rewrite Hsa. cbn [wrap_err]. st_step.
  eexists _, sa. split; [reflexivity|]. by split_and!.
Qed.

(** C11. What Dial returns.  It always returns (it never panics): the error of the
    configuration, the error of the handshake, or a client whose tunnel is up, which has
    the address and the settings the responder assigned, one ESP SA built from the
    negotiated Child SA in both directions, and no timer; the data plane
    itself never fails after a successful handshake. *)
Theorem Dial_outcome cfg :
  is_u32 (cc_ReplayWindow cfg) →
  match Dial cfg with
  | Ok c => ∃ cfg', validate cfg = Ok cfg' ∧ dialled cfg' c
  | Err (DialConfig e) => validate cfg = Err e
  | Err (DialHandshake e) => ∃ cfg', validate cfg = Ok cfg' ∧ (dialSession cfg').2 = Err e
  | Err (DialDataPlane _) | Panic | Hang => False
  end.
Proof using HL HW HN.
  intros Hw. unfold Dial. pose proof (validate_safe cfg) as Hs.
  destruct (validate cfg) as [cfg'|e| |] eqn:Hv; [|done..]. cbn [wrap_err mbind Res_bind].
  pose proof (handshake_returns (toSessionConfig cfg')) as Hsafe. unfold dialSession.
  destruct (handshake (New (toSessionConfig cfg'))) as [s [[]|e| |]] eqn:Hh; [|exists cfg'; split; [done|by rewrite Hh]|done..].
  destruct (rd_child _ (handshake_ready _ _ Hh)) as (ch & Hch & Hok).
  destruct (startDataPlane_run cfg' s ch Hch Hok (validate_window _ _ Hv Hw)) as (c & sa & Hc & Hrest).
  rewrite Hc. exists cfg'. split; [done|]. by exists s, ch, sa.
Qed.

(** ** InstallChildSA and reconnect as steps *)

(** The whole of InstallChildSA is a run of the driver's steps. *)
Lemma InstallChildSA_steps σ u q c' :
  sy_driver σ = DIdle → sy_queue σ = u :: q → InstallChildSA u (sy_client σ) = (c', Ok tt) →
  rtc step σ (on_driver c' q DIdle σ).
Proof using Type.
  intros Hd Hq Hi. unfold InstallChildSA in Hi. run_step Hi r c1 H1. destruct r as [p|].
  2: { injection Hi as <-. apply rtc_once. by eapply StepUnbuildable. }
  run_step Hi sup c2 H2. run_step Hi x c3 H3. destruct x.
  eapply rtc_l; [by eapply StepBuild|]. eapply rtc_l; [by eapply StepAdd|].
  eapply rtc_l; [by eapply StepSwap|]. eapply rtc_l; [by eapply StepRetire|]. apply rtc_refl.
Qed.

(** The whole of reconnect is a run of the supervisor's steps. *)
Lemma reconnect_steps σ s ch p c1 c2 c' :
  sy_super σ = Dying → sy_driver σ = DIdle → sy_queue σ = [] → ready (SetDataPlane s) → child s = Some ch →
  (_ ← closeSession; stopGraceTimers) (sy_client σ) = (c1, Ok tt) → espSAFromChild ch c1 = (c2, Ok p) →
  switchGeneration s ch p c2 = (c', Ok tt) → rtc step σ (on_super c' Running σ).
Proof using Type.
  intros Hdy Hd Hq Hs Hch H1 H2 H3. unfold switchGeneration in H3. run_step H3 x3 c3 Hr. run_step H3 x4 c4 Ha.
  rewrite st_get in H3. run_step H3 x5 c5 Hc. destruct x3, x4, x5.
  eapply rtc_l; [by eapply StepStop|]. eapply rtc_l; [by eapply StepRedial|].
  eapply rtc_l; [by eapply StepBuildNew|]. eapply rtc_l; [by eapply StepReset|].
  eapply rtc_l; [by eapply StepStore|]. eapply rtc_l; [by eapply StepReaddress|].
  eapply rtc_l; [by eapply StepStart|]. apply rtc_refl.
Qed.

(** What a reconnect leaves, computed. *)
Lemma switchGeneration_run s ch p c t :
  cl_tun c = Some t →
  ∃ c', switchGeneration s ch p c = (c', Ok tt) ∧ cl_session c' = Some (SetDataPlane s) ∧
    cl_localIP c' = as_IP (assigned s) ∧ cl_esp c' = cl_esp c ∧ cl_armed c' = cl_armed c ∧
    cl_inbound c' = Some {[ch_InitiatorSPI ch := p]} ∧ cl_rekeyed c' = cl_rekeyed c ++ cl_onRekey c ∧
    ∃ t', cl_tun c' = Some t' ∧ tn_sa t' = p ∧ tn_closed t' = tn_closed t ∧ tn_inbound t' = tn_inbound t ∧
      tn_reconfigure t' = (λ calls, calls ++ [tunConfig (cl_MTU c) (assigned s)]) <$> tn_reconfigure t.
Proof using Type.
  intros Ht. unfold switchGeneration, resetInbound, adopt, Reconfigure, SwapSA, fireRekey, startWorkers, theSession,
    theTunnel. st_step. cbn [cl_tun set_localIP set_session set_inbound]. rewrite Ht. st_step.
  cbn [cl_tun set_tun]. st_step. cbn [cl_session set_rekeyed set_tun set_localIP set_session]. st_step.
  eexists. split; [reflexivity|]. split_and!; try done. by eexists.
Qed.

(** C12. A reconnect resumes the tunnel in place.  From any state in which the supervisor has
    taken a death signal, reconnect with the session of a new handshake succeeds, and is a
    run of the supervisor's steps; afterwards the same tunnel, still open and with its
    reader and hooks, sends under the new Child SA with the client's own direction of its
    keys, the hooks were given the new
    addresses, only the new inbound SPI is registered and no timer of the old
    generation is armed. *)
Theorem reconnect_resumes cfg c σ sc s t :
  is_u32 (cc_ReplayWindow cfg) → Dial cfg = Ok c → rtc step (launched c) σ →
  sy_super σ = Dying → sy_driver σ = DIdle → sy_queue σ = [] →
  handshake (New sc) = (s, Ok tt) → cl_tun (sy_client σ) = Some t →
  ∃ c' ch t' sa, reconnect false (RedialSession s) (sy_client σ) = (c', Ok tt) ∧
    rtc step σ (on_super c' Running σ) ∧
    cl_session c' = Some (SetDataPlane s) ∧ child s = Some ch ∧ cl_localIP c' = as_IP (assigned s) ∧
    cl_tun c' = Some t' ∧ tn_closed t' = tn_closed t ∧ tn_inbound t' = tn_inbound t ∧
    tn_reconfigure t' =
      (λ calls, calls ++ [tunConfig (cl_MTU (sy_client σ)) (assigned s)]) <$> tn_reconfigure t ∧
    cl_esp c' !! tn_sa t' = Some sa ∧ speaks sa (first_update ch) ∧ cl_inbound c' = Some {[ch_InitiatorSPI ch := tn_sa t']} ∧
    cl_armed c' = ∅.
Proof using HL HW HN.
  intros Hw Hd Hr Hdy Hdr Hq Hh Ht. destruct (reachable_inv cfg c σ Hw Hd Hr) as [v Hv].
  pose proof (handshake_ready _ _ Hh) as Hready. destruct (rd_child _ Hready) as (ch & Hch & Hok). cbn in Hch.
  destruct (takes_stop v _ (ci_shows _ _ Hv)) as (c1 & H1 & Hsh1).
  destruct (takes_espSAFromChild (v_stopped (v_with_session (Session_Close <$> v_session v) v)) ch Hok) as (sa0 & Htk & Hsp & Hi).
  destruct (Htk _ Hsh1) as (c2 & H2 & Hsh2).
  assert (Ht1 : cl_tun c1 = Some t ∧ cl_MTU c1 = cl_MTU (sy_client σ)) by (by injection H1 as <-).
  assert (Ht2 : cl_tun c2 = cl_tun c1 ∧ cl_MTU c2 = cl_MTU c1).
  { revert H2. unfold espSAFromChild, alloc_esp. st_step. destruct (newSA _ _ _ _ _ _ _ _); cbn; [|done..].
    by intros [= <- _]. }
  destruct Ht1 as [Ht1 Hm1], Ht2 as [Ht2 Hm2]. rewrite Ht1 in Ht2.
  set (p := length _) in H2.
  destruct (switchGeneration_run s ch p c2 t Ht2)
    as (c' & H3 & Hs' & Hip & Hesp & Harm & Hin & _ & t' & Ht' & Hp & Hcl & Hrd & Hre).
  pose proof (reconnect_steps σ s ch p c1 c2 c' Hdy Hdr Hq Hready Hch H1 H2 H3) as Hst.
  destruct (shows_client _ _ Hsh2) as (_ & _ & _ & _ & _ & Harm2 & Hsas2).
  assert (Hlk : (static <$> cl_esp c2) !! p = Some (static sa0)).
  { rewrite <- Hsas2. cbn. by apply list_lookup_middle. }
  rewrite list_lookup_fmap in Hlk. destruct (cl_esp c2 !! p) as [sa|] eqn:Hsa; [|done].
  assert (Hstat : static sa = static sa0) by (exact (f_equal (default sa0) Hlk)). exists c', ch, t', sa. split_and!; try done; try congruence.
  - unfold reconnect. rewrite <- st_assoc. rewrite st_mbind_run, H1. rewrite Hch. st_step. unfold attempt.
    by rewrite st_mbind_run, H2.
  - by rewrite Hre, Hm2, Hm1.
  - destruct Hsp as (w & sa1 & ? & Heq). exists w, sa1. split; [done|]. by rewrite Hstat.
  - rewrite Harm. apply (fmap_empty_inv snd). rewrite <- Harm2. exact (stop_disarms v _ (ci_timers _ _ Hv)).
Qed.

(** ** The waits between redials *)

(** A turn of the redial loop whose dial fails and whose wait runs out. *)
Definition failing (t : redialTurn) : Prop :=
  rt_closing t = false ∧ rt_session t = None ∧ rt_closingAfter t = false ∧ rt_slept t = true.

(** The wait before its jitter, after [k] failures. *)
Definition backoff_at (base bmax : Z) (k : nat) : Z :=
  match k with O => base | S _ => Z.min (base * 2 ^ Z.of_nat k) bmax end.

Lemma backoff_next base bmax k :
  0 < base < 2 ^ 62 → 0 < bmax < 2 ^ 62 →
  Z.min (i64 (backoff_at base bmax k * 2)) bmax = backoff_at base bmax (S k).
Proof using Type.
  intros Hb Hm. destruct k as [|k]; cbn [backoff_at].
  - rewrite i64_small by lia. by rewrite Z.pow_1_r.
  - assert (0 < 2 ^ Z.of_nat (S k)) by lia. rewrite i64_small by nia.
    replace (2 ^ Z.of_nat (S (S k))) with (2 ^ Z.of_nat (S k) * 2)
      by (rewrite (Nat2Z.inj_succ (S k)), Z.pow_succ_r by lia; lia). lia.
Qed.

Lemma redialLoop_schedule base bmax ts k t s :
  0 < base < 2 ^ 62 → 0 < bmax < 2 ^ 62 →
  Forall failing ts → rt_closing t = false → rt_session t = Some s →
  redialLoop bmax (backoff_at base bmax k) (ts ++ [t]) =
  (imap (λ i u, jitterDuration (backoff_at base bmax (k + i)) (rt_rand u)) ts, RedialSession s).
Proof using Type.
  intros Hb Hm Hts Hc Hs. revert k. induction Hts as [|u ts (H1 & H2 & H3 & H4) Hts IH]; intros k.
  - cbn. by rewrite Hc, Hs.
  - cbn [app redialLoop]. rewrite H1, H2, H3, H4. cbn [negb]. rewrite backoff_next by done. rewrite IH.
    cbn [imap]. rewrite Nat.add_0_r. do 2 f_equal. apply imap_ext. intros i x _. cbn. by rewrite Nat.add_succ_r.
Qed.

(** Redialling backs off exponentially, up to its cap, and keeps trying: after any number
    of failed attempts the next one that succeeds is used; the wait after the first
    failure is the configured base, and every later one is twice the one before or the
    configured maximum, whichever is less, each with its jitter. *)
Theorem redial_backs_off cfg cfg' ts t s :
  validate cfg = Ok cfg' → cc_ReconnectBackoffBase cfg' < 2 ^ 62 → cc_ReconnectBackoffMax cfg' < 2 ^ 62 →
  Forall failing ts → rt_closing t = false → rt_session t = Some s →
  redialWithBackoff cfg' (ts ++ [t]) =
  (imap (λ k u, jitterDuration (backoff_at (cc_ReconnectBackoffBase cfg') (cc_ReconnectBackoffMax cfg') k) (rt_rand u)) ts,
   RedialSession s).
Proof using Type.
  intros (_ & [_ _ _ _ (H1 & H2 & _) _ _] & _)%validate_spec Hb Hm Hts Hc Hs.
  apply (redialLoop_schedule _ _ ts 0); auto.
Qed.

(** ** Close *)

Lemma Close_run v c t :
  shows v c → (∃ ts, timers_ok v ts) → cl_tun c = Some t → cl_closed c = false →
  ∃ c', Close c = (c', Ok tt) ∧ cl_closed c' = true ∧ cl_armed c' = ∅ ∧
    cl_session c' = Session_Close <$> cl_session c ∧ cl_sent c' = cl_sent c ∧
    cl_tun c' = Some (with_tn_closed t true) ∧ cl_graceTimers c' = [].
Proof using Type.
  intros Hsh Hti Ht Hcl. destruct (shows_client v c Hsh) as (_ & _ & _ & _ & _ & Harm & _).
  assert (Hts : foldr delete (cl_armed c) (cl_graceTimers c) = ∅).
  { destruct Hsh as [Hv _ _]. destruct (view_of_inv _ _ Hv) as (? & ? & _ & _ & ->).
    destruct Hti as [ts Hti]. apply (fmap_empty_inv snd). rewrite fmap_foldr_delete. exact (stop_disarms _ _ Hti). }
  unfold Close. st_step. rewrite Hcl. st_step. rewrite bool_decide_eq_true_2 by (by rewrite Ht).
  unfold tunnel_Close, theTunnel, stopGraceTimers, closeSession. st_step. cbn [cl_tun set_closed]. rewrite Ht. st_step.
  eexists. split; [reflexivity|]. by split_and!.
Qed.

(** Close leaves the session and its assignment where they are. *)
Lemma Close_keeps_assignment v c t :
  shows v c → (∃ ts, timers_ok v ts) → cl_tun c = Some t → cl_closed c = false →
  DNS (Close c).1 = DNS c ∧ DNS6 (Close c).1 = DNS6 c ∧ LocalIP6 (Close c).1 = LocalIP6 c.
Proof using Type.
  intros Hsh Hti Ht Hcl. destruct (Close_run v c t Hsh Hti Ht Hcl) as (c' & -> & _ & _ & H & _).
  unfold DNS, DNS6, LocalIP6. cbn [fst]. rewrite H. by destruct (cl_session c).
Qed.

End life.

(** ** Witnesses *)

Section witnesses.
Local Existing Instances toy_primitives toy_laws toy_radius toy_x509.
#[local] Opaque dial_client read_client.

Lemma Dial_outcome_witness : ∃ cfg', validate dial_cfg = Ok cfg' ∧ dialled (N:=psk_net) cfg' dial_client.
Proof.
  pose proof (Dial_outcome (N:=psk_net) (HN:=psk_net_laws) dial_cfg dial_window) as H.
  rewrite dial_succeeds in H. exact H.
Defined.

(** The driver of the dialled client ends. *)
Abbreviation last_step := (Driver_step EvCancel live_session).
(** A client whose driver has ended with the session [s]. *)
Definition ended (c : Client) (s : Session) : System :=
  {| sy_client := set_session (Some s) c; sy_queue := []; sy_driver := DIdle; sy_timers := []; sy_super := Dying |}.
Definition dead : System := ended read_client last_step.1.

Lemma last_step_ends : last_step.2 = Ok true.
Proof. vm_compute. reflexivity. Qed.
Lemma last_step_installs : installed last_step.1 = installed live_session ++ [].
Proof. vm_compute. reflexivity. Qed.

Lemma pair_of {S E A} (x : S * Res E A) a : x.2 = Ok a → x = (x.1, Ok a).
Proof. destruct x as [s r]. by intros [= ->]. Qed.

Lemma ended_step c c0 s s' :
  cl_session c = Some s → Driver_step EvCancel s = (s', Ok true) → installed s' = installed s ++ [] →
  step (on_client c (launched c0)) (ended c s').
Proof. intros H1 H2 H3.
  exact (StepEvent (on_client c (launched c0)) EvCancel s s' [] true eq_refl eq_refl eq_refl H1 I H2 H3). Qed.

Lemma dead_reached : rtc step (launched dial_client) dead.
Proof.
  eapply rtc_r; [exact reading_reached|].
  exact (ended_step _ _ _ _ live_session_stored (pair_of last_step true last_step_ends) last_step_installs).
Qed.

Lemma ended_tun c s t : cl_tun c = Some t → cl_tun (sy_client (ended c s)) = Some t.
Proof. done. Qed.

Abbreviation psk_session := (handshake (N:=psk_net) (New psk_cfg)).1.

Lemma reconnect_resumes_witness :
  ∃ c' ch t' sa, reconnect false (RedialSession psk_session) (sy_client dead) = (c', Ok tt) ∧
    rtc step dead (on_super c' Running dead) ∧ cl_tun c' = Some t' ∧ cl_esp c' !! tn_sa t' = Some sa ∧
    speaks sa (first_update ch) ∧ cl_inbound c' = Some {[ch_InitiatorSPI ch := tn_sa t']}.
Proof.
  destruct (reconnect_resumes (N:=psk_net) (HN:=psk_net_laws) dial_cfg dial_client dead psk_cfg psk_session dial_tunnel
    dial_window dial_succeeds dead_reached eq_refl eq_refl eq_refl (pair_of _ _ psk_established) (ended_tun _ _ _ dial_tun))
    as (c' & ch & t' & sa & H1 & H2 & _ & _ & _ & H3 & _ & _ & _ & H4 & H5 & H6 & _).
  exists c', ch, t', sa. split; [exact H1|]. split; [exact H2|]. split; [exact H3|]. split; [exact H4|].
  split; [exact H5|exact H6].
Defined.

Definition turn (s : option Session) : redialTurn :=
  {| rt_closing := false; rt_session := s; rt_closingAfter := false; rt_slept := true; rt_rand := None |}.

Lemma redial_backs_off_witness :
  ∃ cfg', validate dial_cfg = Ok cfg' ∧
    redialWithBackoff cfg' ([turn None; turn None] ++ [turn (Some psk_session)]) =
    ([Second; 2 * Second], RedialSession psk_session).
Proof.
  eexists. assert (Hv : validate dial_cfg = Ok _) by reflexivity. split; [exact Hv|].
  exact (redial_backs_off dial_cfg _ [turn None; turn None] (turn (Some psk_session)) psk_session Hv eq_refl eq_refl
    ltac:(repeat constructor) eq_refl eq_refl).
Defined.

End witnesses.
