(* ===== verification/Socks5.v ===== *)
(** * The SOCKS5 front end (cmd/ipsec2socks/socks5.go)

    One connection from the method negotiation to the relay, as a program over what the
    client sends and what it is sent.  An address is its
    octets: that net.IP.String and net.ParseIP undo each other is built into the
    representation, and a domain name is what the client sent. *)

From stdpp Require Import relations.
From S2P Require Import Prelude Natt Config.

(** ** Constants *)

Definition socksVersion := 5.
Definition authVersion := 1.
Definition methodNoAuth := 0.
Definition methodUserPass := 2.
Definition methodNoneOK := 255.
Definition cmdConnect := 1.
Definition atypIPv4 := 1.
Definition atypDomain := 3.
Definition atypIPv6 := 4.
Definition repSuccess := 0.
Definition repHostUnreach := 4.
Definition repConnRefused := 5.
Definition repCommandNotSupport := 7.
Definition repAddrNotSupport := 8.

(** ** The connection *)

(** The client's side of a connection: the octets it has still to deliver before it
    closes, stalls or the deadline passes, those it was sent, and how many more
    writes succeed; [co_dials] are the targets dialled on its behalf. *)
Record Conn := mkConn {
  co_in : bytes;
  co_out : bytes;
  co_writes : nat;
  co_dials : list (Addr * Z);
}.

Inductive socks_error :=
| SErrRead
| SErrWrite
| SErrVersion (v : Z)
| SErrNoMethod
| SErrAuthVersion
| SErrCredentials
| SErrCommand (cmd : Z)
| SErrAddressType (t : Z)
| SErrResolve
| SErrUnroutable.

Abbreviation SK := (ST Conn socks_error).

(** io.ReadFull into a buffer of [n] octets. *)
Definition ReadFull (n : Z) : SK bytes :=
  c ← getS;
  let k := Z.to_nat n in
  if len (co_in c) <? n then
    _ ← putS (mkConn [] (co_out c) (co_writes c) (co_dials c)); throw SErrRead
  else
    _ ← putS (mkConn (drop k (co_in c)) (co_out c) (co_writes c) (co_dials c));
    mret (take k (co_in c)).

Definition Conn_Write (b : bytes) : SK unit :=
  c ← getS;
  match co_writes c with
  | O => throw SErrWrite
  | S n => putS (mkConn (co_in c) (co_out c ++ b) n (co_dials c))
  end.

(** A write whose error is ignored. *)
Definition ignored (m : SK unit) : SK unit := λ c,
  match m c with
  | (c', Ok _) | (c', Err _) => (c', Ok tt)
  | (c', Panic) => (c', Panic)
  | (c', Hang) => (c', Hang)
  end.

(** ** The server *)

Record socksServer := {
  authUser : bytes;
  authPass : bytes;
  authOn : bool;
  maxConns : Z;
  idle : Z;
}.

(** subtle.ConstantTimeCompare *)
Definition ConstantTimeCompare (x y : bytes) : Z := if bool_decide (x = y) then 1 else 0.

Section server.
Context (s : socksServer).
(** The tunnel's resolver, asked for IPv4 addresses only or for any ([None]: it
    fails); and the tunnel's dialer. *)
Inductive dialError := DialDeadline | DialTimeout | DialRefused.
Context (LookupNetIP : bool → bytes → option (list Addr)).
Context (dial : Addr → Z → option dialError).

Definition checkUserPass : SK unit :=
  hdr ← ReadFull 2;
  v ← lift (index hdr 0);
  if negb (v =? authVersion) then throw SErrAuthVersion
  else
    ulen ← lift (index hdr 1);
    user ← ReadFull ulen;
    plenBuf ← ReadFull 1;
    plen ← lift (index plenBuf 0);
    pass ← ReadFull plen;
    let userOK := ConstantTimeCompare user (authUser s) in
    let passOK := ConstantTimeCompare pass (authPass s) in
    if Z.land userOK passOK =? 1 then Conn_Write [authVersion; 0]
    else _ ← ignored (Conn_Write [authVersion; 1]); throw SErrCredentials.

Definition negotiate : SK unit :=
  hdr ← ReadFull 2;
  v ← lift (index hdr 0);
  if negb (v =? socksVersion) then throw (SErrVersion v)
  else
    n ← lift (index hdr 1);
    methods ← ReadFull n;
    let want := if authOn s then methodUserPass else methodNoAuth in
    if negb (existsb (Z.eqb want) methods) then
      _ ← ignored (Conn_Write [socksVersion; methodNoneOK]); throw SErrNoMethod
    else
      _ ← Conn_Write [socksVersion; want];
      if want =? methodUserPass then checkUserPass else mret tt.

Definition writeReply (code : Z) : SK unit :=
  Conn_Write [socksVersion; code; 0; atypIPv4; 0; 0; 0; 0; 0; 0].

Definition resolveHost (name : bytes) : option Addr :=
  let first ips := Unmap <$> head (ips : list Addr) in
  match LookupNetIP true name with
  | Some (a :: _) => Some (Unmap a)
  | _ => match LookupNetIP false name with None => None | Some ips => first ips end
  end.

(** net.IP.To4 *)
Definition To4 (a : Addr) : option bytes :=
  match Unmap a with Addr4 b => Some b | Addr6 _ => None end.

Definition IsUnspecified (a : Addr) : bool :=
  match To4 a with
  | Some b => bool_decide (b = zeros 4)
  | None => bool_decide (addr_bytes a = zeros 16)
  end.
Definition IsLinkLocalUnicast (a : Addr) : bool :=
  match To4 a with
  | Some b => bool_decide (take 2 b = [169; 254])
  | None => match addr_bytes a with
            | b0 :: b1 :: _ => (b0 =? 254) && (Z.land b1 192 =? 128)
            | _ => false
            end
  end.
Definition IsMulticast (a : Addr) : bool :=
  match To4 a with
  | Some (b0 :: _) => Z.land b0 240 =? 224
  | Some [] => false
  | None => match addr_bytes a with b0 :: _ => b0 =? 255 | [] => false end
  end.

Definition isUnroutableTarget (host : Addr) : bool :=
  IsUnspecified host || IsLinkLocalUnicast host || IsMulticast host.

(** What the address part of a request names: [inl] a literal, [inr] a domain. *)
Definition readAddress (atyp : Z) : SK (Addr + bytes) :=
  if atyp =? atypIPv4 then b ← ReadFull 4; mret (inl (Addr4 b))
  else if atyp =? atypIPv6 then b ← ReadFull 16; mret (inl (Unmap (Addr6 b)))
  else if atyp =? atypDomain then
    lb ← ReadFull 1;
    n ← lift (index lb 0);
    name ← ReadFull n;
    mret (inr name)
  else _ ← ignored (writeReply repAddrNotSupport); throw (SErrAddressType atyp).

Definition readRequest : SK (Addr * Z) :=
  hdr ← ReadFull 4;
  v ← lift (index hdr 0);
  if negb (v =? socksVersion) then throw (SErrVersion v)
  else
    cmd ← lift (index hdr 1);
    if negb (cmd =? cmdConnect) then
      _ ← ignored (writeReply repCommandNotSupport); throw (SErrCommand cmd)
    else
      atyp ← lift (index hdr 3);
      a ← readAddress atyp;
      portBuf ← ReadFull 2;
      port ← lift (Uint16 portBuf);
      host ← match a with
             | inl host => mret host
             | inr domain =>
                 match resolveHost domain with
                 | Some host => mret host
                 | None => _ ← ignored (writeReply repHostUnreach); throw SErrResolve
                 end
             end;
      if isUnroutableTarget host then
        _ ← ignored (writeReply repHostUnreach); throw SErrUnroutable
      else mret (host, port).

Definition dialReplyCode (e : dialError) : Z :=
  match e with DialDeadline | DialTimeout => repHostUnreach | DialRefused => repConnRefused end.

(** handle up to the relay: [Some target] when the connection is spliced to it, [None]
    when it is closed instead. *)
Definition handle : SK (option (Addr * Z)) := λ c,
  match (_ ← negotiate; readRequest) c with
  | (c', Ok (host, port)) =>
      let c1 := mkConn (co_in c') (co_out c') (co_writes c') (co_dials c' ++ [(host, port)]) in
      match dial host port with
      | Some e => (_ ← ignored (writeReply (dialReplyCode e)); mret None) c1
      | None =>
          match writeReply repSuccess c1 with
          | (c2, Ok _) => (c2, Ok (Some (host, port)))
          | (c2, Err _) => (c2, Ok None)
          | (c2, Panic) => (c2, Panic)
          | (c2, Hang) => (c2, Hang)
          end
      end
  | (c', Err _) => (c', Ok None)
  | (c', Panic) => (c', Panic)
  | (c', Hang) => (c', Hang)
  end.
End server.

Definition newConn (b : bytes) (writes : nat) : Conn := mkConn b [] writes [].

(** ** What a client must send *)

(** The method negotiation and, when the server asks for it, the login. *)
Definition greeting (s : socksServer) (b : bytes) : Prop :=
  ∃ methods, (if authOn s then methodUserPass else methodNoAuth) ∈ methods ∧
    b = [socksVersion; len methods] ++ methods ++
        (if authOn s
         then [authVersion; len (authUser s)] ++ authUser s ++ [len (authPass s)] ++ authPass s
         else []).

(** The request for a target, literal or named; the third octet is reserved. *)
Definition request (LookupNetIP : bool → bytes → option (list Addr)) (host : Addr) (port : Z) (b : bytes) : Prop :=
  is_u16 port ∧ ∃ r addr, b = [socksVersion; cmdConnect; r] ++ addr ++ put16 port ∧
    ((∃ a, addr = [atypIPv4] ++ a ∧ len a = 4 ∧ host = Addr4 a) ∨
     (∃ a, addr = [atypIPv6] ++ a ∧ len a = 16 ∧ host = Unmap (Addr6 a)) ∨
     (∃ name, addr = [atypDomain; len name] ++ name ∧ resolveHost LookupNetIP name = Some host)).

(** ** Reading and writing *)

Lemma ReadFull_app x rest out w d n :
  len x = n → ReadFull n (mkConn (x ++ rest) out w d) = (mkConn rest out w d, Ok x).
Proof.
  intros <-. unfold ReadFull. st_step. cbn [co_in co_out co_writes co_dials]. go_if. st_step.
  unfold len. rewrite Nat2Z.id, drop_app_length, take_app_length. done.
Qed.

(** [m] succeeds having consumed [x], and otherwise leaves no trace but replies. *)
Record consumed (c : Conn) (x : bytes) (c' : Conn) : Prop := {
  cs_in : co_in c = x ++ co_in c';
  cs_dials : co_dials c' = co_dials c;
}.

Lemma consumed_trans c x c1 y c2 : consumed c x c1 → consumed c1 y c2 → consumed c (x ++ y) c2.
Proof. intros [H1 H2] [H3 H4]. split; [by rewrite H1, H3, app_assoc|congruence]. Qed.

Lemma consumed_nil c out w : consumed c [] (mkConn (co_in c) out w (co_dials c)).
Proof. done. Qed.

Lemma ReadFull_ok n c c' x :
  0 ≤ n → ReadFull n c = (c', Ok x) → consumed c x c' ∧ len x = n ∧ co_writes c' = co_writes c.
Proof.
  intros Hn. unfold ReadFull. st_step. destruct (len (co_in c) <? n) eqn:Hl; [done|]. bool_prop.
  st_step. intros [= <- <-]. split_and!; [split; [cbn; by rewrite take_drop|done]|len_lia|done].
Qed.

(** A computation that cannot panic, and that dials nothing. *)
Definition quiet {A} (m : SK A) (Q : A → Prop) : Prop :=
  ∀ c, bytes_ok (co_in c) →
    bytes_ok (co_in (m c).1) ∧ co_dials (m c).1 = co_dials c ∧ yields Q (m c).2.

Lemma quiet_bind {A B} (m : SK A) (f : A → SK B) Q Q' :
  quiet m Q → (∀ a, Q a → quiet (f a) Q') → quiet (m ≫= f) Q'.
Proof.
  intros Hm Hf c Hc. unfold mbind, ST_bind. destruct (Hm c Hc) as (H1 & H2 & H3).
  destruct (m c) as [c1 [a|e| |]]; cbn in *; [|done..]. destruct (Hf a H3 c1 H1) as (H4 & H5 & H6).
  by rewrite <- H2.
Qed.

Lemma quiet_ret {A} (a : A) (Q : A → Prop) : Q a → quiet (mret a) Q.
Proof. by intros ? c Hc. Qed.
Lemma quiet_throw {A} e (Q : A → Prop) : quiet (throw e) Q.
Proof. by intros c Hc. Qed.
Lemma quiet_lift {A} r (Q : A → Prop) : yields Q r → quiet (lift r) Q.
Proof. by intros ? c Hc. Qed.

Lemma quiet_ReadFull n : 0 ≤ n → quiet (ReadFull n) (λ x, bytes_ok x ∧ len x = n).
Proof.
  intros Hn c Hc. unfold ReadFull. st_step. destruct (len (co_in c) <? n) eqn:Hl; bool_prop; cbn.
  - split; [constructor|done].
  - split_and!; [by apply Forall_drop|done|by apply Forall_take|len_lia].
Qed.

Lemma quiet_Write b : quiet (Conn_Write b) (λ _, True).
Proof. intros c Hc. unfold Conn_Write. st_step. by destruct (co_writes c). Qed.

Lemma quiet_ignored m : quiet m (λ _, True) → quiet (ignored m) (λ _, True).
Proof. intros Hm c Hc. destruct (Hm c Hc) as (? & ? & ?). unfold ignored. by destruct (m c) as [c' []]. Qed.

Lemma quiet_index (b : bytes) i :
  bytes_ok b → 0 ≤ i < len b → quiet (lift (index b i)) byte_ok.
Proof.
  intros Hb Hi. apply quiet_lift. destruct (index_ok (E:=socks_error) b i) as (x & Hx & Hl); [lia..|].
  rewrite Hx. cbn. by eapply bytes_ok_lookup.
Qed.

#[local] Ltac quiet :=
  repeat lazymatch goal with
    | |- quiet (_ ≫= _) _ => eapply quiet_bind
    | |- ∀ x, _ → _ => intros ? ?; cbv beta in *; try match goal with H : bytes_ok _ ∧ _ |- _ => destruct H end
    | |- quiet (if ?b then _ else _) _ => destruct b eqn:?; bool_prop
    | |- quiet (let _ := _ in _) _ => cbv zeta
    | |- quiet (ReadFull _) _ => apply quiet_ReadFull; unfold byte_ok in *; lia
    | |- quiet (lift (index _ _)) _ => apply quiet_index; [done|lia]
    | |- quiet (lift (Uint16 _)) _ => eapply quiet_lift, (be_read_yields 2); [done|lia]
    | |- quiet (ignored _) _ => apply quiet_ignored
    | |- quiet (Conn_Write _) _ => apply quiet_Write
    | |- quiet (writeReply _) _ => apply quiet_Write
    | |- quiet (throw _) _ => apply quiet_throw
    | |- quiet (mret _) _ => by apply quiet_ret
    end.

Section exact.
Context (s : socksServer) (LookupNetIP : bool → bytes → option (list Addr)) (dial : Addr → Z → option dialError).

Lemma quiet_negotiate : quiet (negotiate s) (λ _, True).
Proof. unfold negotiate, checkUserPass. quiet. Qed.

Lemma quiet_readAddress atyp : quiet (readAddress atyp) (λ _, True).
Proof. unfold readAddress. quiet. Qed.

Lemma quiet_readRequest : quiet (readRequest LookupNetIP) (λ _, True).
Proof.
  unfold readRequest. quiet; [apply quiet_readAddress|]. quiet.
  instantiate (1 := λ _, True).
  match goal with |- quiet (match ?a with _ => _ end) _ => destruct a end; [by apply quiet_ret|].
  destruct (resolveHost _ _); quiet.
Qed.

(** *** What is accepted *)

Lemma one (x : bytes) : len x = 1 → ∃ a, x = [a].
Proof. destruct x as [|a [|]]; rewrite ?len_cons, ?len_nil; len_pos; try lia. eauto. Qed.

Lemma Write_ok b c c' :
  Conn_Write b c = (c', Ok tt) → consumed c [] c' ∧ (co_writes c = S (co_writes c')).
Proof. unfold Conn_Write. st_step. destruct (co_writes c) eqn:Hw; [done|]. intros [= <-]. done. Qed.

(** After a reply that reports an error nothing is served. *)
Lemma rejected {A} m e c c' (a : A) : (_ ← ignored m; throw e) c = (c', Ok a) → False.
Proof. unfold mbind, ST_bind, ignored. by destruct (m c) as [c1 []]. Qed.

(** Reading the header of a message. *)
Lemma header_ok c c' (x : bytes) n : ReadFull (Z.of_nat n) c = (c', Ok x) → bytes_ok (co_in c) →
  consumed c x c' ∧ length x = n ∧ co_writes c' = co_writes c ∧ bytes_ok x ∧ bytes_ok (co_in c').
Proof.
  intros Hr Hb. apply ReadFull_ok in Hr as (Hc & Hl & Hw); [|lia]. pose proof (cs_in _ _ _ Hc) as Hi.
  rewrite Hi in Hb. apply bytes_ok_app in Hb as [? ?]. split_and!; [done|unfold len in Hl; lia|done..].
Qed.

Lemma index_two (a b : Z) : index (E:=socks_error) [a; b] 0 = Ok a ∧ index (E:=socks_error) [a; b] 1 = Ok b.
Proof. split; by apply index_lookup. Qed.

Lemma octet_two a b : bytes_ok [a; b] → 0 ≤ b.
Proof. intros (_ & (H & _)%Forall_cons_1)%Forall_cons_1. apply H. Qed.

(** One message: a version, a length, that many octets. *)
Ltac read_two H Hb x y c1 Hc Hw Bx Bc :=
  let h := fresh "h" in let Hr := fresh "Hr" in let Hl := fresh "Hl" in
  run_step H h c1 Hr; apply (header_ok _ _ _ 2) in Hr as (Hc & Hl & Hw & Bx & Bc); [|exact Hb];
  destruct h as [|x [|y [|]]]; try discriminate Hl; clear Hl;
  rewrite st_lift, (proj1 (index_two x y)) in H.

Lemma checkUserPass_ok c c' :
  bytes_ok (co_in c) → checkUserPass s c = (c', Ok tt) →
  consumed c ([authVersion; len (authUser s)] ++ authUser s ++ [len (authPass s)] ++ authPass s) c' ∧
  co_writes c = S (co_writes c').
Proof.
  intros Hb H. unfold checkUserPass in H. read_two H Hb v ulen c1 H1 W1 Bx Hb1.
  destruct (v =? authVersion) eqn:Hv; [|done]. bool_prop. subst v. cbn [negb] in H.
  rewrite st_lift, (proj2 (index_two _ _)) in H.
  assert (Hu : 0 ≤ ulen) by (by eapply octet_two).
  run_step H user c2 Hr2. apply ReadFull_ok in Hr2 as (H2 & L2 & W2); [|done].
  run_step H pb c3 Hr3. apply ReadFull_ok in Hr3 as (H3 & L3 & W3); [|done]. apply one in L3 as [plen ->].
  rewrite st_lift, (index_lookup [plen] 0 plen) in H by done.
  assert (Hp : 0 ≤ plen).
  { rewrite (cs_in _ _ _ H2), (cs_in _ _ _ H3) in Hb1. apply bytes_ok_app in Hb1 as [_ Hb1].
    apply bytes_ok_app in Hb1 as [Hb1 _]. by apply Forall_cons_1 in Hb1 as [[? ?] _]. }
  run_step H pass c4 Hr4. apply ReadFull_ok in Hr4 as (H4 & L4 & W4); [|done].
  unfold ConstantTimeCompare in H. cbv zeta in H.
  destruct (bool_decide (user = authUser s)) eqn:Eu;
    [|destruct (bool_decide (pass = authPass s)); by apply rejected in H].
  destruct (bool_decide (pass = authPass s)) eqn:Ep; [|by apply rejected in H]. apply bool_decide_eq_true in Eu, Ep. subst user pass.
  cbn in H. apply Write_ok in H as [H5 W5]. split; [|congruence].
  pose proof (consumed_trans _ _ _ _ _ H1 (consumed_trans _ _ _ _ _ H2 (consumed_trans _ _ _ _ _ H3
    (consumed_trans _ _ _ _ _ H4 H5)))) as Hall. rewrite app_nil_r in Hall. by rewrite L2, L4.
Qed.

(** Writes that the method negotiation and the login need. *)
Definition replies_needed : nat := if authOn s then 2 else 1.

Lemma want_in methods want : existsb (Z.eqb want) methods = true ↔ want ∈ methods.
Proof.
  rewrite existsb_exists. setoid_rewrite Z.eqb_eq. setoid_rewrite <- list_elem_of_In.
  split; [by intros (x & ? & ->)|eauto].
Qed.

Lemma negotiate_ok c c' :
  bytes_ok (co_in c) → negotiate s c = (c', Ok tt) →
  ∃ g, greeting s g ∧ consumed c g c' ∧ co_writes c = (replies_needed + co_writes c')%nat.
Proof.
  intros Hb H. unfold negotiate in H. read_two H Hb v n c1 H1 W1 Bx Hb1.
  destruct (v =? socksVersion) eqn:Hv; [|done]. bool_prop. subst v. cbn [negb] in H.
  rewrite st_lift, (proj2 (index_two _ _)) in H.
  run_step H methods c2 Hr2. apply ReadFull_ok in Hr2 as (H2 & L2 & W2); [|by eapply octet_two].
  destruct (existsb _ methods) eqn:He; [|by apply rejected in H]. apply want_in in He. cbn [negb] in H.
  run_step H x c3 Hr3. destruct x. apply Write_ok in Hr3 as [H3 W3].
  pose proof (consumed_trans _ _ _ _ _ H1 (consumed_trans _ _ _ _ _ H2 H3)) as Hc. rewrite app_nil_r in Hc.
  unfold replies_needed, greeting. destruct (authOn s) eqn:Ha; cbn in H.
  - apply checkUserPass_ok in H as [H4 W4].
    2: { pose proof (cs_in _ _ _ (consumed_trans _ _ _ _ _ H2 H3)) as Hi. rewrite Hi in Hb1. by apply bytes_ok_app in Hb1 as [_ ?]. }
    eexists. split; [exists methods; split; [done|reflexivity]|].
    split; [|cbn; congruence]. pose proof (consumed_trans _ _ _ _ _ Hc H4) as Hall.
    rewrite <- app_assoc in Hall. by rewrite L2.
  - injection H as <-. eexists. split; [exists methods; split; [done|reflexivity]|].
    split; [|cbn; congruence]. rewrite app_nil_r. by rewrite L2.
Qed.

Lemma index_four (a b r t : Z) :
  index (E:=socks_error) [a; b; r; t] 0 = Ok a ∧ index (E:=socks_error) [a; b; r; t] 1 = Ok b ∧
  index (E:=socks_error) [a; b; r; t] 3 = Ok t.
Proof. split_and!; by apply index_lookup. Qed.

Definition named (atyp : Z) (a : Addr + bytes) (x : bytes) : Prop :=
  match a with
  | inl host => (atyp = atypIPv4 ∧ len x = 4 ∧ host = Addr4 x) ∨
                (atyp = atypIPv6 ∧ len x = 16 ∧ host = Unmap (Addr6 x))
  | inr name => atyp = atypDomain ∧ x = len name :: name
  end.

Lemma readAddress_ok atyp c c' a :
  bytes_ok (co_in c) → readAddress atyp c = (c', Ok a) →
  ∃ x, named atyp a x ∧ consumed c x c' ∧ co_writes c' = co_writes c.
Proof.
  intros Hb H. unfold readAddress in H.
  destruct (atyp =? atypIPv4) eqn:H4; [|destruct (atyp =? atypIPv6) eqn:H6; [|destruct (atyp =? atypDomain) eqn:Hd]];
    bool_prop.
  - run_step H x c1 Hr. apply ReadFull_ok in Hr as (? & ? & ?); [|done]. injection H as <- <-.
    exists x. split; [by left|done].
  - run_step H x c1 Hr. apply ReadFull_ok in Hr as (? & ? & ?); [|done]. injection H as <- <-.
    exists x. split; [by right|done].
  - run_step H x c1 Hr. apply (header_ok _ _ _ 1) in Hr as (H1 & L1 & W1 & Bx & Hb1); [|done].
    destruct x as [|n [|]]; try discriminate L1. rewrite st_lift, (index_lookup [n] 0 n) in H by done.
    run_step H name c2 Hr. apply ReadFull_ok in Hr as (H2 & L2 & W2); [|by apply Forall_cons_1 in Bx as [[? ?] _]].
    injection H as <- <-. exists ([n] ++ name). split_and!; [split; [done|by rewrite L2]|by eapply consumed_trans|congruence].
  - by apply rejected in H.
Qed.

Lemma port_read b port :
  bytes_ok b → len b = 2 → Uint16 b = Ok (E:=socks_error) port → b = put16 port ∧ is_u16 port.
Proof.
  intros Hb Hl. rewrite be_read_ok by lia. intros [= <-]. rewrite take_ge by (unfold len in Hl; lia).
  split; [|pose proof (be_get_bound b Hb) as H; unfold is_u16; by rewrite Hl in H].
  replace 2%nat with (length b) by (unfold len in Hl; lia). by rewrite be_put_get.
Qed.

Lemma readRequest_ok c c' host port :
  bytes_ok (co_in c) → readRequest LookupNetIP c = (c', Ok (host, port)) →
  ∃ q, request LookupNetIP host port q ∧ isUnroutableTarget host = false ∧ consumed c q c' ∧
       co_writes c' = co_writes c.
Proof.
  intros Hb H. unfold readRequest in H.
  run_step H h c1 Hr. apply (header_ok _ _ _ 4) in Hr as (H1 & L1 & W1 & Bx & Hb1); [|done].
  destruct h as [|v [|cmd [|r [|atyp [|]]]]]; try discriminate L1. clear L1.
  destruct (index_four v cmd r atyp) as (I0 & I1 & I3). rewrite st_lift, I0 in H.
  destruct (v =? socksVersion) eqn:Hv; [|done]. bool_prop. subst v. cbn [negb] in H. rewrite st_lift, I1 in H.
  destruct (cmd =? cmdConnect) eqn:Hc; [|by apply rejected in H]. bool_prop. subst cmd. cbn [negb] in H.
  rewrite st_lift, I3 in H. run_step H a c2 Ha. apply readAddress_ok in Ha as (x & Hn & H2 & W2); [|done].
  assert (Hb2 : bytes_ok (co_in c2)) by (rewrite (cs_in _ _ _ H2) in Hb1; by apply bytes_ok_app in Hb1 as [_ ?]).
  run_step H pb c3 Hr. apply (header_ok _ _ _ 2) in Hr as (H3 & L3 & W3 & Bp & Hb3); [|done].
  rewrite st_lift in H. destruct (Uint16 pb) as [p|e| |] eqn:Hp; [|done..].
  apply port_read in Hp as [-> Hport]; [|done|unfold len; lia].
  run_step H host' c4 Hh. destruct (isUnroutableTarget host') eqn:Hu; [by apply rejected in H|]. injection H as <- <- <-.
  assert (c4 = c3 ∧ match a with inl h => h = host' | inr d => resolveHost LookupNetIP d = Some host' end) as [-> Hres].
  { destruct a as [h|d]; [by injection Hh as <- <-|].
    destruct (resolveHost LookupNetIP d); [by injection Hh as <- <-|by apply rejected in Hh]. }
  exists (([socksVersion; cmdConnect; r; atyp] ++ x) ++ put16 p).
  split_and!; [|done|by repeat eapply consumed_trans|congruence]. split; [done|]. exists r, (atyp :: x).
  split; [done|]. destruct a as [h|d]; cbn in Hn.
  - subst h. destruct Hn as [(-> & ? & ->)|(-> & ? & ->)]; [left|right; left]; by exists x.
  - destruct Hn as (-> & ->). right; right. by exists d.
Qed.

(** *** What is served *)

Lemma negotiate_serves g rest out w d :
  greeting s g →
  ∃ out', negotiate s (mkConn (g ++ rest) out (replies_needed + w) d) = (mkConn rest out' w d, Ok tt) ∧
    out' = out ++ (if authOn s then [socksVersion; methodUserPass; authVersion; 0] else [socksVersion; methodNoAuth]).
Proof.
  intros (methods & Hin & ->). eexists. split; [|reflexivity]. unfold negotiate, replies_needed.
  rewrite <- !app_assoc, st_mbind_run, (ReadFull_app [socksVersion; len methods]) by done.
  rewrite st_lift, (proj1 (index_two _ _)). rewrite Z.eqb_refl. cbn [negb].
  rewrite st_lift, (proj2 (index_two _ _)), st_mbind_run, ReadFull_app by done.
  rewrite (proj2 (want_in _ _) Hin). cbn [negb]. rewrite st_mbind_run. unfold Conn_Write at 1.
  destruct (authOn s) eqn:Ha.
  - rewrite st_get. cbn [co_writes Nat.add co_in co_out co_dials]. unfold putS. rewrite Z.eqb_refl.
    unfold checkUserPass. rewrite <- !app_assoc, st_mbind_run, (ReadFull_app [authVersion; len (authUser s)]) by done.
    rewrite st_lift, (proj1 (index_two _ _)), Z.eqb_refl. cbn [negb].
    rewrite st_lift, (proj2 (index_two _ _)), st_mbind_run, ReadFull_app by done.
    rewrite st_mbind_run, (ReadFull_app [len (authPass s)]) by done.
    rewrite st_lift, (index_lookup _ 0 (len (authPass s))) by done.
    rewrite st_mbind_run, ReadFull_app by done. unfold ConstantTimeCompare.
    rewrite !bool_decide_eq_true_2 by done. change (Z.land 1 1 =? 1) with true. cbv iota zeta. unfold Conn_Write. rewrite st_get.
    cbn [co_writes co_in co_out co_dials]. unfold putS. by rewrite <- app_assoc.
  - rewrite st_get. cbn. done.
Qed.

Lemma readAddress_serves atyp a x rest out w d :
  named atyp a x → readAddress atyp (mkConn (x ++ rest) out w d) = (mkConn rest out w d, Ok a).
Proof.
  unfold readAddress. destruct a as [h|name]; cbn.
  - intros [(-> & Hl & ->)|(-> & Hl & ->)]; cbn [Z.eqb atypIPv4 atypIPv6 Pos.eqb];
      by rewrite st_mbind_run, (ReadFull_app x rest) by done.
  - intros (-> & ->). cbn [Z.eqb atypIPv4 atypIPv6 atypDomain Pos.eqb].
    rewrite st_mbind_run, (ReadFull_app [len name] (name ++ rest)) by done.
    rewrite st_lift, (index_lookup _ 0 (len name)) by done. by rewrite st_mbind_run, ReadFull_app by done.
Qed.

Lemma readRequest_serves host port q rest out w d :
  request LookupNetIP host port q → isUnroutableTarget host = false →
  readRequest LookupNetIP (mkConn (q ++ rest) out w d) = (mkConn rest out w d, Ok (host, port)).
Proof.
  intros (Hp & r & addr & -> & Haddr) Hu.
  assert (∃ atyp a x, addr = atyp :: x ∧ named atyp a x ∧
    match a with inl h => h = host | inr n => resolveHost LookupNetIP n = Some host end)
    as (atyp & a & x & -> & Hn & Hres).
  { destruct Haddr as [(b & -> & ? & ->)|[(b & -> & ? & ->)|(n & -> & ?)]].
    - exists atypIPv4, (inl (Addr4 b)), b. by split_and!; [|left|].
    - exists atypIPv6, (inl (Unmap (Addr6 b))), b. by split_and!; [|right|].
    - by exists atypDomain, (inr n), (len n :: n). }
  unfold readRequest. destruct (index_four socksVersion cmdConnect r atyp) as (I0 & I1 & I3).
  change (([socksVersion; cmdConnect; r] ++ (atyp :: x) ++ put16 port) ++ rest)
    with ([socksVersion; cmdConnect; r; atyp] ++ (x ++ put16 port) ++ rest).
  rewrite st_mbind_run, ReadFull_app, st_lift, I0, Z.eqb_refl by done. cbn [negb].
  rewrite st_lift, I1, Z.eqb_refl. cbn [negb]. rewrite st_lift, I3, <- app_assoc.
  rewrite st_mbind_run, (readAddress_serves atyp a x) by done.
  rewrite st_mbind_run, ReadFull_app, st_lift, be_read_exact by done.
  destruct a as [h|n]; [subst h|rewrite Hres]; rewrite st_mret, Hu; done.
Qed.

(** A conversation that asks for the target, preceded by the login where one is required. *)
Definition asks (b : bytes) (host : Addr) (port : Z) : Prop :=
  ∃ g q rest, b = g ++ q ++ rest ∧ greeting s g ∧ request LookupNetIP host port q ∧
    isUnroutableTarget host = false.

Lemma opening_ok b w c host port :
  bytes_ok b → (_ ← negotiate s; readRequest LookupNetIP) (newConn b w) = (c, Ok (host, port)) →
  asks b host port ∧ (replies_needed ≤ w)%nat ∧ co_dials c = [].
Proof.
  intros Hb H. run_step H x c1 H1. destruct x. apply negotiate_ok in H1 as (g & Hg & [Hi Hd] & Hw); [|done].
  cbn in Hi, Hd, Hw. assert (Hb1 : bytes_ok (co_in c1)) by (rewrite Hi in Hb; by apply bytes_ok_app in Hb as [_ ?]).
  apply readRequest_ok in H as (q & Hq & Hu & [Hi' Hd'] & _); [|done].
  split_and!; [|lia|congruence]. exists g, q, (co_in c). split_and!; [congruence|done..].
Qed.

Lemma opening_serves b w host port :
  asks b host port → (replies_needed ≤ w)%nat →
  ∃ c, (_ ← negotiate s; readRequest LookupNetIP) (newConn b w) = (c, Ok (host, port)).
Proof.
  intros (g & q & rest & -> & Hg & Hq & Hu) Hw. unfold newConn.
  replace w with (replies_needed + (w - replies_needed))%nat by lia.
  destruct (negotiate_serves g (q ++ rest) [] (w - replies_needed) [] Hg) as (out & Hn & _).
  rewrite st_mbind_run, Hn. cbn. eexists. by apply readRequest_serves.
Qed.

Lemma handle_run b w :
  bytes_ok b →
  ∃ c r, handle s LookupNetIP dial (newConn b w) = (c, Ok r) ∧
    match (_ ← negotiate s; readRequest LookupNetIP) (newConn b w) with
    | (_, Ok t) => co_dials c = [t]
    | _ => co_dials c = [] ∧ r = None
    end.
Proof.
  intros Hb. pose proof (quiet_bind _ _ _ _ quiet_negotiate (λ _ _, quiet_readRequest) (newConn b w) Hb)
    as (_ & Hd & Hs). unfold handle.
  destruct ((_ ← negotiate s; readRequest LookupNetIP) (newConn b w)) as [c1 [[host port]|e| |]] eqn:Ho; cbn in Hd, Hs;
    [|by exists c1, None|done..].
  destruct (dial host port) as [e|]; unfold writeReply, Conn_Write, ignored, mbind, ST_bind, getS; cbn;
    destruct (co_writes c1); eexists _, _; (split; [reflexivity|]); cbn; by rewrite Hd.
Qed.

(** Who is dialled for has asked. *)
Lemma handle_dials b w c r host port :
  bytes_ok b → handle s LookupNetIP dial (newConn b w) = (c, Ok r) → (host, port) ∈ co_dials c →
  asks b host port ∧ (replies_needed ≤ w)%nat.
Proof.
  intros Hb Hh Hin. destruct (handle_run b w Hb) as (c' & r' & Hh' & Hd). rewrite Hh in Hh'. injection Hh' as <- <-.
  destruct ((_ ← negotiate s; readRequest LookupNetIP) (newConn b w)) as [c1 [[h p]|e| |]] eqn:Ho.
  2-4: destruct Hd as [Hd _]; rewrite Hd in Hin; by apply elem_of_nil in Hin.
  rewrite Hd in Hin. apply list_elem_of_singleton in Hin as [= -> ->]. by apply opening_ok in Ho as (? & ? & _).
Qed.

(** C30. The proxy serves exactly who it should.  Whatever a client sends, its handler ends
    without a panic having dialled at most one target; and it dials a target exactly when
    the client's octets are a well-formed negotiation, with the configured user and
    password as separate fields where a login is required, followed by a CONNECT request
    for that target, by address or by a name that resolves to it, which is not an
    unroutable address (given that the client takes the replies in between). *)
Theorem proxy_serves_exactly b w :
  bytes_ok b →
  ∃ c r, handle s LookupNetIP dial (newConn b w) = (c, Ok r) ∧ (length (co_dials c) ≤ 1)%nat ∧
    ∀ host port, (host, port) ∈ co_dials c ↔ asks b host port ∧ (replies_needed ≤ w)%nat.
Proof.
  intros Hb. destruct (handle_run b w Hb) as (c & r & Hh & Hd). exists c, r. split_and!; [done| |].
  { destruct ((_ ← negotiate s; readRequest LookupNetIP) (newConn b w)) as [c1 []]; [by rewrite Hd|..];
      destruct Hd as [-> _]; cbn; lia. }
  intros host port. split; [by apply handle_dials with (r := r)|]. intros [Ha Hw].
  destruct (opening_serves b w host port Ha Hw) as [c2 H2]. rewrite H2 in Hd. rewrite Hd. left.
Qed.

(** A served client is told so: after a well-formed negotiation and request the handler
    accepts the method, confirms the login where one is required, and then sends the one
    reply that says how the dial went: success, after which the octets that follow are
    relayed, host unreachable for a dial that timed out, connection refused otherwise. *)
Theorem proxy_replies g q rest host port w :
  greeting s g → request LookupNetIP host port q → isUnroutableTarget host = false →
  handle s LookupNetIP dial (newConn (g ++ q ++ rest) (replies_needed + S w)) =
  (mkConn rest
     ((if authOn s then [socksVersion; methodUserPass; authVersion; 0] else [socksVersion; methodNoAuth]) ++
      [socksVersion;
       match dial host port with
       | None => repSuccess | Some DialRefused => repConnRefused | Some _ => repHostUnreach
       end; 0; atypIPv4; 0; 0; 0; 0; 0; 0])
     w [(host, port)],
   Ok (match dial host port with None => Some (host, port) | Some _ => None end)).
Proof.
  intros Hg Hq Hu. unfold handle, newConn.
  destruct (negotiate_serves g (q ++ rest) [] (S w) [] Hg) as (out & Hn & ->).
  rewrite st_mbind_run, Hn, (readRequest_serves host port) by done.
  destruct (dial host port) as [[]|]; reflexivity.
Qed.
End exact.

(** ** Witnesses *)

(** A server with the login u, p:q, and a client that asks for 10.0.0.2:443. *)
Definition demo_server : socksServer :=
  {| authUser := [117]; authPass := [112; 58; 113]; authOn := true; maxConns := 0; idle := 0 |}.
Definition demo_greeting : bytes := [5; 2; 0; 2; 1; 1; 117; 3; 112; 58; 113].
Definition demo_request : bytes := [5; 1; 0; 1; 10; 0; 0; 2; 1; 187].
Definition demo_host : Addr := Addr4 [10; 0; 0; 2].

Lemma demo_greets : greeting demo_server demo_greeting.
Proof. exists [0; 2]. split; [|reflexivity]. right. left. Qed.

Lemma demo_requests lookup : request lookup demo_host 443 demo_request.
Proof.
  split; [done|]. exists 0, [1; 10; 0; 0; 2]. split; [reflexivity|]. left. exists [10; 0; 0; 2]. done.
Qed.

Lemma proxy_serves_exactly_witness :
  ∃ c r, handle demo_server (λ _ _, None) (λ _ _, None) (newConn (demo_greeting ++ demo_request) 3) = (c, Ok r) ∧
    (demo_host, 443) ∈ co_dials c.
Proof.
  destruct (proxy_serves_exactly demo_server (λ _ _, None) (λ _ _, None) (demo_greeting ++ demo_request) 3)
    as (c & r & H & _ & Hd).
  - repeat constructor; lia.
  - exists c, r. split; [exact H|]. apply Hd. split; [|cbn; lia].
    exists demo_greeting, demo_request, []. split; [reflexivity|].
    split; [apply demo_greets|]. split; [apply demo_requests|reflexivity].
Defined.

Lemma proxy_replies_witness :
  handle demo_server (λ _ _, None) (λ _ _, Some DialTimeout) (newConn (demo_greeting ++ demo_request ++ [9]) 3) =
  (mkConn [9] [5; 2; 1; 0; 5; 4; 0; 1; 0; 0; 0; 0; 0; 0] 0 [(demo_host, 443)], Ok None).
Proof.
  exact (proxy_replies demo_server (λ _ _, None) (λ _ _, Some DialTimeout) demo_greeting demo_request [9] demo_host 443 0
    demo_greets (demo_requests _) eq_refl).
Defined.
