(* ===== verification/Relay.v ===== *)
(** * The relay of the SOCKS5 front end (splice and serveListener of socks5.go)

    splice runs two pumps and an idle watchdog over one pair of connections; their
    interleavings are a step relation.  serveListener's accept loop and its handlers,
    with the semaphore that bounds them, are another. *)

From stdpp Require Import relations.
From S2P Require Import Prelude Socks5.

(** ** splice *)

(** Where a pump is: about to read; with octets to write, and whether the read also
    reported the end of its source; returned. *)
Inductive pump_pc := Reading | Writing (chunk : bytes) (eof : bool) | Returned.

(** One direction.  [d_src]: the octets its source will still deliver before it ends;
    [d_dst]: the octets its destination has taken; [d_fin]: its destination was
    half-closed. *)
Record direction := mkDir {
  d_src : bytes;
  d_pc : pump_pc;
  d_dst : bytes;
  d_fin : bool;
}.

(** [r_last] is lastNanos, [r_stopped] that stop has closed both connections. *)
Record relay := mkRelay {
  r_up : direction;
  r_down : direction;
  r_last : Z;
  r_now : Z;
  r_stopped : bool;
}.

(** How a pump ends when its source does: [halfCloses] when the destination has a
    CloseWrite and the watchdog is armed. *)
Definition pumpEnded (halfCloses : bool) (d : direction) : direction * bool :=
  if halfCloses then (mkDir (d_src d) Returned (d_dst d) true, false)
  else (mkDir (d_src d) Returned (d_dst d) (d_fin d), true).

Section splice.
(** s.idle, and whether the two destinations have a CloseWrite. *)
Context (idle : Z) (closeWriter : bool).

Definition halfCloses : bool := closeWriter && (idle >? 0).

(** One pump: [stopped] is read on entry; the new direction, whether it touched
    lastNanos, and whether it called stop. *)
Inductive pump (stopped : bool) (d : direction) : direction → bool → bool → Prop :=
| PumpRead chunk rest eof :
    d_pc d = Reading → stopped = false → chunk ≠ [] → d_src d = chunk ++ rest → (eof = true → rest = []) →
    len chunk ≤ 32 * 1024 →
    pump stopped d (mkDir rest (Writing chunk eof) (d_dst d) (d_fin d)) true false
| PumpEnd d' st :
    d_pc d = Reading → d_src d = [] ∨ stopped = true → pumpEnded halfCloses d = (d', st) →
    pump stopped d d' false st
| PumpWrite chunk d' st eof :
    d_pc d = Writing chunk eof → stopped = false →
    (if eof then pumpEnded halfCloses (mkDir (d_src d) Reading (d_dst d ++ chunk) (d_fin d))
     else (mkDir (d_src d) Reading (d_dst d ++ chunk) (d_fin d), false)) = (d', st) →
    pump stopped d d' false st
| PumpBroken chunk eof k :
    d_pc d = Writing chunk eof → (k < length chunk)%nat →
    pump stopped d (mkDir (d_src d) Returned (d_dst d ++ take k chunk) (d_fin d)) false true.

Definition after (r : relay) (touched st : bool) : Z * bool :=
  (if touched then r_now r else r_last r, r_stopped r || st).

Inductive relay_step (r : relay) : relay → Prop :=
| StepUp d touched st last stopped :
    pump (r_stopped r) (r_up r) d touched st → after r touched st = (last, stopped) →
    relay_step r (mkRelay d (r_down r) last (r_now r) stopped)
| StepDown d touched st last stopped :
    pump (r_stopped r) (r_down r) d touched st → after r touched st = (last, stopped) →
    relay_step r (mkRelay (r_up r) d last (r_now r) stopped)
(** A tick of the watchdog, which runs until both pumps have returned. *)
| StepIdle :
    0 < idle → d_pc (r_up r) ≠ Returned ∨ d_pc (r_down r) ≠ Returned → idle ≤ r_now r - r_last r →
    relay_step r (mkRelay (r_up r) (r_down r) (r_last r) (r_now r) true)
(** splice returns, and its deferred stop runs. *)
| StepReturn :
    d_pc (r_up r) = Returned → d_pc (r_down r) = Returned →
    relay_step r (mkRelay (r_up r) (r_down r) (r_last r) (r_now r) true)
| StepTime dt :
    0 ≤ dt → relay_step r (mkRelay (r_up r) (r_down r) (r_last r) (r_now r + dt) (r_stopped r)).
End splice.

Definition started (up down : bytes) (now : Z) : relay :=
  mkRelay (mkDir up Reading [] false) (mkDir down Reading [] false) now now false.

(** ** serveListener *)

(** [l_waiting]: a connection was accepted and waits for a slot; [l_sem]: the slots
    taken; [l_active]: the handlers running. *)
Record listener := mkListener { l_waiting : bool; l_sem : Z; l_active : nat; l_open : bool }.

Section listener.
Context (maxConns : Z).

Inductive listen_step (l : listener) : listener → Prop :=
| StepAccept :
    l_open l = true → l_waiting l = false → listen_step l (mkListener true (l_sem l) (l_active l) true)
| StepServe :
    l_open l = true → l_waiting l = true → (maxConns > 0 → l_sem l < maxConns) →
    listen_step l (mkListener false (if maxConns >? 0 then l_sem l + 1 else l_sem l) (S (l_active l)) true)
| StepCancel :
    l_open l = true → listen_step l (mkListener false (l_sem l) (l_active l) false)
| StepServed n :
    l_active l = S n → listen_step l (mkListener (l_waiting l) (if maxConns >? 0 then l_sem l - 1 else l_sem l) n (l_open l)).
End listener.

Definition listening : listener := mkListener false 0 0 true.

(** ** What the relay delivers *)

Section proofs.
Context (idle : Z) (closeWriter : bool).
#[local] Abbreviation step := (relay_step idle closeWriter).

(** A direction whose source held [orig]. *)
Definition dir_inv (orig : bytes) (stopped : bool) (d : direction) : Prop :=
  match d_pc d with
  | Reading => d_dst d ++ d_src d = orig
  | Writing chunk eof => d_dst d ++ chunk ++ d_src d = orig ∧ (eof = true → d_src d = [])
  | Returned => d_dst d `prefix_of` orig ∧ (stopped = false → d_dst d = orig)
  end.

Lemma dir_inv_stop orig stopped st d : dir_inv orig stopped d → dir_inv orig (stopped || st) d.
Proof. unfold dir_inv. destruct (d_pc d); [done..|]. intros [? H]. split; [done|]. intros [? _]%orb_false_iff. auto. Qed.

Lemma pumpEnded_inv hc orig stopped d d' st :
  d_dst d `prefix_of` orig → d_dst d = orig ∨ stopped = true ∨ hc = false → pumpEnded hc d = (d', st) →
  dir_inv orig (stopped || st) d'.
Proof.
  intros Hp Ho. unfold pumpEnded, dir_inv. destruct hc; intros [= <- <-]; cbn; (split; [done|]).
  - intros [Hs _]%orb_false_iff. destruct Ho as [?|[?|?]]; congruence.
  - by rewrite orb_true_r.
Qed.

Lemma pump_inv orig stopped d d' touched st :
  dir_inv orig stopped d → pump idle closeWriter stopped d d' touched st → dir_inv orig (stopped || st) d'.
Proof.
  intros Hi Hp. destruct Hp as [chunk rest eof Hpc Hs Hc Hsrc He Hl|d' st Hpc Hs He|chunk d' st eof Hpc Hs He|chunk eof k Hpc Hk];
    unfold dir_inv in Hi; rewrite Hpc in Hi.
  - unfold dir_inv. cbn. by rewrite <- Hsrc.
  - eapply pumpEnded_inv; [|..|done].
    + rewrite <- Hi. by eexists.
    + destruct Hs as [Hs|Hs]; [left|auto]. by rewrite Hs, app_nil_r in Hi.
  - destruct Hi as [Hi Heof]. rewrite app_assoc in Hi. destruct eof.
    + eapply pumpEnded_inv; [..|done]; cbn; [rewrite <- Hi; by eexists|].
      left. by rewrite Heof, app_nil_r in Hi.
    + injection He as <- <-. exact Hi.
  - destruct Hi as [Hi _]. split; cbn; [|by rewrite orb_true_r]. rewrite <- Hi.
    apply prefix_app. eapply prefix_app_r, prefix_take. Unshelve. all: done.
Qed.

Record relay_inv (up down : bytes) (r : relay) : Prop := {
  ri_up : dir_inv up (r_stopped r) (r_up r);
  ri_down : dir_inv down (r_stopped r) (r_down r);
  ri_clock : r_last r ≤ r_now r;
}.

Lemma relay_inv_started up down now : relay_inv up down (started up down now).
Proof. by constructor. Qed.

Lemma relay_inv_step up down r r' : relay_inv up down r → step r r' → relay_inv up down r'.
Proof.
  intros [Hu Hd Hc] Hst. destruct Hst as [d touched st last stopped Hp Ha|d touched st last stopped Hp Ha| | |dt Hdt];
    try (injection Ha as <- <-).
  - constructor; cbn; [by eapply pump_inv|by apply dir_inv_stop|destruct touched; lia].
  - constructor; cbn; [by apply dir_inv_stop|by eapply pump_inv|destruct touched; lia].
  - constructor; cbn; [|..|done]; [apply (dir_inv_stop _ _ true) in Hu|apply (dir_inv_stop _ _ true) in Hd];
      by rewrite orb_true_r in *.
  - constructor; cbn; [|..|done]; [apply (dir_inv_stop _ _ true) in Hu|apply (dir_inv_stop _ _ true) in Hd];
      by rewrite orb_true_r in *.
  - constructor; cbn; [done|done|lia].
Qed.

Lemma relay_inv_reachable up down r r' : relay_inv up down r → rtc step r r' → relay_inv up down r'.
Proof. intros Hi Hr. revert Hi. induction Hr; eauto using relay_inv_step. Qed.

Lemma dir_inv_prefix orig stopped d : dir_inv orig stopped d → d_dst d `prefix_of` orig.
Proof. unfold dir_inv. destruct (d_pc d); [intros <-|intros [<- _]|intros [? _]]; [by eexists..|done]. Qed.

(** C39. The relay is faithful: however its pumps, its watchdog and the two peers interleave,
    each side has been given a prefix of what the other sent, in order; and while the
    relay has not been torn down, a direction that has ended has delivered all of it. *)
Theorem relay_faithful up down now r :
  rtc step (started up down now) r →
  d_dst (r_up r) `prefix_of` up ∧ d_dst (r_down r) `prefix_of` down ∧
  (r_stopped r = false → d_pc (r_up r) = Returned → d_dst (r_up r) = up) ∧
  (r_stopped r = false → d_pc (r_down r) = Returned → d_dst (r_down r) = down).
Proof.
  intros Hr. destruct (relay_inv_reachable up down _ r (relay_inv_started up down now) Hr) as [Hu Hd _].
  split_and!; [by eapply dir_inv_prefix..| |].
  - intros Hs Hp. unfold dir_inv in Hu. rewrite Hp in Hu. by apply Hu.
  - intros Hs Hp. unfold dir_inv in Hd. rewrite Hp in Hd. by apply Hd.
Qed.

(** The clock and the last activity only move forward. *)
Lemma last_step r r' :
  r_last r ≤ r_now r → step r r' → r_last r ≤ r_last r' ∧ r_last r' ≤ r_now r' ∧ r_now r ≤ r_now r'.
Proof.
  intros Hc Hst. destruct Hst as [d touched st last stopped Hp Ha|d touched st last stopped Hp Ha| | |dt Hdt];
    try (injection Ha as <- <-); cbn; try destruct touched; lia.
Qed.

Lemma last_mono r r' :
  r_last r ≤ r_now r → rtc step r r' → r_last r ≤ r_last r' ∧ r_last r' ≤ r_now r' ∧ r_now r ≤ r_now r'.
Proof.
  intros Hc Hr. revert Hc. induction Hr as [|r1 r2 r3 Hs _ IH]; intros Hc; [lia|].
  destruct (last_step r1 r2 Hc Hs) as (? & H2 & ?). destruct (IH H2) as (? & ? & ?). lia.
Qed.

(** Octets arrive in one of the directions: a step in which a pump's Read returns some. *)
Inductive reads (r : relay) : relay → Prop :=
| ReadsUp d st :
    pump idle closeWriter (r_stopped r) (r_up r) d true st →
    reads r (mkRelay d (r_down r) (r_now r) (r_now r) (r_stopped r || st))
| ReadsDown d st :
    pump idle closeWriter (r_stopped r) (r_down r) d true st →
    reads r (mkRelay (r_up r) d (r_now r) (r_now r) (r_stopped r || st)).

Lemma reads_step r r' : reads r r' → step r r' ∧ r_last r' = r_now r ∧ r_now r' = r_now r.
Proof. intros [d st Hp|d st Hp]; (split; [|done]); [by eapply StepUp|by eapply StepDown]. Qed.

(** The idle watchdog needs silence: whichever direction octets arrived in, the
    watchdog's next teardown is at least the idle time later, so a transfer in one
    direction keeps both alive. *)
Theorem idle_needs_silence up down now r1 r2 r3 :
  rtc step (started up down now) r1 → reads r1 r2 → rtc step r2 r3 →
  idle ≤ r_now r3 - r_last r3 → idle ≤ r_now r3 - r_now r1.
Proof.
  intros H1 (Hst & Hl & Hn)%reads_step H3 Hidle.
  destruct (relay_inv_reachable up down _ r1 (relay_inv_started up down now) H1) as [_ _ Hc].
  destruct (last_mono r2 r3) as (? & ? & ?); [lia|done|]. lia.
Qed.
End proofs.

(** ** Draining *)

Section drain.
Context (idle : Z) (Hidle : 0 < idle).
#[local] Abbreviation step := (relay_step idle true).

Lemma armed : halfCloses idle true = true.
Proof using Hidle. unfold halfCloses. cbn. lia. Qed.

(** One direction, run to its end, while nothing stops the relay. *)
Inductive pumps : direction → direction → Prop :=
| PumpsDone d : pumps d d
| PumpsStep d d1 d' touched : pump idle true false d d1 touched false → pumps d1 d' → pumps d d'.

Lemma pumps_drain n orig d :
  (length (d_src d) ≤ n)%nat → dir_inv orig false d → ∃ d', pumps d d' ∧ d_pc d' = Returned ∧ d_dst d' = orig.
Proof using Hidle.
  assert (Hend : ∀ d0, d_pc d0 = Reading → d_dst d0 = orig → d_src d0 = [] →
    ∃ d', pumps d0 d' ∧ d_pc d' = Returned ∧ d_dst d' = orig).
  { intros d0 Hp Hd Hs. eexists. split; [eapply PumpsStep; [|apply PumpsDone]|].
    - eapply PumpEnd; [done|by left|]. unfold pumpEnded. rewrite armed. reflexivity.
    - done. }
  revert d. induction n as [n IH] using lt_wf_ind. intros d Hn Hi. unfold dir_inv in Hi.
  assert (Hread : ∀ d0, d_pc d0 = Reading → d_dst d0 ++ d_src d0 = orig → (length (d_src d0) ≤ n)%nat →
    ∃ d', pumps d0 d' ∧ d_pc d' = Returned ∧ d_dst d' = orig).
  { intros d0 Hp Hd Hl. destruct (decide (d_src d0 = [])) as [Hs|Hs].
    { apply Hend; [done| |done]. by rewrite Hs, app_nil_r in Hd. }
    set (k := Z.to_nat (32 * 1024)). pose proof (take_drop k (d_src d0)) as Htd.
    assert (Hk : Z.of_nat k = 32 * 1024) by (unfold k; lia). clearbody k. assert (Hlt : (length (drop k (d_src d0)) < n)%nat).
    { rewrite length_drop. destruct (d_src d0); [done|]. cbn in *. lia. }
    destruct (IH _ Hlt (mkDir (drop k (d_src d0)) Reading (d_dst d0 ++ take k (d_src d0)) (d_fin d0)))
      as (d' & Hps & Hd'); [done| |].
    { cbn. by rewrite <- app_assoc, Htd. }
    exists d'. split; [|exact Hd']. eapply PumpsStep; [|eapply PumpsStep; [|exact Hps]].
    - eapply (PumpRead _ _ _ _ (take k (d_src d0)) (drop k (d_src d0)) false); try done.
      + destruct (d_src d0), k; done || lia.
      + rewrite len_take. lia.
    - eapply (PumpWrite _ _ _ _ (take k (d_src d0))); done. }
  destruct (d_pc d) as [|chunk eof|] eqn:Hpc.
  - by apply Hread.
  - destruct Hi as [Hi Heof]. rewrite app_assoc in Hi. destruct eof.
    + eexists. split; [eapply PumpsStep; [|apply PumpsDone]|].
      * eapply PumpWrite; [done..|]. unfold pumpEnded. rewrite armed. reflexivity.
      * cbn. rewrite Heof, app_nil_r in Hi by done. done.
    + destruct (Hread (mkDir (d_src d) Reading (d_dst d ++ chunk) (d_fin d))) as (d' & Hps & Hd'); [done..|].
      exists d'. split; [|exact Hd']. eapply PumpsStep; [|exact Hps]. by eapply PumpWrite.
  - exists d. split; [constructor|]. split; [done|]. by apply Hi.
Qed.

Lemma pumps_up d d' down last now :
  pumps d d' → ∃ last', rtc step (mkRelay d down last now false) (mkRelay d' down last' now false).
Proof using Type.
  intros Hp. revert last. induction Hp as [d|d d1 d' touched Hp _ IH]; intros last; [by eexists|].
  destruct (IH (if touched then now else last)) as [last' Hr]. exists last'.
  eapply rtc_l; [|exact Hr]. by eapply StepUp.
Qed.

Lemma pumps_down d d' up last now :
  pumps d d' → ∃ last', rtc step (mkRelay up d last now false) (mkRelay up d' last' now false).
Proof using Type.
  intros Hp. revert last. induction Hp as [d|d d1 d' touched Hp _ IH]; intros last; [by eexists|].
  destruct (IH (if touched then now else last)) as [last' Hr]. exists last'.
  eapply rtc_l; [|exact Hr]. by eapply StepDown.
Qed.

(** The relay drains: with the idle timeout set and destinations that can be half-closed,
    from any point at which it has not been torn down the pumps alone can finish, both
    returning with everything delivered both ways, even after one side has ended. *)
Theorem relay_drains up down now r :
  rtc step (started up down now) r → r_stopped r = false →
  ∃ r', rtc step r r' ∧ d_pc (r_up r') = Returned ∧ d_pc (r_down r') = Returned ∧
    d_dst (r_up r') = up ∧ d_dst (r_down r') = down.
Proof using Hidle.
  intros Hr Hs. destruct (relay_inv_reachable _ _ up down _ r (relay_inv_started up down now) Hr) as [Hu Hd _].
  rewrite Hs in Hu, Hd.
  destruct (pumps_drain _ up (r_up r) (le_n _) Hu) as (u' & Hup & Hu1 & Hu2).
  destruct (pumps_drain _ down (r_down r) (le_n _) Hd) as (d' & Hdp & Hd1 & Hd2).
  destruct (pumps_up _ _ (r_down r) (r_last r) (r_now r) Hup) as [l1 R1].
  destruct (pumps_down _ _ u' l1 (r_now r) Hdp) as [l2 R2].
  exists (mkRelay u' d' l2 (r_now r) false). split; [|done].
  destruct r as [ru rd rl rn rs]; cbn in *; subst rs. by etrans.
Qed.
End drain.

(** ** The connection cap *)

Section cap.
Context (maxConns : Z).

Definition capped (l : listener) : Prop := maxConns > 0 → l_sem l = Z.of_nat (l_active l) ∧ l_sem l ≤ maxConns.

Lemma capped_step l l' : capped l → listen_step maxConns l l' → capped l'.
Proof.
  intros Hc Hst Hm. specialize (Hc Hm). destruct Hst as [| Ho Hw Hroom | |n Hn]; cbn; try done.
  - specialize (Hroom Hm). destruct (Z.gtb_spec maxConns 0); lia.
  - rewrite Hn in Hc. destruct (Z.gtb_spec maxConns 0); lia.
Qed.

(** The connection cap holds: however connections arrive and end, at most maxConns
    handlers run at a time when a maximum is set, and the slots taken are
    exactly the handlers running, so that no slot leaks. *)
Theorem connection_cap l :
  rtc (listen_step maxConns) listening l → maxConns > 0 →
  Z.of_nat (l_active l) ≤ maxConns ∧ l_sem l = Z.of_nat (l_active l).
Proof.
  intros Hr Hm. assert (Hc : capped l).
  { cut (capped listening); [|intros _; cbn; lia]. induction Hr; eauto using capped_step. }
  specialize (Hc Hm). lia.
Qed.
End cap.

(** ** Witnesses *)

(** A request of three octets that has been read and not yet written. *)
Definition demo_relay : relay :=
  mkRelay (mkDir [] (Writing [1; 2; 3] false) [] false) (mkDir [7; 8] Reading [] false) 5 5 false.

Lemma demo_read : reads 60 true (started [1; 2; 3] [7; 8] 5) demo_relay.
Proof.
  apply (ReadsUp 60 true (started [1; 2; 3] [7; 8] 5) (mkDir [] (Writing [1; 2; 3] false) [] false) false).
  by apply (PumpRead 60 true false (mkDir [1; 2; 3] Reading [] false) [1; 2; 3] [] false).
Qed.

Lemma demo_reached : rtc (relay_step 60 true) (started [1; 2; 3] [7; 8] 5) demo_relay.
Proof. apply rtc_once, reads_step, demo_read. Qed.

Lemma relay_faithful_witness : d_dst (r_up demo_relay) `prefix_of` [1; 2; 3].
Proof. apply (relay_faithful 60 true [1; 2; 3] [7; 8] 5 demo_relay demo_reached). Defined.

Lemma idle_needs_silence_witness : 60 ≤ 65 - 5.
Proof.
  refine (idle_needs_silence 60 true [1; 2; 3] [7; 8] 5 _ demo_relay
    (mkRelay (r_up demo_relay) (r_down demo_relay) 5 65 false) (rtc_refl _ _) demo_read _ _); [|cbn; lia].
  apply rtc_once. apply (StepTime _ _ demo_relay 60). lia.
Defined.

Lemma relay_drains_witness :
  ∃ r', rtc (relay_step 60 true) demo_relay r' ∧ d_dst (r_up r') = [1; 2; 3] ∧ d_dst (r_down r') = [7; 8].
Proof.
  destruct (relay_drains 60 ltac:(lia) [1; 2; 3] [7; 8] 5 demo_relay demo_reached eq_refl)
    as (r' & H1 & _ & _ & H2 & H3).
  exists r'. split; [exact H1|]. split; [exact H2|exact H3].
Defined.

Lemma connection_cap_witness :
  Z.of_nat (l_active (mkListener false 1 1 true)) ≤ 1 ∧ l_sem (mkListener false 1 1 true) = 1.
Proof.
  apply (connection_cap 1 (mkListener false 1 1 true)); [|lia].
  eapply rtc_l; [by apply (StepAccept 1 listening)|]. apply rtc_once.
  apply (StepServe 1 (mkListener true 0 0 true)); [done|done|]. cbn. lia.
Defined.
