(* ===== verification/Cli.v ===== *)
(** * The command (cmd/ipsec2socks/main.go, resolver.go)

    From the command line to a running proxy: the checks of the options, the client's
    configuration and the proxy's, and the choice of the DNS server.  The text syntax of
    IP addresses and the reading of the CA file are inputs. *)

From S2P Require Import Prelude IkePayload Crypto Natt Session Eap Auth SaInit IkeAuth Config DataPlane Client Socks5.

Record cliOpts := {
  o_server : bytes;
  o_caFile : bytes;
  o_eapUser : bytes;
  o_eapPass : bytes;
  o_psk : bytes;
  o_localID : bytes;
  o_remoteID : bytes;
  o_listen : bytes;
  o_socksAuth : bytes;
  o_maxConns : Z;
  o_idle : Z;
  o_timeout : Z;
  o_rekey : Z;
  o_ikeRekey : Z;
  o_dpd : Z;
  o_insecure : bool;
}.

Inductive cli_error :=
| CliServer
| CliBothCredentials
| CliNoCredentials
| CliHalfEAP
| CliTimeout
| CliIdle
| CliMaxConns
| CliSocksAuth
| CliBadListen
| CliNotLoopback
| CliOpenProxy
| CliCA
| CliDial (e : dial_error).

(** strings.Contains with a one-octet separator, and strings.Cut at its first occurrence. *)
Definition contains (sep : Z) (s : bytes) : bool := existsb (Z.eqb sep) s.
Fixpoint Cut (s : bytes) (sep : Z) : bytes * bytes :=
  match s with
  | [] => ([], [])
  | b :: rest => if b =? sep then ([], rest) else let '(before, after) := Cut rest sep in (b :: before, after)
  end.

(** The position of the first and of the last occurrence of an octet. *)
Fixpoint indexByte (s : bytes) (c : Z) : option nat :=
  match s with
  | [] => None
  | b :: rest => if b =? c then Some 0%nat else S <$> indexByte rest c
  end.
Definition lastByte (s : bytes) (c : Z) : option nat :=
  (λ i, length s - 1 - i)%nat <$> indexByte (rev s) c.

(** net.SplitHostPort: 58 is a colon, 91 and 93 are the brackets; [None]: an error. *)
Definition SplitHostPort (s : bytes) : option (bytes * bytes) :=
  i ← lastByte s 58;
  let clean (host : bytes) (j k : nat) :=
    if contains 91 (drop j s) || contains 93 (drop k s) then None else Some (host, drop (S i) s) in
  if bool_decide (head s = Some 91) then
    e ← indexByte s 93;
    if bool_decide (S e = i) then clean (drop 1 (take e s)) 1%nat (S e) else None
  else
    let host := take i s in
    if contains 58 host then None else clean host 0%nat 0%nat.

(** netip.Addr.IsLoopback *)
Definition IsLoopback (a : Addr) : bool :=
  match Unmap a with
  | Addr4 (b :: _) => b =? 127
  | Addr4 [] => false
  | Addr6 b => bool_decide (b = zeros 15 ++ [1])
  end.

Section cli.
(** netip.ParseAddr ([None]: an error), and whether the CA file can be loaded. *)
Context (ParseAddr : bytes → option Addr) (loadCAPool : bytes → bool).

Definition parseIdentity (s : bytes) : Identity :=
  if contains 64 s then Email s
  else
    match ParseAddr s with
    | Some a =>
        match Unmap a with
        | Addr4 _ => IPv4 (Some a)
        | Addr6 _ => IPv6 (Some a)
        end
    | None => FQDN s
    end.

(** "localhost" *)
Definition localhost : bytes := [108; 111; 99; 97; 108; 104; 111; 115; 116].

(** Whether the host is taken for a loopback address. *)
Definition isLoopbackHost (host : bytes) : bool :=
  match ParseAddr host with
  | Some ip => IsLoopback ip
  | None => bool_decide (host = localhost)
  end.

Definition checkLoopbackBind (listen : bytes) (allow hasAuth : bool) : Res cli_error unit :=
  match SplitHostPort listen with
  | None => Err CliBadListen
  | Some (host, _) =>
      if isLoopbackHost host then Ok tt
      else if negb allow then Err CliNotLoopback
      else if negb hasAuth then Err CliOpenProxy
      else Ok tt
  end.

(** The checks of run, in order. *)
Definition checkOpts (o : cliOpts) : Res cli_error unit :=
  if negb (set (o_server o)) then Err CliServer
  else
    let hasPSK := set (o_psk o) in
    let hasEAP := set (o_eapUser o) || set (o_eapPass o) in
    if hasPSK && hasEAP then Err CliBothCredentials
    else if negb hasPSK && negb hasEAP then Err CliNoCredentials
    else if hasEAP && (negb (set (o_eapUser o)) || negb (set (o_eapPass o))) then Err CliHalfEAP
    else if o_timeout o <=? 0 then Err CliTimeout
    else if o_idle o <? 0 then Err CliIdle
    else if o_maxConns o <? 0 then Err CliMaxConns
    else if set (o_socksAuth o) && negb (contains 58 (o_socksAuth o)) then Err CliSocksAuth
    else checkLoopbackBind (o_listen o) (o_insecure o) (set (o_socksAuth o)).

(** The ipsec.Config that run builds; what it does not set is zero. *)
Definition cliConfig (o : cliOpts) : ClientConfig :=
  let hasPSK := set (o_psk o) in
  mkConfig (o_server o)
    (if set (o_localID o) then parseIdentity (o_localID o) else noIdentity)
    (if set (o_remoteID o) then parseIdentity (o_remoteID o) else noIdentity)
    (if hasPSK then [] else o_eapUser o) (if hasPSK then [] else o_eapPass o)
    (if hasPSK then o_psk o else [])
    0 0 (o_dpd o) (o_rekey o) (o_ikeRekey o) 0 0 [] [] false None None 0 0 0.

Definition cliServer (o : cliOpts) : socksServer :=
  let '(user, pass) := Cut (o_socksAuth o) 58 in
  let on := set (o_socksAuth o) in
  {| authUser := if on then user else []; authPass := if on then pass else []; authOn := on;
     maxConns := o_maxConns o; idle := o_idle o |}.

Section run.
Context {P : Primitives} {W : World} {N : Network} {R : Radius} {X : X509}.

(** run up to serving: the client and the proxy that serves through it. *)
Definition run (o : cliOpts) : Res cli_error (Client * socksServer) :=
  _ ← checkOpts o;
  _ ← (if set (o_caFile o) && negb (loadCAPool (o_caFile o)) then Err CliCA else Ok tt);
  client ← wrap_err CliDial (Dial (cliConfig o));
  Ok (client, cliServer o).
End run.
End cli.

(** ** The tunnel's resolver (resolver.go) *)

(** A DNS server: an assigned address with port 53, the fallback, or the one given. *)
Inductive dnsServer := AssignedDNS (addr : bytes) | FallbackDNS | GivenDNS (server : bytes) (addPort : bool).

Definition resolverServer (dns4 dns6 : list bytes) : dnsServer :=
  match dns4, dns6 with
  | a :: _, _ => AssignedDNS a
  | [], a :: _ => AssignedDNS a
  | [], [] => FallbackDNS
  end.

(** The server Resolver dials. *)
Definition Resolver (c : Client) (server : bytes) : dnsServer :=
  if negb (set server) then resolverServer (DNS c) (DNS6 c)
  else match SplitHostPort server with None => GivenDNS server true | Some _ => GivenDNS server false end.

(** ** The proxy is never open to the network *)

Lemma Cut_spec s sep : contains sep s = true → s = (Cut s sep).1 ++ [sep] ++ (Cut s sep).2 ∧ sep ∉ (Cut s sep).1.
Proof.
  induction s as [|b s IH]; [done|]. cbn [contains existsb Cut]. destruct (Z.eqb_spec b sep) as [->|Hne].
  - intros _. split; [done|apply not_elem_of_nil].
  - intros Hc. apply orb_true_iff in Hc as [?%Z.eqb_eq|Hc]; [congruence|]. destruct (IH Hc) as [H1 H2].
    destruct (Cut s sep) as [u p]. cbn in *. split; [by f_equal|]. by apply not_elem_of_cons.
Qed.

Section relay.
Context (ParseAddr : bytes → option Addr) (loadCAPool : bytes → bool).

(** The options bind the proxy to an address other hosts can reach. *)
Definition exposed (o : cliOpts) : Prop :=
  ∀ host port, SplitHostPort (o_listen o) = Some (host, port) → isLoopbackHost ParseAddr host = false.

Lemma checkOpts_ok o :
  checkOpts ParseAddr o = Ok tt →
  o_server o ≠ [] ∧ 0 ≤ o_idle o ∧ 0 ≤ o_maxConns o ∧
  ((o_psk o ≠ [] ∧ o_eapUser o = [] ∧ o_eapPass o = []) ∨ (o_psk o = [] ∧ o_eapUser o ≠ [] ∧ o_eapPass o ≠ [])) ∧
  (set (o_socksAuth o) = true → contains 58 (o_socksAuth o) = true) ∧
  (exposed o → set (o_socksAuth o) = true).
Proof.
  unfold checkOpts. destruct (set (o_server o)) eqn:Hs; [|done]. apply set_spec in Hs. cbn [negb]. cbv zeta.
  destruct (set (o_psk o) && _) eqn:C1; [done|]. destruct (negb (set (o_psk o)) && _) eqn:C2; [done|].
  destruct ((set (o_eapUser o) || set (o_eapPass o)) && (negb (set (o_eapUser o)) || negb (set (o_eapPass o)))) eqn:C3;
    [done|].
  assert (Hcred : (o_psk o ≠ [] ∧ o_eapUser o = [] ∧ o_eapPass o = []) ∨
                  (o_psk o = [] ∧ o_eapUser o ≠ [] ∧ o_eapPass o ≠ [])).
  { rewrite <- !set_spec, <- !set_false.
    destruct (set (o_psk o)), (set (o_eapUser o)), (set (o_eapPass o)); cbn in *; try done; tauto. }
  destruct (o_timeout o <=? 0); [done|]. destruct (o_idle o <? 0) eqn:Hi; [done|].
  destruct (o_maxConns o <? 0) eqn:Hm; [done|]. bool_prop. destruct (set (o_socksAuth o) && _) eqn:Ha; [done|].
  unfold checkLoopbackBind. destruct (SplitHostPort (o_listen o)) as [[host port]|] eqn:Hsp; [|done].
  intros Hl. split_and!; [done..| |].
  - intros Hon. rewrite Hon in Ha. by destruct (contains 58 (o_socksAuth o)).
  - intros He. rewrite (He host port) in Hl by done. destruct (o_insecure o), (set (o_socksAuth o)); done.
Qed.

Lemma cliServer_login o :
  set (o_socksAuth o) = true → contains 58 (o_socksAuth o) = true →
  authOn (cliServer o) = true ∧ (58 ∉ authUser (cliServer o)) ∧
  o_socksAuth o = authUser (cliServer o) ++ [58] ++ authPass (cliServer o).
Proof.
  intros Hs Hc. unfold cliServer. rewrite Hs. destruct (Cut_spec _ _ Hc) as [H1 H2].
  destruct (Cut (o_socksAuth o) 58) as [u p]. by cbn in *.
Qed.

(** C31. The command never runs an open relay onto the VPN: when it starts to serve on an
    address that is not loopback, a connection is given a dial only if its client sent, in
    the login of the negotiation, exactly the user and the password of -socks-auth, split
    at its first colon. *)
Theorem no_open_relay o LookupNetIP dial b w c r host port :
  checkOpts ParseAddr o = Ok tt → exposed o → bytes_ok b →
  handle (cliServer o) LookupNetIP dial (newConn b w) = (c, Ok r) → (host, port) ∈ co_dials c →
  ∃ user pass methods rest, o_socksAuth o = user ++ [58] ++ pass ∧ (58 ∉ user) ∧
    b = [socksVersion; len methods] ++ methods ++ [authVersion; len user] ++ user ++ [len pass] ++ pass ++ rest.
Proof.
  intros (_ & _ & _ & _ & Hcol & Hexp)%checkOpts_ok He Hb Hh Hin. specialize (Hexp He).
  destruct (cliServer_login o Hexp (Hcol Hexp)) as (Hon & Hnc & Heq).
  destruct (handle_dials _ _ _ _ _ _ _ _ _ Hb Hh Hin) as [(g & q & rest & -> & (methods & _ & ->) & _) _].
  exists (authUser (cliServer o)), (authPass (cliServer o)), methods, (q ++ rest). split_and!; [done..|].
  rewrite Hon. by rewrite <- !app_assoc.
Qed.

(** An address has as many octets as its family. *)
Definition addresses : Prop :=
  ∀ s a, ParseAddr s = Some a → match a with Addr4 b => len b = 4 | Addr6 b => len b = 16 end.

Lemma parseIdentity_ok s : addresses → s ≠ [] → well_formed (parseIdentity ParseAddr s) ∧ Kind (parseIdentity ParseAddr s) ≠ IDKindNone.
Proof.
  intros Ha Hs. unfold parseIdentity. destruct (contains 64 s); [by split; [right; right; right; auto|]|].
  destruct (ParseAddr s) as [a|] eqn:Hp; [|by split; [right; right; right; auto|]].
  specialize (Ha s a Hp). unfold IPv4, IPv6. destruct a as [b|b]; cbn [Unmap fmap option_fmap option_map].
  - split; [right; left; auto|done].
  - destruct (Is4In6 b) eqn:H4; cbn [Kind Data].
    + split; [right; left; split; [done|]|done]. cbn [Data]. len_lia.
    + split; [right; right; left; auto|done].
Qed.

(** The command's configuration is one the client accepts: options that pass the command's
    checks fail validate in one case only, a pre-shared key without a -local-id. *)
Theorem cli_config_accepted o :
  addresses → checkOpts ParseAddr o = Ok tt →
  (∃ cfg, validate (cliConfig ParseAddr o) = Ok cfg) ↔ (o_psk o = [] ∨ o_localID o ≠ []).
Proof.
  intros Haddr (Hs & _ & _ & Hcred & _)%checkOpts_ok.
  assert (Hid : ∀ s, well_formed (if set s then parseIdentity ParseAddr s else noIdentity) ∧
    (Kind (if set s then parseIdentity ParseAddr s else noIdentity) ≠ IDKindNone ↔ s ≠ [])).
  { intros s. destruct (set s) eqn:Hset.
    - apply set_spec in Hset. destruct (parseIdentity_ok s Haddr Hset). by repeat split.
    - apply set_false in Hset. subst s. split; [by left|]. by split. }
  destruct (Hid (o_localID o)) as [Hl1 Hl2]. destruct (Hid (o_remoteID o)) as [Hr1 _].
  assert (Hsu : suites_ok []) by (split; [constructor|by intros ? ?%elem_of_nil]).
  split.
  - intros [cfg (Hacc & _)%validate_spec]. destruct (ac_login _ Hacc) as [(_ & _ & _ & Hk)|(Hp & _)].
    + right. apply Hl2. exact Hk.
    + left. cbn in Hp. destruct (set (o_psk o)) eqn:Hps; [done|by apply set_false].
  - intros Hor. apply validate_total. constructor; try done. unfold psk_login, eap_login.
    cbn [cliConfig cc_PSK cc_Username cc_Password cc_LocalID].
    destruct Hcred as [(Hp & Hu & Hw)|(Hp & Hu & Hw)].
    + left. rewrite (proj2 (set_spec _) Hp). split_and!; [done..|]. apply Hl2. by destruct Hor.
    + right. rewrite (proj2 (set_false _) Hp). done.
Qed.
End relay.

(** ** Witnesses *)

(** -listen 0.0.0.0:1080 -insecure-allow-public-bind -socks-auth u:p:q, with an EAP login. *)
Definition demo_opts : cliOpts := {|
  o_server := [118]; o_caFile := []; o_eapUser := [117]; o_eapPass := [119]; o_psk := []; o_localID := [];
  o_remoteID := [118; 112; 110]; o_listen := [48; 46; 48; 46; 48; 46; 48; 58; 49; 48; 56; 48];
  o_socksAuth := [117; 58; 112; 58; 113]; o_maxConns := 8; o_idle := 60; o_timeout := 45; o_rekey := 0;
  o_ikeRekey := 0; o_dpd := 0; o_insecure := true |}.
Definition demo_parse (s : bytes) : option Addr :=
  if bool_decide (s = [48; 46; 48; 46; 48; 46; 48]) then Some (Addr4 [0; 0; 0; 0]) else None.

Lemma no_open_relay_witness :
  ∃ user pass methods rest, o_socksAuth demo_opts = user ++ [58] ++ pass ∧ (58 ∉ user) ∧
    demo_greeting ++ demo_request =
      [socksVersion; len methods] ++ methods ++ [authVersion; len user] ++ user ++ [len pass] ++ pass ++ rest.
Proof.
  eapply (no_open_relay demo_parse demo_opts (λ _ _, None) (λ _ _, None) (demo_greeting ++ demo_request) 3 _ _ demo_host 443).
  - vm_compute. reflexivity.
  - intros host port Hs. vm_compute in Hs. injection Hs as <- <-. vm_compute. reflexivity.
  - repeat constructor; lia.
  - vm_compute. reflexivity.
  - cbn. left.
Defined.

Lemma cli_config_accepted_witness : ∃ cfg, validate (cliConfig demo_parse demo_opts) = Ok cfg.
Proof.
  apply (cli_config_accepted demo_parse demo_opts); [|vm_compute; reflexivity|by left].
  intros s a. unfold demo_parse. destruct (bool_decide _); [|done]. by intros [= <-].
Defined.
