(* ===== verification/Transport.v ===== *)
(** * The UDP transport (internal/transport)

    A datagram channel bound to one host: DialUDP, MigrateToPort, Send, Recv and Close of
    udp.go over a packet socket, and the deadlines by which a cancelled context interrupts
    a blocked Recv.  What the socket returns is an input; net.UDPAddr.String is a
    parameter. *)

From stdpp Require Import relations.
From S2P Require Import Prelude.
From S2P Require Import Natt.
From S2P Require Import Config.
From S2P Require Import Cli.

(** ** Addresses *)

Record UDPAddr := mkUDPAddr { ua_IP : bytes; ua_Port : Z; ua_Zone : bytes }.

(** A net.Addr: a UDP address, or one of a custom socket, known by its String. *)
Inductive NetAddr := NetUDP (a : UDPAddr) | NetOther (text : bytes).

(** net.IP.Equal *)
Definition IP_Equal (ip x : bytes) : bool :=
  if len ip =? len x then bool_decide (ip = x)
  else if (len ip =? 4) && (len x =? 16) then
    Is4In6 x && bool_decide (ip = drop 12 x)
  else if (len ip =? 16) && (len x =? 4) then
    Is4In6 ip && bool_decide (drop 12 ip = x)
  else false.

Inductive tr_error := TrResolve | TrDial | TrClosed | TrContext | TrSocket.

(** A udpConn; [uc_wire]: what WriteTo was given. *)
Record udpConn := mkUdpConn { uc_remote : UDPAddr; uc_closed : bool; uc_wire : list (bytes * UDPAddr) }.

Definition maxDatagram : Z := 65535.

(** What one ReadFrom returns: a datagram and its source; or an error, with whether the
    context was done and the conn closed by then. *)
Inductive readFrom := ReadData (d : bytes) (src : NetAddr) | ReadError (ctxDone closed : bool).

(** [resolved]: ResolveUDPAddr; [opened]: whether the socket could be opened. *)
Definition DialUDP (resolved : option UDPAddr) (opened : bool) : Res tr_error udpConn :=
  match resolved with
  | None => Err TrResolve
  | Some remote => if opened then Ok (mkUdpConn remote false []) else Err TrDial
  end.

Definition MigrateToPort (port : Z) (u : udpConn) : udpConn :=
  let old := uc_remote u in
  mkUdpConn (mkUDPAddr (ua_IP old) port (ua_Zone old)) (uc_closed u) (uc_wire u).

Definition udp_Close (u : udpConn) : udpConn := mkUdpConn (uc_remote u) true (uc_wire u).

(** [written]: whether WriteTo succeeds; [ctxDone] and [closed] are read after an error. *)
Definition Send (p : bytes) (written ctxDone closed : bool) (u : udpConn) : udpConn * Res tr_error unit :=
  if uc_closed u then (u, Err TrClosed)
  else if written then (mkUdpConn (uc_remote u) (uc_closed u) (uc_wire u ++ [(p, uc_remote u)]), Ok tt)
  else (u, Err (if ctxDone then TrContext else if closed then TrClosed else TrSocket)).

Section transport.
Context (String : UDPAddr → bytes).

Definition addrString (a : NetAddr) : bytes := match a with NetUDP a => String a | NetOther s => s end.

(** The host of net.SplitHostPort; empty when it fails. *)
Definition hostOf (s : bytes) : bytes := match SplitHostPort s with Some (h, _) => h | None => [] end.

Definition sameHost (a b : NetAddr) : bool :=
  match a, b with
  | NetUDP ua, NetUDP ub => IP_Equal (ua_IP ua) (ua_IP ub)
  | _, _ => bool_decide (hostOf (addrString a) = hostOf (addrString b))
  end.

(** The loop of Recv over what the socket returns; [None] when it is still waiting. *)
Fixpoint Recv_loop (u : udpConn) (incoming : list readFrom) : option (Res tr_error bytes * list readFrom) :=
  match incoming with
  | [] => None
  | ReadError ctxDone closed :: rest =>
      Some (Err (if ctxDone then TrContext else if closed then TrClosed else TrSocket), rest)
  | ReadData d src :: rest =>
      if negb (sameHost src (NetUDP (uc_remote u))) then Recv_loop u rest
      else Some (Ok (take (Z.to_nat maxDatagram) d), rest)
  end.

(** The source returns a slice of its receive buffer, lent until the next call; the callers
    copy what they keep, so the octets are returned here. *)
Definition Recv (u : udpConn) (incoming : list readFrom) : option (Res tr_error bytes * list readFrom) :=
  if uc_closed u then Some (Err TrClosed, incoming) else Recv_loop u incoming.

(** ** One peer *)

Inductive tr_op := OpSend (p : bytes) | OpMigrate (port : Z) | OpRecv.

(** A client of the conn: the datagrams its Recv calls returned until one fails or
    waits, and the conn it leaves. *)
Fixpoint drive (ops : list tr_op) (u : udpConn) (incoming : list readFrom) : list bytes * udpConn :=
  match ops with
  | [] => ([], u)
  | OpSend p :: ops => drive ops (Send p true false false u).1 incoming
  | OpMigrate port :: ops => drive ops (MigrateToPort port u) incoming
  | OpRecv :: ops =>
      match Recv u incoming with
      | Some (Ok d, rest) => let '(ds, u') := drive ops u rest in (d :: ds, u')
      | _ => ([], u)
      end
  end.

(** The datagrams of [incoming] that come from the host [ip]. *)
Fixpoint from_host (ip : bytes) (incoming : list readFrom) : list bytes :=
  match incoming with
  | ReadData d (NetUDP a) :: rest => if IP_Equal (ua_IP a) ip then d :: from_host ip rest else from_host ip rest
  | _ => []
  end.

(** Datagrams off a host socket. *)
Definition on_udp (r : readFrom) : Prop :=
  match r with ReadData d (NetUDP _) => len d <= maxDatagram | _ => False end.

Definition recvs (ops : list tr_op) : nat := length (filter (λ o, match o with OpRecv => true | _ => false end = true) ops).

Lemma Recv_loop_next u incoming :
  Forall on_udp incoming →
  match Recv_loop u incoming with
  | None => from_host (ua_IP (uc_remote u)) incoming = []
  | Some (Ok d, rest) =>
      from_host (ua_IP (uc_remote u)) incoming = d :: from_host (ua_IP (uc_remote u)) rest ∧ Forall on_udp rest
  | Some _ => False
  end.
Proof.
  induction 1 as [|r rest Hr Hrest IH]; [done|]. destruct r as [d [a|]|]; try done. cbn.
  destruct (IP_Equal (ua_IP a) (ua_IP (uc_remote u))); cbn; [|exact IH].
  cbn in Hr. split; [|done]. f_equal. unfold len, maxDatagram in *. rewrite take_ge by lia. done.
Qed.

Lemma drive_exact ops u incoming :
  uc_closed u = false → Forall on_udp incoming →
  (drive ops u incoming).1 = take (recvs ops) (from_host (ua_IP (uc_remote u)) incoming).
Proof.
  revert u incoming. induction ops as [|o ops IH]; intros u incoming Hc Hin; [done|].
  destruct o as [p|port|]; cbn [drive recvs].
  - unfold Send. rewrite Hc. by rewrite IH.
  - by rewrite IH.
  - unfold Recv. rewrite Hc. pose proof (Recv_loop_next u incoming Hin) as Hn.
    destruct (Recv_loop u incoming) as [[[d| | |] rest]|]; try done.
    + destruct Hn as [-> Hrest]. specialize (IH u rest Hc Hrest). destruct (drive ops u rest) as [ds u'].
      cbn in IH. by rewrite IH.
    + cbn. by rewrite Hn, take_nil.
Qed.

(** Every datagram leaves for the host [ip]. *)
Definition sent_to (ip : bytes) (u : udpConn) : Prop := Forall (λ x, ua_IP x.2 = ip) (uc_wire u).

Lemma drive_sends ip ops u incoming :
  ua_IP (uc_remote u) = ip → sent_to ip u → sent_to ip (drive ops u incoming).2.
Proof.
  revert u incoming. induction ops as [|o ops IH]; intros u incoming Hip Hs; [done|].
  destruct o as [p|port|]; cbn [drive]; [apply IH..|].
  - unfold Send. by destruct (uc_closed u).
  - unfold Send. destruct (uc_closed u); [done|]. apply Forall_app. by repeat constructor.
  - done.
  - done.
  - destruct (Recv u incoming) as [[[d| | |] rest]|]; try done.
    specialize (IH u rest Hip Hs). by destruct (drive ops u rest).
Qed.

(** C38. The transport is bound to one host for its lifetime, across the move to the NAT-T
    port: on a conn that DialUDP returned, whatever Send, MigrateToPort and Recv calls
    are made, every datagram sent goes to the resolved host, and the Recv calls return
    exactly the datagrams from that host, whole, each once and in order of arrival, from
    whatever port; after Close, Recv and Send fail with ErrClosed. *)
Theorem transport_single_peer remote u ops incoming :
  DialUDP (Some remote) true = Ok u → Forall on_udp incoming →
  (drive ops u incoming).1 = take (recvs ops) (from_host (ua_IP remote) incoming) ∧
  sent_to (ua_IP remote) (drive ops u incoming).2 ∧
  (∀ p w x y, Recv (udp_Close (drive ops u incoming).2) incoming = Some (Err TrClosed, incoming) ∧
              (Send p w x y (udp_Close (drive ops u incoming).2)).2 = Err TrClosed).
Proof.
  intros [= <-] Hin. split_and!; [by rewrite drive_exact|by apply drive_sends; [|constructor]|done].
Qed.
End transport.

Definition demo_remote : UDPAddr := mkUDPAddr [192; 0; 2; 1] 500 [].
(** A stranger's datagram, and one of the server's from its old port, in the IPv6 form. *)
Definition demo_incoming : list readFrom :=
  [ReadData [9] (NetUDP (mkUDPAddr [203; 0; 113; 7] 500 []));
   ReadData [1; 2] (NetUDP (mkUDPAddr (zeros 10 ++ [255; 255; 192; 0; 2; 1]) 500 []))].

Lemma transport_single_peer_witness :
  (drive (λ _, []) [OpMigrate 4500; OpSend [7]; OpRecv] (mkUdpConn demo_remote false []) demo_incoming).1 = [[1; 2]].
Proof.
  destruct (transport_single_peer (λ _, []) demo_remote _ [OpMigrate 4500; OpSend [7]; OpRecv] demo_incoming eq_refl)
    as [H _]; [repeat constructor; vm_compute; discriminate|]. exact H.
Defined.

(** ** Cancelling a Recv *)

Module Cancel.

(** The deadline of the socket: none, the context's, or aLongTimeAgo. *)
Inductive deadline := NoDeadline | CtxDeadline | Past.

(** The function context.AfterFunc registered for the present Recv: not registered or
    stopped; waiting for the context; started, in a goroutine of its own, but not past
    SetReadDeadline; and done. *)
Inductive afterFunc := AfNone | AfWaiting | AfStarted | AfDone.

(** Recv: not running; before SetReadDeadline; before AfterFunc; in ReadFrom; before
    stop(); and before the deferred clear. *)
Inductive recv_pc := PcIdle | PcSet | PcRegister | PcRead | PcStop | PcClear.

(** [sk_done]: the context of the present Recv is done; [sk_timed]: it has a deadline;
    [sk_left]: functions of earlier calls that were started and have not run;
    [sk_failed]: how ReadFrom last failed, if it did. *)
Record socket := mkSocket {
  sk_deadline : deadline;
  sk_done : bool;
  sk_timed : bool;
  sk_own : afterFunc;
  sk_left : nat;
  sk_pc : recv_pc;
  sk_failed : option tr_error;
}.

Definition idle_socket : socket := mkSocket NoDeadline false false AfNone 0 PcIdle None.

Definition moves (pc : recv_pc) (s : socket) : socket :=
  mkSocket (sk_deadline s) (sk_done s) (sk_timed s) (sk_own s) (sk_left s) pc (sk_failed s).

(** What an error of ReadFrom becomes. *)
Definition read_error (s : socket) : tr_error := if sk_done s then TrContext else TrSocket.

Inductive sock_step (s : socket) : socket → Prop :=
| SockCall done timed :
    sk_pc s = PcIdle → sock_step s (mkSocket (sk_deadline s) done timed AfNone (sk_left s) PcSet None)
| SockSet :
    sk_pc s = PcSet →
    sock_step s (mkSocket (if sk_timed s then CtxDeadline else NoDeadline) (sk_done s) (sk_timed s) AfNone
                   (sk_left s) PcRegister None)
| SockRegister :
    sk_pc s = PcRegister →
    sock_step s (mkSocket (sk_deadline s) (sk_done s) (sk_timed s) (if sk_done s then AfStarted else AfWaiting)
                   (sk_left s) PcRead None)
(** A datagram. *)
| SockData : sk_pc s = PcRead → sock_step s (moves PcStop s)
(** The deadline expires; the context's own possibly before the context is done. *)
| SockExpire :
    sk_pc s = PcRead → sk_deadline s ≠ NoDeadline →
    sock_step s (mkSocket (sk_deadline s) (sk_done s) (sk_timed s) (sk_own s) (sk_left s) PcStop (Some (read_error s)))
(** stop(): a function that was started is not waited for. *)
| SockStop :
    sk_pc s = PcStop →
    sock_step s (mkSocket (sk_deadline s) (sk_done s) (sk_timed s) AfNone
                   (match sk_own s with AfStarted => S (sk_left s) | _ => sk_left s end) PcClear (sk_failed s))
| SockClear :
    sk_pc s = PcClear →
    sock_step s (mkSocket NoDeadline (sk_done s) (sk_timed s) (sk_own s) (sk_left s) PcIdle (sk_failed s))
(** The context is cancelled or times out. *)
| SockDone :
    sock_step s (mkSocket (sk_deadline s) true (sk_timed s)
                   (match sk_own s with AfWaiting => AfStarted | a => a end) (sk_left s) (sk_pc s) (sk_failed s))
(** The functions run. *)
| SockOwn :
    sk_own s = AfStarted →
    sock_step s (mkSocket Past (sk_done s) (sk_timed s) AfDone (sk_left s) (sk_pc s) (sk_failed s))
| SockLeft n :
    sk_left s = S n → sock_step s (mkSocket Past (sk_done s) (sk_timed s) (sk_own s) n (sk_pc s) (sk_failed s)).

(** In ReadFrom with its context done: interrupted, or the function is about to do it. *)
Record sock_inv (s : socket) : Prop := {
  si_own : match sk_pc s with
           | PcIdle | PcSet | PcRegister | PcClear => sk_own s = AfNone
           | PcRead => sk_own s ≠ AfNone
           | PcStop => True
           end;
  si_read : sk_pc s = PcRead → sk_done s = true → sk_own s = AfStarted ∨ sk_deadline s = Past;
  si_done : sk_own s = AfDone → sk_pc s = PcRead → sk_deadline s = Past;
  si_failed : sk_pc s = PcSet → sk_failed s = None;
}.

Lemma sock_inv_step s s' : sock_inv s → sock_step s s' → sock_inv s'.
Proof.
  intros [H1 H2 H3 H4] []; constructor; cbn in *; intros; simplify_eq;
    repeat match goal with H : sk_pc s = _ |- _ => rewrite H in * end; cbn in *; try done; eauto;
    destruct (sk_own s) eqn:?, (sk_done s) eqn:?, (sk_pc s) eqn:?; try done; eauto.
Qed.

Lemma sock_inv_reachable s : rtc sock_step idle_socket s → sock_inv s.
Proof.
  intros Hr. assert (H0 : sock_inv idle_socket) by by constructor.
  revert H0. induction Hr; eauto using sock_inv_step.
Qed.

(** The steps of one Recv, from its call to its return from ReadFrom. *)
Definition during (s s' : socket) : Prop := sock_step s s' ∧ sk_pc s ≠ PcIdle ∧ sk_pc s ≠ PcStop ∧ sk_pc s ≠ PcClear.

(** A Recv no function of an earlier one can reach. *)
Record undisturbed (s : socket) : Prop := {
  un_left : sk_left s = 0%nat;
  un_pc : sk_pc s ≠ PcIdle ∧ sk_pc s ≠ PcClear;
  un_own : sk_own s = AfStarted → sk_done s = true;
  un_past : sk_pc s = PcRegister ∨ sk_pc s = PcRead → sk_deadline s = Past → sk_done s = true;
  un_ctx : sk_pc s = PcRegister ∨ sk_pc s = PcRead → sk_deadline s = CtxDeadline → sk_timed s = true;
  un_failed : sk_failed s = Some TrSocket → sk_timed s = true;
}.

Lemma undisturbed_during s s' : undisturbed s → during s s' → undisturbed s'.
Proof.
  intros [H1 H2 H3 H4 H5 H6] [Hst (P1 & P2 & P3)]. destruct Hst; try done; try congruence; constructor; cbn in *;
    intros; simplify_eq; eauto; try (by destruct (sk_done s)); try (by destruct (sk_timed s)).
  unfold read_error in *. destruct (sk_deadline s) eqn:Hdl; [done|by eauto|].
  destruct (sk_done s); [done|]. discriminate (H4 (or_intror H) eq_refl).
Qed.

(** A Recv whose context is done does not stay blocked: its socket deadline is in the past,
    or the function that puts it there has been started.  And a Recv that begins when no
    function of an earlier call is outstanding fails for another reason than its context
    only at the deadline of that context. *)
Theorem recv_interruptible s :
  rtc sock_step idle_socket s →
  (sk_pc s = PcRead → sk_done s = true → sk_own s = AfStarted ∨ sk_deadline s = Past) ∧
  (∀ s', sk_pc s = PcSet → sk_left s = 0%nat → rtc during s s' → sk_failed s' = Some TrSocket → sk_timed s' = true).
Proof.
  intros Hr. pose proof (sock_inv_reachable s Hr) as Hi. split; [apply (si_read _ Hi)|].
  intros s' Hpc Hl Hd. pose proof (si_own _ Hi) as Ho. rewrite Hpc in Ho.
  assert (Hu : undisturbed s).
  { pose proof (si_failed _ Hi Hpc) as Hf. constructor; rewrite ?Hpc, ?Ho, ?Hf; try done; intros [?|?]; done. }
  revert Hu. clear -Hd. induction Hd; eauto using un_failed, undisturbed_during.
Qed.

(** One step of a concrete run, with the state it leaves evaluated. *)
Tactic Notation "takes_step" uconstr(t) := eapply rtc_l; [by apply t|cbn].

(** A Recv whose context was cancelled before the call, up to the end of its ReadFrom, and
    its function run. *)
Definition interrupted : socket := mkSocket Past true false AfDone 0 PcRead None.

Lemma interrupted_reached : rtc sock_step idle_socket interrupted.
Proof.
  takes_step (SockCall _ true false). takes_step SockSet. takes_step SockRegister. takes_step SockOwn. apply rtc_refl.
Qed.

Lemma recv_interruptible_witness : sk_own interrupted = AfStarted ∨ sk_deadline interrupted = Past.
Proof. apply (proj1 (recv_interruptible interrupted interrupted_reached)); reflexivity. Defined.

(** The reset at the top of Recv does not cover a function that was started and runs only
    afterwards: the next Recv, with a context that is neither done nor timed, then fails. *)
Theorem stale_function_interrupts_next :
  ∃ s, rtc sock_step idle_socket s ∧ sk_pc s = PcStop ∧ sk_done s = false ∧ sk_timed s = false ∧
       sk_failed s = Some TrSocket.
Proof.
  exists (mkSocket Past false false AfWaiting 0 PcStop (Some TrSocket)). split; [|done].
  takes_step (SockCall _ false true). takes_step SockSet. takes_step SockRegister. takes_step SockDone.
  takes_step SockExpire. takes_step SockStop. takes_step SockClear.
  takes_step (SockCall _ false false). takes_step SockSet. takes_step SockRegister.
  takes_step (SockLeft _ 0). takes_step SockExpire. apply rtc_refl.
Qed.
End Cancel.
