(* ===== verification/Workers.v ===== *)
(** * Goroutine lifecycles

    Three small concurrent machines as step relations: the manager that runs a
    generation's workers (internal/workers), the blocking reader the tunnel gives the
    netstack (espConn of internal/tunnel), and the lazily built netstack racing
    Close (netstack of ipsec.go). *)

From stdpp Require Import relations.
From S2P Require Import Prelude.

(** ** Counting the entries of a list of program counters *)

Fixpoint tally {A} (f : A → nat) (l : list A) : nat :=
  match l with [] => 0 | x :: l => f x + tally f l end.

Lemma tally_insert {A} (f : A → nat) l i x y :
  l !! i = Some x → (tally f (<[i := y]> l) + f x = tally f l + f y)%nat.
Proof.
  revert i. induction l as [|z l IH]; intros [|i]; cbn; try done.
  - intros [= ->]. lia.
  - intros H. rewrite <- !Nat.add_assoc. f_equal. exact (IH i H).
Qed.

Lemma tally_snoc {A} (f : A → nat) l x : tally f (l ++ [x]) = (tally f l + f x)%nat.
Proof. induction l; cbn; lia. Qed.

Lemma tally_zero {A} (f : A → nat) l : tally f l = 0%nat → ∀ i x, l !! i = Some x → f x = 0%nat.
Proof.
  induction l as [|z l IH]; cbn; [done|]. intros H [|i] x; cbn.
  - intros [= <-]. lia.
  - apply IH. lia.
Qed.

Lemma tally_positive {A} (f : A → nat) l i x : l !! i = Some x → (0 < f x)%nat → (0 < tally f l)%nat.
Proof.
  revert i. induction l as [|y l IH]; intros [|i]; cbn; [done..|by intros [= ->]; lia|].
  intros. specialize (IH i). intuition lia.
Qed.

(** A sync.Once. *)
Inductive once := OnceNew | OnceRunning | OnceDone.

(** ** workers.Manager *)

Module Manager.

(** Where a worker is: in its function; recovered from a panic, before and after
    onPanic; inside Shutdown's Once; and the deferred calls on its way out. *)
Inductive worker_pc := WRunning | WPanicked | WNotified | WCancelling | WLeaving | WInactive | WDone.

(** [mg_stopping]: a caller from outside is inside Shutdown's Once; [mg_panics]: the
    calls of onPanic. *)
Record manager := mkManager {
  mg_shutdown : bool;
  mg_cancelled : bool;
  mg_once : once;
  mg_stopping : bool;
  mg_wg : nat;
  mg_active : nat;
  mg_workers : list worker_pc;
  mg_panics : nat;
}.

Definition NewManager : manager := mkManager false false OnceNew false 0 0 [] 0.

Definition at_worker (i : nat) (pc : worker_pc) (m : manager) : manager :=
  mkManager (mg_shutdown m) (mg_cancelled m) (mg_once m) (mg_stopping m) (mg_wg m) (mg_active m)
    (<[i := pc]> (mg_workers m)) (mg_panics m).

Inductive step (m : manager) : manager → Prop :=
(** Go, when it does not return false. *)
| StepGo :
    mg_shutdown m = false →
    step m (mkManager false (mg_cancelled m) (mg_once m) (mg_stopping m) (S (mg_wg m)) (S (mg_active m))
              (mg_workers m ++ [WRunning]) (mg_panics m))
(** The worker's goroutine. *)
| StepReturn i : mg_workers m !! i = Some WRunning → step m (at_worker i WLeaving m)
| StepPanic i : mg_workers m !! i = Some WRunning → step m (at_worker i WPanicked m)
| StepNotify i :
    mg_workers m !! i = Some WPanicked →
    step m (mkManager (mg_shutdown m) (mg_cancelled m) (mg_once m) (mg_stopping m) (mg_wg m) (mg_active m)
              (<[i := WNotified]> (mg_workers m)) (S (mg_panics m)))
| StepShut i :
    mg_workers m !! i = Some WNotified → mg_once m = OnceNew →
    step m (mkManager true (mg_cancelled m) OnceRunning (mg_stopping m) (mg_wg m) (mg_active m)
              (<[i := WCancelling]> (mg_workers m)) (mg_panics m))
| StepShutAlready i :
    mg_workers m !! i = Some WNotified → mg_once m = OnceDone → step m (at_worker i WLeaving m)
| StepCancel i :
    mg_workers m !! i = Some WCancelling →
    step m (mkManager (mg_shutdown m) true OnceDone (mg_stopping m) (mg_wg m) (mg_active m)
              (<[i := WLeaving]> (mg_workers m)) (mg_panics m))
| StepInactive i :
    mg_workers m !! i = Some WLeaving →
    step m (mkManager (mg_shutdown m) (mg_cancelled m) (mg_once m) (mg_stopping m) (mg_wg m) (mg_active m - 1)
              (<[i := WInactive]> (mg_workers m)) (mg_panics m))
| StepDone i :
    mg_workers m !! i = Some WInactive →
    step m (mkManager (mg_shutdown m) (mg_cancelled m) (mg_once m) (mg_stopping m) (mg_wg m - 1) (mg_active m)
              (<[i := WDone]> (mg_workers m)) (mg_panics m))
(** Shutdown from outside, and the parent context. *)
| StepShutdown :
    mg_once m = OnceNew →
    step m (mkManager true (mg_cancelled m) OnceRunning true (mg_wg m) (mg_active m) (mg_workers m) (mg_panics m))
| StepShutdownCancel :
    mg_stopping m = true →
    step m (mkManager (mg_shutdown m) true OnceDone false (mg_wg m) (mg_active m) (mg_workers m) (mg_panics m))
| StepParent :
    step m (mkManager (mg_shutdown m) true (mg_once m) (mg_stopping m) (mg_wg m) (mg_active m) (mg_workers m)
              (mg_panics m)).

(** Wait returns when the WaitGroup is at zero. *)
Definition Wait_returns (m : manager) : Prop := mg_wg m = 0%nat.

Definition unfinished (pc : worker_pc) : nat := match pc with WDone => 0 | _ => 1 end.
Definition counted (pc : worker_pc) : nat := match pc with WDone | WInactive => 0 | _ => 1 end.
(** Workers that will still run Shutdown. *)
Definition shutting (pc : worker_pc) : nat := match pc with WNotified | WCancelling => 1 | _ => 0 end.
Definition cancelling (pc : worker_pc) : nat := match pc with WCancelling => 1 | _ => 0 end.

Record inv (m : manager) : Prop := {
  iv_wg : mg_wg m = tally unfinished (mg_workers m);
  iv_active : mg_active m = tally counted (mg_workers m);
  iv_once : mg_shutdown m = true ↔ mg_once m ≠ OnceNew;
  iv_cancel : mg_once m = OnceDone → mg_cancelled m = true;
  iv_inside : (tally cancelling (mg_workers m) + (if mg_stopping m then 1 else 0) =
               match mg_once m with OnceRunning => 1 | _ => 0 end)%nat;
  iv_panic : (0 < mg_panics m)%nat → (0 < tally shutting (mg_workers m))%nat ∨ mg_once m ≠ OnceNew;
}.

Lemma mg_inv_new : inv NewManager.
Proof. by constructor; cbn; [..|lia]. Qed.

Lemma mg_inv_step m m' : inv m → step m m' → inv m'.
Proof.
  intros [H1 H2 H3 H4 H5 H6] Hst. destruct Hst; unfold at_worker.
  all: try match goal with H : mg_workers _ !! _ = Some _ |- _ =>
    pose proof (λ y, tally_insert unfinished _ _ _ y H) as T1; pose proof (λ y, tally_insert counted _ _ _ y H) as T2;
    pose proof (λ y, tally_insert cancelling _ _ _ y H) as T3; pose proof (λ y, tally_insert shutting _ _ _ y H) as T4;
    cbn [unfinished counted cancelling shutting] in T1, T2, T3, T4 end.
  all: constructor; cbn [mg_shutdown mg_cancelled mg_once mg_stopping mg_wg mg_active mg_workers mg_panics];
    rewrite ?tally_snoc; cbn [unfinished counted cancelling shutting]; try done;
    try match goal with |- context [<[_ := ?pc]> _] => specialize (T1 pc); specialize (T2 pc); specialize (T3 pc); specialize (T4 pc);
      cbn [unfinished counted cancelling shutting] in T1, T2, T3, T4 end; try lia.
  all: destruct (mg_once m) eqn:?, (mg_stopping m) eqn:?, (mg_shutdown m) eqn:?; try discriminate; try lia;
    try (intros; right; discriminate); try (split; intros; (discriminate || reflexivity)); try done.
  all: try (intros Hp; left; destruct (H6 Hp); [lia|done]).
  all: exfalso; try (specialize (T3 WDone); cbn [cancelling] in T3; lia); destruct H3 as [_ H3]; by discriminate H3.
Qed.

Lemma mg_inv_reachable m m' : inv m → rtc step m m' → inv m'.
Proof. intros Hi Hr. revert Hi. induction Hr; eauto using mg_inv_step. Qed.

(** A manager that was shut down and whose workers have returned. *)
Definition stopped (m : manager) : Prop := mg_shutdown m = true ∧ ∀ i pc, mg_workers m !! i = Some pc → pc = WDone.

Lemma stopped_step m m' : stopped m → step m m' → stopped m' ∧ mg_workers m' = mg_workers m.
Proof.
  intros [Hs Hw] Hst. destruct Hst; try congruence; try done.
  all: match goal with H : mg_workers _ !! _ = Some _ |- _ => by specialize (Hw _ _ H) end.
Qed.

(** C35. Shutdown and Wait stop a generation for good: once a manager has been shut down and Wait
    has returned, every worker that was ever started has returned, and whatever else
    happens no worker starts or runs again; so what follows (closing the socket,
    installing the next generation) has no concurrent worker of the old one. *)
Theorem generation_stops m m' :
  rtc step NewManager m → mg_shutdown m = true → Wait_returns m → rtc step m m' →
  mg_workers m' = mg_workers m ∧ (∀ i pc, mg_workers m' !! i = Some pc → pc = WDone) ∧ mg_active m' = 0%nat.
Proof.
  intros Hr Hs Hw Hr'. pose proof (mg_inv_reachable _ _ mg_inv_new Hr) as Hi.
  assert (Hst : stopped m).
  { split; [done|]. intros i pc Hpc. unfold Wait_returns in Hw. rewrite (iv_wg _ Hi) in Hw.
    pose proof (tally_zero _ _ Hw i pc Hpc). by destruct pc. }
  assert (Hall : stopped m' ∧ mg_workers m' = mg_workers m).
  { clear Hs Hw Hi. induction Hr' as [|m1 m2 m3 H1 _ IH]; [done|].
    destruct (stopped_step _ _ Hst H1) as [H2 H3]. destruct (IH (rtc_r _ _ _ Hr H1) H2) as [? ->]. done. }
  destruct Hall as [[_ Hd] Heq]. split_and!; [done..|].
  rewrite (iv_active _ (mg_inv_reachable _ _ Hi Hr')). clear -Hd. induction (mg_workers m') as [|pc l IH]; [done|].
  cbn. rewrite (Hd 0%nat pc eq_refl). cbn. apply IH. intros i. apply (Hd (S i)).
Qed.

(** A worker's panic is not swallowed: once the workers have returned, a panic that was
    recovered has been reported to onPanic and the manager is shut down, with the context
    the other workers watch cancelled. *)
Theorem panic_shuts_down m :
  rtc step NewManager m → (0 < mg_panics m)%nat → Wait_returns m → mg_stopping m = false →
  mg_shutdown m = true ∧ mg_cancelled m = true.
Proof.
  intros Hr Hp Hw Hns. destruct (mg_inv_reachable _ _ mg_inv_new Hr) as [H1 H2 H3 H4 H5 H6].
  unfold Wait_returns in Hw. rewrite H1 in Hw. pose proof (tally_zero _ _ Hw) as Hz.
  assert (Hno : ∀ f, f WDone = 0%nat → tally f (mg_workers m) = 0%nat).
  { intros f Hf. clear -Hz Hf. induction (mg_workers m) as [|pc l IH]; [done|]. cbn.
    pose proof (Hz 0%nat pc eq_refl). destruct pc; try done. rewrite Hf. cbn. apply IH. intros i. apply (Hz (S i)). }
  rewrite (Hno cancelling), Hns in H5 by done. destruct (H6 Hp) as [H|H]; [rewrite Hno in H by done; lia|].
  split; [by apply H3|]. apply H4. by destruct (mg_once m).
Qed.

Definition one_worker : manager := mkManager true true OnceDone false 0 0 [WDone] 1.

(** A worker that panics. *)
Lemma one_worker_reached : rtc step NewManager one_worker.
Proof.
  eapply rtc_l; [by apply StepGo|]. eapply rtc_l; [by apply (StepPanic _ 0)|].
  eapply rtc_l; [by apply (StepNotify _ 0)|]. eapply rtc_l; [by apply (StepShut _ 0)|].
  eapply rtc_l; [by apply (StepCancel _ 0)|]. eapply rtc_l; [by apply (StepInactive _ 0)|].
  eapply rtc_l; [by apply (StepDone _ 0)|]. apply rtc_refl.
Qed.

Lemma generation_stops_witness : mg_workers one_worker = [WDone] ∧ mg_active one_worker = 0%nat.
Proof.
  destruct (generation_stops one_worker one_worker one_worker_reached eq_refl eq_refl (rtc_refl _ _)) as (H1 & _ & H2).
  split; [exact H1|exact H2].
Defined.

Lemma panic_shuts_down_witness : mg_shutdown one_worker = true ∧ mg_cancelled one_worker = true.
Proof. apply (panic_shuts_down one_worker one_worker_reached); [cbn; lia|reflexivity|reflexivity]. Defined.
End Manager.

(** ** The tunnel's blocking reader *)

Module EspConn.

(** What Read returned: net.ErrClosed, or timeoutError for the deadline it had read. *)
Inductive result := RClosed | RTimeout (dl : Z).

(** The one goroutine that reads (the netstack's readLoop): before it takes the deadline,
    with the deadline taken, in one of the two selects, and returned. *)
Inductive reader := RStart | RLoaded (dl : option Z) | RWait (dl : option Z) | RReturned (r : result).

(** [ec_deadline] is None for the zero Time; [ec_wake]: a token is in the buffered channel;
    [ec_setting]: calls of SetReadDeadline between the unlock and the send. *)
Record espConn := mkEspConn {
  ec_now : Z;
  ec_deadline : option Z;
  ec_wake : bool;
  ec_closed : bool;
  ec_setting : nat;
  ec_reader : reader;
}.

Definition newESPConn (now : Z) : espConn := mkEspConn now None false false 0 RStart.

Definition at_reader (r : reader) (c : espConn) : espConn :=
  mkEspConn (ec_now c) (ec_deadline c) (ec_wake c) (ec_closed c) (ec_setting c) r.

(** Read, a step at a time.  time.Until is taken after the deadline was read and the
    timer runs for what was left of it. *)
Inductive read_step (c : espConn) : espConn → Prop :=
| ReadDeadline : ec_reader c = RStart → read_step c (at_reader (RLoaded (ec_deadline c)) c)
| ReadForever : ec_reader c = RLoaded None → read_step c (at_reader (RWait None) c)
| ReadExpired dl :
    ec_reader c = RLoaded (Some dl) → dl - ec_now c <= 0 → read_step c (at_reader (RReturned (RTimeout dl)) c)
| ReadTimer dl :
    ec_reader c = RLoaded (Some dl) → 0 < dl - ec_now c → read_step c (at_reader (RWait (Some dl)) c)
| WaitClosed o : ec_reader c = RWait o → ec_closed c = true → read_step c (at_reader (RReturned RClosed) c)
| WaitTimer dl :
    ec_reader c = RWait (Some dl) → dl <= ec_now c → read_step c (at_reader (RReturned (RTimeout dl)) c)
| WaitWake o :
    ec_reader c = RWait o → ec_wake c = true →
    read_step c (mkEspConn (ec_now c) (ec_deadline c) false (ec_closed c) (ec_setting c) RStart).

(** The clock, the two halves of SetReadDeadline, Close, and the next Read. *)
Inductive env_step (c : espConn) : espConn → Prop :=
| Clock t : ec_now c <= t → env_step c (mkEspConn t (ec_deadline c) (ec_wake c) (ec_closed c) (ec_setting c) (ec_reader c))
| SetStore d : env_step c (mkEspConn (ec_now c) d (ec_wake c) (ec_closed c) (S (ec_setting c)) (ec_reader c))
| SetWake n :
    ec_setting c = S n → env_step c (mkEspConn (ec_now c) (ec_deadline c) true (ec_closed c) n (ec_reader c))
| ConnClose : env_step c (mkEspConn (ec_now c) (ec_deadline c) (ec_wake c) true (ec_setting c) (ec_reader c))
| ReadAgain r : ec_reader c = RReturned r → env_step c (at_reader RStart c).

Definition conn_step (c c' : espConn) : Prop := read_step c c' ∨ env_step c c'.

(** A deadline the reader holds is the current one, or a wake-up is on its way. *)
Definition current (c : espConn) : Prop :=
  match ec_reader c with
  | RLoaded o | RWait o => o = ec_deadline c ∨ ec_wake c = true ∨ (0 < ec_setting c)%nat
  | RStart => True
  | RReturned RClosed => ec_closed c = true
  | RReturned (RTimeout dl) => dl <= ec_now c
  end.

Lemma current_step c c' : current c → conn_step c c' → current c'.
Proof.
  unfold current. intros Hc [H|H]; destruct H; cbn; try done;
    repeat match goal with H : ec_reader _ = _ |- _ => rewrite H in Hc end; try lia; try (left; done).
  all: try exact Hc.
  all: destruct (ec_reader c) as [| | |[]]; try done; try lia; try (right; right; lia); try (right; left; done).
Qed.

Lemma current_reachable now c : rtc conn_step (newESPConn now) c → current c.
Proof.
  intros Hr. assert (H0 : current (newESPConn now)) by done. revert H0.
  induction Hr; eauto using current_step.
Qed.

(** The reader has to return: the conn is closed, or its deadline has passed and the call
    that set it is over. *)
Definition due (c : espConn) : Prop :=
  ec_closed c = true ∨ (ec_setting c = 0%nat ∧ ∃ d, ec_deadline c = Some d ∧ d <= ec_now c).

Definition weight (c : espConn) : nat :=
  ((if ec_wake c then 4 else 0) +
   match ec_reader c with RStart => 3 | RLoaded _ => 2 | RWait _ => 1 | RReturned _ => 0 end)%nat.

Lemma read_step_weight c c' : read_step c c' → (weight c' < weight c)%nat.
Proof.
  unfold weight. intros []; cbn; repeat match goal with H : ec_reader _ = _ |- _ => rewrite H end;
    try match goal with H : ec_wake _ = _ |- _ => rewrite H end; lia.
Qed.

Lemma read_step_due c c' : due c → read_step c c' → due c'.
Proof. intros Hd []; exact Hd. Qed.

Lemma due_progress c :
  current c → due c → (∃ r, ec_reader c = RReturned r) ∨ ∃ c', read_step c c'.
Proof.
  unfold current. intros Hc Hd. destruct (ec_reader c) as [|o|o|r] eqn:Hr; [| | |by left; eexists]; right.
  - eexists. by apply ReadDeadline.
  - destruct o as [dl|]; [|eexists; by apply ReadForever].
    destruct (Z_le_gt_dec (dl - ec_now c) 0); eexists; [by apply (ReadExpired _ dl)|apply (ReadTimer _ dl); [done|lia]].
  - destruct Hd as [Hcl|(Hs & d & Hdl & Hle)]; [eexists; by apply (WaitClosed _ o)|].
    destruct Hc as [-> | [Hw|?]]; [|eexists; by apply (WaitWake _ o)|lia].
    rewrite Hdl in Hr. eexists. by apply (WaitTimer _ d).
Qed.

(** C36. Read does not outlive Close or its deadline: whatever SetReadDeadline calls raced it,
    once the conn is closed, or the last deadline set has passed, the reading goroutine
    runs at most seven steps of its own, never blocks before it returns, and what it
    returns is net.ErrClosed of a closed conn or a timeout for a deadline that has passed. *)
Theorem read_unblocks now c n c' :
  rtc conn_step (newESPConn now) c → due c → nsteps read_step n c c' →
  (n <= 7)%nat ∧
  ((∃ c'', read_step c' c'') ∨
   ec_reader c' = RReturned RClosed ∧ ec_closed c' = true ∨
   ∃ dl, ec_reader c' = RReturned (RTimeout dl) ∧ dl <= ec_now c').
Proof.
  intros Hr Hd Hn. pose proof (current_reachable _ _ Hr) as Hc.
  assert (Hw : (weight c <= 7)%nat) by (unfold weight; destruct (ec_wake c), (ec_reader c); lia).
  assert (Hall : (n + weight c' <= weight c)%nat ∧ current c' ∧ due c').
  { clear Hr Hw. induction Hn as [|n c1 c2 c3 H1 _ IH]; [done|].
    destruct IH as (? & ? & ?); [by eapply read_step_due|eapply current_step; [done|by left]|].
    pose proof (read_step_weight _ _ H1). split_and!; [lia|done..]. }
  destruct Hall as (Hle & Hc' & Hd'). split; [lia|].
  destruct (due_progress _ Hc' Hd') as [[r Hr']|?]; [|by left]. right.
  unfold current in Hc'. rewrite Hr' in Hc'. destruct r; eauto.
Qed.

(** A reader in the untimed select when a deadline in the past is set. *)
Definition nudged : espConn := mkEspConn 5 (Some 3) true false 0 (RWait None).

Lemma nudged_reached : rtc conn_step (newESPConn 5) nudged.
Proof.
  eapply rtc_l; [left; by apply ReadDeadline|]. eapply rtc_l; [left; by apply ReadForever|].
  eapply rtc_l; [right; apply (SetStore _ (Some 3))|]. eapply rtc_l; [right; by apply (SetWake _ 0)|]. apply rtc_refl.
Qed.

Lemma read_unblocks_witness : due nudged ∧ ∃ c'', read_step nudged c''.
Proof.
  assert (Hd : due nudged) by (right; split; [done|]; exists 3; by cbn). split; [exact Hd|].
  destruct (read_unblocks 5 nudged 0 nudged nudged_reached Hd (nsteps_O _ _)) as (_ & [H|[[H _]|(dl & H & _)]]);
    [exact H|discriminate H|discriminate H].
Defined.
End EspConn.

(** ** The lazily built netstack and Close *)

Module Netstack.

(** A caller of netstack(): before netOnce; inside it while tun2net.New runs, with what
    New returned ([true]: a stack), and with a stack it has to close itself; before the
    last check; and returned with the stack or with an error. *)
Inductive caller :=
| CEnter | CBuilding | CBuilt (stack : bool) | CDiscard (stack : bool) | CCheck | CReturned (stack : bool).

(** Client.Close: not called, past step (1), with its snapshot of c.net, and past
    n.Close. *)
Inductive closer := KOpen | KMarked | KSnapshot (net : bool) | KClosed.

(** [cl_net]: c.net is not nil; [cl_opens] and [cl_closes] count the stacks tun2net.New
    returned and the calls of their Close. *)
Record client := mkClient {
  cl_closed : bool;
  cl_once : once;
  cl_net : bool;
  cl_closer : closer;
  cl_callers : list caller;
  cl_opens : nat;
  cl_closes : nat;
}.

Definition fresh : client := mkClient false OnceNew false KOpen [] 0 0.

Definition goes (i : nat) (pc : caller) (c : client) : client :=
  mkClient (cl_closed c) (cl_once c) (cl_net c) (cl_closer c) (<[i := pc]> (cl_callers c)) (cl_opens c) (cl_closes c).

Inductive net_step (c : client) : client → Prop :=
| NetCall :
    net_step c (mkClient (cl_closed c) (cl_once c) (cl_net c) (cl_closer c) (cl_callers c ++ [CEnter])
                  (cl_opens c) (cl_closes c))
| NetFirst i :
    cl_callers c !! i = Some CEnter → cl_once c = OnceNew →
    net_step c (mkClient (cl_closed c) OnceRunning (cl_net c) (cl_closer c) (<[i := CBuilding]> (cl_callers c))
                  (cl_opens c) (cl_closes c))
| NetLater i : cl_callers c !! i = Some CEnter → cl_once c = OnceDone → net_step c (goes i CCheck c)
| NetNew i :
    cl_callers c !! i = Some CBuilding →
    net_step c (mkClient (cl_closed c) (cl_once c) (cl_net c) (cl_closer c) (<[i := CBuilt true]> (cl_callers c))
                  (S (cl_opens c)) (cl_closes c))
| NetNewError i : cl_callers c !! i = Some CBuilding → net_step c (goes i (CBuilt false) c)
| NetTooLate i b : cl_callers c !! i = Some (CBuilt b) → cl_closed c = true → net_step c (goes i (CDiscard b) c)
| NetDiscard i b :
    cl_callers c !! i = Some (CDiscard b) →
    net_step c (mkClient (cl_closed c) OnceDone (cl_net c) (cl_closer c) (<[i := CCheck]> (cl_callers c))
                  (cl_opens c) ((if b then 1 else 0) + cl_closes c))
| NetPublish i b :
    cl_callers c !! i = Some (CBuilt b) → cl_closed c = false →
    net_step c (mkClient (cl_closed c) OnceDone b (cl_closer c) (<[i := CCheck]> (cl_callers c))
                  (cl_opens c) (cl_closes c))
| NetReturn i :
    cl_callers c !! i = Some CCheck →
    net_step c (goes i (CReturned (if cl_closed c then false else cl_net c)) c)
| CloseMark :
    cl_closer c = KOpen →
    net_step c (mkClient true (cl_once c) (cl_net c) KMarked (cl_callers c) (cl_opens c) (cl_closes c))
| CloseSnapshot :
    cl_closer c = KMarked →
    net_step c (mkClient (cl_closed c) (cl_once c) (cl_net c) (KSnapshot (cl_net c)) (cl_callers c)
                  (cl_opens c) (cl_closes c))
| CloseNet b :
    cl_closer c = KSnapshot b →
    net_step c (mkClient (cl_closed c) (cl_once c) (cl_net c) KClosed (cl_callers c)
                  (cl_opens c) ((if b then 1 else 0) + cl_closes c)).

Definition building (pc : caller) : nat := match pc with CBuilding => 1 | _ => 0 end.
(** Callers inside netOnce. *)
Definition inside (pc : caller) : nat := match pc with CBuilding | CBuilt _ | CDiscard _ => 1 | _ => 0 end.
(** Callers that own a stack nobody else knows of. *)
Definition holding (pc : caller) : nat := match pc with CBuilt true | CDiscard true => 1 | _ => 0 end.
Definition handed (pc : caller) : nat := match pc with CReturned true => 1 | _ => 0 end.

(** c.net is there and Close has not closed it. *)
Definition published (c : client) : nat :=
  match cl_closer c with KClosed => 0 | _ => if cl_net c then 1 else 0 end.

Record net_inv (c : client) : Prop := {
  ni_owner : (cl_opens c = cl_closes c + tally holding (cl_callers c) + published c)%nat;
  ni_once : (tally inside (cl_callers c) = match cl_once c with OnceRunning => 1 | _ => 0 end)%nat;
  ni_new : (cl_opens c + tally building (cl_callers c) + match cl_once c with OnceNew => 1 | _ => 0 end <= 1)%nat;
  ni_net : cl_net c = true → cl_once c = OnceDone;
  ni_closed : cl_closed c = true ↔ cl_closer c ≠ KOpen;
  ni_snapshot : ∀ b, cl_closer c = KSnapshot b → b = cl_net c;
  ni_handed : (0 < tally handed (cl_callers c))%nat → cl_net c = true;
}.

Lemma net_inv_step c c' : net_inv c → net_step c c' → net_inv c'.
Proof.
  intros [H1 H2 H3 H4 H5 H6 H7] Hst. unfold published in *. destruct Hst; unfold goes.
  all: try match goal with H : cl_callers _ !! _ = Some _ |- _ =>
    pose proof (λ y, tally_insert building _ _ _ y H) as T1; pose proof (λ y, tally_insert inside _ _ _ y H) as T2;
    pose proof (λ y, tally_insert holding _ _ _ y H) as T3; pose proof (λ y, tally_insert handed _ _ _ y H) as T4 end.
  all: constructor; unfold published;
    cbn [cl_closed cl_once cl_net cl_closer cl_callers cl_opens cl_closes]; rewrite ?tally_snoc; try done;
    try match goal with |- context [<[_ := ?pc]> _] => specialize (T1 pc); specialize (T2 pc); specialize (T3 pc); specialize (T4 pc) end.
  all: cbn [building inside holding handed] in *; try lia.
  all: destruct (cl_net c) eqn:?; [rewrite (H4 eq_refl) in *|]; destruct (cl_once c) eqn:?; try discriminate; try lia.
  all: destruct (cl_closer c) eqn:?, (cl_closed c) eqn:?; try discriminate; try lia;
    try (by destruct H5 as [H5 _]; destruct (H5 eq_refl)); try (by destruct H5 as [_ H5]; discriminate H5).
  all: try (intros ? [= <-]; reflexivity); try (split; intros; (discriminate || reflexivity)).
  all: match goal with H : KSnapshot ?b = KSnapshot ?d |- _ => pose proof (H6 _ eq_refl); assert (b = d) by congruence end;
    subst; lia.
Qed.

Lemma net_inv_reachable c : rtc net_step fresh c → net_inv c.
Proof.
  intros Hr. assert (H0 : net_inv fresh).
  { constructor; cbn; try done; try lia. }
  revert H0. induction Hr; eauto using net_inv_step.
Qed.

(** C37. The netstack is built at most once and never leaked or used after Close: however
    concurrent callers of netstack() race each other and Close, tun2net.New returns at most
    one stack, which is closed at most once; a caller that was handed a stack holds an open
    one as long as Close has not begun; and once Close has returned and no call is inside
    netOnce, the stack that was built has been closed. *)
Theorem netstack_not_leaked c :
  rtc net_step fresh c →
  (cl_opens c <= 1)%nat ∧ (cl_closes c <= cl_opens c)%nat ∧
  (∀ i, cl_callers c !! i = Some (CReturned true) → cl_closed c = false → cl_opens c = 1%nat ∧ cl_closes c = 0%nat) ∧
  (cl_closer c = KClosed → (∀ i pc, cl_callers c !! i = Some pc → inside pc = 0%nat) → cl_opens c = cl_closes c).
Proof.
  intros Hr. destruct (net_inv_reachable c Hr) as [H1 H2 H3 H4 H5 H6 H7]. unfold published in H1. split_and!; [lia..| |].
  - intros i Hi Hcl. pose proof (tally_positive handed _ _ _ Hi Nat.lt_0_1) as Hh. rewrite (H7 Hh) in H1.
    destruct (cl_closer c) eqn:Hk; [lia|..]; destruct H5 as [_ H5]; rewrite H5 in Hcl by done; done.
  - intros Hk Hin. rewrite Hk in H1. rewrite H1.
    assert (Hz : tally holding (cl_callers c) = 0%nat); [|lia].
    clear -Hin. induction (cl_callers c) as [|pc l IH]; [done|]. cbn. pose proof (Hin 0%nat pc eq_refl) as Hpc.
    rewrite IH by (intros i; apply (Hin (S i))). by destruct pc as [| |[]|[]| |].
Qed.

(** Close runs while tun2net.New does. *)
Definition raced : client := mkClient true OnceDone false KClosed [CReturned false] 1 1.

Lemma raced_reached : rtc net_step fresh raced.
Proof.
  eapply rtc_l; [by apply NetCall|]. eapply rtc_l; [by apply (NetFirst _ 0)|].
  eapply rtc_l; [by apply CloseMark|]. eapply rtc_l; [by apply CloseSnapshot|]. eapply rtc_l; [by eapply CloseNet|].
  eapply rtc_l; [by apply (NetNew _ 0)|]. eapply rtc_l; [by apply (NetTooLate _ 0 true)|].
  eapply rtc_l; [by apply (NetDiscard _ 0 true)|]. eapply rtc_l; [by apply (NetReturn _ 0)|]. apply rtc_refl.
Qed.

Lemma netstack_not_leaked_witness : cl_opens raced = cl_closes raced.
Proof.
  destruct (netstack_not_leaked raced raced_reached) as (_ & _ & _ & H). apply H; [reflexivity|].
  intros [|[|i]] pc; cbn; intros E; [by injection E as <-|discriminate E|discriminate E].
Defined.
End Netstack.
